(* ===== verification/_CoqProject ===== *)
-Q . S2P
Prelude.v
ZeroBytes.v
Hasher.v
HashChain.v
MerkleSpec.v
Smt.v
Errors.v
Batch.v
NullifierTree.v
NullifierQueue.v
NullifierSafety.v
Codec.v
TreeAccount.v
Typed.v
TreeTypes.v
TreeSafety.v
TreeFees.v
MerkleTree.v
IndexedArray.v
IndexedMerkleTree.v
TreeSlot.v
Ledger.v
AccountChecks.v
State.v
Event.v
Shared.v
NullifierPdas.v
Forester.v
CreateTree.v
Circuit.v
UserRegistry.v
Cache.v
Configs.v
Settlement.v
Merge.v
TransactProof.v
ProofInputs.v
Transact.v
Deposit.v
Program.v
EventIndex.v
TreeTrace.v
PoolMachine.v
PoolSteps.v
PoolHandlers.v
PoolCreate.v
PoolSpend.v
PoolTransact.v
PoolSafety.v
CreateSteps.v
PoolEvents.v
Gnark.v
Gadgets.v
PrimeField.v
GadgetSpecs.v
PoseidonGadget.v
SparseTree.v
ChainSpecs.v
AppendCircuit.v
NullifierRoots.v
TxCircuit.v
TxSpecs.v
TxBalance.v
TxSound.v
TxVariants.v
MergeCircuit.v
TxOwners.v
TxProved.v
TxBinding.v
MergeBinding.v
PoolProofs.v
ModelHash.v
CircuitRun.v
PoolValue.v
PoolRun.v
SpendRun.v
