(* ===== verification/Prelude.v ===== *)
(** * The shielded pool, verified

    The program keeps private balances as commitments.  A deposit or a
    transaction appends output commitments to a state tree, spends inputs by
    queueing their nullifiers, and proves in zero knowledge that the inputs are
    in a recent state root and absent from a recent nullifier root.  Everything
    the proofs are checked against lives in one tree account: an append-only
    UTXO tree, a nullifier tree that is updated in batches by proofs, and a fee
    ledger that pays whoever submits those proofs.  This library models that
    account, the hash library under it, the instruction handlers of the two
    on-chain programs that change it, the public-input encodings that bind a
    proof to it, the circuits those proofs are for, the events an indexer
    rebuilds the pool from, and the off-chain reference trees the forester proves
    with.  Program and circuits are verified together: the theorems at the end
    say what a run of the program does to the notes behind the commitments.

    ** Conventions

    Machine integers are [Z] at their width; the release profile keeps overflow
    checks on, so an unchecked operation out of range is a [Panic].  Byte arrays
    are [list byte], their length a hypothesis [is_bytes n] where it matters.
    Fallible code returns [res E A] ([Ok], [Err e], [Panic]); code that mutates
    through [&mut self] is [M S E A := S -> res E A * S], so a theorem about an
    error also says what the state is after it.  A handler runs on a [Ledger]:
    the accounts by address, the return data and the log of the transaction.
    Operations have the source's names, qualified by their file where two
    components share a name.

    ** Parts and files

    - [Prelude], [ZeroBytes]: the conventions, byte encodings, chunking and the
      constant tables of program-libs/hasher/src/zero_bytes.
    - [Hasher], [HashChain]: program-libs/hasher.  The [Hasher] trait is a class
      with its Poseidon, Sha256 and Keccak instances over the hash system calls,
      which are parameters.  Theorems: packing is injective and canonical,
      byte-wise comparisons are numeric ones, chains are binding at one length
      where the listed inputs they hash do not collide, and the table-seeded
      chain is the full chain.
    - [MerkleSpec]: the perfect Merkle tree over a list of leaves, the reference
      that both tree implementations are compared with.
    - [Smt]: program-libs/tree/src/smt.rs, the UTXO tree ([UtxoTreeLayout]).
      [repr] relates it to the list of leaves and of slot-final roots; appending
      refines the abstract append, and root lookup serves exactly the ring.
    - [Batch], [NullifierTree]: program-libs/tree/src/nullifier_tree.  One batch
      with its streamed hash chains; the tree with its two batches, queue
      insertion, proof verification and caching, the cascade, the close
      watermark and the update event.  The Groth16 verifier is a parameter.
    - [NullifierQueue], [NullifierSafety]: the abstract queue [QSpec], the
      invariant [inv] that ties the account to it, and the refinement of both
      operations.  From it: every root step is backed by a proof over the right
      values, the close watermark is safe, progress, and the event's meaning.
    - [Codec], [TreeAccount]: program-libs/tree/src/lib.rs and fees.rs.  The
      account as a record and as its 40,080 bytes, initialisation, the loaders,
      pausing and the fee operations.  The zero-copy cast is a parameter that
      reads the declared layout.
    - [Typed], [TreeTypes]: which records the declared layout can hold, and that
      every operation on a tree account keeps it inside.
    - [TreeSafety], [TreeFees]: what holds of every reachable account: it loads,
      pausing freezes writes, the fee balance is conserved, the reserve covers
      what foresters are owed, dummy inputs leave room for every spend.
    - [MerkleTree], [IndexedArray], [IndexedMerkleTree]: protocol-ops/merkle-tree,
      the reference trees.  Roots, inclusion proofs and the non-inclusion proofs
      of the sorted array, for any hasher; big integers are a parameter.
    - [Errors], [TreeSlot]: program-libs/interface/src/error.rs, shape.rs and
      tree_slot.rs: error codes, circuit shapes, the packed input flags and the
      hash chain over the tree slots a proof publishes.
    - [Ledger], [AccountChecks], [State], [Event], [Shared]: the runtime the
      handlers see, program-libs/account-checks, the account records of the
      pool, its event types, and the helpers of
      programs/shielded-pool/src/instructions/shared.
    - [NullifierPdas], [Forester], [CreateTree], [Configs], [Cache], [Settlement],
      [Merge], [TransactProof], [Transact], [Deposit], [Program]: the handlers
      of programs/shielded-pool by instruction, and the dispatch
      [process_instruction].  [UserRegistry] is programs/user-registry.
    - [Circuit], [ProofInputs]: the table of supported circuits and its
      verifying keys, and the public inputs of the transaction and merge proofs:
      what they commit to, that they fit the field, and how they net transfers.
    - [EventIndex]: sdk-libs/event, the reader of a transaction's instructions
      that rebuilds the pool's events, and the round trip of its payloads.
    - [TreeTrace], [PoolMachine], [PoolSteps], [PoolHandlers], [PoolCreate],
      [PoolSpend], [PoolTransact], [PoolSafety]: the pool as a transition system.  A step
      is one instruction of the program, or any change another program may make
      to accounts it owns; [reachable] is the closure.  Each handler is shown to
      be one of a few effects on the tree accounts and the nullifier PDAs, and
      the invariant over those effects gives: no nullifier is spent twice
      while its PDA lives, a closed PDA's nullifier is below the watermark, and
      every account the program owns has the type its discriminator says.
    - [CreateSteps], [PoolEvents]: repeated tree creation ends; the event a
      spending instruction logs tells its nullifiers and outputs.
    - [Gnark], [Gadgets], [PrimeField], [GadgetSpecs], [PoseidonGadget],
      [SparseTree], [ChainSpecs]: prover/server/circuits/gadget.  A circuit is
      [circ A], what it says of one assignment of its variables, together with
      the list of what it hashes; [runs Q m a] says that [m] is satisfied with
      result [a] and hashes only what is in [Q].  Each gadget has its meaning
      proved over the scalar field, whose order is shown prime; the Poseidon
      gadget is the textbook permutation; the chain gadgets are the hash chains
      of the program.
    - [AppendCircuit], [NullifierRoots]: nullifier_tree.go, the circuit that
      appends a batch to the nullifier tree, for any height and batch size, and
      the histories of roots a sound verifier of its proofs admits.
    - [TxCircuit], [TxSpecs], [TxBalance], [TxSound], [TxVariants], [TxOwners],
      [TxProved]: spp_transaction, the shared part and the five transaction
      circuits.  What a satisfied circuit says of inputs, outputs, balance and
      owners.
    - [MergeCircuit]: spp_merge, the two merge circuits.
    - [TxBinding], [MergeBinding]: the public input the program computes is the
      one of the circuit, so a statement determines what it is about.
    - [PoolProofs], [PoolValue]: program and circuits together.  On a run whose
      proofs are sound and whose hash inputs do not collide ([known_run]): no
      nullifier is spent twice, every served nullifier root indexes a prefix of
      the spent values, transactions and merges conserve value, and consumed
      notes are signed for.
    - [ModelHash], [CircuitRun], [PoolRun], [SpendRun]: concrete instances and
      runs for the witnesses: a hash for program and circuits, satisfied
      assignments of the circuits, and a run of the program from an empty ledger
      through a deposit, a withdrawal and a merge, with their proofs.

    ** Parameters and their laws

    [SolPoseidon] (with [PoseidonTotal], [PoseidonSized] and [PoseidonField]:
    canonical inputs hash to a canonical output), [SolHash], [ZeroBytesLaw] and
    the suffix-table laws (the constant tables are the hash chains they are
    documented to be), [Groth16] and [PoolGroth16], [Wincode] and
    [WincodeFormats] (the serialisation crate reads what it writes), [ArkFr]
    (field arithmetic), [ArrayMapLib], [BigUint], [KeyMetadata], [LoaderState],
    [TokenProgram], and [Runtime]: address derivation and the system calls,
    whose laws include [PdaDisjoint], that different seeds derive different
    addresses.  Of the circuits: [Gnark] with [GnarkLaws], the constraint builder;
    [Iden3], the Poseidon tables; [CircuitHash], the value of the hash gadget,
    with [PoseidonAgrees] and [PoseidonChecked] (the system call is the same
    function and refuses what is not a field element); [Ed25519Gadget], without a
    law; [InitRootLaw], that the initial nullifier root is that of the initial
    tree; and [AppendKeySound] and [PoolKeySound], that a verifier accepts only
    statements of satisfied circuits.  Each law has a concrete instance, used by
    the witnesses.  No collision resistance is assumed of the hash function as a
    whole, which would be false of it: binding theorems assume that the inputs
    hashed by the computations at hand, listed by executable functions, do not
    collide ([Hasher.collision_free]), and the theorems about runs take a set [Q]
    of hash inputs that holds what the run hashed and is free of collisions
    ([ideal]).

    ** Fuel

    The only fuelled loop is [NullifierTree.apply_loop]: each iteration that
    continues consumes a cached update, so one more than the number of slots is
    enough, and the refinement theorem shows that running out does not happen.
    The nullifier theorems hold for every number of ZKP batches and every ZKP
    batch size within the stated machine bounds, the account theorems for the
    deployed constants (height 32, 100 ZKP batches, sizes 10 and 4999).

    ** Not modelled

    The proof system itself and the content of the verifying keys; the
    cryptographic gadgets for Ed25519, X25519, SHA-512 and AES, whose
    correctness rests on witness hints and nonnative arithmetic; encryption and
    key derivation of the clients; and the services and tools (prover server,
    indexer storage, RPC, forester scheduling, command line), which are input and
    output around the functions modelled here. *)

From Stdlib Require Export ZArith Lia ZifyBool Strings.Byte NArith.
From stdpp Require Export base gmap numbers list.

#[global] Set Default Goal Selector "!".
Open Scope Z_scope.

#[global] Arguments Nat.div : simpl never.
#[global] Arguments Nat.modulo : simpl never.
#[global] Arguments Nat.pow : simpl never.
#[global] Arguments Z.div : simpl never.
#[global] Arguments Z.modulo : simpl never.
#[global] Arguments Z.pow : simpl never.

(** ** Bytes *)

#[global] Instance byte_eq_decision : EqDecision byte := byte_eq_dec.

#[global] Program Instance byte_countable : Countable byte :=
  inj_countable' Byte.to_N (fun n => default x00 (Byte.of_N n)) _.
Next Obligation. intros b. simpl. rewrite Byte.of_to_N. done. Qed.

Definition byte_val (b : byte) : Z := Z.of_N (Byte.to_N b).

Definition byte_of (v : Z) : byte :=
  default x00 (Byte.of_N (Z.to_N (v mod 256))).

(** A 32-byte array [[u8; 32]] is a list of bytes; its length is a typing fact
    of the source, stated as [is_bytes 32] where a theorem needs it. *)
Notation bytes := (list byte).

Definition is_bytes (n : nat) (l : bytes) : Prop := length l = n.

Definition zero32 : bytes := replicate 32 x00.

(** Little-endian and big-endian encodings of machine integers, as
    [to_le_bytes], [from_le_bytes], [to_be_bytes] and [from_be_bytes]. *)
Fixpoint le_bytes (n : nat) (v : Z) : bytes :=
  match n with
  | O => []
  | S n' => byte_of v :: le_bytes n' (v / 256)
  end.

Fixpoint le_val (l : bytes) : Z :=
  match l with
  | [] => 0
  | b :: l' => byte_val b + 256 * le_val l'
  end.

Definition be_bytes (n : nat) (v : Z) : bytes := reverse (le_bytes n v).

Definition be_val (l : bytes) : Z := le_val (reverse l).

(** Lexicographic comparison of byte arrays, Rust's [Ord] on [[u8; N]]. *)
Fixpoint bytes_ltb (a b : bytes) : bool :=
  match a, b with
  | _, [] => false
  | [], _ :: _ => true
  | x :: a', y :: b' =>
      if byte_val x <? byte_val y then true
      else if byte_val y <? byte_val x then false
      else bytes_ltb a' b'
  end.

(** ** Machine integers

    Unsigned integers of width [w] are integers in [0, 2^w); the release
    profile sets [overflow-checks = true], so an unchecked operation that
    leaves the range panics. *)

Definition in_width (w x : Z) : Prop := 0 <= x < 2 ^ w.

Notation is_u64 := (in_width 64).
Notation is_u32 := (in_width 32).
Notation is_u16 := (in_width 16).
Notation is_u8 := (in_width 8).

Definition checked_add (w a b : Z) : option Z :=
  if a + b <? 2 ^ w then Some (a + b) else None.

Definition checked_mul (w a b : Z) : option Z :=
  if a * b <? 2 ^ w then Some (a * b) else None.

Definition checked_sub (a b : Z) : option Z :=
  if b <=? a then Some (a - b) else None.

Definition saturating_add (w a b : Z) : Z := Z.min (a + b) (2 ^ w - 1).
Definition saturating_mul (w a b : Z) : Z := Z.min (a * b) (2 ^ w - 1).
Definition saturating_sub (a b : Z) : Z := Z.max 0 (a - b).

Definition div_ceil (a b : Z) : Z := (a + b - 1) / b.

(** ** Results and state

    [res E A] is the outcome of fallible code: a value, an error returned to
    the caller, or a panic, which aborts the whole instruction. *)

Inductive res (E A : Type) : Type :=
| Ok (a : A)
| Err (e : E)
| Panic.

Arguments Ok {E A} a.
Arguments Err {E A} e.
Arguments Panic {E A}.

#[global] Instance res_eq_dec `{EqDecision E, EqDecision A} : EqDecision (res E A).
Proof. solve_decision. Defined.

Definition rbind {E A B} (r : res E A) (k : A -> res E B) : res E B :=
  match r with
  | Ok a => k a
  | Err e => Err e
  | Panic => Panic
  end.

Definition map_err {E F A} (f : E -> F) (r : res E A) : res F A :=
  match r with
  | Ok a => Ok a
  | Err e => Err (f e)
  | Panic => Panic
  end.

Definition ok_or {E A} (o : option A) (e : E) : res E A :=
  match o with
  | Some a => Ok a
  | None => Err e
  end.

(** A slice index: out of range panics. *)
Definition or_panic {E A} (o : option A) : res E A :=
  match o with
  | Some a => Ok a
  | None => Panic
  end.

Definition uadd {E} (w a b : Z) : res E Z := or_panic (checked_add w a b).
Definition umul {E} (w a b : Z) : res E Z := or_panic (checked_mul w a b).
Definition usub {E} (a b : Z) : res E Z := or_panic (checked_sub a b).

(** [for x in l { acc = f(acc, x)?; }] *)
Fixpoint rfold {E A B} (f : B -> A -> res E B) (acc : B) (l : list A) : res E B :=
  match l with
  | [] => Ok acc
  | x :: l' => rbind (f acc x) (fun acc' => rfold f acc' l')
  end.

Declare Scope code_scope.
Delimit Scope code_scope with code.
Open Scope code_scope.

Notation "'let?' x ':=' e 'in' k" := (rbind e (fun x => k))
  (at level 200, x name, e at level 150, k at level 200, right associativity) : code_scope.
Notation "'let?' ' p ':=' e 'in' k" := (rbind e (fun p => k))
  (at level 200, p strict pattern, e at level 150, k at level 200, right associativity) : code_scope.
Notation "'check' b 'else' e 'in' k" := (if (b : bool) then k else Err e)
  (at level 200, b at level 150, e at level 150, k at level 200, right associativity) : code_scope.

(** [M S E A] is a method on [&mut S]: the state survives an [Err], as the
    source's partial mutations do. *)
Definition M (S E A : Type) : Type := S -> res E A * S.

Definition mret {S E A} (a : A) : M S E A := fun s => (Ok a, s).

Definition mbindM {S E A B} (m : M S E A) (k : A -> M S E B) : M S E B := fun s =>
  match m s with
  | (Ok a, s') => k a s'
  | (Err e, s') => (Err e, s')
  | (Panic, s') => (Panic, s')
  end.

Definition mlift {S E A} (r : res E A) : M S E A := fun s => (r, s).
Definition mget {S E} : M S E S := fun s => (Ok s, s).
Definition mmodify {S E} (f : S -> S) : M S E unit := fun s => (Ok tt, f s).
Definition mthrow {S E A} (e : E) : M S E A := fun s => (Err e, s).

Definition mmap_err {S E F A} (f : E -> F) (m : M S E A) : M S F A := fun s =>
  match m s with (r, s') => (map_err f r, s') end.

(** Run a method of a component stored inside the state. *)
Definition zoom {S T E A} (get : S -> T) (set : T -> S -> S) (m : M T E A) : M S E A := fun s =>
  match m (get s) with (r, t') => (r, set t' s) end.

Notation "'do!' x '<-' e ';' k" := (mbindM e (fun x => k))
  (at level 200, x name, e at level 150, k at level 200, right associativity) : code_scope.
Notation "'do!' ' p '<-' e ';' k" := (mbindM e (fun p => k))
  (at level 200, p strict pattern, e at level 150, k at level 200, right associativity) : code_scope.
Notation "'exec!' e ';' k" := (mbindM e (fun _ => k))
  (at level 200, e at level 150, k at level 200, right associativity) : code_scope.
Notation "'require' b 'else' e ';' k" := (if (b : bool) then k else mthrow e)
  (at level 200, b at level 150, e at level 150, k at level 200, right associativity) : code_scope.

(** ** Slices *)

(** [slice.chunks(n)]: consecutive groups of [n], the last one shorter. *)
Fixpoint chunks_fuel {A} (fuel n : nat) (l : list A) : list (list A) :=
  match fuel, l with
  | O, _ | _, [] => []
  | S fuel', _ => take n l :: chunks_fuel fuel' n (drop n l)
  end.

Definition chunks {A} (n : nat) (l : list A) : list (list A) :=
  chunks_fuel (length l) n l.

(** [slice.rchunks(n)]: groups of [n] from the right, the leftmost shorter. *)
Fixpoint rchunks_fuel {A} (fuel n : nat) (l : list A) : list (list A) :=
  match fuel, l with
  | O, _ | _, [] => []
  | S fuel', _ =>
      drop (length l - n) l :: rchunks_fuel fuel' n (take (length l - n) l)
  end.

Definition rchunks {A} (n : nat) (l : list A) : list (list A) :=
  rchunks_fuel (length l) n l.

(** [slice.split_last()]. *)
Definition split_last {A} (l : list A) : option (A * list A) :=
  match last l with
  | Some x => Some (x, take (length l - 1) l)
  | None => None
  end.

(** ** Automation *)

Create HintDb pool discriminated.

Lemma rbind_ok {E A B} (r : res E A) (k : A -> res E B) b :
  rbind r k = Ok b <-> exists a, r = Ok a /\ k a = Ok b.
Proof. destruct r; simpl; naive_solver. Qed.

Lemma map_err_ok {E F A} (f : E -> F) (r : res E A) a :
  map_err f r = Ok a <-> r = Ok a.
Proof. destruct r; simpl; naive_solver. Qed.

Lemma ok_or_ok {E A} (o : option A) (e : E) a : ok_or o e = Ok a <-> o = Some a.
Proof. destruct o; simpl; naive_solver. Qed.

Lemma or_panic_ok {E A} (o : option A) a : (or_panic o : res E A) = Ok a <-> o = Some a.
Proof. destruct o; simpl; naive_solver. Qed.

Lemma mbindM_ok {S E A B} (m : M S E A) (k : A -> M S E B) s b s' :
  mbindM m k s = (Ok b, s') <-> exists a s1, m s = (Ok a, s1) /\ k a s1 = (Ok b, s').
Proof.
  unfold mbindM. destruct (m s) as [[a|e|] s1]; split; intros H; try naive_solver.
Qed.

Lemma checked_add_Some w a b c : checked_add w a b = Some c <-> c = a + b /\ a + b < 2 ^ w.
Proof. unfold checked_add. case_match; rewrite ?Z.ltb_lt, ?Z.ltb_ge in *; naive_solver lia. Qed.

Lemma checked_mul_Some w a b c : checked_mul w a b = Some c <-> c = a * b /\ a * b < 2 ^ w.
Proof. unfold checked_mul. case_match; rewrite ?Z.ltb_lt, ?Z.ltb_ge in *; naive_solver lia. Qed.

Lemma checked_sub_Some a b c : checked_sub a b = Some c <-> c = a - b /\ b <= a.
Proof. unfold checked_sub. case_match; rewrite ?Z.leb_le, ?Z.leb_gt in *; naive_solver lia. Qed.

Lemma uadd_ok {E} w a b c : (uadd w a b : res E Z) = Ok c <-> c = a + b /\ a + b < 2 ^ w.
Proof. unfold uadd. by rewrite or_panic_ok, checked_add_Some. Qed.

Lemma uadd_eq {E} w a b : a + b < 2 ^ w -> (uadd w a b : res E Z) = Ok (a + b).
Proof. intros. apply uadd_ok. lia. Qed.

Lemma rfold_app {E A B} (f : B -> A -> res E B) acc l k :
  rfold f acc (l ++ k) = rbind (rfold f acc l) (fun acc' => rfold f acc' k).
Proof.
  revert acc. induction l as [|x l IH]; intros acc; simpl; [done|].
  destruct (f acc x); simpl; [apply IH|done|done].
Qed.

(** Turn the boolean tests of the code into propositions. *)
Ltac breflect :=
  repeat match goal with
  | H : context [bool_decide ?P = true] |- _ => rewrite bool_decide_eq_true in H
  | H : context [bool_decide ?P = false] |- _ => rewrite bool_decide_eq_false in H
  | H : (_ && _) = true |- _ => apply andb_true_iff in H; destruct H
  | H : (_ && _) = false |- _ => apply andb_false_iff in H
  | H : (_ || _) = true |- _ => apply orb_true_iff in H
  | H : (_ || _) = false |- _ => apply orb_false_iff in H; destruct H
  | H : negb _ = true |- _ => apply negb_true_iff in H
  | H : negb _ = false |- _ => apply negb_false_iff in H
  | H : (_ <? _) = true |- _ => apply Z.ltb_lt in H
  | H : (_ <? _) = false |- _ => apply Z.ltb_ge in H
  | H : (_ <=? _) = true |- _ => apply Z.leb_le in H
  | H : (_ <=? _) = false |- _ => apply Z.leb_gt in H
  | H : (_ =? _) = true |- _ => apply Z.eqb_eq in H
  | H : (_ =? _) = false |- _ => apply Z.eqb_neq in H
  end.

(** Invert a successful run of monadic code, one step per bind. *)
Ltac run_inv :=
  repeat match goal with
  | H : Ok _ = Ok _ |- _ => injection H as H; subst
  | H : (Ok _, _) = (Ok _, _) |- _ => injection H as H; subst
  | H : (Err _, _) = (Ok _, _) |- _ => discriminate H
  | H : (Panic, _) = (Ok _, _) |- _ => discriminate H
  | H : Err _ = Ok _ |- _ => discriminate H
  | H : Panic = Ok _ |- _ => discriminate H
  | H : rbind _ _ = Ok _ |- _ => apply rbind_ok in H as (? & ? & H)
  | H : map_err _ _ = Ok _ |- _ => apply map_err_ok in H
  | H : ok_or _ _ = Ok _ |- _ => apply ok_or_ok in H
  | H : or_panic _ = Ok _ |- _ => apply or_panic_ok in H
  | H : uadd _ _ _ = Ok _ |- _ => apply uadd_ok in H as [-> ?]
  | H : mbindM _ _ _ = (Ok _, _) |- _ => apply mbindM_ok in H as (? & ? & ? & H)
  | H : checked_add _ _ _ = Some _ |- _ => apply checked_add_Some in H as [-> ?]
  | H : checked_mul _ _ _ = Some _ |- _ => apply checked_mul_Some in H as [-> ?]
  | H : checked_sub _ _ = Some _ |- _ => apply checked_sub_Some in H as [-> ?]
  end.

(** *** Lemmas on slices *)

Lemma chunks_fuel_enough {A} n (l : list A) f1 f2 :
  (0 < n)%nat -> (length l <= f1)%nat -> (length l <= f2)%nat ->
  chunks_fuel f1 n l = chunks_fuel f2 n l.
Proof.
  intros Hn. revert f2 l. induction f1 as [|f1 IH]; intros f2 l H1 H2.
  - destruct l; [|simpl in *; lia]. by destruct f2.
  - destruct f2 as [|f2]; (destruct l as [|x l]; [done|simpl in H1, H2; try lia]).
    cbn [chunks_fuel]. f_equal. apply IH; rewrite length_drop; simpl; lia.
Qed.

Lemma chunks_unfold {A} n (l : list A) :
  (0 < n)%nat -> l <> [] -> chunks n l = take n l :: chunks n (drop n l).
Proof.
  intros Hn Hl. unfold chunks. destruct l as [|x l]; [done|].
  cbn [length chunks_fuel]. f_equal.
  apply chunks_fuel_enough; rewrite ?length_drop; simpl; lia.
Qed.

Lemma chunks_nil {A} n : chunks n (@nil A) = [].
Proof. done. Qed.

(** Induction on a list by its leading chunks. *)
Lemma chunk_ind {A} n (Hn : (0 < n)%nat) (P : list A -> Prop) :
  P [] -> (forall l, l <> [] -> P (drop n l) -> P l) -> forall l, P l.
Proof.
  intros H0 HS l. remember (length l) as k eqn:Hk.
  revert l Hk. induction (lt_wf k) as [k _ IH]. intros l ->.
  destruct l as [|x l]; [done|]. apply HS; [done|].
  eapply IH; [|done]. rewrite length_drop. simpl. lia.
Qed.

Lemma concat_chunks {A} n (l : list A) : (0 < n)%nat -> concat (chunks n l) = l.
Proof.
  intros Hn. induction l as [|l Hl IH] using (chunk_ind n Hn); [done|].
  rewrite chunks_unfold by done. simpl. by rewrite IH, take_drop.
Qed.

Lemma chunks_length_le {A} n (l : list A) :
  (0 < n)%nat -> Forall (fun c => 0 < length c <= n)%nat (chunks n l).
Proof.
  intros Hn. induction l as [|l Hl IH] using (chunk_ind n Hn); [constructor|].
  rewrite chunks_unfold by done. constructor; [|done].
  rewrite length_take. destruct l; [done|simpl; lia].
Qed.

Lemma chunks_same_shape {A B} n (l : list A) (k : list B) :
  (0 < n)%nat -> length l = length k ->
  Forall2 (fun c d => length c <= n /\ length c = length d)%nat (chunks n l) (chunks n k).
Proof.
  intros Hn. revert k. induction l as [|l Hl IH] using (chunk_ind n Hn); intros k Hk.
  - destruct k; [constructor|done].
  - assert (k <> []) by (intros ->; destruct l; done).
    rewrite (chunks_unfold n l), (chunks_unfold n k) by done. constructor.
    + rewrite !length_take. lia.
    + apply IH. rewrite !length_drop. lia.
Qed.

Lemma rchunks_fuel_enough {A} n (l : list A) f1 f2 :
  (0 < n)%nat -> (length l <= f1)%nat -> (length l <= f2)%nat ->
  rchunks_fuel f1 n l = rchunks_fuel f2 n l.
Proof.
  intros Hn. revert f2 l. induction f1 as [|f1 IH]; intros f2 l H1 H2.
  - destruct l; [|simpl in *; lia]. by destruct f2.
  - destruct f2 as [|f2]; (destruct l as [|x l]; [done|simpl in H1, H2; try lia]).
    cbn [rchunks_fuel]. f_equal. apply IH; rewrite length_take; simpl; lia.
Qed.

Lemma rchunks_unfold {A} n (l : list A) :
  (0 < n)%nat -> l <> [] ->
  rchunks n l = drop (length l - n) l :: rchunks n (take (length l - n) l).
Proof.
  intros Hn Hl. unfold rchunks. destruct l as [|x l]; [done|].
  cbn [length rchunks_fuel]. f_equal.
  apply rchunks_fuel_enough; rewrite ?length_take; simpl; lia.
Qed.

(** A full group at the right end is the first group visited. *)
Lemma rchunks_app {A} n (l g : list A) :
  (0 < n)%nat -> length g = n -> rchunks n (l ++ g) = g :: rchunks n l.
Proof.
  intros Hn Hg. rewrite rchunks_unfold; [|done|by destruct l, g; simpl in *; subst; lia || done].
  rewrite length_app, Hg. replace (length l + n - n)%nat with (length l) by lia.
  by rewrite drop_app_length, take_app_length.
Qed.

Lemma rchunks_short {A} n (l : list A) :
  (0 < length l <= n)%nat -> rchunks n l = [l].
Proof.
  intros Hl. rewrite rchunks_unfold by (try destruct l; simpl in *; lia || done).
  by replace (length l - n)%nat with 0%nat by lia.
Qed.

(** Induction on a list by its trailing full groups. *)
Lemma rchunk_ind {A} n (Hn : (0 < n)%nat) (P : list A -> Prop) :
  (forall l, (length l < n)%nat -> P l) ->
  (forall l g, length g = n -> P l -> P (l ++ g)) -> forall l, P l.
Proof.
  intros H0 HS l. remember (length l) as k eqn:Hk.
  revert l Hk. induction (lt_wf k) as [k _ IH]. intros l ->.
  destruct (decide (length l < n)%nat) as [|Hge]; [by apply H0|].
  rewrite <- (take_drop (length l - n) l). apply HS; [rewrite length_drop; lia|].
  eapply IH; [|done]. rewrite length_take. lia.
Qed.

Lemma split_last_snoc {A} (l : list A) x : split_last (l ++ [x]) = Some (x, l).
Proof.
  unfold split_last. rewrite last_snoc, length_app. simpl.
  replace (length l + 1 - 1)%nat with (length l) by lia. by rewrite take_app_length.
Qed.

Lemma split_last_Some {A} (l : list A) x p : split_last l = Some (x, p) <-> l = p ++ [x].
Proof.
  split; [|intros ->; apply split_last_snoc].
  destruct l as [|y l _] using rev_ind; [done|]. rewrite split_last_snoc. naive_solver.
Qed.

(** *** Quotients *)

Lemma div_bounds n d : (0 < d)%nat -> (n / d * d <= n < (n / d + 1) * d)%nat.
Proof.
  intros Hd. pose proof (Nat.div_mod_eq n d). pose proof (Nat.mod_upper_bound n d ltac:(lia)). nia.
Qed.

(** Two numbers of one parity that differ, differ by two. *)
Lemma parity_gap a b : (a mod 2 = b mod 2)%nat -> (a < b)%nat -> (a + 2 <= b)%nat.
Proof.
  intros Hm Hlt. pose proof (Nat.div_mod_eq a 2). pose proof (Nat.div_mod_eq b 2). lia.
Qed.

(** ** Byte encodings *)

Lemma byte_val_range b : 0 <= byte_val b < 256.
Proof.
  unfold byte_val. pose proof (Byte.to_N_bounded b). lia.
Qed.

Lemma byte_val_of v : byte_val (byte_of v) = v mod 256.
Proof.
  unfold byte_val, byte_of.
  pose proof (Z.mod_pos_bound v 256 ltac:(lia)).
  destruct (Byte.of_N (Z.to_N (v mod 256))) as [b|] eqn:Hb; simpl.
  - apply Byte.to_of_N in Hb. rewrite Hb. lia.
  - apply Byte.of_N_None_iff in Hb. lia.
Qed.

Lemma byte_val_inj a b : byte_val a = byte_val b -> a = b.
Proof.
  unfold byte_val. intros H%N2Z.inj.
  pose proof (Byte.of_to_N a) as Ha. rewrite H, Byte.of_to_N in Ha. by simplify_eq.
Qed.

Lemma byte_of_val b : byte_of (byte_val b) = b.
Proof.
  apply byte_val_inj. rewrite byte_val_of. apply Z.mod_small, byte_val_range.
Qed.

Lemma length_le_bytes n v : length (le_bytes n v) = n.
Proof. revert v. induction n as [|n IH]; intros v; simpl; [done|]. by rewrite IH. Qed.

Lemma length_be_bytes n v : length (be_bytes n v) = n.
Proof. unfold be_bytes. by rewrite length_reverse, length_le_bytes. Qed.

Lemma pow256_S n : 256 ^ Z.of_nat (S n) = 256 * 256 ^ Z.of_nat n.
Proof. rewrite Nat2Z.inj_succ, Z.pow_succ_r; lia. Qed.

Lemma le_val_bound l : 0 <= le_val l < 256 ^ Z.of_nat (length l).
Proof.
  induction l as [|b l IH]; simpl length; [simpl; lia|].
  rewrite pow256_S. simpl le_val. pose proof (byte_val_range b). nia.
Qed.

Lemma le_val_le_bytes n v : 0 <= v < 256 ^ Z.of_nat n -> le_val (le_bytes n v) = v.
Proof.
  revert v. induction n as [|n IH]; intros v Hv; [simpl in *; lia|].
  rewrite pow256_S in Hv. simpl. rewrite byte_val_of, IH.
  - pose proof (Z.div_mod v 256). lia.
  - split; [apply Z.div_pos; lia|]. apply Z.div_lt_upper_bound; lia.
Qed.

Lemma le_bytes_le_val l : le_bytes (length l) (le_val l) = l.
Proof.
  induction l as [|b l IH]; simpl; [done|].
  pose proof (byte_val_range b).
  replace (byte_of (byte_val b + 256 * le_val l)) with b.
  2:{ apply byte_val_inj. rewrite byte_val_of, Z.mul_comm, Z.mod_add by lia.
      symmetry; apply Z.mod_small; lia. }
  replace ((byte_val b + 256 * le_val l) / 256) with (le_val l); [by rewrite IH|].
  rewrite Z.mul_comm, Z.div_add, Z.div_small by lia. lia.
Qed.

Lemma le_val_inj a b : length a = length b -> le_val a = le_val b -> a = b.
Proof.
  intros Hl Hv. rewrite <- (le_bytes_le_val a), <- (le_bytes_le_val b). by rewrite Hl, Hv.
Qed.

Lemma le_val_app a b : le_val (a ++ b) = le_val a + 256 ^ Z.of_nat (length a) * le_val b.
Proof.
  induction a as [|x a IH]; simpl length; [simpl; lia|].
  rewrite pow256_S. simpl. rewrite IH. ring.
Qed.

Lemma le_val_zeros n : le_val (replicate n x00) = 0.
Proof. induction n as [|n IH]; simpl; [done|]. rewrite IH. done. Qed.

Lemma be_val_be_bytes n v : 0 <= v < 256 ^ Z.of_nat n -> be_val (be_bytes n v) = v.
Proof. intros. unfold be_val, be_bytes. rewrite reverse_involutive. by apply le_val_le_bytes. Qed.

Lemma be_val_bound l : 0 <= be_val l < 256 ^ Z.of_nat (length l).
Proof. unfold be_val. rewrite <- length_reverse. apply le_val_bound. Qed.

Lemma be_val_inj a b : length a = length b -> be_val a = be_val b -> a = b.
Proof.
  intros Hl Hv. apply (inj reverse), le_val_inj; [by rewrite !length_reverse|done].
Qed.

Lemma be_val_zeros_app n l : be_val (replicate n x00 ++ l) = be_val l.
Proof.
  unfold be_val. rewrite reverse_app, le_val_app, reverse_replicate, le_val_zeros. lia.
Qed.

Lemma be_val_cons b l : be_val (b :: l) = byte_val b * 256 ^ Z.of_nat (length l) + be_val l.
Proof.
  unfold be_val. rewrite reverse_cons, le_val_app, length_reverse. simpl. lia.
Qed.

(** Lexicographic order on arrays of one length is the order of the
    big-endian values. *)
Lemma bytes_ltb_be_val a b :
  length a = length b -> bytes_ltb a b = true <-> be_val a < be_val b.
Proof.
  revert b. induction a as [|x a IH]; intros [|y b] Hl; simpl in Hl; try done.
  simpl bytes_ltb. rewrite !be_val_cons. injection Hl as Hl. rewrite Hl.
  pose proof (be_val_bound a) as Ba. pose proof (be_val_bound b) as Bb. rewrite Hl in Ba.
  pose proof (byte_val_range x). pose proof (byte_val_range y).
  repeat case_match; breflect.
  - split; [intros _|done]. nia.
  - split; [done|intros]. nia.
  - replace (byte_val y) with (byte_val x) by lia. rewrite (IH b Hl). lia.
Qed.
