(* ===== verification/ZeroBytes.v ===== *)
(** * Precomputed hash tables

    The constant tables of the hasher crate
    (src/program-libs/hasher/src/zero_bytes and zero_suffix_hash_chain.rs),
    each entry a 32-byte big-endian literal.  What the entries are is a law of
    the hash function they were computed with and is stated where the function
    is ([Hasher], [HashChain]). *)

From S2P Require Import Prelude.

Definition MAX_HEIGHT : nat := 40.

Definition hash_literal (v : Z) : bytes := be_bytes 32 v.

Definition POSEIDON_ZERO_BYTES : list bytes := map hash_literal [
  0x0000000000000000000000000000000000000000000000000000000000000000;
  0x2098f5fb9e239eab3ceac3f27b81e481dc3124d55ffed523a839ee8446b64864;
  0x1069673dcdb12263df301a6ff584a7ec261a44cb9dc68df067a4774460b1f1e1;
  0x18f43331537ee2af2e3d758d50f72106467c6eea50371dd528d57eb2b856d238;
  0x07f9d837cb17b0d36320ffe93ba52345f1b728571a568265caac97559dbc952a;
  0x2b94cf5e8746b3f5c9631f4c5df32907a699c58c94b2ad4d7b5cec1639183f55;
  0x2dee93c5a666459646ea7d22cca9e1bcfed71e6951b953611d11dda32ea09d78;
  0x078295e5a22b84e982cf601eb639597b8b0515a88cb5ac7fa8a4aabe3c87349d;
  0x2fa5e5f18f6027a6501bec864564472a616b2e274a41211a444cbe3a99f3cc61;
  0x0e884376d0d8fd21ecb780389e941f66e45e7acce3e228ab3e2156a614fcd747;
  0x1b7201da72494f1e28717ad1a52eb469f95892f957713533de6175e5da190af2;
  0x1f8d8822725e36385200c0b201249819a6e6e1e4650808b5bebc6bface7d7636;
  0x2c5d82f66c914bafb9701589ba8cfcfb6162b0a12acf88a8d0879a0471b5f85a;
  0x14c54148a0940bb820957f5adf3fa1134ef5c4aaa113f4646458f270e0bfbfd0;
  0x190d33b12f986f961e10c0ee44d8b9af11be25588cad89d416118e4bf4ebe80c;
  0x22f98aa9ce704152ac17354914ad73ed1167ae6596af510aa5b3649325e06c92;
  0x2a7c7c9b6ce5880b9f6f228d72bf6a575a526f29c66ecceef8b753d38bba7323;
  0x2e8186e558698ec1c67af9c14d463ffc470043c9c2988b954d75dd643f36b992;
  0x0f57c5571e9a4eab49e2c8cf050dae948aef6ead647392273546249d1c1ff10f;
  0x1830ee67b5fb554ad5f63d4388800e1cfe78e310697d46e43c9ce36134f72cca;
  0x2134e76ac5d21aab186c2be1dd8f84ee880a1e46eaf712f9d371b6df22191f3e;
  0x19df90ec844ebc4ffeebd866f33859b0c051d8c958ee3aa88f8f8df3db91a5b1;
  0x18cca2a66b5c0787981e69aefd84852d74af0e93ef4912b4648c05f722efe52b;
  0x2388909415230d1b4d1304d2d54f473a628338f2efad83fadf05644549d2538d;
  0x27171fb4a97b6cc0e9e8f543b5294de866a2af2c9c8d0b1d96e673e4529ed540;
  0x2ff6650540f629fd5711a0bc74fc0d28dcb230b9392583e5f8d59696dde6ae21;
  0x120c58f143d491e95902f7f5277778a2e0ad5168f6add75669932630ce611518;
  0x1f21feb70d3f21b07bf853d5e5db03071ec495a0a565a21da2d665d279483795;
  0x24be905fa71335e14c638cc0f66a8623a826e768068a9e968bb1a1dde18a72d2;
  0x0f8666b62ed17491c50ceadead57d4cd597ef3821d65c328744c74e553dac26d;
  0x0918d46bf52d98b034413f4a1a1c41594e7a7a3f6ae08cb43d1a2a230e1959ef;
  0x1bbeb01b4c479ecde76917645e404dfa2e26f90d0afc5a65128513ad375c5ff2;
  0x2f68a1c58e257e42a17a6c61dff5551ed560b9922ab119d5ac8e184c9734ead9;
  0x1102d2f8db05e4af4842e8ad3d85ed45eb28447eb7212235a2281d5ab5d81d11;
  0x2af8c1caf560dd41f997a01ff895b21e0d1fedb786e7cad29901e12310638bdc;
  0x011d923bc14b5a13972ac7dfe6420b15b0425c98ba80edaf5e0291b4a265e0a5;
  0x224ccc25981822d4c5b6fc199fbc74828488741c7151a6159ecfaab7c2a8bac9;
  0x27e839f6f555feae824ab433e34b1c0e64ce5c75962dffc13c68571d6b4a610e;
  0x2aba203fbd04bfabc86b4d50d6abadc3c24f37efa00e700ef4d17764c2ccd57c;
  0x11eff4f60c2cdcc548c1e0770c3d64b49c01e34da4af29cfea575a19befa669c;
  0x1334fa4b552f00ef403361c935c1abcf896851003c40daa93bb0fd0a0bb9a881].

Definition SHA256_ZERO_BYTES : list bytes := map hash_literal [
  0x0000000000000000000000000000000000000000000000000000000000000000;
  0xf5a5fd42d16a20302798ef6ed309979b43003d2320d9f0e8ea9831a92759fb4b;
  0xdb56114e00fdd4c1f85c892bf35ac9a89289aaecb1ebd0a96cde606a748b5d71;
  0xc78009fdf07fc56a11f122370658a353aaa542ed63e44c4bc15ff4cd105ab33c;
  0x536d98837f2dd165a55d5eeae91485954472d56f246df256bf3cae19352a123c;
  0x9efde052aa15429fae05bad4d0b1d7c64da64d03d7a1854a588c2cb8430c0d30;
  0xd88ddfeed400a8755596b21942c1497e114c302e6118290f91e6772976041fa1;
  0x87eb0ddba57e35f6d286673802a4af5975e22506c7cf4c64bb6be5ee11527f2c;
  0x26846476fd5fc54a5d43385167c95144f2643f533cc85bb9d16b782f8d7db193;
  0x506d86582d252405b840018792cad2bf1259f1ef5aa5f887e13cb2f0094f51e1;
  0xffff0ad7e659772f9534c195c815efc4014ef1e1daed4404c06385d11192e92b;
  0x6cf04127db05441cd833107a52be852868890e4317e6a02ab47683aa75964220;
  0xb7d05f875f140027ef5118a2247bbb84ce8f2f0f1123623085daf7960c329f5f;
  0xdf6af5f5bbdb6be9ef8aa618e4bf8073960867171e29676f8b284dea6a08a85e;
  0xb58d900f5e182e3c50ef74969ea16c7726c549757cc23523c369587da7293784;
  0xd49a7502ffcfb0340b1d7885688500ca308161a7f96b62df9d083b71fcc8f2bb;
  0x8fe6b1689256c0d385f42f5bbe2027a22c1996e110ba97c171d3e5948de92beb;
  0x8d0d63c39ebade8509e0ae3c9c3876fb5fa112be18f905ecacfecb92057603ab;
  0x95eec8b2e541cad4e91de38385f2e046619f54496c2382cb6cacd5b98c26f5a4;
  0xf893e908917775b62bff23294dbbe3a1cd8e6cc1c35b4801887b646a6f81f17f;
  0xcddba7b592e3133393c16194fac7431abf2f5485ed711db282183c819e08ebaa;
  0x8a8d7fe3af8caa085a7639a832001457dfb9128a8061142ad0335629ff23ff9c;
  0xfeb3c337d7a51a6fbf00b9e34c52e1c9195c969bd4e7a0bfd51d5c5bed9c1167;
  0xe71f0aa83cc32edfbefa9f4d3e0174ca85182eec9f3a09f6a6c0df6377a510d7;
  0x31206fa80a50bb6abe29085058f16212212a60eec8f049fecb92d8c8e0a84bc0;
  0x21352bfecbeddde993839f614c3dac0a3ee37543f9b412b16199dc158e23b544;
  0x619e312724bb6d7c3153ed9de791d764a366b389af13c58bf8a8d90481a46765;
  0x7cdd2986268250628d0c10e385c58c6191e6fbe05191bcc04f133f2cea72c1c4;
  0x848930bd7ba8cac54661072113fb278869e07bb8587f91392933374d017bcbe1;
  0x8869ff2c22b28cc10510d9853292803328be4fb0e80495e8bb8d271f5b889636;
  0xb5fe28e79f1b850f8658246ce9b6a1e7b49fc06db7143e8fe0b4f2b0c5523a5c;
  0x985e929f70af28d0bdd1a90a808f977f597c7c778c489e98d3bd8910d31ac0f7;
  0xc6f67e02e6e4e1bdefb994c6098953f34636ba2b6ca20a4721d2b26a886722ff;
  0x1c9a7e5ff1cf48b4ad1582d3f4e4a1004f3b20d8c5a2b71387a4254ad933ebc5;
  0x2f075ae229646b6f6aed19a5e372cf295081401eb893ff599b3f9acc0c0d3e7d;
  0x328921deb59612076801e8cd61592107b5c67c79b846595cc6320c395b46362c;
  0xbfb909fdb236ad2411b4e4883810a074b840464689986c3f8a8091827e17c327;
  0x55d8fb3687ba3ba49f342c77f5a1f89bec83d811446e1a467139213d640b6a74;
  0xf7210d4f8e7e1039790e7bf4efa207555a10a6db1dd4b95da313aaa88b88fe76;
  0xad21b516cbc645ffe34ab5de1c8aef8cd4e7f8d2b51e8e1456adc7563cda206f;
  0x6bfe8d2bcc4237b74a5047058ef455339ecd7360cb63bfbb8ee5448e6430ba04].

Definition SHA256_BE_ZERO_BYTES : list bytes := map hash_literal [
  0x0000000000000000000000000000000000000000000000000000000000000000;
  0x00a5fd42d16a20302798ef6ed309979b43003d2320d9f0e8ea9831a92759fb4b;
  0x00e7daa555edb96451ed45e3408288f90ccbcca9ce8c9bc7d26ddf0feaedebb5;
  0x0067e95f0aaee1d18b23915a6df88cc48a09923e8b534e6578fc3ef35cd2f7cb;
  0x00c14aa613538bd0ebc83e81b592755cb9204686a22299cc2e00e2dc0d4a7807;
  0x00d383eee7e7e44a901066c116342a0295b76a117504a942390a8666d26eed5e;
  0x005167319ee5ef1a80a738122bc52a15b6e48a39f6f9dd8b149ac2f00846de15;
  0x003790fe3cabd1f2076420f221afb54c48bc38769d147e6f318fd87ba0f1afa1;
  0x00a3e21eaae102582d6bfe5899df1dab95b735c7d54db6e8ea75557fcdfec430;
  0x00af669799c21c90a00edde73d99755a9dc478abf2d61644604adf9e5fcc5600;
  0x0007d10d437d51d464ca3b84c100ab978fad300ffbdcc6caf94a658f9419fb4d;
  0x00e08eb33f155a1d56b4fe21153ea9348c5b006a36abad338d9a47272b427241;
  0x0001d7ab6c176daddeb3aa09af7f23f5109c3be29ec5096c85a66c7437639e1d;
  0x00434b1908842462ae9b5d212128b9adc323fd8fe0bead885bf5fca7b6dfdb16;
  0x00b16eb2b00460e1e4be2e46c6a2586c415394549b36d5bf72f0b61dfe3b4d44;
  0x00953e72d0e9478260883b3c99580d09f7b7925c9b7ee2dbd48e0908d974a6ed;
  0x002269b7f63d0fd13d968b9a126b0094cfd78300903d92531e763d10e3c18a66;
  0x00474fda22fb3ee58673197edd6a6ea939a78995e16cc079db87dd7ebce343ac;
  0x00b7bd563000c5ba20bc236ef958fe18bf8ba062e6abb28ec16307d27a6050a0;
  0x00e2f3375145c0e46a7354701a4820771629f4ac1b4ccaaabbe8c51d45479c07;
  0x005e5d8da8b9eb7969e923d659d2b21dcddbd81565a209bde91b8c74c97d72e0;
  0x00ad4ac5645b93b5ceeabe73613ecfddb0909b565c5337ff0c94478e6125a52a;
  0x00f8b36a561fa075c620205fc1e1a738cb1fd04ec4983bc256ec5adfa9a2d927;
  0x00198b0eec77a024f3cc67767a6ba84af4f60952cd2623de4d7b82c5cf00fc06;
  0x003cb5125f33fffb3032e59cba34de08238c09bd601691171807ad576252220c;
  0x007d14c1980f722c11ab7fd53d9fd91cde91cfd2d64253f9473244bd34dd0917;
  0x00c765ae60822f9f0a51ec6ff3f79d9df4b6c5a14d48084ea938b31ec0704e8e;
  0x00f80e193d1235c65053b00d2152e4c060596c19bd396d91b0ff4abac97932f7;
  0x00717e7195344b50fdffd2b86b5943a0bf5bc6dd139c9fd5e825619203f3150b;
  0x003fc56e654078980ee1324288541d3c3be997ccc4dfae5a2565215c685a14e5;
  0x00579f4e5289dae6972c36101adc7ba35898b363cacb2c56e18bd3dc355854cd;
  0x00c603f9c9241fe1d54d86e8bdd1fc57634cf3933f336d3b565b31f3d459cafc;
  0x008055ad5befbaabed0d9c1b24d51351832cb917156288ec0f3f1297dafa3616;
  0x00243795b5a6ad384d16732e5963c9abc046cb445e32311c628e18734fc79de7;
  0x00932375d3d9176409f5a136d9ca4cfcab8fd479b3fe40d410d91354f9cf6eb3;
  0x00478b73efc74c8ebfd4dac475bb52bc1989ab9ea7607d1a180fa1c5d6f45cc6;
  0x00a7e5e440c702c0ab6c09e8b5d167f6b70c55f454b1d94e6189c99ca10d69ba;
  0x007078c4b71fc9314f40f96aa83881c9213d3b908c10a49b22f317bbdbaa5c43;
  0x006a5c1f005c7baac167273467fec541a6ac1fe98f00db92d8f21bf364d4fa22;
  0x004655278df4f6dacdab715d2f2cb6eff02aab9a125d397e3933e82e8e8972a9;
  0x007078ec2d19b7e2d50b253d32fdda277df19a8417ad054566405eb729d57ed7].

Definition KECCAK_ZERO_BYTES : list bytes := map hash_literal [
  0x0000000000000000000000000000000000000000000000000000000000000000;
  0xad3228b676f7d3cd4284a5443f17f1962b36e491b30a40b2405849e597ba5fb5;
  0xb4c11951957c6f8f642c4af61cd6b24640fec6dc7fc607ee8206a99e92410d30;
  0x21ddb9a356815c3fac1026b6dec5df3124afbadb485c9ba5a3e3398a04b7ba85;
  0xe58769b32a1beaf1ea27375a44095a0d1fb664ce2dd358e7fcbfb78c26a19344;
  0x0eb01ebfc9ed27500cd4dfc979272d1f0913cc9f66540d7e8005811109e1cf2d;
  0x887c22bd8750d34016ac3c66b5ff102dacdd73f6b014e710b51e8022af9a1968;
  0xffd70157e48063fc33c97a050f7f640233bf646cc98d9524c6b92bcf3ab56f83;
  0x9867cc5f7f196b93bae1e27e6320742445d290f2263827498b54fec539f756af;
  0xcefad4e508c098b9a7e1d8feb19955fb02ba9675585078710969d3440f5054e0;
  0xf9dc3e7fe016e050eff260334f18a5d4fe391d82092319f5964f2e2eb7c1c3a5;
  0xf8b13a49e282f609c317a833fb8d976d11517c571d1221a265d25af778ecf892;
  0x3490c6ceeb450aecdc82e28293031d10c7d73bf85e57bf041a97360aa2c5d99c;
  0xc1df82d9c4b87413eae2ef048f94b4d3554cea73d92b0f7af96e0271c691e2bb;
  0x5c67add7c6caf302256adedf7ab114da0acfe870d449a3a489f781d659e8becc;
  0xda7bce9f4e8618b6bd2f4132ce798cdc7a60e7e1460a7299e3c6342a579626d2;
  0x2733e50f526ec2fa19a22b31e8ed50f23cd1fdf94c9154ed3a7609a2f1ff981f;
  0xe1d3b5c807b281e4683cc6d6315cf95b9ade8641defcb32372f1c126e398ef7a;
  0x5a2dce0a8a7f68bb74560f8f71837c2c2ebbcbf7fffb42ae1896f13f7c7479a0;
  0xb46a28b6f55540f89444f63de0378e3d121be09e06cc9ded1c20e65876d36aa0;
  0xc65e9645644786b620e2dd2ad648ddfcbf4a7e5b1a3a4ecfe7f64667a3f0b7e2;
  0xf4418588ed35a2458cffeb39b93d26f18d2ab13bdce6aee58e7b99359ec2dfd9;
  0x5a9c16dc00d6ef18b7933a6f8dc65ccb55667138776f7dea101070dc8796e377;
  0x4df84f40ae0c8229d0d6069e5c8f39a7c299677a09d367fc7b05e3bc380ee652;
  0xcdc72595f74c7b1043d0e1ffbab734648c838dfb0527d971b602bc216c9619ef;
  0x0abf5ac974a1ed57f4050aa510dd9c74f508277b39d7973bb2dfccc5eeb0618d;
  0xb8cd74046ff337f0a7bf2c8e03e10f642c1886798d71806ab1e888d9e5ee87d0;
  0x838c5655cb21c6cb83313b5a631175dff4963772cce9108188b34ac87c81c41e;
  0x662ee4dd2dd7b2bc707961b1e646c4047669dcb6584f0d8d770daf5d7e7deb2e;
  0x388ab20e2573d171a88108e79d820e98f26c0b84aa8b2f4aa4968dbb818ea322;
  0x93237c50ba75ee485f4c22adf2f741400bdf8d6a9cc7df7ecae576221665d735;
  0x8448818bb4ae4562849e949e17ac16e0be16688e156b5cf15e098c627c0056a9;
  0x27ae5ba08d7291c96c8cbddcc148bf48a6d68c7974b94356f53754ef6171d757;
  0xbf558bebd2ceec7f3c5dce04a4782f88c2c6036ae78ee206d0bc5289d20461a2;
  0xe21908c2968c0699040a6fd866a577a99a9d2ec88745c815fd4a472c789244da;
  0xae824d72ddc272aab68a8c3022e36f10454437c1886f3ff9927b64f232df414f;
  0x27e429a4bef3083bc31a671d046ea5c1f5b8c3094d72868d9dfdc12c7334ac5f;
  0x743cc5c365a9a6a15c1f240ac25880c7a9d1de290696cb766074a1d83d927816;
  0x4adcf616c3bfabf63999a01966c998b7bb572774035a63ead49da73b5987f347;
  0x75786645d0c5dd7c04a2f8a75dcae085213652f5bce3ea8b9b9bedd1cab3c5e9;
  0xb88b152c9b8a7b79637d35911848b0c41e7cc7cca2ab4fe9a15f9c38bb4bb939].

Definition ZERO_SUFFIX_CHAINS : list bytes := map hash_literal [
  0x0000000000000000000000000000000000000000000000000000000000000000;
  0x0532fd436e19c70e51209694d9c215250937921b8b79060488c1206db73e9946;
  0x222cfa7d71f774d4487b280c0cc08e3cd2b9a86ef55ead0c0b795c3ff18b1218;
  0x05ffd3791fc65890b6cdd82c6ca36e3b897c1996cab034019ff01a683d462054;
  0x0ba4c4ef2b93cc95e67e42deedfc2d44128cc7824ab372524da35d9058abb8df;
  0x2b9fb731be7da203d67475eab641459910393a6588c05a47ff03d8d1fa2289e1;
  0x1d953d02fdb11e8940ceb2607bf2ee3b732cf67faa2f474f064092d2ef2e9a75;
  0x20ef7efce9a1c51a4bf201e1780795093ee31f2a6c327da3d0cfc0e72e1595c3;
  0x2d6fd572bf9ce28a14fc9332b18a012d61fb2d04dac22de154324ed3af4153c3;
  0x0fd2857c4e79f293f2b6e280d44b53533c0f235c46fd768d450bff196db0c481;
  0x1b73406f050ea1f202cba6ef9c0023f019b2df15194457ed6ea6ffac3a693809;
  0x0ac24d49d1d471af6592906ae02264726efbdc14036054ea6512b652fe251913;
  0x03a463c6bcdae725457ed4280e8a96c67dfeee0857568da813766235b5de031a;
  0x13a4d31c87628aaf35500bddff64129d4b6f37944059d3938ead6e6c866a9184;
  0x26072fda7ccca890ccfff2a314b9a2ada24f5122c611e153f9d94ca0665070ab;
  0x00ed391a98c0bcbfb2c3d0e07be56e8059c2848a2935bdba0b1fd56704533208;
  0x1a323c8c2b0e9395a3705dd8b4d8cee34f8eebd5fef167237a2a06eab6a87019;
  0x0103172d6deb6743eebd5b0e1bbae0e2eaefa55d74f757c94f393803cf4e027d;
  0x05711f600e6a01d2fd02ffdb11a38887f298a04e650dad6cb7b3748a0ea3bb11].

