(* ===== verification/Hasher.v ===== *)
(** * Hash functions and byte packing

    The hasher crate (src/program-libs/hasher/src): its error type, the
    [Hasher] trait with the Poseidon, SHA-256, SHA-256-BE and Keccak
    instances, and the packing primitives.  The hash functions themselves are
    runtime system calls: they are parameters ([SolPoseidon], [SolHash]), and
    the properties of them that the code relies on are named predicates. *)

From S2P Require Import Prelude ZeroBytes.

(** ** Errors *)

Inductive PoseidonSyscallError : Set :=
| InvalidParameters
| InvalidEndianness
| InvalidNumberOfInputs
| EmptyInput
| PoseidonInvalidInputLength
| BytesToPrimeFieldElement
| InputLargerThanModulus
| VecToArray
| U64Tou8
| BytesToBigInt
| InvalidWidthCircom
| Unexpected.

#[global] Instance PoseidonSyscallError_eq_dec : EqDecision PoseidonSyscallError.
Proof. solve_decision. Defined.

Definition poseidon_error_of_u64 (error : Z) : PoseidonSyscallError :=
  match error with
  | 1 => InvalidParameters
  | 2 => InvalidEndianness
  | 3 => InvalidNumberOfInputs
  | 4 => EmptyInput
  | 5 => PoseidonInvalidInputLength
  | 6 => BytesToPrimeFieldElement
  | 7 => InputLargerThanModulus
  | 8 => VecToArray
  | 9 => U64Tou8
  | 10 => BytesToBigInt
  | 11 => InvalidWidthCircom
  | _ => Unexpected
  end.

Definition u64_of_poseidon_error (error : PoseidonSyscallError) : Z :=
  match error with
  | InvalidParameters => 1
  | InvalidEndianness => 2
  | InvalidNumberOfInputs => 3
  | EmptyInput => 4
  | PoseidonInvalidInputLength => 5
  | BytesToPrimeFieldElement => 6
  | InputLargerThanModulus => 7
  | VecToArray => 8
  | U64Tou8 => 9
  | BytesToBigInt => 10
  | InvalidWidthCircom => 11
  | Unexpected => 12
  end.

(** The on-chain build: the [Poseidon(PoseidonError)] variant exists only
    off chain. *)
Inductive HasherError : Set :=
| IntegerOverflow
| PoseidonSyscall (e : PoseidonSyscallError)
| UnknownSolanaSyscall (e : Z)
| InvalidInputLength (allowed provided : Z)
| InvalidNumFields.

#[global] Instance HasherError_eq_dec : EqDecision HasherError.
Proof. solve_decision. Defined.

Definition u32_try_from (v : Z) : option Z := if v <? 2 ^ 32 then Some v else None.

Definition u32_of_hasher_error (e : HasherError) : Z :=
  match e with
  | IntegerOverflow => 8001
  | PoseidonSyscall e => default 8003 (u32_try_from (u64_of_poseidon_error e))
  | UnknownSolanaSyscall e => default 8004 (u32_try_from e)
  | InvalidInputLength _ _ => 8005
  | InvalidNumFields => 8006
  end.

(** ** The Hasher trait *)

Class Hasher : Type := {
  ID : Z;
  hash : bytes -> res HasherError bytes;
  hashv : list bytes -> res HasherError bytes;
  zero_bytes : list bytes;
}.

#[global] Arguments hash : simpl never.
#[global] Arguments hashv : simpl never.
#[global] Arguments zero_bytes : simpl never.

(** What the Merkle trees rely on: the table of empty-subtree hashes belongs to
    the hash function. *)
Class ZeroBytesLaw (H : Hasher) : Prop := {
  zero_bytes_0 : @zero_bytes H !! 0%nat = Some zero32;
  zero_bytes_S : forall i z,
    @zero_bytes H !! i = Some z -> (i < MAX_HEIGHT)%nat ->
    exists z', @zero_bytes H !! S i = Some z' /\ @hashv H [z; z] = Ok z';
}.

(** *** System calls

    [sol_poseidon vals] is the return code and the result buffer of the
    Poseidon system call on 32-byte big-endian inputs; [sol_sha256] and
    [sol_keccak256] fill the result buffer. *)
Class SolPoseidon : Type := sol_poseidon : list bytes -> Z * bytes.
Class SolHash : Type := {
  sol_sha256 : list bytes -> bytes;
  sol_keccak256 : list bytes -> bytes;
}.

Module Poseidon.

Section with_syscall.
Context `{SolPoseidon}.

(** The on-chain branch of [Poseidon::hashv]. *)
Definition hashv (vals : list bytes) : res HasherError bytes :=
  match find (fun val => negb (Nat.eqb (length val) 32)) vals with
  | Some val => Err (InvalidInputLength (Z.of_nat (length val)) 32)
  | None =>
      match sol_poseidon vals with
      | (0, hash_result) => Ok hash_result
      | (e, _) => Err (PoseidonSyscall (poseidon_error_of_u64 e))
      end
  end.

Definition hash (val : bytes) : res HasherError bytes := hashv [val].

#[global] Instance Poseidon : Hasher := {
  Hasher.ID := 0;
  Hasher.hash := hash;
  Hasher.hashv := hashv;
  Hasher.zero_bytes := POSEIDON_ZERO_BYTES;
}.

End with_syscall.
End Poseidon.

Module Sha256.

Section with_syscall.
Context `{SolHash}.

Definition hashv (vals : list bytes) : res HasherError bytes := Ok (sol_sha256 vals).

Definition hash (val : bytes) : res HasherError bytes := hashv [val].

Definition Sha256 : Hasher :=
  {| Hasher.ID := 1; Hasher.hash := hash; Hasher.hashv := hashv;
     Hasher.zero_bytes := SHA256_ZERO_BYTES |}.

End with_syscall.
End Sha256.

Module Sha256BE.

Section with_syscall.
Context `{SolHash}.

Definition hash (val : bytes) : res HasherError bytes :=
  let? result := Sha256.hash val in Ok (<[0%nat := x00]> result).

Definition hashv (vals : list bytes) : res HasherError bytes :=
  let? result := Sha256.hashv vals in Ok (<[0%nat := x00]> result).

Definition Sha256BE : Hasher :=
  {| Hasher.ID := 3; Hasher.hash := hash; Hasher.hashv := hashv;
     Hasher.zero_bytes := SHA256_BE_ZERO_BYTES |}.

End with_syscall.
End Sha256BE.

Module Keccak.

Section with_syscall.
Context `{SolHash}.

Definition hashv (vals : list bytes) : res HasherError bytes := Ok (sol_keccak256 vals).

Definition hash (val : bytes) : res HasherError bytes := hashv [val].

Definition Keccak : Hasher :=
  {| Hasher.ID := 2; Hasher.hash := hash; Hasher.hashv := hashv;
     Hasher.zero_bytes := KECCAK_ZERO_BYTES |}.

End with_syscall.
End Keccak.

(** ** Packing primitives *)

Definition BN254_SCALAR_MODULUS_BE : bytes :=
  [x30; x64; x4e; x72; xe1; x31; xa0; x29; xb8; x50; x45; xb6; x81; x81; x58; x5d;
   x28; x33; xe8; x48; x79; xb9; x70; x91; x43; xe1; xf5; x93; xf0; x00; x00; x01].

(** The same constant as a number, for the theorems. *)
Definition bn254_modulus : Z :=
  21888242871839275222246405745257275088548364400416034343698204186575808495617.

Definition is_canonical_bn254_scalar_be (bs : bytes) : bool :=
  bytes_ltb bs BN254_SCALAR_MODULUS_BE.

Definition PACK_BE_CHUNK_BYTES : nat := 31.

Definition pack_be_chunks (len : Z) : Z := div_ceil len (Z.of_nat PACK_BE_CHUNK_BYTES).

(** [field[32 - len..].copy_from_slice(chunk)] on a zeroed field; chunks are at
    most 31 bytes long. *)
Definition pack_chunk (chunk : bytes) : bytes := replicate (32 - length chunk) x00 ++ chunk.

(** [output.iter_mut().zip(chunks)]: fields beyond the chunks stay zero. *)
Fixpoint fill_fields (output : list bytes) (chunks : list bytes) : list bytes :=
  match output, chunks with
  | _ :: output', chunk :: chunks' => pack_chunk chunk :: fill_fields output' chunks'
  | _, _ => output
  end.

Definition pack_be (K : nat) (bs : bytes) : list bytes :=
  fill_fields (replicate K zero32) (chunks PACK_BE_CHUNK_BYTES bs).

Definition right_align (bs : bytes) : bytes := replicate (32 - length bs) x00 ++ bs.

Definition X25519_MODULUS : bytes := <[31%nat := x7f]> (<[0%nat := xed]> (replicate 32 xff)).

Definition is_canonical_x25519_public_key (bs : bytes) : bool :=
  bytes_ltb (reverse bs) (reverse X25519_MODULUS).

Definition SOLANA_OWNER_TAG : byte := x53.

Section hash_bytes.
Context `{SolPoseidon}.

Definition hash_bytes (bs : bytes) : res HasherError bytes :=
  match chunks PACK_BE_CHUNK_BYTES bs with
  | [] => Ok zero32
  | first :: cs =>
      rfold (fun accumulator chunk => Poseidon.hashv [accumulator; pack_chunk chunk])
        (pack_chunk first) cs
  end.

Definition tagged_identity (tag : byte) (key : bytes) : res HasherError bytes :=
  hash_bytes (tag :: key).

Definition solana_owner_identity (pk : bytes) : res HasherError bytes :=
  tagged_identity SOLANA_OWNER_TAG pk.

End hash_bytes.

(** *** Big integers

    [num_bigint::BigUint] is a natural number; its byte conversions are
    library code, a parameter with the documented law: the shortest encoding,
    one zero byte for zero. *)
Class BigUint : Type := {
  to_bytes_le : Z -> bytes;
  to_bytes_be : Z -> bytes;
  from_bytes_be : bytes -> Z;
}.

Class BigUintLaws `(BigUint) : Prop := {
  to_bytes_le_val : forall v, 0 <= v -> le_val (to_bytes_le v) = v;
  to_bytes_le_short : forall v n, 0 <= v < 256 ^ Z.of_nat n -> (0 < n)%nat ->
    (length (to_bytes_le v) <= n)%nat;
  to_bytes_be_rev : forall v, 0 <= v -> to_bytes_be v = reverse (to_bytes_le v);
  from_bytes_be_val : forall bs, from_bytes_be bs = be_val bs;
}.

Section bigint.
Context `{BigUint}.

Definition bigint_to_le_bytes_array (BYTES_SIZE : nat) (bigint : Z) : res HasherError bytes :=
  let bs := to_bytes_le bigint in
  check Nat.leb (length bs) BYTES_SIZE
    else InvalidInputLength (Z.of_nat BYTES_SIZE) (Z.of_nat (length bs)) in
  Ok (bs ++ replicate (BYTES_SIZE - length bs) x00).

Definition bigint_to_be_bytes_array (BYTES_SIZE : nat) (bigint : Z) : res HasherError bytes :=
  let bs := to_bytes_be bigint in
  check Nat.leb (length bs) BYTES_SIZE
    else InvalidInputLength (Z.of_nat BYTES_SIZE) (Z.of_nat (length bs)) in
  Ok (replicate (BYTES_SIZE - length bs) x00 ++ bs).

End bigint.

(** ["account:"] *)
Definition account_prefix : bytes := [x61; x63; x63; x6f; x75; x6e; x74; x3a].

Definition state_discriminator `{SolHash} (type_name : bytes) : res HasherError bytes :=
  let? digest := Sha256.hashv [account_prefix; type_name] in
  Ok (take 8 (digest ++ replicate 8 x00)).

(** ** Properties *)

(** A 32-byte canonical field element. *)
Definition canonical (x : bytes) : Prop :=
  is_bytes 32 x /\ is_canonical_bn254_scalar_be x = true.

#[global] Instance canonical_dec x : Decision (canonical x).
Proof. unfold canonical, is_bytes. apply _. Defined.

(** The documented behaviour of the Poseidon system call: one to twelve
    canonical 32-byte inputs hash to a canonical 32-byte output. *)
Class PoseidonTotal `(SolPoseidon) : Prop :=
  poseidon_total : forall vals, (1 <= length vals <= 12)%nat -> Forall canonical vals ->
    exists h, sol_poseidon vals = (0, h) /\ canonical h.

Lemma find_none_Forall {A} (f : A -> bool) l :
  Forall (fun x => f x = false) l -> find f l = None.
Proof. induction 1 as [|x l Hx _ IH]; simpl; [done|]. by rewrite Hx. Qed.

Lemma poseidon_hashv_total `{PoseidonTotal} vals :
  (1 <= length vals <= 12)%nat -> Forall canonical vals ->
  exists h, Poseidon.hashv vals = Ok h /\ canonical h.
Proof.
  intros Hl Hc. destruct (poseidon_total vals Hl Hc) as (h & Hh & ?).
  exists h. split; [|done]. unfold Poseidon.hashv. rewrite find_none_Forall; [by rewrite Hh|].
  eapply Forall_impl; [exact Hc|]. intros x [-> _]. done.
Qed.

(** ** Collisions

    A compressing hash function has collisions, so binding is stated over the
    inputs that the computations at hand hash, listed as [queries]. *)

Definition same_hash (hv : list bytes -> res HasherError bytes) (xs ys : list bytes) : Prop :=
  match hv xs, hv ys with Ok v, Ok w => v = w | _, _ => False end.

#[global] Instance same_hash_dec hv xs ys : Decision (same_hash hv xs ys).
Proof. unfold same_hash. destruct (hv xs), (hv ys); apply _. Defined.

(** No two different inputs of the list have the same hash. *)
Definition collision_free (hv : list bytes -> res HasherError bytes) (queries : list (list bytes)) : Prop :=
  Forall (fun xs => Forall (fun ys => same_hash hv xs ys -> xs = ys) queries) queries.

#[global] Instance collision_free_dec hv queries : Decision (collision_free hv queries).
Proof. unfold collision_free. apply _. Defined.

Lemma collision_free_eq hv queries xs ys v :
  collision_free hv queries -> xs ∈ queries -> ys ∈ queries -> hv xs = Ok v -> hv ys = Ok v -> xs = ys.
Proof.
  unfold collision_free. rewrite Forall_forall. intros Hcf Hx Hy Ex Ey. specialize (Hcf xs Hx). rewrite Forall_forall in Hcf.
  apply Hcf; [done|]. unfold same_hash. by rewrite Ex, Ey.
Qed.

Lemma collision_free_subset hv queries queries' :
  queries ⊆ queries' -> collision_free hv queries' -> collision_free hv queries.
Proof.
  unfold collision_free. rewrite !Forall_forall. intros Hsub Hcf xs Hx. specialize (Hcf xs (Hsub xs Hx)).
  rewrite Forall_forall in Hcf |- *. auto.
Qed.

(** The inputs that a fold absorbing its elements through [enc] hashes. *)
Fixpoint rfold_queries {A} (hv : list bytes -> res HasherError bytes) (enc : bytes -> A -> list bytes)
    (acc : bytes) (l : list A) : list (list bytes) :=
  match l with
  | [] => []
  | x :: l' => enc acc x :: match hv (enc acc x) with Ok h => rfold_queries hv enc h l' | _ => [] end
  end.

(** A chain that absorbs each element together with the running hash through an
    injective encoding is binding over inputs of one length. *)
Lemma rfold_binding {A} hv (enc : bytes -> A -> list bytes) (R : A -> A -> Prop) acc1 acc2 l1 l2 v :
  (forall h x h' x', R x x' -> enc h x = enc h' x' -> h = h' /\ x = x') ->
  Forall2 R l1 l2 ->
  rfold (fun h x => hv (enc h x)) acc1 l1 = Ok v -> rfold (fun h x => hv (enc h x)) acc2 l2 = Ok v ->
  collision_free hv (rfold_queries hv enc acc1 l1 ++ rfold_queries hv enc acc2 l2) ->
  acc1 = acc2 /\ l1 = l2.
Proof.
  intros Hinj HR. revert acc1 acc2. induction HR as [|x y l1 l2 Hxy HR IH]; intros acc1 acc2 H1 H2 Hcf; [naive_solver|].
  simpl in H1, H2, Hcf. apply rbind_ok in H1 as (h1 & E1 & H1). apply rbind_ok in H2 as (h2 & E2 & H2).
  rewrite E1, E2 in Hcf. destruct (IH h1 h2 H1 H2) as [-> ->].
  { eapply collision_free_subset; [|exact Hcf]. set_solver. }
  assert (enc acc1 x = enc acc2 y) as He by (eapply collision_free_eq; [exact Hcf|set_solver|set_solver|done|done]).
  by apply Hinj in He as [-> ->].
Qed.

Lemma pack_chunk_length c : (length c <= 32)%nat -> length (pack_chunk c) = 32%nat.
Proof. intros. unfold pack_chunk. rewrite length_app, length_replicate. lia. Qed.

Lemma pack_chunk_val c : be_val (pack_chunk c) = be_val c.
Proof. apply be_val_zeros_app. Qed.

Lemma pack_chunk_inj c d : length c = length d -> pack_chunk c = pack_chunk d -> c = d.
Proof. unfold pack_chunk. intros -> H. by apply app_inv_head in H. Qed.

Lemma bn254_modulus_bytes : be_val BN254_SCALAR_MODULUS_BE = bn254_modulus.
Proof. vm_compute. reflexivity. Qed.

Lemma is_canonical_spec bs : is_bytes 32 bs ->
  is_canonical_bn254_scalar_be bs = true <-> be_val bs < bn254_modulus.
Proof. intros Hb. rewrite <- bn254_modulus_bytes. by apply bytes_ltb_be_val. Qed.

Lemma pack_chunk_canonical c :
  (length c <= PACK_BE_CHUNK_BYTES)%nat -> is_canonical_bn254_scalar_be (pack_chunk c) = true.
Proof.
  unfold PACK_BE_CHUNK_BYTES. intros Hc. apply is_canonical_spec; [apply pack_chunk_length; lia|].
  rewrite pack_chunk_val. eapply Z.lt_trans; [apply be_val_bound|].
  eapply Z.le_lt_trans; [apply (Z.pow_le_mono_r 256 _ 31); lia|]. done.
Qed.

Lemma fill_fields_map k cs :
  length cs = k -> fill_fields (replicate k zero32) cs = map pack_chunk cs.
Proof. intros <-. induction cs as [|c cs IH]; simpl; [done|]. by rewrite IH. Qed.

Lemma length_chunks {A} n (l : list A) : (0 < n)%nat ->
  Z.of_nat (length (chunks n l)) = div_ceil (Z.of_nat (length l)) (Z.of_nat n).
Proof.
  intros Hn. unfold div_ceil. induction l as [|l Hl IH] using (chunk_ind n Hn).
  - simpl. rewrite Z.div_small; lia.
  - rewrite chunks_unfold by done. simpl. rewrite Nat2Z.inj_succ, IH, length_drop.
    assert (0 < length l)%nat by (destruct l; simpl; [done|lia]).
    destruct (decide (n <= length l)%nat).
    + rewrite <- Z.add_1_r, <- Z.div_add by lia. f_equal. lia.
    + replace (length l - n)%nat with 0%nat by lia.
      rewrite Z.div_small by lia. apply Z.div_unique with (Z.of_nat (length l) - 1); lia.
Qed.

Lemma map_inj_Forall2 {A B} (f : A -> B) (R : A -> A -> Prop) l k :
  (forall x y, R x y -> f x = f y -> x = y) -> Forall2 R l k -> map f l = map f k -> l = k.
Proof. intros Hf HR. induction HR; simpl; [done|]. intros. simplify_eq. f_equal; auto. Qed.

(** [pack_be] of [N] bytes into [K = ceil(N / 31)] fields yields [K] fields
    of 32 bytes, each a canonical BN254 scalar, and two different byte arrays
    of one length never pack to the same fields. *)
Theorem pack_be_canonical_injective (K : nat) (bs bs' : bytes) :
  Z.of_nat K = pack_be_chunks (Z.of_nat (length bs)) -> length bs' = length bs ->
  length (pack_be K bs) = K /\
  Forall (fun f => is_bytes 32 f /\ is_canonical_bn254_scalar_be f = true) (pack_be K bs) /\
  (pack_be K bs = pack_be K bs' -> bs = bs').
Proof.
  unfold pack_be_chunks. rewrite <- length_chunks by (unfold PACK_BE_CHUNK_BYTES; lia).
  intros HK%Nat2Z.inj Hl. subst K. unfold pack_be.
  assert (0 < PACK_BE_CHUNK_BYTES)%nat as Hp by (unfold PACK_BE_CHUNK_BYTES; lia).
  pose proof (chunks_same_shape _ bs bs' Hp (eq_sym Hl)) as Hshape.
  apply Forall2_length in Hshape as Hlen. rewrite !fill_fields_map by done.
  repeat split.
  - apply length_map.
  - apply Forall_map. eapply Forall_impl; [by apply chunks_length_le|].
    simpl. intros c Hc. split; [|apply pack_chunk_canonical; lia].
    apply pack_chunk_length. unfold PACK_BE_CHUNK_BYTES in Hc. lia.
  - intros He. rewrite <- (concat_chunks _ bs Hp), <- (concat_chunks _ bs' Hp). f_equal.
    eapply map_inj_Forall2; [|done|done]. intros c d [_ ?]. by apply pack_chunk_inj.
Qed.

Lemma pack_be_canonical_injective_witness :
  pack_be 2 (replicate 33 x01) = [replicate 1 x00 ++ replicate 31 x01; replicate 30 x00 ++ [x01; x01]] /\
  length (pack_be 2 (replicate 33 x01)) = 2%nat.
Proof.
  split; [reflexivity|].
  apply (pack_be_canonical_injective 2 (replicate 33 x01) (replicate 33 x02)); reflexivity.
Defined.

(** The inputs that [hash_bytes] hashes. *)
Definition hash_bytes_queries `{SolPoseidon} (bs : bytes) : list (list bytes) :=
  match chunks PACK_BE_CHUNK_BYTES bs with
  | [] => []
  | c :: cs => rfold_queries Poseidon.hashv (fun h x => [h; pack_chunk x]) (pack_chunk c) cs
  end.

(** [hash_bytes] is binding for a protocol-fixed length: two byte arrays of one
    length with the same commitment are equal where the inputs hashed for them
    do not collide. *)
Theorem hash_bytes_binding `{SolPoseidon} (bs bs' v : bytes) :
  length bs = length bs' -> hash_bytes bs = Ok v -> hash_bytes bs' = Ok v ->
  collision_free Poseidon.hashv (hash_bytes_queries bs ++ hash_bytes_queries bs') -> bs = bs'.
Proof.
  intros Hl H1 H2 Hcf. assert (0 < PACK_BE_CHUNK_BYTES)%nat as Hp by (unfold PACK_BE_CHUNK_BYTES; lia).
  rewrite <- (concat_chunks _ bs Hp), <- (concat_chunks _ bs' Hp).
  pose proof (chunks_same_shape _ bs bs' Hp Hl) as Hshape.
  unfold hash_bytes in H1, H2. unfold hash_bytes_queries in Hcf. destruct Hshape as [|c d cs ds Hcd Hshape]; [done|].
  destruct (rfold_binding Poseidon.hashv (fun h x => [h; pack_chunk x])
    (fun c d => length c <= PACK_BE_CHUNK_BYTES /\ length c = length d)%nat (pack_chunk c) (pack_chunk d) cs ds v) as [Hc ->]; auto.
  - intros h x h' x' [_ Hx] ?. simplify_eq. eauto using pack_chunk_inj.
  - apply pack_chunk_inj in Hc; [by subst|apply Hcd].
Qed.

(** The byte-wise canonicality tests are the numeric ones: a BN254 scalar is
    accepted exactly when its big-endian value is below the group order, an
    X25519 key exactly when its little-endian value is below [2^255 - 19]. *)
Theorem canonical_encodings (bs : bytes) : is_bytes 32 bs ->
  (is_canonical_bn254_scalar_be bs = true <-> be_val bs < bn254_modulus) /\
  (is_canonical_x25519_public_key bs = true <-> le_val bs < 2 ^ 255 - 19).
Proof.
  intros Hb. split; [by apply is_canonical_spec|].
  unfold is_canonical_x25519_public_key. rewrite bytes_ltb_be_val.
  - unfold be_val. rewrite !reverse_involutive.
    by replace (le_val X25519_MODULUS) with (2 ^ 255 - 19) by (vm_compute; reflexivity).
  - by rewrite !length_reverse, Hb.
Qed.

Lemma canonical_encodings_witness :
  is_bytes 32 (replicate 32 x7f) /\
  (is_canonical_bn254_scalar_be (replicate 32 x7f) = true <-> be_val (replicate 32 x7f) < bn254_modulus).
Proof. split; [reflexivity|]. apply (canonical_encodings (replicate 32 x7f)). reflexivity. Defined.
