(* ===== verification/HashChain.v ===== *)
(** * Hash chains

    src/program-libs/hasher/src/hash_chain.rs and zero_suffix_hash_chain.rs:
    the left and right Poseidon folds that commit to the public inputs, and the
    fold that replaces an all-zero suffix by a table entry.  The theorems show
    that the table-seeded folds equal the plain ones, that every fold is binding
    over inputs of one length, and where the length ambiguity lies. *)

From S2P Require Import Prelude ZeroBytes Hasher.

Definition HASH_CHAIN_4_PADDING : bytes := zero32.
Definition ZERO_SUFFIX_CHAIN_MAX_WIDTH : nat := 54.
Definition ZERO_SUFFIX_GROUPS : nat := 18.
Definition EMPTY_SLOT : bytes := zero32.

(** [iter.take_while(p)]. *)
Fixpoint take_while {A} (p : A -> bool) (l : list A) : list A :=
  match l with
  | [] => []
  | x :: l' => if p x then x :: take_while p l' else []
  end.

Section chains.
Context `{SolPoseidon}.

(** ** The folds *)

Definition create_hash_chain (inputs : list bytes) : res HasherError bytes :=
  match inputs with
  | [] => Ok zero32
  | first :: inputs =>
      rfold (fun hash_chain input => Poseidon.hashv [hash_chain; input]) first inputs
  end.

Definition create_hash_chain_from_slice (inputs : list bytes) : res HasherError bytes :=
  create_hash_chain inputs.

Definition create_right_hash_chain_from_slice (inputs : list bytes) : res HasherError bytes :=
  match split_last inputs with
  | None => Ok zero32
  | Some (last, prefix) =>
      rfold (fun hash_chain input => Poseidon.hashv [input; hash_chain]) last (reverse prefix)
  end.

Definition create_nonzero_hash_chain_from_slice (inputs : list bytes) : res HasherError bytes :=
  rfold (fun hash_chain input =>
           if decide (hash_chain = zero32) then Ok input
           else Poseidon.hashv [hash_chain; input])
    zero32 (filter (fun input => input <> zero32) inputs).

(** The [while let Some(g0) = inputs.next()] loop of [create_hash_chain_4]. *)
Fixpoint hash_chain_4_loop (hash_chain : bytes) (inputs : list bytes) : res HasherError bytes :=
  match inputs with
  | [] => Ok hash_chain
  | [g0] => Poseidon.hashv [hash_chain; g0; HASH_CHAIN_4_PADDING; HASH_CHAIN_4_PADDING]
  | [g0; g1] => Poseidon.hashv [hash_chain; g0; g1; HASH_CHAIN_4_PADDING]
  | g0 :: g1 :: g2 :: inputs =>
      let? hash_chain := Poseidon.hashv [hash_chain; g0; g1; g2] in
      hash_chain_4_loop hash_chain inputs
  end.

Definition create_hash_chain_4 (inputs : list bytes) : res HasherError bytes :=
  match inputs with
  | [] => Ok zero32
  | first :: inputs => hash_chain_4_loop first inputs
  end.

Definition create_hash_chain_4_from_slice (inputs : list bytes) : res HasherError bytes :=
  create_hash_chain_4 inputs.

(** [group.first()], [group.get(1)] and [group.get(2)], zero where missing. *)
Definition group_slots (group : list bytes) : list bytes :=
  [default HASH_CHAIN_4_PADDING (group !! 0%nat);
   default HASH_CHAIN_4_PADDING (group !! 1%nat);
   default HASH_CHAIN_4_PADDING (group !! 2%nat)].

Definition create_right_hash_chain_4_from_seed (prefix : list bytes) (seed : bytes)
    : res HasherError bytes :=
  rfold (fun hash_chain group => Poseidon.hashv (group_slots group ++ [hash_chain]))
    seed (rchunks 3 prefix).

Definition create_right_hash_chain_4_from_slice (inputs : list bytes) : res HasherError bytes :=
  match split_last inputs with
  | None => Ok zero32
  | Some (last, prefix) => create_right_hash_chain_4_from_seed prefix last
  end.

Definition create_two_inputs_hash_chain (hashes_first hashes_second : list bytes)
    : res HasherError bytes :=
  check Nat.eqb (length hashes_first) (length hashes_second)
    else InvalidInputLength (Z.of_nat (length hashes_first)) (Z.of_nat (length hashes_second)) in
  match hashes_first, hashes_second with
  | first :: rest_first, second :: rest_second =>
      let? hash_chain := Poseidon.hashv [first; second] in
      rfold (fun hash_chain '(a, b) => Poseidon.hashv [hash_chain; a; b])
        hash_chain (zip rest_first rest_second)
  | _, _ => Ok zero32
  end.

(** ** Zero-suffix folds *)

Definition is_zero_group (group : list bytes) : bool :=
  forallb (fun slot => bool_decide (slot = EMPTY_SLOT)) group.

Definition create_zero_suffix_right_hash_chain_4 (values : list bytes) : res HasherError bytes :=
  match split_last values with
  | None => Ok EMPTY_SLOT
  | Some (last, prefix) =>
      if negb (bool_decide (last = EMPTY_SLOT)) then
        create_right_hash_chain_4_from_seed prefix last
      else
        let skipped := length (take_while is_zero_group (rchunks 3 prefix)) in
        let? seed := ok_or (ZERO_SUFFIX_CHAINS !! skipped)
          (InvalidInputLength (Z.of_nat ZERO_SUFFIX_GROUPS) (Z.of_nat skipped)) in
        let remaining := (length prefix - 3 * skipped)%nat in
        create_right_hash_chain_4_from_seed (take remaining prefix) seed
  end.

(** [for (index, value) in sent.enumerate() { *slots.get_mut(index)? = *value; }] *)
Fixpoint fill_slots (slots : list bytes) (index : nat) (sent : list bytes)
    : res HasherError (list bytes) :=
  match sent with
  | [] => Ok slots
  | value :: sent =>
      check Nat.ltb index (length slots)
        else InvalidInputLength (Z.of_nat (length slots)) (Z.of_nat index + 1) in
      fill_slots (<[index := value]> slots) (S index) sent
  end.

Definition create_padded_right_hash_chain_4 (sent : list bytes) (width : nat)
    : res HasherError bytes :=
  check Nat.leb width ZERO_SUFFIX_CHAIN_MAX_WIDTH
    else InvalidInputLength (Z.of_nat ZERO_SUFFIX_CHAIN_MAX_WIDTH) (Z.of_nat width) in
  let? slots := fill_slots (replicate width EMPTY_SLOT) 0 sent in
  create_zero_suffix_right_hash_chain_4 slots.

(** The law of [ZERO_SUFFIX_CHAINS]: each entry is the fold step of the one
    before, as the documentation of the table states. *)
Definition zero_suffix_law : Prop :=
  forall k z, ZERO_SUFFIX_CHAINS !! k = Some z -> (k < ZERO_SUFFIX_GROUPS)%nat ->
    exists z', ZERO_SUFFIX_CHAINS !! S k = Some z' /\
      Poseidon.hashv [zero32; zero32; zero32; z] = Ok z'.

End chains.

(** ** Lemmas *)

Section lemmas.
Context `{SolPoseidon}.

(** The left fold visits the groups of three that [chunks] yields. *)
Lemma hash_chain_4_loop_chunks h l :
  hash_chain_4_loop h l = rfold (fun h g => Poseidon.hashv (h :: group_slots g)) h (chunks 3 l).
Proof.
  revert h. induction l as [|l Hl IH] using (chunk_ind 3 ltac:(lia)); intros h; [done|].
  rewrite chunks_unfold by (lia || done).
  destruct l as [|a [|b [|c l]]]; [done| | |].
  - simpl. destruct (Poseidon.hashv _); done.
  - simpl. destruct (Poseidon.hashv _); done.
  - simpl. destruct (Poseidon.hashv _); simpl; [apply IH|done|done].
Qed.

Lemma group_slots_inj g g' :
  (length g <= 3)%nat -> length g = length g' -> group_slots g = group_slots g' -> g = g'.
Proof.
  destruct g as [|a [|b [|c [|d g]]]], g' as [|a' [|b' [|c' [|d' g']]]];
    simpl; intros; try lia; unfold group_slots in *; simpl in *; by simplify_eq.
Qed.

Lemma group_slots_zero g : is_zero_group g = true -> group_slots g = [zero32; zero32; zero32].
Proof.
  unfold is_zero_group, group_slots, EMPTY_SLOT, HASH_CHAIN_4_PADDING. intros Hg.
  rewrite forallb_forall in Hg.
  assert (forall i, default zero32 (g !! i) = zero32) as Hd; [|by rewrite !Hd].
  intros i. destruct (g !! i) as [x|] eqn:Hx; simpl; [|done].
  apply list_elem_of_lookup_2, list_elem_of_In, Hg in Hx. by apply bool_decide_eq_true in Hx.
Qed.

Lemma take_while_all {A} (p : A -> bool) l : Forall (fun x => p x = true) (take_while p l).
Proof. induction l as [|x l IH]; simpl; [done|]. destruct (p x) eqn:?; auto. Qed.

Lemma take_while_prefix {A} (p : A -> bool) l :
  l = take_while p l ++ drop (length (take_while p l)) l.
Proof. induction l as [|x l IH]; simpl; [done|]. destruct (p x); simpl; [by f_equal|done]. Qed.

(** Skipping groups of the right fold drops elements from the right. *)
Lemma drop_rchunks {A} n k (l : list A) : (0 < n)%nat ->
  drop k (rchunks n l) = rchunks n (take (length l - n * k) l).
Proof.
  intros Hn. revert l. induction k as [|k IH]; intros l.
  - rewrite Nat.mul_0_r, Nat.sub_0_r, firstn_all. done.
  - destruct (decide (l = [])) as [->|Hl]; [done|].
    rewrite rchunks_unfold by done. simpl. rewrite IH, length_take, take_take.
    f_equal. f_equal. lia.
Qed.

Lemma length_rchunks_le {A} n (l : list A) m : (0 < n)%nat ->
  (length l <= n * m)%nat -> (length (rchunks n l) <= m)%nat.
Proof.
  intros Hn. revert l. induction m as [|m IH]; intros l Hl.
  - destruct l; [done|simpl in *; lia].
  - destruct (decide (l = [])) as [->|Hne]; [simpl; lia|].
    rewrite rchunks_unfold by done. simpl. apply le_n_S, IH. rewrite length_take. lia.
Qed.

Lemma rchunks_same_shape {A B} n (l : list A) (k : list B) :
  (0 < n)%nat -> length l = length k ->
  Forall2 (fun c d => length c <= n /\ length c = length d)%nat (rchunks n l) (rchunks n k).
Proof.
  intros Hn Hlk. remember (length l) as m eqn:Hm. revert l k Hm Hlk.
  induction (lt_wf m) as [m _ IH]. intros l k -> Hlk.
  destruct l as [|x l]; [by destruct k|]. destruct k as [|y k]; [done|].
  rewrite (rchunks_unfold n (x :: l)), (rchunks_unfold n (y :: k)) by done.
  constructor; [rewrite !length_drop, Hlk; lia|].
  eapply IH; [|reflexivity|]; rewrite !length_take; simpl in *; lia.
Qed.

(** The fold over an all-zero run of groups is a table entry. *)
Lemma rfold_zero_groups gs :
  zero_suffix_law -> Forall (fun g => is_zero_group g = true) gs ->
  (length gs <= ZERO_SUFFIX_GROUPS)%nat ->
  exists z, ZERO_SUFFIX_CHAINS !! length gs = Some z /\
    rfold (fun h g => Poseidon.hashv (group_slots g ++ [h])) zero32 gs = Ok z.
Proof.
  intros Hlaw. induction gs as [|g gs IH] using rev_ind; intros Hz Hlen.
  - exists zero32. split; reflexivity.
  - rewrite length_app in *. simpl in Hlen.
    apply Forall_app in Hz as [Hgs Hg]. rewrite Forall_singleton in Hg.
    destruct IH as (z & Hz & Hf); [done|lia|].
    destruct (Hlaw _ _ Hz) as (z' & Hz' & Hh); [lia|].
    exists z'. rewrite Nat.add_1_r. split; [done|].
    rewrite rfold_app, Hf. cbn [rbind rfold]. rewrite (group_slots_zero g Hg). simpl. by rewrite Hh.
Qed.

(** The table-seeded fold is the full fold. *)
Lemma zero_suffix_full_fold values :
  zero_suffix_law -> (length values <= ZERO_SUFFIX_CHAIN_MAX_WIDTH)%nat ->
  create_zero_suffix_right_hash_chain_4 values = create_right_hash_chain_4_from_slice values.
Proof.
  intros Hlaw Hlen. unfold create_zero_suffix_right_hash_chain_4, create_right_hash_chain_4_from_slice.
  destruct (split_last values) as [[last prefix]|] eqn:Hs; [|done].
  apply split_last_Some in Hs as ->. rewrite length_app in Hlen. simpl in Hlen.
  case_bool_decide as Hl; [|done]. unfold EMPTY_SLOT in Hl. subst last. simpl.
  set (gs := rchunks 3 prefix). set (zs := take_while is_zero_group gs).
  assert (length gs <= ZERO_SUFFIX_GROUPS)%nat as Hgs.
  { apply length_rchunks_le; [lia|]. unfold ZERO_SUFFIX_GROUPS, ZERO_SUFFIX_CHAIN_MAX_WIDTH in *. lia. }
  pose proof (take_while_prefix is_zero_group gs) as Hsplit. fold zs in Hsplit.
  destruct (rfold_zero_groups zs) as (z & Hz & Hf); [done|apply take_while_all| |].
  { apply (f_equal length) in Hsplit. rewrite length_app in Hsplit. lia. }
  rewrite Hz. simpl. unfold create_right_hash_chain_4_from_seed at 2.
  fold gs. rewrite Hsplit, rfold_app, Hf. simpl. unfold gs.
  by rewrite drop_rchunks by lia.
Qed.

Lemma fill_slots_ok slots index sent :
  (index + length sent <= length slots)%nat ->
  fill_slots slots index sent
  = Ok (take index slots ++ sent ++ drop (index + length sent) slots).
Proof.
  revert slots index. induction sent as [|v sent IH]; intros slots index Hlen; simpl.
  - rewrite Nat.add_0_r, take_drop. done.
  - simpl in Hlen. rewrite (proj2 (Nat.ltb_lt _ _)) by lia.
    rewrite IH by (rewrite length_insert; lia). f_equal.
    rewrite insert_take_drop by lia. rewrite take_app_ge by (rewrite length_take; lia).
    rewrite length_take, Nat.min_l by lia.
    replace (S index - index)%nat with 1%nat by lia. simpl. rewrite <- app_assoc. f_equal. simpl. f_equal. f_equal.
    rewrite drop_app_ge by (rewrite length_take; lia). rewrite length_take, Nat.min_l by lia.
    replace (S (index + length sent) - index)%nat with (S (length sent)) by lia. simpl.
    rewrite drop_drop. f_equal. lia.
Qed.

Lemma fill_slots_err slots index sent :
  (index <= length slots)%nat -> (length slots < index + length sent)%nat ->
  fill_slots slots index sent
  = Err (InvalidInputLength (Z.of_nat (length slots)) (Z.of_nat (length slots) + 1)).
Proof.
  revert slots index. induction sent as [|v sent IH]; intros slots index Hi Hlen; simpl in *; [lia|].
  case_match eqn:Hlt.
  - apply Nat.ltb_lt in Hlt. rewrite IH; rewrite length_insert; [done|lia|lia].
  - apply Nat.ltb_ge in Hlt. repeat f_equal; lia.
Qed.

End lemmas.

(** ** A concrete hash function for the witnesses

    [model_poseidon] answers the table steps as the tables say and mixes every
    other input with a polynomial modulo the scalar field. *)

Definition mix (vals : list bytes) : bytes :=
  be_bytes 32 (foldl (fun acc v => (acc * 1000003 + be_val v + 1) mod bn254_modulus)
    (Z.of_nat (length vals)) vals).

Definition table_step (table : list bytes) (key : bytes) (other : bytes) : bytes :=
  default other (list_find (eq key) table ≫= fun '(i, _) => table !! S i).

Definition model_poseidon : SolPoseidon := fun vals =>
  (0, match vals with
      | [a; b] => if decide (a = b) then table_step POSEIDON_ZERO_BYTES a (mix vals) else mix vals
      | [a; b; c; d] =>
          if decide (a = zero32 /\ b = zero32 /\ c = zero32)
          then table_step ZERO_SUFFIX_CHAINS d (mix vals) else mix vals
      | _ => mix vals
      end).

Lemma forall_below (P : nat -> Prop) (f : nat -> bool) n k :
  (forall i, f i = true -> P i) -> forallb f (seq 0 n) = true -> (k < n)%nat -> P k.
Proof.
  intros Hf Hall Hk. rewrite forallb_forall in Hall. apply Hf, Hall. rewrite in_seq. lia.
Qed.

Definition suffix_step_ok (k : nat) : bool :=
  match ZERO_SUFFIX_CHAINS !! k, ZERO_SUFFIX_CHAINS !! S k with
  | Some z, Some z' =>
      bool_decide (@Poseidon.hashv model_poseidon [zero32; zero32; zero32; z] = Ok z')
  | _, _ => false
  end.

Lemma model_zero_suffix_law : @zero_suffix_law model_poseidon.
Proof.
  intros k z Hz Hk. assert (suffix_step_ok k = true) as Hok.
  { apply (forall_below (fun k => suffix_step_ok k = true) suffix_step_ok ZERO_SUFFIX_GROUPS);
      [done|by vm_compute|done]. }
  unfold suffix_step_ok in Hok. rewrite Hz in Hok.
  destruct (ZERO_SUFFIX_CHAINS !! S k) as [z'|]; [|done].
  exists z'. split; [done|]. by apply bool_decide_eq_true in Hok.
Qed.

Lemma mix_canonical vals : vals <> [] -> canonical (mix vals).
Proof.
  intros Hne. unfold mix. destruct vals as [|v vals _] using rev_ind; [done|].
  rewrite foldl_app. cbn [foldl]. set (x := foldl _ _ _).
  pose proof (Z.mod_pos_bound (x * 1000003 + be_val v + 1) bn254_modulus ltac:(done)) as Hb.
  assert (is_bytes 32 (be_bytes 32 ((x * 1000003 + be_val v + 1) mod bn254_modulus)))
    by apply length_be_bytes.
  split; [done|]. apply is_canonical_spec; [done|]. rewrite be_val_be_bytes; [lia|].
  split; [lia|]. eapply Z.lt_trans; [apply Hb|]. done.
Qed.

Lemma table_step_canonical table key other :
  Forall canonical table -> canonical other -> canonical (table_step table key other).
Proof.
  intros Ht Ho. unfold table_step. destruct (list_find _ _) as [[i x]|]; simpl; [|done].
  destruct (table !! S i) eqn:Hi; simpl; [|done]. by eapply Forall_lookup_1.
Qed.

Lemma poseidon_zero_bytes_canonical : Forall canonical POSEIDON_ZERO_BYTES.
Proof. apply (bool_decide_eq_true_1 _). vm_compute. reflexivity. Qed.

Lemma zero_suffix_chains_canonical : Forall canonical ZERO_SUFFIX_CHAINS.
Proof. apply (bool_decide_eq_true_1 _). vm_compute. reflexivity. Qed.

Lemma model_poseidon_total : PoseidonTotal model_poseidon.
Proof.
  intros vals Hl Hc. unfold sol_poseidon, model_poseidon. eexists. split; [reflexivity|].
  assert (canonical (mix vals)) by (apply mix_canonical; by intros ->; simpl in Hl; lia).
  destruct vals as [|a [|b [|c [|d [|e vals]]]]]; try done; case_decide; try done.
  - apply table_step_canonical; [apply poseidon_zero_bytes_canonical|done].
  - apply table_step_canonical; [apply zero_suffix_chains_canonical|done].
Qed.

Definition zero_step_ok (i : nat) : bool :=
  match POSEIDON_ZERO_BYTES !! i, POSEIDON_ZERO_BYTES !! S i with
  | Some z, Some z' => bool_decide (@Poseidon.hashv model_poseidon [z; z] = Ok z')
  | _, _ => false
  end.

Lemma model_zero_bytes_law : ZeroBytesLaw (@Poseidon.Poseidon model_poseidon).
Proof.
  split; [reflexivity|]. unfold zero_bytes, hashv. cbn -[POSEIDON_ZERO_BYTES].
  intros i z Hz Hi. assert (zero_step_ok i = true) as Hok.
  { apply (forall_below (fun k => zero_step_ok k = true) zero_step_ok MAX_HEIGHT);
      [done|by vm_compute|done]. }
  unfold zero_step_ok in Hok. rewrite Hz in Hok.
  destruct (POSEIDON_ZERO_BYTES !! S i) as [z'|]; [|done].
  exists z'. split; [done|]. by apply bool_decide_eq_true in Hok.
Qed.

(** ** Theorems *)

(** C34. Over values of any width the table covers, the fold that skips the
    trailing zero groups and seeds from [ZERO_SUFFIX_CHAINS] returns exactly
    what the full right fold returns, errors included. *)
Theorem zero_suffix_chain_is_right_chain `{SolPoseidon} (values : list bytes) :
  zero_suffix_law -> (length values <= ZERO_SUFFIX_CHAIN_MAX_WIDTH)%nat ->
  create_zero_suffix_right_hash_chain_4 values = create_right_hash_chain_4_from_slice values.
Proof. apply zero_suffix_full_fold. Qed.

Lemma zero_suffix_chain_is_right_chain_witness :
  @create_zero_suffix_right_hash_chain_4 model_poseidon ([replicate 32 x01] ++ replicate 8 zero32)
  = @create_right_hash_chain_4_from_slice model_poseidon ([replicate 32 x01] ++ replicate 8 zero32).
Proof.
  apply (@zero_suffix_chain_is_right_chain model_poseidon).
  - apply model_zero_suffix_law.
  - vm_compute; lia.
Defined.

(** The padded fold: with at most [width <= 54] values sent it is the right
    fold over the values followed by zeros up to [width]; a width beyond the
    table and a value beyond the width are the two length errors. *)
Theorem padded_right_chain_spec `{SolPoseidon} (sent : list bytes) (width : nat) :
  zero_suffix_law ->
  create_padded_right_hash_chain_4 sent width =
    if decide (ZERO_SUFFIX_CHAIN_MAX_WIDTH < width)%nat then
      Err (InvalidInputLength (Z.of_nat ZERO_SUFFIX_CHAIN_MAX_WIDTH) (Z.of_nat width))
    else if decide (width < length sent)%nat then
      Err (InvalidInputLength (Z.of_nat width) (Z.of_nat width + 1))
    else create_right_hash_chain_4_from_slice (sent ++ replicate (width - length sent) zero32).
Proof.
  intros Hlaw. unfold create_padded_right_hash_chain_4.
  destruct (decide _) as [Hw|Hw]; [by rewrite (proj2 (Nat.leb_gt _ _)) by lia|].
  rewrite (proj2 (Nat.leb_le _ _)) by lia. destruct (decide _) as [Hs|Hs].
  - rewrite fill_slots_err by (rewrite ?length_replicate; lia). by rewrite length_replicate.
  - rewrite fill_slots_ok by (rewrite ?length_replicate; lia). simpl. rewrite drop_replicate.
    apply zero_suffix_full_fold; [done|]. rewrite length_app, length_replicate. lia.
Qed.

Lemma padded_right_chain_spec_witness :
  @create_padded_right_hash_chain_4 model_poseidon [replicate 32 x01; replicate 32 x02] 12
  = @create_right_hash_chain_4_from_slice model_poseidon
      ([replicate 32 x01; replicate 32 x02] ++ replicate 10 zero32).
Proof.
  apply (@padded_right_chain_spec model_poseidon [replicate 32 x01; replicate 32 x02] 12).
  apply model_zero_suffix_law.
Defined.

(** The inputs that the 4-input left fold hashes. *)
Definition hash_chain_4_queries `{SolPoseidon} (l : list bytes) : list (list bytes) :=
  match l with
  | [] => []
  | a :: l' => rfold_queries Poseidon.hashv (fun h g => h :: group_slots g) a (chunks 3 l')
  end.

(** The 4-input left fold is binding over inputs of one length: two vectors
    with the same chain are equal where the inputs hashed for them do not
    collide. *)
Theorem hash_chain_4_binding `{SolPoseidon} (l1 l2 : list bytes) (v : bytes) :
  length l1 = length l2 -> create_hash_chain_4 l1 = Ok v -> create_hash_chain_4 l2 = Ok v ->
  collision_free Poseidon.hashv (hash_chain_4_queries l1 ++ hash_chain_4_queries l2) -> l1 = l2.
Proof.
  intros Hl H1 H2 Hcf. destruct l1 as [|a l1], l2 as [|b l2]; try done.
  simpl in Hl, H1, H2. rewrite hash_chain_4_loop_chunks in H1, H2. injection Hl as Hl.
  pose proof (chunks_same_shape 3 l1 l2 ltac:(lia) Hl) as Hshape.
  edestruct (rfold_binding Poseidon.hashv (fun h g => h :: group_slots g)) with (2 := Hshape) (3 := H1) (4 := H2)
    as [-> Hc]; [|exact Hcf|].
  - intros h g h' g' [? ?] He. split; [by injection He|].
    apply group_slots_inj; [done..|]. exact (f_equal (@tail _) He).
  - f_equal. rewrite <- (concat_chunks 3 l1), <- (concat_chunks 3 l2) by lia. by rewrite Hc.
Qed.

(** The two chains below hash two different inputs, which do not collide. *)
Lemma hash_chain_4_binding_witness :
  @create_hash_chain_4 model_poseidon [zero32; zero32; replicate 32 x01]
  <> @create_hash_chain_4 model_poseidon [zero32; replicate 32 x01; zero32].
Proof.
  intros Heq. assert ([zero32; zero32; replicate 32 x01] = [zero32; replicate 32 x01; zero32]) as Hl; [|discriminate Hl].
  eapply (@hash_chain_4_binding model_poseidon); [reflexivity|vm_compute; reflexivity|rewrite <- Heq; vm_compute; reflexivity|].
  apply (bool_decide_eq_true_1 _). vm_compute. reflexivity.
Qed.

Lemma rchunks_concat_inj {A} n (l k : list A) : (0 < n)%nat ->
  length l = length k -> rchunks n l = rchunks n k -> l = k.
Proof.
  intros Hn. revert k. induction l as [l Hs|l g Hg IH] using (rchunk_ind n Hn); intros k Hl He.
  - destruct l as [|x l]; [by destruct k|]. rewrite !rchunks_short in He by (simpl in *; lia).
    by simplify_eq.
  - rewrite length_app in Hl. rewrite <- (take_drop (length k - n) k) in He |- *.
    rewrite !rchunks_app in He by (rewrite ?length_drop; lia). injection He as -> He.
    f_equal. apply IH; [rewrite length_take; lia|done].
Qed.

(** The inputs that the 4-input right fold hashes. *)
Definition right_hash_chain_4_queries `{SolPoseidon} (l : list bytes) : list (list bytes) :=
  match split_last l with
  | None => []
  | Some (tail, front) => rfold_queries Poseidon.hashv (fun h g => group_slots g ++ [h]) tail (rchunks 3 front)
  end.

(** The 4-input right fold is binding over inputs of one length as well. *)
Theorem right_hash_chain_4_binding `{SolPoseidon} (l1 l2 : list bytes) (v : bytes) :
  length l1 = length l2 ->
  create_right_hash_chain_4_from_slice l1 = Ok v ->
  create_right_hash_chain_4_from_slice l2 = Ok v ->
  collision_free Poseidon.hashv (right_hash_chain_4_queries l1 ++ right_hash_chain_4_queries l2) -> l1 = l2.
Proof.
  destruct l1 as [|a l1 _] using rev_ind; destruct l2 as [|b l2 _] using rev_ind;
    rewrite ?length_app; simpl; intros Hl H1 H2 Hcf; try lia; [done|].
  unfold create_right_hash_chain_4_from_slice in H1, H2. unfold right_hash_chain_4_queries in Hcf.
  rewrite split_last_snoc in H1, H2. rewrite !split_last_snoc in Hcf.
  assert (length l1 = length l2) as Hl' by lia.
  pose proof (rchunks_same_shape 3 l1 l2 ltac:(lia) Hl') as Hshape.
  edestruct (rfold_binding Poseidon.hashv (fun h g => group_slots g ++ [h])) with (2 := Hshape) (3 := H1) (4 := H2)
    as [-> Hc]; [|exact Hcf|].
  - intros h g h' g' [? ?] He. apply app_inj_tail in He as [? ->]. split; [done|].
    by apply group_slots_inj.
  - f_equal. by apply (rchunks_concat_inj 3); [lia|..].
Qed.

Lemma right_hash_chain_4_binding_witness :
  @create_right_hash_chain_4_from_slice model_poseidon [zero32; zero32; replicate 32 x01]
  <> @create_right_hash_chain_4_from_slice model_poseidon [zero32; replicate 32 x01; zero32].
Proof.
  intros Heq. assert ([zero32; zero32; replicate 32 x01] = [zero32; replicate 32 x01; zero32]) as Hl; [|discriminate Hl].
  eapply (@right_hash_chain_4_binding model_poseidon); [reflexivity|vm_compute; reflexivity|rewrite <- Heq; vm_compute; reflexivity|].
  apply (bool_decide_eq_true_1 _). vm_compute. reflexivity.
Qed.

(** Across lengths the folds are ambiguous, so a caller must fix the length:
    the left fold of [[a, b]] equals that of [[a, b, 0, 0]], and the right fold
    of [[a, b]] equals that of [[a, 0, b]].  The right fold of [[0, a, b]] is
    [Poseidon(0, a, 0, b)], not the [Poseidon(a, 0, 0, b)] of the
    documentation, and a hash function separates the two. *)
Theorem chain_length_ambiguity :
  (forall `(SolPoseidon) (a b : bytes),
     create_hash_chain_4 [a; b] = create_hash_chain_4 [a; b; zero32; zero32] /\
     create_right_hash_chain_4_from_slice [a; b] = Poseidon.hashv [a; zero32; zero32; b] /\
     create_right_hash_chain_4_from_slice [a; zero32; b] = Poseidon.hashv [a; zero32; zero32; b] /\
     create_right_hash_chain_4_from_slice [zero32; a; b] = Poseidon.hashv [zero32; a; zero32; b]) /\
  exists (H : SolPoseidon) a b,
    create_right_hash_chain_4_from_slice [a; b] <> create_right_hash_chain_4_from_slice [zero32; a; b].
Proof.
  split.
  - intros H a b. unfold create_right_hash_chain_4_from_slice, create_right_hash_chain_4_from_seed. simpl.
    repeat split; try done; by destruct (Poseidon.hashv _).
  - exists model_poseidon, (replicate 32 x01), (replicate 32 x02). vm_compute. done.
Qed.
