(* ===== verification/MerkleSpec.v ===== *)
(** * Merkle roots

    The specification the trees are checked against: the root of the perfect
    binary tree of height [h] whose leaves are the given ones followed by zero
    leaves, and its layer-by-layer computation with the zero-subtree table.
    Nothing here translates code; [Smt], [MerkleTree] and [IndexedMerkleTree]
    prove their operations compute these roots. *)

From S2P Require Import Prelude ZeroBytes Hasher.

Section spec.
Context `{H : Hasher}.

(** Hash neighbours pairwise; a missing right neighbour is [z]. *)
Fixpoint pair_up (z : bytes) (nodes : list bytes) : res HasherError (list bytes) :=
  match nodes with
  | [] => Ok []
  | [a] => let? p := hashv [a; z] in Ok [p]
  | a :: b :: rest =>
      let? p := hashv [a; b] in
      let? ps := pair_up z rest in
      Ok (p :: ps)
  end.

(** The root of [2^n] leaves. *)
Fixpoint perfect_root (n : nat) (nodes : list bytes) : res HasherError bytes :=
  match n with
  | O => Ok (default zero32 (head nodes))
  | S n' => let? up := pair_up zero32 nodes in perfect_root n' up
  end.

(** The root of a tree of height [n] over [leaves], zero leaves elsewhere. *)
Definition merkle_root (n : nat) (leaves : list bytes) : res HasherError bytes :=
  perfect_root n (leaves ++ replicate (2 ^ n - length leaves) zero32).

(** The same root, one zero hash per level. *)
Fixpoint layers_root (zs : list bytes) (nodes : list bytes) : res HasherError bytes :=
  match zs with
  | [] => Ok (default zero32 (head nodes))
  | z :: zs' => let? up := pair_up z nodes in layers_root zs' up
  end.

(** [zs] are consecutive zero-subtree hashes below [top]. *)
Fixpoint zero_chain (zs : list bytes) (top : bytes) : Prop :=
  match zs with
  | [] => True
  | z :: zs' => hashv [z; z] = Ok (default top (head zs')) /\ zero_chain zs' top
  end.

Lemma pair_up_even z z' nodes k : length nodes = (2 * k)%nat -> pair_up z nodes = pair_up z' nodes.
Proof.
  revert nodes. induction k as [|k IH]; intros [|a [|b nodes]] Hl; simpl in Hl; try lia; [done|].
  simpl. rewrite (IH nodes) by lia. done.
Qed.

Lemma pair_up_replicate w z z' k : hashv [z; z] = Ok z' ->
  pair_up w (replicate (2 * k) z) = Ok (replicate k z').
Proof.
  intros Hz. induction k as [|k IH]; [done|].
  replace (2 * S k)%nat with (S (S (2 * k))) by lia. simpl. rewrite Hz. simpl.
  change (k + (k + 0))%nat with (2 * k)%nat. by rewrite IH.
Qed.

Lemma pair_up_pad w z z' nodes k m : hashv [z; z] = Ok z' ->
  (length nodes + k = 2 * m)%nat ->
  pair_up w (nodes ++ replicate k z)
  = let? up := pair_up z nodes in Ok (up ++ replicate (k / 2) z').
Proof.
  intros Hz. remember (length nodes) as n eqn:Hn. revert nodes Hn m.
  induction (lt_wf n) as [n _ IH]. intros [|a [|b nodes]] -> m Hm.
  - cbn [length app pair_up rbind Nat.add] in *. subst k. rewrite (pair_up_replicate w z z') by done.
    do 2 f_equal. by apply Nat.div_unique_exact.
  - destruct k as [|k]; simpl in Hm; [lia|]. simpl.
    destruct (hashv [a; z]); simpl; [|done..].
    replace k with (2 * (m - 1))%nat by lia. rewrite (pair_up_replicate w z z') by done. simpl.
    do 3 f_equal. apply Nat.div_unique with 1%nat; lia.
  - simpl. destruct (hashv [a; b]); simpl; [|done..].
    rewrite (IH (length nodes)) with (m := (m - 1)%nat); [|simpl; lia|done|simpl in Hm; lia].
    by destruct (pair_up z nodes).
Qed.

Lemma pair_up_length z nodes up :
  pair_up z nodes = Ok up -> length up = ((length nodes + 1) / 2)%nat.
Proof.
  revert up. remember (length nodes) as n eqn:Hn. revert nodes Hn.
  induction (lt_wf n) as [n _ IH]. intros [|a [|b nodes]] -> up Hup; simpl in Hup; run_inv; [done..|].
  simpl length. erewrite (IH (length nodes)); [|simpl; lia|done|done].
  replace (S (S (length nodes)) + 1)%nat with (length nodes + 1 + 1 * 2)%nat by lia.
  rewrite Nat.div_add by lia. lia.
Qed.

Lemma pair_up_nonempty z nodes up : pair_up z nodes = Ok up -> nodes <> [] -> up <> [].
Proof. destruct nodes as [|a [|b nodes]]; simpl; intros Hup ?; run_inv; done. Qed.

Lemma zero_chain_top z zs top : zero_chain (z :: zs) top ->
  perfect_root (length (z :: zs)) (replicate (2 ^ length (z :: zs)) z) = Ok top.
Proof.
  revert z. induction zs as [|z' zs IH]; intros z [Hz Hc].
  - simpl in *. by rewrite Hz.
  - cbn [length perfect_root] in *. rewrite Nat.pow_succ_r', (pair_up_replicate _ z z') by done.
    by apply IH.
Qed.

(** The layered computation is the root of the padded perfect tree. *)
Lemma layers_root_perfect z zs top nodes :
  zero_chain (z :: zs) top -> nodes <> [] -> (length nodes <= 2 ^ length (z :: zs))%nat ->
  perfect_root (length (z :: zs)) (nodes ++ replicate (2 ^ length (z :: zs) - length nodes) z)
  = layers_root (z :: zs) nodes.
Proof.
  revert z nodes. induction zs as [|z' zs IH]; intros z nodes [Hz Hc] Hne Hlen.
  - simpl in *. change (2 ^ 1)%nat with 2%nat in *. rewrite (pair_up_pad _ z top) with (m := 1%nat) by (done || lia).
    destruct (pair_up z nodes) as [up| |] eqn:Hup; simpl; [|done..].
    apply pair_up_nonempty in Hup; [|done]. by destruct up.
  - cbn [length perfect_root layers_root] in *. cbn [head default from_option] in Hz.
    set (n := length zs) in *. rewrite !Nat.pow_succ_r' in *.
    rewrite (pair_up_pad _ z z') with (m := (2 * 2 ^ n)%nat) by (done || lia).
    destruct (pair_up z nodes) as [up| |] eqn:Hup; cbn [rbind]; [|done..].
    pose proof (pair_up_nonempty _ _ _ Hup Hne). apply pair_up_length in Hup.
    rewrite <- IH; [|done|done|].
    + do 3 f_equal. rewrite Hup. f_equal.
      assert (length nodes + (2 * (2 * 2 ^ n) - length nodes) = 2 * (2 * 2 ^ n))%nat as He by lia.
      revert He. generalize (2 * (2 * 2 ^ n) - length nodes)%nat. intros k He.
      pose proof (Nat.div_mod_eq (length nodes + 1) 2). pose proof (Nat.mod_upper_bound (length nodes + 1) 2).
      pose proof (Nat.div_mod_eq k 2). pose proof (Nat.mod_upper_bound k 2). lia.
    + rewrite Hup.
      pose proof (Nat.div_mod_eq (length nodes + 1) 2). lia.
Qed.

Lemma zero_bytes_chain `{!ZeroBytesLaw H} n i z :
  zero_bytes !! i = Some z -> (i + n <= MAX_HEIGHT)%nat ->
  exists top, zero_bytes !! (i + n)%nat = Some top /\ zero_chain (take n (drop i zero_bytes)) top /\
    default top (head (take n (drop i zero_bytes))) = z.
Proof.
  revert i z. induction n as [|n IH]; intros i z Hz Hn.
  - rewrite Nat.add_0_r. exists z. done.
  - destruct (zero_bytes_S i z Hz) as (z' & Hz' & Hh); [lia|].
    destruct (IH (S i) z' Hz') as (top & Htop & Hc & Hd); [lia|].
    exists top. rewrite <- Nat.add_succ_comm. split; [done|].
    rewrite (drop_S _ z i Hz). cbn [take]. split; [|done].
    split; [|done]. by rewrite Hd.
Qed.

Lemma zero_bytes_chain_0 `{!ZeroBytesLaw H} n : (n <= MAX_HEIGHT)%nat ->
  exists top, zero_bytes !! n = Some top /\ zero_chain (take n zero_bytes) top.
Proof.
  intros Hn. destruct (zero_bytes_chain n 0 zero32 zero_bytes_0) as (top & ? & ? & _); [lia|].
  by exists top.
Qed.

Lemma length_take_zero_bytes `{!ZeroBytesLaw H} n : (n <= MAX_HEIGHT)%nat ->
  length (take n zero_bytes) = n.
Proof.
  intros Hn. destruct (zero_bytes_chain_0 n Hn) as (top & Ht & _).
  apply lookup_lt_Some in Ht. rewrite length_take. lia.
Qed.

Lemma take_zero_bytes_S `{!ZeroBytesLaw H} n : (S n <= MAX_HEIGHT)%nat ->
  exists zs, take (S n) zero_bytes = zero32 :: zs.
Proof.
  intros Hn. pose proof (zero_bytes_0 (H := H)) as H0. destruct zero_bytes as [|z zs]; [done|].
  simpl in H0. simplify_eq. by eexists.
Qed.

(** The table computes the specified root. *)
Lemma merkle_root_layers `{!ZeroBytesLaw H} h leaves :
  (0 < h <= MAX_HEIGHT)%nat -> leaves <> [] -> (length leaves <= 2 ^ h)%nat ->
  merkle_root h leaves = layers_root (take h zero_bytes) leaves.
Proof.
  intros Hh Hne Hlen. destruct h as [|h]; [lia|].
  destruct (zero_bytes_chain_0 (S h)) as (top & _ & Hc); [lia|].
  pose proof (length_take_zero_bytes (S h) ltac:(lia)) as Hl.
  destruct (take_zero_bytes_S h ltac:(lia)) as [zs Hzs]. rewrite Hzs in *.
  unfold merkle_root. rewrite <- Hl in Hlen |- *. by apply (layers_root_perfect _ _ top).
Qed.

Lemma merkle_root_empty `{!ZeroBytesLaw H} h : (h <= MAX_HEIGHT)%nat ->
  exists top, zero_bytes !! h = Some top /\ merkle_root h [] = Ok top.
Proof.
  intros Hh. destruct (zero_bytes_chain_0 h Hh) as (top & Ht & Hc). exists top. split; [done|].
  unfold merkle_root. cbn [app length]. rewrite Nat.sub_0_r. destruct h as [|h].
  - simpl. rewrite zero_bytes_0 in Ht. by simplify_eq.
  - pose proof (length_take_zero_bytes (S h) Hh) as Hl.
    destruct (take_zero_bytes_S h Hh) as [zs Hzs]. rewrite Hzs in *.
    rewrite <- Hl. by apply zero_chain_top.
Qed.

(** *** Totality *)

Section total.
Variable P : bytes -> Prop.
Hypothesis node_total : forall a b, P a -> P b -> exists c, hashv [a; b] = Ok c /\ P c.

Lemma pair_up_total z nodes : P z -> Forall P nodes ->
  exists up, pair_up z nodes = Ok up /\ Forall P up.
Proof.
  intros Hz. remember (length nodes) as n eqn:Hn. revert nodes Hn.
  induction (lt_wf n) as [n _ IH]. intros [|a [|b nodes]] -> Hall; simpl.
  - by eexists.
  - rewrite Forall_singleton in Hall. destruct (node_total a z) as (c & -> & ?); [done..|].
    simpl. eauto.
  - rewrite !Forall_cons in Hall. destruct Hall as (? & ? & ?).
    destruct (node_total a b) as (c & -> & ?); [done..|].
    destruct (IH (length nodes)) with (nodes := nodes) as (up & -> & ?); [simpl; lia|done..|].
    simpl. eauto.
Qed.

End total.
End spec.
