(* ===== verification/Smt.v ===== *)
(** * The UTXO state tree

    src/program-libs/tree/src/smt.rs: [UtxoTreeLayout], the append-only Merkle
    tree of output commitments with its root-history ring, and the account-level
    error type of src/program-libs/tree/src/error.rs.  The abstract state is the
    list of appended leaves and the list of final roots per slot; the refinement
    theorem shows [append_batch] implements the abstract append exactly. *)

From S2P Require Import Prelude ZeroBytes Hasher HashChain MerkleSpec.

Inductive TreeError : Set :=
| InvalidBufferSize
| HeightTooLarge
| Deserialize
| NullifierInit
| AlreadyInitialized
| InvalidOwner
| NotWritable
| InvalidDiscriminator
| Paused
| InvalidRootIndex
| Borrowed
| TreeIsFull
| InvalidUpdateSlot
| InvalidCapacity
| FeeOverflow
| FeeTooHigh
| HashError.

#[global] Instance TreeError_eq_dec : EqDecision TreeError.
Proof. solve_decision. Defined.

Definition ROOT_OFFSET : Z := 8.
Definition ROOT_HISTORY_CAPACITY : nat := 500.

(** [HEIGHT] is the length of [subtrees]; [next_index] is stored as eight
    little-endian bytes, the other fields as machine integers. *)
Record UtxoTreeLayout : Type := mkUtxoTree {
  next_index_bytes : bytes;
  root : bytes;
  root_history_cursor : Z;
  root_history_len : Z;
  root_history_capacity : Z;
  subtrees_len : Z;
  padding : bytes;
  last_update_slot : Z;
  subtrees : list bytes;
  root_history : list bytes;
}.

Definition next_index (t : UtxoTreeLayout) : Z := le_val (next_index_bytes t).

Definition current_root_index (t : UtxoTreeLayout) : Z := root_history_cursor t.

(** Field assignments. *)
Definition set_next_index (value : Z) (t : UtxoTreeLayout) : UtxoTreeLayout :=
  mkUtxoTree (le_bytes 8 value) (root t) (root_history_cursor t) (root_history_len t)
    (root_history_capacity t) (subtrees_len t) (padding t) (last_update_slot t)
    (subtrees t) (root_history t).

Definition set_root (value : bytes) (t : UtxoTreeLayout) : UtxoTreeLayout :=
  mkUtxoTree (next_index_bytes t) value (root_history_cursor t) (root_history_len t)
    (root_history_capacity t) (subtrees_len t) (padding t) (last_update_slot t)
    (subtrees t) (root_history t).

Definition set_subtrees (value : list bytes) (t : UtxoTreeLayout) : UtxoTreeLayout :=
  mkUtxoTree (next_index_bytes t) (root t) (root_history_cursor t) (root_history_len t)
    (root_history_capacity t) (subtrees_len t) (padding t) (last_update_slot t)
    value (root_history t).

Definition set_history (cursor len slot : Z) (history : list bytes) (t : UtxoTreeLayout)
    : UtxoTreeLayout :=
  mkUtxoTree (next_index_bytes t) (root t) cursor len
    (root_history_capacity t) (subtrees_len t) (padding t) slot (subtrees t) history.

Section tree.
Context `{SolPoseidon} (HEIGHT : nat).

(** [1u64 << HEIGHT]; the heights in use are below 64. *)
Definition capacity : Z := 2 ^ Z.of_nat HEIGHT.

(** [for (subtree, zero) in subtrees.iter_mut().zip(zero_bytes)]. *)
Fixpoint zip_assign (dst src : list bytes) : list bytes :=
  match dst, src with
  | _ :: dst', x :: src' => x :: zip_assign dst' src'
  | _, _ => dst
  end.

Definition init (height : Z) : M UtxoTreeLayout TreeError unit := fun t =>
  if negb (height =? Z.of_nat HEIGHT) then (Err HeightTooLarge, t)
  else if negb (height <? 2 ^ 8) then (Err HeightTooLarge, t)
  else if negb (Z.of_nat ROOT_HISTORY_CAPACITY <? 2 ^ 16) then (Err InvalidCapacity, t)
  else
    match zero_bytes !! Z.to_nat height with
    | None => (Err HeightTooLarge, t)
    | Some empty_root =>
        (Ok tt,
         mkUtxoTree (le_bytes 8 0) empty_root 0 1 (Z.of_nat ROOT_HISTORY_CAPACITY) height
           [x00] 0 (zip_assign (subtrees t) zero_bytes)
           (<[0%nat := empty_root]> (root_history t)))
    end.

Definition push_root (root : bytes) (slot : Z) (is_first_update : bool) (t : UtxoTreeLayout)
    : UtxoTreeLayout :=
  let capacity := Z.of_nat (length (root_history t)) in
  let cursor := current_root_index t in
  if negb is_first_update && (slot =? last_update_slot t) then
    set_history cursor (root_history_len t) (last_update_slot t)
      (<[Z.to_nat cursor := root]> (root_history t)) t
  else
    let len := root_history_len t in
    let next := (cursor + 1) mod capacity in
    let next_len := Z.min (len + 1) capacity in
    set_history (next mod 2 ^ 16) (next_len mod 2 ^ 16) slot
      (<[Z.to_nat next := root]> (root_history t)) t.

(** The walk over the levels for one leaf.  [break] at the first even level
    unless the leaf is the batch's last, whose walk continues to the root. *)
Fixpoint level_loop (is_last : bool) (current_index : Z) (current_level_hash : bytes)
    (zeros : list bytes) (subtrees : list bytes) : res TreeError bytes * list bytes :=
  match subtrees, zeros with
  | subtree :: subtrees', zero_byte :: zeros' =>
      if Z.even current_index then
        let subtree := current_level_hash in
        if negb is_last then (Ok current_level_hash, subtree :: subtrees')
        else
          match map_err (fun _ => HashError) (hashv [current_level_hash; zero_byte]) with
          | Ok h =>
              let '(r, subtrees') := level_loop is_last (current_index / 2) h zeros' subtrees' in
              (r, subtree :: subtrees')
          | Err e => (Err e, subtree :: subtrees')
          | Panic => (Panic, subtree :: subtrees')
          end
      else
        let left := subtree in
        match map_err (fun _ => HashError) (hashv [left; current_level_hash]) with
        | Ok h =>
            let '(r, subtrees') := level_loop is_last (current_index / 2) h zeros' subtrees' in
            (r, subtree :: subtrees')
        | Err e => (Err e, subtree :: subtrees')
        | Panic => (Panic, subtree :: subtrees')
        end
  | _, _ => (Ok current_level_hash, subtrees)
  end.

(** The [while let Some(leaf) = leaves.next()] loop of [append_batch]. *)
Fixpoint append_loop (slot : Z) (is_first_update : bool) (leaves : list bytes)
    : M UtxoTreeLayout TreeError unit :=
  match leaves with
  | [] => mret tt
  | leaf :: leaves' =>
      do! t <- mget;
      require next_index t <? capacity else TreeIsFull;
      let is_last := match leaves' with [] => true | _ :: _ => false end in
      do! current_level_hash <-
        zoom subtrees set_subtrees (level_loop is_last (next_index t) leaf zero_bytes);
      exec! (if is_last then
             mmodify (fun t =>
               push_root current_level_hash slot is_first_update (set_root current_level_hash t))
           else mret tt);
      do! t <- mget;
      do! n <- mlift (uadd 64 (next_index t) 1);
      exec! mmodify (set_next_index n);
      append_loop slot is_first_update leaves'
  end.

Definition append_batch (leaves : list bytes) (slot : Z) : M UtxoTreeLayout TreeError unit :=
  do! t <- mget;
  let is_first_update := next_index t =? 0 in
  let some_leaf := match leaves with [] => false | _ :: _ => true end in
  require negb (some_leaf && negb is_first_update && (slot <? last_update_slot t))
    else InvalidUpdateSlot;
  append_loop slot is_first_update leaves.

Definition append (leaf : bytes) (slot : Z) : M UtxoTreeLayout TreeError unit :=
  append_batch [leaf] slot.

Definition root_by_index (t : UtxoTreeLayout) (index : Z) : res TreeError bytes :=
  let capacity := Z.of_nat (length (root_history t)) in
  let len := root_history_len t in
  check negb ((len =? 0) || (capacity <=? index)) else InvalidRootIndex in
  check negb ((len <? capacity) && (len <=? index)) else InvalidRootIndex in
  let? root := ok_or (root_history t !! Z.to_nat index) InvalidRootIndex in
  check negb (forallb (fun byte => byte_val byte =? 0) root) else InvalidRootIndex in
  Ok root.

Definition height (t : UtxoTreeLayout) : nat := length (subtrees t).

End tree.

(** ** The frontier

    [complete_pairs] are the parents whose two children both exist.  [frontier
    subs nodes]: at every level with an odd number of complete nodes, the stored
    subtree is the last of them. *)

Section frontier.
Context `{H : SolPoseidon} {HT : PoseidonTotal H}.

Fixpoint complete_pairs (nodes : list bytes) : res HasherError (list bytes) :=
  match nodes with
  | a :: b :: rest =>
      let? p := hashv [a; b] in
      let? ps := complete_pairs rest in
      Ok (p :: ps)
  | _ => Ok []
  end.

Fixpoint frontier (subs : list bytes) (nodes : list bytes) : Prop :=
  match subs with
  | [] => True
  | s :: subs' =>
      (Nat.odd (length nodes) = true -> last nodes = Some s) /\
      exists up, complete_pairs nodes = Ok up /\ frontier subs' up
  end.

Lemma node_total a b : canonical a -> canonical b ->
  exists c, hashv [a; b] = Ok c /\ canonical c.
Proof. intros. apply poseidon_hashv_total; [simpl; lia|]. auto. Qed.

(** Induction two elements at a time. *)
Lemma pair_ind (Q : list bytes -> Prop) :
  Q [] -> (forall a, Q [a]) -> (forall a b l, Q l -> Q (a :: b :: l)) -> forall l, Q l.
Proof.
  intros H0 H1 H2. fix IH 1. intros [|a [|b l]]; [done|apply H1|apply H2, IH].
Qed.

Lemma complete_pairs_spec nodes : Forall canonical nodes ->
  exists up, complete_pairs nodes = Ok up /\ Forall canonical up /\
    length up = (length nodes / 2)%nat.
Proof.
  induction nodes as [|a|a b l IH] using pair_ind; intros Hc; simpl; [by eexists..|].
  rewrite !Forall_cons in Hc. destruct Hc as (Ha & Hb & Hl).
  destruct (node_total a b Ha Hb) as (c & -> & ?). destruct (IH Hl) as (up & -> & ? & Hup).
  eexists. split; [done|]. split; [auto|]. simpl. rewrite Hup.
  replace (S (S (length l))) with (length l + 1 * 2)%nat by lia. rewrite Nat.div_add by lia. lia.
Qed.

Lemma complete_pairs_snoc_even nodes h : Nat.even (length nodes) = true ->
  complete_pairs (nodes ++ [h]) = complete_pairs nodes.
Proof.
  induction nodes as [|a|a b l IH] using pair_ind; intros He; [done|done|].
  simpl. by rewrite IH.
Qed.

Lemma complete_pairs_snoc_odd nodes s h : Nat.odd (length nodes) = true -> last nodes = Some s ->
  complete_pairs (nodes ++ [h])
  = let? up := complete_pairs nodes in let? p := hashv [s; h] in Ok (up ++ [p]).
Proof.
  induction nodes as [|a|a b l IH] using pair_ind; intros Ho Hs; [done| |].
  - simpl in *. simplify_eq. done.
  - assert (last l = Some s) as Hs' by (by destruct l). cbn [app complete_pairs].
    destruct (hashv [a; b]); cbn [rbind]; [|done..]. rewrite IH by done.
    destruct (complete_pairs l); cbn [rbind]; [|done..]. by destruct (hashv [s; h]).
Qed.

(** The padded layer above [nodes ++ [h]] is the complete one plus the hash the
    walk computes. *)
Lemma pair_up_snoc_even z nodes h : Nat.even (length nodes) = true ->
  pair_up z (nodes ++ [h])
  = let? up := complete_pairs nodes in let? p := hashv [h; z] in Ok (up ++ [p]).
Proof.
  induction nodes as [|a|a b l IH] using pair_ind; intros He; [done|done|].
  cbn [app complete_pairs pair_up]. destruct (hashv [a; b]); cbn [rbind]; [|done..].
  rewrite IH by done. destruct (complete_pairs l); cbn [rbind]; [|done..]. by destruct (hashv [h; z]).
Qed.

Lemma pair_up_snoc_odd z nodes s h : Nat.odd (length nodes) = true -> last nodes = Some s ->
  pair_up z (nodes ++ [h])
  = let? up := complete_pairs nodes in let? p := hashv [s; h] in Ok (up ++ [p]).
Proof.
  intros Ho Hs. rewrite <- complete_pairs_snoc_odd by done.
  induction nodes as [|a|a b l IH] using pair_ind; [done|simpl in *; by simplify_eq|].
  assert (last l = Some s) by (by destruct l). cbn [app complete_pairs pair_up]. by rewrite IH.
Qed.

Lemma even_Z n : Z.even (Z.of_nat n) = Nat.even n.
Proof.
  induction (lt_wf n) as [n _ IH]. destruct n as [|[|n]]; [done..|].
  change (Nat.even (S (S n))) with (Nat.even n). rewrite <- (IH n) by lia.
  by rewrite !Nat2Z.inj_succ, !Z.even_succ, Z.odd_succ.
Qed.

Lemma half_Z n : Z.of_nat n / 2 = Z.of_nat (n / 2).
Proof. symmetry. apply (Nat2Z.inj_div n 2). Qed.

Lemma frontier_inv s subs nodes :
  frontier (s :: subs) nodes -> Forall canonical nodes -> (length nodes < 2 ^ S (length subs))%nat ->
  exists up, complete_pairs nodes = Ok up /\ frontier subs up /\ Forall canonical up /\
    length up = (length nodes / 2)%nat /\ (length up < 2 ^ length subs)%nat /\
    (Nat.even (length nodes) = false ->
       Nat.odd (length nodes) = true /\ last nodes = Some s /\ canonical s).
Proof.
  intros (Hodd & up & Hup & Hf) Hn Hlen. rewrite Nat.pow_succ_r' in Hlen.
  destruct (complete_pairs_spec nodes Hn) as (up' & Hup' & Hcup & Hlup).
  rewrite Hup in Hup'. injection Hup' as <-. exists up.
  split_and!; [done..|rewrite Hlup; apply Nat.Div0.div_lt_upper_bound; lia|].
  intros Hpar. assert (Nat.odd (length nodes) = true) as Ho by (by rewrite <- Nat.negb_even, Hpar).
  specialize (Hodd Ho). split_and!; [done..|].
  apply last_Some in Hodd as (l' & ->). apply Forall_app in Hn as [_ Hn].
  by rewrite Forall_singleton in Hn.
Qed.

(** Above the first even level the walk carries a padded node: it computes the
    root and leaves every constrained subtree in place. *)
Lemma level_loop_padded subs zs nodes h :
  frontier subs nodes -> Forall canonical nodes -> canonical h -> Forall canonical zs ->
  (length subs <= length zs)%nat -> (length nodes < 2 ^ length subs)%nat ->
  exists r subs', level_loop true (Z.of_nat (length nodes)) h zs subs = (Ok r, subs') /\
    frontier subs' nodes /\ length subs' = length subs /\ canonical r /\
    layers_root (take (length subs) zs) (nodes ++ [h]) = Ok r.
Proof.
  revert zs nodes h. induction subs as [|s subs IH]; intros zs nodes h Hf Hn Hh Hz Hlz Hlen.
  - change (2 ^ length [])%nat with 1%nat in Hlen. destruct nodes; [|simpl in Hlen; lia].
    exists h, []. by destruct zs.
  - destruct zs as [|z zs]; [simpl in *; lia|]. rewrite Forall_cons in Hz. destruct Hz as [Hz Hzs].
    cbn [length] in *. destruct (frontier_inv _ _ _ Hf Hn Hlen) as (up & Hup & ? & ? & Hlup & ? & Hodd).
    cbn [level_loop take layers_root negb]. rewrite even_Z, half_Z, <- Hlup.
    destruct (Nat.even (length nodes)) eqn:Hpar.
    + destruct (node_total h z Hh Hz) as (p & Hp & ?). rewrite Hp. cbn [map_err].
      destruct (IH zs up p) as (r & subs' & -> & ? & ? & ? & ?); [done..|lia|done|].
      exists r, (h :: subs'). rewrite pair_up_snoc_even, Hup, Hp by done.
      split; [done|]. split; [|by simpl; auto with lia].
      split; [by rewrite <- Nat.negb_even, Hpar|]. by exists up.
    + destruct (Hodd eq_refl) as (Ho & Hs & Hcs).
      destruct (node_total s h Hcs Hh) as (p & Hp & ?). rewrite Hp. cbn [map_err].
      destruct (IH zs up p) as (r & subs' & -> & ? & ? & ? & ?); [done..|lia|done|].
      exists r, (s :: subs'). rewrite (pair_up_snoc_odd _ _ s), Hup, Hp by done.
      split; [done|]. split; [|by simpl; auto with lia].
      split; [done|]. by exists up.
Qed.

(** The walk for one leaf extends the frontier, and for the batch's last leaf
    returns the root. *)
Lemma level_loop_append is_last subs zs nodes h :
  frontier subs nodes -> Forall canonical nodes -> canonical h -> Forall canonical zs ->
  (length subs <= length zs)%nat -> (length nodes < 2 ^ length subs)%nat ->
  exists r subs', level_loop is_last (Z.of_nat (length nodes)) h zs subs = (Ok r, subs') /\
    frontier subs' (nodes ++ [h]) /\ length subs' = length subs /\ canonical r /\
    (is_last = true -> layers_root (take (length subs) zs) (nodes ++ [h]) = Ok r).
Proof.
  revert zs nodes h. induction subs as [|s subs IH]; intros zs nodes h Hf Hn Hh Hz Hlz Hlen.
  - change (2 ^ length [])%nat with 1%nat in Hlen. destruct nodes; [|simpl in Hlen; lia].
    exists h, []. by destruct zs.
  - destruct zs as [|z zs]; [simpl in *; lia|]. rewrite Forall_cons in Hz. destruct Hz as [Hz Hzs].
    cbn [length] in *. destruct (frontier_inv _ _ _ Hf Hn Hlen) as (up & Hup & ? & ? & Hlup & ? & Hodd).
    assert (length (nodes ++ [h]) = S (length nodes)) as Hl by (rewrite length_app; simpl; lia).
    cbn [level_loop take layers_root]. rewrite even_Z, half_Z, <- Hlup.
    destruct (Nat.even (length nodes)) eqn:Hpar.
    + assert (forall subs', frontier subs' up -> frontier (h :: subs') (nodes ++ [h])) as Hfr.
      { intros subs' ?. split; [by rewrite last_snoc|].
        exists up. by rewrite complete_pairs_snoc_even. }
      destruct is_last; cbn [negb]; [|exists h, (h :: subs); split_and!; auto; done].
      destruct (node_total h z Hh Hz) as (p & Hp & ?). rewrite Hp. cbn [map_err].
      destruct (level_loop_padded subs zs up p) as (r & subs' & -> & ? & ? & ? & ?); [done..|lia|done|].
      exists r, (h :: subs'). rewrite pair_up_snoc_even, Hup, Hp by done.
      split_and!; [done|by apply Hfr|simpl; lia|done|done].
    + destruct (Hodd eq_refl) as (Ho & Hs & Hcs).
      destruct (node_total s h Hcs Hh) as (p & Hp & ?). rewrite Hp. cbn [map_err].
      destruct (IH zs up p) as (r & subs' & -> & ? & ? & ? & ?); [done..|lia|done|].
      exists r, (s :: subs'). rewrite (pair_up_snoc_odd _ _ s), Hup, Hp by done.
      split; [done|]. split; [|by simpl; auto with lia].
      split; [by rewrite Hl, Nat.odd_succ, Hpar|].
      exists (up ++ [p]). by rewrite (complete_pairs_snoc_odd _ s), Hup, Hp.
Qed.

End frontier.

(** ** Abstract state tree *)

Record UtxoSpec : Type := mkUtxoSpec {
  spec_leaves : list bytes;      (** every appended leaf, in order *)
  spec_roots : list bytes;       (** the empty root, then the final root of each update slot *)
  spec_slot : Z;                 (** the slot of the last update *)
}.

(** [replace_last x l]: [l] with its last element replaced. *)
Definition replace_last (x : bytes) (l : list bytes) : list bytes := take (length l - 1) l ++ [x].

Section abstract.
Context `{H : SolPoseidon} (HEIGHT : nat).

Definition spec_append (leaves : list bytes) (slot : Z) (st : UtxoSpec) : res TreeError UtxoSpec :=
  if decide (leaves = []) then Ok st else
  let first := bool_decide (spec_leaves st = []) in
  if negb first && (slot <? spec_slot st) then Err InvalidUpdateSlot
  else if capacity HEIGHT <? Z.of_nat (length (spec_leaves st ++ leaves)) then Err TreeIsFull
  else
    let? r := map_err (fun _ => HashError) (merkle_root HEIGHT (spec_leaves st ++ leaves)) in
    Ok (mkUtxoSpec (spec_leaves st ++ leaves)
          (if negb first && (slot =? spec_slot st) then replace_last r (spec_roots st)
           else spec_roots st ++ [r])
          slot).

(** The history ring holds the last [500] roots, root number [j] at
    [j mod 500]. *)
Definition ring (t : UtxoTreeLayout) (roots : list bytes) : Prop :=
  length (root_history t) = ROOT_HISTORY_CAPACITY /\
  (0 < length roots)%nat /\
  root_history_cursor t = (Z.of_nat (length roots) - 1) mod Z.of_nat ROOT_HISTORY_CAPACITY /\
  root_history_len t = Z.min (Z.of_nat (length roots)) (Z.of_nat ROOT_HISTORY_CAPACITY) /\
  forall j r, roots !! j = Some r -> (length roots <= j + ROOT_HISTORY_CAPACITY)%nat ->
    root_history t !! (j mod ROOT_HISTORY_CAPACITY)%nat = Some r.

Definition repr (t : UtxoTreeLayout) (st : UtxoSpec) : Prop :=
  next_index_bytes t = le_bytes 8 (Z.of_nat (length (spec_leaves st))) /\
  Forall canonical (spec_leaves st) /\
  Z.of_nat (length (spec_leaves st)) <= capacity HEIGHT /\
  length (subtrees t) = HEIGHT /\ frontier (subtrees t) (spec_leaves st) /\
  merkle_root HEIGHT (spec_leaves st) = Ok (root t) /\
  last (spec_roots st) = Some (root t) /\
  ring t (spec_roots st) /\ last_update_slot t = spec_slot st /\
  root_history_capacity t = Z.of_nat ROOT_HISTORY_CAPACITY /\
  subtrees_len t = Z.of_nat HEIGHT.

End abstract.

(** ** Lemmas on the append loop and the ring *)

Section refinement.
Context `{H : SolPoseidon} {HT : PoseidonTotal H} {HZ : ZeroBytesLaw Poseidon.Poseidon}.
Context (HEIGHT : nat) (Hheight : (0 < HEIGHT <= MAX_HEIGHT)%nat).

Lemma capacity_nat : capacity HEIGHT = Z.of_nat (2 ^ HEIGHT).
Proof. unfold capacity. by rewrite Nat2Z.inj_pow. Qed.

Lemma capacity_u64 : capacity HEIGHT < 2 ^ 63.
Proof. unfold capacity, MAX_HEIGHT in *. apply Z.pow_lt_mono_r; lia. Qed.

Lemma next_index_set n t : 0 <= n < 2 ^ 64 -> next_index (set_next_index n t) = n.
Proof. intros. apply le_val_le_bytes. done. Qed.

(** One leaf walked over the stored subtrees. *)
Lemma level_loop_leaf is_last subs nodes h :
  frontier subs nodes -> length subs = HEIGHT -> Forall canonical nodes -> canonical h ->
  Z.of_nat (length nodes) < capacity HEIGHT ->
  exists r subs', level_loop is_last (Z.of_nat (length nodes)) h zero_bytes subs = (Ok r, subs') /\
    frontier subs' (nodes ++ [h]) /\ length subs' = HEIGHT /\ canonical r /\
    (is_last = true -> merkle_root HEIGHT (nodes ++ [h]) = Ok r).
Proof.
  rewrite capacity_nat. intros Hf Hs Hn Hh Hlen.
  pose proof (length_take_zero_bytes HEIGHT ltac:(lia)) as Hz.
  assert (HEIGHT <= length zero_bytes)%nat by (rewrite length_take in Hz; lia).
  destruct (level_loop_append is_last subs zero_bytes nodes h)
    as (r & subs' & Hl & ? & ? & ? & Hr); [done..|apply poseidon_zero_bytes_canonical|lia|rewrite Hs; lia|].
  exists r, subs'. split_and!; [done|done|lia|done|].
  intros Hlast. rewrite merkle_root_layers; [rewrite <- Hs; auto|lia|by destruct nodes|].
  rewrite length_app; simpl; lia.
Qed.

(** The loop's invariant on the tree proper. *)
Definition core (t : UtxoTreeLayout) (ls : list bytes) : Prop :=
  next_index_bytes t = le_bytes 8 (Z.of_nat (length ls)) /\ Forall canonical ls /\
  Z.of_nat (length ls) <= capacity HEIGHT /\
  length (subtrees t) = HEIGHT /\ frontier (subtrees t) ls.

Lemma core_next_index t ls : core t ls -> next_index t = Z.of_nat (length ls).
Proof.
  intros (Hn & _ & Hc & _). unfold next_index. rewrite Hn. apply le_val_le_bytes.
  pose proof capacity_u64. change (256 ^ Z.of_nat 8) with (2 ^ 64). lia.
Qed.

(** One non-final leaf only moves the subtrees and the index. *)
Lemma append_loop_step slot first leaf l leaves t ls :
  core t ls -> canonical leaf -> Z.of_nat (length ls) < capacity HEIGHT ->
  exists subs', core (set_next_index (Z.of_nat (length (ls ++ [leaf]))) (set_subtrees subs' t)) (ls ++ [leaf]) /\
    append_loop HEIGHT slot first (leaf :: l :: leaves) t
    = append_loop HEIGHT slot first (l :: leaves)
        (set_next_index (Z.of_nat (length (ls ++ [leaf]))) (set_subtrees subs' t)).
Proof.
  intros Hcore Hleaf Hlt. pose proof (core_next_index _ _ Hcore) as Hni.
  destruct Hcore as (Hn & Hls & _ & Hsub & Hfr). pose proof capacity_u64.
  destruct (level_loop_leaf false (subtrees t) ls leaf) as (r & subs' & Hl & ? & ? & ? & _); [done..|].
  assert (Z.of_nat (length (ls ++ [leaf])) = Z.of_nat (length ls) + 1) as Hlen
    by (rewrite length_app; simpl; lia).
  exists subs'. split.
  - split_and!; [done|by apply Forall_app_2; auto|lia|done|done].
  - cbn [append_loop]. unfold mbindM at 1, mget. rewrite Hni, (proj2 (Z.ltb_lt _ _)) by done.
    unfold mbindM at 1, zoom. rewrite Hl. unfold mbindM at 1 2, mret, mget.
    change (next_index (set_subtrees subs' t)) with (next_index t). rewrite Hni.
    unfold mbindM at 1, mlift. rewrite uadd_eq by lia. by rewrite Hlen.
Qed.

(** The final leaf also sets the root and pushes it to the history. *)
Lemma append_loop_last slot first leaf t ls :
  core t ls -> canonical leaf -> Z.of_nat (length ls) < capacity HEIGHT ->
  exists r subs',
    merkle_root HEIGHT (ls ++ [leaf]) = Ok r /\ frontier subs' (ls ++ [leaf]) /\
    length subs' = HEIGHT /\
    append_loop HEIGHT slot first [leaf] t
    = (Ok tt, set_next_index (Z.of_nat (length (ls ++ [leaf])))
                (push_root r slot first (set_root r (set_subtrees subs' t)))).
Proof.
  intros Hcore Hleaf Hlt. pose proof (core_next_index _ _ Hcore) as Hni.
  destruct Hcore as (Hn & Hls & _ & Hsub & Hfr). pose proof capacity_u64.
  destruct (level_loop_leaf true (subtrees t) ls leaf) as (r & subs' & Hl & ? & ? & ? & Hr); [done..|].
  assert (Z.of_nat (length (ls ++ [leaf])) = Z.of_nat (length ls) + 1) as Hlen
    by (rewrite length_app; simpl; lia).
  exists r, subs'. split_and!; [by apply Hr|done|done|].
  cbn [append_loop]. unfold mbindM at 1, mget. rewrite Hni, (proj2 (Z.ltb_lt _ _)) by done.
  unfold mbindM at 1, zoom. rewrite Hl. unfold mbindM at 1 2, mmodify, mget.
  assert (next_index (push_root r slot first (set_root r (set_subtrees subs' t))) = next_index t)
    as -> by (unfold push_root; by case_match).
  rewrite Hni. unfold mbindM at 1, mlift. rewrite uadd_eq by lia. by rewrite Hlen.
Qed.

Lemma push_root_absorb r slot first subs n subs' t :
  push_root r slot first (set_root r (set_subtrees subs (set_next_index n (set_subtrees subs' t))))
  = set_next_index n (push_root r slot first (set_root r (set_subtrees subs t))).
Proof. unfold push_root. simpl. by case_match. Qed.

Lemma append_loop_ok slot first leaves t ls :
  leaves <> [] -> core t ls -> Forall canonical leaves ->
  Z.of_nat (length (ls ++ leaves)) <= capacity HEIGHT ->
  exists r subs',
    merkle_root HEIGHT (ls ++ leaves) = Ok r /\ frontier subs' (ls ++ leaves) /\
    length subs' = HEIGHT /\
    append_loop HEIGHT slot first leaves t
    = (Ok tt, set_next_index (Z.of_nat (length (ls ++ leaves)))
                (push_root r slot first (set_root r (set_subtrees subs' t)))).
Proof.
  revert t ls. induction leaves as [|leaf leaves IH]; intros t ls Hne Hcore Hc Hcap; [done|].
  rewrite Forall_cons in Hc. destruct Hc as [Hleaf Hc].
  assert (Z.of_nat (length ls) < capacity HEIGHT) as Hlt by (rewrite length_app in Hcap; simpl in Hcap; lia).
  destruct leaves as [|l leaves]; [by apply append_loop_last|].
  destruct (append_loop_step slot first leaf l leaves t ls) as (subs1 & Hcore1 & ->); [done..|].
  rewrite cons_middle, app_assoc in Hcap |- *.
  destruct (IH _ _ ltac:(done) Hcore1 Hc Hcap) as (r & subs' & ? & ? & ? & ->).
  exists r, subs'. by rewrite push_root_absorb.
Qed.

Lemma append_loop_full slot first leaves t ls :
  core t ls -> Forall canonical leaves -> capacity HEIGHT < Z.of_nat (length (ls ++ leaves)) ->
  exists t', append_loop HEIGHT slot first leaves t = (Err TreeIsFull, t').
Proof.
  revert t ls. induction leaves as [|leaf leaves IH]; intros t ls Hcore Hc Hcap.
  - destruct Hcore as (_ & _ & ? & _). rewrite app_nil_r in Hcap. lia.
  - rewrite Forall_cons in Hc. destruct Hc as [Hleaf Hc].
    destruct (decide (Z.of_nat (length ls) < capacity HEIGHT)) as [Hlt|Hge].
    + destruct leaves as [|l leaves]; [rewrite length_app in Hcap; simpl in Hcap; lia|].
      destruct (append_loop_step slot first leaf l leaves t ls) as (subs1 & Hcore1 & ->); [done..|].
      apply (IH _ _ Hcore1 Hc). by rewrite cons_middle, app_assoc in Hcap.
    + exists t. cbn [append_loop]. unfold mbindM at 1, mget.
      rewrite (core_next_index _ _ Hcore), (proj2 (Z.ltb_ge _ _)) by lia. done.
Qed.

End refinement.

Lemma mod_neq (a b n : nat) : (a < b < a + n)%nat -> (a mod n <> b mod n)%nat.
Proof.
  intros Hab Heq. pose proof (Nat.div_mod_eq a n). pose proof (Nat.div_mod_eq b n).
  assert (a / n < b / n)%nat by nia. nia.
Qed.

Lemma push_root_fresh t roots r slot first :
  ring t roots -> negb first && (slot =? last_update_slot t) = false ->
  ring (push_root r slot first t) (roots ++ [r]) /\ last_update_slot (push_root r slot first t) = slot.
Proof.
  intros (Hlen & Hpos & Hcur & Hl & Hat) Hb. unfold push_root, current_root_index. rewrite Hb.
  split; [|done]. set (n := length roots) in *. unfold ROOT_HISTORY_CAPACITY in *.
  assert ((root_history_cursor t + 1) mod Z.of_nat (length (root_history t)) = Z.of_nat (n mod 500)) as ->.
  { rewrite Hcur, Hlen, Zplus_mod_idemp_l, Nat2Z.inj_mod. f_equal. lia. }
  pose proof (Nat.mod_upper_bound n 500 ltac:(lia)).
  unfold ring, ROOT_HISTORY_CAPACITY. split_and!; simpl; rewrite ?length_insert, ?length_app; fold n; simpl.
  - done.
  - lia.
  - rewrite Nat2Z.inj_mod. rewrite Z.mod_small by (rewrite <- Nat2Z.inj_mod; lia). f_equal. lia.
  - rewrite Hl, Hlen. rewrite Z.mod_small; lia.
  - intros j r' Hj Hge. rewrite Nat2Z.id.
    apply lookup_snoc_Some in Hj as [[Hj Hr]|[-> <-]].
    + rewrite list_lookup_insert_ne; [apply Hat; [done|lia]|].
      fold n in Hj. intros Heq. apply (mod_neq j n 500); lia.
    + apply list_lookup_insert_eq. rewrite Hlen. fold n. lia.
Qed.

Lemma push_root_same_slot t roots r slot first :
  ring t roots -> negb first && (slot =? last_update_slot t) = true ->
  ring (push_root r slot first t) (replace_last r roots) /\
  last_update_slot (push_root r slot first t) = slot.
Proof.
  intros (Hlen & Hpos & Hcur & Hl & Hat) Hb. unfold push_root, current_root_index. rewrite Hb.
  breflect. split; [|done]. set (n := length roots) in *. unfold ROOT_HISTORY_CAPACITY in *.
  assert (length (replace_last r roots) = n) as Hn'
    by (unfold replace_last; rewrite length_app, length_take; simpl; lia).
  assert (root_history_cursor t = Z.of_nat ((n - 1) mod 500)) as Hcur'.
  { rewrite Hcur, Nat2Z.inj_mod, Nat2Z.inj_sub by lia. done. }
  pose proof (Nat.mod_upper_bound (n - 1) 500 ltac:(lia)).
  unfold ring, ROOT_HISTORY_CAPACITY. split_and!; simpl; rewrite ?length_insert, ?Hn'; [done..|].
  intros j r' Hj Hge. rewrite Hcur', Nat2Z.id. unfold replace_last in Hj.
  apply lookup_snoc_Some in Hj as [[Hj Hr]|[-> <-]]; rewrite length_take in *.
  - fold n in Hj. apply lookup_take_Some in Hr as [Hr _].
    rewrite list_lookup_insert_ne; [apply Hat; [done|lia]|].
    intros Heq. apply (mod_neq j (n - 1) 500); lia.
  - fold n. replace ((n - 1) `min` n)%nat with (n - 1)%nat by lia.
    apply list_lookup_insert_eq. lia.
Qed.


Section theorems.
Context `{H : SolPoseidon} {HT : PoseidonTotal H} {HZ : ZeroBytesLaw Poseidon.Poseidon}.

Lemma repr_core HEIGHT t st : repr HEIGHT t st -> core HEIGHT t (spec_leaves st).
Proof. unfold repr, core. naive_solver. Qed.

Lemma frontier_nil subs : frontier subs [].
Proof. induction subs as [|s subs IH]; [done|]. split; [done|]. by exists []. Qed.

Lemma length_zip_assign dst src : length (zip_assign dst src) = length dst.
Proof. revert src. induction dst as [|d dst IH]; intros [|x src]; simpl; auto. Qed.

Lemma init_repr_lemma HEIGHT t :
  (HEIGHT <= MAX_HEIGHT)%nat -> length (subtrees t) = HEIGHT ->
  length (root_history t) = ROOT_HISTORY_CAPACITY ->
  exists t' empty_root, init HEIGHT (Z.of_nat HEIGHT) t = (Ok tt, t') /\
    merkle_root HEIGHT [] = Ok empty_root /\
    repr HEIGHT t' (mkUtxoSpec [] [empty_root] 0).
Proof.
  intros Hh Hs Hl. destruct (merkle_root_empty HEIGHT Hh) as (top & Ht & Hr).
  unfold init. rewrite Z.eqb_refl, Nat2Z.id, Ht. cbn [negb].
  rewrite (proj2 (Z.ltb_lt _ _)) by (unfold MAX_HEIGHT in Hh; lia).
  eexists _, top. split; [done|]. split; [done|].
  unfold repr, ring, capacity. cbn -[zip_assign Z.of_nat Nat.modulo].
  rewrite length_zip_assign, length_insert.
  split_and!; [done|done|nia|done|apply frontier_nil|done|done|done|simpl; lia|done|done| |done|done|done].
  intros [|j] r Hj Hge; simpl in Hj; [|done]. simplify_eq.
  apply list_lookup_insert_eq. rewrite Hl. unfold ROOT_HISTORY_CAPACITY. simpl. lia.
Qed.

(** Setting the other fields leaves the ring alone. *)
Lemma ring_set t t' roots :
  root_history_cursor t = root_history_cursor t' -> root_history_len t = root_history_len t' ->
  root_history t = root_history t' -> ring t roots -> ring t' roots.
Proof. unfold ring. intros -> -> ->. done. Qed.

Lemma last_replace_last r roots : last (replace_last r roots) = Some r.
Proof. apply last_snoc. Qed.

Lemma append_refines_lemma HEIGHT t st leaves slot :
  (0 < HEIGHT <= MAX_HEIGHT)%nat -> repr HEIGHT t st -> Forall canonical leaves ->
  match spec_append HEIGHT leaves slot st with
  | Ok st' => exists t', append_batch HEIGHT leaves slot t = (Ok tt, t') /\ repr HEIGHT t' st'
  | Err e => exists t', append_batch HEIGHT leaves slot t = (Err e, t')
  | Panic => False
  end.
Proof.
  intros Hh Hrep Hc. pose proof (repr_core _ _ _ Hrep) as Hcore.
  pose proof (core_next_index HEIGHT Hh _ _ Hcore) as Hni.
  unfold spec_append, append_batch. unfold mbindM, mget.
  destruct (decide (leaves = [])) as [->|Hne]; [by exists t|].
  assert ((next_index t =? 0) = bool_decide (spec_leaves st = [])) as Hfirst.
  { rewrite Hni. destruct (spec_leaves st); done. }
  rewrite Hfirst. destruct Hrep as (_ & _ & _ & _ & _ & _ & _ & Hring & Hslot & Hcap & Hsl).
  rewrite <- Hslot. set (first := bool_decide _) in *.
  assert (match leaves with [] => false | _ :: _ => true end = true) as -> by (by destruct leaves).
  cbn [andb]. destruct (negb first && (slot <? last_update_slot t)) eqn:Hbad; cbn [negb]; [by exists t|].
  destruct (capacity HEIGHT <? _) eqn:Hfull; breflect; [by eapply append_loop_full|].
  destruct (append_loop_ok HEIGHT Hh slot first leaves t (spec_leaves st)) as (r & subs' & Hr & Hfr & Hsubs & ->);
    [done..|]. rewrite Hr. cbn [map_err rbind]. eexists. split; [done|].
  set (t1 := set_root r (set_subtrees subs' t)).
  assert (ring t1 (spec_roots st)) as Hring1 by (by eapply ring_set; [..|exact Hring]).
  assert (Forall canonical (spec_leaves st ++ leaves)) by (apply Forall_app_2; [apply Hcore|done]).
  change (last_update_slot t) with (last_update_slot t1).
  assert (forall roots', ring (push_root r slot first t1) roots' -> last roots' = Some r ->
    last_update_slot (push_root r slot first t1) = slot ->
    repr HEIGHT (set_next_index (Z.of_nat (length (spec_leaves st ++ leaves))) (push_root r slot first t1))
      (mkUtxoSpec (spec_leaves st ++ leaves) roots' slot)) as Hgoal.
  { intros roots' Hrg Hlast Hls. unfold repr. split_and!; simpl; try done;
      try (unfold push_root; by case_match); try (by eapply ring_set; [..|exact Hrg]). }
  destruct (negb first && (slot =? last_update_slot t1)) eqn:Hsame.
  - destruct (push_root_same_slot t1 (spec_roots st) r slot first) as [? ?]; [done..|].
    apply Hgoal; [done|apply last_replace_last|done].
  - destruct (push_root_fresh t1 (spec_roots st) r slot first) as [? ?]; [done..|].
    apply Hgoal; [done|apply last_snoc|done].
Qed.

End theorems.

(** An all-zero account, as the allocator leaves it. *)
Definition blank_tree (HEIGHT : nat) : UtxoTreeLayout :=
  mkUtxoTree (replicate 8 x00) zero32 0 0 0 0 [x00] 0 (replicate HEIGHT zero32)
    (replicate ROOT_HISTORY_CAPACITY zero32).

(** A sequence of instructions, each a batch appended in its slot. *)
Fixpoint append_all `{SolPoseidon} (HEIGHT : nat) (ops : list (list bytes * Z))
    : M UtxoTreeLayout TreeError unit :=
  match ops with
  | [] => mret tt
  | (leaves, slot) :: ops' =>
      exec! append_batch HEIGHT leaves slot;
      append_all HEIGHT ops'
  end.

Fixpoint spec_append_all `{SolPoseidon} (HEIGHT : nat) (ops : list (list bytes * Z)) (st : UtxoSpec)
    : res TreeError UtxoSpec :=
  match ops with
  | [] => Ok st
  | (leaves, slot) :: ops' =>
      let? st := spec_append HEIGHT leaves slot st in spec_append_all HEIGHT ops' st
  end.

Lemma spec_append_leaves `{SolPoseidon} HEIGHT leaves slot st st' :
  spec_append HEIGHT leaves slot st = Ok st' -> spec_leaves st' = spec_leaves st ++ leaves.
Proof.
  unfold spec_append. case_decide as Hl; [intros; run_inv; by rewrite app_nil_r|].
  repeat case_match; intros; run_inv; done.
Qed.

Lemma spec_append_all_leaves `{SolPoseidon} HEIGHT ops st st' :
  spec_append_all HEIGHT ops st = Ok st' ->
  spec_leaves st' = spec_leaves st ++ concat (map fst ops).
Proof.
  revert st. induction ops as [|[leaves slot] ops IH]; intros st Hs; simpl in *; run_inv.
  - by rewrite app_nil_r.
  - rewrite (IH _ Hs). erewrite spec_append_leaves by done. by rewrite app_assoc.
Qed.

Lemma append_all_refines_lemma `{H : SolPoseidon} `{!PoseidonTotal H}
    `{!ZeroBytesLaw Poseidon.Poseidon} HEIGHT ops t st st' :
  (0 < HEIGHT <= MAX_HEIGHT)%nat -> repr HEIGHT t st -> Forall (fun op => Forall canonical op.1) ops ->
  spec_append_all HEIGHT ops st = Ok st' ->
  exists t', append_all HEIGHT ops t = (Ok tt, t') /\ repr HEIGHT t' st'.
Proof.
  intros Hh. revert t st. induction ops as [|[leaves slot] ops IH]; intros t st Hr Hc Hs.
  - simpl in Hs. run_inv. by exists t.
  - rewrite Forall_cons in Hc. destruct Hc as [Hc Hcs]. simpl in Hs. run_inv.
    pose proof (append_refines_lemma HEIGHT t st leaves slot Hh Hr Hc) as Href.
    match goal with E : spec_append _ _ _ _ = _ |- _ => rewrite E in Href end.
    destruct Href as (t1 & Ht1 & Hr1). destruct (IH t1 _ Hr1 Hcs Hs) as (t' & Ht' & ?).
    exists t'. split; [|done]. simpl. unfold mbindM. by rewrite Ht1.
Qed.

(** C15. [append_batch] refines the abstract append.  On a tree that represents
    the leaves [ls], a batch of canonical leaves either succeeds and the tree
    then represents [ls] followed by the batch (its root is the root of the
    perfect Merkle tree over all leaves, its ring holds the final root of every
    update slot), or fails with [InvalidUpdateSlot] exactly when the slot is
    older than the last update, or with [TreeIsFull] exactly when the leaves do
    not fit.  It never panics and never fails to hash. *)
Theorem utxo_append_batch_refines `{H : SolPoseidon} (Htotal : PoseidonTotal H)
    (Hzero : ZeroBytesLaw Poseidon.Poseidon) (HEIGHT : nat) (t : UtxoTreeLayout) (st : UtxoSpec)
    (leaves : list bytes) (slot : Z) :
  (0 < HEIGHT <= MAX_HEIGHT)%nat -> repr HEIGHT t st -> Forall canonical leaves ->
  match spec_append HEIGHT leaves slot st with
  | Ok st' => exists t', append_batch HEIGHT leaves slot t = (Ok tt, t') /\ repr HEIGHT t' st'
  | Err e => exists t', append_batch HEIGHT leaves slot t = (Err e, t')
  | Panic => False
  end.
Proof. apply append_refines_lemma. Qed.

Lemma utxo_append_batch_refines_witness :
  exists t st, @repr model_poseidon 3 t st /\
    match @spec_append model_poseidon 3 [replicate 32 x01; replicate 32 x02] 7 st with
    | Ok st' => exists t', @append_batch model_poseidon 3 [replicate 32 x01; replicate 32 x02] 7 t = (Ok tt, t')
                  /\ @repr model_poseidon 3 t' st'
    | Err e => exists t', @append_batch model_poseidon 3 [replicate 32 x01; replicate 32 x02] 7 t = (Err e, t')
    | Panic => False
    end.
Proof.
  pose proof model_zero_bytes_law as Hz.
  destruct (@init_repr_lemma model_poseidon Hz 3 (blank_tree 3)) as (t & r & _ & _ & Hr);
    [unfold MAX_HEIGHT; lia|reflexivity..|].
  exists t, (mkUtxoSpec [] [r] 0). split; [exact Hr|].
  apply (@utxo_append_batch_refines model_poseidon model_poseidon_total Hz 3 t (mkUtxoSpec [] [r] 0)
    [replicate 32 x01; replicate 32 x02] 7); [unfold MAX_HEIGHT; lia|exact Hr|].
  apply (bool_decide_eq_true_1 _). vm_compute. reflexivity.
Defined.

(** Any sequence of batches: from the initialised account, when the abstract
    tree accepts the whole sequence the code accepts it, and the stored root is
    the Merkle root of all appended leaves in order, however they were grouped
    into batches. *)
Theorem utxo_root_of_any_batching `{H : SolPoseidon} (Htotal : PoseidonTotal H)
    (Hzero : ZeroBytesLaw Poseidon.Poseidon) (HEIGHT : nat) (t0 t : UtxoTreeLayout)
    (empty_root : bytes) (ops : list (list bytes * Z)) (st : UtxoSpec) :
  (0 < HEIGHT <= MAX_HEIGHT)%nat -> length (subtrees t0) = HEIGHT ->
  length (root_history t0) = ROOT_HISTORY_CAPACITY ->
  init HEIGHT (Z.of_nat HEIGHT) t0 = (Ok tt, t) -> merkle_root HEIGHT [] = Ok empty_root ->
  Forall (fun op => Forall canonical op.1) ops ->
  spec_append_all HEIGHT ops (mkUtxoSpec [] [empty_root] 0) = Ok st ->
  exists t', append_all HEIGHT ops t = (Ok tt, t') /\
    merkle_root HEIGHT (concat (map fst ops)) = Ok (root t') /\
    next_index t' = Z.of_nat (length (concat (map fst ops))).
Proof.
  intros Hh Hs Hl Hi Hr Hc Hspec.
  destruct (init_repr_lemma HEIGHT t0) as (t1 & r & Hi1 & Hr1 & Hrep); [lia|done..|].
  rewrite Hi1 in Hi. injection Hi as <-. rewrite Hr1 in Hr. injection Hr as <-.
  destruct (append_all_refines_lemma HEIGHT ops t1 _ st Hh Hrep Hc Hspec) as (t' & Ht' & Hrep').
  exists t'. split; [done|]. apply spec_append_all_leaves in Hspec. simpl in Hspec.
  rewrite <- Hspec. split; [apply Hrep'|]. eapply core_next_index; [done|by apply repr_core].
Qed.

Lemma utxo_root_of_any_batching_witness :
  exists t', @append_all model_poseidon 3 [([replicate 32 x01], 5); ([replicate 32 x02; replicate 32 x03], 5)]
      (@init model_poseidon 3 3 (blank_tree 3)).2 = (Ok tt, t') /\
    @merkle_root (@Poseidon.Poseidon model_poseidon) 3
      [replicate 32 x01; replicate 32 x02; replicate 32 x03] = Ok (root t') /\ next_index t' = 3.
Proof.
  eapply (@utxo_root_of_any_batching model_poseidon model_poseidon_total model_zero_bytes_law 3 (blank_tree 3));
    [unfold MAX_HEIGHT; lia|reflexivity|reflexivity|vm_compute; reflexivity|vm_compute; reflexivity| |vm_compute; reflexivity].
  apply (bool_decide_eq_true_1 _). vm_compute. reflexivity.
Defined.

Lemma all_zero_bytes r : forallb (fun byte => byte_val byte =? 0) r = true <-> r = replicate (length r) x00.
Proof.
  induction r as [|b r IH]; simpl; [done|]. rewrite andb_true_iff, IH, Z.eqb_eq. split.
  - intros [Hb Hr]. f_equal; [|done]. by apply byte_val_inj.
  - intros [= -> Hr]. done.
Qed.

(** Which roots a proof may be checked against: [root_by_index] returns a
    root exactly when it is one of the last 500 slot-final roots, stored at its
    number modulo 500, and is not the all-zero array. *)
Theorem utxo_root_by_index_spec `{H : SolPoseidon} (HEIGHT : nat) (t : UtxoTreeLayout)
    (st : UtxoSpec) (index : Z) (r : bytes) :
  repr HEIGHT t st -> 0 <= index ->
  root_by_index t index = Ok r <->
  exists j, spec_roots st !! j = Some r /\ (length (spec_roots st) <= j + ROOT_HISTORY_CAPACITY)%nat /\
    index = Z.of_nat (j mod ROOT_HISTORY_CAPACITY) /\ r <> replicate (length r) x00.
Proof.
  intros Hrep Hidx. destruct Hrep as (_ & _ & _ & _ & _ & _ & _ & (Hlen & Hpos & Hcur & Hl & Hat) & _).
  unfold root_by_index. rewrite Hlen, Hl. set (n := length (spec_roots st)) in *.
  unfold ROOT_HISTORY_CAPACITY in *. split.
  - intros Hr. repeat case_match; run_inv; breflect; try done; try lia.
    match goal with E : root_history t !! _ = Some _ |- _ => rename E into Hlk end.
    assert (Z.to_nat index < 500 /\ (n < 500 -> Z.to_nat index < n))%nat as [Hi Hin] by lia.
    set (i := Z.to_nat index) in *.
    set (j := if decide (n <= 500)%nat then i else
                let k := (n - 500)%nat in (k + (500 + i - k mod 500) mod 500)%nat).
    assert (j < n /\ n <= j + 500 /\ j mod 500 = i)%nat as (Hj & Hj5 & Hjm).
    { unfold j. clearbody i n. case_decide; [rewrite Nat.mod_small by lia; destruct (decide (n < 500)%nat); lia|].
      set (k := (n - 500)%nat). pose proof (Nat.mod_upper_bound (500 + i - k mod 500) 500 ltac:(lia)).
      pose proof (Nat.mod_upper_bound k 500 ltac:(lia)).
      split_and!; [lia..|]. rewrite Nat.Div0.add_mod_idemp_r.
      pose proof (Nat.div_mod_eq k 500).
      replace (k + (500 + i - k mod 500))%nat with (i + (k / 500 + 1) * 500)%nat by lia.
      rewrite Nat.Div0.mod_add. apply Nat.mod_small. lia. }
    destruct (lookup_lt_is_Some_2 (spec_roots st) j Hj) as [r' Hr'].
    exists j. pose proof (Hat j r' Hr' Hj5) as Hat'. rewrite Hjm, Hlk in Hat'. simplify_eq.
    rewrite <- all_zero_bytes. destruct (forallb _ r') eqn:Hz; [done|].
    simpl in Hr. injection Hr as <-. split_and!; [done|lia|lia|by rewrite Hz].
  - intros (j & Hj & Hj5 & -> & Hnz). pose proof (lookup_lt_Some _ _ _ Hj). fold n in H0.
    pose proof (Nat.mod_upper_bound j 500 ltac:(lia)).
    assert (n < 500 -> j mod 500 = j)%nat by (intros; apply Nat.mod_small; lia).
    rewrite Nat2Z.id, (Hat j r Hj Hj5). simpl.
    rewrite <- all_zero_bytes in Hnz. apply not_true_is_false in Hnz. rewrite Hnz. simpl.
    repeat case_match; breflect; naive_solver lia.
Qed.

Lemma utxo_root_by_index_spec_witness :
  exists t st r, @repr model_poseidon 3 t st /\ root_by_index t 0 = Ok r.
Proof.
  destruct (@init_repr_lemma model_poseidon model_zero_bytes_law 3 (blank_tree 3))
    as (t & r & _ & Hr & Hrep); [unfold MAX_HEIGHT; lia|reflexivity..|].
  exists t, (mkUtxoSpec [] [r] 0), r. split; [exact Hrep|].
  apply (@utxo_root_by_index_spec model_poseidon 3 t _ 0 r Hrep); [lia|].
  exists 0%nat. split_and!; [done|unfold ROOT_HISTORY_CAPACITY; simpl; lia|done|].
  vm_compute in Hr. injection Hr as <-. vm_compute. congruence.
Defined.
