(* ===== verification/Errors.v ===== *)
(** * Errors of the interface

    src/program-libs/interface/src/error.rs: the interface's own errors, the
    program's on-chain errors with their codes, and the conversions between
    them. *)

From S2P Require Import Prelude Smt.

Inductive InterfaceError : Set :=
| IfInvalidDiscriminator
| IfUnauthorized
| IfInvalidAccountData
| IfInvalidProtocolConfigData
| IfAlreadyInitialized.

Inductive ShieldedPoolError : Set :=
| InvalidInstructionData
| InvalidTreeAccounts
| NullifierTreeUpdateFailed
| UnauthorizedCaller
| StateAppendFailed
| ExpiredTransaction
| InvalidTransactShape
| InvalidTransactProofEncoding
| TransactProofVerificationFailed
| InvalidSettlementAccounts
| PublicSettlementFailed
| InvalidSplAssetRegistry
| InvalidProtocolConfig
| TreePaused
| InvalidRingConfig
| StaleNullifierRoot
| InvalidPda
| MergeEncryptionSchemeMismatch
| InvalidUserRecord
| InvalidMergeShape
| RingAuthorityTransactDisabled
| OwnerTagAccountMissing
| InvalidForesterFee
| InsufficientForesterFeeBalance
| InvalidSystemProgram
| EmptyDepositBatch
| InvalidDepositAssetIndex
| DuplicateDepositAsset
| DepositAmountOverflow
| UnreferencedDepositAsset
| TooManyDepositAssets
| TooManyInterfaceTransfers
| ZeroInterfaceTransferAmount
| TooManyPublicAssets
| PublicAssetAmountOverflow
| MismatchedCircuitType
| SplTokenAuthorityMustSign
| UnsupportedSplTokenProgram
| InvalidSplTokenMint
| UnsupportedToken2022Extension
| ZeroNetInterfaceTransferAmount
| SplAssetCounterAlreadyInitialized
| RingPaused
| NullifierAlreadyQueued
| InsufficientNullifierPdaRent
| NullifierPdaNotClosable
| InvalidNullifierPda
| InvalidTreeId
| NullifierPdaTreeMismatch
| TreeIdOverflow
| InvalidReimbursementRecipient
| NonCanonicalOutputUtxoHash
| NonCanonicalInputNullifier
| NonCanonicalPrivateTxHash
| NonCanonicalRingDataHash
| NonCanonicalDepositField
| NonCanonicalRoot
| NoClaimableTreeLamports
| DepositBlindingDerivationFailed
| RingNotActivated
| TooManyExternalDataHashSlices
| InvalidTreeContextCount
| InputTreeIndexOutOfRange
| UnreferencedTreeContext
| DuplicateInputTree
| InvalidCache
| CacheConfigMismatch
| CacheSlotEmpty
| InvalidCacheSlot
| InvalidCacheBitmap
| CacheTreeMismatch
| CacheExpired
| CacheNotExpired
| CacheExpiryNotInFuture
| CacheWriteAuthorityMismatch
| CacheRentRecipientMismatch
| ZeroInputNullifier
| ZeroOutputUtxoHash
| TreeFeeTooHigh
| TreeCreationMismatch
| NonCanonicalMergeCiphertext
| CircuitFeatureDisabled.

(** [error as u32], the code of [ProgramError::Custom]. *)
Definition error_code (e : ShieldedPoolError) : Z :=
  match e with
  | InvalidInstructionData => 7000
  | InvalidTreeAccounts => 7001
  | NullifierTreeUpdateFailed => 7002
  | UnauthorizedCaller => 7003
  | StateAppendFailed => 7004
  | ExpiredTransaction => 7005
  | InvalidTransactShape => 7006
  | InvalidTransactProofEncoding => 7007
  | TransactProofVerificationFailed => 7008
  | InvalidSettlementAccounts => 7009
  | PublicSettlementFailed => 7010
  | InvalidSplAssetRegistry => 7011
  | InvalidProtocolConfig => 7012
  | TreePaused => 7013
  | InvalidRingConfig => 7014
  | StaleNullifierRoot => 7015
  | InvalidPda => 7016
  | MergeEncryptionSchemeMismatch => 7017
  | InvalidUserRecord => 7018
  | InvalidMergeShape => 7019
  | RingAuthorityTransactDisabled => 7020
  | OwnerTagAccountMissing => 7021
  | InvalidForesterFee => 7022
  | InsufficientForesterFeeBalance => 7023
  | InvalidSystemProgram => 7024
  | EmptyDepositBatch => 7025
  | InvalidDepositAssetIndex => 7026
  | DuplicateDepositAsset => 7027
  | DepositAmountOverflow => 7028
  | UnreferencedDepositAsset => 7029
  | TooManyDepositAssets => 7030
  | TooManyInterfaceTransfers => 7031
  | ZeroInterfaceTransferAmount => 7032
  | TooManyPublicAssets => 7033
  | PublicAssetAmountOverflow => 7034
  | MismatchedCircuitType => 7035
  | SplTokenAuthorityMustSign => 7036
  | UnsupportedSplTokenProgram => 7037
  | InvalidSplTokenMint => 7038
  | UnsupportedToken2022Extension => 7039
  | ZeroNetInterfaceTransferAmount => 7040
  | SplAssetCounterAlreadyInitialized => 7041
  | RingPaused => 7042
  | NullifierAlreadyQueued => 7043
  | InsufficientNullifierPdaRent => 7044
  | NullifierPdaNotClosable => 7045
  | InvalidNullifierPda => 7046
  | InvalidTreeId => 7047
  | NullifierPdaTreeMismatch => 7048
  | TreeIdOverflow => 7049
  | InvalidReimbursementRecipient => 7050
  | NonCanonicalOutputUtxoHash => 7051
  | NonCanonicalInputNullifier => 7052
  | NonCanonicalPrivateTxHash => 7053
  | NonCanonicalRingDataHash => 7054
  | NonCanonicalDepositField => 7055
  | NonCanonicalRoot => 7056
  | NoClaimableTreeLamports => 7057
  | DepositBlindingDerivationFailed => 7058
  | RingNotActivated => 7059
  | TooManyExternalDataHashSlices => 7060
  | InvalidTreeContextCount => 7061
  | InputTreeIndexOutOfRange => 7062
  | UnreferencedTreeContext => 7064
  | DuplicateInputTree => 7065
  | InvalidCache => 7066
  | CacheConfigMismatch => 7067
  | CacheSlotEmpty => 7068
  | InvalidCacheSlot => 7069
  | InvalidCacheBitmap => 7070
  | CacheTreeMismatch => 7071
  | CacheExpired => 7073
  | CacheNotExpired => 7074
  | CacheExpiryNotInFuture => 7075
  | CacheWriteAuthorityMismatch => 7076
  | CacheRentRecipientMismatch => 7077
  | ZeroInputNullifier => 7078
  | ZeroOutputUtxoHash => 7079
  | TreeFeeTooHigh => 7080
  | TreeCreationMismatch => 7081
  | NonCanonicalMergeCiphertext => 7082
  | CircuitFeatureDisabled => 7083
  end.

Definition of_interface_error (e : InterfaceError) : ShieldedPoolError :=
  match e with
  | IfInvalidDiscriminator => InvalidProtocolConfig
  | IfUnauthorized => UnauthorizedCaller
  | IfInvalidAccountData => InvalidSplAssetRegistry
  | IfInvalidProtocolConfigData => InvalidProtocolConfig
  | IfAlreadyInitialized => SplAssetCounterAlreadyInitialized
  end.

Definition of_tree_error (e : TreeError) : ShieldedPoolError :=
  match e with
  | Paused => TreePaused
  | TreeIsFull => StateAppendFailed
  | FeeOverflow => InvalidForesterFee
  | FeeTooHigh => TreeFeeTooHigh
  | _ => InvalidTreeAccounts
  end.
