(* ===== verification/Batch.v ===== *)
(** * Queue batches

    src/program-libs/tree/src/nullifier_tree/batch.rs and error.rs: one of the
    two batches of the nullifier queue, with its state machine, its streaming
    hash chains and its cached tree updates.  The ghost state of a batch is the
    list of values inserted since its last reset; the invariant ties every
    stored chain to [create_hash_chain_4] over its slice of that list. *)

From S2P Require Import Prelude ZeroBytes Hasher HashChain.

Inductive NullifierTreeError : Set :=
| BatchNotReady
| BatchAlreadyInserted
| BatchSizeNotDivisibleByZkpBatchSize
| InvalidBatchIndex
| InvalidIndex
| InvalidBatchState
| InvalidBatchConfiguration
| NullifierTreeIsFull
| NonCanonicalFieldElement
| ArithmeticOverflow
| ZkpBatchIndexOutOfRange
| HashChainNotReady
| HashChainFull
| InvalidHeight
| InvalidRootHistoryCapacity
| InvalidAccountSize
| DecompressG1Failed
| CreateGroth16VerifierFailed
| ProofVerificationFailed
| InvalidBatchSize
| HasherErr (e : HasherError).

#[global] Instance NullifierTreeError_eq_dec : EqDecision NullifierTreeError.
Proof. solve_decision. Defined.

Definition NUM_BATCHES : Z := 2.

Inductive BatchState : Set := Fill | Inserted | Full.

#[global] Instance BatchState_eq_dec : EqDecision BatchState.
Proof. solve_decision. Defined.

Definition u64_of_batch_state (val : BatchState) : Z :=
  match val with Fill => 0 | Inserted => 1 | Full => 2 end.

(** [From<u64>], which panics on an invalid word. *)
Definition batch_state_of_u64 (value : Z) : res NullifierTreeError BatchState :=
  match value with
  | 0 => Ok Fill
  | 1 => Ok Inserted
  | 2 => Ok Full
  | _ => Panic
  end.

Record CachedTreeUpdate : Type := mkCachedUpdate {
  old_root : bytes;
  new_root : bytes;
  occupied : Z;
}.

#[global] Instance CachedTreeUpdate_eq_dec : EqDecision CachedTreeUpdate.
Proof. solve_decision. Defined.

Definition cached_default : CachedTreeUpdate := mkCachedUpdate zero32 zero32 0.

Definition is_occupied (u : CachedTreeUpdate) : bool := negb (occupied u =? 0).

(** [ZKP_BATCHES] is the length of [hash_chains] and [cached_tree_updates]. *)
Record Batch : Type := mkBatch {
  num_inserted : Z;
  state : Z;
  num_full_zkp_batches : Z;
  num_inserted_zkp_batches : Z;
  batch_size : Z;
  zkp_batch_size : Z;
  start_index : Z;
  pending_values : bytes * bytes;
  hash_chains : list bytes;
  cached_tree_updates : list CachedTreeUpdate;
}.

(** Field assignments. *)
Definition set_num_inserted (v : Z) (b : Batch) : Batch :=
  mkBatch v (state b) (num_full_zkp_batches b) (num_inserted_zkp_batches b) (batch_size b)
    (zkp_batch_size b) (start_index b) (pending_values b) (hash_chains b) (cached_tree_updates b).

Definition set_state (v : Z) (b : Batch) : Batch :=
  mkBatch (num_inserted b) v (num_full_zkp_batches b) (num_inserted_zkp_batches b) (batch_size b)
    (zkp_batch_size b) (start_index b) (pending_values b) (hash_chains b) (cached_tree_updates b).

Definition set_num_full (v : Z) (b : Batch) : Batch :=
  mkBatch (num_inserted b) (state b) v (num_inserted_zkp_batches b) (batch_size b)
    (zkp_batch_size b) (start_index b) (pending_values b) (hash_chains b) (cached_tree_updates b).

Definition set_num_inserted_zkp (v : Z) (b : Batch) : Batch :=
  mkBatch (num_inserted b) (state b) (num_full_zkp_batches b) v (batch_size b)
    (zkp_batch_size b) (start_index b) (pending_values b) (hash_chains b) (cached_tree_updates b).

Definition set_pending (v : bytes * bytes) (b : Batch) : Batch :=
  mkBatch (num_inserted b) (state b) (num_full_zkp_batches b) (num_inserted_zkp_batches b)
    (batch_size b) (zkp_batch_size b) (start_index b) v (hash_chains b) (cached_tree_updates b).

Definition set_hash_chains (v : list bytes) (b : Batch) : Batch :=
  mkBatch (num_inserted b) (state b) (num_full_zkp_batches b) (num_inserted_zkp_batches b)
    (batch_size b) (zkp_batch_size b) (start_index b) (pending_values b) v (cached_tree_updates b).

Definition set_cached (v : list CachedTreeUpdate) (b : Batch) : Batch :=
  mkBatch (num_inserted b) (state b) (num_full_zkp_batches b) (num_inserted_zkp_batches b)
    (batch_size b) (zkp_batch_size b) (start_index b) (pending_values b) (hash_chains b) v.

(** ** Operations *)

Definition reset (batch_size zkp_batch_size start_index : Z) (b : Batch) : Batch :=
  mkBatch 0 (u64_of_batch_state Fill) 0 0 batch_size zkp_batch_size start_index
    (pending_values b) (hash_chains b) (cached_tree_updates b).

Definition batch_init (batch_size zkp_batch_size start_index : Z) (b : Batch) : Batch :=
  reset batch_size zkp_batch_size start_index b.

Definition hash_chain (b : Batch) (zkp_batch_index : nat) : option bytes :=
  hash_chains b !! zkp_batch_index.

Definition cached_tree_update (b : Batch) (zkp_batch_index : nat) : option CachedTreeUpdate :=
  match cached_tree_updates b !! zkp_batch_index with
  | Some u => if is_occupied u then Some u else None
  | None => None
  end.

Definition cache_tree_update (zkp_batch_index : nat) (update : CachedTreeUpdate)
    : M Batch NullifierTreeError unit := fun b =>
  match cached_tree_updates b !! zkp_batch_index with
  | None => (Err ZkpBatchIndexOutOfRange, b)
  | Some _ => (Ok tt, set_cached (<[zkp_batch_index := update]> (cached_tree_updates b)) b)
  end.

Definition evict_cached_tree_update (zkp_batch_index : nat) : M Batch NullifierTreeError unit :=
  cache_tree_update zkp_batch_index cached_default.

Definition clear_cached_tree_update (zkp_batch_index : nat) : M Batch NullifierTreeError unit :=
  exec! evict_cached_tree_update zkp_batch_index;
  fun b =>
    match hash_chains b !! zkp_batch_index with
    | None => (Err ZkpBatchIndexOutOfRange, b)
    | Some _ => (Ok tt, set_hash_chains (<[zkp_batch_index := zero32]> (hash_chains b)) b)
    end.

Definition get_state (b : Batch) : res NullifierTreeError BatchState := batch_state_of_u64 (state b).

Definition try_get_state (b : Batch) : option BatchState :=
  match state b with
  | 0 => Some Fill
  | 1 => Some Inserted
  | 2 => Some Full
  | _ => None
  end.

Definition checked_state (b : Batch) : res NullifierTreeError BatchState :=
  ok_or (try_get_state b) InvalidBatchState.

Definition end_index (b : Batch) : res NullifierTreeError Z :=
  ok_or (checked_add 64 (start_index b) (batch_size b)) ArithmeticOverflow.

Definition is_reclaimable (b : Batch) (close_before_index : Z) : bool :=
  match end_index b with
  | Ok end_index => end_index <=? close_before_index
  | _ => false
  end.

Definition advance_state_to_fill (start_index : Z) : M Batch NullifierTreeError unit :=
  do! b <- mget;
  do! s <- mlift (checked_state b);
  require bool_decide (s = Inserted) else BatchNotReady;
  mmodify (reset (batch_size b) (zkp_batch_size b) start_index).

Definition ensure_ready_to_fill (batch_size : Z) : M Batch NullifierTreeError unit :=
  do! b <- mget;
  do! s <- mlift (checked_state b);
  match s with
  | Fill => mret tt
  | Inserted =>
      do! span <- mlift (umul 64 batch_size NUM_BATCHES);
      do! start_index <- mlift (ok_or (checked_add 64 (start_index b) span) ArithmeticOverflow);
      advance_state_to_fill start_index
  | Full => mthrow BatchNotReady
  end.

Definition advance_state_to_inserted : M Batch NullifierTreeError unit :=
  do! b <- mget;
  do! s <- mlift (checked_state b);
  require bool_decide (s = Full) else BatchNotReady;
  mmodify (set_state (u64_of_batch_state Inserted)).

Definition advance_state_to_full : M Batch NullifierTreeError unit :=
  do! b <- mget;
  do! s <- mlift (checked_state b);
  require bool_decide (s = Fill) else BatchNotReady;
  mmodify (set_state (u64_of_batch_state Full)).

Definition batch_is_ready_to_insert (b : Batch) : bool :=
  num_inserted_zkp_batches b <? num_full_zkp_batches b.

Definition get_first_ready_zkp_batch (b : Batch) : res NullifierTreeError Z :=
  let? s := checked_state b in
  if bool_decide (s = Inserted) then Err BatchAlreadyInserted
  else if batch_is_ready_to_insert b then Ok (num_inserted_zkp_batches b)
  else Err BatchNotReady.

Definition get_num_ready_zkp_updates (b : Batch) : Z :=
  saturating_sub (num_full_zkp_batches b) (num_inserted_zkp_batches b).

Definition get_num_inserted_elements (b : Batch) : res NullifierTreeError Z :=
  let? full := umul 64 (num_full_zkp_batches b) (zkp_batch_size b) in
  uadd 64 full (num_inserted b).

(** Division by zero panics. *)
Definition udiv {E} (a b : Z) : res E Z := if b =? 0 then Panic else Ok (a / b).

Definition get_num_zkp_batches (b : Batch) : res NullifierTreeError Z :=
  udiv (batch_size b) (zkp_batch_size b).

Definition num_pending (b : Batch) : Z := saturating_sub (num_inserted b) 1 mod 3.

Section with_hash.
Context `{SolPoseidon}.

(** Steps 2 and 3 of [add_to_hash_chain]: start the chain, absorb the pending
    group with the value, or let the value join the group. *)
Definition extend_chain (b : Batch) (value hash_chain : bytes) (zkp_batch_is_full : bool)
    : M Batch NullifierTreeError unit :=
  let hash_chain_index := Z.to_nat (num_full_zkp_batches b) in
  let set_chain h := set_hash_chains (<[hash_chain_index := h]> (hash_chains b)) in
  let '(first, second) := pending_values b in
  if num_inserted b =? 0 then mmodify (set_chain value)
  else if (num_pending b =? 2) || zkp_batch_is_full then
    let inputs :=
      match num_pending b with
      | 0 => [hash_chain; value; zero32; zero32]
      | 1 => [hash_chain; first; value; zero32]
      | _ => [hash_chain; first; second; value]
      end in
    do! h <- mlift (map_err HasherErr (Poseidon.hashv inputs));
    mmodify (set_chain h)
  else
    mmodify (set_pending (if num_pending b =? 0 then (value, second) else (first, value))).

Definition add_to_hash_chain (value : bytes) : M Batch NullifierTreeError unit :=
  do! b <- mget;
  do! s <- mlift (checked_state b);
  require bool_decide (s = Fill) else BatchNotReady;
  let hash_chain_index := Z.to_nat (num_full_zkp_batches b) in
  do! num_inserted' <- mlift (uadd 64 (num_inserted b) 1);
  let zkp_batch_is_full := num_inserted' =? zkp_batch_size b in
  do! hash_chain <- mlift (ok_or (hash_chains b !! hash_chain_index) HashChainFull);
  exec! extend_chain b value hash_chain zkp_batch_is_full;
  exec! mmodify (set_num_inserted num_inserted');
  if zkp_batch_is_full then
    do! full <- mlift (uadd 64 (num_full_zkp_batches b) 1);
    exec! mmodify (set_num_full full);
    exec! mmodify (set_num_inserted 0);
    do! b <- mget;
    do! num_zkp_batches <- mlift (get_num_zkp_batches b);
    if num_full_zkp_batches b =? num_zkp_batches then advance_state_to_full else mret tt
  else mret tt.

End with_hash.

Definition mark_as_inserted_in_merkle_tree : M Batch NullifierTreeError BatchState :=
  do! b <- mget;
  exec! mlift (get_first_ready_zkp_batch b);
  do! num_zkp_batches <- mlift (get_num_zkp_batches b);
  do! n <- mlift (uadd 64 (num_inserted_zkp_batches b) 1);
  exec! mmodify (set_num_inserted_zkp n);
  exec! (if n =? num_zkp_batches then advance_state_to_inserted else mret tt);
  do! b <- mget;
  mlift (checked_state b).

(** ** Streaming chains *)

(** The values of ZKP batch [i] among [vs]. *)
Definition zkp_slice (ZB : nat) (i : nat) (vs : list bytes) : list bytes := take ZB (drop (i * ZB) vs).

(** [pending] buffers the last one or two values. *)
Definition pending_is (pending : bytes * bytes) (l : list bytes) : Prop :=
  match l with
  | [] => True
  | [x] => pending.1 = x
  | [x; y] => pending = (x, y)
  | _ => False
  end.

Section chains.
Context `{H : SolPoseidon} {HT : PoseidonTotal H}.

(** The chain of the open ZKP batch holding [values]: all but the pending values
    are absorbed, in groups of three. *)
Definition open_chain (hash_chain : option bytes) (pending : bytes * bytes) (values : list bytes) : Prop :=
  match values with
  | [] => True
  | first :: rest =>
      exists h absorbed k pend, rest = absorbed ++ pend /\ length absorbed = (3 * k)%nat /\
        hash_chain_4_loop first absorbed = Ok h /\ hash_chain = Some h /\ canonical h /\
        pending_is pending pend
  end.

Lemma hash_chain_4_loop_app h l1 l2 k : length l1 = (3 * k)%nat ->
  hash_chain_4_loop h (l1 ++ l2)
  = let? h' := hash_chain_4_loop h l1 in hash_chain_4_loop h' l2.
Proof.
  revert h l1. induction k as [|k IH]; intros h l1 Hl.
  - destruct l1; [done|simpl in Hl; lia].
  - destruct l1 as [|a [|b [|c l1]]]; simpl in Hl; try lia. simpl.
    destruct (Poseidon.hashv _); simpl; [|done..]. apply IH. lia.
Qed.

Lemma pending_length pv l : pending_is pv l -> (length l <= 2)%nat.
Proof. destruct l as [|x [|y [|z l]]]; simpl; intros; lia || done. Qed.

Lemma set_pending_id b hc : set_hash_chains hc b = set_pending (pending_values b) (set_hash_chains hc b).
Proof. done. Qed.

Lemma set_hash_chains_id b i h : hash_chains b !! i = Some h ->
  b = set_hash_chains (<[i := h]> (hash_chains b)) b.
Proof. intros Hi. rewrite list_insert_id by done. by destruct b. Qed.

Lemma num_pending_spec b n : num_inserted b = Z.of_nat (S n) -> num_pending b = Z.of_nat (n mod 3).
Proof.
  intros Hn. unfold num_pending, saturating_sub. rewrite Hn, Nat2Z.inj_mod. f_equal. lia.
Qed.

Lemma hashv4_total a b c d : canonical a -> canonical b -> canonical c -> canonical d ->
  exists h, Poseidon.hashv [a; b; c; d] = Ok h /\ canonical h.
Proof. intros. apply poseidon_hashv_total; [simpl; lia|]. auto. Qed.

Lemma canonical_zero : canonical zero32.
Proof. split; reflexivity. Qed.

(** Steps 2 and 3 keep the open chain right, and complete it when the ZKP batch
    is full. *)
Lemma extend_chain_spec b vs v full h0 (i := Z.to_nat (num_full_zkp_batches b)) :
  open_chain (hash_chains b !! i) (pending_values b) vs ->
  Forall canonical vs -> canonical v -> num_inserted b = Z.of_nat (length vs) ->
  hash_chains b !! i = Some h0 ->
  exists chain pv,
    extend_chain b v h0 full b
      = (Ok tt, set_pending pv (set_hash_chains (<[i := chain]> (hash_chains b)) b)) /\
    canonical chain /\
    (if full then create_hash_chain_4 (vs ++ [v]) = Ok chain
     else open_chain (Some chain) pv (vs ++ [v])).
Proof.
  intros Ho Hc Hv Hn Hi. rewrite Hi in Ho. unfold extend_chain. fold i.
  destruct (pending_values b) as [p1 p2] eqn:Hpv. destruct vs as [|first rest].
  - rewrite Hn. simpl. exists v, (p1, p2). unfold mmodify. rewrite <- Hpv.
    split; [done|]. split; [done|]. destruct full; [done|].
    exists v, [], 0%nat, []. done.
  - destruct Ho as (h & absorbed & k & pend & -> & Hk & Hloop & [= ->] & Hch & Hp).
    rewrite Hn. rewrite (num_pending_spec b (length (absorbed ++ pend))) by done.
    rewrite Forall_cons, Forall_app in Hc. destruct Hc as (_ & _ & Hcp).
    assert (length (absorbed ++ pend) mod 3 = length pend)%nat as ->.
    { apply pending_length in Hp. rewrite length_app, Hk, Nat.add_comm, Nat.mul_comm, Nat.Div0.mod_add.
      apply Nat.mod_small. lia. }
    assert (forall l, hash_chain_4_loop first (absorbed ++ l) = hash_chain_4_loop h l) as Happ
      by (intros l; rewrite (hash_chain_4_loop_app _ _ _ k), Hloop by done; done).
    cbn [app create_hash_chain_4]. rewrite <- app_assoc, Happ.
    pose proof canonical_zero as Hz.
    assert (forall a b c, canonical a -> canonical b -> canonical c ->
      exists h', Poseidon.hashv [h; a; b; c] = Ok h' /\ canonical h') as Hhash
      by (intros; by apply hashv4_total).
    unfold mbindM, mlift, mmodify.
    destruct pend as [|x [|y [|? ?]]]; simpl in Hp; [| | |done];
      simplify_eq; rewrite ?Forall_cons in Hcp; simpl.
    + destruct full.
      * destruct (Hhash v zero32 zero32) as (h' & Hh & ?); [done..|]. rewrite Hh.
        exists h', (p1, p2). by rewrite <- Hpv.
      * exists h, (v, p2). rewrite <- (set_hash_chains_id b i h) by done.
        split_and!; [done..|]. exists h, absorbed, k, [v]. done.
    + destruct full.
      * destruct (Hhash x v zero32) as (h' & Hh & ?); [naive_solver..|]. rewrite Hh.
        exists h', (x, p2). by rewrite <- Hpv.
      * exists h, (x, v). rewrite <- (set_hash_chains_id b i h) by done.
        split_and!; [done..|]. exists h, absorbed, k, [x; v]. done.
    + destruct (Hhash x y v) as (h' & Hh & ?); [naive_solver..|]. rewrite Hh.
      exists h', (x, y). rewrite <- Hpv. split_and!; [done..|]. destruct full; [done|].
      exists h', (absorbed ++ [x; y; v]), (S k), []. rewrite app_nil_r, length_app, Happ, Hk.
      split_and!; [done|simpl; lia|simpl; by rewrite Hh|done..].
Qed.

(** ** The invariant of a batch

    A batch of [K] ZKP batches of [ZB] values, that has received [vs] since its
    last reset, [m] ZKP batches of which are applied to the tree. *)
Record batch_inv (K ZB : nat) (b : Batch) (vs : list bytes) (m : nat) : Prop := {
  bi_batch_size : batch_size b = Z.of_nat (K * ZB);
  bi_zkp_batch_size : zkp_batch_size b = Z.of_nat ZB;
  bi_chains : length (hash_chains b) = K;
  bi_cached : length (cached_tree_updates b) = K;
  bi_canonical : Forall canonical vs;
  bi_length : (length vs <= K * ZB)%nat;
  bi_full : num_full_zkp_batches b = Z.of_nat (length vs / ZB);
  bi_inserted : num_inserted b = Z.of_nat (length vs mod ZB);
  bi_applied : num_inserted_zkp_batches b = Z.of_nat m;
  bi_applied_le : (m <= length vs / ZB)%nat;
  bi_state : state b = u64_of_batch_state
    (if decide (length vs < K * ZB)%nat then Fill else if decide (m < K)%nat then Full else Inserted);
  bi_complete : forall i, (m <= i < length vs / ZB)%nat ->
    exists c, hash_chains b !! i = Some c /\ canonical c /\
      create_hash_chain_4 (zkp_slice ZB i vs) = Ok c;
  bi_open : open_chain (hash_chains b !! (length vs / ZB)%nat) (pending_values b)
    (drop (length vs / ZB * ZB) vs);
}.

Lemma zkp_slice_app ZB i vs ws : ((i + 1) * ZB <= length vs)%nat ->
  zkp_slice ZB i (vs ++ ws) = zkp_slice ZB i vs.
Proof.
  intros Hi. unfold zkp_slice. rewrite drop_app_le by lia.
  rewrite take_app_le; [done|]. rewrite length_drop. lia.
Qed.

Lemma div_mod_succ n ZB : (0 < ZB)%nat ->
  if decide (n mod ZB + 1 = ZB)%nat
  then ((n + 1) / ZB = S (n / ZB) /\ (n + 1) mod ZB = 0)%nat
  else ((n + 1) / ZB = n / ZB /\ (n + 1) mod ZB = n mod ZB + 1)%nat.
Proof.
  intros Hz. pose proof (Nat.div_mod_eq n ZB). pose proof (Nat.mod_upper_bound n ZB).
  case_decide; split.
  - symmetry. apply Nat.div_unique with 0%nat; nia.
  - symmetry. apply Nat.mod_unique with (S (n / ZB)); nia.
  - symmetry. apply Nat.div_unique with (n mod ZB + 1)%nat; nia.
  - symmetry. apply Nat.mod_unique with (n / ZB)%nat; nia.
Qed.

Lemma checked_state_of b s : state b = u64_of_batch_state s -> checked_state b = Ok s.
Proof. unfold checked_state, try_get_state. intros ->. by destruct s. Qed.

(** The invariant after the open chain was extended by [v]. *)
Lemma batch_inv_extend K ZB b b' vs m v chain :
  (0 < ZB)%nat -> batch_inv K ZB b vs m -> canonical v -> canonical chain ->
  (length vs < K * ZB)%nat ->
  hash_chains b' = <[(length vs / ZB)%nat := chain]> (hash_chains b) ->
  batch_size b' = batch_size b -> zkp_batch_size b' = zkp_batch_size b ->
  cached_tree_updates b' = cached_tree_updates b ->
  num_inserted_zkp_batches b' = num_inserted_zkp_batches b ->
  num_full_zkp_batches b' = Z.of_nat ((length vs + 1) / ZB) ->
  num_inserted b' = Z.of_nat ((length vs + 1) mod ZB) ->
  state b' = u64_of_batch_state (if decide (length vs + 1 < K * ZB)%nat then Fill else Full) ->
  (if decide (length vs mod ZB + 1 = ZB)%nat
   then create_hash_chain_4 (drop (length vs / ZB * ZB) vs ++ [v]) = Ok chain
   else open_chain (Some chain) (pending_values b') (drop (length vs / ZB * ZB) vs ++ [v])) ->
  batch_inv K ZB b' (vs ++ [v]) m.
Proof.
  intros Hz [] Hv Hcc Hlt Hhc Hbs Hzs Hca Hap Hnf Hni Hst Hchain.
  pose proof (div_mod_succ (length vs) ZB Hz) as Hdm.
  pose proof (Nat.div_mod_eq (length vs) ZB) as Hdiv. pose proof (Nat.mod_upper_bound (length vs) ZB ltac:(lia)).
  assert (length vs / ZB < K)%nat as HnK by (apply Nat.Div0.div_lt_upper_bound; lia).
  assert (length vs / ZB * ZB <= length vs)%nat as Hle by lia.
  assert (length (vs ++ [v]) = length vs + 1)%nat as Hlen by (rewrite length_app; done).
  split; rewrite ?Hlen; try congruence; try lia; try done.
  - rewrite Hhc, length_insert. done.
  - apply Forall_app_2; auto.
  - destruct (decide _) in Hdm; destruct Hdm as [-> _]; lia.
  - rewrite Hst. repeat case_decide; (done || lia).
  - intros i Hi. destruct (decide (i = length vs / ZB)%nat) as [->|Hne].
    + destruct (decide _) as [Hf|] in Hdm, Hchain; [|lia]. exists chain. rewrite Hhc.
      rewrite list_lookup_insert_eq by lia. split_and!; [done..|].
      rewrite <- Hchain. f_equal. unfold zkp_slice. rewrite drop_app_le by lia.
      apply take_ge. rewrite length_app, length_drop. simpl. lia.
    + destruct (bi_complete0 i) as (c & ? & ? & ?); [destruct (decide _) in Hdm; lia|].
      exists c. rewrite Hhc, list_lookup_insert_ne by done. split_and!; [done..|].
      rewrite zkp_slice_app; [done|]. destruct (decide _) in Hdm; nia.
  - destruct (decide _) as [Hf|Hf] in Hdm, Hchain; destruct Hdm as [-> _].
    + rewrite drop_ge; [done|]. rewrite Hlen. lia.
    + rewrite Hhc, list_lookup_insert_eq, drop_app_le by lia. done.
Qed.

Lemma add_to_hash_chain_spec K ZB b vs m v :
  (0 < ZB)%nat -> Z.of_nat (K * ZB) < 2 ^ 63 -> batch_inv K ZB b vs m ->
  (length vs < K * ZB)%nat -> canonical v ->
  exists b', add_to_hash_chain v b = (Ok tt, b') /\ batch_inv K ZB b' (vs ++ [v]) m /\
    start_index b' = start_index b /\ cached_tree_updates b' = cached_tree_updates b.
Proof.
  intros Hz Hbig Hinv Hlt Hv. pose proof Hinv as [].
  pose proof (Nat.div_mod_eq (length vs) ZB) as Hdiv. pose proof (Nat.mod_upper_bound (length vs) ZB ltac:(lia)).
  assert (length vs / ZB < K)%nat as HnK by (apply Nat.Div0.div_lt_upper_bound; lia).
  destruct (lookup_lt_is_Some_2 (hash_chains b) (length vs / ZB)%nat ltac:(lia)) as [h0 Hh0].
  rewrite decide_True in bi_state0 by done.
  set (full := num_inserted b + 1 =? zkp_batch_size b).
  destruct (extend_chain_spec b (drop (length vs / ZB * ZB) vs) v full h0)
    as (chain & pv & Hext & Hcc & Hchain);
    [by rewrite bi_full0, Nat2Z.id|by apply Forall_drop|done|rewrite bi_inserted0, length_drop; lia
    |by rewrite bi_full0, Nat2Z.id|].
  assert (full = bool_decide (length vs mod ZB + 1 = ZB)%nat) as Hfull.
  { unfold full. rewrite bi_inserted0, bi_zkp_batch_size0. case_bool_decide; lia. }
  unfold add_to_hash_chain. unfold mbindM at 1, mget. unfold mbindM at 1, mlift.
  rewrite (checked_state_of b Fill) by done. rewrite bool_decide_true by done.
  unfold mbindM at 1. rewrite uadd_eq by lia. fold full.
  unfold mbindM at 1. rewrite bi_full0, Nat2Z.id, Hh0. cbn [ok_or].
  rewrite bi_full0, Nat2Z.id in Hext. unfold mbindM at 1. rewrite Hext.
  unfold mbindM at 1, mmodify. pose proof (div_mod_succ (length vs) ZB Hz) as Hdm.
  rewrite Hfull in *. clear full Hfull. destruct (decide _) as [Hf|Hf] in Hdm.
  - rewrite bool_decide_true in * by done. destruct Hdm as [Hd1 Hd2].
    unfold mbindM at 1. rewrite uadd_eq by nia.
    do 3 (unfold mbindM at 1). unfold mget. unfold mbindM at 1. cbn -[Z.of_nat].
    unfold get_num_zkp_batches, udiv. cbn -[Z.of_nat].
    rewrite bi_batch_size0, bi_zkp_batch_size0, (proj2 (Z.eqb_neq _ _)) by lia.
    rewrite Nat2Z.inj_mul, Z.div_mul by lia. case_match eqn:Hlast; breflect.
    + unfold advance_state_to_full, mbindM, mget, mlift.
      rewrite (checked_state_of _ Fill) by done. rewrite bool_decide_true by done.
      unfold mmodify. eexists. split; [reflexivity|]. split; [|done].
      apply (batch_inv_extend K ZB b _ vs m v chain); try done; simpl.
      * lia.
      * by rewrite Hd2.
      * rewrite decide_False by nia. done.
      * by rewrite decide_True.
    + eexists. split; [reflexivity|]. split; [|done].
      apply (batch_inv_extend K ZB b _ vs m v chain); try done; simpl.
      * lia.
      * by rewrite Hd2.
      * rewrite decide_True by nia. done.
      * by rewrite decide_True.
  - rewrite bool_decide_false in * by done. destruct Hdm as [Hd1 Hd2].
    eexists. split; [reflexivity|]. split; [|done].
    apply (batch_inv_extend K ZB b _ vs m v chain); try done; simpl.
    + lia.
    + lia.
    + rewrite decide_True by nia. done.
    + by rewrite decide_False.
Qed.

Lemma reset_inv K ZB b vs m start :
  batch_inv K ZB b vs m -> (0 < K)%nat -> (0 < ZB)%nat ->
  batch_inv K ZB (reset (batch_size b) (zkp_batch_size b) start b) [] 0.
Proof.
  intros [] HK HZ. split; simpl; rewrite ?Nat.Div0.div_0_l, ?Nat.Div0.mod_0_l; try done; try lia.
  rewrite decide_True; [done|]. nia.
Qed.

(** Marking the next complete ZKP batch as applied. *)
Lemma mark_as_inserted_spec K ZB b vs m :
  (0 < ZB)%nat -> Z.of_nat (K * ZB) < 2 ^ 63 -> batch_inv K ZB b vs m -> (m < length vs / ZB)%nat ->
  exists b', mark_as_inserted_in_merkle_tree b
      = (Ok (if decide (S m = K) then Inserted
             else if decide (length vs < K * ZB)%nat then Fill else Full), b') /\
    batch_inv K ZB b' vs (S m) /\ start_index b' = start_index b /\
    cached_tree_updates b' = cached_tree_updates b /\ hash_chains b' = hash_chains b.
Proof.
  intros Hz Hbig Hinv Hm. pose proof Hinv as [].
  assert (length vs / ZB <= K)%nat as HnK.
  { apply Nat.Div0.div_le_upper_bound. lia. }
  set (s := if decide (length vs < K * ZB)%nat then Fill else Full).
  assert (state b = u64_of_batch_state s) as Hs.
  { rewrite bi_state0. unfold s. case_decide; [done|]. rewrite decide_True by lia. done. }
  assert (s <> Inserted) as Hns by (unfold s; by case_decide).
  unfold mark_as_inserted_in_merkle_tree, mbindM, mget, mlift, get_first_ready_zkp_batch.
  rewrite (checked_state_of b s) by done. cbn [rbind]. rewrite bool_decide_false by done.
  unfold batch_is_ready_to_insert. rewrite (proj2 (Z.ltb_lt _ _)) by lia.
  unfold get_num_zkp_batches, udiv. rewrite bi_batch_size0, bi_zkp_batch_size0.
  rewrite (proj2 (Z.eqb_neq _ _)) by lia. rewrite Nat2Z.inj_mul, Z.div_mul by lia.
  rewrite uadd_eq by nia. unfold mmodify. destruct (decide (S m = K)) as [HmK|HmK].
  - rewrite (proj2 (Z.eqb_eq _ _)) by lia.
    assert (~ length vs < K * ZB)%nat as Hfull
      by (intros ?; assert (length vs / ZB < K)%nat by (apply Nat.Div0.div_lt_upper_bound; lia); lia).
    unfold s in *. rewrite decide_False in * by done.
    unfold advance_state_to_inserted, mbindM, mget, mlift, mmodify.
    rewrite (checked_state_of _ Full) by done. rewrite bool_decide_true by done.
    rewrite (checked_state_of _ Inserted) by done. eexists. split; [reflexivity|]. split; [|done].
    split; simpl; try done; try lia. by rewrite !decide_False by lia.
  - rewrite (proj2 (Z.eqb_neq _ _)) by lia. unfold mret. rewrite (checked_state_of _ s) by done.
    eexists. split; [reflexivity|]. split; [|done].
    split; simpl; try done; try lia; [|intros; apply bi_complete0; lia].
    rewrite Hs. unfold s. case_decide; [done|]. by rewrite decide_True by lia.
Qed.

(** Clearing the slots of an applied ZKP batch, and writing a cache slot. *)
Lemma clear_cached_spec K ZB b vs m i :
  batch_inv K ZB b vs m -> (i < m)%nat -> (i < K)%nat ->
  exists b', clear_cached_tree_update i b = (Ok tt, b') /\ batch_inv K ZB b' vs m /\
    start_index b' = start_index b /\
    cached_tree_updates b' = <[i := cached_default]> (cached_tree_updates b).
Proof.
  intros [] Him HiK. unfold clear_cached_tree_update, evict_cached_tree_update, cache_tree_update, mbindM.
  destruct (lookup_lt_is_Some_2 (cached_tree_updates b) i ltac:(lia)) as [u Hu]. rewrite Hu. simpl.
  destruct (lookup_lt_is_Some_2 (hash_chains b) i ltac:(lia)) as [h Hh]. rewrite Hh.
  eexists. split; [reflexivity|]. split; [|done].
  split; simpl; rewrite ?length_insert; try done.
  - intros j Hj. rewrite list_lookup_insert_ne by lia. by apply bi_complete0.
  - by rewrite list_lookup_insert_ne by lia.
Qed.

Lemma cache_tree_update_spec K ZB b vs m i u :
  batch_inv K ZB b vs m -> (i < K)%nat ->
  exists b', cache_tree_update i u b = (Ok tt, b') /\ batch_inv K ZB b' vs m /\
    start_index b' = start_index b /\
    cached_tree_updates b' = <[i := u]> (cached_tree_updates b).
Proof.
  intros [] HiK. unfold cache_tree_update.
  destruct (lookup_lt_is_Some_2 (cached_tree_updates b) i ltac:(lia)) as [u' Hu]. rewrite Hu.
  eexists. split; [reflexivity|]. split; [|done].
  split; simpl; rewrite ?length_insert; done.
Qed.

End chains.

(** ** Theorems *)

(** C17. Streaming a value into a batch: with room left, [add_to_hash_chain]
    succeeds and afterwards every complete ZKP batch's chain is
    [create_hash_chain_4] over its values in insertion order, the open chain has
    absorbed all but the pending values, the counters are the quotient and
    remainder of the number of values, and the batch becomes [Full] exactly with
    its last value. *)
Theorem batch_streams_hash_chains `{H : SolPoseidon} (Htotal : PoseidonTotal H) (K ZB : nat)
    (b : Batch) (vs : list bytes) (m : nat) (v : bytes) :
  (0 < ZB)%nat -> Z.of_nat (K * ZB) < 2 ^ 63 -> batch_inv K ZB b vs m ->
  (length vs < K * ZB)%nat -> canonical v ->
  exists b', add_to_hash_chain v b = (Ok tt, b') /\ batch_inv K ZB b' (vs ++ [v]) m /\
    start_index b' = start_index b /\ cached_tree_updates b' = cached_tree_updates b.
Proof. apply add_to_hash_chain_spec. Qed.

Definition fresh_batch (K ZB : nat) (start : Z) : Batch :=
  batch_init (Z.of_nat (K * ZB)) (Z.of_nat ZB) start
    (mkBatch 0 0 0 0 0 0 0 (zero32, zero32) (replicate K zero32) (replicate K cached_default)).

Lemma fresh_batch_inv `{SolPoseidon} K ZB start : (0 < K)%nat -> (0 < ZB)%nat ->
  batch_inv K ZB (fresh_batch K ZB start) [] 0.
Proof.
  intros. split; simpl; rewrite ?length_replicate, ?Nat.Div0.div_0_l, ?Nat.Div0.mod_0_l; try done; try lia.
  rewrite decide_True; [done|]. nia.
Qed.

Lemma batch_streams_hash_chains_witness :
  exists b', @add_to_hash_chain model_poseidon (replicate 32 x01) (fresh_batch 2 4 1) = (Ok tt, b') /\
    @batch_inv model_poseidon 2 4 b' [replicate 32 x01] 0.
Proof.
  destruct (@batch_streams_hash_chains model_poseidon model_poseidon_total 2 4 (fresh_batch 2 4 1) [] 0
    (replicate 32 x01)) as (b' & ? & ? & _).
  - lia.
  - vm_compute; reflexivity.
  - apply fresh_batch_inv; lia.
  - simpl; lia.
  - split; reflexivity.
  - exists b'. split; assumption.
Defined.

(** [add_to_hash_chain] does not mutate the batch when it returns an error,
    whatever the batch holds. *)
Theorem add_to_hash_chain_error_keeps_batch `{SolPoseidon} (v : bytes) (b b' : Batch)
    (e : NullifierTreeError) :
  add_to_hash_chain v b = (Err e, b') -> b' = b.
Proof.
  unfold add_to_hash_chain, mbindM, mget, mlift, mthrow, mmodify.
  destruct (checked_state b) as [s| |] eqn:Hs; [|naive_solver..].
  case_bool_decide as Hf; [|naive_solver]. subst s.
  destruct (uadd 64 (num_inserted b) 1) as [n| |]; [|naive_solver..].
  destruct (ok_or _ _) as [h| |]; [|naive_solver..].
  assert (forall r b1, extend_chain b v h (n =? zkp_batch_size b) b = (r, b1) ->
    if r is Ok _ then state b1 = state b else b1 = b) as Hext.
  { unfold extend_chain, mbindM, mmodify, mlift. destruct (pending_values b).
    intros r b1. repeat case_match; intros; simplify_eq; auto. }
  destruct (extend_chain _ _ _ _ b) as [[[]| |] b1] eqn:He; specialize (Hext _ _ eq_refl); [|naive_solver..].
  destruct (n =? zkp_batch_size b); [|done].
  unfold uadd. destruct (checked_add 64 (num_full_zkp_batches b) 1); [|done]. cbn [or_panic].
  unfold get_num_zkp_batches, udiv. destruct (_ =? 0); [done|]. destruct (_ =? _); [|done].
  unfold advance_state_to_full, mbindM, mget, mlift, mmodify.
  assert (forall b2, state b2 = state b -> checked_state b2 = Ok Fill) as Hb2
    by (unfold checked_state, try_get_state in *; intros b2 ->; done).
  rewrite Hb2 by done. rewrite bool_decide_true by done. naive_solver.
Qed.

Lemma add_to_hash_chain_error_keeps_batch_witness :
  @add_to_hash_chain model_poseidon zero32 (set_state 2 (fresh_batch 2 4 1))
    = (Err BatchNotReady, set_state 2 (fresh_batch 2 4 1)) /\
  set_state 2 (fresh_batch 2 4 1) = set_state 2 (fresh_batch 2 4 1).
Proof.
  split; [reflexivity|].
  apply (@add_to_hash_chain_error_keeps_batch model_poseidon zero32 (set_state 2 (fresh_batch 2 4 1)) _ BatchNotReady).
  reflexivity.
Defined.
