(* ===== verification/NullifierTree.v ===== *)
(** * The nullifier tree and its queue: code

    src/program-libs/tree/src/nullifier_tree: [layout.rs], [access.rs],
    [init.rs], [queue_insert.rs], [merkle_tree_update.rs], [proof.rs],
    [constants.rs] and [verify/mod.rs], and the update event of
    src/program-libs/event/src/lib.rs.  The Groth16 library is a parameter
    ([Groth16]).  The properties are in [NullifierQueue]. *)

From S2P Require Import Prelude ZeroBytes Hasher HashChain Batch.

Definition DEFAULT_NULLIFIER_TREE_HEIGHT : Z := 40.
Definition NULLIFIER_TREE_ZKP_BATCHES : nat := 100.
Definition DEFAULT_NULLIFIER_ZKP_BATCH_SIZE : Z := 4999.
Definition DEFAULT_NULLIFIER_BATCH_SIZE : Z :=
  DEFAULT_NULLIFIER_ZKP_BATCH_SIZE * Z.of_nat NULLIFIER_TREE_ZKP_BATCHES.

Definition NULLIFIER_TREE_INIT_ROOT_40 : bytes := map byte_of
  [29; 142; 113; 166; 1; 179; 232; 222; 187; 186; 155; 85; 123; 131; 105; 199; 244; 4; 174; 87;
   190; 191; 8; 82; 35; 107; 7; 40; 32; 149; 66; 119].

Definition SUPPORTED_ZKP_BATCH_SIZES : list Z := [10; 4999].

Record RootHistory : Type := mkRootHistory {
  current_index : Z;
  roots : list bytes;
}.

Record NullifierTreeLayout : Type := mkNullifierTree {
  sequence_number : Z;
  next_index : Z;
  height : Z;
  currently_processing_batch_index : Z;
  capacity : Z;
  tree_batch_size : Z;
  tree_zkp_batch_size : Z;
  pending_batch_index : Z;
  queue_next_index : Z;
  close_before_index : Z;
  root_history : RootHistory;
  batches : list Batch;
}.

(** Field assignments. *)
Definition set_batches (v : list Batch) (t : NullifierTreeLayout) : NullifierTreeLayout :=
  mkNullifierTree (sequence_number t) (next_index t) (height t) (currently_processing_batch_index t)
    (capacity t) (tree_batch_size t) (tree_zkp_batch_size t) (pending_batch_index t)
    (queue_next_index t) (close_before_index t) (root_history t) v.

Definition set_current_batch_index (v : Z) (t : NullifierTreeLayout) : NullifierTreeLayout :=
  mkNullifierTree (sequence_number t) (next_index t) (height t) v
    (capacity t) (tree_batch_size t) (tree_zkp_batch_size t) (pending_batch_index t)
    (queue_next_index t) (close_before_index t) (root_history t) (batches t).

Definition set_pending_batch_index (v : Z) (t : NullifierTreeLayout) : NullifierTreeLayout :=
  mkNullifierTree (sequence_number t) (next_index t) (height t) (currently_processing_batch_index t)
    (capacity t) (tree_batch_size t) (tree_zkp_batch_size t) v
    (queue_next_index t) (close_before_index t) (root_history t) (batches t).

Definition set_queue_next_index (v : Z) (t : NullifierTreeLayout) : NullifierTreeLayout :=
  mkNullifierTree (sequence_number t) (next_index t) (height t) (currently_processing_batch_index t)
    (capacity t) (tree_batch_size t) (tree_zkp_batch_size t) (pending_batch_index t)
    v (close_before_index t) (root_history t) (batches t).

Definition set_close_before_index (v : Z) (t : NullifierTreeLayout) : NullifierTreeLayout :=
  mkNullifierTree (sequence_number t) (next_index t) (height t) (currently_processing_batch_index t)
    (capacity t) (tree_batch_size t) (tree_zkp_batch_size t) (pending_batch_index t)
    (queue_next_index t) v (root_history t) (batches t).

Definition set_root_history (v : RootHistory) (t : NullifierTreeLayout) : NullifierTreeLayout :=
  mkNullifierTree (sequence_number t) (next_index t) (height t) (currently_processing_batch_index t)
    (capacity t) (tree_batch_size t) (tree_zkp_batch_size t) (pending_batch_index t)
    (queue_next_index t) (close_before_index t) v (batches t).

Definition set_next_index (v : Z) (t : NullifierTreeLayout) : NullifierTreeLayout :=
  mkNullifierTree (sequence_number t) v (height t) (currently_processing_batch_index t)
    (capacity t) (tree_batch_size t) (tree_zkp_batch_size t) (pending_batch_index t)
    (queue_next_index t) (close_before_index t) (root_history t) (batches t).

Definition set_sequence_number (v : Z) (t : NullifierTreeLayout) : NullifierTreeLayout :=
  mkNullifierTree v (next_index t) (height t) (currently_processing_batch_index t)
    (capacity t) (tree_batch_size t) (tree_zkp_batch_size t) (pending_batch_index t)
    (queue_next_index t) (close_before_index t) (root_history t) (batches t).

(** ** layout.rs *)

Definition get_batch (index : Z) (t : NullifierTreeLayout) : res NullifierTreeError Batch :=
  ok_or (batches t !! Z.to_nat index) InvalidBatchIndex.

Definition get_current_batch (t : NullifierTreeLayout) : res NullifierTreeError Batch :=
  get_batch (currently_processing_batch_index t) t.

Definition get_pending_batch (t : NullifierTreeLayout) : res NullifierTreeError Batch :=
  get_batch (pending_batch_index t) t.

(** Run a method on [batches.get_mut(index)]. *)
Definition on_batch {A} (index : Z) (m : M Batch NullifierTreeError A)
    : M NullifierTreeLayout NullifierTreeError A := fun t =>
  match batches t !! Z.to_nat index with
  | None => (Err InvalidBatchIndex, t)
  | Some b => let '(r, b') := m b in (r, set_batches (<[Z.to_nat index := b']> (batches t)) t)
  end.

Definition on_current_batch {A} (m : M Batch NullifierTreeError A)
    : M NullifierTreeLayout NullifierTreeError A := fun t =>
  on_batch (currently_processing_batch_index t) m t.

Definition on_pending_batch {A} (m : M Batch NullifierTreeError A)
    : M NullifierTreeLayout NullifierTreeError A := fun t =>
  on_batch (pending_batch_index t) m t.

Definition validate_configuration (ZKP_BATCHES : nat) (batch_size zkp_batch_size : Z)
    : res NullifierTreeError unit :=
  check negb ((batch_size =? 0) || (zkp_batch_size =? 0) || negb (batch_size mod zkp_batch_size =? 0))
    else BatchSizeNotDivisibleByZkpBatchSize in
  check batch_size / zkp_batch_size =? Z.of_nat ZKP_BATCHES else InvalidRootHistoryCapacity in
  Ok tt.

Definition increment_pending_batch_index_if_inserted (state : BatchState)
    : M NullifierTreeLayout NullifierTreeError unit :=
  if decide (state = Inserted) then
    do! t <- mget;
    do! next <- mlift (uadd 64 (pending_batch_index t) 1);
    mmodify (set_pending_batch_index (next mod NUM_BATCHES))
  else mret tt.

Definition increment_currently_processing_batch_index_if_full
    : M NullifierTreeLayout NullifierTreeError unit :=
  do! t <- mget;
  do! b <- mlift (get_current_batch t);
  do! state <- mlift (checked_state b);
  if decide (state = Full) then
    do! next <- mlift (uadd 32 (currently_processing_batch_index t) 1);
    mmodify (set_current_batch_index (next mod NUM_BATCHES))
  else mret tt.

(** ** access.rs *)

Definition validate (ZKP_BATCHES : nat) (t : NullifierTreeLayout) : res NullifierTreeError unit :=
  let? _ := validate_configuration ZKP_BATCHES (tree_batch_size t) (tree_zkp_batch_size t) in
  check current_index (root_history t) <? Z.of_nat ZKP_BATCHES else InvalidRootHistoryCapacity in
  check negb ((NUM_BATCHES <=? currently_processing_batch_index t)
              || (NUM_BATCHES <=? pending_batch_index t)) else InvalidBatchIndex in
  check negb (existsb (fun batch => negb (batch_size batch =? tree_batch_size t)
                         || negb (zkp_batch_size batch =? tree_zkp_batch_size t)) (batches t))
    else InvalidBatchConfiguration in
  Ok tt.

Definition latest_root_index (t : NullifierTreeLayout) : Z :=
  let capacity := Z.of_nat (length (roots (root_history t))) in
  if capacity =? 0 then 0
  else (current_index (root_history t) + capacity - 1) mod capacity.

Definition get_root_index (t : NullifierTreeLayout) : Z := latest_root_index t mod 2 ^ 32.

Definition get_root (t : NullifierTreeLayout) : option bytes :=
  roots (root_history t) !! Z.to_nat (latest_root_index t).

Definition root_by_index (t : NullifierTreeLayout) (index : Z) : option bytes :=
  match roots (root_history t) !! Z.to_nat index with
  | None => None
  | Some root => if decide (root = zero32) then None else Some root
  end.

Definition get_hash_chain (t : NullifierTreeLayout) (batch_index zkp_batch_index : nat) : option bytes :=
  match batches t !! batch_index with
  | None => None
  | Some b => hash_chain b zkp_batch_index
  end.

Definition tree_is_full (t : NullifierTreeLayout) (num_leaves : Z) : bool :=
  match checked_add 64 (next_index t) num_leaves with
  | Some end_index => capacity t <? end_index
  | None => true
  end.

(** ** init.rs *)

Definition hash_chain_groups_are_full (zkp_batch_size : Z) : bool := zkp_batch_size mod 3 =? 1.

Definition match_circuit_size (size : Z) : bool := existsb (Z.eqb size) SUPPORTED_ZKP_BATCH_SIZES.

Definition init_batches (batch_size zkp_batch_size : Z) (starts : list Z) (bs : list Batch) : list Batch :=
  zip_with (fun b start => batch_init batch_size zkp_batch_size start b) bs starts.

(** The program build: [test-only] is off, so only height 40 is accepted. *)
Definition init (ZKP_BATCHES : nat) (input_queue_batch_size input_queue_zkp_batch_size height : Z)
    : M NullifierTreeLayout NullifierTreeError unit := fun t =>
  match validate_configuration ZKP_BATCHES input_queue_batch_size input_queue_zkp_batch_size with
  | Err e => (Err e, t)
  | Panic => (Panic, t)
  | Ok _ =>
      if negb (height <? 64) then (Err InvalidHeight, t)
      else if negb (height =? 40) then (Err InvalidHeight, t)
      else
        let t1 := mkNullifierTree 0 1 height (currently_processing_batch_index t) (2 ^ height)
                    (tree_batch_size t) (tree_zkp_batch_size t) (pending_batch_index t)
                    (queue_next_index t) 0 (root_history t) (batches t) in
        match checked_add 64 1 input_queue_batch_size with
        | None => (Err ArithmeticOverflow, t1)
        | Some second_batch_start_index =>
            let bs := init_batches input_queue_batch_size input_queue_zkp_batch_size
                        [1; second_batch_start_index] (batches t) in
            let t2 := mkNullifierTree 0 1 height 0 (2 ^ height) input_queue_batch_size
                        input_queue_zkp_batch_size 0 1 0 (root_history t) bs in
            match roots (root_history t) !! 0%nat with
            | None => (Err InvalidRootHistoryCapacity, t2)
            | Some _ =>
                (Ok tt, set_root_history
                   (mkRootHistory (1 mod Z.of_nat ZKP_BATCHES)
                      (<[0%nat := NULLIFIER_TREE_INIT_ROOT_40]> (roots (root_history t)))) t2)
            end
        end
  end.

(** ** queue_insert.rs *)

Definition checked_next_queue_index (t : NullifierTreeLayout) : res NullifierTreeError Z :=
  check queue_next_index t <? capacity t else NullifierTreeIsFull in
  Ok (queue_next_index t).

Definition remaining_queue_capacity (t : NullifierTreeLayout) : res NullifierTreeError Z :=
  ok_or (checked_sub (capacity t) (queue_next_index t)) ArithmeticOverflow.

Definition increment_queue_next_index : M NullifierTreeLayout NullifierTreeError unit :=
  do! t <- mget;
  do! n <- mlift (uadd 64 (queue_next_index t) 1);
  mmodify (set_queue_next_index n).

Definition insert_nullifier_into_queue `{SolPoseidon} (nullifier : bytes)
    : M NullifierTreeLayout NullifierTreeError Z :=
  require is_canonical_bn254_scalar_be nullifier else NonCanonicalFieldElement;
  do! t <- mget;
  do! queue_index <- mlift (checked_next_queue_index t);
  exec! on_current_batch (
    exec! ensure_ready_to_fill (tree_batch_size t);
    add_to_hash_chain nullifier);
  exec! increment_currently_processing_batch_index_if_full;
  exec! increment_queue_next_index;
  mret queue_index.

(** ** proof.rs and verify/mod.rs *)

Record NullifierTreeProof : Type := mkNullifierTreeProof {
  proof_a : bytes;
  proof_b : bytes;
  proof_c : bytes;
}.

(** The two committed verifying keys. *)
Inductive VerifyingKey : Set := batch_address_append_40_10 | batch_address_append_40_4999.

(** groth16-solana: point decompression, the verifier's constructor check and
    its pairing check. *)
Class Groth16 : Type := {
  decompress_g1 : bytes -> option bytes;
  groth16_new : bytes -> bytes -> bytes -> list bytes -> VerifyingKey -> bool;
  groth16_verify : bytes -> bytes -> bytes -> list bytes -> VerifyingKey -> bool;
}.

Section update.
Context `{SolPoseidon} `{Groth16}.

Definition verify (public_inputs : list bytes) (proof : NullifierTreeProof) (vk : VerifyingKey)
    : res NullifierTreeError unit :=
  let? a := ok_or (decompress_g1 (proof_a proof)) DecompressG1Failed in
  let b := proof_b proof in
  let? c := ok_or (decompress_g1 (proof_c proof)) DecompressG1Failed in
  check groth16_new a b c public_inputs vk else CreateGroth16VerifierFailed in
  check groth16_verify a b c public_inputs vk else ProofVerificationFailed in
  Ok tt.

Definition verify_batch_update (batch_size : Z) (public_input_hash : bytes) (proof : NullifierTreeProof)
    : res NullifierTreeError unit :=
  match batch_size with
  | 10 => verify [public_input_hash] proof batch_address_append_40_10
  | 4999 => verify [public_input_hash] proof batch_address_append_40_4999
  | _ => Err InvalidBatchSize
  end.

(** ** merkle_tree_update.rs *)

Record InstructionDataBatchNullifyInputs : Type := mkBatchNullifyInputs {
  in_new_root : bytes;
  in_old_root : bytes;
  in_zkp_batch_index : Z;
  in_proof : NullifierTreeProof;
}.

Record NullifierTreeUpdateEvent : Type := mkUpdateEvent {
  ev_merkle_tree_pubkey : bytes;
  ev_zkp_batch_size : Z;
  ev_old_next_index : Z;
  start_sequence_number : Z;
  first_root_index : Z;
  num_update : Z;
  first_zkp_batch_index : Z;
  ev_new_root : bytes;
}.

Definition check_tree_is_full (t : NullifierTreeLayout) (num_leaves : Z) : res NullifierTreeError unit :=
  check negb (tree_is_full t num_leaves) else NullifierTreeIsFull in
  Ok tt.

Definition increment_merkle_tree_next_index (count : Z) : M NullifierTreeLayout NullifierTreeError unit :=
  do! t <- mget;
  do! n <- mlift (uadd 64 (next_index t) count);
  mmodify (set_next_index n).

Definition append_root (root : bytes) : M NullifierTreeLayout NullifierTreeError unit := fun t =>
  let h := root_history t in
  let i := Z.to_nat (current_index h) in
  match roots h !! i with
  | None => (Err InvalidRootHistoryCapacity, t)
  | Some _ =>
      (Ok tt, set_root_history
         (mkRootHistory ((current_index h + 1) mod Z.of_nat (length (roots h))) (<[i := root]> (roots h))) t)
  end.

Definition advance_nullifier_pda_close_watermark (pending_batch_state : BatchState)
    : M NullifierTreeLayout NullifierTreeError unit :=
  if decide (pending_batch_state = Inserted) then
    do! t <- mget;
    do! b <- mlift (get_pending_batch t);
    mmodify (set_close_before_index (Z.max (close_before_index t) (start_index b)))
  else mret tt.

(** The state changes of one applied update: steps 3 and 4 of the loop. *)
Definition apply_cached_update (cached_update : CachedTreeUpdate) (zkp_batch_index : nat)
    : M NullifierTreeLayout NullifierTreeError (Z * Z * Z) :=
  do! t <- mget;
  exec! mlift (check_tree_is_full t (tree_zkp_batch_size t));
  let old_next_index := next_index t in
  exec! increment_merkle_tree_next_index (tree_zkp_batch_size t);
  do! seq <- mlift (uadd 64 (sequence_number t) 1);
  exec! mmodify (set_sequence_number seq);
  exec! append_root (new_root cached_update);
  do! t <- mget;
  let root_index := get_root_index t in
  do! pending_batch_state <- on_pending_batch (
    do! pending_batch_state <- mark_as_inserted_in_merkle_tree;
    exec! clear_cached_tree_update zkp_batch_index;
    mret pending_batch_state);
  exec! advance_nullifier_pda_close_watermark pending_batch_state;
  exec! increment_pending_batch_index_if_inserted pending_batch_state;
  mret (old_next_index, seq, root_index).

(** Step 5: [get_or_insert], then advance the count and the final root. *)
Definition record_update (event : option NullifierTreeUpdateEvent) (merkle_tree_pubkey : bytes)
    (zkp_batch_size : Z) (applied : Z * Z * Z) (zkp_batch_index : Z) (new_root : bytes)
    : res NullifierTreeError NullifierTreeUpdateEvent :=
  let '(old_next_index, sequence_number, root_index) := applied in
  let ev := default (mkUpdateEvent merkle_tree_pubkey (zkp_batch_size mod 2 ^ 16) old_next_index
                       sequence_number root_index 0 (zkp_batch_index mod 2 ^ 32) new_root) event in
  let? n := uadd 32 (num_update ev) 1 in
  Ok (mkUpdateEvent (ev_merkle_tree_pubkey ev) (ev_zkp_batch_size ev)
        (ev_old_next_index ev) (start_sequence_number ev) (first_root_index ev) n
        (first_zkp_batch_index ev) new_root).

(** The loop.  Every iteration that does not stop clears a cache slot, so one
    more iteration than there are slots is enough fuel; running out is a
    [Panic], and the refinement theorem shows it does not happen. *)
Fixpoint apply_loop (fuel : nat) (merkle_tree_pubkey : bytes) (event : option NullifierTreeUpdateEvent)
    : M NullifierTreeLayout NullifierTreeError (option NullifierTreeUpdateEvent) :=
  match fuel with
  | O => mlift Panic
  | S fuel' =>
      do! t <- mget;
      do! pending_batch <- mlift (get_pending_batch t);
      let zkp_batch_index := Z.to_nat (num_inserted_zkp_batches pending_batch) in
      match cached_tree_update pending_batch zkp_batch_index with
      | None => mret event
      | Some cached_update =>
          do! current_root <- mlift (ok_or (get_root t) InvalidIndex);
          if negb (bool_decide (old_root cached_update = current_root)) then
            exec! on_pending_batch (evict_cached_tree_update zkp_batch_index);
            mret event
          else
            do! applied <- apply_cached_update cached_update zkp_batch_index;
            do! event <- mlift (record_update event merkle_tree_pubkey (tree_zkp_batch_size t) applied
                                  (num_inserted_zkp_batches pending_batch) (new_root cached_update));
            apply_loop fuel' merkle_tree_pubkey (Some event)
      end
  end.

Definition apply_fuel (t : NullifierTreeLayout) : nat :=
  S (sum_list_with (fun b => length (cached_tree_updates b)) (batches t)).

Definition apply_cached_tree_updates (merkle_tree_pubkey : bytes)
    : M NullifierTreeLayout NullifierTreeError (option NullifierTreeUpdateEvent) :=
  do! t <- mget;
  apply_loop (apply_fuel t) merkle_tree_pubkey None.

Definition verify_proof_cache_update (data : InstructionDataBatchNullifyInputs)
    : M NullifierTreeLayout NullifierTreeError bool :=
  do! t <- mget;
  let zkp_batch_index := Z.to_nat (in_zkp_batch_index data) in
  do! batch <- mlift (get_pending_batch t);
  do! leaves_hash_chain <- mlift (ok_or (hash_chain batch zkp_batch_index) ZkpBatchIndexOutOfRange);
  require in_zkp_batch_index data <? num_full_zkp_batches batch else HashChainNotReady;
  if in_zkp_batch_index data <? num_inserted_zkp_batches batch then mret false
  else
    do! num_inserted_queue_elements <- mlift
      (ok_or (checked_mul 64 (in_zkp_batch_index data) (tree_zkp_batch_size t)) ArithmeticOverflow);
    do! zkp_batch_start_index <- mlift
      (ok_or (checked_add 64 (start_index batch) num_inserted_queue_elements) ArithmeticOverflow);
    let next_index_bytes := replicate 24 x00 ++ be_bytes 8 zkp_batch_start_index in
    do! public_input_hash <- mlift (map_err HasherErr
      (Poseidon.hashv [in_old_root data; in_new_root data; leaves_hash_chain; next_index_bytes]));
    exec! mlift (verify_batch_update (tree_zkp_batch_size t) public_input_hash (in_proof data));
    exec! on_pending_batch (cache_tree_update zkp_batch_index
      (mkCachedUpdate (in_old_root data) (in_new_root data) 1));
    mret true.

Definition update_tree_from_queue (merkle_tree_pubkey : bytes) (data : InstructionDataBatchNullifyInputs)
    : M NullifierTreeLayout NullifierTreeError (option NullifierTreeUpdateEvent) :=
  require is_canonical_bn254_scalar_be (in_old_root data)
          && is_canonical_bn254_scalar_be (in_new_root data) else NonCanonicalFieldElement;
  do! cached <- verify_proof_cache_update data;
  if negb cached then mret None
  else apply_cached_tree_updates merkle_tree_pubkey.

End update.
