(* ===== verification/NullifierQueue.v ===== *)
(** * The nullifier tree: abstract queue and refinement

    The abstract state of the nullifier tree of [NullifierTree] is the list of
    all values ever queued, the list of all roots the tree has had, and the
    verified updates that wait to be applied, by their ZKP batch number.  [inv]
    relates it to the account; the theorems show that queue insertion and tree
    update implement the abstract operations, and that in every reachable state
    each root transition was proved for the queued values in order and the
    cleanup watermark is safe. *)

From S2P Require Import Prelude ZeroBytes Hasher HashChain Batch NullifierTree.

Record QSpec : Type := mkQ {
  q_values : list bytes;                     (** every queued value, in order *)
  q_roots : list bytes;                      (** the initial root, then one per applied ZKP batch *)
  q_cache : gmap nat (bytes * bytes);        (** verified updates by ZKP batch number *)
}.

(** Number of ZKP batches applied. *)
Definition q_applied (q : QSpec) : nat := (length (q_roots q) - 1)%nat.

Section spec.
Context `{H : SolPoseidon} `{G : Groth16}.
Context (K ZB : nat) (CAP : Z).

Notation B := (K * ZB)%nat.

(** A proof was accepted that ZKP batch [m], the values [m * ZB ..] of the queue
    in order, takes the tree from root [old] to root [new], both of them field
    elements. *)
Definition verified_step (values : list bytes) (m : nat) (old new : bytes) : Prop :=
  ((m + 1) * ZB <= length values)%nat /\
  is_canonical_bn254_scalar_be old = true /\ is_canonical_bn254_scalar_be new = true /\
  exists chain public_input_hash proof,
    create_hash_chain_4 (zkp_slice ZB m values) = Ok chain /\
    Poseidon.hashv [old; new; chain; replicate 24 x00 ++ be_bytes 8 (1 + Z.of_nat (m * ZB))]
      = Ok public_input_hash /\
    verify_batch_update (Z.of_nat ZB) public_input_hash proof = Ok tt.

(** ** Abstract operations *)

Definition spec_insert (v : bytes) (q : QSpec) : res NullifierTreeError (Z * QSpec) :=
  check is_canonical_bn254_scalar_be v else NonCanonicalFieldElement in
  let T := length (q_values q) in
  check Z.of_nat T + 1 <? CAP else NullifierTreeIsFull in
  check bool_decide (T < (q_applied q / K + 2) * B)%nat else BatchNotReady in
  Ok (Z.of_nat T + 1, mkQ (q_values q ++ [v]) (q_roots q) (q_cache q)).

(** Apply cached updates in order; stop at a gap, evict a stale one. *)
Inductive applies : QSpec -> QSpec -> Prop :=
| applies_stop q :
    q_cache q !! q_applied q = None -> applies q q
| applies_evict q old new :
    q_cache q !! q_applied q = Some (old, new) -> last (q_roots q) <> Some old ->
    applies q (mkQ (q_values q) (q_roots q) (delete (q_applied q) (q_cache q)))
| applies_step q old new q' :
    q_cache q !! q_applied q = Some (old, new) -> last (q_roots q) = Some old ->
    applies (mkQ (q_values q) (q_roots q ++ [new]) (delete (q_applied q) (q_cache q))) q' ->
    applies q q'.

(** Which ZKP batch a proof for index [idx] of the pending batch is for: none
    when it is already applied, or when the pending batch has not been reused
    since it was applied. *)
Definition spec_target (idx : nat) (q : QSpec) : res NullifierTreeError (option nat) :=
  let T := length (q_values q) in
  let n := q_applied q in
  let a := (n / K)%nat in
  check bool_decide (idx < K)%nat else ZkpBatchIndexOutOfRange in
  if decide (T = a * B /\ 2 <= a)%nat then Ok None
  else
    check bool_decide (idx < Nat.min B (T - a * B) / ZB)%nat else HashChainNotReady in
    if decide (a * K + idx < n)%nat then Ok None else Ok (Some (a * K + idx)%nat).

(** The proof check: the public input commits to the roots, to the values of ZKP
    batch [m] in queue order and to its first leaf index. *)
Definition spec_verify (m : nat) (data : InstructionDataBatchNullifyInputs) (q : QSpec)
    : res NullifierTreeError unit :=
  let? chain := map_err HasherErr (create_hash_chain_4 (zkp_slice ZB m (q_values q))) in
  let? public_input_hash := map_err HasherErr (Poseidon.hashv
    [in_old_root data; in_new_root data; chain;
     replicate 24 x00 ++ be_bytes 8 (1 + Z.of_nat (m * ZB))]) in
  verify_batch_update (Z.of_nat ZB) public_input_hash (in_proof data).

Definition spec_update (data : InstructionDataBatchNullifyInputs) (q : QSpec)
    : res NullifierTreeError (option nat) :=
  check is_canonical_bn254_scalar_be (in_old_root data)
        && is_canonical_bn254_scalar_be (in_new_root data) else NonCanonicalFieldElement in
  let? target := spec_target (Z.to_nat (in_zkp_batch_index data)) q in
  match target with
  | None => Ok None
  | Some m => let? _ := spec_verify m data q in Ok (Some m)
  end.

(** The event of a cascade that began with [n0] ZKP batches applied and left the
    state [q]: none if nothing was applied, otherwise the shared fields of the
    first update, the count and the final root. *)
Definition event_of (pubkey : bytes) (n0 : nat) (q : QSpec) : option NullifierTreeUpdateEvent :=
  if decide (q_applied q = n0) then None
  else Some (mkUpdateEvent pubkey (Z.of_nat ZB mod 2 ^ 16) (1 + Z.of_nat (n0 * ZB)) (Z.of_nat n0 + 1)
               (Z.of_nat (S n0 mod K) mod 2 ^ 32) (Z.of_nat (q_applied q) - Z.of_nat n0)
               (Z.of_nat (n0 - n0 / K * K) mod 2 ^ 32) (default zero32 (last (q_roots q)))).

(** ** The invariant *)

(** Batch slot [i] holds batch number [g] when [T] values were queued: the
    latest of its parity that has begun, or its first. *)
Definition held (i g T : nat) : Prop :=
  (g mod 2 = i)%nat /\ (g * B < T \/ g < 2)%nat /\ (T <= (g + 2) * B)%nat.

Definition batch_values (g : nat) (values : list bytes) : list bytes := take B (drop (g * B) values).

(** ZKP batches of batch [g] applied when [n] are applied in total. *)
Definition applied_of (g n : nat) : nat := Nat.min K (n - g * K).

Definition cache_slot (u : option (bytes * bytes)) : CachedTreeUpdate :=
  match u with
  | Some (old, new) => mkCachedUpdate old new 1
  | None => cached_default
  end.

Definition holds (b : Batch) (g : nat) (q : QSpec) : Prop :=
  start_index b = 1 + Z.of_nat (g * B) /\
  batch_inv K ZB b (batch_values g (q_values q)) (applied_of g (q_applied q)) /\
  forall z, (z < K)%nat -> cached_tree_updates b !! z = Some (cache_slot (q_cache q !! (g * K + z)%nat)).

(** The root ring: root number [j] at [j mod K], unwritten slots zero. *)
Definition root_ring (h : RootHistory) (rs : list bytes) : Prop :=
  length (roots h) = K /\ (0 < length rs)%nat /\
  current_index h = Z.of_nat (length rs mod K) /\
  (forall j r, rs !! j = Some r -> (length rs <= j + K)%nat -> roots h !! (j mod K)%nat = Some r) /\
  (forall i, (length rs <= i < K)%nat -> roots h !! i = Some zero32).

Definition watermark (n : nat) : Z :=
  if decide (n / K = 0)%nat then 0 else 1 + Z.of_nat ((n / K - 1) * B).

Record inv (t : NullifierTreeLayout) (q : QSpec) : Prop := {
  inv_seq : sequence_number t = Z.of_nat (q_applied q);
  inv_next : next_index t = 1 + Z.of_nat (q_applied q * ZB);
  inv_capacity : capacity t = CAP;
  inv_batch_size : tree_batch_size t = Z.of_nat B;
  inv_zkp_batch_size : tree_zkp_batch_size t = Z.of_nat ZB;
  inv_queue_next : queue_next_index t = 1 + Z.of_nat (length (q_values q));
  inv_fits : 1 + Z.of_nat (length (q_values q)) <= CAP;
  inv_applied : (q_applied q * ZB <= length (q_values q))%nat;
  inv_ahead : (length (q_values q) <= (q_applied q / K + 2) * B)%nat;
  inv_current : currently_processing_batch_index t = Z.of_nat ((length (q_values q) / B) mod 2);
  inv_pending : pending_batch_index t = Z.of_nat ((q_applied q / K) mod 2);
  inv_close : close_before_index t = watermark (q_applied q);
  inv_roots : root_ring (root_history t) (q_roots q);
  inv_first : q_roots q !! 0%nat = Some NULLIFIER_TREE_INIT_ROOT_40;
  inv_values : Forall canonical (q_values q);
  inv_batches_len : length (batches t) = 2%nat;
  inv_batches : forall i, (i < 2)%nat ->
    exists b g, batches t !! i = Some b /\ held i g (length (q_values q)) /\ holds b g q;
  inv_cache : forall m old new, q_cache q !! m = Some (old, new) ->
    (q_applied q <= m < (q_applied q / K + 1) * K)%nat /\
    verified_step (q_values q) m old new;
  inv_verified : forall j old new, q_roots q !! j = Some old -> q_roots q !! S j = Some new ->
    verified_step (q_values q) j old new;
}.

End spec.

(** ** Queue insertion *)

Section proofs.
Context `{H : SolPoseidon} {HT : PoseidonTotal H} `{G : Groth16}.
Context (K ZB : nat) (CAP : Z).
Context (HK : (0 < K)%nat) (HZB : (0 < ZB)%nat) (HB : Z.of_nat (K * ZB) < 2 ^ 61) (HCAP : CAP <= 2 ^ 62).

Notation B := (K * ZB)%nat.

Lemma B_pos : (0 < B)%nat.
Proof. nia. Qed.

(** A ZKP batch whose values are among the first [c] batches. *)
Lemma zkp_below m c T : (m * ZB <= T)%nat -> (T < c * B \/ (m + 1) * ZB <= T /\ T <= c * B)%nat ->
  (m < c * K)%nat.
Proof.
  intros Hm [HT'|[Hm' HT']].
  - apply (Nat.mul_lt_mono_pos_r ZB); lia.
  - apply (Nat.mul_lt_mono_pos_r ZB); lia.
Qed.

Lemma held_current g T (c := (T / B)%nat) :
  held K ZB (c mod 2) g T ->
  (g = c /\ (c * B < T \/ c < 2))%nat \/ (g + 2 = c /\ T = c * B)%nat.
Proof.
  intros (Hpar & Hstart & Hend). pose proof (div_bounds T B B_pos) as Hb. fold c in Hb.
  pose proof B_pos. destruct (lt_eq_lt_dec g c) as [[Hlt| ->]|Hgt]; [right|by left|exfalso].
  - apply parity_gap in Hlt; [|done]. assert (g + 2 = c)%nat by nia. split; [done|nia].
  - apply parity_gap in Hgt; [|done]. destruct Hstart; nia.
Qed.

Lemma held_pending g T n (a := (n / K)%nat) :
  held K ZB (a mod 2) g T -> (n * ZB <= T)%nat -> (T <= (a + 2) * B)%nat ->
  g = a \/ (g + 2 = a /\ T = a * B)%nat.
Proof.
  intros (Hpar & Hstart & Hend) Hn Ha. pose proof (div_bounds n K HK) as Hb. fold a in Hb.
  pose proof B_pos. assert (a * B <= T)%nat by nia.
  destruct (lt_eq_lt_dec g a) as [[Hlt| ->]|Hgt]; [right|by left|exfalso].
  - apply parity_gap in Hlt; [|done]. assert (g + 2 = a)%nat by nia. split; [done|nia].
  - apply parity_gap in Hgt; [|done]. destruct Hstart; nia.
Qed.

Lemma length_batch_values g values :
  length (batch_values K ZB g values) = Nat.min B (length values - g * B).
Proof. unfold batch_values. by rewrite length_take, length_drop. Qed.

Lemma batch_values_snoc_in g values v :
  (g * B <= length values < (g + 1) * B)%nat ->
  batch_values K ZB g (values ++ [v]) = batch_values K ZB g values ++ [v].
Proof.
  intros Hg. unfold batch_values. rewrite drop_app_le by lia.
  rewrite !take_ge; [done|rewrite ?length_app, length_drop; simpl; nia..].
Qed.

Lemma batch_values_snoc_out g values v :
  (length values < g * B \/ (g + 1) * B <= length values)%nat ->
  batch_values K ZB g (values ++ [v]) = batch_values K ZB g values.
Proof.
  unfold batch_values. intros [Hg|Hg].
  - rewrite !drop_ge; [done|lia|rewrite length_app; simpl; lia].
  - rewrite drop_app_le by nia. rewrite take_app_le; [done|]. rewrite length_drop. nia.
Qed.

Lemma zkp_slice_batch g i values : (i < K)%nat ->
  zkp_slice ZB i (batch_values K ZB g values) = zkp_slice ZB (g * K + i) values.
Proof.
  intros Hi. unfold zkp_slice, batch_values.
  rewrite skipn_firstn_comm, take_take, drop_drop. f_equal; [nia|]. f_equal. nia.
Qed.

Lemma verified_step_snoc values v m old new :
  verified_step ZB values m old new -> verified_step ZB (values ++ [v]) m old new.
Proof.
  intros (Hm & ? & ? & Hv). split_and!; [rewrite length_app; lia|done..|]. by rewrite zkp_slice_app.
Qed.

(** The other batch keeps its number and content. *)
Lemma holds_other i g b q v :
  (i <> length (q_values q) / B mod 2)%nat -> held K ZB i g (length (q_values q)) ->
  holds K ZB b g q ->
  held K ZB i g (length (q_values q ++ [v])) /\ holds K ZB b g (mkQ (q_values q ++ [v]) (q_roots q) (q_cache q)).
Proof.
  intros Hi (Hpar & Hstart & Hend) (Hs & Hinv & Hc). set (T := length (q_values q)) in *.
  pose proof (div_bounds T B B_pos) as Hb. pose proof B_pos.
  assert (g <> T / B)%nat as Hne by (intros ->; done).
  assert (T < g * B \/ (g + 1) * B <= T)%nat as Hout by nia.
  assert (length (q_values q ++ [v]) = S T)%nat as Hl by (rewrite length_app; simpl; lia).
  rewrite Hl. split.
  - split_and!; [done|lia|]. destruct (decide (T = (g + 2) * B)%nat) as [HT'|]; [|lia].
    exfalso. apply Hi. rewrite HT', Nat.div_mul, <- Hpar by lia.
    replace (g + 2)%nat with (g + 1 * 2)%nat by lia. by rewrite Nat.Div0.mod_add.
  - split_and!; [done|simpl; by rewrite batch_values_snoc_out|done].
Qed.

Lemma applied_of_below g n : (n <= g * K)%nat -> applied_of K g n = 0%nat.
Proof. unfold applied_of. lia. Qed.

(** A batch that is [Fill] takes the value. *)
Lemma current_insert_fill b q v (T := length (q_values q)) (c := (T / B)%nat) :
  holds K ZB b c q -> canonical v -> (c * B < T \/ c < 2)%nat ->
  exists b', (exec! ensure_ready_to_fill (Z.of_nat B); add_to_hash_chain v) b = (Ok tt, b') /\
    holds K ZB b' c (mkQ (q_values q ++ [v]) (q_roots q) (q_cache q)) /\
    held K ZB (c mod 2) c (length (q_values q ++ [v])).
Proof.
  intros (Hs & Hinv & Hc) Hv Hstart. pose proof (div_bounds T B B_pos) as Hb. fold c in Hb.
  assert (length (batch_values K ZB c (q_values q)) < B)%nat as Hlt
    by (rewrite length_batch_values; fold T; lia).
  assert (checked_state b = Ok Fill) as Hst
    by (apply checked_state_of; rewrite (bi_state _ _ _ _ _ Hinv); by rewrite decide_True).
  destruct (add_to_hash_chain_spec K ZB b _ _ v HZB ltac:(lia) Hinv Hlt Hv) as (b' & Hadd & Hinv' & Hs' & Hc').
  exists b'. unfold ensure_ready_to_fill. unfold mbindM at 1 2, mget. unfold mbindM at 1, mlift.
  rewrite Hst. unfold mret. split; [done|]. split.
  - split_and!; simpl; [by rewrite Hs'|by rewrite batch_values_snoc_in|by rewrite Hc'].
  - split_and!; [done|rewrite length_app; simpl; fold T; lia|rewrite length_app; simpl; fold T; nia].
Qed.

(** A batch that is [Inserted] is reused for the next batch of its parity. *)
Lemma current_insert_reuse b g q v (T := length (q_values q)) :
  holds K ZB b g q -> canonical v -> T = ((g + 2) * B)%nat -> Z.of_nat T < 2 ^ 62 ->
  ((g + 1) * K <= q_applied q)%nat -> (q_applied q <= (g + 2) * K)%nat ->
  (forall m u, q_cache q !! m = Some u -> q_applied q <= m < (g + 2) * K)%nat ->
  exists b', (exec! ensure_ready_to_fill (Z.of_nat B); add_to_hash_chain v) b = (Ok tt, b') /\
    holds K ZB b' (g + 2) (mkQ (q_values q ++ [v]) (q_roots q) (q_cache q)) /\
    held K ZB (g mod 2) (g + 2) (length (q_values q ++ [v])).
Proof.
  intros (Hs & Hinv & Hc) Hv HT' Hbig Hap Hap2 Hcache. pose proof B_pos as HBp.
  assert (applied_of K g (q_applied q) = K) as Hm by (unfold applied_of; lia).
  assert (length (batch_values K ZB g (q_values q)) = B) as Hlen
    by (rewrite length_batch_values; fold T; lia).
  assert (checked_state b = Ok Inserted) as Hst.
  { apply checked_state_of. rewrite (bi_state _ _ _ _ _ Hinv), Hm, Hlen. by rewrite !decide_False by lia. }
  pose proof (reset_inv K ZB b _ _ (1 + Z.of_nat ((g + 2) * B)) Hinv HK HZB) as Hr.
  destruct (add_to_hash_chain_spec K ZB _ [] 0 v HZB ltac:(lia) Hr) as (b' & Hadd & Hinv' & Hs' & Hc');
    [simpl; lia|done|].
  exists b'. unfold ensure_ready_to_fill. unfold mbindM at 1 2, mget. unfold mbindM at 1, mlift.
  rewrite Hst. unfold mbindM at 1, umul. rewrite (proj2 (checked_mul_Some _ _ _ (Z.of_nat B * 2))) by (unfold NUM_BATCHES; lia).
  cbn [or_panic]. unfold mbindM at 1.
  rewrite (proj2 (checked_add_Some _ _ _ (1 + Z.of_nat ((g + 2) * B)))) by lia. cbn [ok_or].
  unfold advance_state_to_fill. unfold mbindM at 1, mget. unfold mbindM at 1, mlift.
  rewrite Hst, bool_decide_true by done. unfold mmodify. split; [done|]. split.
  - assert (batch_values K ZB (g + 2) (q_values q ++ [v]) = [v]) as Hvs.
    { rewrite batch_values_snoc_in by (fold T; lia). unfold batch_values. rewrite drop_ge by (fold T; lia).
      by rewrite take_nil. }
    split_and!; simpl.
    + by rewrite Hs'.
    + rewrite Hvs, applied_of_below by done. done.
    + intros z Hz. rewrite Hc'. simpl. rewrite Hc by done. do 2 f_equal.
      destruct (q_cache q !! ((g + 2) * K + z)%nat) eqn:E1; [apply Hcache in E1; lia|].
      destruct (q_cache q !! (g * K + z)%nat) eqn:E2; [apply Hcache in E2; lia|done].
  - rewrite length_app. simpl. fold T. split_and!; [|lia|lia].
    replace (g + 2)%nat with (g + 1 * 2)%nat by lia. by rewrite Nat.Div0.mod_add.
Qed.

(** A batch that is still [Full] refuses the value. *)
Lemma current_insert_full b g q v (T := length (q_values q)) :
  holds K ZB b g q -> ((g + 1) * B <= T)%nat -> (q_applied q < (g + 1) * K)%nat ->
  (exec! ensure_ready_to_fill (Z.of_nat B); add_to_hash_chain v) b = (Err BatchNotReady, b).
Proof.
  intros (Hs & Hinv & Hc) HT' Hap.
  assert (length (batch_values K ZB g (q_values q)) = B) as Hlen
    by (rewrite length_batch_values; fold T; lia).
  assert (checked_state b = Ok Full) as Hst.
  { apply checked_state_of. rewrite (bi_state _ _ _ _ _ Hinv), Hlen, decide_False by lia.
    rewrite decide_True; [done|]. unfold applied_of. lia. }
  unfold ensure_ready_to_fill, mbindM, mget, mlift. by rewrite Hst.
Qed.

Lemma batch_full_state b g q (T := length (q_values q)) :
  holds K ZB b g q -> (g * B <= T <= (g + 1) * B)%nat -> (q_applied q < (g + 1) * K)%nat ->
  checked_state b = Ok (if decide (T = (g + 1) * B)%nat then Full else Fill).
Proof.
  intros (Hs & Hinv & Hc) HT' Hap. apply checked_state_of.
  rewrite (bi_state _ _ _ _ _ Hinv), length_batch_values. fold T.
  destruct (decide (T = (g + 1) * B)%nat) as [Hd|Hd].
  - rewrite decide_False by lia. rewrite decide_True; [done|]. unfold applied_of. lia.
  - by rewrite decide_True by lia.
Qed.

Lemma on_batch_ok {A} (m : M Batch NullifierTreeError A) i b t r b' :
  batches t !! i = Some b -> m b = (r, b') ->
  on_batch (Z.of_nat i) m t = (r, set_batches (<[i := b']> (batches t)) t).
Proof. intros Hb Hm. unfold on_batch. by rewrite Nat2Z.id, Hb, Hm. Qed.

(** The account after a successful insertion. *)
Lemma insert_steps t q v b i b' (T := length (q_values q)) (c := (T / B)%nat) :
  inv K ZB CAP t q -> canonical v -> i = (c mod 2)%nat -> batches t !! i = Some b ->
  Z.of_nat T + 1 < CAP ->
  (exec! ensure_ready_to_fill (Z.of_nat B); add_to_hash_chain v) b = (Ok tt, b') ->
  holds K ZB b' c (mkQ (q_values q ++ [v]) (q_roots q) (q_cache q)) ->
  (q_applied q < (c + 1) * K)%nat ->
  insert_nullifier_into_queue v t
  = (Ok (Z.of_nat T + 1), set_queue_next_index (Z.of_nat T + 2)
       (set_current_batch_index (Z.of_nat (((T + 1) / B) mod 2))
          (set_batches (<[i := b']> (batches t)) t))).
Proof.
  intros Hinv [Hlen Hcan] Hi Hb Hcap Hrun Hholds Hap. pose proof Hinv as [].
  fold T in inv_queue_next0, inv_fits0, inv_applied0, inv_ahead0, inv_current0.
  pose proof (div_bounds T B B_pos) as Hdb. fold c in Hdb.
  assert (i < 2)%nat as Hi2 by (rewrite Hi; apply Nat.mod_upper_bound; lia).
  unfold insert_nullifier_into_queue. rewrite Hcan. unfold mbindM at 1, mget.
  unfold mbindM at 1, mlift, checked_next_queue_index.
  rewrite inv_queue_next0, inv_capacity0, (proj2 (Z.ltb_lt _ _)) by lia.
  unfold mbindM at 1, on_current_batch. rewrite inv_current0, inv_batch_size0.
  fold T. fold c. rewrite <- Hi, (on_batch_ok _ _ _ _ _ _ Hb Hrun).
  set (t1 := set_batches (<[i := b']> (batches t)) t).
  unfold increment_currently_processing_batch_index_if_full. unfold mbindM at 1 2, mget.
  assert (get_current_batch t1 = Ok b') as Hcur.
  { unfold get_current_batch, get_batch. simpl. rewrite inv_current0. fold T. fold c.
    rewrite <- Hi, Nat2Z.id, list_lookup_insert_eq by lia. done. }
  unfold mbindM at 1, mlift. rewrite Hcur. unfold mbindM at 1.
  rewrite (batch_full_state b' c _ Hholds); simpl; rewrite ?length_app; simpl; fold T; [|lia|done].
  assert (((T + 1) / B) mod 2 = if decide (T + 1 = (c + 1) * B)%nat then (c + 1) mod 2 else i)%nat as ->.
  { case_decide as Hd; [rewrite Hd, Nat.div_mul by lia; done|].
    replace ((T + 1) / B)%nat with c; [done|]. apply Nat.div_unique with (T + 1 - c * B)%nat; lia. }
  unfold increment_queue_next_index. destruct (decide (T + 1 = (c + 1) * B)%nat).
  - rewrite decide_True by done. unfold mbindM at 1. rewrite inv_current0. fold T. fold c. rewrite <- Hi.
    rewrite uadd_eq by lia. unfold mbindM at 1 2, mmodify, mget. simpl.
    unfold mbindM at 1. rewrite inv_queue_next0, uadd_eq by lia. unfold mret.
    f_equal; [f_equal; lia|]. f_equal; [lia|]. f_equal. unfold NUM_BATCHES.
    rewrite Hi, !Nat2Z.inj_mod, Nat2Z.inj_add. change (Z.of_nat 2) with 2. by rewrite Zplus_mod_idemp_l.
  - rewrite decide_False by done. unfold mret, mbindM, mget, mmodify. simpl.
    rewrite inv_queue_next0, uadd_eq by lia. f_equal; [f_equal; lia|]. f_equal; [lia|].
    unfold t1. destruct t; simpl in *. rewrite inv_current0. fold T. fold c. by rewrite <- Hi.
Qed.

Lemma inv_after_insert t q v b' (T := length (q_values q)) (c := (T / B)%nat) :
  inv K ZB CAP t q -> canonical v -> Z.of_nat T + 1 < CAP -> (T < (q_applied q / K + 2) * B)%nat ->
  holds K ZB b' c (mkQ (q_values q ++ [v]) (q_roots q) (q_cache q)) ->
  held K ZB (c mod 2) c (length (q_values q ++ [v])) ->
  inv K ZB CAP
    (set_queue_next_index (Z.of_nat T + 2)
       (set_current_batch_index (Z.of_nat (((T + 1) / B) mod 2))
          (set_batches (<[(c mod 2)%nat := b']> (batches t)) t)))
    (mkQ (q_values q ++ [v]) (q_roots q) (q_cache q)).
Proof.
  intros [] Hv Hcap Hlt Hholds Hheld.
  assert (length (q_values q ++ [v]) = T + 1)%nat as Hlen by (rewrite length_app; done).
  fold T in inv_queue_next0, inv_fits0, inv_applied0, inv_ahead0, inv_current0.
  split; simpl; rewrite ?Hlen; change (q_applied (mkQ (q_values q ++ [v]) (q_roots q) (q_cache q)))
    with (q_applied q); rewrite ?length_insert; try done; try lia.
  - apply Forall_app_2; auto.
  - intros i Hi. destruct (decide (i = c mod 2)%nat) as [->|Hne].
    + exists b', c. rewrite <- Hlen. split_and!; [|done|done].
      apply list_lookup_insert_eq. rewrite inv_batches_len0. done.
    + destruct (inv_batches0 i Hi) as (b & g & Hb & Hh & Hho). exists b, g.
      rewrite list_lookup_insert_ne by done. split; [done|]. rewrite <- Hlen.
      by apply (holds_other i g b q v).
  - intros m old new Hm. apply inv_cache0 in Hm as [? ?]. split; [done|]. by apply verified_step_snoc.
  - intros. apply verified_step_snoc. by apply inv_verified0.
Qed.

Lemma insert_refines_lemma t q v :
  inv K ZB CAP t q -> is_bytes 32 v ->
  match spec_insert K ZB CAP v q with
  | Ok (i, q') => exists t', insert_nullifier_into_queue v t = (Ok i, t') /\ inv K ZB CAP t' q'
  | Err e => insert_nullifier_into_queue v t = (Err e, t)
  | Panic => False
  end.
Proof.
  intros Hinv Hv. pose proof Hinv as []. set (T := length (q_values q)) in *.
  unfold spec_insert. fold T. destruct (is_canonical_bn254_scalar_be v) eqn:Hcan.
  2:{ unfold insert_nullifier_into_queue. by rewrite Hcan. }
  destruct (Z.of_nat T + 1 <? CAP) eqn:Hcap; breflect.
  2:{ unfold insert_nullifier_into_queue, mbindM, mget, mlift, checked_next_queue_index.
      rewrite Hcan, inv_queue_next0, inv_capacity0, (proj2 (Z.ltb_ge _ _)) by lia. done. }
  pose proof (div_bounds T B B_pos) as Hb. set (c := (T / B)%nat) in *.
  pose proof (div_bounds (q_applied q) K HK) as Ha. set (a := (q_applied q / K)%nat) in *.
  assert (c mod 2 < 2)%nat as Hc2 by (apply Nat.mod_upper_bound; lia).
  destruct (inv_batches0 _ Hc2) as (b & g & Hbg & Hheld & Hholds).
  pose proof (held_current g T Hheld) as Hcase. fold c in Hcase. pose proof B_pos.
  case_bool_decide as Hroom.
  - assert (c * B < (a + 2) * B)%nat as Hca by lia. apply Nat.mul_lt_mono_pos_r in Hca; [|done].
    assert (q_applied q < (c + 1) * K)%nat as Hap by (apply (zkp_below _ (c + 1) T); lia).
    assert (q_applied q <= c * K \/ c * B < T)%nat as Hap2.
    { destruct (decide (T = c * B)%nat); [left|right; lia].
      apply (Nat.mul_le_mono_pos_r _ _ ZB HZB). lia. }
    assert (g + 2 = c -> (g + 1) * K <= q_applied q)%nat as Hga.
    { intros Hg. assert ((g + 1) * K <= a * K)%nat by (apply Nat.mul_le_mono_r; lia). lia. }
    destruct Hcase as [[-> Hst]|[Hg HTc]].
    + destruct (current_insert_fill b q v Hholds (conj Hv Hcan) Hst) as (b' & Hrun & Hh & Hd).
      eexists. split; [by eapply insert_steps|by apply inv_after_insert].
    + destruct (current_insert_reuse b g q v Hholds (conj Hv Hcan)) as (b' & Hrun & Hh & Hd);
        [fold T; by rewrite Hg|fold T; lia|by apply Hga|rewrite Hg; lia| |].
      { intros m [old new] Hm. apply inv_cache0 in Hm as [? [Hm _]]. fold T in Hm.
        split; [lia|]. rewrite Hg. apply (zkp_below m c T); lia. }
      assert (g mod 2 = c mod 2)%nat as Hgm by apply Hheld. rewrite Hgm, Hg in Hd. rewrite Hg in Hh.
      eexists. split; [apply (insert_steps t q v b (c mod 2) b' Hinv (conj Hv Hcan) eq_refl Hbg Hcap Hrun Hh Hap)|by apply inv_after_insert].
  - assert (T = (a + 2) * B)%nat as HTa by lia.
    assert (c = a + 2)%nat as Hca by (unfold c; rewrite HTa; by apply Nat.div_mul; lia).
    assert (g + 2 = c /\ T = c * B)%nat as [Hg HTc] by (destruct Hcase as [[_ ?]|?]; [rewrite Hca in *; lia|done]).
    assert (g = a) as -> by lia.
    pose proof (current_insert_full b a q v Hholds) as Hrun. fold T in Hrun.
    unfold insert_nullifier_into_queue, mbindM at 1, mget. rewrite Hcan. unfold mbindM at 1, mlift, checked_next_queue_index.
    rewrite inv_queue_next0, inv_capacity0, (proj2 (Z.ltb_lt _ _)) by lia.
    unfold mbindM at 1, on_current_batch. rewrite inv_current0, inv_batch_size0.
    rewrite (on_batch_ok _ _ _ _ _ _ Hbg (Hrun ltac:(lia) ltac:(lia))).
    rewrite list_insert_id by done. by destruct t.
Qed.

(** ** Applying cached updates *)

Lemma ring_latest h rs : root_ring K h rs ->
  (current_index h + Z.of_nat K - 1) mod Z.of_nat K = Z.of_nat ((length rs - 1) mod K).
Proof.
  intros (_ & Hpos & -> & _). rewrite !Nat2Z.inj_mod, <- Z.add_sub_assoc, Zplus_mod_idemp_l.
  replace (Z.of_nat (length rs) + (Z.of_nat K - 1)) with (Z.of_nat (length rs - 1) + 1 * Z.of_nat K) by lia.
  apply Z.mod_add. lia.
Qed.

Lemma get_root_spec t q : inv K ZB CAP t q -> get_root t = last (q_roots q).
Proof.
  intros []. pose proof (ring_latest _ _ inv_roots0) as Hlat.
  destruct inv_roots0 as (Hl & Hpos & Hcur & Hat & _).
  unfold get_root, latest_root_index. rewrite Hl, (proj2 (Z.eqb_neq _ _)), Hlat by lia.
  rewrite Nat2Z.id, last_lookup. replace (Nat.pred (length (q_roots q))) with (length (q_roots q) - 1)%nat by lia.
  destruct (lookup_lt_is_Some_2 (q_roots q) (length (q_roots q) - 1)) as [r Hr]; [lia|].
  rewrite Hr. apply Hat; [done|lia].
Qed.

Lemma pending_batch t q : inv K ZB CAP t q ->
  exists b g, batches t !! (q_applied q / K mod 2)%nat = Some b /\ get_pending_batch t = Ok b /\
    held K ZB (q_applied q / K mod 2) g (length (q_values q)) /\ holds K ZB b g q /\
    (g = q_applied q / K \/
     (g + 2 = q_applied q / K /\ length (q_values q) = q_applied q / K * B))%nat.
Proof.
  intros []. destruct (inv_batches0 (q_applied q / K mod 2)%nat) as (b & g & Hb & Hh & Hho);
    [apply Nat.mod_upper_bound; lia|].
  exists b, g. unfold get_pending_batch, get_batch. rewrite inv_pending0, Nat2Z.id, Hb.
  split_and!; [done..|]. by apply held_pending.
Qed.

(** The slot the loop reads is the update of the next ZKP batch. *)
Lemma pending_cached t q b g :
  inv K ZB CAP t q -> holds K ZB b g q ->
  (g = q_applied q / K \/
     (g + 2 = q_applied q / K /\ length (q_values q) = q_applied q / K * B))%nat ->
  cached_tree_update b (Z.to_nat (num_inserted_zkp_batches b))
  = match q_cache q !! q_applied q with
    | Some (old, new) => Some (mkCachedUpdate old new 1)
    | None => None
    end /\
  (q_cache q !! q_applied q <> None -> g = q_applied q / K)%nat.
Proof.
  intros [] (Hs & Hbi & Hc) Hg. pose proof (div_bounds (q_applied q) K HK) as Ha.
  set (n := q_applied q) in *. rewrite (bi_applied _ _ _ _ _ Hbi), Nat2Z.id. unfold cached_tree_update.
  destruct Hg as [Hga|[Hg HTc]].
  - assert (applied_of K g n = n - g * K)%nat as -> by (unfold applied_of; rewrite Hga; lia).
    rewrite Hc by (rewrite Hga; lia). replace (g * K + (n - g * K))%nat with n by (rewrite Hga; lia).
    split; [|done]. by destruct (q_cache q !! n) as [[old new]|].
  - assert (applied_of K g n = K) as Hk.
    { unfold applied_of. assert ((g + 2) * K = n / K * K)%nat by (by rewrite Hg). lia. }
    rewrite Hk, (proj2 (lookup_ge_None _ _)) by (rewrite (bi_cached _ _ _ _ _ Hbi); lia).
    destruct (q_cache q !! n) as [[old new]|] eqn:Hn; [exfalso|done].
    apply inv_cache0 in Hn as [_ [Hn _]].
    assert (n / K * K * ZB <= n * ZB)%nat by (apply Nat.mul_le_mono_r; lia). lia.
Qed.

(** Replacing the pending batch, with a cache change inside batch [a]. *)
Lemma batches_update t q q' b' a :
  inv K ZB CAP t q -> q_values q' = q_values q -> a = (q_applied q / K)%nat ->
  held K ZB (a mod 2) a (length (q_values q)) -> holds K ZB b' a q' ->
  (forall g, g <> a -> applied_of K g (q_applied q') = applied_of K g (q_applied q)) ->
  (forall m, (m < a * K \/ (a + 1) * K <= m)%nat -> q_cache q' !! m = q_cache q !! m) ->
  forall i, (i < 2)%nat -> exists b g,
    <[(a mod 2)%nat := b']> (batches t) !! i = Some b /\ held K ZB i g (length (q_values q')) /\ holds K ZB b g q'.
Proof.
  intros [] Hv Ha Hheld Hholds Hap Hcache i Hi. rewrite Hv.
  destruct (decide (i = a mod 2)%nat) as [->|Hne].
  - exists b', a. split_and!; [|done|done]. apply list_lookup_insert_eq. rewrite inv_batches_len0. done.
  - destruct (inv_batches0 i Hi) as (b & g & Hb & Hh & Hs & Hbi & Hc). exists b, g.
    rewrite list_lookup_insert_ne by done. split_and!; [done..|]. split_and!; [done| |].
    + rewrite Hv, Hap; [done|]. intros ->. apply Hne. symmetry. apply Hh.
    + intros z Hz. rewrite Hcache; [by apply Hc|].
      assert (g <> a) by (intros ->; apply Hne; symmetry; apply Hh).
      destruct (decide (g < a)%nat); [left|right].
      * assert ((g + 1) * K <= a * K)%nat by (apply Nat.mul_le_mono_r; lia). lia.
      * assert ((a + 1) * K <= g * K)%nat by (apply Nat.mul_le_mono_r; lia). lia.
Qed.

(** Writing one cache slot of the pending batch. *)
Lemma write_cache_slot t q b z cache' (a := (q_applied q / K)%nat) :
  inv K ZB CAP t q -> batches t !! (a mod 2)%nat = Some b -> holds K ZB b a q ->
  held K ZB (a mod 2) a (length (q_values q)) -> (z < K)%nat ->
  (forall m, m <> (a * K + z)%nat -> cache' !! m = q_cache q !! m) ->
  (forall m old new, cache' !! m = Some (old, new) ->
     (q_applied q <= m < (a + 1) * K)%nat /\ verified_step ZB (q_values q) m old new) ->
  exists t', on_pending_batch (cache_tree_update z (cache_slot (cache' !! (a * K + z)%nat))) t = (Ok tt, t') /\
    inv K ZB CAP t' (mkQ (q_values q) (q_roots q) cache').
Proof.
  intros Hinv Hb (Hs & Hbi & Hc) Hheld Hz Hother Hok. pose proof Hinv as [].
  destruct (cache_tree_update_spec K ZB b _ _ z (cache_slot (cache' !! (a * K + z)%nat)) Hbi Hz)
    as (b' & Hrun & Hbi' & Hs' & Hc').
  eexists. split.
  - unfold on_pending_batch. rewrite inv_pending0. by apply (on_batch_ok _ _ b).
  - split; simpl; rewrite ?length_insert; try done.
    apply (batches_update t q (mkQ (q_values q) (q_roots q) cache') b' a); try done.
    + split_and!; [by rewrite Hs'|done|]. simpl. intros z' Hz'. rewrite Hc'.
      destruct (decide (z' = z)) as [->|Hne].
      * apply list_lookup_insert_eq. by rewrite (bi_cached _ _ _ _ _ Hbi).
      * rewrite list_lookup_insert_ne, Hc, Hother by (done || lia). done.
    + simpl. intros m Hm. apply Hother. lia.
Qed.

Lemma evict_spec t q b old new (a := (q_applied q / K)%nat) :
  inv K ZB CAP t q -> batches t !! (a mod 2)%nat = Some b -> holds K ZB b a q ->
  held K ZB (a mod 2) a (length (q_values q)) -> q_cache q !! q_applied q = Some (old, new) ->
  exists t', on_pending_batch (evict_cached_tree_update (q_applied q - a * K)) t = (Ok tt, t') /\
    inv K ZB CAP t' (mkQ (q_values q) (q_roots q) (delete (q_applied q) (q_cache q))).
Proof.
  intros Hinv Hb Hh Hheld Hn. pose proof (div_bounds (q_applied q) K HK) as Ha. fold a in Ha.
  assert (a * K + (q_applied q - a * K) = q_applied q)%nat as He by lia.
  destruct (write_cache_slot t q b (q_applied q - a * K) (delete (q_applied q) (q_cache q)))
    as (t' & Ht & Hi); try done; fold a; rewrite ?He.
  - lia.
  - intros m Hm. by rewrite lookup_delete_ne.
  - intros m o w Hm. apply lookup_delete_Some in Hm as [? Hm]. by apply (inv_cache _ _ _ _ _ Hinv) in Hm.
  - exists t'. split; [|done]. fold a in Ht. rewrite He, lookup_delete_eq in Ht. done.
Qed.

(** Appending a root to the ring. *)
Lemma append_root_spec t q w : inv K ZB CAP t q ->
  exists h, (forall t', root_history t' = root_history t ->
      append_root w t' = (Ok tt, set_root_history h t')) /\ root_ring K h (q_roots q ++ [w]).
Proof.
  intros []. destruct inv_roots0 as (Hl & Hpos & Hcur & Hat & Hz). set (len := length (q_roots q)) in *.
  pose proof (Nat.mod_upper_bound len K ltac:(lia)).
  destruct (lookup_lt_is_Some_2 (roots (root_history t)) (len mod K)%nat) as [r Hr]; [lia|].
  eexists. split; [intros t' Ht'; unfold append_root; rewrite Ht', Hcur, Nat2Z.id, Hr; reflexivity|].
  assert (length (q_roots q ++ [w]) = S len) as Hlen by (rewrite length_app; simpl; lia).
  unfold root_ring. rewrite Hlen. simpl. rewrite length_insert. split_and!; [done|lia| | |].
  - rewrite Hl, !Nat2Z.inj_mod, Zplus_mod_idemp_l. f_equal. lia.
  - intros j r' Hj Hge. apply lookup_snoc_Some in Hj as [[Hj Hr']|[-> <-]].
    + fold len in Hj. rewrite list_lookup_insert_ne; [apply Hat; [done|lia]|].
      intros Heq. pose proof (Nat.div_mod_eq j K). pose proof (Nat.div_mod_eq len K).
      assert (j / K < len / K)%nat by nia. nia.
    + fold len. apply list_lookup_insert_eq. lia.
  - intros i Hi. rewrite list_lookup_insert_ne; [apply Hz; lia|].
    rewrite Nat.mod_small; lia.
Qed.

Lemma get_root_index_ring t h rs :
  root_ring K h rs -> get_root_index (set_root_history h t) = Z.of_nat ((length rs - 1) mod K) mod 2 ^ 32.
Proof.
  intros Hr. pose proof (ring_latest _ _ Hr) as Hlat. destruct Hr as (Hl & _).
  unfold get_root_index, latest_root_index. simpl. by rewrite Hl, (proj2 (Z.eqb_neq _ _)), Hlat by lia.
Qed.

(** The pending batch after one applied update. *)
Lemma pending_batch_apply q b old new (a := (q_applied q / K)%nat) (n := q_applied q) :
  holds K ZB b a q -> verified_step ZB (q_values q) n old new -> (0 < length (q_roots q))%nat ->
  exists s b', (do! s <- mark_as_inserted_in_merkle_tree;
                exec! clear_cached_tree_update (n - a * K); mret s) b = (Ok s, b') /\
    (s = Inserted <-> S n = ((a + 1) * K)%nat) /\
    holds K ZB b' a (mkQ (q_values q) (q_roots q ++ [new]) (delete n (q_cache q))).
Proof.
  intros (Hs & Hbi & Hc) [Hm _] Hr. pose proof (div_bounds n K HK) as Ha. change (n / K)%nat with a in Ha.
  set (z := (n - a * K)%nat). assert (n = a * K + z /\ z < K)%nat as [Hnz Hz] by (unfold z; lia).
  assert (applied_of K a n = z) as Hap by (unfold applied_of, z; lia). change (q_applied q) with n in Hbi. rewrite Hap in Hbi.
  destruct (mark_as_inserted_spec K ZB b _ z HZB ltac:(lia) Hbi) as (b1 & Hmark & Hbi1 & Hs1 & Hc1 & _).
  { rewrite length_batch_values. apply Nat.div_le_lower_bound; [lia|].
    rewrite Hnz in Hm. unfold z in *. nia. }
  destruct (clear_cached_spec K ZB b1 _ _ z Hbi1 ltac:(lia) ltac:(lia)) as (b2 & Hclear & Hbi2 & Hs2 & Hc2).
  eexists _, b2. split; [unfold mbindM; rewrite Hmark, Hclear; reflexivity|]. split.
  - assert (S n = (a + 1) * K <-> S z = K)%nat as -> by lia.
    repeat case_decide; split; (done || lia).
  - split_and!; [by rewrite Hs2, Hs1| |].
    + simpl. replace (applied_of _ _ _) with (S z); [done|].
      unfold applied_of, q_applied. simpl. rewrite length_app. simpl.
      unfold n, q_applied in *. lia.
    + simpl. intros z' Hz'. rewrite Hc2, Hc1. destruct (decide (z' = z)) as [->|Hne].
      * rewrite list_lookup_insert_eq by (rewrite (bi_cached _ _ _ _ _ Hbi); lia).
        rewrite <- Hnz, lookup_delete_eq. done.
      * rewrite list_lookup_insert_ne, Hc by (done || lia). rewrite lookup_delete_ne by lia. done.
Qed.

Lemma q_applied_snoc q w cache : (0 < length (q_roots q))%nat ->
  q_applied (mkQ (q_values q) (q_roots q ++ [w]) cache) = S (q_applied q).
Proof. intros. unfold q_applied. simpl. rewrite length_app. simpl. lia. Qed.

Lemma div_succ n : (S n / K = if decide (S n = (n / K + 1) * K) then n / K + 1 else n / K)%nat.
Proof.
  pose proof (div_bounds n K HK). case_decide as Hd.
  - rewrite Hd at 1. apply Nat.div_mul. lia.
  - symmetry. apply Nat.div_unique with (S n - n / K * K)%nat; nia.
Qed.

Lemma applied_of_succ g n : g <> (n / K)%nat -> applied_of K g (S n) = applied_of K g n.
Proof.
  intros Hg. pose proof (div_bounds n K HK). unfold applied_of.
  destruct (decide (g < n / K)%nat).
  - assert ((g + 1) * K <= n / K * K)%nat by (apply Nat.mul_le_mono_r; lia). lia.
  - assert ((n / K + 1) * K <= g * K)%nat by (apply Nat.mul_le_mono_r; lia). lia.
Qed.

(** The watermark moves with each completed batch. *)
Lemma watermark_succ n :
  watermark K ZB (S n) = if decide (S n = (n / K + 1) * K)%nat
    then Z.max (watermark K ZB n) (1 + Z.of_nat (n / K * B)) else watermark K ZB n.
Proof.
  unfold watermark. rewrite div_succ. set (a := (n / K)%nat).
  destruct (decide (S n = (a + 1) * K)%nat); [|done].
  rewrite decide_False by lia. replace (a + 1 - 1)%nat with a by lia.
  case_decide as Ha; [rewrite Ha; lia|]. assert ((a - 1) * B <= a * B)%nat by (apply Nat.mul_le_mono_r; lia). lia.
Qed.

(** The invariant after one applied update. *)
Lemma inv_after_apply t q b' h old new n a :
  n = q_applied q -> a = (n / K)%nat -> inv K ZB CAP t q -> held K ZB (a mod 2) a (length (q_values q)) ->
  q_cache q !! n = Some (old, new) -> last (q_roots q) = Some old ->
  root_ring K h (q_roots q ++ [new]) ->
  holds K ZB b' a (mkQ (q_values q) (q_roots q ++ [new]) (delete n (q_cache q))) ->
  inv K ZB CAP
    (mkNullifierTree (Z.of_nat (S n)) (1 + Z.of_nat (S n * ZB)) (height t)
       (currently_processing_batch_index t) (capacity t) (tree_batch_size t) (tree_zkp_batch_size t)
       (Z.of_nat ((S n / K) mod 2)) (queue_next_index t) (watermark K ZB (S n)) h
       (<[(a mod 2)%nat := b']> (batches t)))
    (mkQ (q_values q) (q_roots q ++ [new]) (delete n (q_cache q))).
Proof.
  intros Hn0 Ha0 Hinv Hheld Hn Hlast Hring Hholds. pose proof Hinv as [].
  rewrite <- Hn0, <- ?Ha0 in *.
  assert (0 < length (q_roots q))%nat as Hpos by (destruct inv_roots0 as (_ & ? & _); done).
  pose proof (inv_cache0 n old new Hn) as [Hrange Hver]. pose proof (div_succ n) as Hds.
  pose proof (div_bounds n K HK) as Ha. rewrite <- Ha0 in *.
  assert (a <= S n / K)%nat as Hle by (rewrite Hds; case_decide; lia).
  split; rewrite ?q_applied_snoc, <- ?Hn0 by done; cbn [q_values q_roots q_cache]; simpl;
    rewrite ?length_insert; try done.
  - destruct Hver as [Hver _]. lia.
  - assert ((a + 2) * B <= (S n / K + 2) * B)%nat by (apply Nat.mul_le_mono_r; lia). lia.
  - by destruct (q_roots q).
  - apply (batches_update t q (mkQ (q_values q) (q_roots q ++ [new]) (delete n (q_cache q))) b' a); try done.
    + by rewrite <- Hn0.
    + intros g Hg. rewrite q_applied_snoc, <- Hn0 by done. apply applied_of_succ. by rewrite <- Ha0.
    + intros m Hm. simpl. rewrite lookup_delete_ne; [done|]. lia.
  - intros m o w Hm. apply lookup_delete_Some in Hm as [Hne Hm]. apply inv_cache0 in Hm as [? ?].
    split; [|done]. assert ((a + 1) * K <= (S n / K + 1) * K)%nat by (apply Nat.mul_le_mono_r; lia). lia.
  - intros j o w Ho Hw. apply lookup_snoc_Some in Hw as [[Hj Hw]|[Hj <-]].
    + apply lookup_snoc_Some in Ho as [[_ Ho]|[Ho _]]; [by apply inv_verified0|lia].
    + rewrite last_lookup in Hlast. replace (Nat.pred (length (q_roots q))) with j in Hlast by lia.
      apply lookup_snoc_Some in Ho as [[_ Ho]|[Ho _]]; [|lia].
      rewrite Hlast in Ho. simplify_eq. by replace j with (q_applied q) by (unfold q_applied; lia).
Qed.

(** One applied update. *)
Lemma apply_step t q b old new n a :
  n = q_applied q -> a = (n / K)%nat -> inv K ZB CAP t q ->
  batches t !! (a mod 2)%nat = Some b -> holds K ZB b a q ->
  held K ZB (a mod 2) a (length (q_values q)) ->
  q_cache q !! n = Some (old, new) -> last (q_roots q) = Some old ->
  exists t', apply_cached_update (mkCachedUpdate old new 1) (n - a * K) t
      = (Ok (1 + Z.of_nat (n * ZB), Z.of_nat (S n), Z.of_nat (S n mod K) mod 2 ^ 32), t') /\
    inv K ZB CAP t' (mkQ (q_values q) (q_roots q ++ [new]) (delete n (q_cache q))).
Proof.
  intros Hn0 Ha0 Hinv Hb Hholds Hheld Hn Hlast. pose proof Hinv as [].
  destruct (append_root_spec t q new Hinv) as (h & Happ & Hring).
  pose proof (fun t' => get_root_index_ring t' h _ Hring) as Hidx.
  assert (0 < length (q_roots q))%nat as Hpos by (destruct inv_roots0 as (_ & ? & _); done).
  replace (length (q_roots q ++ [new]) - 1)%nat with (S n) in Hidx
    by (rewrite length_app, Hn0; unfold q_applied; simpl; lia).
  pose proof (inv_cache0 n old new Hn) as [Hrange Hver].
  destruct (pending_batch_apply q b old new) as (s & b' & Hrun & Hs & Hholds');
    rewrite <- ?Hn0, <- ?Ha0; [done..|]. rewrite <- ?Hn0, <- ?Ha0 in *.
  eexists. split; [|by apply (inv_after_apply t q b' h old new n a)].
  destruct Hver as [Hver _]. unfold apply_cached_update. unfold mbindM at 1, mget.
  unfold mbindM at 1, mlift, check_tree_is_full, tree_is_full.
  rewrite inv_next0, inv_zkp_batch_size0, inv_capacity0.
  rewrite (proj2 (checked_add_Some _ _ _ (1 + Z.of_nat (S n * ZB)))) by lia.
  rewrite (proj2 (Z.ltb_ge _ _)) by lia. cbn [negb].
  unfold mbindM at 1, increment_merkle_tree_next_index. unfold mbindM at 1, mget. unfold mbindM at 1.
  rewrite inv_next0, uadd_eq by lia. unfold mmodify. unfold mbindM at 1. rewrite inv_seq0, uadd_eq by lia.
  unfold mlift. cbv beta iota zeta. cbn [new_root].
  do 2 (unfold mbindM at 1; cbv beta iota zeta). rewrite Happ by done. unfold mbindM at 1. rewrite Hidx.
  set (t1 := set_root_history h _). unfold mbindM at 1, on_pending_batch.
  change (pending_batch_index t1) with (pending_batch_index t). rewrite inv_pending0.
  rewrite (on_batch_ok _ _ b t1 _ _ Hb Hrun). unfold advance_nullifier_pda_close_watermark.
  assert (get_pending_batch (set_batches (<[(a mod 2)%nat := b']> (batches t1)) t1) = Ok b') as Hpb.
  { unfold get_pending_batch, get_batch. simpl. rewrite inv_pending0, Nat2Z.id, list_lookup_insert_eq; [done|].
    rewrite inv_batches_len0. apply Nat.mod_upper_bound. lia. }
  pose proof (Nat.mod_upper_bound a 2 ltac:(lia)) as Ha2.
  pose proof (watermark_succ n) as Hw. pose proof (div_succ n) as Hds. rewrite <- Ha0 in *.
  unfold increment_pending_batch_index_if_inserted. destruct (decide (s = Inserted)) as [Hsi|Hsi].
  - rewrite decide_True in Hw by tauto. rewrite decide_True in Hds by tauto. unfold mbindM at 1 2, mget. unfold mbindM at 1.
    rewrite Hpb. unfold mbindM at 1 2. unfold mbindM at 1. simpl. rewrite inv_pending0, uadd_eq by lia.
    unfold mret. f_equal; [repeat f_equal; lia|]. unfold t1, set_close_before_index. simpl.
    destruct Hholds' as [Hst _]. rewrite Hst, inv_close0, Hw, Hds.
    assert ((Z.of_nat (a mod 2) + 1) mod NUM_BATCHES = Z.of_nat ((a + 1) mod 2)) as Hmod.
    { rewrite !Nat2Z.inj_mod, Nat2Z.inj_add. apply Zplus_mod_idemp_l. }
    unfold set_pending_batch_index. simpl. f_equal; try lia; done.
  - rewrite decide_False in Hw by tauto. rewrite decide_False in Hds by tauto. unfold mbindM, mret. f_equal; [repeat f_equal; lia|].
    unfold t1, set_batches. simpl. rewrite inv_close0, inv_pending0, Hw, Hds. f_equal; try lia; done.
Qed.

Lemma record_update_spec pubkey n0 q w n :
  n = q_applied q -> (n0 <= n)%nat -> Z.of_nat n - Z.of_nat n0 + 1 < 2 ^ 32 -> (0 < length (q_roots q))%nat ->
  exists ev, record_update (event_of K ZB pubkey n0 q) pubkey (Z.of_nat ZB)
      (1 + Z.of_nat (n * ZB), Z.of_nat (S n), Z.of_nat (S n mod K) mod 2 ^ 32)
      (Z.of_nat (n - n / K * K)) w = Ok ev /\
    Some ev = event_of K ZB pubkey n0 (mkQ (q_values q) (q_roots q ++ [w]) (delete n (q_cache q))).
Proof.
  intros Hn Hle Hb Hpos. unfold event_of. rewrite q_applied_snoc by done. rewrite <- Hn.
  rewrite (decide_False (P := S n = n0)) by lia. cbn [q_roots]. rewrite last_snoc.
  destruct (decide (n = n0)) as [->|Hne]; unfold record_update; cbn [default from_option id num_update].
  - rewrite uadd_eq by lia. eexists. split; [reflexivity|]. simpl. f_equal. f_equal; lia.
  - rewrite uadd_eq by lia. eexists. split; [reflexivity|]. simpl. f_equal. f_equal; lia.
Qed.

Context (HK32 : Z.of_nat K < 2 ^ 32).

Lemma apply_loop_spec fuel pubkey t q n0 u :
  inv K ZB CAP t q -> (n0 <= q_applied q)%nat -> (u <= n0 + K)%nat -> (u - q_applied q < fuel)%nat ->
  (forall m x, q_cache q !! m = Some x -> m < u)%nat ->
  exists t' q', apply_loop fuel pubkey (event_of K ZB pubkey n0 q) t = (Ok (event_of K ZB pubkey n0 q'), t') /\
    inv K ZB CAP t' q' /\ applies q q'.
Proof.
  revert t q. induction fuel as [|fuel IH]; intros t q Hinv Hn0 Hu Hfuel Hkeys; [lia|].
  destruct (pending_batch t q Hinv) as (b & g & Hb & Hpb & Hheld & Hholds & Hg).
  destruct (pending_cached t q b g Hinv Hholds Hg) as [Hcached Hga].
  cbn [apply_loop]. unfold mbindM at 1, mget. unfold mbindM at 1, mlift. rewrite Hpb, Hcached.
  destruct (q_cache q !! q_applied q) as [[old new]|] eqn:Hn.
  2:{ exists t, q. split; [done|]. split; [done|]. by constructor. }
  specialize (Hga ltac:(done)). subst g. pose proof Hinv as [].
  assert (0 < length (q_roots q))%nat as Hpos by (destruct inv_roots0 as (_ & ? & _); done).
  pose proof (Hkeys _ _ Hn) as Hnu. rewrite (get_root_spec t q Hinv).
  destruct (last (q_roots q)) as [cur|] eqn:Hlast.
  2:{ apply last_None in Hlast. rewrite Hlast in Hpos. simpl in Hpos. lia. }
  assert (num_inserted_zkp_batches b = Z.of_nat (q_applied q - q_applied q / K * K)) as Hz.
  { destruct Hholds as (_ & Hbi & _). rewrite (bi_applied _ _ _ _ _ Hbi). unfold applied_of.
    pose proof (div_bounds (q_applied q) K HK). f_equal. lia. }
  rewrite Hz, Nat2Z.id. unfold mbindM at 1. cbn [ok_or old_root]. case_bool_decide as Hold; cbn [negb].
  - subst cur. destruct (apply_step t q b old new _ _ eq_refl eq_refl Hinv Hb Hholds Hheld Hn Hlast)
      as (t1 & Hrun & Hinv1).
    unfold mbindM at 1. rewrite Hrun. unfold mbindM at 1. cbn [new_root]. rewrite inv_zkp_batch_size0.
    destruct (record_update_spec pubkey n0 q new (q_applied q)) as (ev & -> & Hev); [done|done|lia|done|].
    rewrite Hev. destruct (IH _ _ Hinv1) as (t' & q' & -> & Hinv' & Happ).
    + rewrite q_applied_snoc by done. lia.
    + done.
    + rewrite q_applied_snoc by done. lia.
    + simpl. intros m x Hm. apply lookup_delete_Some in Hm as [_ Hm]. by eapply Hkeys.
    + exists t', q'. split; [done|]. split; [done|]. by eapply applies_step.
  - destruct (evict_spec t q b old new Hinv Hb Hholds Hheld Hn) as (t1 & Hrun & Hinv1).
    unfold mbindM. rewrite Hrun. eexists t1, (mkQ _ _ _). split; [reflexivity|]. split; [exact Hinv1|].
    eapply applies_evict; [done|]. rewrite Hlast. congruence.
Qed.

(** ** Verifying and caching a proof *)

Lemma index_field_canonical v : 0 <= v < 2 ^ 64 -> canonical (replicate 24 x00 ++ be_bytes 8 v).
Proof.
  intros Hv. assert (is_bytes 32 (replicate 24 x00 ++ be_bytes 8 v)) as Hl
    by (unfold is_bytes; rewrite length_app, length_replicate, length_be_bytes; done).
  split; [done|]. apply is_canonical_spec; [done|].
  rewrite be_val_zeros_app, be_val_be_bytes by done. eapply Z.lt_trans; [apply Hv|]. done.
Qed.

(** What the pending batch answers for a ZKP batch index. *)
Lemma pending_target t q b g idx (a := (q_applied q / K)%nat) :
  inv K ZB CAP t q -> held K ZB (a mod 2) g (length (q_values q)) -> holds K ZB b g q ->
  (g = a \/ (g + 2 = a /\ length (q_values q) = a * B))%nat ->
  match spec_target K ZB idx q with
  | Err e => (e = ZkpBatchIndexOutOfRange /\ hash_chain b idx = None) \/
      (e = HashChainNotReady /\ is_Some (hash_chain b idx) /\ num_full_zkp_batches b <= Z.of_nat idx)
  | Ok None => is_Some (hash_chain b idx) /\ Z.of_nat idx < num_full_zkp_batches b /\
      Z.of_nat idx < num_inserted_zkp_batches b
  | Ok (Some m) => g = a /\ m = (a * K + idx)%nat /\ (idx < K)%nat /\ (q_applied q <= m)%nat /\
      Z.of_nat idx < num_full_zkp_batches b /\ num_inserted_zkp_batches b <= Z.of_nat idx /\
      ((m + 1) * ZB <= length (q_values q))%nat /\
      exists chain, hash_chain b idx = Some chain /\ canonical chain /\
        create_hash_chain_4 (zkp_slice ZB m (q_values q)) = Ok chain
  | Panic => False
  end.
Proof.
  intros [] (Hpar & Hst & Hend) (Hs & Hbi & _) Hg. pose proof (div_bounds (q_applied q) K HK) as Ha. fold a in Ha.
  pose proof B_pos. pose proof Hbi as []. unfold spec_target, hash_chain. cbv zeta. fold a.
  set (T := length (q_values q)) in *. set (n := q_applied q) in *. clearbody a.
  case_bool_decide as HiK; [|left; split; [done|]; apply lookup_ge_None; lia].
  assert (is_Some (hash_chains b !! idx)) as Hsome by (apply lookup_lt_is_Some; lia).
  rewrite bi_full, bi_applied, length_batch_values. fold T.
  clear bi_state. case_decide as Hun.
  - assert (g + 2 = a)%nat as Hga by (destruct Hg as [->|[? _]]; [lia|done]).
    assert (T = (g + 2) * B)%nat as HTg by (rewrite Hga; apply Hun).
    assert ((g + 2) * K <= n)%nat by (rewrite Hga; lia).
    replace (Nat.min B (T - g * B)) with B by lia. rewrite Nat.div_mul by lia.
    unfold applied_of. split_and!; [done|lia|lia].
  - assert (g = a) as -> by (destruct Hg as [->|[? ?]]; [done|lia]).
    assert (applied_of K a n = n - a * K)%nat as Hap by (unfold applied_of; lia).
    case_bool_decide as Hfull; [|right; split_and!; [done|done|lia]].
    case_decide as Hdone; [rewrite Hap; split_and!; [done|lia|lia]|].
    assert ((idx + 1) * ZB <= Nat.min B (T - a * B))%nat as Hidx.
    { pose proof (div_bounds (Nat.min B (T - a * B)) ZB HZB).
      assert ((idx + 1) * ZB <= Nat.min B (T - a * B) / ZB * ZB)%nat by (apply Nat.mul_le_mono_r; lia). lia. }
    split_and!; [done|done|done|lia|lia|lia|lia|].
    destruct (bi_complete idx) as (c & Hc & Hcan & Hch); [rewrite length_batch_values; fold T; lia|].
    exists c. rewrite zkp_slice_batch in Hch by done. done.
Qed.

Lemma verify_batch_update_no_panic size h proof : verify_batch_update size h proof <> Panic.
Proof.
  assert (forall vk, verify [h] proof vk <> Panic) as Hv.
  { intros vk. unfold verify. destruct (decompress_g1 (proof_a proof)); [|done].
    destruct (decompress_g1 (proof_c proof)); [|done]. cbn [ok_or rbind]. by repeat case_match. }
  unfold verify_batch_update. repeat case_match; done.
Qed.

Lemma verify_cache_spec t q data (idx := Z.to_nat (in_zkp_batch_index data)) :
  inv K ZB CAP t q -> 0 <= in_zkp_batch_index data -> canonical (in_old_root data) ->
  canonical (in_new_root data) ->
  match spec_target K ZB idx q with
  | Err e => verify_proof_cache_update data t = (Err e, t)
  | Ok None => verify_proof_cache_update data t = (Ok false, t)
  | Ok (Some m) =>
      match spec_verify ZB m data q with
      | Err e => verify_proof_cache_update data t = (Err e, t)
      | Ok _ => exists t', verify_proof_cache_update data t = (Ok true, t') /\
          inv K ZB CAP t' (mkQ (q_values q) (q_roots q)
            (<[m := (in_old_root data, in_new_root data)]> (q_cache q)))
      | Panic => False
      end
  | Panic => False
  end.
Proof.
  intros Hinv Hidx Ho Hw. destruct (pending_batch t q Hinv) as (b & g & Hb & Hpb & Hheld & Hholds & Hg).
  pose proof (pending_target t q b g idx Hinv Hheld Hholds Hg) as Ht.
  assert (Z.of_nat idx = in_zkp_batch_index data) as Hi by (unfold idx; lia).
  unfold spec_verify. destruct (spec_target K ZB idx q) as [[m|]|e|]; [| | |done].
  2:{ destruct Ht as ([h Hh] & ? & ?). unfold verify_proof_cache_update, mbindM, mget, mlift.
      fold idx. rewrite Hpb, Hh. cbn [ok_or]. by rewrite !(proj2 (Z.ltb_lt _ _)) by lia. }
  2:{ unfold verify_proof_cache_update, mbindM, mget, mlift. fold idx. rewrite Hpb.
      destruct Ht as [[-> Hh]|[-> [[h Hh] ?]]]; [by rewrite Hh|]. rewrite Hh. cbn [ok_or].
      by rewrite (proj2 (Z.ltb_ge _ _)) by lia. }
  destruct Ht as (-> & Hm & HiK & Hnm & Hlt & Hge & HmT & chain & Hch & Hcc & Hcr).
  pose proof Hinv as []. pose proof (div_bounds (q_applied q) K HK).
  set (a := (q_applied q / K)%nat) in *.
  assert (Z.of_nat ((m + 1) * ZB) < 2 ^ 62) as Hsmall by lia.
  assert (1 + Z.of_nat (a * B) + in_zkp_batch_index data * Z.of_nat ZB = 1 + Z.of_nat (m * ZB)) as Hstart
    by (rewrite Hm, <- Hi; lia).
  rewrite Hcr. cbn [map_err rbind].
  destruct (hashv4_total (in_old_root data) (in_new_root data) chain
    (replicate 24 x00 ++ be_bytes 8 (1 + Z.of_nat (m * ZB)))) as (pih & Hpih & _);
    [done..|apply index_field_canonical; lia|].
  rewrite Hpih. cbn [map_err rbind].
  assert (verify_proof_cache_update data t =
    (exec! mlift (verify_batch_update (Z.of_nat ZB) pih (in_proof data));
     exec! on_pending_batch (cache_tree_update idx (mkCachedUpdate (in_old_root data) (in_new_root data) 1));
     mret true) t) as ->.
  { unfold verify_proof_cache_update. unfold mbindM at 1, mget. unfold mbindM at 1, mlift. rewrite Hpb.
    unfold mbindM at 1. fold idx. rewrite Hch. cbn [ok_or].
    rewrite (proj2 (Z.ltb_lt _ _)), (proj2 (Z.ltb_ge _ _)) by lia.
    unfold mbindM at 1. rewrite inv_zkp_batch_size0.
    rewrite (proj2 (checked_mul_Some _ _ _ (in_zkp_batch_index data * Z.of_nat ZB))) by lia. cbn [ok_or].
    unfold mbindM at 1. destruct Hholds as (Hs & _). rewrite Hs.
    rewrite (proj2 (checked_add_Some _ _ _ (1 + Z.of_nat (m * ZB)))) by lia. cbn [ok_or].
    unfold mbindM at 1. by rewrite Hpih. }
  unfold mbindM at 1, mlift.
  destruct (verify_batch_update (Z.of_nat ZB) pih (in_proof data)) as [[]|e|] eqn:Hv; [|done|].
  2:{ by apply verify_batch_update_no_panic in Hv. }
  destruct (write_cache_slot t q b idx (<[m := (in_old_root data, in_new_root data)]> (q_cache q)))
    as (t' & Hrun & Hinv'); try done; fold a.
  - intros m' Hm'. rewrite lookup_insert_ne; [done|congruence].
  - intros m' o w Hm'. apply lookup_insert_Some in Hm' as [[<- [= <- <-]]|[_ Hm']]; [|by apply inv_cache0].
    split; [lia|]. split_and!; [done|apply Ho|apply Hw|]. by exists chain, pih, (in_proof data).
  - fold a in Hrun. rewrite <- Hm, lookup_insert_eq in Hrun. exists t'. split; [|done].
    unfold mbindM. cbn [cache_slot] in Hrun. by rewrite Hrun.
Qed.

Lemma update_refines_lemma t q pubkey data :
  inv K ZB CAP t q -> 0 <= in_zkp_batch_index data -> is_bytes 32 (in_old_root data) ->
  is_bytes 32 (in_new_root data) ->
  match spec_update K ZB data q with
  | Err e => update_tree_from_queue pubkey data t = (Err e, t)
  | Ok None => update_tree_from_queue pubkey data t = (Ok None, t)
  | Ok (Some m) => exists t' q',
      update_tree_from_queue pubkey data t = (Ok (event_of K ZB pubkey (q_applied q) q'), t') /\
      inv K ZB CAP t' q' /\
      applies (mkQ (q_values q) (q_roots q) (<[m := (in_old_root data, in_new_root data)]> (q_cache q))) q'
  | Panic => False
  end.
Proof.
  intros Hinv Hidx Ho Hw. unfold spec_update, update_tree_from_queue.
  destruct (is_canonical_bn254_scalar_be (in_old_root data)) eqn:Hco; [|done].
  destruct (is_canonical_bn254_scalar_be (in_new_root data)) eqn:Hcw; [|done]. cbn [andb].
  pose proof (verify_cache_spec t q data Hinv Hidx (conj Ho Hco) (conj Hw Hcw)) as Hv.
  destruct (spec_target K ZB _ q) as [[m|]|e|]; cbn [rbind];
    [|unfold mbindM; by rewrite Hv|unfold mbindM; by rewrite Hv|done].
  destruct (spec_verify ZB m data q) as [[]|e|]; cbn [rbind]; [|unfold mbindM; by rewrite Hv|done].
  destruct Hv as (t1 & Hv & Hinv1). unfold mbindM at 1. rewrite Hv. cbn [negb]. unfold apply_cached_tree_updates. unfold mbindM at 1, mget.
  set (q1 := mkQ _ _ _) in *. pose proof (div_bounds (q_applied q) K HK).
  destruct (apply_loop_spec (apply_fuel t1) pubkey t1 q1 (q_applied q) ((q_applied q / K + 1) * K))
    as (t' & q' & Hrun & Hinv' & Happ); [done|done|lia| | |].
  - change (q_applied q1) with (q_applied q). unfold apply_fuel. pose proof Hinv1 as [].
    destruct (inv_batches0 0%nat) as (b0 & g0 & Hb0 & _ & _ & Hbi0 & _); [lia|].
    destruct (batches t1) as [|b bs]; [done|]. simplify_eq/=.
    rewrite (bi_cached _ _ _ _ _ Hbi0). lia.
  - intros m' [o w] Hm'. pose proof Hinv1 as []. apply inv_cache0 in Hm' as [? _].
    change (q_applied q1) with (q_applied q) in *. lia.
  - exists t', q'. split; [|done]. rewrite <- Hrun. f_equal. unfold event_of. by rewrite decide_True.
Qed.

End proofs.

(** ** Initialisation and reachability *)

(** The zeroed account the allocator hands to [init]. *)
Definition zeroed (K : nat) : NullifierTreeLayout :=
  let b := mkBatch 0 0 0 0 0 0 0 (zero32, zero32) (replicate K zero32) (replicate K cached_default) in
  mkNullifierTree 0 0 0 0 0 0 0 0 0 0 (mkRootHistory 0 (replicate K zero32)) [b; b].

(** [tree_run t0 vs t]: from the account [t0], committed insertions of the values
    [vs], in this order, interleaved with committed updates lead to [t].  An
    error aborts its instruction and leaves the account as it was. *)
Inductive tree_run `{SolPoseidon} `{Groth16} (t0 : NullifierTreeLayout)
    : list bytes -> NullifierTreeLayout -> Prop :=
| run_init : tree_run t0 [] t0
| run_insert vs t v i t' :
    tree_run t0 vs t -> is_bytes 32 v ->
    insert_nullifier_into_queue v t = (Ok i, t') -> tree_run t0 (vs ++ [v]) t'
| run_update vs t pubkey data ev t' :
    tree_run t0 vs t -> 0 <= in_zkp_batch_index data ->
    is_bytes 32 (in_old_root data) -> is_bytes 32 (in_new_root data) ->
    update_tree_from_queue pubkey data t = (Ok ev, t') -> tree_run t0 vs t'.

Section reach.
Context `{H : SolPoseidon} {HT : PoseidonTotal H} `{G : Groth16}.
Context (K ZB : nat).
Context (HK : (0 < K)%nat) (HZB : (0 < ZB)%nat) (HB : Z.of_nat (K * ZB) < 2 ^ 61) (HK32 : Z.of_nat K < 2 ^ 32).

Lemma validate_configuration_ok : validate_configuration K (Z.of_nat (K * ZB)) (Z.of_nat ZB) = Ok tt.
Proof using HK HZB.
  clear HB HK32. unfold validate_configuration. rewrite !(proj2 (Z.eqb_neq _ 0)) by lia.
  rewrite Nat2Z.inj_mul, Z.mod_mul, Z.div_mul, !Z.eqb_refl by lia. done.
Qed.

Lemma init_inv_lemma :
  exists t, init K (Z.of_nat (K * ZB)) (Z.of_nat ZB) 40 (zeroed K) = (Ok tt, t) /\
    inv K ZB (2 ^ 40) t (mkQ [] [NULLIFIER_TREE_INIT_ROOT_40] ∅).
Proof.
  unfold init. rewrite validate_configuration_ok. cbn [negb Z.ltb Z.eqb Z.compare Pos.compare Pos.compare_cont].
  rewrite (proj2 (checked_add_Some _ _ _ (1 + Z.of_nat (K * ZB)))) by lia.
  cbn [zeroed root_history roots batches].
  rewrite lookup_replicate_2 by done. eexists. split; [reflexivity|].
  assert (forall start, batch_inv K ZB (fresh_batch K ZB start) [] 0) as Hfresh
    by (intros; by apply fresh_batch_inv).
  assert (forall g b, b = fresh_batch K ZB (1 + Z.of_nat (g * (K * ZB))) ->
    holds K ZB b g (mkQ [] [NULLIFIER_TREE_INIT_ROOT_40] ∅)) as Hholds.
  { intros g b ->. split_and!; [done| |].
    - unfold batch_values, applied_of, q_applied. simpl. rewrite drop_nil, take_nil.
      replace (Nat.min K (0 - g * K)) with 0%nat by lia. apply Hfresh.
    - intros z Hz. simpl. rewrite lookup_empty. by apply lookup_replicate_2. }
  split; unfold q_applied; simpl; rewrite ?Nat.Div0.div_0_l, ?Nat.Div0.mod_0_l; try done; try lia.
  - unfold watermark. by rewrite Nat.Div0.div_0_l.
  - unfold root_ring. simpl. rewrite length_insert, length_replicate. split_and!; [done|lia| | |].
    + by rewrite Nat2Z.inj_mod.
    + intros [|j] r Hj _; [|done]. simplify_eq/=. rewrite Nat.Div0.mod_0_l.
      by apply list_lookup_insert_eq; rewrite length_replicate.
    + intros i Hi. rewrite list_lookup_insert_ne by lia. by apply lookup_replicate_2; lia.
  - intros [|[|i]] Hi; [| |lia].
    + eexists _, 0%nat. split; [reflexivity|]. split; [|apply Hholds; reflexivity].
      split_and!; [done|lia|lia].
    + eexists _, 1%nat. split; [reflexivity|]. split; [|apply Hholds]; [split_and!; [done|lia|lia]|].
      unfold fresh_batch, batch_init, reset. simpl. do 2 f_equal; lia.
Qed.

Lemma applies_values q q' : applies q q' -> q_values q' = q_values q.
Proof. induction 1; done. Qed.

Lemma run_inv t0 vs t :
  init K (Z.of_nat (K * ZB)) (Z.of_nat ZB) 40 (zeroed K) = (Ok tt, t0) -> tree_run t0 vs t ->
  exists q, inv K ZB (2 ^ 40) t q /\ q_values q = vs.
Proof.
  intros Hinit Hrun. induction Hrun as [|vs t v i t' _ (q & Hinv & Hq) Hv Hins
    |vs t pubkey data ev t' _ (q & Hinv & Hq) Hidx Ho Hw Hup].
  - destruct init_inv_lemma as (t1 & Ht1 & Hinv). rewrite Ht1 in Hinit. simplify_eq. by eexists.
  - pose proof (insert_refines_lemma K ZB (2 ^ 40) HK HZB HB ltac:(lia) t q v Hinv Hv) as Href.
    destruct (spec_insert K ZB (2 ^ 40) v q) as [[j q']|e|] eqn:Hs; [|congruence|done].
    destruct Href as (t1 & Ht1 & Hinv1). rewrite Ht1 in Hins. simplify_eq. exists q'. split; [done|].
    unfold spec_insert in Hs. repeat case_match; by simplify_eq/=.
  - pose proof (update_refines_lemma K ZB (2 ^ 40) HK HZB HB ltac:(lia) HK32 t q pubkey data Hinv Hidx Ho Hw) as Href.
    destruct (spec_update K ZB data q) as [[m|]|e|]; [| |congruence|done].
    + destruct Href as (t1 & q' & Ht1 & Hinv1 & Happ). rewrite Ht1 in Hup. simplify_eq.
      exists q'. split; [done|]. by apply applies_values in Happ.
    + exists q. rewrite Href in Hup. by simplify_eq.
Qed.

(** Every root the history still serves is one of the last [K], and contains
    every leaf below the watermark. *)
Lemma accepted_root t q index r :
  inv K ZB (2 ^ 40) t q -> root_by_index t index = Some r ->
  exists j, q_roots q !! j = Some r /\ (j <= q_applied q)%nat /\ (q_applied q < j + K)%nat /\
    Z.to_nat index = (j mod K)%nat /\ close_before_index t <= 1 + Z.of_nat (j * ZB).
Proof.
  intros [] Hr. unfold root_by_index in Hr.
  destruct (roots (root_history t) !! Z.to_nat index) as [r'|] eqn:Hlk; [|done].
  case_decide as Hz; [done|]. injection Hr as ->. destruct inv_roots0 as (Hl & Hpos & _ & Hat & Hzero).
  pose proof (lookup_lt_Some _ _ _ Hlk) as Hi. rewrite Hl in Hi. set (i := Z.to_nat index) in *.
  set (len := length (q_roots q)) in *.
  assert (exists j, j < len /\ len <= j + K /\ j mod K = i)%nat as (j & Hj & HjK & Hjm).
  { destruct (decide (len <= K)%nat) as [Hle|Hgt].
    - destruct (decide (i < len)%nat); [exists i; split_and!; [lia|lia|by apply Nat.mod_small]|].
      rewrite Hzero in Hlk by lia. by simplify_eq.
    - set (k := (len - K)%nat). pose proof (Nat.mod_upper_bound (K + i - k mod K) K ltac:(lia)).
      pose proof (Nat.mod_upper_bound k K ltac:(lia)). pose proof (Nat.div_mod_eq k K).
      exists (k + (K + i - k mod K) mod K)%nat. split_and!; [lia|lia|].
      rewrite Nat.Div0.add_mod_idemp_r.
      replace (k + (K + i - k mod K))%nat with (i + (k / K + 1) * K)%nat by lia.
      rewrite Nat.Div0.mod_add. by apply Nat.mod_small. }
  destruct (lookup_lt_is_Some_2 (q_roots q) j Hj) as [r1 Hr1].
  pose proof (Hat j r1 Hr1 HjK) as Hat'. rewrite Hjm, Hlk in Hat'. injection Hat' as <-.
  assert (q_applied q = len - 1)%nat as Hn by done.
  exists j. split_and!; [done|lia|lia|done|]. rewrite inv_close0. unfold watermark.
  case_decide as Ha; [lia|]. pose proof (div_bounds (q_applied q) K HK).
  set (a := (q_applied q / K)%nat) in *.
  assert ((a - 1) * K <= j)%nat by (assert ((a - 1) * K + K = a * K)%nat by (destruct a; [done|lia]); lia).
  assert ((a - 1) * (K * ZB) <= j * ZB)%nat by nia. lia.
Qed.

End reach.
