(* ===== verification/NullifierSafety.v ===== *)
(** * The nullifier tree: theorems

    What the account of src/program-libs/tree/src/nullifier_tree guarantees:
    queue insertion and tree update implement the abstract queue of
    [NullifierQueue]; in every reachable account each root transition was proved
    for the queued values in order, the cleanup watermark is contained in every
    served root, a valid next proof is applied, and the update event describes
    the root history. *)

From S2P Require Import Prelude ZeroBytes Hasher HashChain Batch NullifierTree NullifierQueue.

(** ** A concrete instance for the witnesses: two ZKP batches of ten values per
    batch, a verifier that accepts every proof. *)

#[local] Instance accept_all : Groth16 := {
  decompress_g1 := fun p => Some p;
  groth16_new := fun _ _ _ _ _ => true;
  groth16_verify := fun _ _ _ _ _ => true;
}.

Definition small_tree : NullifierTreeLayout := (init 2 20 10 40 (zeroed 2)).2.

Definition empty_queue : QSpec := mkQ [] [NULLIFIER_TREE_INIT_ROOT_40] ∅.

Lemma small_tree_inv : @inv model_poseidon accept_all 2 10 (2 ^ 40) small_tree empty_queue.
Proof.
  destruct (@init_inv_lemma model_poseidon accept_all 2 10 ltac:(lia) ltac:(lia) ltac:(lia)) as (t & Ht & Hinv).
  change (Z.of_nat (2 * 10)) with 20 in Ht. change (Z.of_nat 10) with 10 in Ht.
  unfold small_tree. by rewrite Ht.
Qed.

(** A run of insertions. *)
Fixpoint insert_all `{SolPoseidon} (vs : list bytes) : M NullifierTreeLayout NullifierTreeError unit :=
  match vs with
  | [] => mret tt
  | v :: vs' => exec! insert_nullifier_into_queue v; insert_all vs'
  end.

Lemma insert_all_inv `{H : SolPoseidon} `{!PoseidonTotal H} `{G : Groth16} K ZB vs t q :
  (0 < K)%nat -> (0 < ZB)%nat -> Z.of_nat (K * ZB) < 2 ^ 61 -> inv K ZB (2 ^ 40) t q ->
  Forall canonical vs ->
  (length (q_values q ++ vs) <= (q_applied q / K + 2) * (K * ZB))%nat ->
  Z.of_nat (length (q_values q ++ vs)) < 2 ^ 40 ->
  exists t', insert_all vs t = (Ok tt, t') /\
    inv K ZB (2 ^ 40) t' (mkQ (q_values q ++ vs) (q_roots q) (q_cache q)).
Proof.
  intros HK HZB HB. revert t q. induction vs as [|v vs IH]; intros t q Hinv Hc Hroom Hcap.
  - exists t. split; [done|]. rewrite app_nil_r. by destruct q.
  - rewrite Forall_cons in Hc. destruct Hc as [[Hlen Hcan] Hc].
    pose proof (insert_refines_lemma K ZB (2 ^ 40) HK HZB HB ltac:(lia) t q v Hinv Hlen) as Href.
    rewrite length_app in Hroom, Hcap. simpl in Hroom, Hcap.
    unfold spec_insert in Href. rewrite Hcan, (proj2 (Z.ltb_lt _ _)), bool_decide_true in Href by lia.
    destruct Href as (t1 & Ht1 & Hinv1).
    destruct (IH t1 _ Hinv1 Hc) as (t' & Ht' & Hinv'); simpl; rewrite ?length_app; simpl; try lia.
    { change (q_applied (mkQ (q_values q ++ [v]) (q_roots q) (q_cache q))) with (q_applied q). lia. }
    exists t'. split; [simpl; unfold mbindM; by rewrite Ht1|].
    simpl in Hinv'. by rewrite <- app_assoc in Hinv'.
Qed.

(** ** Refinement *)

(** C16. Queue insertion implements the abstract queue.  A canonical value is
    appended to the queue and gets the index of the leaf it will occupy, as long
    as that leaf exists and fewer than two batches beyond the last fully applied
    one are queued; otherwise the call fails with [NonCanonicalFieldElement],
    [TreeIsFull] or [BatchNotReady] respectively and the account is unchanged.
    It never panics. *)
Theorem queue_insert_refines `{H : SolPoseidon} `{G : Groth16} (Htotal : PoseidonTotal H)
    (K ZB : nat) (CAP : Z) (t : NullifierTreeLayout) (q : QSpec) (v : bytes) :
  (0 < K)%nat -> (0 < ZB)%nat -> Z.of_nat (K * ZB) < 2 ^ 61 -> CAP <= 2 ^ 62 ->
  inv K ZB CAP t q -> is_bytes 32 v ->
  match spec_insert K ZB CAP v q with
  | Ok (i, q') => exists t', insert_nullifier_into_queue v t = (Ok i, t') /\ inv K ZB CAP t' q'
  | Err e => insert_nullifier_into_queue v t = (Err e, t)
  | Panic => False
  end.
Proof. intros. by apply insert_refines_lemma. Qed.

Lemma queue_insert_refines_witness :
  exists t', @insert_nullifier_into_queue model_poseidon (replicate 32 x01) small_tree = (Ok 1, t') /\
    @inv model_poseidon accept_all 2 10 (2 ^ 40) t'
      (mkQ [replicate 32 x01] [NULLIFIER_TREE_INIT_ROOT_40] ∅).
Proof.
  apply (@queue_insert_refines model_poseidon accept_all model_poseidon_total 2 10 (2 ^ 40)
    small_tree empty_queue (replicate 32 x01)); [lia|lia|lia|lia|apply small_tree_inv|reflexivity].
Defined.

(** C7. A tree update implements the abstract one.  A proof for an index outside
    the batch, for a ZKP batch whose chain is not complete, or one that does not
    verify against the public input of its ZKP batch is refused and the account
    is unchanged; a proof for an applied ZKP batch is a no-op; any other is
    cached, and cached updates are then applied in order while their old root is
    the current root.  The returned event describes exactly what was applied.
    The loop always ends and nothing panics. *)
Theorem tree_update_refines `{H : SolPoseidon} `{G : Groth16} (Htotal : PoseidonTotal H)
    (K ZB : nat) (CAP : Z) (t : NullifierTreeLayout) (q : QSpec) (pubkey : bytes)
    (data : InstructionDataBatchNullifyInputs) :
  (0 < K)%nat -> (0 < ZB)%nat -> Z.of_nat (K * ZB) < 2 ^ 61 -> CAP <= 2 ^ 62 -> Z.of_nat K < 2 ^ 32 ->
  inv K ZB CAP t q -> 0 <= in_zkp_batch_index data ->
  is_bytes 32 (in_old_root data) -> is_bytes 32 (in_new_root data) ->
  match spec_update K ZB data q with
  | Err e => update_tree_from_queue pubkey data t = (Err e, t)
  | Ok None => update_tree_from_queue pubkey data t = (Ok None, t)
  | Ok (Some m) => exists t' q',
      update_tree_from_queue pubkey data t = (Ok (event_of K ZB pubkey (q_applied q) q'), t') /\
      inv K ZB CAP t' q' /\
      applies (mkQ (q_values q) (q_roots q) (<[m := (in_old_root data, in_new_root data)]> (q_cache q))) q'
  | Panic => False
  end.
Proof. intros. by apply update_refines_lemma. Qed.

(** Ten queued values and a proof for them. *)
Definition ten_values : list bytes := map (fun i => be_bytes 32 (Z.of_nat i + 1)) (seq 0 10).

Definition first_update : InstructionDataBatchNullifyInputs :=
  mkBatchNullifyInputs (replicate 32 x02) NULLIFIER_TREE_INIT_ROOT_40 0
    (mkNullifierTreeProof (replicate 32 x00) (replicate 128 x00) (replicate 32 x00)).

Lemma ten_values_inv :
  exists t, @insert_all model_poseidon ten_values small_tree = (Ok tt, t) /\
    @inv model_poseidon accept_all 2 10 (2 ^ 40) t (mkQ ten_values [NULLIFIER_TREE_INIT_ROOT_40] ∅).
Proof.
  apply (@insert_all_inv model_poseidon model_poseidon_total accept_all 2 10 ten_values small_tree empty_queue);
    [lia|lia|lia|apply small_tree_inv| |vm_compute; lia|vm_compute; reflexivity].
  apply (bool_decide_eq_true_1 _). vm_compute. reflexivity.
Qed.

Lemma tree_update_refines_witness :
  exists t t' q', @inv model_poseidon accept_all 2 10 (2 ^ 40) t (mkQ ten_values [NULLIFIER_TREE_INIT_ROOT_40] ∅) /\
    @update_tree_from_queue model_poseidon accept_all zero32 first_update t
      = (Ok (event_of 2 10 zero32 0 q'), t') /\
    @inv model_poseidon accept_all 2 10 (2 ^ 40) t' q'.
Proof.
  destruct ten_values_inv as (t & _ & Hinv). exists t.
  pose proof (@tree_update_refines model_poseidon accept_all model_poseidon_total 2 10 (2 ^ 40) t
    (mkQ ten_values [NULLIFIER_TREE_INIT_ROOT_40] ∅) zero32 first_update
    ltac:(lia) ltac:(lia) ltac:(lia) ltac:(lia) ltac:(lia) Hinv ltac:(vm_compute; congruence)
    eq_refl eq_refl) as Href.
  assert (@spec_update model_poseidon accept_all 2 10 first_update
    (mkQ ten_values [NULLIFIER_TREE_INIT_ROOT_40] ∅) = Ok (Some 0%nat)) as Hspec by (vm_compute; reflexivity).
  rewrite Hspec in Href. destruct Href as (t' & q' & Hrun & Hinv' & _).
  exists t', q'. split; [exact Hinv|]. split; [exact Hrun|exact Hinv'].
Defined.

(** ** Safety of every reachable account *)

(** The account [t] has queued [values] and its tree has had the roots [rs]: the
    counters say so, the latest root is the last of [rs], and each transition
    was proved for the values of its ZKP batch in queue order. *)
Definition history `{SolPoseidon} `{Groth16} (ZB : nat) (t : NullifierTreeLayout)
    (values rs : list bytes) : Prop :=
  queue_next_index t = 1 + Z.of_nat (length values) /\
  sequence_number t = Z.of_nat (length rs) - 1 /\
  next_index t = 1 + (Z.of_nat (length rs) - 1) * Z.of_nat ZB /\
  rs !! 0%nat = Some NULLIFIER_TREE_INIT_ROOT_40 /\ get_root t = last rs /\
  forall j old new, rs !! j = Some old -> rs !! S j = Some new -> verified_step ZB values j old new.

Lemma inv_history `{H : SolPoseidon} `{G : Groth16} K ZB CAP t q :
  (0 < K)%nat -> (0 < ZB)%nat -> Z.of_nat (K * ZB) < 2 ^ 61 ->
  inv K ZB CAP t q -> history ZB t (q_values q) (q_roots q).
Proof.
  intros HK HZB HB Hinv. pose proof (get_root_spec K ZB CAP HK HZB HB t q Hinv). destruct Hinv.
  destruct inv_roots as (_ & Hpos & _). unfold history, q_applied in *.
  rewrite inv_queue_next, inv_seq, inv_next, Nat2Z.inj_mul, Nat2Z.inj_sub by lia. split_and!; done.
Qed.

(** C14. In every account reachable from initialisation by committed insertions of
    [vs] and committed updates, the queue index counts exactly [vs], and every
    step of the tree's root from the initial one to the current one is backed by
    an accepted proof whose public input commits to the old root, the new root,
    the next [ZB] values of [vs] in insertion order and their first leaf
    index. *)
Theorem nullifier_tree_history_sound `{H : SolPoseidon} `{G : Groth16} (Htotal : PoseidonTotal H)
    (K ZB : nat) (t0 t : NullifierTreeLayout) (vs : list bytes) :
  (0 < K)%nat -> (0 < ZB)%nat -> Z.of_nat (K * ZB) < 2 ^ 61 -> Z.of_nat K < 2 ^ 32 ->
  init K (Z.of_nat (K * ZB)) (Z.of_nat ZB) 40 (zeroed K) = (Ok tt, t0) -> tree_run t0 vs t ->
  exists rs, history ZB t vs rs.
Proof.
  intros HK HZB HB HK32 Hinit Hrun.
  destruct (run_inv K ZB HK HZB HB HK32 t0 vs t Hinit Hrun) as (q & Hinv & <-).
  exists (q_roots q). by eapply (inv_history K ZB (2 ^ 40)).
Qed.

Lemma init_small_tree : init 2 (Z.of_nat (2 * 10)) (Z.of_nat 10) 40 (zeroed 2) = (Ok tt, small_tree).
Proof. vm_compute. reflexivity. Qed.

(** ** A run that fills both batches and applies them

    Forty values are queued, then four updates take the tree through four roots,
    so that the first batch has left the root history and may be closed. *)

Definition forty_values : list bytes := map (fun i => be_bytes 32 (Z.of_nat i + 1)) (seq 0 40).

Definition example_root (n : nat) : bytes :=
  if decide (n = 0%nat) then NULLIFIER_TREE_INIT_ROOT_40 else be_bytes 32 (1000 + Z.of_nat n).

Definition example_update (n : nat) : InstructionDataBatchNullifyInputs :=
  mkBatchNullifyInputs (example_root (S n)) (example_root n) (Z.of_nat (n mod 2))
    (mkNullifierTreeProof (replicate 32 x00) (replicate 128 x00) (replicate 32 x00)).

Definition filled_tree : NullifierTreeLayout := (@insert_all model_poseidon forty_values small_tree).2.

(** The tree after the first [n] updates. *)
Fixpoint updated_tree (n : nat) : NullifierTreeLayout :=
  match n with
  | O => filled_tree
  | S n' => (@update_tree_from_queue model_poseidon accept_all zero32 (example_update n') (updated_tree n')).2
  end.

Lemma insert_all_run `{SolPoseidon} `{Groth16} t0 vs : forall us t t',
  tree_run t0 us t -> Forall (is_bytes 32) vs -> insert_all vs t = (Ok tt, t') -> tree_run t0 (us ++ vs) t'.
Proof.
  induction vs as [|v vs IH]; intros us t t' Hrun Hvs Hins; cbn [insert_all] in Hins.
  - injection Hins as <-. by rewrite app_nil_r.
  - apply Forall_cons in Hvs as [Hv Hvs]. apply mbindM_ok in Hins as (i & t1 & H1 & Hins).
    change (v :: vs) with ([v] ++ vs). rewrite (assoc_L (++)). eapply IH; [|done|exact Hins]. by eapply run_insert.
Qed.

Lemma filled_tree_run : @tree_run model_poseidon accept_all small_tree forty_values filled_tree.
Proof.
  apply (@insert_all_run model_poseidon accept_all small_tree forty_values [] small_tree); [constructor| |].
  - apply Forall_map, Forall_true. intros i. apply length_be_bytes.
  - unfold filled_tree. rewrite (surjective_pairing (insert_all _ _)) at 1. by f_equal.
Qed.

Definition update_succeeds (n : nat) : bool :=
  match (@update_tree_from_queue model_poseidon accept_all zero32 (example_update n) (updated_tree n)).1 with
  | Ok (Some _) => true
  | _ => false
  end.

Lemma updated_tree_run : @tree_run model_poseidon accept_all small_tree forty_values (updated_tree 4).
Proof.
  assert (forall n, (n < 4)%nat -> update_succeeds n = true) as Hok.
  { intros n. apply (forall_below (fun n => update_succeeds n = true) update_succeeds); [done|vm_compute; reflexivity]. }
  assert (forall n, (n <= 4)%nat -> @tree_run model_poseidon accept_all small_tree forty_values (updated_tree n)) as Hall;
    [|by apply Hall].
  induction n as [|n IH]; intros Hn; [apply filled_tree_run|]. specialize (Hok n ltac:(lia)). unfold update_succeeds in Hok.
  destruct (update_tree_from_queue _ _ _) as [[ev| |] t'] eqn:Hup in Hok; [|done..].
  eapply run_update with (data := example_update n) (pubkey := zero32) (ev := ev); [apply IH; lia|simpl; lia| | |].
  - unfold example_update, example_root. simpl. case_decide; [vm_compute; reflexivity|apply length_be_bytes].
  - apply length_be_bytes.
  - cbn [updated_tree]. by rewrite Hup.
Qed.

Lemma nullifier_tree_history_sound_witness :
  sequence_number (updated_tree 4) = 4 /\
  exists rs, @history model_poseidon accept_all 10 (updated_tree 4) forty_values rs.
Proof.
  split; [vm_compute; reflexivity|].
  apply (@nullifier_tree_history_sound model_poseidon accept_all model_poseidon_total 2 10 small_tree);
    [lia|lia|lia|lia|apply init_small_tree|apply updated_tree_run].
Defined.

(** C8. Watermark safety: in every reachable account, every root the history
    still serves is one of the last [K] roots of the tree, and a queued value
    whose queue index is below [close_before_index] is among the leaves that
    root was built from.  Closing its nullifier PDA therefore leaves no served
    root without it. *)
Theorem close_watermark_is_safe `{H : SolPoseidon} `{G : Groth16} (Htotal : PoseidonTotal H)
    (K ZB : nat) (t0 t : NullifierTreeLayout) (vs : list bytes) :
  (0 < K)%nat -> (0 < ZB)%nat -> Z.of_nat (K * ZB) < 2 ^ 61 -> Z.of_nat K < 2 ^ 32 ->
  init K (Z.of_nat (K * ZB)) (Z.of_nat ZB) 40 (zeroed K) = (Ok tt, t0) -> tree_run t0 vs t ->
  exists rs, history ZB t vs rs /\
    forall index r, root_by_index t index = Some r ->
    exists j, rs !! j = Some r /\ (length rs <= j + K)%nat /\
      forall k v, vs !! k = Some v -> 1 + Z.of_nat k < close_before_index t -> (k < j * ZB)%nat.
Proof.
  intros HK HZB HB HK32 Hinit Hrun.
  destruct (run_inv K ZB HK HZB HB HK32 t0 vs t Hinit Hrun) as (q & Hinv & <-).
  exists (q_roots q). split; [by eapply (inv_history K ZB (2 ^ 40))|]. intros index r Hr.
  destruct (accepted_root K ZB HK HZB HB HK32 t q index r Hinv Hr) as (j & Hj & Hle & Hlt & _ & Hclose).
  exists j. unfold q_applied in *. apply lookup_lt_Some in Hj as Hjl.
  split_and!; [done|lia|]. intros k v _ Hk. lia.
Qed.

Lemma close_watermark_is_safe_witness :
  close_before_index (updated_tree 4) = 21 /\ root_by_index (updated_tree 4) 0 = Some (example_root 4) /\
  exists rs, @history model_poseidon accept_all 10 (updated_tree 4) forty_values rs /\
    forall index r, root_by_index (updated_tree 4) index = Some r ->
    exists j, rs !! j = Some r /\ (length rs <= j + 2)%nat /\
      forall k v, forty_values !! k = Some v ->
        1 + Z.of_nat k < close_before_index (updated_tree 4) -> (k < j * 10)%nat.
Proof.
  split; [vm_compute; reflexivity|]. split; [vm_compute; reflexivity|].
  apply (@close_watermark_is_safe model_poseidon accept_all model_poseidon_total 2 10 small_tree);
    [lia|lia|lia|lia|apply init_small_tree|apply updated_tree_run].
Defined.

Lemma inv_validates `{H : SolPoseidon} `{G : Groth16} K ZB CAP t q :
  (0 < K)%nat -> (0 < ZB)%nat -> inv K ZB CAP t q -> validate K t = Ok tt.
Proof.
  intros HK HZB []. unfold validate.
  rewrite inv_batch_size, inv_zkp_batch_size, (validate_configuration_ok K ZB) by done.
  cbn [rbind]. destruct inv_roots as (_ & _ & -> & _). rewrite inv_current, inv_pending.
  pose proof (Nat.mod_upper_bound (length (q_roots q)) K ltac:(lia)).
  pose proof (Nat.mod_upper_bound (length (q_values q) / (K * ZB)) 2 ltac:(lia)).
  pose proof (Nat.mod_upper_bound (q_applied q / K) 2 ltac:(lia)). unfold NUM_BATCHES.
  rewrite (proj2 (Z.ltb_lt _ _)), !(proj2 (Z.leb_gt _ _)) by lia. cbn [orb negb].
  destruct (existsb _ (batches t)) eqn:He; [exfalso|done]. apply existsb_exists in He as (b & Hin & Hb).
  apply list_elem_of_In, list_elem_of_lookup in Hin as [i Hi].
  destruct (inv_batches i) as (b' & g & Hb' & _ & _ & Hbi & _); [apply lookup_lt_Some in Hi; lia|].
  rewrite Hi in Hb'. injection Hb' as <-.
  rewrite (bi_batch_size _ _ _ _ _ Hbi), (bi_zkp_batch_size _ _ _ _ _ Hbi), !Z.eqb_refl in Hb. done.
Qed.

(** Every reachable account passes the loader's [validate]: no committed
    sequence of operations makes the account unloadable. *)
Theorem reachable_account_validates `{H : SolPoseidon} `{G : Groth16} (Htotal : PoseidonTotal H)
    (K ZB : nat) (t0 t : NullifierTreeLayout) (vs : list bytes) :
  (0 < K)%nat -> (0 < ZB)%nat -> Z.of_nat (K * ZB) < 2 ^ 61 -> Z.of_nat K < 2 ^ 32 ->
  init K (Z.of_nat (K * ZB)) (Z.of_nat ZB) 40 (zeroed K) = (Ok tt, t0) -> tree_run t0 vs t ->
  validate K t = Ok tt.
Proof.
  intros HK HZB HB HK32 Hinit Hrun.
  destruct (run_inv K ZB HK HZB HB HK32 t0 vs t Hinit Hrun) as (q & Hinv & _).
  by eapply inv_validates.
Qed.

Lemma reachable_account_validates_witness : validate 2 (updated_tree 4) = Ok tt.
Proof.
  apply (@reachable_account_validates model_poseidon accept_all model_poseidon_total 2 10 small_tree (updated_tree 4)
    forty_values); [lia|lia|lia|lia|apply init_small_tree|apply updated_tree_run].
Defined.

(** ** Progress and events *)

Lemma applies_prefix q q' : applies q q' -> q_roots q `prefix_of` q_roots q'.
Proof.
  induction 1 as [| |q old new q' _ _ _ IH]; [done..|].
  simpl in IH. etrans; [|exact IH]. by apply prefix_app_r.
Qed.

(** A cascade ends where the cache does. *)
Lemma applies_bound q q' c :
  applies q q' -> (0 < length (q_roots q))%nat -> (forall m u, q_cache q !! m = Some u -> m < c)%nat ->
  (q_applied q <= q_applied q' <= Nat.max c (q_applied q))%nat.
Proof.
  intros Happ. induction Happ as [q|q old new|q old new q' Hc Hl _ IH]; intros Hpos Hb;
    [lia|unfold q_applied; simpl; lia|].
  pose proof (Hb _ _ Hc) as Hlt. unfold q_applied in *. simpl in IH.
  rewrite length_app in IH. simpl in IH. destruct IH as [IH1 IH2].
  - lia.
  - intros m u [_ Hm]%lookup_delete_Some. by eapply Hb.
  - lia.
Qed.

Lemma spec_target_next `{SolPoseidon} `{Groth16} K ZB CAP t q :
  (0 < K)%nat -> (0 < ZB)%nat -> inv K ZB CAP t q ->
  ((q_applied q + 1) * ZB <= length (q_values q))%nat ->
  spec_target K ZB (q_applied q mod K) q = Ok (Some (q_applied q)).
Proof.
  intros HK HZB Hinv Hfull. unfold spec_target. set (n := q_applied q) in *. set (T := length (q_values q)) in *.
  pose proof (Nat.mod_upper_bound n K ltac:(lia)) as Hm. pose proof (Nat.div_mod_eq n K) as Hd.
  rewrite bool_decide_true by done.
  assert (n * ZB = n / K * (K * ZB) + n mod K * ZB)%nat as HnB by (rewrite Hd at 1; lia).
  rewrite decide_False by lia. rewrite bool_decide_true.
  - replace (n / K * K + n mod K)%nat with n by lia. rewrite decide_False by lia. done.
  - assert ((n mod K + 1) * ZB <= K * ZB)%nat by (apply Nat.mul_le_mono_r; lia).
    apply Nat.div_le_lower_bound; lia.
Qed.

(** C20. Progress: whenever a whole ZKP batch is queued beyond the applied ones, a
    proof for it that verifies and starts from the current root is applied at
    once, whatever other updates are cached: the call succeeds with an event, the
    proof's new root follows the current one in the root history, and the
    sequence number and leaf index advance. *)
Theorem next_proof_is_applied `{H : SolPoseidon} `{G : Groth16} (Htotal : PoseidonTotal H)
    (K ZB : nat) (CAP : Z) (t : NullifierTreeLayout) (q : QSpec) (pubkey : bytes)
    (data : InstructionDataBatchNullifyInputs) :
  (0 < K)%nat -> (0 < ZB)%nat -> Z.of_nat (K * ZB) < 2 ^ 61 -> CAP <= 2 ^ 62 -> Z.of_nat K < 2 ^ 32 ->
  inv K ZB CAP t q -> canonical (in_old_root data) -> canonical (in_new_root data) ->
  ((q_applied q + 1) * ZB <= length (q_values q))%nat ->
  in_zkp_batch_index data = Z.of_nat (q_applied q mod K) ->
  get_root t = Some (in_old_root data) -> spec_verify ZB (q_applied q) data q = Ok tt ->
  exists ev t' q', update_tree_from_queue pubkey data t = (Ok (Some ev), t') /\ inv K ZB CAP t' q' /\
    q_roots q ++ [in_new_root data] `prefix_of` q_roots q' /\
    sequence_number t < sequence_number t' /\ next_index t < next_index t'.
Proof.
  intros HK HZB HB HCAP HK32 Hinv [Ho Hoc] [Hw Hwc] Hfull Hidx Hroot Hver.
  pose proof (update_refines_lemma K ZB CAP HK HZB HB HCAP HK32 t q pubkey data Hinv ltac:(lia) Ho Hw) as Href.
  rewrite (get_root_spec K ZB CAP HK HZB HB t q Hinv) in Hroot.
  unfold spec_update in Href. rewrite Hoc, Hwc, Hidx, Nat2Z.id in Href. cbn [andb] in Href.
  rewrite (spec_target_next K ZB CAP t q HK HZB Hinv Hfull) in Href. cbn [rbind] in Href.
  rewrite Hver in Href. cbn [rbind] in Href. destruct Href as (t' & q' & Hrun & Hinv' & Happ).
  assert (q_roots q ++ [in_new_root data] `prefix_of` q_roots q') as Hpre.
  { inversion Happ as [? Hc|? old new Hc Hne|? old new ? Hc Hl Hrest]; subst; cbn [q_cache q_roots q_applied] in *;
      unfold q_applied in Hc; simpl in Hc; rewrite lookup_insert_eq in Hc; simplify_eq/=.
    by apply applies_prefix in Hrest. }
  pose proof (prefix_length _ _ Hpre) as Hlen. rewrite length_app in Hlen. simpl in Hlen.
  assert (q_applied q < q_applied q')%nat as Hlt by (destruct (inv_roots _ _ _ _ _ Hinv) as (_ & ? & _); unfold q_applied; lia).
  assert (exists ev, event_of K ZB pubkey (q_applied q) q' = Some ev) as [ev Hev]
    by (unfold event_of; rewrite decide_False by lia; eauto).
  exists ev, t', q'. rewrite <- Hev. split_and!; [done..| |].
  - rewrite (inv_seq _ _ _ _ _ Hinv), (inv_seq _ _ _ _ _ Hinv'). lia.
  - rewrite (inv_next _ _ _ _ _ Hinv), (inv_next _ _ _ _ _ Hinv').
    apply Z.add_lt_mono_l, inj_lt, Nat.mul_lt_mono_pos_r; lia.
Qed.

Lemma next_proof_is_applied_witness :
  exists t ev t' q', @update_tree_from_queue model_poseidon accept_all zero32 first_update t = (Ok (Some ev), t') /\
    @inv model_poseidon accept_all 2 10 (2 ^ 40) t' q' /\
    [NULLIFIER_TREE_INIT_ROOT_40; replicate 32 x02] `prefix_of` q_roots q' /\
    sequence_number t < sequence_number t' /\ next_index t < next_index t'.
Proof.
  destruct ten_values_inv as (t & Ht & Hinv). exists t.
  apply (@next_proof_is_applied model_poseidon accept_all model_poseidon_total 2 10 (2 ^ 40) t
    (mkQ ten_values [NULLIFIER_TREE_INIT_ROOT_40] ∅) zero32 first_update);
    [lia|lia|lia|lia|lia|exact Hinv|split; vm_compute; reflexivity|split; vm_compute; reflexivity
    |vm_compute; lia|vm_compute; reflexivity| |vm_compute; reflexivity].
  exact (@get_root_spec model_poseidon accept_all 2 10 (2 ^ 40) ltac:(lia) ltac:(lia) ltac:(lia) t _ Hinv).
Defined.

Lemma spec_update_target `{SolPoseidon} `{Groth16} K ZB data q m :
  spec_update K ZB data q = Ok (Some m) -> (m < (q_applied q / K + 1) * K)%nat.
Proof.
  unfold spec_update, spec_target. intros Hs.
  destruct (_ && _); [|done]. destruct (bool_decide (_ < K)%nat) eqn:HK; [|done].
  apply bool_decide_eq_true_1 in HK. cbn [rbind] in Hs. case_decide; [done|].
  destruct (bool_decide _); [|done]. case_decide; [done|]. cbn [rbind] in Hs.
  destruct (spec_verify _ _ _ _); simplify_eq/=. lia.
Qed.

(** What an update with an event did. *)
Lemma update_applied `{H : SolPoseidon} `{!PoseidonTotal H} `{G : Groth16} K ZB CAP :
  (0 < K)%nat -> (0 < ZB)%nat -> Z.of_nat (K * ZB) < 2 ^ 61 -> CAP <= 2 ^ 62 -> Z.of_nat K < 2 ^ 32 ->
  forall t t' q pubkey data ev, inv K ZB CAP t q -> 0 <= in_zkp_batch_index data ->
  is_bytes 32 (in_old_root data) -> is_bytes 32 (in_new_root data) ->
  update_tree_from_queue pubkey data t = (Ok (Some ev), t') ->
  exists q', inv K ZB CAP t' q' /\ q_values q' = q_values q /\ q_roots q `prefix_of` q_roots q' /\
    (q_applied q < q_applied q')%nat /\ (q_applied q' <= q_applied q + K)%nat /\
    ev = mkUpdateEvent pubkey (Z.of_nat ZB mod 2 ^ 16) (1 + Z.of_nat (q_applied q * ZB)) (Z.of_nat (q_applied q) + 1)
      (Z.of_nat (S (q_applied q) mod K) mod 2 ^ 32) (Z.of_nat (q_applied q') - Z.of_nat (q_applied q))
      (Z.of_nat (q_applied q - q_applied q / K * K) mod 2 ^ 32) (default zero32 (last (q_roots q'))).
Proof.
  intros HK HZB HB HCAP HK32 t t' q pubkey data ev Hinv Hi Ho Hw Hup.
  pose proof (update_refines_lemma K ZB CAP HK HZB HB HCAP HK32 t q pubkey data Hinv Hi Ho Hw) as Href.
  destruct (spec_update K ZB data q) as [[m|]|e|] eqn:Hs; [|congruence|congruence|done].
  destruct Href as (t1 & q' & Hrun & Hinv' & Happ). rewrite Hrun in Hup. injection Hup as Hev <-.
  destruct (applies_bound _ _ ((q_applied q / K + 1) * K) Happ) as [Hlo Hhi].
  { by destruct (inv_roots _ _ _ _ _ Hinv) as (_ & ? & _). }
  { cbn [q_cache]. intros m' [old new] [[<- _]|[_ Hm']]%lookup_insert_Some; [by eapply spec_update_target|].
    by apply (inv_cache _ _ _ _ _ Hinv) in Hm' as [[_ ?] _]. }
  unfold event_of in Hev. case_decide as Hne; [done|]. injection Hev as <-.
  change (q_applied (mkQ _ (q_roots q) _)) with (q_applied q) in *.
  pose proof (div_bounds (q_applied q) K HK).
  exists q'. split_and!; [done|by apply applies_values in Happ|by apply applies_prefix in Happ|lia|lia|done].
Qed.

(** C27. The update event describes the root history.  After a committed update
    with an event: the event's sequence numbers and leaf index continue those of
    the account before the call, it counts the applied ZKP batches (at least
    one, at most a batch's worth), its root is the new current root, and the
    root numbered [start_sequence_number + i] sits at history index
    [first_root_index + i] modulo the capacity, for every [i] it counts. *)
Theorem update_event_describes_history `{H : SolPoseidon} `{G : Groth16} (Htotal : PoseidonTotal H)
    (K ZB : nat) (CAP : Z) (t t' : NullifierTreeLayout) (q : QSpec) (pubkey : bytes)
    (data : InstructionDataBatchNullifyInputs) (ev : NullifierTreeUpdateEvent) :
  (0 < K)%nat -> (0 < ZB)%nat -> Z.of_nat (K * ZB) < 2 ^ 61 -> CAP <= 2 ^ 62 -> Z.of_nat K < 2 ^ 32 ->
  inv K ZB CAP t q -> 0 <= in_zkp_batch_index data ->
  is_bytes 32 (in_old_root data) -> is_bytes 32 (in_new_root data) ->
  update_tree_from_queue pubkey data t = (Ok (Some ev), t') ->
  exists rs, history ZB t' (q_values q) rs /\ q_roots q `prefix_of` rs /\
    start_sequence_number ev = sequence_number t + 1 /\ ev_old_next_index ev = next_index t /\
    num_update ev = sequence_number t' - sequence_number t /\ 0 < num_update ev <= Z.of_nat K /\
    next_index t' = ev_old_next_index ev + num_update ev * Z.of_nat ZB /\
    get_root t' = Some (ev_new_root ev) /\
    forall i, 0 <= i < num_update ev ->
      roots (root_history t') !! Z.to_nat ((first_root_index ev + i) mod Z.of_nat K)
      = rs !! Z.to_nat (start_sequence_number ev + i).
Proof.
  intros HK HZB HB HCAP HK32 Hinv Hi Ho Hw Hup.
  destruct (update_applied K ZB CAP HK HZB HB HCAP HK32 t t' q pubkey data ev Hinv Hi Ho Hw Hup)
    as (q' & Hinv' & Hvals & Hpre & Hlo & Hhi & ->).
  pose proof (inv_history K ZB CAP t' q' HK HZB HB Hinv') as Hhist. rewrite Hvals in Hhist.
  exists (q_roots q'). pose proof (get_root_spec K ZB CAP HK HZB HB t' q' Hinv') as Hroot.
  pose proof (inv_roots _ _ _ _ _ Hinv') as (Hl & Hpos & _ & Hat & _).
  rewrite (inv_seq _ _ _ _ _ Hinv), (inv_seq _ _ _ _ _ Hinv'), (inv_next _ _ _ _ _ Hinv), (inv_next _ _ _ _ _ Hinv').
  simpl. rewrite Hroot. set (n := q_applied q) in *. split_and!; [done..|lia|done|lia|lia|lia| |].
  - destruct (last (q_roots q')) eqn:Hlast; [done|]. apply last_None in Hlast. rewrite Hlast in Hpos. simpl in Hpos. lia.
  - intros i Hi'. pose proof (Nat.mod_upper_bound (S n) K ltac:(lia)).
    rewrite (Z.mod_small _ (2 ^ 32)) by lia.
    replace (Z.to_nat _) with ((S n + Z.to_nat i) mod K)%nat.
    + replace (Z.to_nat (Z.of_nat n + 1 + i)) with (S n + Z.to_nat i)%nat by lia.
      destruct (lookup_lt_is_Some_2 (q_roots q') (S n + Z.to_nat i)) as [r Hr]; [unfold q_applied in *; lia|].
      rewrite Hr. apply Hat; [done|]. unfold q_applied in *. lia.
    + rewrite <- (Z2Nat.id i) at 2 by lia. rewrite Nat2Z.inj_mod, Zplus_mod_idemp_l, <- Nat2Z.inj_add, <- Nat2Z.inj_mod.
      by rewrite Nat2Z.id.
Qed.

Lemma update_event_describes_history_witness :
  exists t t' ev, @update_tree_from_queue model_poseidon accept_all zero32 first_update t = (Ok (Some ev), t') /\
    exists rs, @history model_poseidon accept_all 10 t' ten_values rs /\
    [NULLIFIER_TREE_INIT_ROOT_40] `prefix_of` rs /\
    start_sequence_number ev = sequence_number t + 1 /\ ev_old_next_index ev = next_index t /\
    num_update ev = sequence_number t' - sequence_number t /\ 0 < num_update ev <= Z.of_nat 2 /\
    next_index t' = ev_old_next_index ev + num_update ev * Z.of_nat 10 /\
    get_root t' = Some (ev_new_root ev) /\
    forall i, 0 <= i < num_update ev ->
      roots (root_history t') !! Z.to_nat ((first_root_index ev + i) mod Z.of_nat 2)
      = rs !! Z.to_nat (start_sequence_number ev + i).
Proof.
  destruct ten_values_inv as (t & Ht & Hinv).
  assert (exists ev t', @update_tree_from_queue model_poseidon accept_all zero32 first_update t = (Ok (Some ev), t'))
    as (ev & t' & Hup).
  { assert ((@insert_all model_poseidon ten_values small_tree).2 = t) as <- by (by rewrite Ht).
    vm_compute. eauto. }
  exists t, t', ev. split; [exact Hup|].
  apply (@update_event_describes_history model_poseidon accept_all model_poseidon_total 2 10 (2 ^ 40) t t'
    (mkQ ten_values [NULLIFIER_TREE_INIT_ROOT_40] ∅) zero32 first_update ev);
    [lia|lia|lia|lia|lia|exact Hinv|vm_compute; congruence|reflexivity|reflexivity|exact Hup].
Defined.
