(* ===== verification/Codec.v ===== *)
(** * Fixed-size memory layouts

    The program's accounts are [repr(C)] structs cast in place from the account
    bytes.  A [Codec] describes such a layout: its size, the bytes of a value
    and the value of bytes, with little-endian integers, byte arrays, arrays,
    structs (as nested pairs through [iso]) and trailing padding as
    combinators.  The class [Lawful] is what the account types rely on: the
    encoding has the layout's size and decodes to the value, and every buffer of
    that size decodes to a well-formed value. *)

From S2P Require Import Prelude.

Record Codec (A : Type) : Type := mkCodec {
  csize : nat;
  valid : A -> Prop;
  enc : A -> bytes;
  dec : bytes -> A;
}.
Arguments mkCodec {A}.
Arguments csize {A}.
Arguments valid {A}.
Arguments enc {A}.
Arguments dec {A}.

Class Lawful {A} (c : Codec A) : Prop := {
  enc_size : forall a, valid c a -> length (enc c a) = csize c;
  dec_enc : forall a, valid c a -> dec c (enc c a) = a;
  dec_valid : forall bs, length bs = csize c -> valid c (dec c bs);
}.

(** An unsigned integer of [n] bytes, little-endian. *)
Definition uint (n : nat) : Codec Z :=
  mkCodec n (fun v => 0 <= v < 256 ^ Z.of_nat n) (le_bytes n) le_val.

Definition u8 : Codec Z := uint 1.
Definition u16 : Codec Z := uint 2.
Definition u32 : Codec Z := uint 4.
Definition u64 : Codec Z := uint 8.

(** [[u8; n]]. *)
Definition raw (n : nat) : Codec bytes := mkCodec n (is_bytes n) (fun bs => bs) (fun bs => bs).

(** Two consecutive fields. *)
Definition cpair {A B} (c : Codec A) (d : Codec B) : Codec (A * B) :=
  mkCodec (csize c + csize d) (fun ab => valid c ab.1 /\ valid d ab.2)
    (fun ab => enc c ab.1 ++ enc d ab.2)
    (fun bs => (dec c (take (csize c) bs), dec d (drop (csize c) bs))).

Infix "⊕" := cpair (at level 52, right associativity) : code_scope.

(** [[T; n]]. *)
Fixpoint dec_n {A} (c : Codec A) (n : nat) (bs : bytes) : list A :=
  match n with
  | O => []
  | S n' => dec c (take (csize c) bs) :: dec_n c n' (drop (csize c) bs)
  end.

Definition array {A} (n : nat) (c : Codec A) : Codec (list A) :=
  mkCodec (n * csize c) (fun l => length l = n /\ Forall (valid c) l)
    (fun l => concat (map (enc c) l)) (dec_n c n).

(** A struct, read as nested pairs of its fields. *)
Definition iso {A B} (to : A -> B) (from : B -> A) (c : Codec A) : Codec B :=
  mkCodec (csize c) (fun b => valid c (from b)) (fun b => enc c (from b)) (fun bs => to (dec c bs)).

(** Trailing alignment padding. *)
Definition padded {A} (n : nat) (c : Codec A) : Codec A :=
  mkCodec (csize c + n) (valid c) (fun a => enc c a ++ replicate n x00)
    (fun bs => dec c (take (csize c) bs)).

(** ** Laws *)

#[export] Instance uint_lawful n : Lawful (uint n).
Proof.
  split; simpl; intros.
  - apply length_le_bytes.
  - by apply le_val_le_bytes.
  - pose proof (le_val_bound bs) as Hb. by rewrite H in Hb.
Qed.

#[export] Instance raw_lawful n : Lawful (raw n).
Proof. by split. Qed.

#[export] Instance pair_lawful {A B} (c : Codec A) (d : Codec B) `{!Lawful c, !Lawful d} :
  Lawful (c ⊕ d).
Proof.
  split; simpl.
  - intros [a b] [Ha Hb]. simpl in *. by rewrite length_app, !enc_size.
  - intros [a b] [Ha Hb]. simpl in *. rewrite take_app_length', drop_app_length' by (by rewrite enc_size).
    by rewrite !dec_enc.
  - intros bs Hbs. split; apply dec_valid; rewrite ?length_take, ?length_drop; lia.
Qed.

#[export] Instance array_lawful {A} n (c : Codec A) `{!Lawful c} : Lawful (array n c).
Proof.
  split; simpl.
  - intros l [<- Hl]. induction Hl as [|a l Ha Hl IH]; simpl; [done|]. by rewrite length_app, enc_size, IH.
  - intros l [<- Hl]. induction Hl as [|a l Ha Hl IH]; simpl; [done|].
    rewrite take_app_length', drop_app_length' by (by rewrite enc_size). by rewrite dec_enc, IH.
  - induction n as [|n IH]; intros bs Hbs; simpl in *; [done|].
    destruct (IH (drop (csize c) bs)) as [Hl Hv]; [rewrite length_drop; lia|].
    split; [by rewrite Hl|]. constructor; [|done]. apply dec_valid. rewrite length_take. lia.
Qed.

Lemma iso_lawful {A B} (to : A -> B) (from : B -> A) (c : Codec A) :
  Lawful c -> (forall a, from (to a) = a) -> (forall b, to (from b) = b) -> Lawful (iso to from c).
Proof.
  intros Hc Hft Htf. split; simpl; intros.
  - by apply enc_size.
  - by rewrite dec_enc.
  - rewrite Hft. by apply dec_valid.
Qed.

#[export] Instance padded_lawful {A} n (c : Codec A) `{!Lawful c} : Lawful (padded n c).
Proof.
  split; simpl.
  - intros a Ha. by rewrite length_app, length_replicate, enc_size.
  - intros a Ha. rewrite take_app_length' by (by rewrite enc_size). by apply dec_enc.
  - intros bs Hbs. apply dec_valid. rewrite length_take. lia.
Qed.

(** The bytes of the field that starts at [offset]. *)
Definition slice (offset len : nat) (bs : bytes) : bytes := take len (drop offset bs).

(** The second field of a pair starts after the first. *)
Lemma slice_skip {A B} (c : Codec A) (d : Codec B) `{!Lawful c} ab offset len :
  valid (c ⊕ d) ab -> slice (csize c + offset) len (enc (c ⊕ d) ab) = slice offset len (enc d ab.2).
Proof.
  intros [Ha _]. unfold slice. simpl. rewrite <- drop_drop.
  rewrite (drop_app_length' (enc c ab.1)) by (by rewrite enc_size). done.
Qed.

Lemma slice_first {A B} (c : Codec A) (d : Codec B) `{!Lawful c} ab :
  valid (c ⊕ d) ab -> slice 0 (csize c) (enc (c ⊕ d) ab) = enc c ab.1.
Proof.
  intros [Ha _]. unfold slice. simpl. rewrite drop_0. by rewrite take_app_length' by (by rewrite enc_size).
Qed.

(** A slice of the first field. *)
Lemma slice_within {A B} (c : Codec A) (d : Codec B) `{!Lawful c} ab offset len :
  (offset + len <= csize c)%nat -> valid (c ⊕ d) ab ->
  slice offset len (enc (c ⊕ d) ab) = slice offset len (enc c ab.1).
Proof.
  intros Hle [Ha _]. unfold slice. cbn [enc cpair]. pose proof (enc_size _ Ha) as Hs.
  rewrite drop_app_le by lia. rewrite take_app_le; [done|]. rewrite length_drop. lia.
Qed.

(** Two valid values with the same bytes are equal. *)
Lemma enc_inj {A} (c : Codec A) `{!Lawful c} a b :
  valid c a -> valid c b -> enc c a = enc c b -> a = b.
Proof. intros Ha Hb He. by rewrite <- (dec_enc a Ha), <- (dec_enc b Hb), He. Qed.

(** A layout without padding: every buffer of its size is an encoding. *)
Class Exact {A} (c : Codec A) : Prop := enc_dec : forall bs, length bs = csize c -> enc c (dec c bs) = bs.

#[export] Instance uint_exact n : Exact (uint n).
Proof. intros bs Hbs. cbn in *. rewrite <- Hbs. apply le_bytes_le_val. Qed.

#[export] Instance raw_exact n : Exact (raw n).
Proof. by intros bs _. Qed.

#[export] Instance pair_exact {A B} (c : Codec A) (d : Codec B) `{!Exact c, !Exact d} : Exact (c ⊕ d).
Proof.
  intros bs Hbs. simpl in *. rewrite !enc_dec by (rewrite ?length_take, ?length_drop; lia). apply take_drop.
Qed.

#[export] Instance array_exact {A} n (c : Codec A) `{!Exact c} : Exact (array n c).
Proof.
  unfold Exact. simpl. induction n as [|n IH]; intros bs Hbs; simpl in *; [by destruct bs|].
  rewrite enc_dec by (rewrite length_take; lia). rewrite IH by (rewrite length_drop; lia). apply take_drop.
Qed.

Lemma iso_exact {A B} (to : A -> B) (from : B -> A) (c : Codec A) :
  Exact c -> (forall a, from (to a) = a) -> Exact (iso to from c).
Proof. intros Hc Hft bs Hbs. simpl in *. rewrite Hft. by apply enc_dec. Qed.

(** ** Zeroed memory *)

(** The value of an all-zero buffer. *)
Class ZeroValue {A} (c : Codec A) (z : A) : Prop := dec_zeros : dec c (replicate (csize c) x00) = z.

#[export] Instance uint_zero n : ZeroValue (uint n) 0.
Proof. unfold ZeroValue. apply le_val_zeros. Qed.

#[export] Instance raw_zero n : ZeroValue (raw n) (replicate n x00).
Proof. done. Qed.

#[export] Instance pair_zero {A B} (c : Codec A) (d : Codec B) a b `{!ZeroValue c a, !ZeroValue d b} :
  ZeroValue (c ⊕ d) (a, b).
Proof.
  unfold ZeroValue. simpl. rewrite replicate_add, take_app_length', drop_app_length' by (by rewrite length_replicate).
  by rewrite !dec_zeros.
Qed.

#[export] Instance array_zero {A} n (c : Codec A) z `{!ZeroValue c z} : ZeroValue (array n c) (replicate n z).
Proof.
  unfold ZeroValue. simpl. induction n as [|n IH]; simpl; [done|].
  rewrite replicate_add, take_app_length', drop_app_length' by (by rewrite length_replicate).
  by rewrite dec_zeros, IH.
Qed.

#[export] Instance iso_zero {A B} (to : A -> B) from (c : Codec A) z `{!ZeroValue c z} :
  ZeroValue (iso to from c) (to z).
Proof. unfold ZeroValue. simpl. by rewrite dec_zeros. Qed.

#[export] Instance padded_zero {A} n (c : Codec A) z `{!ZeroValue c z} : ZeroValue (padded n c) z.
Proof.
  unfold ZeroValue. simpl. rewrite replicate_add, take_app_length' by (by rewrite length_replicate).
  by rewrite dec_zeros.
Qed.
