(* ===== verification/TreeAccount.v ===== *)
(** * The tree account

    src/program-libs/tree/src/lib.rs, fees.rs and the init parameters of
    nullifier_tree/init.rs: one account with the header, the fee schedule and
    balance, the UTXO tree of [Smt] and the nullifier tree of [NullifierTree].
    The account bytes are the [repr(C)] layout of [Codec]; wincode's in-place
    cast is the parameter [Wincode].  The theorems are in [TreeSafety]. *)

From S2P Require Import Prelude ZeroBytes Hasher HashChain Codec Smt Batch NullifierTree.

Definition UTXO_TREE_HEIGHT : nat := 32.
Definition UNINITIALIZED : Z := 0.
Definition INITIALIZED : Z := 1.
Definition PAUSED : Z := 2.
Definition TREE_RESERVED_BYTES : nat := 24.
Definition MAX_FEE_PER_TREE : Z := 1000000.

Record TreeFeeSchedule : Type := mkFees {
  fee_per_tree : Z;
  append_reimbursement : Z;
  close_reimbursement : Z;
}.

Definition fees_validate (fees : TreeFeeSchedule) : res TreeError unit :=
  check negb (MAX_FEE_PER_TREE <? fee_per_tree fees) else FeeTooHigh in
  Ok tt.

Record NullifierTreeInitParams : Type := mkInitParams {
  input_queue_batch_size : Z;
  input_queue_zkp_batch_size : Z;
  params_height : Z;
}.

Definition default_init_params : NullifierTreeInitParams :=
  mkInitParams DEFAULT_NULLIFIER_BATCH_SIZE DEFAULT_NULLIFIER_ZKP_BATCH_SIZE DEFAULT_NULLIFIER_TREE_HEIGHT.

Definition params_validate (p : NullifierTreeInitParams) : res TreeError unit :=
  check negb (negb (params_height p =? DEFAULT_NULLIFIER_TREE_HEIGHT)
              || negb (match_circuit_size (input_queue_zkp_batch_size p))) else NullifierInit in
  map_err (fun _ => NullifierInit)
    (validate_configuration NULLIFIER_TREE_ZKP_BATCHES (input_queue_batch_size p) (input_queue_zkp_batch_size p)).

(** [TreeAccountLayout<UTXO_TREE_HEIGHT, NULLIFIER_TREE_ZKP_BATCHES>]. *)
Record TreeAccountLayout : Type := mkTreeAccount {
  discriminator : Z;
  tree_state : Z;
  tree_id : Z;
  header_padding : bytes;
  fees : TreeFeeSchedule;
  fee_balance : Z;
  live_nullifier_pdas : Z;
  reserved : bytes;
  utxo : UtxoTreeLayout;
  nullifier : NullifierTreeLayout;
}.

(** Field assignments. *)
Definition with_state (v : Z) (l : TreeAccountLayout) : TreeAccountLayout :=
  mkTreeAccount (discriminator l) v (tree_id l) (header_padding l) (fees l) (fee_balance l)
    (live_nullifier_pdas l) (reserved l) (utxo l) (nullifier l).

Definition with_fees (v : TreeFeeSchedule) (l : TreeAccountLayout) : TreeAccountLayout :=
  mkTreeAccount (discriminator l) (tree_state l) (tree_id l) (header_padding l) v (fee_balance l)
    (live_nullifier_pdas l) (reserved l) (utxo l) (nullifier l).

Definition with_fee_balance (v : Z) (l : TreeAccountLayout) : TreeAccountLayout :=
  mkTreeAccount (discriminator l) (tree_state l) (tree_id l) (header_padding l) (fees l) v
    (live_nullifier_pdas l) (reserved l) (utxo l) (nullifier l).

Definition with_live (v : Z) (l : TreeAccountLayout) : TreeAccountLayout :=
  mkTreeAccount (discriminator l) (tree_state l) (tree_id l) (header_padding l) (fees l) (fee_balance l)
    v (reserved l) (utxo l) (nullifier l).

Definition with_utxo (v : UtxoTreeLayout) (l : TreeAccountLayout) : TreeAccountLayout :=
  mkTreeAccount (discriminator l) (tree_state l) (tree_id l) (header_padding l) (fees l) (fee_balance l)
    (live_nullifier_pdas l) (reserved l) v (nullifier l).

Definition with_nullifier (v : NullifierTreeLayout) (l : TreeAccountLayout) : TreeAccountLayout :=
  mkTreeAccount (discriminator l) (tree_state l) (tree_id l) (header_padding l) (fees l) (fee_balance l)
    (live_nullifier_pdas l) (reserved l) (utxo l) v.

(** [utxo_tree()] and [nullifier_tree()]: methods of the embedded trees. *)
Definition utxo_tree {E A} (m : M UtxoTreeLayout E A) : M TreeAccountLayout E A := zoom utxo with_utxo m.

Definition nullifier_tree {E A} (m : M NullifierTreeLayout E A) : M TreeAccountLayout E A :=
  zoom nullifier with_nullifier m.

(** ** The account bytes *)

Definition fees_codec : Codec TreeFeeSchedule :=
  iso (fun '(a, (b, c)) => mkFees a b c)
      (fun f => (fee_per_tree f, (append_reimbursement f, close_reimbursement f)))
      (u64 ⊕ u64 ⊕ u64).

Definition utxo_codec (HEIGHT : nat) : Codec UtxoTreeLayout :=
  iso (fun '(ni, (r, (c, (n, (cap, (sl, (p, (slot, (subs, h))))))))) => mkUtxoTree ni r c n cap sl p slot subs h)
      (fun t => (next_index_bytes t, (root t, (root_history_cursor t, (root_history_len t,
         (root_history_capacity t, (subtrees_len t, (padding t, (last_update_slot t,
         (subtrees t, Smt.root_history t))))))))))
      (raw 8 ⊕ raw 32 ⊕ u16 ⊕ u16 ⊕ u16 ⊕ u8 ⊕ raw 1 ⊕ u64 ⊕ array HEIGHT (raw 32)
       ⊕ array ROOT_HISTORY_CAPACITY (raw 32)).

Definition cached_codec : Codec CachedTreeUpdate :=
  iso (fun '(o, (n, u)) => mkCachedUpdate o n u) (fun c => (old_root c, (new_root c, occupied c)))
      (raw 32 ⊕ raw 32 ⊕ u8).

(** [Batch] has 8-byte alignment, so the array of 65-byte cached updates is
    followed by padding. *)
Definition align8 (n : nat) : nat := ((8 - n mod 8) mod 8)%nat.

Definition batch_codec (K : nat) : Codec Batch :=
  let fields := u64 ⊕ u64 ⊕ u64 ⊕ u64 ⊕ u64 ⊕ u64 ⊕ u64 ⊕ (raw 32 ⊕ raw 32) ⊕ array K (raw 32)
                ⊕ array K cached_codec in
  iso (fun '(a, (b, (c, (d, (e, (f, (g, (p, (h, u))))))))) => mkBatch a b c d e f g p h u)
      (fun b => (num_inserted b, (state b, (num_full_zkp_batches b, (num_inserted_zkp_batches b,
         (batch_size b, (zkp_batch_size b, (start_index b, (pending_values b, (hash_chains b,
         cached_tree_updates b))))))))))
      (padded (align8 (csize fields)) fields).

Definition root_history_codec (K : nat) : Codec RootHistory :=
  iso (fun '(i, r) => mkRootHistory i r) (fun h => (current_index h, roots h)) (u64 ⊕ array K (raw 32)).

Definition nullifier_codec (K : nat) : Codec NullifierTreeLayout :=
  iso (fun '(a, (b, (c, (d, (e, (f, (g, (h, (i, (j, (rh, bs))))))))))) => mkNullifierTree a b c d e f g h i j rh bs)
      (fun t => (sequence_number t, (next_index t, (height t, (currently_processing_batch_index t,
         (capacity t, (tree_batch_size t, (tree_zkp_batch_size t, (pending_batch_index t, (queue_next_index t,
         (close_before_index t, (root_history t, batches t))))))))))))
      (u64 ⊕ u64 ⊕ u32 ⊕ u32 ⊕ u64 ⊕ u64 ⊕ u64 ⊕ u64 ⊕ u64 ⊕ u64 ⊕ root_history_codec K
       ⊕ array 2 (batch_codec K)).

Definition layout_codec : Codec TreeAccountLayout :=
  iso (fun '(d, (s, (i, (p, (f, (b, (l, (r, (u, n))))))))) => mkTreeAccount d s i p f b l r u n)
      (fun l => (discriminator l, (tree_state l, (tree_id l, (header_padding l, (fees l, (fee_balance l,
         (live_nullifier_pdas l, (reserved l, (utxo l, nullifier l))))))))))
      (u8 ⊕ u8 ⊕ u16 ⊕ raw 4 ⊕ fees_codec ⊕ u64 ⊕ u64 ⊕ raw TREE_RESERVED_BYTES
       ⊕ utxo_codec UTXO_TREE_HEIGHT ⊕ nullifier_codec NULLIFIER_TREE_ZKP_BATCHES).

Definition account_size : Z := Z.of_nat (csize layout_codec).
Definition tree_id_offset : nat := 2.
Definition utxo_tree_offset : nat := 72.
Definition state_root_offset : nat := utxo_tree_offset + Z.to_nat ROOT_OFFSET.

(** wincode's zero-copy cast of a mutable buffer. *)
Class Wincode : Type := deserialize_mut : bytes -> option TreeAccountLayout.

(** A buffer of the layout's size is cast; a shorter one is refused. *)
Class WincodeLaw (W : Wincode) : Prop := {
  wincode_exact : forall bs, Z.of_nat (length bs) = account_size -> deserialize_mut bs = Some (dec layout_codec bs);
  wincode_short : forall bs, Z.of_nat (length bs) < account_size -> deserialize_mut bs = None;
}.

(** ** Loading *)

Record TreeAccount : Type := mkTree {
  pubkey : bytes;
  layout : TreeAccountLayout;
}.

Definition is_paused (l : TreeAccountLayout) : bool := tree_state l =? PAUSED.

Definition check_layout (l : TreeAccountLayout) : res TreeError unit :=
  let capacity := root_history_capacity (utxo l) in
  let cursor := root_history_cursor (utxo l) in
  let len := root_history_len (utxo l) in
  check negb (negb (subtrees_len (utxo l) =? Z.of_nat UTXO_TREE_HEIGHT)
              || negb (capacity =? Z.of_nat ROOT_HISTORY_CAPACITY)
              || (capacity <=? cursor)
              || negb ((1 <=? len) && (len <=? capacity))
              || ((len <? capacity) && negb (cursor + 1 =? len))) else Deserialize in
  let? _ := map_err (fun _ => Deserialize) (validate NULLIFIER_TREE_ZKP_BATCHES (nullifier l)) in
  Ok tt.

Section loading.
Context `{SolPoseidon} `{Wincode}.

(** The header fields [init] writes before it initialises the trees. *)
Definition init_header (disc id : Z) (f : TreeFeeSchedule) (l : TreeAccountLayout) : TreeAccountLayout :=
  mkTreeAccount disc INITIALIZED id (replicate 4 x00) f 0 0 (replicate TREE_RESERVED_BYTES x00)
    (utxo l) (nullifier l).

Definition init_trees (utxo_tree_height : Z) (p : NullifierTreeInitParams) : M TreeAccountLayout TreeError unit :=
  exec! utxo_tree (Smt.init UTXO_TREE_HEIGHT utxo_tree_height);
  nullifier_tree (mmap_err (fun _ => NullifierInit)
    (NullifierTree.init NULLIFIER_TREE_ZKP_BATCHES (input_queue_batch_size p) (input_queue_zkp_batch_size p)
       (params_height p))).

Definition init (data : bytes) (disc utxo_tree_height : Z) (key : bytes) (id : Z)
    (nullifier_params : NullifierTreeInitParams) (f : TreeFeeSchedule) : res TreeError TreeAccount :=
  check negb (negb (utxo_tree_height =? Z.of_nat UTXO_TREE_HEIGHT)) else HeightTooLarge in
  let? _ := params_validate nullifier_params in
  let? _ := fees_validate f in
  check Z.of_nat (length data) =? account_size else InvalidBufferSize in
  let? l := ok_or (deserialize_mut data) Deserialize in
  check tree_state l =? UNINITIALIZED else AlreadyInitialized in
  let '(r, l') := init_trees utxo_tree_height nullifier_params (init_header disc id f l) in
  let? _ := r in
  Ok (mkTree key l').

Definition from_bytes (data key : bytes) : res TreeError TreeAccount :=
  let? l := ok_or (deserialize_mut data) Deserialize in
  let? _ := check_layout l in
  Ok (mkTree key l).

(** What the loader reads of pinocchio's [AccountView]. *)
Record AccountView : Type := mkAccountView {
  is_writable : bool;
  owner : bytes;
  address : bytes;
  borrowed : bool;
  data : bytes;
}.

Definition load_checked (account : AccountView) (program_id : bytes) (disc : Z) : res TreeError TreeAccount :=
  check is_writable account else NotWritable in
  check bool_decide (owner account = program_id) else InvalidOwner in
  check negb (borrowed account) else Borrowed in
  check bool_decide (head (data account) = Some (byte_of disc)) else InvalidDiscriminator in
  let? l := ok_or (deserialize_mut (data account)) Deserialize in
  let? _ := check_layout l in
  Ok (mkTree (address account) l).

Definition from_account_view_mut (account : AccountView) (program_id : bytes) (disc : Z)
    : res TreeError TreeAccount :=
  let? tree := load_checked account program_id disc in
  check negb (is_paused (layout tree)) else Paused in
  Ok tree.

Definition from_account_view_mut_allow_paused (account : AccountView) (program_id : bytes) (disc : Z)
    : res TreeError TreeAccount :=
  load_checked account program_id disc.

End loading.

Definition dummy_input_headroom (l : TreeAccountLayout) : res TreeError Z :=
  let? remaining := map_err (fun _ => InvalidCapacity) (remaining_queue_capacity (nullifier l)) in
  Ok (saturating_sub remaining (Smt.capacity UTXO_TREE_HEIGHT)).

Definition get_utxo_tree_root (l : TreeAccountLayout) (index : Z) : res TreeError bytes :=
  Smt.root_by_index (utxo l) index.

Definition get_nullifier_tree_root (l : TreeAccountLayout) (index : Z) : res TreeError bytes :=
  ok_or (NullifierTree.root_by_index (nullifier l) index) InvalidRootIndex.

(** The tree id as a right-aligned big-endian field element. *)
Definition tree_id_array (l : TreeAccountLayout) : bytes := replicate 30 x00 ++ be_bytes 2 (tree_id l).

Definition set_paused (paused : bool) : M TreeAccountLayout TreeError unit :=
  mmodify (with_state (if paused then PAUSED else INITIALIZED)).

(** ** fees.rs *)

Definition set_fee_schedule (f : TreeFeeSchedule) : M TreeAccountLayout TreeError unit :=
  exec! mlift (fees_validate f);
  mmodify (with_fees f).

Definition credit_tree_fee : M TreeAccountLayout TreeError Z :=
  do! l <- mget;
  let fee := fee_per_tree (fees l) in
  do! balance <- mlift (ok_or (checked_add 64 (fee_balance l) fee) FeeOverflow);
  exec! mmodify (with_fee_balance balance);
  mret fee.

Definition fee_balance_reserve (l : TreeAccountLayout) : Z :=
  let live := live_nullifier_pdas l in
  let zkp_batch_size := tree_zkp_batch_size (nullifier l) in
  let appends := if zkp_batch_size =? 0 then live else div_ceil live zkp_batch_size in
  saturating_add 64 (saturating_mul 64 live (close_reimbursement (fees l)))
    (saturating_mul 64 appends (append_reimbursement (fees l))).

Definition release_fee_surplus : M TreeAccountLayout TreeError Z :=
  do! l <- mget;
  let reserve := fee_balance_reserve l in
  let surplus := saturating_sub (fee_balance l) reserve in
  do! balance <- mlift (usub (fee_balance l) surplus);
  exec! mmodify (with_fee_balance balance);
  mret surplus.

Definition record_nullifier_pdas_created (queued : Z) : M TreeAccountLayout TreeError unit :=
  mmodify (fun l => with_live (saturating_add 64 (live_nullifier_pdas l) queued) l).

Definition record_nullifier_pdas_closed (closed : Z) : M TreeAccountLayout TreeError unit :=
  mmodify (fun l => with_live (saturating_sub (live_nullifier_pdas l) closed) l).

Definition take_reimbursement (rate count : Z) : M TreeAccountLayout TreeError Z :=
  let owed := saturating_mul 64 rate count in
  do! l <- mget;
  let paid := Z.min owed (fee_balance l) in
  do! balance <- mlift (usub (fee_balance l) paid);
  exec! mmodify (with_fee_balance balance);
  mret paid.

Definition take_append_reimbursement (num_update : Z) : M TreeAccountLayout TreeError Z :=
  do! l <- mget;
  take_reimbursement (append_reimbursement (fees l)) num_update.

Definition take_close_reimbursement (closed : Z) : M TreeAccountLayout TreeError Z :=
  do! l <- mget;
  take_reimbursement (close_reimbursement (fees l)) closed.
