(* ===== verification/Typed.v ===== *)
(** * Typing of stateful code

    Machine types are predicates in this library ([valid] of a layout,
    [is_bytes], [in_width]).  [typed P Q m] says that [m] keeps the state in [P],
    whatever its outcome, and that a returned value is in [Q]; the rules below
    follow the structure of the monad, and [typing] applies them. *)

From S2P Require Import Prelude.

Definition typed {S E A} (P : S -> Prop) (Q : A -> Prop) (m : M S E A) : Prop :=
  forall s r s', P s -> m s = (r, s') -> P s' /\ forall a, r = Ok a -> Q a.

Definition any {A : Type} (_ : A) : Prop := True.

Section rules.
Context {S E : Type} (P : S -> Prop).
Implicit Types (e : E).

Lemma typed_weaken {A} (Q Q' : A -> Prop) (m : M S E A) : typed P Q m -> (forall a, Q a -> Q' a) -> typed P Q' m.
Proof. intros Hm HQ s r s' Hs Hr. destruct (Hm s r s' Hs Hr) as [? HQr]. split; [done|]. eauto. Qed.

Lemma typed_ret {A} (Q : A -> Prop) (a : A) : Q a -> typed P Q (mret (E := E) a).
Proof. intros Ha s r s' Hs [= <- <-]. split; [done|]. by intros ? [= <-]. Qed.

Lemma typed_throw {A} (Q : A -> Prop) e : typed P Q (mthrow e).
Proof. by intros s r s' Hs [= <- <-]. Qed.

Lemma typed_bind {A B} (Q : A -> Prop) (R : B -> Prop) (m : M S E A) (k : A -> M S E B) :
  typed P Q m -> (forall a, Q a -> typed P R (k a)) -> typed P R (mbindM m k).
Proof.
  intros Hm Hk s r s' Hs. unfold mbindM. destruct (m s) as [[a|e|] s1] eqn:Hr; intros Hr';
    destruct (Hm _ _ _ Hs Hr) as [Hs1 Ha]; [|by injection Hr' as <- <-..].
  by apply (Hk a (Ha a eq_refl) s1).
Qed.

Lemma typed_get : typed P P (mget (E := E)).
Proof. intros s r s' Hs [= <- <-]. split; [done|]. by intros ? [= <-]. Qed.

Lemma typed_lift {A} (Q : A -> Prop) (r : res E A) : (forall a, r = Ok a -> Q a) -> typed P Q (mlift r).
Proof. by intros Hr s r' s' Hs [= <- <-]. Qed.

Lemma typed_modify (f : S -> S) : (forall s, P s -> P (f s)) -> typed P any (mmodify (E := E) f).
Proof. intros Hf s r s' Hs [= <- <-]. split; [by apply Hf|]. done. Qed.

Lemma typed_map_err {F A} (Q : A -> Prop) (f : E -> F) (m : M S E A) : typed P Q m -> typed P Q (mmap_err f m).
Proof.
  intros Hm s r s' Hs. unfold mmap_err. destruct (m s) as [r0 s0] eqn:Hr. intros [= <- <-].
  destruct (Hm _ _ _ Hs Hr) as [? Ha]. split; [done|]. intros a Hra. apply Ha. by apply map_err_ok in Hra.
Qed.

Lemma typed_zoom {T A} (P' : T -> Prop) (Q : A -> Prop) get set (m : M T E A) :
  typed P' Q m -> (forall s, P s -> P' (get s)) -> (forall s t, P s -> P' t -> P (set t s)) ->
  typed P Q (zoom get set m).
Proof.
  intros Hm Hget Hset s r s' Hs. unfold zoom. destruct (m (get s)) as [r0 t0] eqn:Hr. intros [= <- <-].
  destruct (Hm _ _ _ (Hget _ Hs) Hr) as [? ?]. split; [by apply Hset|done].
Qed.

End rules.

(** Follow the code down to its lifted results, modifications and calls. *)
Ltac typing :=
  lazymatch goal with
  | |- typed _ _ (mret _) => apply typed_ret
  | |- typed _ _ (mthrow _) => apply typed_throw
  | |- typed _ _ mget => apply typed_get
  | |- typed _ _ (mbindM mget _) => eapply typed_bind; [apply typed_get|cbv beta; intros; typing]
  | |- typed _ _ (mbindM (mlift _) _) =>
      eapply typed_bind; [apply typed_lift; let H := fresh "Hr" in intros ? H; exact H|cbv beta; intros; typing]
  | |- typed _ _ (mbindM (mmodify _) _) => eapply typed_bind; [apply typed_modify|intros ? _; typing]
  | |- typed _ _ (mmodify _) => eapply typed_weaken; [apply typed_modify|done]
  | |- typed _ _ (if ?b then _ else _) => destruct b eqn:?; typing
  | |- typed _ _ (match ?x with _ => _ end) => destruct x eqn:?; typing
  | |- _ => idtac
  end.
