(* ===== verification/TreeTypes.v ===== *)
(** * The tree account's operations are well typed

    Every operation on the account keeps each field within its machine type:
    counters within their width and arrays at their length, so the account is
    always the decoding of its own 40,080 bytes.  The only facts used of the
    hash are that its output has 32 bytes. *)

From S2P Require Import Prelude ZeroBytes Hasher HashChain Codec Smt Batch NullifierTree TreeAccount Typed.

(** The system call writes a 32-byte buffer. *)
Class PoseidonSized (H : SolPoseidon) : Prop :=
  poseidon_sized : forall vals code h, sol_poseidon vals = (code, h) -> is_bytes 32 h.

Lemma hashv_sized `{PoseidonSized} vals h : Poseidon.hashv vals = Ok h -> is_bytes 32 h.
Proof.
  unfold Poseidon.hashv. destruct (find _ _); [done|]. destruct (sol_poseidon vals) as [[| |] v] eqn:Hs; [|done..].
  intros [= <-]. by eapply poseidon_sized.
Qed.

Lemma model_poseidon_sized : PoseidonSized model_poseidon.
Proof.
  assert (forall vals, is_bytes 32 (mix vals)) as Hmix by (intros; apply length_be_bytes).
  assert (forall t k o, Forall canonical t -> is_bytes 32 o -> is_bytes 32 (table_step t k o)) as Htab.
  { intros t k o Ht Ho. unfold table_step. destruct (list_find _ _) as [[i x]|]; simpl; [|done].
    destruct (t !! S i) eqn:Hi; simpl; [|done]. by destruct (Forall_lookup_1 _ _ _ _ Ht Hi). }
  intros vals code h [= _ <-]. destruct vals as [|a [|b [|c [|d [|e vals]]]]]; try apply Hmix; case_decide; try apply Hmix.
  - apply Htab; [apply poseidon_zero_bytes_canonical|apply Hmix].
  - apply Htab; [apply zero_suffix_chains_canonical|apply Hmix].
Qed.

(** A successful call writes a canonical field element. *)
Class PoseidonField (H : SolPoseidon) : Prop :=
  poseidon_field : forall vals h, sol_poseidon vals = (0, h) -> canonical h.

Lemma hashv_canonical `{PoseidonField} vals h : Poseidon.hashv vals = Ok h -> canonical h.
Proof.
  unfold Poseidon.hashv. destruct (find _ _); [done|]. destruct (sol_poseidon vals) as [[| |] v] eqn:Hs; [|done..].
  intros [= <-]. by eapply poseidon_field.
Qed.

Lemma model_poseidon_field : PoseidonField model_poseidon.
Proof.
  assert (forall vals, canonical (mix vals)) as Hmix.
  { intros [|a vals]; [vm_compute; done|by apply mix_canonical]. }
  intros vals h [= <-]. destruct vals as [|a [|b [|c [|d [|e vals]]]]]; try apply Hmix; case_decide; try apply Hmix.
  - apply table_step_canonical; [apply poseidon_zero_bytes_canonical|apply Hmix].
  - apply table_step_canonical; [apply zero_suffix_chains_canonical|apply Hmix].
Qed.

Lemma valid_u64 x : valid u64 x <-> 0 <= x < 2 ^ 64.
Proof. reflexivity. Qed.

Lemma valid_u32 x : valid u32 x <-> 0 <= x < 2 ^ 32.
Proof. reflexivity. Qed.

Lemma valid_u16 x : valid u16 x <-> 0 <= x < 2 ^ 16.
Proof. reflexivity. Qed.

Lemma valid_u8 x : valid u8 x <-> 0 <= x < 2 ^ 8.
Proof. reflexivity. Qed.

Lemma array_insert {A} n (c : Codec A) i x l : valid (array n c) l -> valid c x -> valid (array n c) (<[i := x]> l).
Proof. intros [Hl Hv] Hx. split; [by rewrite length_insert|]. by apply Forall_insert. Qed.

Lemma array_lookup {A} n (c : Codec A) i x l : valid (array n c) l -> l !! i = Some x -> valid c x.
Proof. intros [_ Hv] Hx. by eapply Forall_lookup_1. Qed.

#[export] Hint Resolve array_insert array_lookup : pool.

(** ** Batches *)

Lemma batch_valid K b : valid (batch_codec K) b <->
  valid u64 (num_inserted b) /\ valid u64 (state b) /\ valid u64 (num_full_zkp_batches b) /\
  valid u64 (num_inserted_zkp_batches b) /\ valid u64 (batch_size b) /\ valid u64 (zkp_batch_size b) /\
  valid u64 (start_index b) /\ (is_bytes 32 (pending_values b).1 /\ is_bytes 32 (pending_values b).2) /\
  valid (array K (raw 32)) (hash_chains b) /\ valid (array K cached_codec) (cached_tree_updates b).
Proof. reflexivity. Qed.

Lemma cached_valid u : valid cached_codec u <->
  is_bytes 32 (old_root u) /\ is_bytes 32 (new_root u) /\ valid u8 (occupied u).
Proof. reflexivity. Qed.


(** Solve the typing of a changed record from that of the original. *)
Ltac fields lem := rewrite !lem in *; repeat match goal with H : _ /\ _ |- _ => destruct H end;
  split_and!; try assumption.

Section batch.
Context `{H : SolPoseidon} {HS : PoseidonSized H} (K : nat).
Notation ok := (valid (batch_codec K)).

Lemma set_num_inserted_ok v b : valid u64 v -> ok b -> ok (set_num_inserted v b).
Proof. intros Hv Hb. fields batch_valid. Qed.

Lemma set_state_ok s b : ok b -> ok (set_state (u64_of_batch_state s) b).
Proof. intros Hb. fields batch_valid. by destruct s. Qed.

Lemma set_num_full_ok v b : valid u64 v -> ok b -> ok (set_num_full v b).
Proof. intros Hv Hb. fields batch_valid. Qed.

Lemma set_num_inserted_zkp_ok v b : valid u64 v -> ok b -> ok (set_num_inserted_zkp v b).
Proof. intros Hv Hb. fields batch_valid. Qed.

Lemma set_pending_ok x y b : is_bytes 32 x -> is_bytes 32 y -> ok b -> ok (set_pending (x, y) b).
Proof. intros Hx Hy Hb. fields batch_valid. Qed.

Lemma set_chains_ok v b : valid (array K (raw 32)) v -> ok b -> ok (set_hash_chains v b).
Proof. intros Hv Hb. fields batch_valid. Qed.

Lemma set_cached_ok v b : valid (array K cached_codec) v -> ok b -> ok (set_cached v b).
Proof. intros Hv Hb. fields batch_valid. Qed.

Lemma reset_ok s z i b : valid u64 s -> valid u64 z -> valid u64 i -> ok b -> ok (reset s z i b).
Proof. intros Hs Hz Hi Hb. fields batch_valid; by rewrite valid_u64. Qed.

Lemma uadd_u64 {E} a b c : valid u64 a -> valid u64 b -> (uadd 64 a b : res E Z) = Ok c -> valid u64 c.
Proof. rewrite !valid_u64, uadd_ok. lia. Qed.

Lemma one_u64 : valid u64 1.
Proof. by rewrite valid_u64. Qed.

Lemma zero_u64 : valid u64 0.
Proof. by rewrite valid_u64. Qed.

#[local] Hint Resolve set_num_inserted_ok set_state_ok set_num_full_ok set_num_inserted_zkp_ok set_pending_ok
  set_chains_ok set_cached_ok reset_ok one_u64 zero_u64 : pool.

Lemma batch_counters b : ok b -> valid u64 (num_inserted b) /\ valid u64 (num_full_zkp_batches b) /\
  valid u64 (num_inserted_zkp_batches b) /\ valid u64 (batch_size b) /\ valid u64 (zkp_batch_size b) /\
  valid u64 (start_index b).
Proof. rewrite batch_valid. tauto. Qed.

Lemma batch_chains b : ok b -> valid (array K (raw 32)) (hash_chains b) /\
  valid (array K cached_codec) (cached_tree_updates b) /\ is_bytes 32 (pending_values b).1 /\ is_bytes 32 (pending_values b).2.
Proof. rewrite batch_valid. tauto. Qed.

Lemma advance_state_to_full_typed : typed ok any advance_state_to_full.
Proof. unfold advance_state_to_full. typing. eauto with pool. Qed.

Lemma advance_state_to_inserted_typed : typed ok any advance_state_to_inserted.
Proof. unfold advance_state_to_inserted. typing. eauto with pool. Qed.

Lemma ensure_ready_to_fill_typed s : valid u64 s -> typed ok any (ensure_ready_to_fill s).
Proof.
  intros Hs. unfold ensure_ready_to_fill, advance_state_to_fill. typing; try done.
  intros b Hb. destruct (batch_counters a H0) as (_ & _ & _ & _ & _ & Hstart).
  destruct (batch_counters a3 H4) as (_ & _ & _ & ? & ? & _). apply reset_ok; [done..| |done]. apply ok_or_ok, checked_add_Some in H3 as [-> ?]. unfold umul in H2.
  apply or_panic_ok, checked_mul_Some in H2 as [-> ?].
  rewrite valid_u64 in *. unfold NUM_BATCHES in *. lia.
Qed.

Lemma extend_chain_typed b v hc full : ok b -> is_bytes 32 v -> is_bytes 32 hc ->
  typed ok any (extend_chain b v hc full).
Proof.
  intros Hb Hv Hc. destruct (batch_chains b Hb) as (Hch & _ & Hp1 & Hp2). unfold extend_chain.
  destruct (pending_values b) as [x y]. typing; intros s Hs.
  - apply set_chains_ok; [|done]. by apply array_insert.
  - apply set_chains_ok; [|done]. apply array_insert; [done|]. apply map_err_ok in H0. by apply hashv_sized in H0.
  - by destruct (num_pending b =? 0); apply set_pending_ok.
Qed.

Lemma add_to_hash_chain_typed v : is_bytes 32 v -> typed ok any (add_to_hash_chain v).
Proof.
  intros Hv. unfold add_to_hash_chain. typing. all: try (by intros s Hs; eauto with pool).
  eapply typed_bind; [apply extend_chain_typed; [done..|]|].
  { apply ok_or_ok in H3. destruct (batch_chains _ H0) as [Hch _]. exact (array_lookup _ _ _ _ _ Hch H3). }
  destruct (batch_counters _ H0) as (Hn & Hf & _). apply uadd_u64 in H2; [|done|apply one_u64].
  intros _ _. typing; try done.
  - intros s Hs. by apply set_num_inserted_ok.
  - intros s Hs. apply uadd_u64 in H4; [|done|apply one_u64]. by apply set_num_full_ok.
  - intros s Hs. apply set_num_inserted_ok; [apply zero_u64|done].
  - apply advance_state_to_full_typed.
Qed.

Lemma cache_tree_update_typed i u : valid cached_codec u -> typed ok any (cache_tree_update i u).
Proof.
  intros Hu b r b' Hb. unfold cache_tree_update. destruct (_ !! i); intros [= <- <-]; [|done].
  split; [|done]. apply set_cached_ok; [|done]. apply array_insert; [apply (batch_chains b Hb)|done].
Qed.

Lemma cached_default_ok : valid cached_codec cached_default.
Proof. by rewrite cached_valid. Qed.

Lemma clear_cached_typed i : typed ok any (clear_cached_tree_update i).
Proof.
  unfold clear_cached_tree_update, evict_cached_tree_update.
  eapply typed_bind; [apply cache_tree_update_typed, cached_default_ok|].
  intros _ _ b r b' Hb. destruct (_ !! i); intros [= <- <-]; [|done]. split; [|done].
  apply set_chains_ok; [|done]. apply array_insert; [apply (batch_chains b Hb)|done].
Qed.

Lemma mark_as_inserted_typed : typed ok any mark_as_inserted_in_merkle_tree.
Proof.
  unfold mark_as_inserted_in_merkle_tree. typing.
  - intros s Hs. destruct (batch_counters _ H0) as (_ & _ & Hi & _).
    apply uadd_u64 in H3; [|done|apply one_u64]. by apply set_num_inserted_zkp_ok.
  - eapply typed_bind with (Q := any).
    { destruct (_ =? _); [apply advance_state_to_inserted_typed|by apply typed_ret]. }
    intros _ _. typing. by apply typed_lift.
Qed.

End batch.

(** ** The nullifier tree *)

Lemma nullifier_valid K t : valid (nullifier_codec K) t <->
  valid u64 (sequence_number t) /\ valid u64 (next_index t) /\ valid u32 (height t) /\
  valid u32 (currently_processing_batch_index t) /\ valid u64 (capacity t) /\ valid u64 (tree_batch_size t) /\
  valid u64 (tree_zkp_batch_size t) /\ valid u64 (pending_batch_index t) /\ valid u64 (queue_next_index t) /\
  valid u64 (close_before_index t) /\
  (valid u64 (current_index (root_history t)) /\ valid (array K (raw 32)) (roots (root_history t))) /\
  valid (array 2 (batch_codec K)) (batches t).
Proof. reflexivity. Qed.

Section nullifier.
Context `{H : SolPoseidon} {HS : PoseidonSized H} `{G : Groth16} (K : nat) (HK : Z.of_nat K < 2 ^ 64).
Notation ok := (valid (nullifier_codec K)).

Lemma set_batches_ok v t : valid (array 2 (batch_codec K)) v -> ok t -> ok (set_batches v t).
Proof. intros Hv Ht. fields nullifier_valid. Qed.

Lemma set_current_ok v t : valid u32 v -> ok t -> ok (set_current_batch_index v t).
Proof. intros Hv Ht. fields nullifier_valid. Qed.

Lemma set_pending_index_ok v t : valid u64 v -> ok t -> ok (set_pending_batch_index v t).
Proof. intros Hv Ht. fields nullifier_valid. Qed.

Lemma set_queue_next_ok v t : valid u64 v -> ok t -> ok (set_queue_next_index v t).
Proof. intros Hv Ht. fields nullifier_valid. Qed.

Lemma set_close_ok v t : valid u64 v -> ok t -> ok (set_close_before_index v t).
Proof. intros Hv Ht. fields nullifier_valid. Qed.

Lemma set_next_ok v t : valid u64 v -> ok t -> ok (set_next_index v t).
Proof. intros Hv Ht. fields nullifier_valid. Qed.

Lemma set_sequence_ok v t : valid u64 v -> ok t -> ok (set_sequence_number v t).
Proof. intros Hv Ht. fields nullifier_valid. Qed.

Lemma set_root_history_ok i r t :
  valid u64 i -> valid (array K (raw 32)) r -> ok t -> ok (set_root_history (mkRootHistory i r) t).
Proof. intros Hi Hr Ht. fields nullifier_valid. Qed.

Lemma nullifier_arrays t : ok t -> valid (array 2 (batch_codec K)) (batches t) /\
  valid u64 (current_index (root_history t)) /\ valid (array K (raw 32)) (roots (root_history t)).
Proof. rewrite nullifier_valid. tauto. Qed.

Lemma nullifier_counters t : ok t -> valid u64 (tree_batch_size t) /\ valid u64 (tree_zkp_batch_size t) /\
  valid u64 (queue_next_index t) /\ valid u64 (next_index t) /\ valid u64 (sequence_number t) /\
  valid u64 (pending_batch_index t) /\ valid u64 (close_before_index t).
Proof. rewrite nullifier_valid. tauto. Qed.

Lemma batch_at_ok i b t : ok t -> batches t !! i = Some b -> valid (batch_codec K) b.
Proof. rewrite nullifier_valid. intros Ht Hb. eapply array_lookup; [apply Ht|done]. Qed.

Lemma on_batch_typed {A} i (m : M Batch NullifierTreeError A) Q :
  typed (valid (batch_codec K)) Q m -> typed ok Q (on_batch i m).
Proof.
  intros Hm t r t' Ht. unfold on_batch. destruct (batches t !! _) as [b|] eqn:Hb; [|by intros [= <- <-]].
  destruct (m b) as [r0 b'] eqn:Hr. intros [= <- <-].
  destruct (Hm b _ _ (batch_at_ok _ _ _ Ht Hb) Hr) as [Hb' HQ]. split; [|done].
  apply set_batches_ok; [|done]. apply array_insert; [|done]. apply (nullifier_arrays t Ht).
Qed.

Lemma on_current_typed {A} (m : M Batch NullifierTreeError A) Q :
  typed (valid (batch_codec K)) Q m -> typed ok Q (on_current_batch m).
Proof. intros Hm t r t' Ht. by apply on_batch_typed. Qed.

Lemma on_pending_typed {A} (m : M Batch NullifierTreeError A) Q :
  typed (valid (batch_codec K)) Q m -> typed ok Q (on_pending_batch m).
Proof. intros Hm t r t' Ht. by apply on_batch_typed. Qed.

Lemma insert_nullifier_typed v : is_bytes 32 v -> typed ok any (insert_nullifier_into_queue v).
Proof.
  intros Hv. unfold insert_nullifier_into_queue, increment_currently_processing_batch_index_if_full,
    increment_queue_next_index. typing.
  assert (valid u64 (tree_batch_size a)) as Hbs by (apply (nullifier_counters a H0)).
  eapply typed_bind; [apply on_current_typed|].
  { eapply typed_bind; [by apply ensure_ready_to_fill_typed|]. intros _ _. by apply add_to_hash_chain_typed. }
  intros _ _. eapply typed_bind with (Q := any).
  { typing; try done. intros s Hs. apply set_current_ok; [|done]. rewrite valid_u32. unfold NUM_BATCHES.
    pose proof (Z.mod_pos_bound a4 2). lia. }
  intros _ _. eapply typed_bind with (Q := any).
  { typing. intros s Hs. apply set_queue_next_ok; [|done]. eapply uadd_u64; [|apply one_u64|done].
    apply (nullifier_counters _ H2). }
  intros _ _. by apply typed_ret.
Qed.

Lemma append_root_typed r : is_bytes 32 r -> typed ok any (append_root r).
Proof.
  intros Hr t res t' Ht. unfold append_root. destruct (roots (root_history t) !! _) eqn:Hl; intros [= <- <-]; [|done].
  destruct (nullifier_arrays t Ht) as (_ & Hi & Hroots). split; [|done]. apply set_root_history_ok; [| |done].
  - rewrite valid_u64. apply lookup_lt_Some in Hl. destruct Hroots as [HKr _]. rewrite HKr in *.
    pose proof (Z.mod_pos_bound (current_index (root_history t) + 1) (Z.of_nat K) ltac:(lia)). lia.
  - by apply array_insert.
Qed.

Lemma apply_cached_update_typed u i : valid cached_codec u -> typed ok any (apply_cached_update u i).
Proof.
  intros Hu. destruct (proj1 (cached_valid u) Hu) as (_ & Hnew & _). unfold apply_cached_update, increment_merkle_tree_next_index,
    advance_nullifier_pda_close_watermark, increment_pending_batch_index_if_inserted. typing.
  eapply typed_bind with (Q := any).
  { typing. intros s Hs. apply set_next_ok; [|done].
    eapply uadd_u64; [| |exact H3]; [apply (nullifier_counters _ H2)|apply (nullifier_counters _ H0)]. }
  intros _ _. typing.
  { intros s Hs. apply set_sequence_ok; [|done]. eapply uadd_u64; [| |exact H2]; [apply (nullifier_counters _ H0)|apply one_u64]. }
  eapply typed_bind; [by apply append_root_typed|]. intros _ _. typing.
  eapply typed_bind with (Q := any).
  { apply on_pending_typed. eapply typed_bind; [apply mark_as_inserted_typed|]. intros st _.
    eapply typed_bind; [apply clear_cached_typed|]. intros _ _. by apply typed_ret. }
  intros st _. eapply typed_bind with (Q := any).
  { typing; try done. intros s Hs. apply set_close_ok; [|done]. apply ok_or_ok in H5.
    destruct (batch_counters _ _ (batch_at_ok _ _ _ H4 H5)) as (_ & _ & _ & _ & _ & Hst).
    destruct (nullifier_counters _ H4) as (_ & _ & _ & _ & _ & _ & Hc). rewrite valid_u64 in *. lia. }
  intros _ _. eapply typed_bind with (Q := any).
  { typing; try done. intros s Hs. apply set_pending_index_ok; [|done]. rewrite valid_u64. unfold NUM_BATCHES.
    pose proof (Z.mod_pos_bound a5 2). lia. }
  intros _ _. by apply typed_ret.
Qed.

Lemma apply_loop_typed fuel key ev : typed ok any (apply_loop fuel key ev).
Proof.
  revert ev. induction fuel as [|fuel IH]; intros ev; cbn [apply_loop]; [by apply typed_lift|]. typing; try done.
  - eapply typed_bind; [|intros _ _; by apply typed_ret]. apply on_pending_typed, cache_tree_update_typed, cached_default_ok.
  - eapply typed_bind; [apply apply_cached_update_typed|].
    + apply ok_or_ok in H1. pose proof (batch_at_ok _ _ _ H0 H1) as Hb. unfold cached_tree_update in Heqo.
      destruct (cached_tree_updates a0 !! _) as [u|] eqn:Hu; [|done]. destruct (is_occupied u); [|done].
      injection Heqo as ->. eapply array_lookup; [apply (batch_chains _ _ Hb)|done].
    + intros x _. typing. apply IH.
Qed.

Lemma update_tree_typed key data : is_bytes 32 (in_old_root data) -> is_bytes 32 (in_new_root data) ->
  typed ok any (update_tree_from_queue key data).
Proof.
  intros Ho Hn. unfold update_tree_from_queue. typing. eapply typed_bind with (Q := any).
  - unfold verify_proof_cache_update. typing; try done.
    eapply typed_bind with (Q := any); [|intros _ _; by apply typed_ret].
    apply on_pending_typed, cache_tree_update_typed. by rewrite cached_valid.
  - intros c _. typing; try done. unfold apply_cached_tree_updates. typing. apply apply_loop_typed.
Qed.

Lemma nullifier_init_typed s z : valid u64 s -> valid u64 z ->
  typed ok any (NullifierTree.init K s z 40).
Proof.
  intros Hs Hz t r t' Ht. unfold NullifierTree.init. destruct (validate_configuration K s z) as [[]|e|];
    [|by intros [= <- <-]..]. cbn [negb Z.ltb Z.eqb Z.compare Pos.compare Pos.compare_cont Pos.eqb].
  destruct (nullifier_arrays t Ht) as ([Hlen Hbs] & Hi & Hroots). apply nullifier_valid in Ht as Ht'.
  rewrite valid_u64 in Hs.
  destruct (checked_add 64 1 s) as [second|] eqn:Hsec.
  - apply checked_add_Some in Hsec as [-> Hsec].
    assert (valid (array 2 (batch_codec K)) (init_batches s z [1; 1 + s] (batches t))) as Hbatches.
    { destruct (batches t) as [|b0 [|b1 [|b2 bs]]]; try done. apply Forall_cons in Hbs as [Hb0 Hb1].
      rewrite Forall_singleton in Hb1. split; [done|]. unfold init_batches, batch_init. cbn [zip_with].
      constructor; [|constructor; [|constructor]]; apply reset_ok; try done; rewrite valid_u64; lia. }
    destruct (roots (root_history t) !! 0%nat) as [r0|] eqn:Hr0; intros [= <- <-]; (split; [|done]).
    + apply set_root_history_ok; [| |].
      * rewrite valid_u64. apply lookup_lt_Some in Hr0. destruct Hroots as [HKr _]. rewrite HKr in Hr0.
        pose proof (Z.mod_pos_bound 1 (Z.of_nat K) ltac:(lia)). lia.
      * apply array_insert; [done|]. by vm_compute.
      * fields nullifier_valid; by rewrite ?valid_u64, ?valid_u32.
    + fields nullifier_valid; by rewrite ?valid_u64, ?valid_u32.
  - intros [= <- <-]. split; [|done]. fields nullifier_valid; by rewrite ?valid_u64, ?valid_u32.
Qed.

End nullifier.


(** ** The UTXO tree *)

Lemma utxo_valid HEIGHT t : valid (utxo_codec HEIGHT) t <->
  is_bytes 8 (next_index_bytes t) /\ is_bytes 32 (root t) /\ valid u16 (root_history_cursor t) /\
  valid u16 (root_history_len t) /\ valid u16 (root_history_capacity t) /\ valid u8 (subtrees_len t) /\
  is_bytes 1 (padding t) /\ valid u64 (last_update_slot t) /\ valid (array HEIGHT (raw 32)) (subtrees t) /\
  valid (array ROOT_HISTORY_CAPACITY (raw 32)) (Smt.root_history t).
Proof. reflexivity. Qed.

Section utxo.
Context `{H : SolPoseidon} {HS : PoseidonSized H} (HEIGHT : nat).
Notation ok := (valid (utxo_codec HEIGHT)).

Lemma level_loop_typed n last i h zeros : is_bytes 32 h ->
  typed (valid (array n (raw 32))) (is_bytes 32) (level_loop last i h zeros).
Proof.
  revert n i h zeros. intros n i h zeros Hh subs r subs' [Hn Hv]. revert i h zeros Hh subs' r Hn.
  revert n. induction Hv as [|s subs Hs Hv IH]; intros n i h zeros Hh subs' r Hn.
  { destruct zeros as [|z zeros]; cbn [level_loop]; intros [= <- <-]; (split; [by split|]; by intros a [= <-]). }
  destruct zeros as [|z zeros]; cbn [level_loop].
  { intros [= <- <-]. split; [split; [done|by constructor]|]. by intros a [= <-]. }
  assert (forall x, is_bytes 32 x -> forall tl, valid (array (length subs) (raw 32)) tl ->
    valid (array n (raw 32)) (x :: tl)) as Hcons.
  { intros x Hx tl [Htl Hf]. split; [cbn in *; lia|by constructor]. }
  assert (valid (array (length subs) (raw 32)) subs) as Hsubs by done.
  destruct (Z.even i); [destruct (negb last)|].
  - intros [= <- <-]. split; [by apply Hcons|]. by intros a [= <-].
  - destruct (map_err _ _) as [x|e|] eqn:Hx; [|intros [= <- <-]; (split; [by apply Hcons|done])..].
    apply map_err_ok, hashv_sized in Hx. destruct (level_loop last (i / 2) x zeros subs) as [r0 tl] eqn:Hl.
    intros [= <- <-]. destruct (IH _ _ _ _ Hx _ _ eq_refl Hl) as [? ?]. split; [by apply Hcons|done].
  - destruct (map_err _ _) as [x|e|] eqn:Hx; [|intros [= <- <-]; (split; [by apply Hcons|done])..].
    apply map_err_ok, hashv_sized in Hx. destruct (level_loop last (i / 2) x zeros subs) as [r0 tl] eqn:Hl.
    intros [= <- <-]. destruct (IH _ _ _ _ Hx _ _ eq_refl Hl) as [? ?]. split; [by apply Hcons|done].
Qed.

Lemma push_root_ok r slot first t : is_bytes 32 r -> valid u64 slot -> ok t -> ok (push_root r slot first t).
Proof.
  intros Hr Hslot Ht. apply utxo_valid in Ht as Ht'. unfold push_root, set_history.
  destruct (_ && _); fields utxo_valid; try (by apply array_insert); rewrite valid_u16; by apply Z.mod_pos_bound.
Qed.

Lemma append_loop_typed slot first leaves : valid u64 slot -> Forall (is_bytes 32) leaves ->
  typed ok any (append_loop HEIGHT slot first leaves).
Proof.
  intros Hslot Hl. induction Hl as [|leaf leaves Hleaf _ IH]; cbn [append_loop]; [by apply typed_ret|]. typing.
  eapply typed_bind.
  { eapply typed_zoom; [by apply level_loop_typed|by intros s (_ & _ & _ & _ & _ & _ & _ & _ & Hs & _)%utxo_valid|].
    intros s tl Hs Htl. fields utxo_valid. }
  cbv beta. intros h Hh. eapply typed_bind with (Q := any).
  { typing; try done. intros s Hs. apply push_root_ok; [done..|]. fields utxo_valid. }
  intros _ _. typing; [|apply IH]. intros s Hs. fields utxo_valid. apply length_le_bytes.
Qed.

Lemma append_batch_typed slot leaves : valid u64 slot -> Forall (is_bytes 32) leaves ->
  typed ok any (append_batch HEIGHT leaves slot).
Proof. intros Hslot Hl. unfold append_batch. typing. by apply append_loop_typed. Qed.

Lemma zip_assign_valid n dst src : valid (array n (raw 32)) dst -> Forall (is_bytes 32) src ->
  valid (array n (raw 32)) (zip_assign dst src).
Proof.
  intros [Hn Hd] Hs. split; [rewrite length_zip_assign; done|]. clear Hn. revert src Hs.
  induction Hd as [|x dst Hx Hd IH]; intros [|y src] Hs; cbn; try done; try by constructor.
  apply Forall_cons in Hs as [Hy Hs]. constructor; [done|by apply IH].
Qed.

Lemma utxo_init_typed h : typed ok any (Smt.init HEIGHT h).
Proof.
  intros t r t' Ht. unfold Smt.init. destruct (h =? Z.of_nat HEIGHT) eqn:Hheq; [|by intros [= <- <-]]. apply Z.eqb_eq in Hheq.
  destruct (h <? 2 ^ 8) eqn:Hh; [|by intros [= <- <-]]. cbn [negb Z.ltb].
  assert (Forall (is_bytes 32) zero_bytes) as Hz.
  { eapply Forall_impl; [apply poseidon_zero_bytes_canonical|]. by intros x []. }
  destruct (negb _); [by intros [= <- <-]|].
  destruct (zero_bytes !! Z.to_nat h) as [er|] eqn:He; intros [= <- <-]; [|done]. split; [|done].
  pose proof (Forall_lookup_1 _ _ _ _ Hz He) as Her. apply Z.ltb_lt in Hh.
  destruct (proj1 (utxo_valid HEIGHT t) Ht) as (_ & _ & _ & _ & _ & _ & _ & _ & Hsub & Hhist).
  rewrite utxo_valid. split_and!; try done.
  - rewrite valid_u8. cbn. lia.
  - by apply zip_assign_valid.
  - by apply array_insert.
Qed.

End utxo.

(** ** The account *)

Lemma layout_valid l : valid layout_codec l <->
  valid u8 (discriminator l) /\ valid u8 (tree_state l) /\ valid u16 (tree_id l) /\ is_bytes 4 (header_padding l) /\
  valid fees_codec (fees l) /\ valid u64 (fee_balance l) /\ valid u64 (live_nullifier_pdas l) /\
  is_bytes TREE_RESERVED_BYTES (reserved l) /\ valid (utxo_codec UTXO_TREE_HEIGHT) (utxo l) /\
  valid (nullifier_codec NULLIFIER_TREE_ZKP_BATCHES) (nullifier l).
Proof. reflexivity. Qed.

Lemma fees_valid f : valid fees_codec f <->
  valid u64 (fee_per_tree f) /\ valid u64 (append_reimbursement f) /\ valid u64 (close_reimbursement f).
Proof. reflexivity. Qed.

Lemma fees_parts f : valid fees_codec f ->
  valid u64 (fee_per_tree f) /\ valid u64 (append_reimbursement f) /\ valid u64 (close_reimbursement f).
Proof. apply fees_valid. Qed.

Section account.
Context `{H : SolPoseidon} {HS : PoseidonSized H} `{G : Groth16}.
Notation ok := (valid layout_codec).

Lemma utxo_tree_typed {A} (m : M UtxoTreeLayout TreeError A) Q :
  typed (valid (utxo_codec UTXO_TREE_HEIGHT)) Q m -> typed ok Q (utxo_tree m).
Proof.
  intros Hm. eapply typed_zoom; [done| |].
  - intros s Hs. apply (proj1 (layout_valid s) Hs).
  - intros s t Hs Ht. fields layout_valid.
Qed.

Lemma nullifier_tree_typed {A} (m : M NullifierTreeLayout NullifierTreeError A) Q :
  typed (valid (nullifier_codec NULLIFIER_TREE_ZKP_BATCHES)) Q m -> typed ok Q (nullifier_tree m).
Proof.
  intros Hm. eapply typed_zoom; [done| |].
  - intros s Hs. apply (proj1 (layout_valid s) Hs).
  - intros s t Hs Ht. fields layout_valid.
Qed.

Lemma with_balance_ok v l : valid u64 v -> ok l -> ok (with_fee_balance v l).
Proof. intros Hv Hl. fields layout_valid. Qed.

Lemma with_live_ok v l : valid u64 v -> ok l -> ok (with_live v l).
Proof. intros Hv Hl. fields layout_valid. Qed.

Lemma with_fees_ok f l : valid fees_codec f -> ok l -> ok (with_fees f l).
Proof. intros Hf Hl. fields layout_valid. Qed.

Lemma account_balances l : ok l -> valid u64 (fee_balance l) /\ valid u64 (live_nullifier_pdas l) /\
  valid fees_codec (fees l) /\ valid u16 (tree_id l).
Proof. rewrite layout_valid. tauto. Qed.

Lemma set_paused_typed b : typed ok any (set_paused b).
Proof. unfold set_paused. typing. intros l Hl. fields layout_valid. by destruct b. Qed.

Lemma set_fee_schedule_typed f : valid fees_codec f -> typed ok any (set_fee_schedule f).
Proof. intros Hf. unfold set_fee_schedule. typing. intros l Hl. by apply with_fees_ok. Qed.

Lemma credit_tree_fee_typed : typed ok (valid u64) credit_tree_fee.
Proof.
  unfold credit_tree_fee. typing.
  - intros s Hs. apply with_balance_ok; [|done]. destruct (account_balances a) as (Hb & _ & Hf%fees_parts & _); [done|].
    apply ok_or_ok, checked_add_Some in H1 as [-> ?]. destruct Hf as (Hf & _). rewrite valid_u64 in *. lia.
  - destruct (account_balances a) as (_ & _ & Hf%fees_parts & _); [done|]. apply Hf.
Qed.

Lemma release_fee_surplus_typed : typed ok any release_fee_surplus.
Proof.
  unfold release_fee_surplus. typing; [|done]. intros s Hs. apply with_balance_ok; [|done].
  destruct (account_balances a) as (Hb & _); [done|]. unfold usub in H1.
  apply or_panic_ok, checked_sub_Some in H1 as [-> ?]. unfold saturating_sub in *. rewrite valid_u64 in *. lia.
Qed.

Lemma record_created_typed n : valid u64 n -> typed ok any (record_nullifier_pdas_created n).
Proof.
  intros Hn. unfold record_nullifier_pdas_created. typing. intros s Hs. apply with_live_ok; [|done].
  destruct (account_balances s) as (_ & Hl & _); [done|]. unfold saturating_add. rewrite valid_u64 in *. lia.
Qed.

Lemma record_closed_typed n : valid u64 n -> typed ok any (record_nullifier_pdas_closed n).
Proof.
  intros Hn. unfold record_nullifier_pdas_closed. typing. intros s Hs. apply with_live_ok; [|done].
  destruct (account_balances s) as (_ & Hl & _); [done|]. unfold saturating_sub. rewrite valid_u64 in *. lia.
Qed.

Lemma take_reimbursement_typed rate n : valid u64 rate -> 0 <= n -> typed ok (valid u64) (take_reimbursement rate n).
Proof.
  intros Hr Hn. unfold take_reimbursement. typing.
  - intros s Hs. apply with_balance_ok; [|done]. destruct (account_balances a) as (Hb & _); [done|].
    unfold usub in H1. apply or_panic_ok, checked_sub_Some in H1 as [-> ?]. unfold saturating_mul in *.
    rewrite valid_u64 in *. nia.
  - destruct (account_balances a) as (Hb & _); [done|]. unfold saturating_mul. rewrite valid_u64 in *. nia.
Qed.

Lemma take_append_typed n : 0 <= n -> typed ok (valid u64) (take_append_reimbursement n).
Proof.
  intros Hn. unfold take_append_reimbursement. typing. apply take_reimbursement_typed; [|done].
  destruct (account_balances a) as (_ & _ & Hf%fees_parts & _); [done|]. apply Hf.
Qed.

Lemma take_close_typed n : 0 <= n -> typed ok (valid u64) (take_close_reimbursement n).
Proof.
  intros Hn. unfold take_close_reimbursement. typing. apply take_reimbursement_typed; [|done].
  destruct (account_balances a) as (_ & _ & Hf%fees_parts & _); [done|]. apply Hf.
Qed.

End account.
