(* ===== verification/TreeSafety.v ===== *)
(** * The tree account: theorems

    The bytes of the account and its fixed offsets, initialisation, loadability
    of every reachable account, pausing, the fee balance and its reserve, and
    the headroom that keeps dummy inputs from crowding out spends.  The code is
    in [TreeAccount]. *)

From S2P Require Import Prelude ZeroBytes Hasher HashChain MerkleSpec Codec Smt Batch NullifierTree NullifierQueue NullifierSafety TreeAccount Typed TreeTypes.

(** ** The layout *)

Ltac solve_iso :=
  apply iso_lawful; [exact _|by intros; repeat match goal with p : _ * _ |- _ => destruct p end|by intros []].

#[export] Instance fees_lawful : Lawful fees_codec.
Proof. solve_iso. Qed.

#[export] Instance utxo_lawful HEIGHT : Lawful (utxo_codec HEIGHT).
Proof. solve_iso. Qed.

#[export] Instance cached_lawful : Lawful cached_codec.
Proof. solve_iso. Qed.

#[export] Instance batch_lawful K : Lawful (batch_codec K).
Proof. solve_iso. Qed.

#[export] Instance root_history_lawful K : Lawful (root_history_codec K).
Proof. solve_iso. Qed.

#[export] Instance nullifier_lawful K : Lawful (nullifier_codec K).
Proof. solve_iso. Qed.

#[export] Instance layout_lawful : Lawful layout_codec.
Proof. solve_iso. Qed.

(** Skip the first field of the encoded struct in the goal. *)
Ltac skip_field Hv := rewrite slice_skip by (exact _ || exact Hv); destruct Hv as [_ Hv].

(** The account layout: every well-formed account takes exactly 40,080 bytes
    and is read back from them unchanged; the little-endian tree id is at byte 2
    and the current state root at byte 80, the offsets clients read without
    decoding the account. *)
Theorem account_layout_pinned (l : TreeAccountLayout) :
  valid layout_codec l ->
  account_size = 40080 /\ Z.of_nat (length (enc layout_codec l)) = account_size /\
  dec layout_codec (enc layout_codec l) = l /\
  slice tree_id_offset 2 (enc layout_codec l) = le_bytes 2 (tree_id l) /\
  slice state_root_offset 32 (enc layout_codec l) = root (utxo l).
Proof.
  intros Hv. split; [vm_compute; reflexivity|]. split; [unfold account_size; by rewrite enc_size|].
  split; [by apply dec_enc|]. unfold layout_codec, iso in *. cbn [enc valid] in *.
  split.
  - change tree_id_offset with (csize u8 + (csize u8 + 0))%nat.
    do 2 skip_field Hv. by rewrite (slice_first u16) by (exact _ || exact Hv).
  - change state_root_offset
      with (csize u8 + (csize u8 + (csize u16 + (csize (raw 4) + (csize fees_codec + (csize u64 + (csize u64
            + (csize (raw 24) + (csize (raw 8) + 0)))))))))%nat.
    do 8 skip_field Hv.
    rewrite slice_within by (exact _ || exact Hv || (vm_compute; lia)). destruct Hv as [Hv _].
    unfold utxo_codec, iso in *. cbn [enc valid] in *.
    skip_field Hv. by rewrite (slice_first (raw 32)) by (exact _ || exact Hv).
Qed.

(** The freshly allocated, zeroed account. *)
Definition zero_account : bytes := replicate (csize layout_codec) x00.

Lemma zero_account_valid : valid layout_codec (dec layout_codec zero_account).
Proof. apply dec_valid. unfold zero_account. by rewrite length_replicate. Qed.

Lemma account_layout_pinned_witness :
  let l := dec layout_codec zero_account in
  valid layout_codec l /\
  account_size = 40080 /\ Z.of_nat (length (enc layout_codec l)) = account_size /\
  dec layout_codec (enc layout_codec l) = l /\
  slice tree_id_offset 2 (enc layout_codec l) = le_bytes 2 (tree_id l) /\
  slice state_root_offset 32 (enc layout_codec l) = root (utxo l).
Proof.
  intros l. split; [apply zero_account_valid|]. apply (account_layout_pinned l zero_account_valid).
Defined.

(** ** Initialisation *)

(** The zeroed account holds zeroed trees. *)
Lemma zero_account_layout :
  dec layout_codec zero_account
  = mkTreeAccount 0 0 0 (replicate 4 x00) (mkFees 0 0 0) 0 0 (replicate TREE_RESERVED_BYTES x00)
      (blank_tree UTXO_TREE_HEIGHT) (zeroed NULLIFIER_TREE_ZKP_BATCHES).
Proof.
  unfold zero_account. refine (eq_trans (_ : ZeroValue layout_codec _) _); reflexivity.
Qed.

Section account.
Context `{H : SolPoseidon} `{G : Groth16} `{W : Wincode}.

(** The representation invariant of the whole account: both trees represent
    abstract ones, the fee schedule is within the cap, the balances are [u64],
    and the account is initialised. *)
Record account_inv (ZB : nat) (l : TreeAccountLayout) : Prop := {
  ai_utxo : exists st, repr UTXO_TREE_HEIGHT (utxo l) st;
  ai_nullifier : exists q, inv NULLIFIER_TREE_ZKP_BATCHES ZB (2 ^ 40) (nullifier l) q;
  ai_fees : fees_validate (fees l) = Ok tt;
  ai_fee_range : 0 <= fee_per_tree (fees l) /\ 0 <= append_reimbursement (fees l) /\ 0 <= close_reimbursement (fees l);
  ai_balance : is_u64 (fee_balance l);
  ai_live : is_u64 (live_nullifier_pdas l);
  ai_state : tree_state l = INITIALIZED \/ tree_state l = PAUSED;
}.

Definition fees_nonneg (f : TreeFeeSchedule) : Prop :=
  0 <= fee_per_tree f /\ 0 <= append_reimbursement f /\ 0 <= close_reimbursement f.

(** One committed call on the account. *)
Inductive account_step (l : TreeAccountLayout) : TreeAccountLayout -> Prop :=
| step_append leaves slot l' :
    Forall canonical leaves -> valid u64 slot -> utxo_tree (append_batch UTXO_TREE_HEIGHT leaves slot) l = (Ok tt, l') ->
    account_step l l'
| step_queue v i l' :
    is_bytes 32 v -> nullifier_tree (insert_nullifier_into_queue v) l = (Ok i, l') -> account_step l l'
| step_update key data ev l' :
    0 <= in_zkp_batch_index data -> is_bytes 32 (in_old_root data) -> is_bytes 32 (in_new_root data) ->
    nullifier_tree (update_tree_from_queue key data) l = (Ok ev, l') -> account_step l l'
| step_pause b l' : set_paused b l = (Ok tt, l') -> account_step l l'
| step_set_fees f l' : valid fees_codec f -> set_fee_schedule f l = (Ok tt, l') -> account_step l l'
| step_credit fee l' : credit_tree_fee l = (Ok fee, l') -> account_step l l'
| step_release s l' : release_fee_surplus l = (Ok s, l') -> account_step l l'
| step_created n l' : is_u64 n -> record_nullifier_pdas_created n l = (Ok tt, l') -> account_step l l'
| step_closed n l' : is_u64 n -> record_nullifier_pdas_closed n l = (Ok tt, l') -> account_step l l'
| step_take_append n paid l' : is_u32 n -> take_append_reimbursement n l = (Ok paid, l') -> account_step l l'
| step_take_close n paid l' : is_u64 n -> take_close_reimbursement n l = (Ok paid, l') -> account_step l l'.

Lemma params_validate_ok p : params_validate p = Ok tt ->
  exists ZB, (0 < ZB <= 4999)%nat /\ input_queue_zkp_batch_size p = Z.of_nat ZB /\
    input_queue_batch_size p = Z.of_nat (NULLIFIER_TREE_ZKP_BATCHES * ZB) /\ params_height p = 40.
Proof.
  unfold params_validate, DEFAULT_NULLIFIER_TREE_HEIGHT. intros Hp.
  destruct (params_height p =? 40) eqn:Hh; [|done]. destruct (match_circuit_size _) eqn:Hm; [|done].
  cbn [negb orb] in Hp. unfold validate_configuration in Hp. apply Z.eqb_eq in Hh.
  destruct (_ || _) eqn:Hbad; [done|]. rewrite !orb_false_iff, negb_false_iff in Hbad.
  destruct (_ / _ =? _) eqn:Hdiv; [|done]. breflect. exists (Z.to_nat (input_queue_zkp_batch_size p)).
  unfold match_circuit_size, SUPPORTED_ZKP_BATCH_SIZES in Hm. simpl in Hm. unfold NULLIFIER_TREE_ZKP_BATCHES in *.
  pose proof (Z.div_mod (input_queue_batch_size p) (input_queue_zkp_batch_size p)). split_and!; lia.
Qed.

(** The initial abstract queue. *)
Definition queue0 : QSpec := mkQ [] [NULLIFIER_TREE_INIT_ROOT_40] ∅.

Lemma init_account_lemma `{!PoseidonTotal H} `{!ZeroBytesLaw Poseidon.Poseidon} `{!WincodeLaw W} disc key id p f :
  params_validate p = Ok tt -> fees_validate f = Ok tt ->
  exists l empty_root ZB, init zero_account disc (Z.of_nat UTXO_TREE_HEIGHT) key id p f = Ok (mkTree key l) /\
    input_queue_zkp_batch_size p = Z.of_nat ZB /\ (0 < ZB <= 4999)%nat /\
    merkle_root UTXO_TREE_HEIGHT [] = Ok empty_root /\
    repr UTXO_TREE_HEIGHT (utxo l) (mkUtxoSpec [] [empty_root] 0) /\
    inv NULLIFIER_TREE_ZKP_BATCHES ZB (2 ^ 40) (nullifier l) queue0 /\
    l = mkTreeAccount disc INITIALIZED id (replicate 4 x00) f 0 0 (replicate TREE_RESERVED_BYTES x00)
          (utxo l) (nullifier l).
Proof.
  intros Hp Hf. destruct (params_validate_ok p Hp) as (ZB & HZB & Hz & Hb & Hh).
  unfold init. rewrite Z.eqb_refl, Hp, Hf. cbn [negb rbind].
  assert (Z.of_nat (length zero_account) = account_size) as Hlen
    by (unfold zero_account; by rewrite length_replicate).
  rewrite Hlen, Z.eqb_refl, (wincode_exact _ Hlen), zero_account_layout. cbn [ok_or rbind tree_state].
  unfold init_header. cbn [utxo nullifier Z.eqb UNINITIALIZED].
  destruct (init_repr_lemma UTXO_TREE_HEIGHT (blank_tree UTXO_TREE_HEIGHT)) as (u & r & Hu & Hr & Hrep);
    [unfold UTXO_TREE_HEIGHT, MAX_HEIGHT; lia|reflexivity..|].
  destruct (init_inv_lemma NULLIFIER_TREE_ZKP_BATCHES ZB) as (n & Hn & Hinv); [unfold NULLIFIER_TREE_ZKP_BATCHES; lia..|].
  unfold init_trees, utxo_tree, nullifier_tree, mbindM, zoom, mmap_err. cbn [utxo].
  rewrite Hu. cbn [nullifier with_utxo]. rewrite Hh, Hz, Hb, Hn. cbn [map_err rbind].
  exists (mkTreeAccount disc INITIALIZED id (replicate 4 x00) f 0 0 (replicate TREE_RESERVED_BYTES x00) u n), r, ZB.
  split_and!; [reflexivity|done|lia|lia|done..].
Qed.

(** Every committed call preserves the invariant. *)
Lemma take_reimbursement_run rate count l :
  0 <= rate -> 0 <= count -> 0 <= fee_balance l ->
  let paid := Z.min (saturating_mul 64 rate count) (fee_balance l) in
  take_reimbursement rate count l = (Ok paid, with_fee_balance (fee_balance l - paid) l) /\
  0 <= paid <= fee_balance l.
Proof.
  intros Hr Hc Hb paid. assert (0 <= saturating_mul 64 rate count) by (unfold saturating_mul; nia).
  split; [|lia]. unfold take_reimbursement, mbindM, mget, mlift, usub, checked_sub. fold paid.
  rewrite (proj2 (Z.leb_le _ _)) by lia. done.
Qed.

Lemma fee_balance_reserve_range l : 0 <= live_nullifier_pdas l -> fees_nonneg (fees l) ->
  0 <= tree_zkp_batch_size (nullifier l) -> 0 <= fee_balance_reserve l.
Proof.
  intros Hl (_ & Ha & Hc) Hz. unfold fee_balance_reserve, saturating_add, saturating_mul, div_ceil.
  set (zb := tree_zkp_batch_size (nullifier l)) in *.
  assert (0 <= (if zb =? 0 then live_nullifier_pdas l else (live_nullifier_pdas l + zb - 1) / zb)).
  { destruct (Z.eqb_spec zb 0); [done|]. apply Z.div_pos; lia. }
  set (x := if zb =? 0 then _ else _) in *. nia.
Qed.

Lemma release_fee_surplus_run l :
  0 <= fee_balance l -> 0 <= fee_balance_reserve l ->
  release_fee_surplus l
  = (Ok (Z.max 0 (fee_balance l - fee_balance_reserve l)),
     with_fee_balance (Z.min (fee_balance l) (fee_balance_reserve l)) l).
Proof.
  intros Hb Hr. unfold release_fee_surplus, mbindM, mget, mlift, usub, checked_sub, saturating_sub.
  rewrite (proj2 (Z.leb_le _ _)) by lia. cbn. do 2 f_equal. lia.
Qed.

Lemma with_fee_balance_inv ZB l b : account_inv ZB l -> is_u64 b -> account_inv ZB (with_fee_balance b l).
Proof. intros [] Hb. by split. Qed.

Lemma with_live_inv ZB l n : account_inv ZB l -> is_u64 n -> account_inv ZB (with_live n l).
Proof. intros [] Hn. by split. Qed.

Lemma account_reserve_nonneg ZB l : account_inv ZB l -> 0 <= fee_balance_reserve l.
Proof.
  intros Hinv. destruct (ai_nullifier _ _ Hinv) as [q Hq]. pose proof (inv_zkp_batch_size _ _ _ _ _ Hq).
  pose proof (ai_live _ _ Hinv) as Hlive. unfold in_width in Hlive.
  apply fee_balance_reserve_range; [lia|apply Hinv|lia].
Qed.

Lemma append_step_inv `{!PoseidonTotal H} `{!ZeroBytesLaw Poseidon.Poseidon} ZB leaves slot l l' :
  account_inv ZB l -> Forall canonical leaves ->
  utxo_tree (append_batch UTXO_TREE_HEIGHT leaves slot) l = (Ok tt, l') -> account_inv ZB l'.
Proof.
  intros Hinv Hc Hr. destruct (ai_utxo _ _ Hinv) as [st Hst].
  pose proof (append_refines_lemma UTXO_TREE_HEIGHT (utxo l) st leaves slot
    ltac:(unfold UTXO_TREE_HEIGHT, MAX_HEIGHT; lia) Hst Hc) as Href.
  unfold utxo_tree, zoom in Hr. destruct (append_batch _ _ _ _) as [r u] eqn:Hu.
  injection Hr as -> <-. destruct (spec_append _ _ _ _) as [st'|e|]; [|by destruct Href|done].
  destruct Href as (u' & Hu' & Hrep). injection Hu' as <-. destruct Hinv. split; eauto.
Qed.

(** The tree's parameters are within the bounds of [NullifierQueue]. *)
Lemma zkp_batches_bounds ZB : (0 < ZB <= 4999)%nat ->
  (0 < NULLIFIER_TREE_ZKP_BATCHES)%nat /\ (0 < ZB)%nat /\
  Z.of_nat (NULLIFIER_TREE_ZKP_BATCHES * ZB) < 2 ^ 61 /\ Z.of_nat NULLIFIER_TREE_ZKP_BATCHES < 2 ^ 32.
Proof. unfold NULLIFIER_TREE_ZKP_BATCHES. lia. Qed.

Lemma queue_step_inv `{!PoseidonTotal H} ZB v i l l' :
  (0 < ZB <= 4999)%nat -> account_inv ZB l -> is_bytes 32 v ->
  nullifier_tree (insert_nullifier_into_queue v) l = (Ok i, l') -> account_inv ZB l'.
Proof.
  intros HZB Hinv Hv Hr. destruct (ai_nullifier _ _ Hinv) as [q Hq].
  destruct (zkp_batches_bounds ZB HZB) as (HK & HZ & HB & HK32).
  pose proof (insert_refines_lemma _ ZB (2 ^ 40) HK HZ HB ltac:(lia) (nullifier l) q v Hq Hv) as Href.
  unfold nullifier_tree, zoom in Hr. destruct (insert_nullifier_into_queue _ _) as [r u] eqn:Hu.
  injection Hr as -> <-. destruct (spec_insert _ _ _ _ _) as [[j q']|e|]; [|done|done].
  destruct Href as (u' & Hu' & Hrep). injection Hu' as <- <-. destruct Hinv. split; eauto.
Qed.

Lemma update_step_inv `{!PoseidonTotal H} ZB key data ev l l' :
  (0 < ZB <= 4999)%nat -> account_inv ZB l ->
  0 <= in_zkp_batch_index data -> is_bytes 32 (in_old_root data) -> is_bytes 32 (in_new_root data) ->
  nullifier_tree (update_tree_from_queue key data) l = (Ok ev, l') -> account_inv ZB l'.
Proof.
  intros HZB Hinv Hi Ho Hn Hr. destruct (ai_nullifier _ _ Hinv) as [q Hq].
  destruct (zkp_batches_bounds ZB HZB) as (HK & HZ & HB & HK32).
  pose proof (update_refines_lemma _ ZB (2 ^ 40) HK HZ HB ltac:(lia) HK32 (nullifier l) q key data Hq Hi Ho Hn) as Href.
  unfold nullifier_tree, zoom in Hr. destruct (update_tree_from_queue _ _ _) as [r u] eqn:Hu.
  injection Hr as -> <-. destruct (spec_update _ _ _ _) as [[m|]|e|]; [| |done|done].
  - destruct Href as (u' & q' & Hu' & Hrep & _). injection Hu' as _ <-. destruct Hinv. split; eauto.
  - injection Href as _ ->. destruct Hinv. split; eauto.
Qed.

Lemma reimbursement_step_inv ZB rate n paid l l' :
  account_inv ZB l -> 0 <= rate -> 0 <= n -> take_reimbursement rate n l = (Ok paid, l') -> account_inv ZB l'.
Proof.
  intros Hinv Hr Hn Hrun. pose proof (ai_balance _ _ Hinv) as Hbal. unfold in_width in Hbal.
  destruct (take_reimbursement_run rate n l) as [He Hp]; [lia..|].
  rewrite He in Hrun. injection Hrun as <- <-. apply with_fee_balance_inv; [done|]. unfold in_width. lia.
Qed.

Lemma account_step_inv `{!PoseidonTotal H} `{!ZeroBytesLaw Poseidon.Poseidon} ZB l l' :
  (0 < ZB <= 4999)%nat -> account_inv ZB l -> account_step l l' -> account_inv ZB l'.
Proof.
  intros HZB Hinv Hstep. pose proof (ai_balance _ _ Hinv) as Hbal. pose proof (ai_live _ _ Hinv) as Hlive.
  pose proof (ai_fee_range _ _ Hinv) as (Hf1 & Hf2 & Hf3). pose proof (account_reserve_nonneg _ _ Hinv) as Hres.
  unfold in_width in *. destruct Hstep as [| | |b l' Hr|f l' Hf Hr|fee l' Hr|s l' Hr|n l' [Hn _] Hr
    |n l' [Hn _] Hr|n paid l' [Hn _] Hr|n paid l' [Hn _] Hr].
  - by eapply append_step_inv.
  - by eapply queue_step_inv.
  - by eapply update_step_inv.
  - injection Hr as <-. destruct Hinv. split; try done. destruct b; [by right|by left].
  - unfold set_fee_schedule, mbindM, mlift in Hr. destruct (fees_validate f) as [[]|e|] eqn:Hfv; try done.
    injection Hr as <-. destruct (fees_parts f Hf) as (Hp1 & Hp2 & Hp3). rewrite valid_u64 in *. destruct Hinv.
    split; try done. cbn. lia.
  - unfold credit_tree_fee, mbindM, mget, mlift in Hr.
    destruct (checked_add _ _ _) as [x|] eqn:Hx; cbn in Hr; [|done]. injection Hr as <- <-.
    apply checked_add_Some in Hx as [-> Hx]. apply with_fee_balance_inv; [done|]. split; lia.
  - rewrite release_fee_surplus_run in Hr by lia. injection Hr as <- <-.
    apply with_fee_balance_inv; [done|]. unfold in_width. lia.
  - injection Hr as <-. apply with_live_inv; [done|]. unfold in_width, saturating_add. lia.
  - injection Hr as <-. apply with_live_inv; [done|]. unfold in_width, saturating_sub. lia.
  - exact (reimbursement_step_inv _ _ _ _ _ _ Hinv Hf2 Hn Hr).
  - exact (reimbursement_step_inv _ _ _ _ _ _ Hinv Hf3 Hn Hr).
Qed.

(** Every committed call keeps the account typed. *)
Lemma account_step_typed `{!PoseidonSized H} l l' :
  account_step l l' -> valid layout_codec l -> valid layout_codec l'.
Proof.
  assert (Z.of_nat NULLIFIER_TREE_ZKP_BATCHES < 2 ^ 64) as HK by done.
  assert (forall E A Q (m : M TreeAccountLayout E A) a l', typed (valid layout_codec) Q m -> m l = (Ok a, l') ->
    valid layout_codec l -> valid layout_codec l') as Happ.
  { intros E A Q m a l2 Hm Hr Hl. by apply (Hm l (Ok a)). }
  intros [leaves slot l1 Hc Hslot Hr|v i l1 Hv Hr|key data ev l1 _ Ho Hn Hr|b l1 Hr|f l1 Hf Hr|fee l1 Hr|s l1 Hr
    |n l1 Hn Hr|n l1 Hn Hr|n paid l1 [Hn _] Hr|n paid l1 [Hn _] Hr]; (eapply Happ; [|exact Hr]).
  - apply utxo_tree_typed, append_batch_typed; [done|]. eapply Forall_impl; [exact Hc|]. by intros x [].
  - by apply nullifier_tree_typed, insert_nullifier_typed.
  - by apply nullifier_tree_typed, update_tree_typed.
  - apply set_paused_typed.
  - by apply set_fee_schedule_typed.
  - apply credit_tree_fee_typed.
  - apply release_fee_surplus_typed.
  - by apply record_created_typed.
  - by apply record_closed_typed.
  - by apply take_append_typed.
  - by apply take_close_typed.
Qed.

Lemma account_inv_check ZB l : (0 < ZB <= 4999)%nat -> account_inv ZB l -> check_layout l = Ok tt.
Proof.
  intros HZB Hinv. destruct (ai_utxo _ _ Hinv) as [st Hst]. destruct (ai_nullifier _ _ Hinv) as [q Hq].
  destruct (zkp_batches_bounds ZB HZB) as (HK & HZ & _). unfold check_layout.
  rewrite (inv_validates _ ZB _ _ q HK HZ Hq). cbn [map_err rbind].
  destruct Hst as (_ & _ & _ & _ & _ & _ & _ & (_ & Hpos & Hcur & Hlen & _) & _ & Hcap & Hsub).
  rewrite Hcap, Hsub, !Z.eqb_refl, Hcur, Hlen. set (n := length (spec_roots st)) in *.
  unfold ROOT_HISTORY_CAPACITY. pose proof (Z.mod_pos_bound (Z.of_nat n - 1) (Z.of_nat 500) ltac:(lia)).
  destruct (decide (n < 500)%nat); [rewrite Z.mod_small by lia|]; by destruct (negb _) eqn:E; [|lia].
Qed.

Lemma init_ok_params d disc height key id p f tree :
  init d disc height key id p f = Ok tree -> params_validate p = Ok tt /\ fees_validate f = Ok tt.
Proof.
  unfold init. intros Hinit. destruct (negb _); [|done].
  destruct (params_validate p) as [[]| |]; [|done..]. by destruct (fees_validate f) as [[]| |].
Qed.

(** The values an instruction passes to [init] have their machine types. *)
Definition init_args_ok (disc id : Z) (p : NullifierTreeInitParams) (f : TreeFeeSchedule) : Prop :=
  valid u8 disc /\ valid u16 id /\ valid u64 (input_queue_batch_size p) /\
  valid u64 (input_queue_zkp_batch_size p) /\ valid fees_codec f.

Lemma init_header_ok disc id f l : valid u8 disc -> valid u16 id -> valid fees_codec f ->
  valid layout_codec l -> valid layout_codec (init_header disc id f l).
Proof.
  intros Hd Hi Hf Hl. apply layout_valid in Hl. apply layout_valid.
  destruct Hl as (_ & _ & _ & _ & _ & _ & _ & _ & Hu & Hn).
  split_and!; try assumption.
  - rewrite valid_u8. cbn. unfold INITIALIZED. lia.
  - apply length_replicate.
  - rewrite valid_u64. cbn. lia.
  - rewrite valid_u64. cbn. lia.
  - apply length_replicate.
Qed.

Lemma init_typed `{!PoseidonSized H} `{!WincodeLaw W} d disc height key id p f tree :
  init_args_ok disc id p f -> init d disc height key id p f = Ok tree -> valid layout_codec (layout tree).
Proof.
  intros (Hd & Hi & Hb & Hz & Hf) Hinit. unfold init in Hinit. destruct (negb (negb _)); [|done].
  destruct (params_validate p) as [[]| |] eqn:Hp; [|done..]. destruct (fees_validate f) as [[]| |]; [|done..].
  cbn [rbind] in Hinit. destruct (Z.eqb_spec (Z.of_nat (length d)) account_size) as [Hlen|]; [|done].
  rewrite (wincode_exact _ Hlen) in Hinit. cbn [ok_or rbind] in Hinit. destruct (_ =? UNINITIALIZED); [|done].
  destruct (params_validate_ok p Hp) as (_ & _ & _ & _ & Hheight).
  assert (valid layout_codec (init_header disc id f (dec layout_codec d))) as Hh.
  { assert (valid layout_codec (dec layout_codec d)) as Hv by (apply dec_valid, Nat2Z.inj, Hlen).
    by apply init_header_ok. }
  destruct (init_trees _ _ _) as [r l'] eqn:Ht. destruct r; [|done..]. injection Hinit as <-. cbn [layout].
  assert (typed (valid layout_codec) any (init_trees height p)) as Hty.
  { unfold init_trees. eapply typed_bind; [apply utxo_tree_typed, utxo_init_typed|]. intros _ _.
    rewrite Hheight. eapply typed_zoom; [|intros s Hs; apply (proj1 (layout_valid s) Hs)|intros s t Hs Ht'; fields layout_valid].
    apply typed_map_err. by apply nullifier_init_typed. }
  by apply (Hty _ _ _ Hh Ht).
Qed.

Lemma account_run_typed `{!PoseidonSized H} l0 l :
  rtc account_step l0 l -> valid layout_codec l0 -> valid layout_codec l.
Proof. intros Hrun. induction Hrun; eauto using account_step_typed. Qed.

Lemma account_run_inv `{!PoseidonTotal H} `{!ZeroBytesLaw Poseidon.Poseidon} `{!WincodeLaw W} disc key id p f l0 l :
  fees_nonneg f -> init zero_account disc (Z.of_nat UTXO_TREE_HEIGHT) key id p f = Ok (mkTree key l0) ->
  rtc account_step l0 l -> exists ZB, (0 < ZB <= 4999)%nat /\ account_inv ZB l.
Proof.
  intros Hf Hinit Hrun.
  assert (params_validate p = Ok tt /\ fees_validate f = Ok tt) as [Hp Hfv].
  { by eapply init_ok_params. }
  destruct (init_account_lemma disc key id p f Hp Hfv) as (l1 & r & ZB & Hi & Hz & HZB & _ & Hu & Hn & Hl1).
  rewrite Hi in Hinit. injection Hinit as ->. exists ZB. split; [done|].
  assert (account_inv ZB l0) as Hinv.
  { rewrite Hl1. split; cbn [utxo nullifier fees fee_balance live_nullifier_pdas tree_state]; eauto; split; lia. }
  clear Hi Hl1 Hu Hn. induction Hrun; eauto using account_step_inv.
Qed.

End account.

(** Initialisation: on a zeroed account, with parameters and fees that
    validate, [init] succeeds; the header holds the given discriminator, tree id
    and fees with empty balances, the state tree is the empty tree of height 32,
    and the nullifier queue is empty over the initial root. *)
Theorem tree_init_establishes `{H : SolPoseidon} `{G : Groth16} `{W : Wincode} (Htotal : PoseidonTotal H)
    (Hzero : ZeroBytesLaw Poseidon.Poseidon) (Hwin : WincodeLaw W)
    (disc : Z) (key : bytes) (id : Z) (p : NullifierTreeInitParams) (f : TreeFeeSchedule) :
  params_validate p = Ok tt -> fees_validate f = Ok tt ->
  exists l empty_root, init zero_account disc (Z.of_nat UTXO_TREE_HEIGHT) key id p f = Ok (mkTree key l) /\
    (discriminator l, tree_state l, tree_id l, fees l, fee_balance l, live_nullifier_pdas l)
    = (disc, INITIALIZED, id, f, 0, 0) /\
    merkle_root UTXO_TREE_HEIGHT [] = Ok empty_root /\
    repr UTXO_TREE_HEIGHT (utxo l) (mkUtxoSpec [] [empty_root] 0) /\
    inv NULLIFIER_TREE_ZKP_BATCHES (Z.to_nat (input_queue_zkp_batch_size p)) (2 ^ 40) (nullifier l) queue0.
Proof.
  intros Hp Hf.
  destruct (init_account_lemma disc key id p f Hp Hf) as (l & r & ZB & Hi & Hz & _ & Hr & Hu & Hn & Hl).
  exists l, r. rewrite Hz, Nat2Z.id. split_and!; [done| |done..]. by rewrite Hl.
Qed.

#[local] Instance cast_exact : Wincode := fun bs =>
  if Z.of_nat (length bs) =? account_size then Some (dec layout_codec bs) else None.

Lemma cast_exact_law : WincodeLaw cast_exact.
Proof.
  split; intros bs Hbs; unfold deserialize_mut, cast_exact.
  - by rewrite Hbs, Z.eqb_refl.
  - by rewrite (proj2 (Z.eqb_neq _ _)) by lia.
Qed.

Definition example_fees : TreeFeeSchedule := mkFees 190 5000 46.

Lemma tree_init_establishes_witness :
  exists l empty_root, @init model_poseidon cast_exact zero_account 7 32 zero32 1 default_init_params example_fees
      = Ok (mkTree zero32 l) /\
    (discriminator l, tree_state l, tree_id l, fees l, fee_balance l, live_nullifier_pdas l)
    = (7, INITIALIZED, 1, example_fees, 0, 0) /\
    @merkle_root (@Poseidon.Poseidon model_poseidon) UTXO_TREE_HEIGHT [] = Ok empty_root /\
    @repr model_poseidon UTXO_TREE_HEIGHT (utxo l) (mkUtxoSpec [] [empty_root] 0) /\
    @inv model_poseidon accept_all NULLIFIER_TREE_ZKP_BATCHES (Z.to_nat 4999) (2 ^ 40) (nullifier l) queue0.
Proof.
  exact (@tree_init_establishes model_poseidon accept_all cast_exact model_poseidon_total model_zero_bytes_law
    cast_exact_law 7 zero32 1 default_init_params example_fees eq_refl eq_refl).
Defined.

(** C24. No reachable account is unloadable.  Whatever committed appends, queue
    insertions, tree updates, pauses and fee operations follow initialisation,
    every field stays within its machine type, loading the account's bytes
    succeeds and gives the account back, the fee rate stays within the cap and
    the fee balance within [u64]. *)
Theorem reachable_tree_account_loads `{H : SolPoseidon} `{G : Groth16} `{W : Wincode} (Htotal : PoseidonTotal H)
    (Hsized : PoseidonSized H) (Hzero : ZeroBytesLaw Poseidon.Poseidon) (Hwin : WincodeLaw W) (disc : Z)
    (key : bytes) (id : Z) (p : NullifierTreeInitParams) (f : TreeFeeSchedule) (l0 l : TreeAccountLayout)
    (key' : bytes) :
  init_args_ok disc id p f -> init zero_account disc (Z.of_nat UTXO_TREE_HEIGHT) key id p f = Ok (mkTree key l0) ->
  rtc account_step l0 l ->
  valid layout_codec l /\ from_bytes (enc layout_codec l) key' = Ok (mkTree key' l) /\
  fee_per_tree (fees l) <= MAX_FEE_PER_TREE /\ 0 <= fee_balance l < 2 ^ 64.
Proof.
  intros Hargs Hinit Hrun. pose proof (init_typed _ _ _ _ _ _ _ _ Hargs Hinit) as Hv0.
  pose proof (account_run_typed _ _ Hrun Hv0) as Hv. split; [done|].
  assert (fees_nonneg f) as Hf.
  { destruct Hargs as (_ & _ & _ & _ & Hf%fees_parts). unfold fees_nonneg. rewrite !valid_u64 in Hf. lia. }
  destruct (account_run_inv disc key id p f l0 l Hf Hinit Hrun) as (ZB & HZB & Hinv).
  assert (Z.of_nat (length (enc layout_codec l)) = account_size) as Hlen by (unfold account_size; by rewrite enc_size).
  unfold from_bytes. rewrite (wincode_exact _ Hlen), dec_enc by done. cbn [ok_or rbind].
  rewrite (account_inv_check ZB l HZB Hinv). split; [done|]. pose proof (ai_fees _ _ Hinv) as Hfv.
  pose proof (ai_balance _ _ Hinv) as Hb. split; [|done]. unfold fees_validate in Hfv.
  by destruct (Z.ltb_spec MAX_FEE_PER_TREE (fee_per_tree (fees l))); [|lia].
Qed.

(** An initialised account, and the same after one fee. *)
Definition example_tree : TreeAccountLayout :=
  match @init model_poseidon cast_exact zero_account 7 32 zero32 1 default_init_params example_fees with
  | Ok tree => layout tree
  | _ => dec layout_codec zero_account
  end.

Lemma example_tree_init :
  @init model_poseidon cast_exact zero_account 7 32 zero32 1 default_init_params example_fees
  = Ok (mkTree zero32 example_tree).
Proof. vm_compute. reflexivity. Qed.

Definition example_tree_paid : TreeAccountLayout := (credit_tree_fee example_tree).2.

Lemma valid_of_roundtrip l :
  Z.of_nat (length (enc layout_codec l)) = account_size -> dec layout_codec (enc layout_codec l) = l ->
  valid layout_codec l.
Proof. intros Hl <-. apply dec_valid. by apply Nat2Z.inj. Qed.

Lemma example_tree_paid_valid : valid layout_codec example_tree_paid.
Proof. apply valid_of_roundtrip; vm_compute; reflexivity. Qed.

Lemma reachable_tree_account_loads_witness :
  valid layout_codec example_tree_paid /\
  from_bytes (enc layout_codec example_tree_paid) zero32 = Ok (mkTree zero32 example_tree_paid) /\
  fee_per_tree (fees example_tree_paid) <= MAX_FEE_PER_TREE /\ 0 <= fee_balance example_tree_paid < 2 ^ 64.
Proof.
  apply (@reachable_tree_account_loads model_poseidon accept_all cast_exact model_poseidon_total
    model_poseidon_sized model_zero_bytes_law cast_exact_law 7 zero32 1 default_init_params example_fees example_tree).
  - unfold init_args_ok. rewrite fees_valid, !valid_u8, !valid_u16, !valid_u64. vm_compute. split_and!; congruence.
  - exact example_tree_init.
  - apply rtc_once. apply (step_credit _ 190). vm_compute. reflexivity.
Defined.

(** ** Pausing *)

Lemma load_encoded `{W : Wincode} `{!WincodeLaw W} account program_id l :
  valid layout_codec l -> check_layout l = Ok tt -> is_writable account = true -> owner account = program_id ->
  borrowed account = false -> data account = enc layout_codec l ->
  load_checked account program_id (discriminator l) = Ok (mkTree (address account) l).
Proof.
  intros Hv Hc Hw Ho Hb Hd. unfold load_checked. rewrite Hw, Hb, bool_decide_true, Hd by done. cbn [negb].
  assert (Z.of_nat (length (enc layout_codec l)) = account_size) as Hlen by (unfold account_size; by rewrite enc_size).
  rewrite bool_decide_true; [|done].
  rewrite (wincode_exact _ Hlen), dec_enc by done. cbn [ok_or rbind]. by rewrite Hc.
Qed.

(** Pausing freezes every write path and only that: once [set_paused(true)]
    is stored, loading for writing fails with [Paused] while the loader that
    unpausing uses still returns the account; after [set_paused(false)] the
    write path returns the original initialised account. *)
Theorem pause_freezes_writes `{W : Wincode} (Hwin : WincodeLaw W) (l : TreeAccountLayout)
    (account paused_account : AccountView) (program_id : bytes) :
  valid layout_codec l -> check_layout l = Ok tt -> tree_state l = INITIALIZED ->
  data account = enc layout_codec l -> data paused_account = enc layout_codec (set_paused true l).2 ->
  is_writable account = true -> owner account = program_id -> borrowed account = false ->
  is_writable paused_account = true -> owner paused_account = program_id -> borrowed paused_account = false ->
  from_account_view_mut paused_account program_id (discriminator l) = Err Paused /\
  (exists tree, from_account_view_mut_allow_paused paused_account program_id (discriminator l) = Ok tree /\
     (set_paused false (layout tree)).2 = l) /\
  from_account_view_mut account program_id (discriminator l) = Ok (mkTree (address account) l).
Proof.
  intros Hv Hc Hs Hd Hd' Hw Ho Hb Hw' Ho' Hb'. set (lp := with_state PAUSED l).
  assert (valid layout_codec lp) as Hvp.
  { destruct Hv as (H1 & _ & Hrest). split; [exact H1|]. split; [vm_compute; split; congruence|exact Hrest]. }
  pose proof (load_encoded paused_account program_id lp Hvp Hc Hw' Ho' Hb' Hd') as Hlp.
  pose proof (load_encoded account program_id l Hv Hc Hw Ho Hb Hd) as Hl.
  change (discriminator lp) with (discriminator l) in Hlp.
  unfold from_account_view_mut, from_account_view_mut_allow_paused. rewrite Hlp, Hl. cbn [rbind layout].
  unfold is_paused. rewrite Hs. split_and!; [done| |done].
  eexists. split; [done|]. unfold set_paused, lp. simpl. rewrite <- Hs. by destruct l.
Qed.

Definition view_of (l : TreeAccountLayout) : AccountView :=
  mkAccountView true zero32 zero32 false (enc layout_codec l).

Lemma pause_freezes_writes_witness :
  let l := example_tree_paid in
  from_account_view_mut (view_of (set_paused true l).2) zero32 7 = Err Paused /\
  (exists tree, from_account_view_mut_allow_paused (view_of (set_paused true l).2) zero32 7 = Ok tree /\
     (set_paused false (layout tree)).2 = l) /\
  from_account_view_mut (view_of l) zero32 7 = Ok (mkTree zero32 l).
Proof.
  intros l. apply (@pause_freezes_writes cast_exact cast_exact_law l (view_of l) (view_of (set_paused true l).2) zero32);
    [exact example_tree_paid_valid|vm_compute; reflexivity|vm_compute; reflexivity|reflexivity..].
Defined.
