(* ===== verification/TreeFees.v ===== *)
(** * Fees and capacity of the tree account

    The fee balance of src/program-libs/tree/src/fees.rs as a ledger: it never
    creates or loses a lamport, and a balance at the reserve pays every
    reimbursement the open nullifier PDAs can draw.  The dummy-input headroom
    of lib.rs keeps enough nullifier slots for every spend of the state tree. *)

From S2P Require Import Prelude ZeroBytes Hasher HashChain MerkleSpec Codec Smt Batch NullifierTree NullifierQueue NullifierSafety TreeAccount TreeSafety.

(** ** The fee balance is a ledger *)

(** A call on the fee state; its value is what flows into the balance. *)
Inductive FeeOp : Type :=
| Credit
| Release
| TakeAppend (num_update : Z)
| TakeClose (closed : Z)
| SetFees (f : TreeFeeSchedule)
| Created (queued : Z)
| Closed (closed : Z).

Definition fee_call (op : FeeOp) : M TreeAccountLayout TreeError Z :=
  match op with
  | Credit => credit_tree_fee
  | Release => do! surplus <- release_fee_surplus; mret (- surplus)
  | TakeAppend n => do! paid <- take_append_reimbursement n; mret (- paid)
  | TakeClose n => do! paid <- take_close_reimbursement n; mret (- paid)
  | SetFees f => exec! set_fee_schedule f; mret 0
  | Created n => exec! record_nullifier_pdas_created n; mret 0
  | Closed n => exec! record_nullifier_pdas_closed n; mret 0
  end.

Definition fee_op_ok (op : FeeOp) : Prop :=
  match op with
  | Credit | Release => True
  | TakeAppend n | TakeClose n | Created n | Closed n => 0 <= n
  | SetFees f => fees_nonneg f
  end.

Fixpoint fee_run (ops : list FeeOp) : M TreeAccountLayout TreeError Z :=
  match ops with
  | [] => mret 0
  | op :: ops' => do! x <- fee_call op; do! y <- fee_run ops'; mret (x + y)
  end.

(** The part of the account the fee operations rely on. *)
Definition fee_state_ok (l : TreeAccountLayout) : Prop :=
  fees_nonneg (fees l) /\ 0 <= fee_balance l < 2 ^ 64 /\ 0 <= live_nullifier_pdas l < 2 ^ 64 /\
  0 <= tree_zkp_batch_size (nullifier l).

Lemma fee_call_spec op l :
  fee_op_ok op -> fee_state_ok l ->
  match fee_call op l with
  | (Ok x, l') => fee_balance l' = fee_balance l + x /\ fee_state_ok l'
  | (Err e, _) => e = FeeOverflow \/ e = FeeTooHigh
  | (Panic, _) => False
  end.
Proof.
  intros Hop (Hf & Hb & Hl & Hz). pose proof Hf as (Hf1 & Hf2 & Hf3).
  pose proof (fee_balance_reserve_range l ltac:(lia) Hf Hz) as Hres.
  destruct op as [| |n|n|f|n|n]; cbn [fee_call fee_op_ok] in *.
  - unfold credit_tree_fee, mbindM, mget, mlift. destruct (checked_add _ _ _) as [x|] eqn:Hx; cbn; [|by left].
    apply checked_add_Some in Hx as [-> Hx]. split; [done|]. split_and!; simpl; lia || done.
  - unfold mbindM. rewrite release_fee_surplus_run by lia. cbn. split; [lia|]. split_and!; simpl; lia || done.
  - unfold mbindM at 1, take_append_reimbursement, mbindM at 1, mget.
    destruct (take_reimbursement_run (append_reimbursement (fees l)) n l) as [-> Hp]; [lia..|]. cbn.
    split; [lia|]. split_and!; simpl; lia || done.
  - unfold mbindM at 1, take_close_reimbursement, mbindM at 1, mget.
    destruct (take_reimbursement_run (close_reimbursement (fees l)) n l) as [-> Hp]; [lia..|]. cbn.
    split; [lia|]. split_and!; simpl; lia || done.
  - unfold set_fee_schedule, mbindM, mlift, fees_validate. destruct (negb _); cbn; [|by right].
    split; [lia|]. split_and!; simpl; lia || done.
  - cbn. split; [lia|]. unfold fee_state_ok, saturating_add. cbn. split_and!; lia || done.
  - cbn. split; [lia|]. unfold fee_state_ok, saturating_sub. cbn. split_and!; lia || done.
Qed.

(** The fee balance is a ledger.  Over any sequence of fee operations the
    balance changes by exactly the fees credited minus the reimbursements and
    surpluses paid out, stays a [u64], and no operation panics; the only errors
    are a fee credit that would overflow and a fee schedule above the cap. *)
Theorem fee_balance_conserved (ops : list FeeOp) (l : TreeAccountLayout) :
  Forall fee_op_ok ops -> fee_state_ok l ->
  match fee_run ops l with
  | (Ok flow, l') => fee_balance l' = fee_balance l + flow /\ fee_state_ok l'
  | (Err e, _) => e = FeeOverflow \/ e = FeeTooHigh
  | (Panic, _) => False
  end.
Proof.
  intros Hops. revert l. induction Hops as [|op ops Hop Hops IH]; intros l Hl; simpl.
  - split; [lia|done].
  - unfold mbindM at 1. pose proof (fee_call_spec op l Hop Hl) as Hcall.
    destruct (fee_call op l) as [[x|e|] l1]; [|done..]. destruct Hcall as [Hx Hl1].
    unfold mbindM. specialize (IH l1 Hl1). destruct (fee_run ops l1) as [[y|e|] l2]; [|done..].
    destruct IH as [Hy Hl2]. simpl. split; [lia|done].
Qed.

Lemma fee_balance_conserved_witness :
  match fee_run [Credit; Created 3; Credit; TakeClose 2; Closed 2; Release] example_tree with
  | (Ok flow, l') => fee_balance l' = fee_balance example_tree + flow /\ fee_state_ok l'
  | (Err e, _) => e = FeeOverflow \/ e = FeeTooHigh
  | (Panic, _) => False
  end.
Proof.
  apply (fee_balance_conserved [Credit; Created 3; Credit; TakeClose 2; Closed 2; Release] example_tree).
  - repeat constructor; simpl; lia.
  - repeat split; vm_compute; congruence.
Defined.

(** ** The reserve pays what foresters can draw *)

(** Reimbursed forester work: an update that applied [n] ZKP batches, or a close
    of [n] nullifier PDAs (process_close_nullifier_pdas records, then pays). *)
Inductive Draw : Type := DrawAppend (n : Z) | DrawClose (n : Z).

Definition draw (d : Draw) : M TreeAccountLayout TreeError Z :=
  match d with
  | DrawAppend n => take_append_reimbursement n
  | DrawClose n => exec! record_nullifier_pdas_closed n; take_close_reimbursement n
  end.

Fixpoint draws (ds : list Draw) : M TreeAccountLayout TreeError (list Z) :=
  match ds with
  | [] => mret []
  | d :: ds' => do! x <- draw d; do! xs <- draws ds'; mret (x :: xs)
  end.

Definition appends_of (d : Draw) : Z := match d with DrawAppend n => n | DrawClose _ => 0 end.
Definition closes_of (d : Draw) : Z := match d with DrawAppend _ => 0 | DrawClose n => n end.
Definition total (g : Draw -> Z) (ds : list Draw) : Z := foldr (fun d acc => g d + acc) 0 ds.

(** What a draw is owed in full. *)
Definition owed (f : TreeFeeSchedule) (d : Draw) : Z :=
  appends_of d * append_reimbursement f + closes_of d * close_reimbursement f.

Definition draw_ok (d : Draw) : Prop := 0 <= appends_of d /\ 0 <= closes_of d.

Lemma total_nonneg ds : Forall draw_ok ds -> 0 <= total appends_of ds /\ 0 <= total closes_of ds.
Proof. induction 1 as [|d ds [] _ [] ]; simpl; lia. Qed.

(** One draw covered by the balance is paid in full. *)
Lemma draw_paid d l :
  draw_ok d -> fee_state_ok l -> owed (fees l) d <= fee_balance l ->
  exists l', draw d l = (Ok (owed (fees l) d), l') /\ fees l' = fees l /\
    fee_balance l' = fee_balance l - owed (fees l) d /\ fee_state_ok l'.
Proof.
  intros [Ha Hc] (Hf & Hb & Hl & Hz) Hle. pose proof Hf as (_ & Hf2 & Hf3).
  destruct d as [n|n]; unfold owed in *; cbn [appends_of closes_of] in *.
  - unfold draw, take_append_reimbursement, mbindM at 1, mget.
    destruct (take_reimbursement_run (append_reimbursement (fees l)) n l) as [-> Hp]; [lia..|].
    assert (Z.min (saturating_mul 64 (append_reimbursement (fees l)) n) (fee_balance l)
      = n * append_reimbursement (fees l) + 0 * close_reimbursement (fees l)) as ->
      by (unfold saturating_mul; lia).
    eexists. split; [done|]. cbn. split_and!; [done..|]. split_and!; cbn; lia || done.
  - unfold draw, take_close_reimbursement, record_nullifier_pdas_closed, mmodify, mbindM at 1.
    unfold mbindM at 1, mget. set (l1 := with_live _ l).
    destruct (take_reimbursement_run (close_reimbursement (fees l1)) n l1) as [-> Hp]; [cbn; lia..|].
    assert (Z.min (saturating_mul 64 (close_reimbursement (fees l1)) n) (fee_balance l1)
      = 0 * append_reimbursement (fees l) + n * close_reimbursement (fees l)) as ->
      by (unfold saturating_mul; cbn; lia).
    eexists. split; [done|]. cbn. split_and!; [done..|].
    unfold fee_state_ok, saturating_sub. cbn. unfold saturating_sub. split_and!; lia || done.
Qed.

Lemma draws_paid ds : forall l,
  Forall draw_ok ds -> fee_state_ok l ->
  total appends_of ds * append_reimbursement (fees l) + total closes_of ds * close_reimbursement (fees l)
    <= fee_balance l ->
  exists l', draws ds l = (Ok (map (owed (fees l)) ds), l').
Proof.
  induction ds as [|d ds IH]; intros l Hds Hl Hle; simpl; [by exists l|].
  rewrite Forall_cons in Hds. destruct Hds as [Hd Hds]. pose proof (total_nonneg ds Hds).
  simpl in Hle. pose proof Hl as ((_ & Hf2 & Hf3) & _).
  assert (0 <= total appends_of ds * append_reimbursement (fees l)) by (apply Z.mul_nonneg_nonneg; lia).
  assert (0 <= total closes_of ds * close_reimbursement (fees l)) by (apply Z.mul_nonneg_nonneg; lia).
  destruct (draw_paid d l Hd Hl) as (l1 & Hr & Hfe & Hbal & Hl1); [unfold owed; lia|].
  destruct (IH l1 Hds Hl1) as (l2 & Hr2); [rewrite Hfe, Hbal; unfold owed; lia|].
  exists l2. unfold mbindM at 1. rewrite Hr. unfold mbindM. rewrite Hr2, Hfe. done.
Qed.

(** C29. The reserve suffices.  If the balance is at least [fee_balance_reserve]
    and the reserve is not saturated, then after [release_fee_surplus] every
    interleaving of tree updates and PDA closes that closes at most the open PDAs
    and applies at most one ZKP batch per [zkp_batch_size] of them is still
    reimbursed in full: releasing the surplus never takes what foresters are
    owed. *)
Theorem reserve_pays_every_draw (ds : list Draw) (l : TreeAccountLayout) :
  Forall draw_ok ds -> fee_state_ok l -> 0 < tree_zkp_batch_size (nullifier l) ->
  fee_balance_reserve l < 2 ^ 64 - 1 -> fee_balance_reserve l <= fee_balance l ->
  total closes_of ds <= live_nullifier_pdas l ->
  total appends_of ds <= div_ceil (live_nullifier_pdas l) (tree_zkp_batch_size (nullifier l)) ->
  exists l1 l2, release_fee_surplus l = (Ok (fee_balance l - fee_balance_reserve l), l1) /\
    fee_balance l1 = fee_balance_reserve l /\ draws ds l1 = (Ok (map (owed (fees l)) ds), l2).
Proof.
  intros Hds Hl Hz Hsat Hbal Hc Ha. pose proof Hl as (Hf & Hb & Hlive & _). pose proof Hf as (_ & Hf2 & Hf3).
  pose proof (fee_balance_reserve_range l ltac:(lia) Hf ltac:(lia)) as Hres.
  rewrite release_fee_surplus_run, Z.max_r, Z.min_r by lia.
  set (l1 := with_fee_balance (fee_balance_reserve l) l).
  destruct (draws_paid ds l1) as [l2 Hrun]; [done|by split_and!; simpl; lia || done| |by exists l1, l2].
  pose proof (total_nonneg ds Hds). cbn [l1 fees fee_balance with_fee_balance]. unfold fee_balance_reserve in *.
  rewrite (proj2 (Z.eqb_neq _ 0)) in * by lia. unfold saturating_add, saturating_mul in *.
  set (A := div_ceil _ _) in *. set (L := live_nullifier_pdas l) in *.
  assert (total appends_of ds * append_reimbursement (fees l) <= A * append_reimbursement (fees l))
    by (apply Z.mul_le_mono_nonneg_r; lia).
  assert (total closes_of ds * close_reimbursement (fees l) <= L * close_reimbursement (fees l))
    by (apply Z.mul_le_mono_nonneg_r; lia).
  lia.
Qed.

(** An account with three open PDAs and more than their reserve. *)
Definition funded_tree : TreeAccountLayout := with_live 3 (with_fee_balance 6000 example_tree).

Lemma reserve_pays_every_draw_witness :
  exists l1 l2, release_fee_surplus funded_tree = (Ok 862, l1) /\ fee_balance l1 = 5138 /\
    draws [DrawClose 2; DrawAppend 1; DrawClose 1] l1 = (Ok [92; 5000; 46], l2).
Proof.
  apply (reserve_pays_every_draw [DrawClose 2; DrawAppend 1; DrawClose 1] funded_tree).
  - repeat constructor; simpl; lia.
  - repeat split; vm_compute; congruence.
  - vm_compute; reflexivity.
  - vm_compute; reflexivity.
  - vm_compute; congruence.
  - vm_compute; congruence.
  - vm_compute; congruence.
Defined.

(** ** Headroom for spends *)

Section headroom.
Context `{H : SolPoseidon} `{G : Groth16} (Htotal : PoseidonTotal H).

(** Traffic on one tree, counting the inputs that spend a leaf of the state
    tree.  A transaction may carry dummy inputs only if all its inputs for the
    tree fit the headroom, as [apply_input_trees] publishes it to the circuit;
    the other calls of the account leave the queue alone. *)
Inductive traffic (l0 : TreeAccountLayout) : Z -> TreeAccountLayout -> Prop :=
| traffic_start : traffic l0 0 l0
| traffic_spends n l vs l' :
    traffic l0 n l -> Forall (is_bytes 32) vs ->
    TreeAccount.nullifier_tree (insert_all vs) l = (Ok tt, l') ->
    traffic l0 (n + Z.of_nat (length vs)) l'
| traffic_dummies n l vs l' spends headroom :
    traffic l0 n l -> Forall (is_bytes 32) vs -> 0 <= spends ->
    dummy_input_headroom l = Ok headroom -> Z.of_nat (length vs) <= headroom ->
    TreeAccount.nullifier_tree (insert_all vs) l = (Ok tt, l') ->
    traffic l0 (n + spends) l'
| traffic_other n l l' :
    traffic l0 n l -> account_step l l' ->
    queue_next_index (nullifier l') = queue_next_index (nullifier l) ->
    traffic l0 n l'.

Lemma insert_all_count K ZB CAP vs t q t' :
  (0 < K)%nat -> (0 < ZB)%nat -> Z.of_nat (K * ZB) < 2 ^ 61 -> CAP <= 2 ^ 62 ->
  inv K ZB CAP t q -> Forall (is_bytes 32) vs -> insert_all vs t = (Ok tt, t') ->
  exists q', inv K ZB CAP t' q' /\ length (q_values q') = (length (q_values q) + length vs)%nat.
Proof.
  intros HK HZB HB HCAP. revert t q. induction vs as [|v vs IH]; intros t q Hinv Hvs Hrun.
  - injection Hrun as <-. exists q. split; [done|]. simpl. lia.
  - rewrite Forall_cons in Hvs. destruct Hvs as [Hv Hvs]. simpl in Hrun. unfold mbindM in Hrun.
    pose proof (insert_refines_lemma K ZB CAP HK HZB HB HCAP t q v Hinv Hv) as Href.
    destruct (spec_insert K ZB CAP v q) as [[i q1]|e|] eqn:Hs; [|by rewrite Href in Hrun|done].
    destruct Href as (t1 & Ht1 & Hinv1). rewrite Ht1 in Hrun.
    destruct (IH t1 q1 Hinv1 Hvs Hrun) as (q' & Hinv' & Hlen). exists q'. split; [done|]. rewrite Hlen.
    unfold spec_insert in Hs. repeat case_match; simplify_eq/=. rewrite length_app. simpl. lia.
Qed.

Lemma insert_all_account ZB vs l l' :
  (0 < ZB <= 4999)%nat -> account_inv ZB l -> Forall (is_bytes 32) vs ->
  TreeAccount.nullifier_tree (insert_all vs) l = (Ok tt, l') ->
  account_inv ZB l' /\
  queue_next_index (nullifier l') = queue_next_index (nullifier l) + Z.of_nat (length vs).
Proof.
  intros HZB Hinv Hvs Hrun. destruct (ai_nullifier _ _ Hinv) as [q Hq].
  destruct (zkp_batches_bounds ZB HZB) as (HK & HZ & HB & HK32). unfold TreeAccount.nullifier_tree, zoom in Hrun.
  destruct (insert_all vs (nullifier l)) as [r t'] eqn:Hr. injection Hrun as -> <-.
  destruct (insert_all_count _ ZB (2 ^ 40) vs _ q t' HK HZ HB ltac:(lia) Hq Hvs Hr) as (q' & Hq' & Hlen).
  cbn [nullifier with_nullifier]. split; [destruct Hinv; split; eauto|].
  rewrite (inv_queue_next _ _ _ _ _ Hq), (inv_queue_next _ _ _ _ _ Hq'). lia.
Qed.

Lemma traffic_room `{!ZeroBytesLaw Poseidon.Poseidon} ZB l0 n l :
  (0 < ZB <= 4999)%nat -> account_inv ZB l0 -> queue_next_index (nullifier l0) = 1 -> traffic l0 n l ->
  account_inv ZB l /\ 0 <= n /\ 2 ^ 32 - n <= 2 ^ 40 - queue_next_index (nullifier l).
Proof.
  intros HZB Hinv0 H1. induction 1 as [|n l vs l' _ (Hinv & Hn & Hroom) Hvs Hrun
    |n l vs l' spends h _ (Hinv & Hn & Hroom) Hvs Hs Hh Hle Hrun|n l l' _ (Hinv & Hn & Hroom) Hstep Hsame].
  - rewrite H1. split_and!; [done|lia|lia].
  - destruct (insert_all_account ZB vs l l' HZB Hinv Hvs Hrun) as [Hinv' ->]. split_and!; [done|lia|lia].
  - destruct (insert_all_account ZB vs l l' HZB Hinv Hvs Hrun) as [Hinv' ->]. split_and!; [done|lia|].
    destruct (ai_nullifier _ _ Hinv) as [q Hq]. pose proof (inv_capacity _ _ _ _ _ Hq) as Hcap.
    unfold dummy_input_headroom, remaining_queue_capacity, checked_sub, saturating_sub in Hh. rewrite Hcap in Hh.
    destruct (_ <=? _) eqn:Hc in Hh; [|done]. injection Hh as <-.
    change (Smt.capacity UTXO_TREE_HEIGHT) with (2 ^ 32) in Hle. lia.
  - rewrite Hsame. split_and!; [by eapply account_step_inv|lia|lia].
Qed.

End headroom.

(** C28. Dummy inputs never crowd out spends.  As long as every transaction with
    dummy inputs fits the published headroom, after [n] spends of state leaves
    the nullifier tree still has a free slot for each of the at most [2^32 - n]
    spends that can follow, so no spend is refused because the tree is full. *)
Theorem dummies_leave_room_for_spends `{H : SolPoseidon} `{G : Groth16} `{W : Wincode} (Htotal : PoseidonTotal H)
    (Hzero : ZeroBytesLaw Poseidon.Poseidon) (Hwin : WincodeLaw W) (disc : Z) (key : bytes) (id : Z)
    (p : NullifierTreeInitParams) (f : TreeFeeSchedule) (l0 l : TreeAccountLayout) (n : Z) :
  fees_nonneg f -> TreeAccount.init zero_account disc (Z.of_nat UTXO_TREE_HEIGHT) key id p f = Ok (mkTree key l0) ->
  traffic l0 n l ->
  2 ^ 32 - n <= capacity (nullifier l) - queue_next_index (nullifier l) /\
  (n < 2 ^ 32 -> checked_next_queue_index (nullifier l) = Ok (queue_next_index (nullifier l))).
Proof.
  intros Hf Hinit Htr. destruct (account_run_inv disc key id p f l0 l0 Hf Hinit (rtc_refl _ _)) as (ZB & HZB & Hinv).
  assert (queue_next_index (nullifier l0) = 1) as H1.
  { destruct (init_ok_params _ _ _ _ _ _ _ _ Hinit) as [Hp Hfv].
    destruct (init_account_lemma disc key id p f Hp Hfv) as (l1 & r & ZB' & Hi & _ & _ & _ & _ & Hn & _).
    rewrite Hi in Hinit. injection Hinit as ->. by rewrite (inv_queue_next _ _ _ _ _ Hn). }
  destruct (traffic_room Htotal ZB l0 n l HZB Hinv H1 Htr) as (Hinv' & Hn & Hroom).
  destruct (ai_nullifier _ _ Hinv') as [q Hq]. rewrite (inv_capacity _ _ _ _ _ Hq). split; [lia|].
  intros Hlt. unfold checked_next_queue_index. rewrite (inv_capacity _ _ _ _ _ Hq).
  by rewrite (proj2 (Z.ltb_lt _ _)) by lia.
Qed.

(** One transaction with a spend and a dummy input. *)
Definition example_spent : TreeAccountLayout :=
  (TreeAccount.nullifier_tree (@insert_all model_poseidon [replicate 32 x01; replicate 32 x02]) example_tree).2.

Lemma dummies_leave_room_for_spends_witness :
  2 ^ 32 - 1 <= capacity (nullifier example_spent) - queue_next_index (nullifier example_spent) /\
  (1 < 2 ^ 32 ->
   checked_next_queue_index (nullifier example_spent) = Ok (queue_next_index (nullifier example_spent))).
Proof.
  apply (@dummies_leave_room_for_spends model_poseidon accept_all cast_exact model_poseidon_total
    model_zero_bytes_law cast_exact_law 7 zero32 1 default_init_params example_fees example_tree).
  - unfold fees_nonneg. simpl. lia.
  - exact example_tree_init.
  - apply (@traffic_dummies model_poseidon accept_all example_tree 0 example_tree
      [replicate 32 x01; replicate 32 x02] example_spent 1 (2 ^ 40 - 1 - 2 ^ 32));
      [constructor|repeat constructor|lia|vm_compute; reflexivity|vm_compute; congruence|vm_compute; reflexivity].
Defined.
