(* ===== verification/MerkleTree.v ===== *)
(** * The reference Merkle tree

    src/protocol-ops/merkle-tree/src/lib.rs: the in-memory tree the forester and
    the clients build roots and proofs with.  It stores every layer; appending
    or updating a leaf recomputes the path above it.  The theorems: its root is
    the Merkle root of its leaves, its proofs verify, and no proof verifies a
    wrong leaf where the hashed pairs do not collide. *)

From S2P Require Import Prelude ZeroBytes Hasher HashChain MerkleSpec.

Inductive ReferenceMerkleTreeError : Type :=
| LeafDoesNotExist (leaf_index : nat)
| RefHasher (e : HasherError)
| InvalidProofLength (provided required : nat)
| RootHistoryArrayLenNotSet
| InvalidLevel (level height : nat).

Record MerkleTree : Type := mkMerkleTree {
  height : nat;
  capacity : Z;
  canopy_depth : nat;
  layers : list (list bytes);
  roots : list bytes;
  rightmost_index : nat;
  num_root_updates : nat;
  sequence_number : nat;
  root_history_start_offset : nat;
  root_history_array_len : option nat;
}.

Definition set_layers (v : list (list bytes)) (t : MerkleTree) : MerkleTree :=
  mkMerkleTree (height t) (capacity t) (canopy_depth t) v (roots t) (rightmost_index t) (num_root_updates t)
    (sequence_number t) (root_history_start_offset t) (root_history_array_len t).

Definition set_roots (v : list bytes) (t : MerkleTree) : MerkleTree :=
  mkMerkleTree (height t) (capacity t) (canopy_depth t) (layers t) v (rightmost_index t) (num_root_updates t)
    (sequence_number t) (root_history_start_offset t) (root_history_array_len t).

Definition set_rightmost_index (v : nat) (t : MerkleTree) : MerkleTree :=
  mkMerkleTree (height t) (capacity t) (canopy_depth t) (layers t) (roots t) v (num_root_updates t)
    (sequence_number t) (root_history_start_offset t) (root_history_array_len t).

Definition set_sequence_number (v : nat) (t : MerkleTree) : MerkleTree :=
  mkMerkleTree (height t) (capacity t) (canopy_depth t) (layers t) (roots t) (rightmost_index t)
    (num_root_updates t) v (root_history_start_offset t) (root_history_array_len t).

Section tree.
Context `{H : Hasher}.

(** [H::zero_bytes()[level]]; indexing out of range panics. *)
Definition zero_at {E} (level : nat) : res E bytes := or_panic (zero_bytes !! level).

(** [new] and [new_with_history] share their body but for the history fields. *)
Definition new_history (height canopy_depth offset : nat) (array_len : option nat) : res HasherError MerkleTree :=
  let? root := zero_at height in
  Ok (mkMerkleTree height (2 ^ Z.of_nat height) canopy_depth (replicate height []) [root] 0 0 0 offset array_len).

Definition new (height canopy_depth : nat) : res HasherError MerkleTree :=
  new_history height canopy_depth 0 None.

Definition new_with_history (height canopy_depth offset array_len : nat) : res HasherError MerkleTree :=
  new_history height canopy_depth offset (Some array_len).

(** [(x % len).try_into::<u16>().unwrap()]. *)
Definition history_index {E} (x : Z) (len : nat) : res E Z :=
  or_panic (if negb (Nat.eqb len 0) && (x mod Z.of_nat len <? 2 ^ 16) then Some (x mod Z.of_nat len) else None).

Definition get_history_root_index (t : MerkleTree) : res ReferenceMerkleTreeError Z :=
  match root_history_array_len t with
  | None => Err RootHistoryArrayLenNotSet
  | Some len =>
      let? d := usub (Z.of_nat (rightmost_index t)) (Z.of_nat (root_history_start_offset t)) in
      history_index d len
  end.

Definition get_history_root_index_v2 (t : MerkleTree) : res ReferenceMerkleTreeError Z :=
  match root_history_array_len t with
  | None => Err RootHistoryArrayLenNotSet
  | Some len => history_index (Z.of_nat (num_root_updates t)) len
  end.

Definition canopy_size (t : MerkleTree) : nat := (2 ^ (canopy_depth t + 1) - 2)%nat.

(** [layers[level].get(index).cloned().unwrap_or(H::zero_bytes()[level])]. *)
Definition node_at {E} (ls : list (list bytes)) (level index : nat) : res E bytes :=
  let? layer := or_panic (ls !! level) in
  let? zero := zero_at level in
  Ok (default zero (layer !! index)).

(** Overwrite an existing node, else push. *)
Definition put {A} (i : nat) (x : A) (l : list A) : list A :=
  if decide (i < length l)%nat then <[i := x]> l else l ++ [x].

(** The loop [for level in from..from + n] of [update_upper_layers], with the
    index of the level below. *)
Fixpoint upper_loop (n from i : nat) : M (list (list bytes)) HasherError unit :=
  match n with
  | O => mret tt
  | S n' =>
      let i := (i / 2)%nat in
      do! ls <- mget;
      do! left <- mlift (node_at ls (from - 1) (i * 2));
      do! right <- mlift (node_at ls (from - 1) (i * 2 + 1));
      do! node <- mlift (hashv [left; right]);
      do! layer <- mlift (or_panic (ls !! from));
      exec! mmodify (fun ls => <[from := put i node layer]> ls);
      upper_loop n' (S from) i
  end.

Definition update_upper_layers (i : nat) : M MerkleTree HasherError unit :=
  do! t <- mget;
  exec! zoom layers set_layers (upper_loop (height t - 1) 1 i);
  do! t <- mget;
  do! left <- mlift (node_at (layers t) (height t - 1) 0);
  do! right <- mlift (node_at (layers t) (height t - 1) 1);
  do! root <- mlift (hashv [left; right]);
  mmodify (fun t => set_roots (roots t ++ [root]) t).

(** The leaf is pushed before the capacity is checked. *)
Definition append (leaf : bytes) : M MerkleTree HasherError unit :=
  do! t <- mget;
  do! layer <- mlift (or_panic (layers t !! 0%nat));
  exec! mmodify (fun t => set_layers (<[0%nat := layer ++ [leaf]]> (layers t)) t);
  let i := rightmost_index t in
  require negb (Z.of_nat (rightmost_index t) =? capacity t) else IntegerOverflow;
  exec! mmodify (set_rightmost_index (S i));
  exec! update_upper_layers i;
  mmodify (fun t => set_sequence_number (S (sequence_number t)) t).

Fixpoint append_batch (leaves : list bytes) : M MerkleTree HasherError unit :=
  match leaves with
  | [] => mret tt
  | leaf :: leaves' => exec! append leaf; append_batch leaves'
  end.

Definition update (leaf : bytes) (leaf_index : nat) : M MerkleTree ReferenceMerkleTreeError unit :=
  do! t <- mget;
  do! layer <- mlift (or_panic (layers t !! 0%nat));
  require bool_decide (leaf_index < length layer)%nat else LeafDoesNotExist leaf_index;
  exec! mmodify (fun t => set_layers (<[0%nat := <[leaf_index := leaf]> layer]> (layers t)) t);
  exec! mmap_err RefHasher (update_upper_layers leaf_index);
  mmodify (fun t => set_sequence_number (S (sequence_number t)) t).

Definition root {E} (t : MerkleTree) : res E bytes := or_panic (last (roots t)).

Definition leaf (t : MerkleTree) (leaf_index : nat) : res ReferenceMerkleTreeError bytes :=
  node_at (layers t) 0 leaf_index.

Definition leaves (t : MerkleTree) : list bytes := default [] (head (layers t)).

Definition get_leaf_index (t : MerkleTree) (x : bytes) : option nat :=
  fst <$> list_find (fun node => node = x) (leaves t).

Definition get_leaf (t : MerkleTree) (index : nat) : res ReferenceMerkleTreeError bytes :=
  ok_or (leaves t !! index) (LeafDoesNotExist index).

Definition get_next_index (t : MerkleTree) : nat := S (rightmost_index t).

(** [height - canopy_depth] levels unless the full proof is asked for. *)
Definition limit {E} (t : MerkleTree) (full : bool) : res E nat :=
  if full then Ok (height t)
  else or_panic (if decide (canopy_depth t <= height t)%nat then Some (height t - canopy_depth t)%nat else None).

Fixpoint path_loop {E} (ls : list (list bytes)) (n level index : nat) : res E (list bytes) :=
  match n with
  | O => Ok []
  | S n' =>
      let? node := node_at ls level index in
      let? rest := path_loop ls n' (S level) (index / 2) in
      Ok (node :: rest)
  end.

Definition get_path_of_leaf (t : MerkleTree) (index : nat) (full : bool) : res ReferenceMerkleTreeError (list bytes) :=
  let? n := limit t full in
  path_loop (layers t) n 0 index.

Definition sibling (index : nat) : nat := if Nat.even index then (index + 1)%nat else (index - 1)%nat.

Fixpoint proof_loop {E} (ls : list (list bytes)) (n level index : nat) : res E (list bytes) :=
  match n with
  | O => Ok []
  | S n' =>
      let? node := node_at ls level (sibling index) in
      let? rest := proof_loop ls n' (S level) (index / 2) in
      Ok (node :: rest)
  end.

Definition get_proof_of_leaf (t : MerkleTree) (index : nat) (full : bool) : res ReferenceMerkleTreeError (list bytes) :=
  let? n := limit t full in
  proof_loop (layers t) n 0 index.

(** [i32] indices cast to [usize]. *)
Fixpoint get_proof_by_indices (t : MerkleTree) (indices : list Z) : res ReferenceMerkleTreeError (list (list bytes)) :=
  match indices with
  | [] => Ok []
  | index :: indices' =>
      let? proof := proof_loop (layers t) (height t) 0 (Z.to_nat (index mod 2 ^ 64)) in
      let? rest := get_proof_by_indices t indices' in
      Ok (proof :: rest)
  end.

Fixpoint climb (proof : list bytes) (index : nat) (h : bytes) : res HasherError bytes :=
  match proof with
  | [] => Ok h
  | sibling :: proof' =>
      let? h := hashv (if Nat.even index then [h; sibling] else [sibling; h]) in
      climb proof' (index / 2) h
  end.

Definition verify (t : MerkleTree) (leaf : bytes) (proof : list bytes) (leaf_index : nat)
    : res ReferenceMerkleTreeError bool :=
  check Z.of_nat leaf_index <? capacity t else LeafDoesNotExist leaf_index in
  check Nat.eqb (length proof) (height t) else InvalidProofLength (length proof) (height t) in
  let? computed_hash := map_err RefHasher (climb proof leaf_index leaf) in
  let? root := root t in
  Ok (bool_decide (computed_hash = root)).

(** The rightmost left node of a level; [layer.len() - 2] underflows on an
    empty layer. *)
Definition subtree_at {E} (layer : list bytes) : res E (option bytes) :=
  if Nat.even (length layer) then
    let? i := usub (Z.of_nat (length layer)) 2 in Ok (layer !! Z.to_nat i)
  else Ok (last layer).

Fixpoint subtrees_loop {E} (zeros : list bytes) (ls : list (list bytes)) : res E (list bytes) :=
  match zeros, ls with
  | zero :: zeros', layer :: ls' =>
      let? left := subtree_at layer in
      let? rest := subtrees_loop zeros' ls' in
      Ok (default zero left :: rest)
  | _, _ => Ok zeros
  end.

Definition get_subtrees {E} (t : MerkleTree) : res E (list bytes) :=
  let? subtrees := or_panic (if decide (height t <= length zero_bytes)%nat
                             then Some (take (height t) zero_bytes) else None) in
  match last (layers t) with
  | Some (_ :: _) => subtrees_loop subtrees (layers t)
  | _ => Ok subtrees
  end.

(** The top [canopy_depth] levels below the root, left to right. *)
Fixpoint canopy_level {E} (ls : list (list bytes)) (level n from : nat) : res E (list bytes) :=
  match n with
  | O => Ok []
  | S n' =>
      let? node := node_at ls level from in
      let? rest := canopy_level ls level n' (S from) in
      Ok (node :: rest)
  end.

Fixpoint canopy_loop {E} (t : MerkleTree) (n i num_nodes : nat) : res E (list bytes) :=
  match n with
  | O => Ok []
  | S n' =>
      let? level := usub (Z.of_nat (height t) - 1) (Z.of_nat i) in
      let? nodes := canopy_level (layers t) (Z.to_nat level) num_nodes 0 in
      let? rest := canopy_loop t n' (S i) (num_nodes * 2) in
      Ok (nodes ++ rest)
  end.

Definition get_canopy (t : MerkleTree) : res ReferenceMerkleTreeError (list bytes) :=
  if Nat.eqb (canopy_depth t) 0 then Ok [] else canopy_loop t (canopy_depth t) 0 2.

(** Resize a layer with zeros to hold [index]. *)
Definition resize (n : nat) (zero : bytes) (l : list bytes) : list bytes :=
  l ++ replicate (n - length l) zero.

Definition insert_node (node_index : Z) (hash : bytes) : M MerkleTree ReferenceMerkleTreeError unit :=
  let level := Z.to_nat (Z.shiftr node_index 56) in
  let position := Z.to_nat (Z.land node_index 72057594037927935) in
  do! t <- mget;
  match layers t !! level with
  | None => mthrow (InvalidLevel level (length (layers t)))
  | Some layer =>
      do! layer <- mlift (if decide (length layer <= position)%nat
                          then let? zero := zero_at level in Ok (resize (S position) zero layer)
                          else Ok layer);
      mmodify (set_layers (<[level := <[position := hash]> layer]> (layers t)))
  end.

Definition insert_leaf (leaf_index : nat) (hash : bytes) : M MerkleTree ReferenceMerkleTreeError unit :=
  do! t <- mget;
  do! layer <- mlift (or_panic (layers t !! 0%nat));
  do! layer <- mlift (if decide (length layer <= leaf_index)%nat
                      then let? zero := zero_at 0 in Ok (resize (S leaf_index) zero layer)
                      else Ok layer);
  mmodify (set_layers (<[0%nat := <[leaf_index := hash]> layer]> (layers t))).

Definition ensure_layer_capacity (level min_index : nat) : M MerkleTree ReferenceMerkleTreeError unit :=
  do! t <- mget;
  match layers t !! level with
  | Some layer =>
      if decide (length layer <= min_index)%nat then
        do! zero <- mlift (zero_at level);
        mmodify (set_layers (<[level := resize (S min_index) zero layer]> (layers t)))
      else mret tt
  | None => mret tt
  end.

End tree.

(** ** The layers *)

(** The pairs that [climb] hashes. *)
Fixpoint climb_queries `{Hasher} (proof : list bytes) (index : nat) (h : bytes) : list (list bytes) :=
  match proof with
  | [] => []
  | sibling :: proof' =>
      let pair := if Nat.even index then [h; sibling] else [sibling; h] in
      pair :: match hashv pair with Ok h' => climb_queries proof' (index / 2) h' | _ => [] end
  end.

(** What a tree needs of its hasher: a predicate of the nodes it can hash. *)
Class NodeHash (H : Hasher) (P : bytes -> Prop) : Prop := {
  node_total : forall a b, P a -> P b -> exists c, hashv [a; b] = Ok c /\ P c;
  node_zero : P zero32;
}.

#[export] Instance poseidon_node_hash `{S : SolPoseidon} `{!PoseidonTotal S} : NodeHash Poseidon.Poseidon canonical.
Proof.
  split; [|split; vm_compute; reflexivity].
  intros a b Ha Hb. apply (poseidon_hashv_total [a; b]); [simpl; lia|by rewrite !Forall_cons].
Qed.

Section layers.
Context `{H : Hasher} {HZ : ZeroBytesLaw H} {P : bytes -> Prop} {HP : NodeHash H P}.

(** Each layer is the layer below paired up with its level's zero. *)
Fixpoint layered (zs : list bytes) (ls : list (list bytes)) : Prop :=
  match zs, ls with
  | z :: zs', l :: ls' =>
      match ls' with
      | [] => zs' = []
      | l' :: _ => pair_up z l = Ok l' /\ layered zs' ls'
      end
  | _, _ => False
  end.

Lemma put_length {A} i (x : A) l : (i <= length l)%nat -> length (put i x l) = Nat.max (length l) (S i).
Proof. intros Hi. unfold put. case_decide; rewrite ?length_insert, ?length_app; simpl; lia. Qed.

Lemma put_cons {A} i (x a : A) l : put (S i) x (a :: l) = a :: put i x l.
Proof. unfold put. simpl. do 2 case_decide; done || lia. Qed.

Lemma put_lookup {A} i (x : A) l : (i <= length l)%nat -> put i x l !! i = Some x.
Proof.
  intros Hi. unfold put. case_decide; [by apply list_lookup_insert_eq|].
  replace i with (length l) by lia. by rewrite list_lookup_middle.
Qed.

Lemma put_Forall {A} (Q : A -> Prop) i x l : Q x -> Forall Q l -> Forall Q (put i x l).
Proof.
  intros Hx Hl. unfold put. case_decide; [by apply Forall_insert|].
  apply Forall_app_2; [done|by constructor].
Qed.

(** Changing or adding one node changes or adds one parent. *)
Lemma pair_up_put z l up i x node :
  pair_up z l = Ok up -> (i <= length l)%nat ->
  hashv [default z (put i x l !! (i / 2 * 2)%nat); default z (put i x l !! (i / 2 * 2 + 1)%nat)] = Ok node ->
  pair_up z (put i x l) = Ok (put (i / 2) node up).
Proof.
  revert i up. remember (length l) as n eqn:Hn. revert l Hn. induction (lt_wf n) as [n _ IH].
  intros [|a [|b l]] -> i up Hup Hi Hnode.
  - destruct i; simpl in Hi; [|lia]. simpl in Hup. injection Hup as <-. simpl in *. by rewrite Hnode.
  - destruct i as [|[|i]]; simpl in Hi; [| |lia]; simpl in Hup; run_inv; simpl in *; by rewrite Hnode.
  - destruct i as [|[|i]].
    + simpl in Hup. run_inv. simpl in *. rewrite Hnode. simpl.
      match goal with E : pair_up z l = _ |- _ => rewrite E end. done.
    + simpl in Hup. run_inv. simpl in *. rewrite Hnode. simpl.
      match goal with E : pair_up z l = _ |- _ => rewrite E end. done.
    + assert (S (S i) / 2 = S (i / 2))%nat as Hd
        by (replace (S (S i)) with (i + 1 * 2)%nat by lia; rewrite Nat.div_add by lia; lia).
      rewrite !put_cons, Hd in *. simpl in Hup. run_inv. simpl in Hi.
      match goal with E : pair_up z l = Ok ?u |- _ =>
        pose proof (IH (length l) ltac:(simpl; lia) l eq_refl i u E ltac:(lia)) as IH' end.
      simpl in Hnode. specialize (IH' Hnode). simpl.
      match goal with E : hashv [a; b] = _ |- _ => rewrite E end. simpl. rewrite IH'. simpl. by rewrite put_cons.
Qed.

Lemma node_at_ok {E} ls level layer z index :
  ls !! level = Some layer -> zero_bytes !! level = Some z ->
  node_at (E := E) ls level index = Ok (default z (layer !! index)).
Proof. intros Hl Hz. unfold node_at, zero_at. by rewrite Hl, Hz. Qed.

Lemma default_P z l i : P z -> Forall P l -> P (default z (l !! i)).
Proof. intros Hz Hl. destruct (l !! i) eqn:E; [|done]. by eapply Forall_lookup_1. Qed.

(** The zeros from [level] on are the rest of the table. *)
Definition zeros_from (level : nat) (zs : list bytes) : Prop :=
  forall k z, zs !! k = Some z -> zero_bytes !! (level + k)%nat = Some z.

Lemma zeros_from_S level z zs : zeros_from level (z :: zs) -> zero_bytes !! level = Some z /\ zeros_from (S level) zs.
Proof.
  intros Hz. split; [rewrite <- (Nat.add_0_r level); by apply Hz|].
  intros k z' Hk. specialize (Hz (S k) z' Hk). by rewrite Nat.add_succ_r in Hz.
Qed.

(** The loop rebuilds the layers above a changed or added node. *)
Lemma upper_loop_spec zs : forall z pre old rest i x,
  zeros_from (length pre) (z :: zs) -> Forall P (z :: zs) -> layered (z :: zs) (old :: rest) ->
  (i <= length old)%nat -> P x -> Forall P old ->
  exists rest', upper_loop (length rest) (S (length pre)) i (pre ++ put i x old :: rest)
      = (Ok tt, pre ++ put i x old :: rest') /\
    layered (z :: zs) (put i x old :: rest').
Proof.
  induction zs as [|z' zs IH]; intros z pre old rest i x Hz Hzs Hl Hi Hx Hold.
  { destruct rest as [|l rest]; [|by destruct Hl]. by exists []. }
  destruct rest as [|l rest]; [done|]. destruct Hl as [Hup Hl]. apply zeros_from_S in Hz as [Hz Hz'].
  rewrite Forall_cons in Hzs. destruct Hzs as [HPz Hzs].
  pose proof (put_Forall P i x old Hx Hold) as Hput.
  destruct (node_total _ _ (default_P z _ (i / 2 * 2) HPz Hput) (default_P z _ (i / 2 * 2 + 1) HPz Hput))
    as (node & Hnode & Hn).
  assert (Forall P l) as HPl.
  { destruct (pair_up_total P node_total z old HPz Hold) as (up & Hup' & ?). rewrite Hup in Hup'. by simplify_eq. }
  assert (i / 2 <= length l)%nat as Hi2.
  { apply pair_up_length in Hup. rewrite Hup. apply Nat.div_le_mono; lia. }
  pose proof (pair_up_put z old l i x node Hup Hi Hnode) as Hup'.
  cbn [length upper_loop]. unfold mbindM at 1, mget. rewrite Nat.sub_succ, Nat.sub_0_r.
  assert (forall r, (pre ++ put i x old :: r) !! length pre = Some (put i x old)) as Hat
    by (intros; by apply list_lookup_middle).
  unfold mbindM at 1, mlift at 1. rewrite (node_at_ok _ _ _ _ _ (Hat _) Hz).
  unfold mbindM at 1, mlift at 1. rewrite (node_at_ok _ _ _ _ _ (Hat _) Hz).
  unfold mbindM at 1, mlift at 1. rewrite Hnode. unfold mbindM at 1, mlift at 1.
  assert (pre ++ put i x old :: l :: rest = (pre ++ [put i x old]) ++ l :: rest) as Hsplit by (by rewrite <- app_assoc).
  assert (length (pre ++ [put i x old]) = S (length pre)) as Hlen by (rewrite length_app; simpl; lia).
  rewrite Hsplit, <- Hlen, list_lookup_middle by done. cbn [or_panic]. unfold mbindM at 1, mmodify.
  rewrite insert_app_r_alt, Nat.sub_diag by lia. cbn [list_insert].
  destruct (IH z' (pre ++ [put i x old]) l rest (i / 2)%nat node) as (rest' & Hrun & Hl');
    [by rewrite Hlen|done..|].
  exists (put (i / 2) node l :: rest'). split; [|by split].
  etrans; [exact Hrun|]. by rewrite <- app_assoc.
Qed.

Lemma half_bounds n m : (0 < n)%nat -> (n <= 2 * m)%nat -> (0 < (n + 1) / 2 <= m)%nat.
Proof.
  intros Hn Hm. split; [apply Nat.div_str_pos; lia|].
  apply Nat.lt_succ_r, Nat.Div0.div_lt_upper_bound. lia.
Qed.

(** The top layer of a non-empty tree has one or two nodes, and the root is
    their hash. *)
Lemma layered_root zs : forall l ls,
  layered zs (l :: ls) -> (0 < length l <= 2 ^ length zs)%nat ->
  exists z top, last zs = Some z /\ last (l :: ls) = Some top /\
    layers_root zs l = hashv [default z (top !! 0%nat); default z (top !! 1%nat)].
Proof.
  induction zs as [|z zs IH]; intros l ls Hl Hlen; [done|]. destruct ls as [|l' ls].
  - simpl in Hl. subst zs. exists z, l. split_and!; [done..|]. change (2 ^ length [z])%nat with 2%nat in Hlen.
    destruct l as [|a [|b [|c l]]]; simpl in Hlen; [lia| | |lia]; simpl;
      by destruct (hashv _).
  - destruct Hl as [Hup Hl]. cbn [length] in Hlen. rewrite Nat.pow_succ_r' in Hlen.
    destruct (IH l' ls Hl) as (z1 & top & Hz & Htop & Hr).
    { rewrite (pair_up_length _ _ _ Hup). apply half_bounds; lia. }
    exists z1, top. split_and!; [by destruct zs|done|]. simpl. rewrite Hup. simpl. exact Hr.
Qed.

Lemma layered_length zs ls : layered zs ls -> length ls = length zs.
Proof.
  revert ls. induction zs as [|z zs IH]; intros [|l [|l' ls]] Hl; try done.
  - simpl in Hl. by subst.
  - destruct Hl as [_ Hl]. apply IH in Hl. simpl in *. lia.
Qed.

Lemma layered_P zs : forall l ls, layered zs (l :: ls) -> Forall P zs -> Forall P l -> Forall (Forall P) (l :: ls).
Proof.
  induction zs as [|z zs IH]; intros l [|l' ls] Hl Hz HP'; [done|done|by constructor|].
  destruct Hl as [Hup Hl]. rewrite Forall_cons in Hz. destruct Hz as [HPz Hz].
  destruct (pair_up_total P node_total z l HPz HP') as (up & Hup' & Hu). rewrite Hup in Hup'. injection Hup' as <-.
  constructor; [done|]. by apply IH.
Qed.

Lemma zero_bytes_P k z : (k <= MAX_HEIGHT)%nat -> zero_bytes !! k = Some z -> P z.
Proof.
  revert z. induction k as [|k IH]; intros z Hk Hz.
  - rewrite zero_bytes_0 in Hz. injection Hz as <-. apply node_zero.
  - destruct (lookup_lt_is_Some_2 zero_bytes k) as [z' Hz']; [apply lookup_lt_Some in Hz; lia|].
    destruct (zero_bytes_S k z' Hz') as (z1 & Hz1 & Hh); [lia|]. rewrite Hz in Hz1. injection Hz1 as ->.
    destruct (node_total z' z') as (c & Hc & HPc); [by apply IH; [lia|]..|]. rewrite Hh in Hc. by injection Hc as ->.
Qed.

(** ** Representation *)

(** [t] is the tree over the leaves [l]. *)
Record represents (t : MerkleTree) (l : list bytes) : Prop := {
  rep_height : (0 < height t <= MAX_HEIGHT)%nat;
  rep_capacity : capacity t = 2 ^ Z.of_nat (height t);
  rep_layers : exists rest, layers t = l :: rest;
  rep_layered : layered (take (height t) zero_bytes) (layers t);
  rep_leaves : Forall P l;
  rep_next : rightmost_index t = length l;
  rep_fits : (length l <= 2 ^ height t)%nat;
  rep_root : exists r, last (roots t) = Some r /\ merkle_root (height t) l = Ok r;
}.

Lemma table_zeros h : (h <= MAX_HEIGHT)%nat -> zeros_from 0 (take h zero_bytes) /\ Forall P (take h zero_bytes).
Proof.
  intros Hh. split.
  - intros k z Hk. by apply lookup_take_Some in Hk as [? _].
  - apply Forall_lookup_2. intros k z [Hk Hlt]%lookup_take_Some. apply (zero_bytes_P k); [lia|done].
Qed.

(** Recomputing the path above leaf [i]. *)
Lemma update_upper_layers_spec t l rest i x :
  (0 < height t <= MAX_HEIGHT)%nat -> layers t = put i x l :: rest ->
  layered (take (height t) zero_bytes) (l :: rest) -> Forall P l -> P x ->
  (i <= length l)%nat -> (i < 2 ^ height t)%nat -> (length l <= 2 ^ height t)%nat ->
  exists rest' r, update_upper_layers i t = (Ok tt, set_roots (roots t ++ [r]) (set_layers (put i x l :: rest') t)) /\
    layered (take (height t) zero_bytes) (put i x l :: rest') /\ merkle_root (height t) (put i x l) = Ok r.
Proof.
  intros Hh Hls Hlay HPl HPx Hi Hi2 Hl2.
  destruct (table_zeros (height t) ltac:(lia)) as [Hz HPz].
  pose proof (length_take_zero_bytes (height t) ltac:(lia)) as Hlz.
  pose proof (layered_length _ _ Hlay) as Hll. rewrite Hlz in Hll. simpl in Hll.
  destruct (take (height t) zero_bytes) as [|z zs] eqn:Hzs; [done|].
  destruct (upper_loop_spec zs z [] l rest i x) as (rest' & Hrun & Hlay'); [done..|].
  pose proof (put_length i x l Hi) as Hpl.
  destruct (layered_root (z :: zs) (put i x l) rest' Hlay') as (z1 & top & Hz1 & Htop & Hroot).
  { rewrite Hlz, Hpl. lia. }
  pose proof (layered_length _ _ Hlay') as Hll'. rewrite Hlz in Hll'. simpl in Hll'.
  assert (zero_bytes !! (height t - 1)%nat = Some z1) as Hzt.
  { rewrite last_lookup, Hlz in Hz1. replace (pred (height t)) with (height t - 1)%nat in Hz1 by lia. by apply Hz in Hz1. }
  rewrite last_lookup in Htop. simpl length in Htop. rewrite Hll' in Htop.
  replace (pred (height t)) with (height t - 1)%nat in Htop by lia.
  assert (merkle_root (height t) (put i x l) = hashv [default z1 (top !! 0%nat); default z1 (top !! 1%nat)]) as Hmr.
  { rewrite merkle_root_layers, Hzs; [done|lia| |lia]. intros He. rewrite He in Hpl. simpl in Hpl. lia. }
  assert (Forall P top) as HPtop.
  { eapply (Forall_lookup_1 (Forall P)); [|exact Htop]. eapply layered_P; [exact Hlay'|done|by apply put_Forall]. }
  destruct (node_total _ _ (default_P z1 top 0 ltac:(by eapply zero_bytes_P; [|exact Hzt]; lia) HPtop)
     (default_P z1 top 1 ltac:(by eapply zero_bytes_P; [|exact Hzt]; lia) HPtop)) as (r & Hr & _).
  exists rest', r. rewrite Hmr, Hr. split_and!; [|done..].
  unfold update_upper_layers, mbindM at 1, mget. unfold mbindM at 1, zoom.
  replace (height t - 1)%nat with (length rest) by lia. rewrite Hls. cbn [app length] in Hrun. rewrite Hrun.
  unfold mbindM at 1. cbn [height layers set_layers].
  unfold mbindM at 1, mlift at 1. rewrite (node_at_ok _ _ _ _ _ Htop Hzt).
  unfold mbindM at 1, mlift at 1. rewrite (node_at_ok _ _ _ _ _ Htop Hzt).
  unfold mbindM, mlift. by rewrite Hr.
Qed.

(** *** Construction, append and update *)

Lemma layered_empty zs : zs <> [] -> layered zs (replicate (length zs) []).
Proof. induction zs as [|z [|z' zs] IH]; intros Hz; [done|done|]. simpl in *. split; [done|]. by apply IH. Qed.

Lemma new_spec h canopy : (0 < h <= MAX_HEIGHT)%nat -> exists t, new h canopy = Ok t /\ represents t [].
Proof.
  intros Hh. destruct (merkle_root_empty h ltac:(lia)) as (top & Htop & Hr).
  unfold new, new_history, zero_at. rewrite Htop. cbn [or_panic rbind]. eexists. split; [done|].
  pose proof (length_take_zero_bytes h ltac:(lia)) as Hl.
  split; cbn [height capacity layers roots rightmost_index]; [done|done| | |done|done|simpl; lia|by eauto].
  - destruct h; [lia|]. by eexists.
  - rewrite <- Hl at 2. apply layered_empty. intros He. rewrite He in Hl. simpl in Hl. lia.
Qed.

Lemma put_end {A} (x : A) l : put (length l) x l = l ++ [x].
Proof. unfold put. by rewrite decide_False by lia. Qed.

Lemma append_spec t l x : represents t l -> P x ->
  if decide (length l < 2 ^ height t)%nat
  then exists t', append x t = (Ok tt, t') /\ represents t' (l ++ [x]) /\ height t' = height t
  else exists t', append x t = (Err IntegerOverflow, t') /\ leaves t' = l ++ [x] /\ roots t' = roots t.
Proof.
  intros [Hh Hcap [rest Hls] Hlay HP' Hnext Hfit (r & Hr & Hmr)] Hx.
  assert (Z.of_nat (2 ^ height t) = 2 ^ Z.of_nat (height t)) as Hpow by (by rewrite Nat2Z.inj_pow).
  assert (append x t = (if Z.of_nat (length l) =? 2 ^ Z.of_nat (height t) then mthrow IntegerOverflow else
      exec! mmodify (set_rightmost_index (S (length l)));
      exec! update_upper_layers (length l);
      mmodify (fun t => set_sequence_number (S (sequence_number t)) t))
      (set_layers ((l ++ [x]) :: rest) t)) as ->.
  { unfold append, mbindM at 1, mget. unfold mbindM at 1, mlift at 1. rewrite Hls. cbn [or_panic lookup list_lookup].
    unfold mbindM at 1, mmodify at 1. rewrite Hcap, Hnext, Hls. by destruct (_ =? _). }
  case_decide as Hlt.
  - rewrite (proj2 (Z.eqb_neq _ _)) by lia. unfold mbindM at 1, mmodify at 1.
    set (t1 := set_rightmost_index _ _).
    destruct (update_upper_layers_spec t1 l rest (length l) x) as (rest' & r' & Hrun & Hlay' & Hmr');
      [done|unfold t1; simpl; by rewrite put_end|by rewrite <- Hls|done|done|done|done|done|].
    unfold mbindM. rewrite Hrun. eexists. split; [done|]. rewrite put_end in *. split; [|done].
    split; cbn [height capacity layers roots rightmost_index set_sequence_number set_roots set_layers]; try done.
    + by eexists.
    + apply Forall_app_2; [done|by constructor].
    + rewrite length_app. simpl. lia.
    + rewrite length_app. simpl. change (height t1) with (height t). lia.
    + exists r'. split; [apply last_snoc|done].
  - rewrite (proj2 (Z.eqb_eq _ _)) by lia. eexists. split; [done|]. split; done.
Qed.

Lemma update_spec t l x i : represents t l -> P x ->
  if decide (i < length l)%nat
  then exists t', update x i t = (Ok tt, t') /\ represents t' (<[i := x]> l) /\ height t' = height t
  else update x i t = (Err (LeafDoesNotExist i), t).
Proof.
  intros [Hh Hcap [rest Hls] Hlay HP' Hnext Hfit (r & Hr & Hmr)] Hx.
  case_decide as Hlt; unfold update, mbindM at 1, mget; unfold mbindM at 1, mlift at 1; rewrite Hls;
    cbn [or_panic lookup list_lookup]; [|by rewrite bool_decide_false by done].
  rewrite bool_decide_true by done.
  unfold mbindM at 1, mmodify at 1. set (t1 := set_layers _ _).
  assert (put i x l = <[i := x]> l) as Hput by (unfold put; by rewrite decide_True by done).
  destruct (update_upper_layers_spec t1 l rest i x) as (rest' & r' & Hrun & Hlay' & Hmr');
    [done|unfold t1; simpl; by rewrite Hls, Hput|by rewrite <- Hls|done|done|lia|unfold t1; simpl; lia|done|].
  unfold mbindM, mmap_err. rewrite Hrun. eexists. split; [done|]. rewrite Hput in *. split; [|done].
  split; cbn [height capacity layers roots rightmost_index set_sequence_number set_roots set_layers]; try done.
  - by eexists.
  - by apply Forall_insert.
  - by rewrite length_insert.
  - by rewrite length_insert.
  - exists r'. split; [apply last_snoc|done].
Qed.

(** *** Proofs *)

(** Two neighbours, present or zero, hash to their parent, present or zero. *)
Lemma pair_up_lookup z z' l up j :
  pair_up z l = Ok up -> hashv [z; z] = Ok z' ->
  hashv [default z (l !! (j * 2)%nat); default z (l !! (j * 2 + 1)%nat)] = Ok (default z' (up !! j)).
Proof.
  intros Hup Hz. revert j up Hup. remember (length l) as n eqn:Hn. revert l Hn. induction (lt_wf n) as [n _ IH].
  intros [|a [|b l]] -> j up Hup; simpl in Hup.
  - injection Hup as <-. by rewrite !lookup_nil.
  - run_inv. destruct j as [|j]; [done|]. by rewrite !lookup_cons_ne_0 by lia.
  - run_inv. destruct j as [|j]; [done|]. simpl. eapply (IH (length l)); [simpl; lia|done|done].
Qed.

Lemma even_half i : Nat.even i = true -> (i = i / 2 * 2)%nat.
Proof. intros Hi%Nat.even_spec. destruct Hi as [k ->]. rewrite (Nat.mul_comm 2 k), Nat.div_mul; lia. Qed.

Lemma odd_half i : Nat.even i = false -> (i = i / 2 * 2 + 1)%nat.
Proof.
  intros Hi. rewrite <- Nat.negb_odd in Hi. apply negb_false_iff in Hi. apply Nat.odd_spec in Hi. destruct Hi as [k ->].
  replace (2 * k + 1)%nat with (1 + k * 2)%nat by lia. rewrite Nat.div_add by lia. simpl. lia.
Qed.

(** One step of a proof: the node and its sibling hash to the parent. *)
Lemma climb_step z z' l up i :
  pair_up z l = Ok up -> hashv [z; z] = Ok z' ->
  hashv (if Nat.even i then [default z (l !! i); default z (l !! sibling i)]
         else [default z (l !! sibling i); default z (l !! i)]) = Ok (default z' (up !! (i / 2)%nat)).
Proof.
  intros Hup Hz. rewrite <- (pair_up_lookup z z' l up _ Hup Hz). unfold sibling.
  destruct (Nat.even i) eqn:He.
  - by rewrite <- (even_half i He).
  - pose proof (odd_half i He) as Hi. remember (i / 2)%nat as j eqn:Hj. clear Hj. subst i.
    by replace (j * 2 + 1 - 1)%nat with (j * 2)%nat by lia.
Qed.

Lemma half_lt i n : (i < 2 * n)%nat -> (i / 2 < n)%nat.
Proof. intros. apply Nat.Div0.div_lt_upper_bound. lia. Qed.

(** The generated proof climbs from the leaf to the root. *)
Lemma proof_climbs {E} zs : forall pre l ls z top i,
  zeros_from (length pre) (z :: zs) -> layered (z :: zs) (l :: ls) -> zero_chain (z :: zs) top ->
  (i < 2 ^ length (z :: zs))%nat -> (length l <= 2 ^ length (z :: zs))%nat ->
  exists proof, proof_loop (E := E) (pre ++ l :: ls) (length (z :: zs)) (length pre) i = Ok proof /\
    length proof = length (z :: zs) /\
    climb proof i (default z (l !! i)) = if decide (l = []) then Ok top else layers_root (z :: zs) l.
Proof.
  induction zs as [|z' zs IH]; intros pre l ls z top i Hz Hl [Hh Hc] Hi Hlen;
    apply zeros_from_S in Hz as [Hz Hz'].
  - destruct ls; [|by destruct Hl]. cbn [length proof_loop].
    rewrite (node_at_ok _ _ _ _ _ (list_lookup_middle _ _ _ _ eq_refl) Hz). cbn [rbind].
    eexists. split; [done|]. split; [done|]. cbn [climb]. simpl in Hh. change (2 ^ length [z])%nat with 2%nat in *.
    case_decide as Hn; [subst l; rewrite (climb_step z top [] [] i); [by rewrite lookup_nil|done|done]|].
    destruct i as [|[|i]]; [| |lia]; (destruct l as [|a [|b [|]]]; simpl in Hlen; [done| | |lia]); simpl;
      match goal with |- rbind ?h _ = _ => by destruct h end.
  - destruct ls as [|l' ls]; [done|]. destruct Hl as [Hup Hl]. simpl in Hh.
    cbn [length] in Hi, Hlen. rewrite Nat.pow_succ_r' in Hi, Hlen.
    destruct (IH (pre ++ [l]) l' ls z' top (i / 2)%nat) as (proof & Hp & Hpl & Hclimb).
    + by rewrite length_app, Nat.add_1_r.
    + done.
    + done.
    + by apply half_lt.
    + rewrite (pair_up_length _ _ _ Hup). apply Nat.lt_succ_r, Nat.Div0.div_lt_upper_bound. simpl length in *. lia.
    + rewrite length_app, Nat.add_1_r, <- app_assoc in Hp.
      cbn [length proof_loop] in *. rewrite (node_at_ok _ _ _ _ _ (list_lookup_middle _ _ _ _ eq_refl) Hz).
      cbn [rbind]. cbn [app] in Hp. rewrite Hp. cbn [rbind]. eexists. split; [done|]. split; [simpl; lia|].
      cbn [climb]. rewrite (climb_step z z' l l' i Hup Hh). cbn [rbind]. rewrite Hclimb.
      cbn [layers_root]. rewrite Hup. cbn [rbind]. destruct (decide (l' = [])) as [->|Hl'], (decide (l = [])) as [->|Hn]; [done| | |done].
      * by apply pair_up_nonempty in Hup.
      * simpl in Hup. by simplify_eq.
Qed.

(** Two paths of one length from one position to one root are the same, where
    the pairs hashed on them do not collide. *)
Lemma climb_binding p p' i a b r :
  length p = length p' -> climb p i a = Ok r -> climb p' i b = Ok r ->
  collision_free hashv (climb_queries p i a ++ climb_queries p' i b) -> a = b /\ p = p'.
Proof.
  revert p' i a b. induction p as [|s p IH]; intros [|s' p'] i a b Hl Ha Hb Hcf; simpl in Hl; try done.
  - simpl in *. split; congruence.
  - simpl in Ha, Hb. cbn [climb_queries] in Hcf.
    apply rbind_ok in Ha as (h & Hh & Ha). apply rbind_ok in Hb as (h' & Hh' & Hb). rewrite Hh, Hh' in Hcf.
    destruct (IH p' (i / 2)%nat h h' ltac:(lia) Ha Hb) as [-> ->].
    { eapply collision_free_subset; [|exact Hcf]. set_solver. }
    assert ((if Nat.even i then [a; s] else [s; a]) = (if Nat.even i then [b; s'] else [s'; b])) as He
      by (eapply collision_free_eq; [exact Hcf|set_solver|set_solver|done|done]).
    by destruct (Nat.even i); injection He as -> ->.
Qed.

(** What [verify] accepts: a path of the height that climbs to the root. *)
Lemma verify_climbs t x proof i : verify t x proof i = Ok true ->
  Z.of_nat i < capacity t /\ length proof = height t /\
  exists r, climb proof i x = Ok r /\ last (roots t) = Some r.
Proof.
  unfold verify, root. intros Hv. destruct (_ <? _) eqn:Hc in Hv; [|done].
  destruct (Nat.eqb _ _) eqn:Hl in Hv; [|done]. apply Nat.eqb_eq in Hl. split_and!; [lia|done|].
  destruct (climb proof i x) as [r| |]; [|done..]. destruct (last (roots t)) as [r'|]; [|done].
  simpl in Hv. injection Hv as Hv. apply bool_decide_eq_true_1 in Hv. subst. by exists r'.
Qed.

Lemma proof_of_leaf_climbs t l i :
  represents t l -> (i < 2 ^ height t)%nat ->
  exists proof r, get_proof_of_leaf t i true = Ok proof /\ length proof = height t /\
    climb proof i (default zero32 (l !! i)) = Ok r /\ last (roots t) = Some r.
Proof.
  intros [Hh Hcap [rest Hls] Hlay HP' Hnext Hfit (r & Hr & Hmr)] Hi.
  destruct (table_zeros (height t) ltac:(lia)) as [Hz _].
  pose proof (length_take_zero_bytes (height t) ltac:(lia)) as Hlz.
  destruct (zero_bytes_chain_0 (height t) ltac:(lia)) as (top & Htop & Hc).
  destruct (take_zero_bytes_S (height t - 1) ltac:(lia)) as [zs Hzs].
  replace (S (height t - 1)) with (height t) in Hzs by lia. rewrite Hzs in *. rewrite Hls in Hlay.
  destruct (proof_climbs (E := ReferenceMerkleTreeError) zs [] l rest zero32 top i Hz Hlay Hc)
    as (proof & Hp & Hlen & Hclimb); [by rewrite Hlz..|].
  exists proof, r. unfold get_proof_of_leaf, limit. cbn [rbind]. rewrite Hls, <- Hlz, Hlen.
  cbn [app] in Hp. split_and!; [done|done| |done]. rewrite Hclimb. case_decide as Hn.
  - subst l. destruct (merkle_root_empty (height t) ltac:(lia)) as (top' & Ht' & Hr'). congruence.
  - rewrite <- Hzs, <- merkle_root_layers by done. done.
Qed.

End layers.

(** ** Theorems *)

(** A sequence of operations on the tree, and on the list of its leaves. *)
Inductive TreeOp : Type := OpAppend (x : bytes) | OpUpdate (i : nat) (x : bytes).

Definition op_node (op : TreeOp) : bytes := match op with OpAppend x | OpUpdate _ x => x end.

Fixpoint run_ops `{Hasher} (ops : list TreeOp) : M MerkleTree ReferenceMerkleTreeError unit :=
  match ops with
  | [] => mret tt
  | OpAppend x :: ops' => exec! mmap_err RefHasher (append x); run_ops ops'
  | OpUpdate i x :: ops' => exec! update x i; run_ops ops'
  end.

(** The same on leaves; [None] when an operation is out of range. *)
Fixpoint spec_ops (h : nat) (ops : list TreeOp) (l : list bytes) : option (list bytes) :=
  match ops with
  | [] => Some l
  | OpAppend x :: ops' => if decide (length l < 2 ^ h)%nat then spec_ops h ops' (l ++ [x]) else None
  | OpUpdate i x :: ops' => if decide (i < length l)%nat then spec_ops h ops' (<[i := x]> l) else None
  end.

Lemma run_ops_spec `{H : Hasher} `{!ZeroBytesLaw H} {P} `{!NodeHash H P} h ops : forall t l l',
  represents (P := P) t l -> height t = h -> Forall (fun op => P (op_node op)) ops -> spec_ops h ops l = Some l' ->
  exists t', run_ops ops t = (Ok tt, t') /\ represents (P := P) t' l' /\ height t' = h.
Proof.
  induction ops as [|op ops IH]; intros t l l' Hrep Hh Hops Hs; simpl in Hs; [injection Hs as <-; by exists t|].
  rewrite Forall_cons in Hops. destruct Hops as [Hop Hops]. destruct op as [x|i x]; simpl in Hop.
  - pose proof (append_spec t l x Hrep Hop) as Ha. rewrite Hh in Ha. case_decide; [|done].
    destruct Ha as (t1 & Ht1 & Hrep1 & Hh1). destruct (IH t1 _ l' Hrep1 ltac:(congruence) Hops Hs) as (t' & Ht' & ?).
    exists t'. split; [|done]. simpl. unfold mbindM, mmap_err. by rewrite Ht1.
  - pose proof (update_spec t l x i Hrep Hop) as Hu. case_decide; [|done].
    destruct Hu as (t1 & Ht1 & Hrep1 & Hh1). destruct (IH t1 _ l' Hrep1 ltac:(congruence) Hops Hs) as (t' & Ht' & ?).
    exists t'. split; [|done]. simpl. unfold mbindM. by rewrite Ht1.
Qed.

(** The reference tree computes Merkle roots: after any sequence of appends
    and updates within range, from the new tree, its root is the root of the
    perfect tree over its current leaves, zero leaves elsewhere. *)
Theorem reference_tree_root `{H : Hasher} (Hzero : ZeroBytesLaw H) (P : bytes -> Prop) (Hnode : NodeHash H P)
    (h canopy : nat) (ops : list TreeOp) (l : list bytes) :
  (0 < h <= MAX_HEIGHT)%nat -> Forall (fun op => P (op_node op)) ops -> spec_ops h ops [] = Some l ->
  exists t t' r, new h canopy = Ok t /\ run_ops ops t = (Ok tt, t') /\
    leaves t' = l /\ root (E := HasherError) t' = Ok r /\ merkle_root h l = Ok r.
Proof.
  intros Hh Hops Hs. destruct (new_spec (P := P) h canopy Hh) as (t & Ht & Hrep).
  assert (height t = h) as Hht.
  { unfold new, new_history in Ht. destruct (zero_at h); simpl in Ht; [|done..]. by injection Ht as <-. }
  destruct (run_ops_spec h ops t [] l Hrep Hht Hops Hs) as (t' & Hrun & Hrep' & Hh').
  destruct Hrep' as [_ _ [rest Hls] _ _ _ _ (r & Hr & Hmr)]. exists t, t', r. rewrite <- Hh'. 
  split_and!; [by rewrite Hh'|done|unfold leaves; by rewrite Hls|unfold root; by rewrite Hr|done].
Qed.

Lemma reference_tree_root_witness :
  exists t t' r, @new (@Poseidon.Poseidon model_poseidon) 3 0 = Ok t /\
    @run_ops (@Poseidon.Poseidon model_poseidon)
      [OpAppend (replicate 32 x01); OpAppend (replicate 32 x02); OpUpdate 0 (replicate 32 x03)] t = (Ok tt, t') /\
    leaves t' = [replicate 32 x03; replicate 32 x02] /\ root (E := HasherError) t' = Ok r /\
    @merkle_root (@Poseidon.Poseidon model_poseidon) 3 [replicate 32 x03; replicate 32 x02] = Ok r.
Proof.
  apply (@reference_tree_root (@Poseidon.Poseidon model_poseidon) model_zero_bytes_law canonical
    (@poseidon_node_hash model_poseidon model_poseidon_total) 3 0
    [OpAppend (replicate 32 x01); OpAppend (replicate 32 x02); OpUpdate 0 (replicate 32 x03)]);
    [unfold MAX_HEIGHT; lia| |reflexivity].
  repeat (apply Forall_cons; split; [split; vm_compute; reflexivity|]). constructor.
Defined.

(** Inclusion proofs are complete and sound.  For every leaf position of the
    tree, the generated proof verifies the leaf stored there (the zero leaf
    where none is); and a proof that verifies at that position is the generated
    one, of the stored leaf, where the pairs hashed for the two do not
    collide. *)
Theorem reference_proof_correct `{H : Hasher} (Hzero : ZeroBytesLaw H) (P : bytes -> Prop) (Hnode : NodeHash H P)
    (t : MerkleTree) (l : list bytes) (i : nat) :
  represents (P := P) t l -> (i < 2 ^ height t)%nat ->
  exists proof, get_proof_of_leaf t i true = Ok proof /\ verify t (default zero32 (l !! i)) proof i = Ok true /\
  forall x proof', verify t x proof' i = Ok true ->
    collision_free hashv (climb_queries proof' i x ++ climb_queries proof i (default zero32 (l !! i))) ->
    x = default zero32 (l !! i) /\ proof' = proof.
Proof.
  intros Hrep Hi. destruct (proof_of_leaf_climbs t l i Hrep Hi) as (proof & r & Hp & Hlen & Hclimb & Hr).
  assert ((Z.of_nat i <? capacity t) = true) as Hcap.
  { rewrite (rep_capacity _ _ Hrep), <- (Nat2Z.inj_pow 2). lia. }
  exists proof. split_and!; [done| |].
  - unfold verify, root. rewrite Hcap, Hlen, Nat.eqb_refl, Hclimb, Hr. simpl. by rewrite bool_decide_true.
  - intros x proof' (_ & Hl & r' & Hc & Hr')%verify_climbs Hcf. rewrite Hr in Hr'. injection Hr' as <-.
    by apply (climb_binding proof' proof i x _ r ltac:(congruence) Hc Hclimb).
Qed.

Lemma reference_proof_correct_witness :
  exists t l, @represents (@Poseidon.Poseidon model_poseidon) canonical t l /\
    (exists proof, @get_proof_of_leaf (@Poseidon.Poseidon model_poseidon) t 5 true = Ok proof /\
       @verify (@Poseidon.Poseidon model_poseidon) t (default zero32 (l !! 5%nat)) proof 5 = Ok true).
Proof.
  destruct (@new_spec (@Poseidon.Poseidon model_poseidon) model_zero_bytes_law canonical 3 0) as (t & Ht & Hrep);
    [unfold MAX_HEIGHT; lia|].
  exists t, []. split; [exact Hrep|].
  destruct (@reference_proof_correct (@Poseidon.Poseidon model_poseidon) model_zero_bytes_law canonical
    (@poseidon_node_hash model_poseidon model_poseidon_total) t [] 5 Hrep) as (proof & Hp & Hv & _);
    [vm_compute in Ht; injection Ht as <-; vm_compute; lia|by exists proof].
Qed.

(** C40. Appending to a full tree fails, but only after the leaf was pushed: the
    tree then lists one leaf more than its capacity while its root, and every
    layer above the leaves, are those of the full tree. *)
Theorem full_append_leaves_extra_leaf `{H : Hasher} (Hzero : ZeroBytesLaw H) (P : bytes -> Prop)
    (Hnode : NodeHash H P) (t : MerkleTree) (l : list bytes) (x : bytes) :
  represents (P := P) t l -> P x -> length l = (2 ^ height t)%nat ->
  exists t', append x t = (Err IntegerOverflow, t') /\
    Z.of_nat (length (leaves t')) = capacity t + 1 /\ roots t' = roots t.
Proof.
  intros Hrep Hx Hl. pose proof (append_spec t l x Hrep Hx) as Ha. rewrite decide_False in Ha by lia.
  destruct Ha as (t' & Ht' & Hleaves & Hroots). exists t'. split_and!; [done| |done].
  rewrite Hleaves, length_app, Hl, (rep_capacity _ _ Hrep), Nat2Z.inj_add, Nat2Z.inj_pow. done.
Qed.

Lemma full_append_leaves_extra_leaf_witness :
  exists t t', @append (@Poseidon.Poseidon model_poseidon) zero32 t = (Err IntegerOverflow, t') /\
    Z.of_nat (length (leaves t')) = capacity t + 1 /\ roots t' = roots t.
Proof.
  destruct (@new_spec (@Poseidon.Poseidon model_poseidon) model_zero_bytes_law canonical 1 0) as (t & Ht & Hrep);
    [unfold MAX_HEIGHT; lia|].
  assert (canonical zero32) as Hz by (split; vm_compute; reflexivity).
  destruct (@run_ops_spec (@Poseidon.Poseidon model_poseidon) model_zero_bytes_law canonical
    (@poseidon_node_hash model_poseidon model_poseidon_total) 1 [OpAppend zero32; OpAppend zero32] t []
    [zero32; zero32] Hrep) as (t1 & _ & Hrep1 & Hh); [vm_compute in Ht; by injection Ht as <-|by repeat constructor|done|].
  exists t1. apply (@full_append_leaves_extra_leaf (@Poseidon.Poseidon model_poseidon) model_zero_bytes_law canonical
    (@poseidon_node_hash model_poseidon model_poseidon_total) t1 [zero32; zero32] zero32 Hrep1 Hz).
  rewrite Hh. reflexivity.
Defined.
