(* ===== verification/IndexedArray.v ===== *)
(** * The indexed array

    src/protocol-ops/merkle-tree/src/indexed_array: elements in insertion order,
    linked by [next_index] in the order of their values, with a sorted index
    from value to position.  [BigUint] values are integers, the [BTreeMap] is a
    finite map, and the index type is a machine integer of [W] bits.  The
    theorems: appending keeps the list sorted and the index in step, and the
    low element found through the index is the greatest one below a value. *)

From S2P Require Import Prelude Hasher.

Inductive IndexedArrayError : Type :=
| ArrayIntegerOverflow
| IndexHigherThanMax
| LowElementNotFound
| LowElementGreaterOrEqualToNewElement
| NewElementGreaterOrEqualToNextElement
| ElementAlreadyExists
| ElementDoesNotExist
| ArrayHasher (e : HasherError)
| ArrayFull.

Record IndexedElement : Type := mkElement {
  index : nat;
  value : Z;
  next_index : nat;
}.

Record RawIndexedElement : Type := mkRawElement {
  raw_value : bytes;
  raw_next_index : nat;
  raw_next_value : bytes;
  raw_index : nat;
}.

Record IndexedElementBundle : Type := mkBundle {
  new_low_element : IndexedElement;
  new_element : IndexedElement;
  new_element_next_value : Z;
}.

Record IndexedArray : Type := mkIndexedArray {
  elements : list IndexedElement;
  current_node_index : nat;
  highest_element_index : nat;
  highest_value : Z;
  by_value : gmap Z nat;
}.

Definition from_raw `{BigUint} (raw : RawIndexedElement) : IndexedElement :=
  mkElement (raw_index raw) (from_bytes_be (raw_value raw)) (raw_next_index raw).

Definition hash `{Hasher} `{BigUint} (e : IndexedElement) (next_value : Z) : res IndexedArrayError bytes :=
  let? v := map_err ArrayHasher (bigint_to_be_bytes_array 32 (value e)) in
  let? n := map_err ArrayHasher (bigint_to_be_bytes_array 32 next_value) in
  map_err ArrayHasher (hashv [v; n]).

Definition default_array : IndexedArray := mkIndexedArray [mkElement 0 0 0] 0 0 0 {[ 0 := 0%nat ]}.

Definition new (value next_value : Z) : IndexedArray :=
  mkIndexedArray [mkElement 0 value 0] 0 0 next_value {[ value := 0%nat ]}.

Definition get (a : IndexedArray) (i : nat) : option IndexedElement := elements a !! i.

Definition len (a : IndexedArray) : nat := current_node_index a.

Definition is_empty (a : IndexedArray) : bool := Nat.eqb (current_node_index a) 0.

(** [elements[..len + 1]]; slicing past the end panics. *)
Definition live_elements {E} (a : IndexedArray) : res E (list IndexedElement) :=
  or_panic (if decide (S (len a) <= length (elements a))%nat then Some (take (S (len a)) (elements a)) else None).

Definition find_element (a : IndexedArray) (v : Z) : res IndexedArrayError (option IndexedElement) :=
  let? live := live_elements a in
  Ok (snd <$> list_find (fun e => value e = v) live).

(** [by_value.range(..v).next_back()]: the entry with the greatest key below. *)
Definition later (v : Z) (k : Z) (i : nat) (acc : option (Z * nat)) : option (Z * nat) :=
  if k <? v then
    match acc with
    | Some (k', _) => if k' <? k then Some (k, i) else acc
    | None => Some (k, i)
    end
  else acc.

Definition last_below (v : Z) (m : gmap Z nat) : option (Z * nat) :=
  foldr (fun ki => later v ki.1 ki.2) None (map_to_list m).

Definition find_low_element_index_for_nonexistent (a : IndexedArray) (v : Z) : res IndexedArrayError nat :=
  match by_value a !! v with
  | Some _ => Err ElementAlreadyExists
  | None =>
      Ok (match last_below v (by_value a) with
          | Some (_, i) => i
          | None => highest_element_index a
          end)
  end.

(** [elements[i]]. *)
Definition element {E} (a : IndexedArray) (i : nat) : res E IndexedElement := or_panic (elements a !! i).

(** The value after [next]: the highest value past the end. *)
Definition value_after {E} (a : IndexedArray) (next : nat) : res E Z :=
  if Nat.eqb next 0 then Ok (highest_value a)
  else let? e := element a next in Ok (value e).

Definition find_low_element_for_nonexistent (a : IndexedArray) (v : Z)
    : res IndexedArrayError (IndexedElement * Z) :=
  let? i := find_low_element_index_for_nonexistent a v in
  let? low := element a i in
  let? next_value := value_after a (next_index low) in
  Ok (low, next_value).

(** The loop over the enumerated live elements. *)
Fixpoint existent_loop (W : Z) (a : IndexedArray) (v : Z) (i : nat) (es : list IndexedElement)
    : res IndexedArrayError nat :=
  match es with
  | [] => Err ElementDoesNotExist
  | e :: es' =>
      let? next := element a (next_index e) in
      if value next =? v then
        check Z.of_nat i <? 2 ^ W else ArrayIntegerOverflow in
        Ok i
      else existent_loop W a v (S i) es'
  end.

Definition find_low_element_index_for_existent (W : Z) (a : IndexedArray) (v : Z) : res IndexedArrayError nat :=
  let? live := live_elements a in
  existent_loop W a v 0 live.

Definition find_low_element_for_existent (W : Z) (a : IndexedArray) (v : Z) : res IndexedArrayError IndexedElement :=
  let? i := find_low_element_index_for_existent W a v in
  element a i.

Definition hash_element `{Hasher} `{BigUint} (a : IndexedArray) (i : nat) : res IndexedArrayError bytes :=
  let? e := ok_or (elements a !! i) IndexHigherThanMax in
  let? next_value :=
    if Nat.eqb (next_index e) 0 then Ok (highest_value a)
    else let? e := ok_or (elements a !! next_index e) IndexHigherThanMax in Ok (value e) in
  hash e next_value.

Definition new_element_with_low_element_index (W : Z) (a : IndexedArray) (low : nat) (v : Z)
    : res IndexedArrayError IndexedElementBundle :=
  let? old_low := element a low in
  check Z.of_nat (S (current_node_index a)) <? 2 ^ W else ArrayIntegerOverflow in
  let i := S (current_node_index a) in
  let? next_value := value_after a (next_index old_low) in
  Ok (mkBundle (mkElement (index old_low) (value old_low) i) (mkElement i v (next_index old_low)) next_value).

Definition bundle_for (W : Z) (a : IndexedArray) (v : Z) : res IndexedArrayError IndexedElementBundle :=
  let? low := find_low_element_index_for_nonexistent a v in
  new_element_with_low_element_index W a low v.

Definition append_with_low_element_index (W : Z) (low : nat) (v : Z)
    : M IndexedArray IndexedArrayError IndexedElementBundle :=
  do! a <- mget;
  do! old_low <- mlift (element a low);
  require negb (v <=? value old_low) else LowElementGreaterOrEqualToNewElement;
  exec! (if Nat.eqb (next_index old_low) 0 then mret tt
         else do! next <- mlift (element a (next_index old_low));
              require negb (value next <=? v) else NewElementGreaterOrEqualToNextElement;
              mret tt);
  do! bundle <- mlift (new_element_with_low_element_index W a low v);
  let i := index (new_element bundle) in
  exec! mmodify (fun a =>
    mkIndexedArray (<[low := new_low_element bundle]> (elements a ++ [new_element bundle])) i
      (if Nat.eqb (next_index old_low) 0 then i else highest_element_index a) (highest_value a)
      (<[v := i]> (by_value a)));
  mret bundle.

Definition append (W : Z) (v : Z) : M IndexedArray IndexedArrayError IndexedElementBundle :=
  do! a <- mget;
  do! low <- mlift (find_low_element_index_for_nonexistent a v);
  append_with_low_element_index W low v.

Definition lowest (a : IndexedArray) : option IndexedElement :=
  if decide (current_node_index a < 1)%nat then None else elements a !! 1%nat.

(** ** The double-ended iterator *)

(** [front] and the inclusive [back]. *)
Record IndexingArrayIter : Type := mkIter {
  front : nat;
  back : nat;
}.

Definition iter (a : IndexedArray) : IndexingArrayIter := mkIter 0 (current_node_index a).

Definition next (a : IndexedArray) (it : IndexingArrayIter) : option IndexedElement * IndexingArrayIter :=
  if decide (front it <= back it)%nat then (elements a !! front it, mkIter (S (front it)) (back it))
  else (None, it).

Definition next_back (a : IndexedArray) (it : IndexingArrayIter) : option IndexedElement * IndexingArrayIter :=
  if decide (back it < front it)%nat then (None, it)
  else (elements a !! back it,
        match back it with
        | S b => mkIter (front it) b
        | O => mkIter 1 0
        end).

(** ** The sorted linked list *)

Lemma last_below_list v l :
  match foldr (fun ki => later v ki.1 ki.2) None l with
  | Some (k, i) => (k, i) ∈ l /\ k < v /\ forall k' i', (k', i') ∈ l -> k' < v -> k' <= k
  | None => forall k' i', (k', i') ∈ l -> v <= k'
  end.
Proof.
  induction l as [|[k i] l IH]; simpl; [by intros ? ? ?%not_elem_of_nil|].
  set (acc := foldr _ _ l) in *. unfold later. destruct (k <? v) eqn:Hk; breflect.
  - destruct acc as [[k1 i1]|].
    + destruct IH as (Hin & Hlt & Hmax). destruct (k1 <? k) eqn:Hk1; breflect.
      * split_and!; [constructor|done|]. intros k' i' [Heq|Hin']%elem_of_cons Hlt'; [simplify_eq; lia|].
        specialize (Hmax k' i' Hin' Hlt'). lia.
      * split_and!; [by constructor|done|]. intros k' i' [Heq|Hin']%elem_of_cons Hlt'; [simplify_eq; lia|by eapply Hmax].
    + split_and!; [constructor|done|]. intros k' i' [Heq|Hin']%elem_of_cons Hlt'; [by simplify_eq|].
      specialize (IH k' i' Hin'). lia.
  - destruct acc as [[k1 i1]|].
    + destruct IH as (Hin & Hlt & Hmax). split_and!; [by constructor|done|].
      intros k' i' [Heq|Hin']%elem_of_cons Hlt'; [simplify_eq; lia|by eapply Hmax].
    + intros k' i' [Heq|Hin']%elem_of_cons; [by simplify_eq|by eapply IH].
Qed.

Lemma last_below_spec v (m : gmap Z nat) :
  match last_below v m with
  | Some (k, i) => m !! k = Some i /\ k < v /\ forall k' i', m !! k' = Some i' -> k' < v -> k' <= k
  | None => forall k' i', m !! k' = Some i' -> v <= k'
  end.
Proof.
  unfold last_below. pose proof (last_below_list v (map_to_list m)) as Hs.
  destruct (foldr _ _ _) as [[k i]|].
  - rewrite elem_of_map_to_list in Hs. destruct Hs as (Hk & Hlt & Hmax). split_and!; [done..|].
    intros k' i' Hk'. apply Hmax with i'. by apply elem_of_map_to_list.
  - intros k' i' Hk'. apply (Hs k' i'). by apply elem_of_map_to_list.
Qed.

(** The values of the array. *)
Definition has (a : IndexedArray) (v : Z) : Prop := exists i e, elements a !! i = Some e /\ value e = v.

(** Well-formed arrays: positions match the index fields, the sorted index maps
    every value to its position, and each element links to the one with the next
    greater value, the greatest one to 0. *)
Record array_wf (a : IndexedArray) : Prop := {
  wf_index : forall i e, elements a !! i = Some e -> index e = i;
  wf_len : length (elements a) = S (current_node_index a);
  wf_map : forall v i, by_value a !! v = Some i <-> exists e, elements a !! i = Some e /\ value e = v;
  wf_last : forall i e, elements a !! i = Some e -> next_index e = 0%nat ->
    highest_element_index a = i /\ forall v, has a v -> v <= value e;
  wf_next : forall i e, elements a !! i = Some e -> next_index e <> 0%nat ->
    exists e', elements a !! next_index e = Some e' /\ value e < value e' /\
      forall v, has a v -> v <= value e \/ value e' <= v;
  wf_highest : exists e, elements a !! highest_element_index a = Some e /\ next_index e = 0%nat;
}.

Lemma new_wf v next_value : array_wf (new v next_value).
Proof.
  split; simpl.
  - intros [|i] e He; [by simplify_eq/=|done].
  - done.
  - intros v' i. rewrite lookup_singleton_Some. split.
    + intros [<- <-]. by eexists.
    + intros (e & He & <-). destruct i; [by simplify_eq/=|done].
  - intros [|i] e He _; [|done]. simplify_eq/=. split; [done|]. intros v' ([|j] & e & He & <-); [by simplify_eq/=|done].
  - intros [|i] e He Hn; [by simplify_eq/=|done].
  - by eexists.
Qed.

(** The low element of an absent value above the first: its predecessor. *)
Lemma find_low_spec a v :
  array_wf a -> ~ has a v -> (exists u, has a u /\ u < v) ->
  exists i low, find_low_element_index_for_nonexistent a v = Ok i /\ elements a !! i = Some low /\
    value low < v /\ forall u, has a u -> u <= value low \/ v < u.
Proof.
  intros Hwf Hv (u & (j & eu & Hj & Hu) & Hlt). unfold find_low_element_index_for_nonexistent.
  destruct (by_value a !! v) as [i|] eqn:Hi.
  { apply (wf_map _ Hwf) in Hi as (e & He & Hev). destruct Hv. by exists i, e. }
  pose proof (last_below_spec v (by_value a)) as Hs. destruct (last_below v (by_value a)) as [[k i]|].
  - destruct Hs as (Hk & Hkv & Hmax). apply (wf_map _ Hwf) in Hk as (e & He & Hek). subst k.
    exists i, e. split_and!; [done..|]. intros u' (j' & e' & He' & <-).
    destruct (decide (value e' = v)) as [Heq|Hne]; [destruct Hv; by exists j', e'|].
    destruct (decide (value e' < v)) as [Hl|Hg]; [left|right; lia].
    apply (Hmax _ j'); [|done]. apply (wf_map _ Hwf). by exists e'.
  - assert (v <= u); [|lia]. apply (Hs u j). apply (wf_map _ Hwf). by exists eu.
Qed.

(** What follows a low element: the next value, or the end. *)
Lemma low_gap a i low v :
  array_wf a -> elements a !! i = Some low -> ~ has a v -> value low < v ->
  (forall u, has a u -> u <= value low \/ v < u) ->
  if decide (next_index low = 0%nat) then highest_element_index a = i /\ forall u, has a u -> u <= value low
  else exists e', elements a !! next_index low = Some e' /\ v < value e' /\
    forall u, has a u -> u <= value low \/ value e' <= u.
Proof.
  intros Hwf Hlow Hv Hlt Hgap. case_decide as Hn; [by apply (wf_last _ Hwf)|].
  destruct (wf_next _ Hwf i low Hlow Hn) as (e' & He' & Hlt' & Hsucc). exists e'. split_and!; [done| |done].
  destruct (Hgap (value e')) as [|]; [by exists (next_index low), e'|lia|done].
Qed.

(** Link a new element with value [v] after the element at [i]. *)
Definition link (a : IndexedArray) (i : nat) (low : IndexedElement) (v : Z) : IndexedArray :=
  let n := S (current_node_index a) in
  mkIndexedArray (<[i := mkElement (index low) (value low) n]> (elements a ++ [mkElement n v (next_index low)])) n
    (if Nat.eqb (next_index low) 0 then n else highest_element_index a) (highest_value a) (<[v := n]> (by_value a)).

Lemma link_lookup a i low v j e :
  array_wf a -> elements a !! i = Some low ->
  elements (link a i low v) !! j = Some e <->
  (j = i /\ e = mkElement i (value low) (length (elements a))) \/
  (j = length (elements a) /\ e = mkElement (length (elements a)) v (next_index low)) \/
  (j <> i /\ elements a !! j = Some e).
Proof.
  intros Hwf Hi. pose proof (lookup_lt_Some _ _ _ Hi) as Hlt. unfold link. cbn [elements].
  rewrite <- (wf_len _ Hwf), (wf_index _ Hwf i low Hi).
  destruct (decide (j = i)) as [->|Hne].
  - rewrite list_lookup_insert_eq by (rewrite length_app; lia). split; [naive_solver|].
    intros [[_ ->]|[[He _]|[He _]]]; [done|lia|done].
  - rewrite list_lookup_insert_ne by done. destruct (decide (j < length (elements a))%nat) as [Hj|Hj].
    + rewrite lookup_app_l by done. split; [naive_solver|]. intros [[? _]|[[? _]|[_ ?]]]; [done|lia|done].
    + rewrite lookup_app_r by lia. destruct (j - length (elements a))%nat as [|k] eqn:Hk.
      * simpl. split; [intros [= <-]; right; left; split; [lia|done]|].
        intros [[? _]|[[_ ->]|[_ He]]]; [done|done|]. apply lookup_lt_Some in He. lia.
      * simpl. split; [done|]. intros [[? _]|[[? _]|[_ He]]]; [done|lia|]. apply lookup_lt_Some in He. lia.
Qed.

Lemma link_has a i low v u : array_wf a -> elements a !! i = Some low ->
  has (link a i low v) u <-> has a u \/ u = v.
Proof.
  intros Hwf Hi. split.
  - intros (j & e & He & <-). apply (link_lookup a i low v j e Hwf Hi) in He as [[-> ->]|[[-> ->]|[_ He]]].
    + left. by exists i, low.
    + by right.
    + left. by exists j, e.
  - intros [(j & e & He & <-)| ->].
    + destruct (decide (j = i)) as [->|Hne].
      * exists i, (mkElement i (value low) (length (elements a))). rewrite (link_lookup a i low v) by done.
        simplify_eq. split; [by left|done].
      * exists j, e. rewrite (link_lookup a i low v) by done. split; [by do 2 right|done].
    + exists (length (elements a)), (mkElement (length (elements a)) v (next_index low)).
      rewrite (link_lookup a i low v) by done. split; [by right; left|done].
Qed.

(** Elements survive a link with their index and value. *)
Lemma link_keeps a i low v j e : array_wf a -> elements a !! i = Some low -> elements a !! j = Some e ->
  exists e', elements (link a i low v) !! j = Some e' /\ value e' = value e /\ (j <> i -> e' = e).
Proof.
  intros Hwf Hi Hj. destruct (decide (j = i)) as [->|Hne].
  - eexists. rewrite (link_lookup a i low v) by done. split; [by left|]. simplify_eq. split; [done|]. done.
  - exists e. rewrite (link_lookup a i low v) by done. split; [by do 2 right|done].
Qed.

Lemma wf_inj a i j e e' : array_wf a -> elements a !! i = Some e -> elements a !! j = Some e' ->
  value e = value e' -> i = j.
Proof.
  intros Hwf Hi Hj Hv. assert (by_value a !! value e = Some i) as Hi' by (apply (wf_map _ Hwf); by exists e).
  assert (by_value a !! value e = Some j) as Hj' by (apply (wf_map _ Hwf); by exists e'). congruence.
Qed.

Lemma link_highest a i low v : array_wf a ->
  highest_element_index (link a i low v)
  = if decide (next_index low = 0%nat) then length (elements a) else highest_element_index a.
Proof.
  intros Hwf. unfold link. cbn [highest_element_index]. rewrite (wf_len _ Hwf).
  case_decide as Hn; [by rewrite Hn|by rewrite (proj2 (Nat.eqb_neq _ _))].
Qed.

Lemma link_wf a i low v :
  array_wf a -> elements a !! i = Some low -> ~ has a v -> value low < v ->
  (forall u, has a u -> u <= value low \/ v < u) -> array_wf (link a i low v).
Proof.
  intros Hwf Hi Hv Hlt Hgap. pose proof (low_gap a i low v Hwf Hi Hv Hlt Hgap) as Hnext.
  pose proof (link_lookup a i low v) as Hlk. pose proof (lookup_lt_Some _ _ _ Hi) as Hilt.
  assert (forall u, has (link a i low v) u <-> has a u \/ u = v) as Hhas by (intros; by apply link_has).
  pose proof (link_highest a i low v Hwf) as Hhigh. split.
  - intros j e [[-> ->]|[[-> ->]|[_ He]]]%Hlk; [done|done|by apply (wf_index _ Hwf)|done|done].
  - unfold link. simpl. rewrite length_insert, length_app, (wf_len _ Hwf). simpl. lia.
  - intros u j. unfold link at 1. cbn [by_value]. rewrite lookup_insert_Some, (wf_map _ Hwf), <- (wf_len _ Hwf). split.
    + intros [[<- <-]|[Hne (e & He & <-)]].
      * eexists. rewrite Hlk by done. split; [by right; left|done].
      * destruct (link_keeps a i low v j e Hwf Hi He) as (e' & He' & Hv' & _). by exists e'.
    + intros (e & [[-> ->]|[[-> ->]|[Hne He]]]%Hlk & <-); [|by left| |done|done]; right; simpl.
      * split; [lia|]. by exists low.
      * split; [intros ->; apply Hv; by exists j, e|]. by exists e.
  - intros j e [[-> ->]|[[-> ->]|[Hne He]]]%Hlk Hz; [|simpl in Hz| |done|done].
    + simpl in Hz. lia.
    + rewrite Hhigh, decide_True by done. split; [done|]. rewrite decide_True in Hnext by done. destruct Hnext as [_ Hmax]. intros u [Hu| ->]%Hhas; simpl; [|lia].
      specialize (Hmax u Hu). lia.
    + destruct (wf_last _ Hwf j e He Hz) as [Hh Hmax]. rewrite Hhigh. case_decide as Hl0.
      * destruct (wf_last _ Hwf i low Hi Hl0) as [Hi' _]. congruence.
      * split; [done|]. intros u [Hu| ->]%Hhas; [by apply Hmax|].
        destruct Hnext as (e' & He' & Hlt' & _). specialize (Hmax (value e') ltac:(by exists (next_index low), e')). lia.
  - intros j e [[-> ->]|[[-> ->]|[Hne He]]]%Hlk Hz; [|simpl in Hz| |done|done].
    + simpl. exists (mkElement (length (elements a)) v (next_index low)). rewrite Hlk by done.
      split; [by right; left|]. split; [done|]. intros u [Hu| ->]%Hhas; [|right; simpl; lia].
      destruct (Hgap u Hu); [by left|right; simpl; lia].
    + rewrite decide_False in Hnext by done. destruct Hnext as (e' & He' & Hlt' & Hsucc).
      destruct (link_keeps a i low v _ e' Hwf Hi He') as (e'' & He'' & Hv' & _). exists e''. simpl.
      split; [done|]. rewrite Hv'. split; [done|]. intros u [Hu| ->]%Hhas; [|left; simpl; lia].
      destruct (Hsucc u Hu); [left; lia|by right].
    + destruct (wf_next _ Hwf j e He Hz) as (e' & He' & Hlt' & Hsucc).
      destruct (link_keeps a i low v _ e' Hwf Hi He') as (e'' & He'' & Hv' & _). exists e''.
      split; [done|]. rewrite Hv'. split; [done|]. intros u [Hu| ->]%Hhas; [by apply Hsucc|].
      destruct (Hgap (value e) ltac:(by exists j, e)) as [Hle|Hgt]; [|left; lia].
      destruct (Hsucc (value low) ltac:(by exists i, low)) as [Hle'|Hge']; [|right; lia].
      destruct Hne. apply (wf_inj a j i e low Hwf He Hi). lia.
  - rewrite Hhigh. case_decide as Hl0.
    + eexists. rewrite Hlk by done. split; [by right; left|done].
    + destruct (wf_highest _ Hwf) as (e & He & Hz). exists e. rewrite Hlk by done. split; [|done].
      right; right. split; [|done]. intros Heq. rewrite Heq in He. simplify_eq.
Qed.

Lemma has_dec a v : array_wf a -> has a v <-> exists i, by_value a !! v = Some i.
Proof.
  intros Hwf. split.
  - intros (i & e & He & Hv). exists i. apply (wf_map _ Hwf). by exists e.
  - intros (i & (e & He & Hv)%(wf_map _ Hwf)). by exists i, e.
Qed.

(** The value the gap above [low] ends at. *)
Definition gap_end (a : IndexedArray) (low : IndexedElement) : Z :=
  if decide (next_index low = 0%nat) then highest_value a
  else default 0 (value <$> elements a !! next_index low).

Lemma value_after_gap {E} a i low : array_wf a -> elements a !! i = Some low ->
  value_after (E := E) a (next_index low) = Ok (gap_end a low).
Proof.
  intros Hwf Hi. unfold value_after, gap_end, element. case_decide as Hn; [by rewrite Hn|].
  rewrite (proj2 (Nat.eqb_neq _ _)) by done.
  destruct (wf_next _ Hwf i low Hi Hn) as (e' & -> & _). done.
Qed.

(** Appending an absent value. *)
Lemma append_absent W a v :
  array_wf a -> ~ has a v -> (exists u, has a u /\ u < v) ->
  exists i low, elements a !! i = Some low /\ value low < v /\ (forall u, has a u -> u <= value low \/ v < u) /\
    append W v a
    = if Z.of_nat (length (elements a)) <? 2 ^ W
      then (Ok (mkBundle (mkElement i (value low) (length (elements a)))
                  (mkElement (length (elements a)) v (next_index low)) (gap_end a low)), link a i low v)
      else (Err ArrayIntegerOverflow, a).
Proof.
  intros Hwf Hv Hu. destruct (find_low_spec a v Hwf Hv Hu) as (i & low & Hfind & Hi & Hlt & Hgap).
  exists i, low. split_and!; [done..|]. pose proof (low_gap a i low v Hwf Hi Hv Hlt Hgap) as Hnext.
  unfold append, mbindM at 1, mget, mbindM at 1, mlift at 1. rewrite Hfind.
  unfold append_with_low_element_index, mbindM at 1, mget, mbindM at 1, mlift at 1, element at 1. rewrite Hi.
  cbn [or_panic]. rewrite (proj2 (Z.leb_gt _ _)) by done. cbn [negb]. unfold mbindM at 1.
  assert ((if Nat.eqb (next_index low) 0 then mret tt
    else do! next <- mlift (element a (next_index low));
         require negb (value next <=? v) else NewElementGreaterOrEqualToNextElement; mret tt) a
    = (Ok tt : res IndexedArrayError unit, a)) as ->.
  { case_decide as Hn; [by rewrite Hn|]. rewrite (proj2 (Nat.eqb_neq _ _)) by done.
    destruct Hnext as (e' & He' & Hlt' & _). unfold mbindM, mlift, element. rewrite He'. cbn [or_panic].
    by rewrite (proj2 (Z.leb_gt _ _)) by done. }
  unfold mbindM at 1, mlift at 1, new_element_with_low_element_index, element. rewrite Hi. cbn [or_panic rbind].
  rewrite (value_after_gap a i low Hwf Hi), (wf_len _ Hwf), (wf_index _ Hwf i low Hi).
  destruct (_ <? _); [|done]. unfold link. by rewrite (wf_index _ Hwf i low Hi).
Qed.

(** [lo] and [hi] are the neighbours of the absent value [v]: the greatest value
    below it and the least above it, the sentinel where none is. *)
Definition neighbours (a : IndexedArray) (v lo hi : Z) : Prop :=
  has a lo /\ lo < v /\
  ((hi = highest_value a /\ forall u, has a u -> u <= lo) \/
   (has a hi /\ v < hi /\ forall u, has a u -> u <= lo \/ hi <= u)).

Lemma gap_neighbours a i low v :
  array_wf a -> elements a !! i = Some low -> ~ has a v -> value low < v ->
  (forall u, has a u -> u <= value low \/ v < u) -> neighbours a v (value low) (gap_end a low).
Proof.
  intros Hwf Hi Hv Hlt Hgap. pose proof (low_gap a i low v Hwf Hi Hv Hlt Hgap) as Hnext.
  split; [by exists i, low|]. split; [done|]. unfold gap_end. case_decide as Hn.
  - left. split; [done|]. by destruct Hnext.
  - right. destruct Hnext as (e' & He' & Hlt' & Hsucc). rewrite He'. simpl.
    split; [by exists (next_index low), e'|]. done.
Qed.

(** ** Theorems *)

(** Appending to a well-formed array.  A value already present is refused
    with [ElementAlreadyExists] and nothing changes; an absent value above the
    first element is linked between its neighbours, which the returned bundle
    names, the array stays well-formed and gains this value only; the call fails
    with an integer overflow exactly when the index type is exhausted. *)
Theorem indexed_array_append (W : Z) (a : IndexedArray) (v : Z) :
  array_wf a -> (exists u, has a u /\ u < v) ->
  (has a v /\ append W v a = (Err ElementAlreadyExists, a)) \/
  (~ has a v /\ 2 ^ W <= Z.of_nat (length (elements a)) /\ append W v a = (Err ArrayIntegerOverflow, a)) \/
  (~ has a v /\ exists bundle a', append W v a = (Ok bundle, a') /\ array_wf a' /\
     (forall u, has a' u <-> has a u \/ u = v) /\ highest_value a' = highest_value a /\
     neighbours a v (value (new_low_element bundle)) (new_element_next_value bundle) /\
     value (new_element bundle) = v /\ index (new_element bundle) = length (elements a)).
Proof.
  intros Hwf Hu. destruct (by_value a !! v) as [i|] eqn:Hv.
  - left. split; [apply has_dec; [done|by exists i]|].
    unfold append, mbindM, mget, mlift, find_low_element_index_for_nonexistent. by rewrite Hv.
  - assert (~ has a v) as Hnh by (rewrite has_dec by done; intros [i Hi]; congruence). right.
    destruct (append_absent W a v Hwf Hnh Hu) as (i & low & Hi & Hlt & Hgap & Happ).
    destruct (_ <? _) eqn:HW; breflect; [right|left; split_and!; [done|lia|done]].
    split; [done|]. eexists _, _. split; [exact Happ|]. split; [by apply link_wf|].
    split; [intros; by apply link_has|]. split; [done|]. simpl. split; [by eapply gap_neighbours|done].
Qed.

(** Appending a list of values. *)
Fixpoint append_values (W : Z) (vs : list Z) : M IndexedArray IndexedArrayError unit :=
  match vs with
  | [] => mret tt
  | v :: vs' => exec! append W v; append_values W vs'
  end.

Definition example_array : IndexedArray := (append_values 64 [30; 10; 20] (new 0 100)).2.

Lemma example_array_wf : array_wf example_array.
Proof.
  assert (forall a v a', array_wf a -> has a 0 -> 0 < v -> (append 64 v a).1 <> Err ElementAlreadyExists ->
    append 64 v a = ((append 64 v a).1, a') -> (length (elements a) < 10)%nat -> array_wf a' /\ has a' 0) as Hstep.
  { intros a v a' Hwf H0 Hv Hne Ha Hl. destruct (by_value a !! v) as [i|] eqn:Hby.
    - destruct Hne. unfold append, mbindM, mget, mlift, find_low_element_index_for_nonexistent. by rewrite Hby.
    - assert (~ has a v) as Hnh by (rewrite has_dec by done; intros [i Hi]; congruence).
      destruct (append_absent 64 a v Hwf Hnh ltac:(by exists 0)) as (i & low & Hi & Hlt & Hgap & Happ).
      rewrite (proj2 (Z.ltb_lt _ _)) in Happ by lia. rewrite Happ in Ha. injection Ha as <-.
      split; [by apply link_wf|]. apply link_has; [done..|by left]. }
  destruct (Hstep (new 0 100) 30 (append 64 30 (new 0 100)).2) as [H1 H1'];
    [apply new_wf|by exists 0%nat, (mkElement 0 0 0)|done|done|done|simpl; lia|].
  destruct (Hstep _ 10 (append 64 10 (append 64 30 (new 0 100)).2).2 H1 H1') as [H2 H2']; [done|done|done|vm_compute; lia|].
  by destruct (Hstep _ 20 (append 64 20 (append 64 10 (append 64 30 (new 0 100)).2).2).2 H2 H2') as [H3 _];
    [done|done|done|vm_compute; lia|].
Qed.

Lemma indexed_array_append_witness :
  exists bundle a', append 64 15 example_array = (Ok bundle, a') /\ array_wf a' /\
    neighbours example_array 15 (value (new_low_element bundle)) (new_element_next_value bundle).
Proof.
  destruct (indexed_array_append 64 example_array 15 example_array_wf) as [[_ Ha]|[[_ [Hlen _]]|[_ Hok]]].
  - exists 0. split; [|lia]. exists 0%nat, (mkElement 0 0 2). split; vm_compute; reflexivity.
  - vm_compute in Ha. discriminate.
  - vm_compute in Hlen. congruence.
  - destruct Hok as (bundle & a' & Ha & Hwf & _ & _ & Hn & _). exists bundle, a'. split; [exact Ha|]. split; [exact Hwf|exact Hn].
Defined.
