(* ===== verification/IndexedMerkleTree.v ===== *)
(** * The indexed Merkle tree

    src/protocol-ops/merkle-tree/src/indexed.rs: a [MerkleTree] whose leaf [j] is
    the hash of element [j] of an [IndexedArray] with the next greater value, so
    that a leaf proves that no value lies between the two.  The theorems: leaves
    and array stay in step; an absent value below the sentinel gets a
    non-inclusion proof whose Merkle path verifies, one from the sentinel on a
    proof that is refused; an accepted proof whose path verifies shows the value
    absent; and, of the code as written, [verify_non_inclusion_proof] also
    accepts proofs whose path does not verify. *)

From S2P Require Import Prelude ZeroBytes Hasher HashChain MerkleSpec MerkleTree IndexedArray.

Inductive IndexedReferenceMerkleTreeError : Type :=
| NonInclusionProofFailedLowerBoundViolated
| NonInclusionProofFailedHigherBoundViolated
| Indexed (e : IndexedArrayError)
| Reference (e : ReferenceMerkleTreeError)
| IndexedHasher (e : HasherError).

Record IndexedMerkleTree : Type := mkIndexedTree {
  merkle_tree : MerkleTree;
  indexed_array : IndexedArray;
}.

Definition set_merkle_tree (v : MerkleTree) (t : IndexedMerkleTree) : IndexedMerkleTree :=
  mkIndexedTree v (indexed_array t).

Definition set_indexed_array (v : IndexedArray) (t : IndexedMerkleTree) : IndexedMerkleTree :=
  mkIndexedTree (merkle_tree t) v.

Record NonInclusionProof : Type := mkNonInclusionProof {
  proof_root : bytes;
  proof_value : bytes;
  leaf_lower_range_value : bytes;
  leaf_higher_range_value : bytes;
  leaf_index : nat;
  proof_next_index : nat;
  merkle_proof : list bytes;
}.

Definition HIGHEST_ADDRESS_PLUS_ONE : Z :=
  452312848583266388373324160190187140051835877600158453279131187530910662655.

Section tree.
Context `{H : Hasher} `{B : BigUint} (W : Z).

(** The two [unwrap]s of [new_with_next_value] and its assertion panic. *)
Definition new_with_next_value (height canopy_depth : nat) (init_next_value : Z)
    : res IndexedReferenceMerkleTreeError IndexedMerkleTree :=
  let? t := map_err IndexedHasher (MerkleTree.new height canopy_depth) in
  let a := IndexedArray.new 0 init_next_value in
  let? e := or_panic (get a 0) in
  match hash e init_next_value with
  | Ok new_leaf =>
      let '(r, t) := MerkleTree.append new_leaf t in
      let? _ := map_err IndexedHasher r in
      let? l := map_err Reference (leaf t 0) in
      if decide (l = new_leaf) then Ok (mkIndexedTree t a) else Panic
  | _ => Panic
  end.

Definition new (height canopy_depth : nat) : res IndexedReferenceMerkleTreeError IndexedMerkleTree :=
  new_with_next_value height canopy_depth HIGHEST_ADDRESS_PLUS_ONE.

Definition update (new_low_element new_element : IndexedElement) (new_element_next_value : Z)
    : M IndexedMerkleTree IndexedReferenceMerkleTreeError unit :=
  do! new_low_leaf <- mlift (map_err Indexed (hash new_low_element (value new_element)));
  exec! mmap_err Reference (zoom merkle_tree set_merkle_tree
    (MerkleTree.update new_low_leaf (index new_low_element)));
  do! new_leaf <- mlift (map_err Indexed (hash new_element new_element_next_value));
  mmap_err IndexedHasher (zoom merkle_tree set_merkle_tree (MerkleTree.append new_leaf)).

Definition append (v : Z) : M IndexedMerkleTree IndexedReferenceMerkleTreeError unit :=
  do! bundle <- mmap_err Indexed (zoom indexed_array set_indexed_array (IndexedArray.append W v));
  update (new_low_element bundle) (new_element bundle) (new_element_next_value bundle).

(** [bigint_to_be_bytes_array::<32>(..).unwrap()]. *)
Definition be32 {E} (v : Z) : res E bytes :=
  match bigint_to_be_bytes_array 32 v with Ok bs => Ok bs | _ => Panic end.

Definition get_non_inclusion_proof (t : IndexedMerkleTree) (v : Z)
    : res IndexedReferenceMerkleTreeError NonInclusionProof :=
  let? found := map_err Indexed (find_low_element_for_nonexistent (indexed_array t) v) in
  let low_element := found.1 in
  let? merkle_proof := map_err Reference (get_proof_of_leaf (merkle_tree t) (index low_element) true) in
  let? higher_range_value :=
    if Nat.eqb (next_index low_element) 0 then Ok (highest_value (indexed_array t))
    else let? e := or_panic (get (indexed_array t) (next_index low_element)) in Ok (value e) in
  let? r := root (merkle_tree t) in
  let? v32 := be32 v in
  let? lower := be32 (value low_element) in
  let? higher := be32 higher_range_value in
  Ok (mkNonInclusionProof r v32 lower higher (index low_element) (next_index low_element) merkle_proof).

(** The boolean of [verify] is dropped: only its errors are propagated. *)
Definition verify_non_inclusion_proof (t : IndexedMerkleTree) (proof : NonInclusionProof)
    : res IndexedReferenceMerkleTreeError unit :=
  let value_big_int := from_bytes_be (proof_value proof) in
  let lower_end_value := from_bytes_be (leaf_lower_range_value proof) in
  check negb (value_big_int <=? lower_end_value) else NonInclusionProofFailedLowerBoundViolated in
  let higher_end_value := from_bytes_be (leaf_higher_range_value proof) in
  check negb (higher_end_value <=? value_big_int) else NonInclusionProofFailedHigherBoundViolated in
  let array_element := mkElement (leaf_index proof) lower_end_value (proof_next_index proof) in
  let? leaf_hash := map_err Indexed (hash array_element higher_end_value) in
  let? _ := map_err Reference (verify (merkle_tree t) leaf_hash (merkle_proof proof) (leaf_index proof)) in
  Ok tt.

End tree.

(** ** Leaves and array in step *)

Section proofs.
Context `{SP : SolPoseidon} {HT : PoseidonTotal SP} {HZ : ZeroBytesLaw Poseidon.Poseidon}.
Context `{B : BigUint} {HB : BigUintLaws B}.

Lemma be_array_encoding v : 0 <= v < 2 ^ 256 -> bigint_to_be_bytes_array 32 v = Ok (be_bytes 32 v).
Proof.
  intros Hv. unfold bigint_to_be_bytes_array. rewrite to_bytes_be_rev by lia.
  pose proof (to_bytes_le_short v 32 ltac:(lia) ltac:(lia)) as Hl. rewrite length_reverse.
  rewrite (proj2 (Nat.leb_le _ _)) by done. f_equal. apply be_val_inj.
  - rewrite length_app, length_replicate, length_reverse, length_be_bytes. lia.
  - rewrite be_val_zeros_app, be_val_be_bytes by lia. unfold be_val. rewrite reverse_involutive.
    apply to_bytes_le_val. lia.
Qed.

Lemma be_array_long v : 2 ^ 256 <= v -> exists e, bigint_to_be_bytes_array 32 v = Err e.
Proof.
  intros Hv. unfold bigint_to_be_bytes_array. rewrite to_bytes_be_rev, length_reverse by lia.
  destruct (Nat.leb _ _) eqn:Hl; [|by eexists]. apply Nat.leb_le in Hl.
  pose proof (le_val_bound (to_bytes_le v)) as Hb. rewrite to_bytes_le_val in Hb by lia.
  exfalso. apply (Nat2Z.inj_le _ 32), (Z.pow_le_mono_r 256) in Hl; [|done]. change (2 ^ 256) with (256 ^ 32) in Hv. lia.
Qed.

Lemma be32_encoding {E} v : 0 <= v < 2 ^ 256 -> be32 (E := E) v = Ok (be_bytes 32 v).
Proof. intros Hv. unfold be32. by rewrite be_array_encoding. Qed.

Lemma be32_long {E} v : 2 ^ 256 <= v -> be32 (E := E) v = Panic.
Proof. intros [e He]%be_array_long. unfold be32. by rewrite He. Qed.

Lemma canonical_be v : 0 <= v < bn254_modulus -> canonical (be_bytes 32 v).
Proof.
  intros Hv. split; [apply length_be_bytes|]. apply is_canonical_spec; [apply length_be_bytes|].
  rewrite be_val_be_bytes; [lia|]. assert (bn254_modulus < 256 ^ Z.of_nat 32) by (vm_compute; reflexivity). lia.
Qed.

(** The leaf of a range of values below the group order. *)
Lemma hash_range e nv : 0 <= value e < bn254_modulus -> 0 <= nv < bn254_modulus ->
  exists l, hash e nv = Ok l /\ canonical l /\ Poseidon.hashv [be_bytes 32 (value e); be_bytes 32 nv] = Ok l.
Proof.
  intros He Hn. assert (bn254_modulus < 2 ^ 256) as Hp by (vm_compute; reflexivity).
  unfold hash. rewrite !be_array_encoding by lia. cbn [map_err rbind].
  destruct (node_total (H := Poseidon.Poseidon) (be_bytes 32 (value e)) (be_bytes 32 nv)) as (l & Hl & Hc);
    [by apply canonical_be..|].
  exists l. rewrite Hl. split_and!; [done..|]. exact Hl.
Qed.

(** What a range that was hashed is. *)
Lemma hash_query e nv l : 0 <= value e -> 0 <= nv -> hash e nv = Ok l ->
  value e < 2 ^ 256 /\ nv < 2 ^ 256 /\ Poseidon.hashv [be_bytes 32 (value e); be_bytes 32 nv] = Ok l.
Proof.
  intros He Hn Hh. unfold hash in Hh.
  destruct (decide (2 ^ 256 <= value e)) as [Hv|Hv]; [apply be_array_long in Hv as [x Hx]; by rewrite Hx in Hh|].
  rewrite be_array_encoding in Hh by lia. cbn [map_err rbind] in Hh.
  destruct (decide (2 ^ 256 <= nv)) as [Hv'|Hv']; [apply be_array_long in Hv' as [x Hx]; by rewrite Hx in Hh|].
  rewrite be_array_encoding in Hh by lia. cbn [map_err rbind] in Hh.
  split_and!; [lia|lia|]. change Poseidon.hashv with (@hashv Poseidon.Poseidon). destruct (hashv _); [by injection Hh as ->|done..].
Qed.

(** The tree and the array agree: leaf [j] is the hash of element [j] with the
    end of its gap; the values start at 0 and lie below the sentinel. *)
Record indexed_ok (t : IndexedMerkleTree) : Prop := {
  io_array : array_wf (indexed_array t);
  io_zero : has (indexed_array t) 0;
  io_range : forall u, has (indexed_array t) u -> 0 <= u < highest_value (indexed_array t);
  io_sentinel : highest_value (indexed_array t) < bn254_modulus;
  io_leaves : exists ls, represents (P := canonical) (merkle_tree t) ls /\
    Forall2 (fun e l => hash e (gap_end (indexed_array t) e) = Ok l) (elements (indexed_array t)) ls;
}.

Lemma gap_end_link a i low v j e :
  array_wf a -> elements a !! i = Some low -> elements a !! j = Some e ->
  gap_end (link a i low v) e = gap_end a e.
Proof.
  intros Hwf Hi Hj. unfold gap_end. case_decide as Hn; [done|].
  destruct (wf_next _ Hwf j e Hj Hn) as (e' & He' & _).
  destruct (link_keeps a i low v _ e' Hwf Hi He') as (e'' & -> & Hv & _). rewrite He'. simpl. done.
Qed.

Lemma hash_value e e' nv : value e = value e' -> hash e nv = hash e' nv.
Proof. intros Hv. unfold hash. by rewrite Hv. Qed.

Lemma gap_end_range t i low : indexed_ok t -> elements (indexed_array t) !! i = Some low ->
  0 <= gap_end (indexed_array t) low < bn254_modulus.
Proof.
  intros Hok Hi. pose proof (io_sentinel _ Hok). pose proof (io_range _ Hok 0 (io_zero _ Hok)).
  unfold gap_end. case_decide as Hn; [lia|].
  destruct (wf_next _ (io_array _ Hok) i low Hi Hn) as (e' & He' & _). rewrite He'. simpl.
  pose proof (io_range _ Hok (value e') ltac:(by exists (next_index low), e')). lia.
Qed.

(** Linking a value in the array and rehashing its two ranges. *)
Lemma link_leaves a i low v ls l1 l2 :
  array_wf a -> elements a !! i = Some low ->
  Forall2 (fun e l => hash e (gap_end a e) = Ok l) (elements a) ls ->
  hash low v = Ok l1 -> hash (mkElement (length (elements a)) v (next_index low)) (gap_end a low) = Ok l2 ->
  Forall2 (fun e l => hash e (gap_end (link a i low v) e) = Ok l) (elements (link a i low v)) (<[i := l1]> ls ++ [l2]).
Proof.
  intros Hwf Hi Hls H1 H2. pose proof (lookup_lt_Some _ _ _ Hi) as Hlt.
  pose proof (gap_end_link a i low v) as Hgap.
  assert (elements (link a i low v) !! length (elements a) = Some (mkElement (length (elements a)) v (next_index low)))
    as Hnew by (apply link_lookup; [done..|by right; left]).
  unfold link at 2. cbn [elements]. rewrite insert_app_l by done. apply Forall2_app.
  - apply Forall2_insert.
    + apply Forall2_same_length_lookup_2; [by eapply Forall2_length|]. intros j e l He Hl.
      rewrite (Hgap j e Hwf Hi He). by apply (Forall2_lookup_lr _ _ _ j e l Hls).
    + rewrite <- (hash_value low) by done. rewrite <- H1. f_equal.
      unfold gap_end. cbn [next_index]. rewrite decide_False by lia. rewrite <- (wf_len _ Hwf).
      by rewrite Hnew.
  - constructor; [|constructor]. rewrite <- H2, <- (wf_len _ Hwf). f_equal. unfold gap_end. cbn [next_index].
    exact (Hgap i low Hwf Hi Hi).
Qed.

Lemma append_ok W t v :
  indexed_ok t -> ~ has (indexed_array t) v -> 0 < v < highest_value (indexed_array t) ->
  (length (elements (indexed_array t)) < 2 ^ height (merkle_tree t))%nat ->
  Z.of_nat (length (elements (indexed_array t))) < 2 ^ W ->
  exists t', append W v t = (Ok tt, t') /\ indexed_ok t' /\
    (forall u, has (indexed_array t') u <-> has (indexed_array t) u \/ u = v) /\
    highest_value (indexed_array t') = highest_value (indexed_array t) /\
    length (elements (indexed_array t')) = S (length (elements (indexed_array t))) /\
    height (merkle_tree t') = height (merkle_tree t).
Proof.
  intros Hok Hv Hrange Hroom HW. pose proof (io_array _ Hok) as Hwf. pose proof (io_sentinel _ Hok) as Hsen.
  destruct (append_absent W (indexed_array t) v Hwf Hv) as (i & low & Hi & Hlt & Hgap & Happ).
  { exists 0. split; [apply (io_zero _ Hok)|lia]. }
  rewrite (proj2 (Z.ltb_lt _ _)) in Happ by done. set (a := indexed_array t) in *. set (n := length (elements a)) in *.
  destruct (io_leaves _ Hok) as (ls & Hrep & Hls). fold a in Hls.
  pose proof (io_range _ Hok (value low) ltac:(by exists i, low)) as Hlow.
  fold a in Hlow.
  pose proof (gap_end_range t i low Hok Hi) as Hend. fold a in Hend.
  destruct (hash_range low v ltac:(lia) ltac:(lia)) as (l1 & H1 & Hc1 & _).
  destruct (hash_range (mkElement n v (next_index low)) (gap_end a low) ltac:(simpl; lia) ltac:(lia)) as (l2 & H2 & Hc2 & _).
  pose proof (lookup_lt_Some _ _ _ Hi) as Hin. pose proof (Forall2_length _ _ _ Hls) as Hlen.
  pose proof (update_spec (merkle_tree t) ls l1 i Hrep Hc1) as Hup. rewrite decide_True in Hup by lia.
  destruct Hup as (m1 & Hm1 & Hrep1 & Hh1).
  pose proof (append_spec m1 (<[i := l1]> ls) l2 Hrep1 Hc2) as Ha. rewrite decide_True in Ha by (rewrite length_insert, Hh1; lia).
  destruct Ha as (m2 & Hm2 & Hrep2 & Hh2).
  exists (mkIndexedTree m2 (link a i low v)). split_and!.
  - unfold append, mbindM at 1, mmap_err at 1, zoom at 1. fold a. rewrite Happ. cbn [map_err new_low_element new_element new_element_next_value].
    unfold update, mbindM at 1, mlift at 1. rewrite <- (hash_value low) by done. cbn [value]. rewrite H1. cbn [map_err].
    unfold mbindM at 1, mmap_err at 1, zoom at 1. cbn [merkle_tree set_indexed_array index]. rewrite Hm1. cbn [map_err].
    unfold mbindM at 1, mlift at 1. rewrite H2. cbn [map_err]. unfold mmap_err, zoom. cbn [merkle_tree set_merkle_tree].
    by rewrite Hm2.
  - split; cbn [indexed_array merkle_tree].
    + by apply link_wf.
    + apply link_has; [done..|left; apply (io_zero _ Hok)].
    + change (highest_value (link a i low v)) with (highest_value a).
      intros u [Hu| ->]%link_has; [by apply (io_range _ Hok)|lia|done|done].
    + done.
    + exists (<[i := l1]> ls ++ [l2]). split; [done|]. by apply link_leaves.
  - intros u. by apply link_has.
  - done.
  - unfold link. simpl. rewrite length_insert, length_app. simpl. lia.
  - by rewrite <- Hh1, <- Hh2.
Qed.

Lemma new_ok h canopy nv : (0 < h <= MAX_HEIGHT)%nat -> 0 < nv < bn254_modulus ->
  exists t, new_with_next_value h canopy nv = Ok t /\ indexed_ok t /\ indexed_array t = IndexedArray.new 0 nv /\
    height (merkle_tree t) = h.
Proof.
  intros Hh Hnv. destruct (new_spec (P := canonical) h canopy Hh) as (m & Hm & Hrep).
  assert (height m = h) as Hmh.
  { unfold MerkleTree.new, new_history in Hm. destruct (zero_at h); simpl in Hm; [|done..]. by injection Hm as <-. }
  destruct (hash_range (mkElement 0 0 0) nv ltac:(simpl; lia) ltac:(lia)) as (l & Hl & Hc & _).
  pose proof (append_spec m [] l Hrep Hc) as Ha.
  assert (0 < 2 ^ height m)%nat as Hpow by (apply Nat.neq_0_lt_0, Nat.pow_nonzero; lia).
  rewrite decide_True in Ha by done. destruct Ha as (m1 & Hm1 & Hrep1 & Hh1).
  exists (mkIndexedTree m1 (IndexedArray.new 0 nv)). split_and!; [| |done|by rewrite <- Hmh, <- Hh1].
  - unfold new_with_next_value. rewrite Hm. cbn [map_err rbind get IndexedArray.new elements lookup list_lookup or_panic].
    rewrite Hl, Hm1. cbn [map_err rbind]. unfold leaf.
    destruct (rep_layers _ _ Hrep1) as [rest Hls]. rewrite Hls.
    rewrite (node_at_ok _ 0 [l] zero32); [|done|apply zero_bytes_0]. cbn. by rewrite decide_True.
  - split; cbn [indexed_array merkle_tree].
    + apply new_wf.
    + by exists 0%nat, (mkElement 0 0 0).
    + intros u ([|j] & e & He & <-); [|done]. simplify_eq/=. lia.
    + simpl. lia.
    + exists [l]. split; [done|]. constructor; [|constructor]. exact Hl.
Qed.

(** The range above a value that is absent: it ends at the sentinel where the
    value is greater than all. *)
Lemma low_element_found t v : indexed_ok t -> ~ has (indexed_array t) v -> 0 < v ->
  exists i low, elements (indexed_array t) !! i = Some low /\ index low = i /\
    find_low_element_for_nonexistent (indexed_array t) v = Ok (low, gap_end (indexed_array t) low) /\
    value low < v /\
    if v <? highest_value (indexed_array t) then v < gap_end (indexed_array t) low
    else gap_end (indexed_array t) low = highest_value (indexed_array t).
Proof.
  intros Hok Hv Hr. pose proof (io_array _ Hok) as Hwf.
  destruct (find_low_spec (indexed_array t) v Hwf Hv) as (i & low & Hf & Hi & Hlt & Hgap).
  { exists 0. split; [apply (io_zero _ Hok)|lia]. }
  exists i, low. split_and!; [done|by apply (wf_index _ Hwf)| |done|].
  - unfold find_low_element_for_nonexistent, element. rewrite Hf. cbn [rbind]. rewrite Hi. cbn [or_panic rbind].
    by rewrite (value_after_gap _ i low Hwf Hi).
  - destruct (gap_neighbours (indexed_array t) i low v Hwf Hi Hv Hlt Hgap) as (_ & _ & [[-> _]|(Hin & ? & _)]).
    + destruct (v <? _) eqn:Hc; lia.
    + pose proof (io_range _ Hok _ Hin). by rewrite (proj2 (Z.ltb_lt _ _)) by lia.
Qed.

(** The generated proof, field by field; the encoding of the value may panic. *)
Lemma non_inclusion_proof_lemma t v :
  indexed_ok t -> ~ has (indexed_array t) v -> 0 < v ->
  exists i lo hi path r l,
    get_non_inclusion_proof t v
    = rbind (be32 v) (fun v32 => Ok (mkNonInclusionProof r v32 (be_bytes 32 lo) (be_bytes 32 hi) i
        (default 0%nat (next_index <$> elements (indexed_array t) !! i)) path)) /\
    lo < v /\ (if v <? highest_value (indexed_array t) then v < hi else hi = highest_value (indexed_array t)) /\
    0 <= lo < bn254_modulus /\ 0 <= hi < bn254_modulus /\ last (roots (merkle_tree t)) = Some r /\
    hash (mkElement i lo (default 0%nat (next_index <$> elements (indexed_array t) !! i))) hi = Ok l /\
    verify (merkle_tree t) l path i = Ok true.
Proof.
  intros Hok Hv Hr. destruct (low_element_found t v Hok Hv Hr) as (i & low & Hi & Hidx & Hf & Hlt & Hend').
  destruct (io_leaves _ Hok) as (ls & Hrep & Hls). pose proof (lookup_lt_Some _ _ _ Hi) as Hin.
  pose proof (Forall2_length _ _ _ Hls) as Hlen. pose proof (rep_fits _ _ Hrep) as Hfit.
  destruct (Forall2_lookup_l _ _ _ _ _ Hls Hi) as (l & Hl & Hh).
  destruct (proof_of_leaf_climbs (merkle_tree t) ls i Hrep ltac:(lia)) as (path & r & Hp & Hpl & Hclimb & Hr').
  pose proof (gap_end_range t i low Hok Hi) as Hend. set (hi := gap_end _ low) in *.
  pose proof (io_range _ Hok (value low) ltac:(by exists i, low)) as Hlow.
  assert (bn254_modulus < 2 ^ 256) as Hp256 by (vm_compute; reflexivity). pose proof (io_sentinel _ Hok).
  exists i, (value low), hi, path, r, l. rewrite Hi. cbn [fmap option_fmap option_map default from_option].
  split_and!; [|lia|done|lia|lia|lia|lia|done|rewrite <- Hh; by apply hash_value|].
  - unfold get_non_inclusion_proof. rewrite Hf. cbn [map_err rbind fst]. rewrite Hidx, Hp. cbn [map_err rbind].
    pose proof (value_after_gap (E := IndexedReferenceMerkleTreeError) _ i low (io_array _ Hok) Hi) as Hva.
    unfold value_after, element in Hva. unfold get. rewrite Hva. cbn [rbind]. unfold root. rewrite Hr'. cbn [or_panic rbind].
    rewrite (be32_encoding (value low)), (be32_encoding hi) by lia. done.
  - unfold verify, root. rewrite (rep_capacity _ _ Hrep), <- (Nat2Z.inj_pow 2), (proj2 (Z.ltb_lt _ _)) by lia.
    rewrite Hpl, Nat.eqb_refl. rewrite Hl in Hclimb. simpl in Hclimb. rewrite Hclimb, Hr'. simpl.
    by rewrite bool_decide_true.
Qed.

(** The leaf a non-inclusion proof is about, as its verifier hashes it. *)
Definition proof_leaf (proof : NonInclusionProof) : res IndexedArrayError bytes :=
  hash (mkElement (leaf_index proof) (be_val (leaf_lower_range_value proof)) (proof_next_index proof))
    (be_val (leaf_higher_range_value proof)).

Definition range_query (lo hi : Z) : list bytes := [be_bytes 32 lo; be_bytes 32 hi].

(** The inputs hashed for position [i] of the tree: the range stored there and
    the pairs on its path. *)
Definition stored_queries (t : IndexedMerkleTree) (i : nat) : list (list bytes) :=
  match elements (indexed_array t) !! i with
  | Some e => [range_query (value e) (gap_end (indexed_array t) e)]
  | None => []
  end ++
  match get_proof_of_leaf (merkle_tree t) i true, leaf (merkle_tree t) i with
  | Ok path, Ok l => climb_queries path i l
  | _, _ => []
  end.

(** The inputs hashed for a non-inclusion proof and for its position. *)
Definition proof_queries (t : IndexedMerkleTree) (proof : NonInclusionProof) : list (list bytes) :=
  range_query (be_val (leaf_lower_range_value proof)) (be_val (leaf_higher_range_value proof)) ::
  match proof_leaf proof with
  | Ok l => climb_queries (merkle_proof proof) (leaf_index proof) l
  | _ => []
  end ++ stored_queries t (leaf_index proof).

Lemma absent_proof_verifies t v :
  indexed_ok t -> ~ has (indexed_array t) v -> 0 < v < highest_value (indexed_array t) ->
  exists proof l, get_non_inclusion_proof t v = Ok proof /\ verify_non_inclusion_proof t proof = Ok tt /\
    proof_value proof = be_bytes 32 v /\
    be_val (leaf_lower_range_value proof) < v < be_val (leaf_higher_range_value proof) /\
    last (roots (merkle_tree t)) = Some (proof_root proof) /\
    Poseidon.hashv [leaf_lower_range_value proof; leaf_higher_range_value proof] = Ok l /\
    verify (merkle_tree t) l (merkle_proof proof) (leaf_index proof) = Ok true.
Proof.
  intros Hok Hv Hr. destruct (non_inclusion_proof_lemma t v Hok Hv ltac:(lia))
    as (i & lo & hi & path & r & l & Hget & Hlo & Hhi & Hblo & Hbhi & Hroot & Hl & Hver).
  rewrite (proj2 (Z.ltb_lt _ _)) in Hhi by lia. pose proof (io_sentinel _ Hok).
  assert (bn254_modulus < 256 ^ Z.of_nat 32) as Hp by (vm_compute; reflexivity).
  rewrite be32_encoding in Hget by (change (2 ^ 256) with (256 ^ Z.of_nat 32); lia). eexists _, l. split; [exact Hget|].
  simpl. rewrite !be_val_be_bytes by lia.
  pose proof Hl as (_ & _ & Hl')%hash_query; [|simpl; lia|lia].
  split_and!; [|done|lia|lia|done|exact Hl'|exact Hver].
  unfold verify_non_inclusion_proof. cbn [proof_value leaf_lower_range_value leaf_higher_range_value].
  rewrite !from_bytes_be_val, !be_val_be_bytes by lia. rewrite !(proj2 (Z.leb_gt _ _)) by lia.
  cbn [negb leaf_index proof_next_index merkle_proof]. rewrite Hl. cbn [map_err rbind]. by rewrite Hver.
Qed.

Lemma high_value_absent t v : indexed_ok t -> highest_value (indexed_array t) <= v -> 0 < v /\ ~ has (indexed_array t) v.
Proof.
  intros Hok Hv. pose proof (io_range _ Hok 0 (io_zero _ Hok)). split; [lia|]. intros Hin%(io_range _ Hok). lia.
Qed.

Lemma high_value_refused t v : indexed_ok t -> highest_value (indexed_array t) <= v < 2 ^ 256 ->
  exists proof, get_non_inclusion_proof t v = Ok proof /\
    verify_non_inclusion_proof t proof = Err NonInclusionProofFailedHigherBoundViolated.
Proof.
  intros Hok Hr. destruct (high_value_absent t v Hok ltac:(lia)) as [Hpos Hv].
  destruct (non_inclusion_proof_lemma t v Hok Hv Hpos)
    as (i & lo & hi & path & r & l & Hget & Hlo & Hhi & Hblo & Hbhi & _).
  rewrite (proj2 (Z.ltb_ge _ _)) in Hhi by lia. rewrite be32_encoding in Hget by lia.
  assert (bn254_modulus < 256 ^ Z.of_nat 32) as Hp by (vm_compute; reflexivity).
  eexists. split; [exact Hget|]. unfold verify_non_inclusion_proof.
  cbn [proof_value leaf_lower_range_value leaf_higher_range_value].
  change (2 ^ 256) with (256 ^ Z.of_nat 32) in Hr. rewrite !from_bytes_be_val, !be_val_be_bytes by lia.
  by rewrite (proj2 (Z.leb_gt _ _)), (proj2 (Z.leb_le _ _)) by lia.
Qed.

Lemma long_value_panics t v : indexed_ok t -> highest_value (indexed_array t) <= v -> 2 ^ 256 <= v ->
  get_non_inclusion_proof t v = Panic.
Proof.
  intros Hok Hr Hlong. destruct (high_value_absent t v Hok Hr) as [Hpos Hv].
  destruct (non_inclusion_proof_lemma t v Hok Hv Hpos) as (i & lo & hi & path & r & l & Hget & _).
  by rewrite Hget, be32_long.
Qed.

(** An element of the array that a verified leaf is the hash of. *)
Lemma verified_leaf_stored t l path i :
  indexed_ok t -> verify (merkle_tree t) l path i = Ok true -> l <> zero32 ->
  collision_free Poseidon.hashv (climb_queries path i l ++ stored_queries t i) ->
  exists e, elements (indexed_array t) !! i = Some e /\ hash e (gap_end (indexed_array t) e) = Ok l.
Proof.
  intros Hok (Hi & Hlen & r & Hc & Hr)%verify_climbs Hz Hcf. destruct (io_leaves _ Hok) as (ls & Hrep & Hls).
  rewrite (rep_capacity _ _ Hrep), <- (Nat2Z.inj_pow 2) in Hi.
  destruct (proof_of_leaf_climbs (merkle_tree t) ls i Hrep ltac:(lia)) as (path' & r' & Hp & Hpl & Hclimb & Hr').
  rewrite Hr in Hr'. injection Hr' as <-. unfold stored_queries, leaf in Hcf.
  destruct (rep_layers _ _ Hrep) as [rest Hlayers].
  rewrite Hp, Hlayers, (node_at_ok (ls :: rest) 0 ls zero32 i eq_refl zero_bytes_0) in Hcf.
  destruct (climb_binding path path' i l _ r ltac:(congruence) Hc Hclimb) as [Heq _].
  { eapply collision_free_subset; [|exact Hcf]. set_solver. }
  destruct (ls !! i) as [l'|] eqn:Hli; simpl in Heq; [|done]. subst l'.
  destruct (Forall2_lookup_r _ _ _ _ _ Hls Hli) as (e & He & Hh). by exists e.
Qed.

(** The range of an element holds no value of the array. *)
Lemma gap_is_empty t i e v : indexed_ok t -> elements (indexed_array t) !! i = Some e ->
  value e < v < gap_end (indexed_array t) e -> ~ has (indexed_array t) v.
Proof.
  intros Hok He Hr Hv. unfold gap_end in Hr. case_decide as Hn.
  - destruct (wf_last _ (io_array _ Hok) i e He Hn) as [_ Hmax]. specialize (Hmax v Hv). lia.
  - destruct (wf_next _ (io_array _ Hok) i e He Hn) as (e' & He' & _ & Hsucc). rewrite He' in Hr. simpl in Hr.
    destruct (Hsucc v Hv); lia.
Qed.

End proofs.

(** ** Theorems *)

Fixpoint append_all `{Hasher} `{BigUint} (W : Z) (vs : list Z)
    : M IndexedMerkleTree IndexedReferenceMerkleTreeError unit :=
  match vs with
  | [] => mret tt
  | v :: vs' => exec! append W v; append_all W vs'
  end.

Lemma append_all_ok `{SP : SolPoseidon} `{!PoseidonTotal SP} `{!ZeroBytesLaw Poseidon.Poseidon}
    `{B : BigUint} `{!BigUintLaws B} W vs : forall t,
  indexed_ok t -> NoDup vs ->
  Forall (fun v => 0 < v < highest_value (indexed_array t) /\ ~ has (indexed_array t) v) vs ->
  (length (elements (indexed_array t)) + length vs <= 2 ^ height (merkle_tree t))%nat ->
  Z.of_nat (length (elements (indexed_array t)) + length vs) <= 2 ^ W ->
  exists t', append_all W vs t = (Ok tt, t') /\ indexed_ok t' /\
    forall u, has (indexed_array t') u <-> has (indexed_array t) u \/ u ∈ vs.
Proof.
  induction vs as [|v vs IH]; intros t Hok Hnd Hvs Hroom HW.
  { exists t. split_and!; [done..|]. intros u. rewrite elem_of_nil. tauto. }
  rewrite NoDup_cons in Hnd. destruct Hnd as [Hnin Hnd]. rewrite Forall_cons in Hvs. destruct Hvs as [[Hr Hnh] Hvs].
  simpl in Hroom, HW. destruct (append_ok W t v Hok Hnh Hr ltac:(lia) ltac:(lia)) as (t1 & Ht1 & Hok1 & Hhas & Hhigh & Hl1 & Hh1).
  destruct (IH t1 Hok1 Hnd) as (t' & Ht' & Hok' & Hhas').
  - apply Forall_forall. intros u Hu. rewrite Forall_forall in Hvs. destruct (Hvs u Hu) as [Hur Hun].
    rewrite Hhigh. split; [done|]. by intros [Hu'| ->]%Hhas.
  - rewrite Hl1, Hh1. lia.
  - rewrite Hl1. lia.
  - exists t'. split_and!; [simpl; unfold mbindM; by rewrite Ht1|done|]. intros u. rewrite Hhas', Hhas, elem_of_cons. tauto.
Qed.

Lemma new_has nv u : has (IndexedArray.new 0 nv) u <-> u = 0.
Proof.
  split; [intros ([|j] & e & He & <-); [by simplify_eq/=|done]|]. intros ->. by exists 0%nat, (mkElement 0 0 0).
Qed.

(** C36. Appending distinct values between zero and the sentinel, fewer than the
    tree has leaves, to a new indexed tree succeeds, and leaves it holding exactly
    these values and zero, with leaf [j] the hash of the [j]-th value and the next
    greater one (the sentinel for the greatest). *)
Theorem indexed_tree_tracks_values `{SP : SolPoseidon} (Htotal : PoseidonTotal SP)
    (Hzero : ZeroBytesLaw Poseidon.Poseidon) `{B : BigUint} (Hbig : BigUintLaws B)
    (W : Z) (h canopy : nat) (sentinel : Z) (vs : list Z) :
  (0 < h <= MAX_HEIGHT)%nat -> 0 < sentinel < bn254_modulus -> NoDup vs ->
  Forall (fun v => 0 < v < sentinel) vs -> (length vs < 2 ^ h)%nat -> Z.of_nat (length vs) < 2 ^ W ->
  exists t t', new_with_next_value h canopy sentinel = Ok t /\ append_all W vs t = (Ok tt, t') /\ indexed_ok t' /\
    forall u, has (indexed_array t') u <-> u = 0 \/ u ∈ vs.
Proof.
  intros Hh Hs Hnd Hvs Hroom HW. destruct (new_ok h canopy sentinel Hh Hs) as (t & Ht & Hok & Ha & Hth).
  assert (forall u, has (indexed_array t) u <-> u = 0) as Hhas0 by (intros u; rewrite Ha; apply new_has).
  destruct (append_all_ok W vs t Hok Hnd) as (t' & Ht' & Hok' & Hhas).
  - apply Forall_forall. intros v Hv. rewrite Forall_forall in Hvs. rewrite Ha at 1. split; [by apply Hvs|].
    rewrite Hhas0. specialize (Hvs v Hv). lia.
  - rewrite Ha, Hth. simpl. lia.
  - rewrite Ha. simpl. lia.
  - exists t, t'. split_and!; [done..|]. intros u. by rewrite Hhas, Hhas0.
Qed.

(** C37. What [get_non_inclusion_proof] gives for every value.  A value of the tree
    is refused.  An absent value below the sentinel gets a proof that names a
    range containing the value strictly, whose Merkle path verifies the hash of
    that range against the current root, and which the verifier accepts.  From
    the sentinel on, where every value is absent, the generated proof is one the
    verifier refuses at the upper bound, and a value of more than 32 bytes
    panics. *)
Theorem non_inclusion_complete `{SP : SolPoseidon} (Htotal : PoseidonTotal SP)
    (Hzero : ZeroBytesLaw Poseidon.Poseidon) `{B : BigUint} (Hbig : BigUintLaws B) (t : IndexedMerkleTree) (v : Z) :
  indexed_ok t -> 0 <= v ->
  (has (indexed_array t) v -> get_non_inclusion_proof t v = Err (Indexed ElementAlreadyExists)) /\
  (~ has (indexed_array t) v -> v < highest_value (indexed_array t) -> exists proof l,
     get_non_inclusion_proof t v = Ok proof /\ verify_non_inclusion_proof t proof = Ok tt /\
     proof_value proof = be_bytes 32 v /\
     be_val (leaf_lower_range_value proof) < v < be_val (leaf_higher_range_value proof) /\
     last (roots (merkle_tree t)) = Some (proof_root proof) /\
     Poseidon.hashv [leaf_lower_range_value proof; leaf_higher_range_value proof] = Ok l /\
     verify (merkle_tree t) l (merkle_proof proof) (leaf_index proof) = Ok true) /\
  (highest_value (indexed_array t) <= v < 2 ^ 256 -> exists proof,
     get_non_inclusion_proof t v = Ok proof /\
     verify_non_inclusion_proof t proof = Err NonInclusionProofFailedHigherBoundViolated) /\
  (2 ^ 256 <= v -> get_non_inclusion_proof t v = Panic).
Proof.
  intros Hok Hpos. split_and!.
  - intros [j Hj]%has_dec; [|apply Hok].
    unfold get_non_inclusion_proof, find_low_element_for_nonexistent, find_low_element_index_for_nonexistent. by rewrite Hj.
  - intros Hv Hr. apply absent_proof_verifies; [done..|]. split; [|done].
    destruct (decide (v = 0)) as [->|]; [destruct Hv; apply (io_zero _ Hok)|lia].
  - by apply high_value_refused.
  - intros Hlong. apply long_value_panics; [done| |done]. pose proof (io_sentinel _ Hok).
    assert (bn254_modulus < 2 ^ 256) by (vm_compute; reflexivity). lia.
Qed.

(** A concrete big integer library: the shortest encoding. *)
#[local] Instance shortest_biguint : BigUint := {
  to_bytes_le := fun v => le_bytes (Z.to_nat (Z.log2 v / 8 + 1)) v;
  to_bytes_be := fun v => reverse (le_bytes (Z.to_nat (Z.log2 v / 8 + 1)) v);
  from_bytes_be := be_val;
}.

Lemma shortest_biguint_laws : BigUintLaws shortest_biguint.
Proof.
  split; cbn [to_bytes_le to_bytes_be from_bytes_be shortest_biguint]; [| |done|done].
  - intros v Hv. apply le_val_le_bytes. split; [done|]. pose proof (Z.log2_nonneg v).
    pose proof (Z.div_pos (Z.log2 v) 8). rewrite Z2Nat.id by lia. change 256 with (2 ^ 8).
    rewrite <- Z.pow_mul_r by lia. destruct (decide (v = 0)) as [->|Hne]; [done|].
    destruct (Z.log2_spec v ltac:(lia)) as [_ Hlt]. eapply Z.lt_le_trans; [exact Hlt|].
    apply Z.pow_le_mono_r; [lia|]. pose proof (Z.div_mod (Z.log2 v) 8). pose proof (Z.mod_pos_bound (Z.log2 v) 8). lia.
  - intros v n Hv Hn. rewrite length_le_bytes. pose proof (Z.log2_nonneg v). pose proof (Z.div_pos (Z.log2 v) 8).
    enough (Z.log2 v / 8 < Z.of_nat n) by lia. destruct (decide (v = 0)) as [->|Hne]; [change (Z.log2 0 / 8) with 0; lia|].
    apply Z.div_lt_upper_bound; [lia|]. change 256 with (2 ^ 8) in Hv. rewrite <- Z.pow_mul_r in Hv by lia.
    apply Z.log2_lt_pow2; lia.
Qed.

Definition model_hasher : Hasher := @Poseidon.Poseidon model_poseidon.

Lemma indexed_tree_tracks_values_witness :
  exists t t', @new_with_next_value model_hasher shortest_biguint 3 0 1000 = Ok t /\
    @append_all model_hasher shortest_biguint 64 [30; 10; 20] t = (Ok tt, t') /\
    @indexed_ok model_poseidon shortest_biguint t' /\
    forall u, has (indexed_array t') u <-> u = 0 \/ u ∈ [30; 10; 20].
Proof.
  apply (@indexed_tree_tracks_values model_poseidon model_poseidon_total model_zero_bytes_law shortest_biguint
    shortest_biguint_laws 64 3 0 1000 [30; 10; 20]).
  - unfold MAX_HEIGHT. lia.
  - split; vm_compute; reflexivity.
  - apply (bool_decide_eq_true_1 _). vm_compute. reflexivity.
  - repeat (apply Forall_cons; split; [lia|]). constructor.
  - vm_compute. lia.
  - vm_compute. reflexivity.
Defined.

(** A tree of height 3 that holds 0, 10, 20 and 30 below the sentinel 1000. *)
Definition example_tree : IndexedMerkleTree :=
  match @new_with_next_value model_hasher shortest_biguint 3 0 1000 with
  | Ok t => (@append_all model_hasher shortest_biguint 64 [30; 10; 20] t).2
  | _ => mkIndexedTree (mkMerkleTree 0 0 0 [] [] 0 0 0 0 None) default_array
  end.

Lemma example_tree_ok :
  @indexed_ok model_poseidon shortest_biguint example_tree /\
  forall u, has (indexed_array example_tree) u <-> u = 0 \/ u ∈ [30; 10; 20].
Proof.
  destruct (@new_ok model_poseidon model_poseidon_total model_zero_bytes_law shortest_biguint shortest_biguint_laws
    3 0 1000) as (t & Ht & Hok & Ha & Hth); [unfold MAX_HEIGHT; lia|split; vm_compute; reflexivity|].
  assert (forall u, has (indexed_array t) u <-> u = 0) as Hhas0 by (intros u; rewrite Ha; apply new_has).
  destruct (@append_all_ok model_poseidon model_poseidon_total model_zero_bytes_law shortest_biguint shortest_biguint_laws
    64 [30; 10; 20] t Hok) as (t' & Ht' & Hok' & Hhas).
  - apply (bool_decide_eq_true_1 _). vm_compute. reflexivity.
  - rewrite Ha. repeat (apply Forall_cons; split; [split; [simpl; lia|]; rewrite <- Ha, Hhas0; lia|]). constructor.
  - rewrite Ha, Hth. apply Nat.leb_le. vm_compute. reflexivity.
  - rewrite Ha. apply Z.leb_le. vm_compute. reflexivity.
  - assert (example_tree = t') as ->; [|split; [exact Hok'|intros u; by rewrite Hhas, Hhas0]].
    unfold example_tree. change model_hasher with (@Poseidon.Poseidon model_poseidon). by rewrite Ht, Ht'.
Qed.

Lemma non_inclusion_complete_witness :
  (exists proof, @get_non_inclusion_proof model_hasher shortest_biguint example_tree 15 = Ok proof /\
     @verify_non_inclusion_proof model_hasher shortest_biguint example_tree proof = Ok tt) /\
  @get_non_inclusion_proof model_hasher shortest_biguint example_tree 20 = Err (Indexed ElementAlreadyExists) /\
  (exists proof, @get_non_inclusion_proof model_hasher shortest_biguint example_tree 5000 = Ok proof /\
     @verify_non_inclusion_proof model_hasher shortest_biguint example_tree proof
     = Err NonInclusionProofFailedHigherBoundViolated).
Proof.
  destruct example_tree_ok as [Hok Hhas].
  pose proof (fun v => @non_inclusion_complete model_poseidon model_poseidon_total model_zero_bytes_law shortest_biguint
    shortest_biguint_laws example_tree v Hok) as Hcases.
  assert (highest_value (indexed_array example_tree) = 1000) as Hhigh by (vm_compute; reflexivity).
  rewrite Hhigh in Hcases. split; [|split].
  - destruct (Hcases 15 ltac:(lia)) as (_ & Habs & _). destruct Habs as (proof & l & Hget & Hver & _).
    + rewrite Hhas. intros [H|H]; [discriminate H|]. apply (bool_decide_eq_true_2 _) in H. vm_compute in H. discriminate H.
    + lia.
    + exists proof. split; [exact Hget|exact Hver].
  - destruct (Hcases 20 ltac:(lia)) as (Hin & _). apply Hin, Hhas. right. apply (bool_decide_eq_true_1 _). vm_compute. reflexivity.
  - destruct (Hcases 5000 ltac:(lia)) as (_ & _ & Hhi & _). apply Hhi. lia.
Defined.

(** C38. What an accepted proof shows when the Merkle check that the verifier drops
    succeeds as well.  If the leaf of the proof is not the zero leaf and no two of
    the inputs hashed for the proof and for its position in the tree collide, the
    range of the proof is that of the element stored at the position, and the
    value of the proof is not in the tree. *)
Theorem non_inclusion_sound `{SP : SolPoseidon} (Htotal : PoseidonTotal SP)
    (Hzero : ZeroBytesLaw Poseidon.Poseidon) `{B : BigUint} (Hbig : BigUintLaws B) (t : IndexedMerkleTree)
    (proof : NonInclusionProof) (l : bytes) :
  indexed_ok t -> verify_non_inclusion_proof t proof = Ok tt ->
  proof_leaf proof = Ok l -> verify (merkle_tree t) l (merkle_proof proof) (leaf_index proof) = Ok true ->
  l <> zero32 -> collision_free Poseidon.hashv (proof_queries t proof) ->
  (exists e, elements (indexed_array t) !! leaf_index proof = Some e /\
     be_val (leaf_lower_range_value proof) = value e /\
     be_val (leaf_higher_range_value proof) = gap_end (indexed_array t) e) /\
  ~ has (indexed_array t) (be_val (proof_value proof)).
Proof.
  intros Hok Hacc Hl Hver Hz Hcf. unfold proof_queries in Hcf. rewrite Hl in Hcf.
  destruct (verified_leaf_stored t l _ _ Hok Hver Hz) as (e & He & Hh).
  { eapply collision_free_subset; [|exact Hcf]. set_solver. }
  pose proof (be_val_bound (leaf_lower_range_value proof)) as Hlo. pose proof (be_val_bound (leaf_higher_range_value proof)) as Hhi.
  pose proof (io_range _ Hok (value e) ltac:(by eexists _, e)) as Hr. pose proof (gap_end_range t _ e Hok He) as Hend.
  apply hash_query in Hl as (Hlo' & Hhi' & Hl); [|simpl; lia|lia]. cbn [value] in Hlo', Hl.
  apply hash_query in Hh as (He1 & He2 & Hh); [|lia..].
  assert (range_query (be_val (leaf_lower_range_value proof)) (be_val (leaf_higher_range_value proof))
          = range_query (value e) (gap_end (indexed_array t) e)) as Hq.
  { eapply collision_free_eq; [exact Hcf|set_solver| |exact Hl|exact Hh].
    unfold stored_queries. rewrite He. set_solver. }
  change (2 ^ 256) with (256 ^ Z.of_nat 32) in *.
  pose proof (f_equal (fun q => be_val (nth 0 q [])) Hq) as E1. pose proof (f_equal (fun q => be_val (nth 1 q [])) Hq) as E2.
  cbn [range_query nth] in E1, E2. rewrite !be_val_be_bytes in E1, E2 by lia. split; [by exists e|].
  apply (gap_is_empty t _ e _ Hok He). rewrite <- E1, <- E2. unfold verify_non_inclusion_proof in Hacc.
  rewrite !from_bytes_be_val in Hacc. destruct (_ <=? _) eqn:Ha in Hacc; [done|].
  cbn [negb] in Hacc. destruct (_ <=? _) eqn:Hb in Hacc; [done|]. lia.
Qed.

(** The proof generated for 15, and its leaf. *)
Definition example_proof : NonInclusionProof :=
  match @get_non_inclusion_proof model_hasher shortest_biguint example_tree 15 with
  | Ok proof => proof
  | _ => mkNonInclusionProof [] [] [] [] 0 0 []
  end.

Definition example_leaf : bytes :=
  match @proof_leaf model_poseidon shortest_biguint example_proof with Ok l => l | _ => [] end.

Lemma non_inclusion_sound_witness :
  @verify_non_inclusion_proof model_hasher shortest_biguint example_tree example_proof = Ok tt /\
  be_val (proof_value example_proof) = 15 /\ ~ has (indexed_array example_tree) (be_val (proof_value example_proof)).
Proof.
  assert (@verify_non_inclusion_proof model_hasher shortest_biguint example_tree example_proof = Ok tt) as Hacc
    by (vm_compute; reflexivity).
  split; [exact Hacc|]. split; [vm_compute; reflexivity|].
  apply (@non_inclusion_sound model_poseidon model_poseidon_total model_zero_bytes_law shortest_biguint
    shortest_biguint_laws example_tree example_proof example_leaf (proj1 example_tree_ok) Hacc).
  - vm_compute. reflexivity.
  - vm_compute. reflexivity.
  - apply (bool_decide_eq_true_1 _). vm_compute. reflexivity.
  - apply (bool_decide_eq_true_1 _). vm_compute. reflexivity.
Defined.

(** C39. The verifier accepts false non-inclusion proofs.  It drops the boolean of
    the Merkle check, so any path of the right length is accepted: for every
    value below the sentinel's bound, present in the tree or not, and every path
    of canonical nodes, the proof with the range from 0 to the largest field
    element passes. *)
Theorem non_inclusion_check_ignores_path `{SP : SolPoseidon} (Htotal : PoseidonTotal SP)
    (Hzero : ZeroBytesLaw Poseidon.Poseidon) `{B : BigUint} (Hbig : BigUintLaws B) (t : IndexedMerkleTree)
    (v : Z) (path : list bytes) (r : bytes) (next : nat) :
  indexed_ok t -> 0 < v < bn254_modulus - 1 -> length path = height (merkle_tree t) -> Forall canonical path ->
  verify_non_inclusion_proof t
    (mkNonInclusionProof r (be_bytes 32 v) zero32 (be_bytes 32 (bn254_modulus - 1)) 0 next path) = Ok tt.
Proof.
  intros Hok Hv Hpl Hpath. destruct (io_leaves _ Hok) as (ls & Hrep & _).
  assert (bn254_modulus < 256 ^ Z.of_nat 32) as Hp by (vm_compute; reflexivity).
  assert (be_val zero32 = 0) as Hz by (vm_compute; reflexivity).
  unfold verify_non_inclusion_proof. cbn [proof_value leaf_lower_range_value leaf_higher_range_value].
  rewrite !from_bytes_be_val, Hz, !be_val_be_bytes by lia. rewrite !(proj2 (Z.leb_gt _ _)) by lia.
  cbn [negb leaf_index proof_next_index merkle_proof].
  destruct (hash_range (mkElement 0 0 next) (bn254_modulus - 1) ltac:(simpl; lia) ltac:(lia)) as (l & -> & Hc & _).
  cbn [map_err rbind]. unfold verify, root. rewrite (rep_capacity _ _ Hrep), Hpl, Nat.eqb_refl.
  rewrite (proj2 (Z.ltb_lt _ _)) by (apply Z.pow_pos_nonneg; lia).
  destruct (rep_root _ _ Hrep) as (r' & -> & _).
  assert (exists c, climb (H := Poseidon.Poseidon) path 0 l = Ok c) as [c ->]; [|done].
  clear Hpl. revert l Hc. generalize 0%nat. induction Hpath as [|s path Hs Hpath IH]; intros i l Hc; [by eexists|].
  simpl. destruct (node_total (H := Poseidon.Poseidon) l s) as (x & Hx & Hcx); [done..|].
  destruct (node_total (H := Poseidon.Poseidon) s l) as (y & Hy & Hcy); [done..|].
  destruct (Nat.even i); [rewrite Hx; by apply IH|rewrite Hy; by apply IH].
Qed.

Lemma non_inclusion_check_ignores_path_witness :
  has (indexed_array example_tree) 20 /\
  @verify_non_inclusion_proof model_hasher shortest_biguint example_tree
    (mkNonInclusionProof zero32 (be_bytes 32 20) zero32 (be_bytes 32 (bn254_modulus - 1)) 0 0
       (replicate (height (merkle_tree example_tree)) zero32)) = Ok tt.
Proof.
  destruct example_tree_ok as [Hok Hhas]. split; [apply Hhas; right; apply (bool_decide_eq_true_1 _); vm_compute; reflexivity|].
  apply (@non_inclusion_check_ignores_path model_poseidon model_poseidon_total model_zero_bytes_law shortest_biguint
    shortest_biguint_laws example_tree 20 (replicate (height (merkle_tree example_tree)) zero32) zero32 0 Hok).
  - split; vm_compute; reflexivity.
  - apply length_replicate.
  - apply Forall_replicate. split; vm_compute; reflexivity.
Defined.
