(* ===== verification/TreeSlot.v ===== *)
(** * Shapes and tree slots

    src/program-libs/interface/src/shape.rs and tree_slot.rs: the circuit shapes
    with their signer widths, and the public-input elements that commit a spend
    to its input trees: the packed input flags and the hash chain over the tree
    slots.  The theorems: packing is injective and canonical, the chain that
    skips unused slots is the full chain, and the signer buffers fit. *)

From S2P Require Import Prelude ZeroBytes Hasher HashChain Smt NullifierTree TreeAccount Errors.

Definition INPUT_TREES : nat := 5.
Definition MAX_INPUT_TREES : nat := 2.
Definition MAX_OUTPUTS : nat := 16.
Definition MAX_TRANSACT_INPUTS : nat := 49.

(** ** shape.rs *)

Record Shape : Set := mkShape {
  n_inputs : nat;
  n_outputs : nat;
}.

Definition MAX_TRANSACTION_ADDRESSES : nat := 64.
Definition FIXED_TRANSACT_ADDRESSES : nat := 4.
Definition MAX_SIGNERS : nat := 29.
Definition RING_AUTHORITY_WIDTHS : list nat := [2; 4]%nat.

Definition SPP_SUPPORTED_SHAPES : list Shape := map (fun '(i, o) => mkShape i o)
  [(1, 2); (1, 4); (1, 8); (2, 2); (2, 4); (1, 16); (2, 8); (3, 2); (3, 4); (2, 16); (3, 8); (4, 2); (4, 4);
   (4, 8); (5, 2); (5, 4); (4, 16); (5, 8); (6, 2); (6, 4); (5, 16); (6, 8); (8, 2); (8, 4); (8, 8); (8, 16);
   (12, 2); (12, 4); (12, 8); (16, 2); (16, 4); (16, 8); (24, 2); (24, 4); (32, 2); (40, 2); (48, 2); (49, 2)]%nat.

Definition CONFIDENTIAL_EDDSA_SHAPES : list Shape := map (fun '(i, o) => mkShape i o)
  [(2, 8); (2, 16); (4, 8); (4, 16); (8, 8); (8, 16); (16, 8); (16, 16); (24, 8); (24, 16); (48, 8); (48, 16)]%nat.

Definition owner_signer_slots (n : nat) : nat :=
  let remaining := (MAX_TRANSACTION_ADDRESSES - (FIXED_TRANSACT_ADDRESSES + n))%nat in
  if Nat.ltb n remaining then n else remaining.

Definition signer_width (s : Shape) : nat := (owner_signer_slots (n_inputs s) + 1)%nat.

Fixpoint is_listed (s : Shape) (shapes : list Shape) : bool :=
  match shapes with
  | [] => false
  | shape :: rest =>
      if Nat.eqb (n_inputs shape) (n_inputs s) && Nat.eqb (n_outputs shape) (n_outputs s) then true
      else is_listed s rest
  end.

Definition is_supported (s : Shape) : bool := is_listed s SPP_SUPPORTED_SHAPES.

Definition is_confidential_eddsa (s : Shape) : bool := is_listed s CONFIDENTIAL_EDDSA_SHAPES.

Definition is_ring_authority (s : Shape) : bool :=
  if negb (Nat.eqb (n_inputs s) (n_outputs s)) then false
  else existsb (Nat.eqb (n_inputs s)) RING_AUTHORITY_WIDTHS.

(** ** tree_slot.rs *)

Record TreeSlot : Type := mkSlot {
  slot_id : bytes;
  utxo_root : bytes;
  nullifier_root : bytes;
}.

Definition slot_ZERO : TreeSlot := mkSlot zero32 zero32 zero32.

Definition tree_id_field (tree_id : Z) : bytes := right_align (be_bytes 2 tree_id).

Definition slot_new (tree_id : Z) (utxo_root nullifier_root : bytes) : TreeSlot :=
  mkSlot (tree_id_field tree_id) utxo_root nullifier_root.

Record TreeContext : Type := mkTreeContext {
  utxo_tree_root_index : Z;
  nullifier_tree_root_index : Z;
}.

Definition resolve_tree_slot (l : TreeAccountLayout) (context : TreeContext) : res TreeError TreeSlot :=
  let? u := get_utxo_tree_root l (utxo_tree_root_index context) in
  let? n := get_nullifier_tree_root l (nullifier_tree_root_index context) in
  Ok (mkSlot (tree_id_array l) u n).

Definition INPUT_FLAGS_TREE_INDEX_BITS : Z := 3.

Definition input_flags_tree_index_shift (index : nat) : Z := 1 + INPUT_FLAGS_TREE_INDEX_BITS * Z.of_nat index.

(** [flags[i] |= v]; [None] out of range. *)
Definition or_byte (flags : bytes) (i : Z) (v : Z) : res ShieldedPoolError bytes :=
  match flags !! Z.to_nat i with
  | Some b => Ok (<[Z.to_nat i := byte_of (Z.lor (byte_val b) v)]> flags)
  | None => Err InvalidTransactShape
  end.

Definition or_input_flags_bits (flags : bytes) (value shift : Z) : res ShieldedPoolError bytes :=
  let shifted := Z.shiftl value (shift mod 8) mod 2 ^ 16 in
  let high := shifted / 256 in
  let low := shifted mod 256 in
  let? low_index := ok_or (checked_sub (Z.of_nat (length flags)) (1 + shift / 8)) InvalidTransactShape in
  let? flags := or_byte flags low_index low in
  if negb (high =? 0) then
    let? high_index := ok_or (checked_sub low_index 1) InvalidTransactShape in
    or_byte flags high_index high
  else Ok flags.

(** The loop over the enumerated indexes. *)
Fixpoint pack_loop (flags : bytes) (index : nat) (tree_indexes : list Z) : res ShieldedPoolError bytes :=
  match tree_indexes with
  | [] => Ok flags
  | tree_index :: rest =>
      check Nat.ltb index MAX_TRANSACT_INPUTS else InvalidTransactShape in
      check tree_index <? Z.of_nat INPUT_TREES else InputTreeIndexOutOfRange in
      let? flags := or_input_flags_bits flags tree_index (input_flags_tree_index_shift index) in
      pack_loop flags (S index) rest
  end.

Definition pack_input_flags (allow_dummy_inputs : bool) (tree_indexes : list Z) : res ShieldedPoolError bytes :=
  let? flags := or_input_flags_bits zero32 (if allow_dummy_inputs then 1 else 0) 0 in
  pack_loop flags 0 tree_indexes.

Definition ZERO_TREE_SLOT_SUFFIX_CHAINS : list bytes := map hash_literal [
  0x0bc188d27dcceadc1dcfb6af0a7af08fe2864eecec96c5ae7cee6db31ba599aa;
  0x0bb8c4e79b87e21962d496cfc7bbe6726a8d1ab8ed987416de3c54333b1f651e;
  0x0d996690abbda0b8aac106d15fa1c0f1e39810ee2b90ed5911b796fc2b23eedb;
  0x0b62216e4dd6db08ea73f29cf070f7a78af91417395f45bc7ec98e5a4d934641].

Section chains.
Context `{SolPoseidon}.

Definition slot_hash (s : TreeSlot) : res HasherError bytes :=
  Poseidon.hashv [slot_id s; utxo_root s; nullifier_root s].

Fixpoint slot_hashes (slots : list TreeSlot) : res HasherError (list bytes) :=
  match slots with
  | [] => Ok []
  | s :: slots' => let? h := slot_hash s in let? hs := slot_hashes slots' in Ok (h :: hs)
  end.

(** Over exactly [INPUT_TREES] slots. *)
Definition tree_slots_hash_chain (slots : list TreeSlot) : res HasherError bytes :=
  let? hashes := slot_hashes slots in
  create_right_hash_chain_from_slice hashes.

Definition fold_slot (chain : bytes) (s : TreeSlot) : res HasherError bytes :=
  let? h := slot_hash s in Poseidon.hashv [h; chain].

Definition populated_tree_slots_hash_chain (populated : list TreeSlot) : res HasherError bytes :=
  let count := length populated in
  check negb (Nat.eqb count 0 || Nat.ltb INPUT_TREES count)
    else InvalidInputLength (Z.of_nat count) (Z.of_nat INPUT_TREES) in
  let unused := (INPUT_TREES - count)%nat in
  let? '(chain, prefix) :=
    match (match unused with O => None | S index => ZERO_TREE_SLOT_SUFFIX_CHAINS !! index end) with
    | Some suffix => Ok (suffix, populated)
    | None =>
        let? '(last, prefix) := ok_or (split_last populated)
          (InvalidInputLength (Z.of_nat count) (Z.of_nat INPUT_TREES)) in
        let? h := slot_hash last in
        Ok (h, prefix)
    end in
  rfold fold_slot chain (reverse prefix).

End chains.

(** ** Bits of a big-endian element *)

Lemma be_val_insert l i b b' : l !! i = Some b ->
  be_val (<[i := b']> l) = be_val l + (byte_val b' - byte_val b) * 256 ^ Z.of_nat (length l - 1 - i).
Proof.
  revert i. induction l as [|x l IH]; intros [|i] Hi; simpl in Hi; try done.
  - injection Hi as ->. cbn [insert list_insert length]. rewrite !be_val_cons.
    replace (S (length l) - 1 - 0)%nat with (length l) by lia. lia.
  - change (<[S i := b']> (x :: l)) with (x :: <[i := b']> l). rewrite !be_val_cons, (IH i Hi), length_insert.
    cbn [length]. replace (S (length l) - 1 - S i)%nat with (length l - 1 - i)%nat by lia. lia.
Qed.

Lemma be_val_lookup l i b : l !! i = Some b ->
  byte_val b = be_val l / 256 ^ Z.of_nat (length l - 1 - i) mod 256.
Proof.
  revert i. induction l as [|x l IH]; intros [|i] Hi; simpl in Hi; try done.
  - injection Hi as ->. rewrite be_val_cons. cbn [length]. replace (S (length l) - 1 - 0)%nat with (length l) by lia.
    pose proof (be_val_bound l). rewrite Z.div_add_l by lia. rewrite Z.div_small by lia. pose proof (byte_val_range b).
    rewrite Z.add_0_r, Z.mod_small; lia.
  - pose proof (lookup_lt_Some _ _ _ Hi) as Hlt. rewrite be_val_cons, (IH i Hi). cbn [length].
    replace (S (length l) - 1 - S i)%nat with (length l - 1 - i)%nat by lia. set (k := (length l - 1 - i)%nat).
    replace (length l) with (k + S i)%nat by lia. rewrite Nat2Z.inj_add, Z.pow_add_r by lia.
    replace (byte_val x * (256 ^ Z.of_nat k * 256 ^ Z.of_nat (S i)) + be_val l)
      with (be_val l + byte_val x * 256 ^ Z.of_nat (S i) * 256 ^ Z.of_nat k) by lia.
    assert (0 < 256 ^ Z.of_nat k) by (apply Z.pow_pos_nonneg; lia). rewrite Z.div_add by lia. rewrite pow256_S.
    replace (byte_val x * (256 * 256 ^ Z.of_nat i)) with (byte_val x * 256 ^ Z.of_nat i * 256) by lia.
    by rewrite Z.mod_add by lia.
Qed.

Lemma lor_add a c r : 0 <= r -> 0 <= a < 2 ^ r -> Z.lor a (c * 2 ^ r) = a + c * 2 ^ r.
Proof.
  intros Hr Ha. rewrite <- Z.shiftl_mul_pow2 by done.
  assert (Z.land a (Z.shiftl c r) = 0) as Hland.
  { apply Z.bits_inj'. intros n Hn. rewrite Z.land_spec, Z.bits_0, Z.shiftl_spec by done.
    destruct (decide (n < r)); [rewrite (Z.testbit_neg_r c) by lia; by rewrite andb_false_r|].
    destruct (decide (a = 0)) as [->|Hne]; [by rewrite Z.bits_0|].
    rewrite (Z.bits_above_log2 a n); [done|lia|].
    pose proof (proj1 (Z.log2_lt_pow2 a r ltac:(lia)) (proj2 Ha)). lia. }
  by rewrite <- Z.lxor_lor, Z.add_nocarry_lxor.
Qed.

(** A three-bit value moved by [r < 8] bits keeps to 16 bits, and its low byte
    has no bit below [r]. *)
Lemma shifted_value value r : 0 <= value < 8 -> 0 <= r < 8 ->
  0 <= value * 2 ^ r < 2 ^ 10 /\ exists k, (value * 2 ^ r) mod 256 = k * 2 ^ r /\ k < 2 ^ (8 - r) /\
    2 ^ r * 2 ^ (8 - r) = 256.
Proof.
  intros Hv Hr. assert (1 <= 2 ^ r <= 2 ^ 7) as Hr2
    by (split; [apply (Z.pow_le_mono_r 2 0 r); lia|apply Z.pow_le_mono_r; lia]).
  assert (2 ^ r * 2 ^ (8 - r) = 256) as Hsplit
    by (rewrite <- Z.pow_add_r by lia; by replace (r + (8 - r)) with 8 by lia).
  split; [nia|]. exists (value mod 2 ^ (8 - r)).
  assert (0 < 2 ^ (8 - r)) by (apply Z.pow_pos_nonneg; lia). split; [|split; [apply Z.mod_pos_bound; lia|done]].
  rewrite <- Hsplit, (Z.mul_comm (2 ^ r) (2 ^ (8 - r))). apply Z.mul_mod_distr_r; lia.
Qed.

(** Setting [value < 8] at bit [shift] of an element with no bits from [shift] on. *)
Lemma or_bits_value flags value shift :
  is_bytes 32 flags -> 0 <= value < 8 -> 0 <= shift <= 240 -> be_val flags < 2 ^ shift ->
  exists flags', or_input_flags_bits flags value shift = Ok flags' /\ is_bytes 32 flags' /\
    be_val flags' = be_val flags + value * 2 ^ shift.
Proof.
  intros Hl Hv Hs Hb. unfold is_bytes in *. pose proof (be_val_bound flags) as Hnn.
  pose proof (Z.div_mod shift 8 ltac:(lia)) as Hdm. pose proof (Z.mod_pos_bound shift 8 ltac:(lia)) as Hr.
  set (q := shift / 8) in *. set (r := shift mod 8) in *. assert (0 <= q <= 30) as Hq by lia.
  assert (2 ^ shift = 256 ^ q * 2 ^ r) as Hpow
    by (rewrite Hdm; change 256 with (2 ^ 8); rewrite <- Z.pow_mul_r, <- Z.pow_add_r by lia; done).
  assert (1 <= 2 ^ r <= 2 ^ 7) as Hr2
    by (split; [apply (Z.pow_le_mono_r 2 0 r); lia|apply Z.pow_le_mono_r; lia]).
  assert (exists b, flags !! Z.to_nat (31 - q) = Some b) as [b Hb0] by (apply lookup_lt_is_Some_2; lia).
  assert (exists c, flags !! Z.to_nat (30 - q) = Some c) as [c Hc0] by (apply lookup_lt_is_Some_2; lia).
  pose proof (be_val_lookup _ _ _ Hb0) as Hbv. pose proof (be_val_lookup _ _ _ Hc0) as Hcv. rewrite Hl in Hbv, Hcv.
  replace (Z.of_nat (32 - 1 - Z.to_nat (31 - q))) with q in Hbv by lia.
  replace (Z.of_nat (32 - 1 - Z.to_nat (30 - q))) with (q + 1) in Hcv by lia.
  assert (0 < 256 ^ q) as Hpq by (apply Z.pow_pos_nonneg; lia).
  assert (256 ^ (q + 1) = 256 * 256 ^ q) as Hpq1 by (rewrite Z.pow_add_r by lia; lia).
  assert (0 <= be_val flags / 256 ^ q < 2 ^ r) as Hx
    by (split; [apply Z.div_pos; lia|apply Z.div_lt_upper_bound; lia]).
  rewrite Z.mod_small in Hbv by lia.
  assert (byte_val c = 0) as Hc by (rewrite Hcv, (Z.div_small (be_val flags)) by (rewrite Hpq1; nia); done).
  destruct (shifted_value value r Hv Hr) as (Hw & k & Hk & Hk8 & Hsplit). set (w := value * 2 ^ r) in *.
  pose proof (Z.mod_pos_bound w 256 ltac:(lia)) as Hwm. pose proof (Z.div_mod w 256 ltac:(lia)) as Hwd.
  assert (byte_val b + w mod 256 < 256) as Hsum by nia.
  unfold or_input_flags_bits. fold r q. rewrite Hl, Z.shiftl_mul_pow2 by lia. fold w. rewrite (Z.mod_small w) by lia.
  rewrite (proj2 (checked_sub_Some _ _ (31 - q))) by lia. cbn [ok_or rbind]. unfold or_byte at 1. rewrite Hb0. cbn [rbind].
  set (b' := byte_of _). assert (byte_val b' = byte_val b + w mod 256) as Hb'.
  { unfold b'. rewrite byte_val_of, Hk, lor_add by lia. apply Z.mod_small. pose proof (byte_val_range b). lia. }
  pose proof (be_val_insert flags _ b b' Hb0) as Hv1. rewrite Hl in Hv1.
  replace (Z.of_nat (32 - 1 - Z.to_nat (31 - q))) with q in Hv1 by lia.
  assert (value * 2 ^ shift = w * 256 ^ q) as Hval by (unfold w; rewrite Hpow; lia).
  destruct (Z.eqb_spec (w / 256) 0) as [Hz|Hz]; cbn [negb].
  - eexists. split; [done|]. split; [by rewrite length_insert|]. rewrite Hv1, Hb', Hval. nia.
  - rewrite (proj2 (checked_sub_Some _ _ (30 - q))) by lia. cbn [ok_or rbind]. unfold or_byte.
    rewrite list_lookup_insert_ne, Hc0 by lia. eexists. split; [done|]. split; [by rewrite !length_insert|].
    erewrite be_val_insert by (rewrite list_lookup_insert_ne; [exact Hc0|lia]).
    rewrite length_insert, Hl, Hv1, Hb', Hc, byte_val_of, Z.lor_0_l.
    rewrite (Z.mod_small (w / 256)) by (split; [apply Z.div_pos; lia|apply Z.div_lt_upper_bound; lia]).
    replace (Z.of_nat (32 - 1 - Z.to_nat (30 - q))) with (q + 1) by lia. rewrite Hpq1, Hval. nia.
Qed.

(** ** The packed indexes *)

(** What the circuit reads: three bits per input above the policy bit. *)
Fixpoint packed_indexes (index : nat) (tree_indexes : list Z) : Z :=
  match tree_indexes with
  | [] => 0
  | t :: rest => t * 2 ^ input_flags_tree_index_shift index + packed_indexes (S index) rest
  end.

Lemma shift_S index : 2 ^ input_flags_tree_index_shift (S index) = 8 * 2 ^ input_flags_tree_index_shift index.
Proof.
  unfold input_flags_tree_index_shift, INPUT_FLAGS_TREE_INDEX_BITS.
  replace (1 + 3 * Z.of_nat (S index)) with (3 + (1 + 3 * Z.of_nat index)) by lia. by rewrite Z.pow_add_r by lia.
Qed.

Lemma shift_pos index : 0 < 2 ^ input_flags_tree_index_shift index.
Proof. apply Z.pow_pos_nonneg; unfold input_flags_tree_index_shift, INPUT_FLAGS_TREE_INDEX_BITS; lia. Qed.

Lemma packed_indexes_bound index l : Forall (fun t => 0 <= t < 8) l ->
  0 <= packed_indexes index l /\
  packed_indexes index l + 2 ^ input_flags_tree_index_shift index
    <= 2 ^ input_flags_tree_index_shift (index + length l).
Proof.
  intros Hl. revert index. induction Hl as [|t l Ht _ IH]; intros index; cbn [packed_indexes length].
  - rewrite Nat.add_0_r. lia.
  - specialize (IH (S index)). rewrite shift_S in IH. pose proof (shift_pos index).
    replace (index + S (length l))%nat with (S index + length l)%nat by lia. nia.
Qed.

Lemma packed_indexes_div index l : exists q, packed_indexes index l = 2 ^ input_flags_tree_index_shift index * q.
Proof.
  revert index. induction l as [|t l IH]; intros index; [exists 0; cbn; lia|].
  destruct (IH (S index)) as [q Hq]. cbn [packed_indexes]. rewrite Hq, shift_S. exists (t + 8 * q). lia.
Qed.

Lemma indexes_below_8 l : Forall (fun t => 0 <= t < 2 ^ 8) l -> Forall (fun t => t < Z.of_nat INPUT_TREES) l ->
  Forall (fun t => 0 <= t < 8) l.
Proof. rewrite !Forall_forall. intros H1 H2 t Ht. specialize (H1 t Ht). specialize (H2 t Ht). change (Z.of_nat INPUT_TREES) with 5 in H2. lia. Qed.

Lemma packed_indexes_inj index l k : length l = length k ->
  Forall (fun t => 0 <= t < 8) l -> Forall (fun t => 0 <= t < 8) k ->
  packed_indexes index l = packed_indexes index k -> l = k.
Proof.
  revert index k. induction l as [|x l IH]; intros index [|y k] Hlen Hl Hk; try done. injection Hlen as Hlen.
  apply Forall_cons in Hl as [Hx Hl]. apply Forall_cons in Hk as [Hy Hk]. cbn [packed_indexes]. intros Heq.
  destruct (packed_indexes_div (S index) l) as [q Hq], (packed_indexes_div (S index) k) as [q' Hq']. rewrite shift_S in Hq, Hq'.
  pose proof (shift_pos index) as Hp. assert (x + 8 * q = y + 8 * q') as He by nia.
  assert (x = y) as -> by lia. f_equal. apply (IH (S index) k); try done. lia.
Qed.

(** Every way the loop can end. *)
Lemma pack_loop_spec flags index l : Forall (fun t => 0 <= t < 2 ^ 8) l -> is_bytes 32 flags ->
  (index <= MAX_TRANSACT_INPUTS)%nat -> be_val flags < 2 ^ input_flags_tree_index_shift index ->
  match pack_loop flags index l with
  | Ok flags' => (index + length l <= MAX_TRANSACT_INPUTS)%nat /\ Forall (fun t => t < Z.of_nat INPUT_TREES) l /\
      is_bytes 32 flags' /\ be_val flags' = be_val flags + packed_indexes index l
  | Err InputTreeIndexOutOfRange => Exists (fun t => Z.of_nat INPUT_TREES <= t) (take (MAX_TRANSACT_INPUTS - index) l)
  | Err InvalidTransactShape => Forall (fun t => t < Z.of_nat INPUT_TREES) (take (MAX_TRANSACT_INPUTS - index) l) /\
      (MAX_TRANSACT_INPUTS < index + length l)%nat
  | _ => False
  end.
Proof.
  intros Hl. revert flags index. induction Hl as [|t l Ht _ IH]; intros flags index Hf Hi Hb.
  { cbn. split; [lia|]. split; [constructor|]. split; [done|lia]. }
  cbn [pack_loop length packed_indexes]. destruct (Nat.ltb_spec index MAX_TRANSACT_INPUTS) as [Hlt|Hge].
  2: { replace (MAX_TRANSACT_INPUTS - index)%nat with 0%nat by lia. split; [constructor|lia]. }
  replace (MAX_TRANSACT_INPUTS - index)%nat with (S (MAX_TRANSACT_INPUTS - S index)) by lia. cbn [take].
  destruct (Z.ltb_spec t (Z.of_nat INPUT_TREES)) as [Ht5|Ht5]; [|by constructor]. change (Z.of_nat INPUT_TREES) with 5 in Ht5.
  destruct (or_bits_value flags t (input_flags_tree_index_shift index)) as (flags' & -> & Hf' & Hv'); [done|lia| |done|].
  { unfold input_flags_tree_index_shift, INPUT_FLAGS_TREE_INDEX_BITS, MAX_TRANSACT_INPUTS in *. lia. }
  cbn [rbind]. specialize (IH flags' (S index) Hf' Hlt). rewrite shift_S in IH. pose proof (shift_pos index).
  specialize (IH ltac:(nia)). destruct (pack_loop flags' (S index) l) as [flags''|e|]; [|destruct e; try done|done].
  - destruct IH as (Hlen & H5 & Hf'' & Hv''). split; [lia|]. split; [constructor; [exact Ht5|done]|].
    split; [done|]. rewrite Hv'', Hv'. lia.
  - destruct IH as [H5 Hlen]. split; [constructor; [exact Ht5|done]|lia].
  - by apply Exists_cons_tl.
Qed.

Lemma pack_input_flags_ok allow l flags : Forall (fun t => 0 <= t < 2 ^ 8) l -> pack_input_flags allow l = Ok flags ->
  Forall (fun t => t < Z.of_nat INPUT_TREES) l /\ be_val flags = (if allow then 1 else 0) + packed_indexes 0 l.
Proof.
  intros Hl. unfold pack_input_flags.
  destruct (or_bits_value zero32 (if allow then 1 else 0) 0) as (f & -> & Hf & Hv); [done|by destruct allow..|].
  cbn [rbind]. change (be_val zero32) with 0 in Hv. intros Hp.
  pose proof (pack_loop_spec f 0 l Hl Hf ltac:(unfold MAX_TRANSACT_INPUTS; lia)
    ltac:(change (2 ^ input_flags_tree_index_shift 0) with 2; destruct allow; lia)) as Hspec.
  rewrite Hp in Hspec. destruct Hspec as (_ & H5 & _ & ->). split; [done|lia].
Qed.

(** ** The slot chain *)

Section chain_lemmas.
Context `{SP : SolPoseidon}.

(** How the suffix table is documented: [S(1) = Z], [S(m) = Poseidon(Z, S(m - 1))]
    with [Z = Poseidon(0, 0, 0)]. *)
Definition slot_suffix_law : Prop :=
  exists z, slot_hash slot_ZERO = Ok z /\ ZERO_TREE_SLOT_SUFFIX_CHAINS !! 0%nat = Some z /\
    forall m c c', ZERO_TREE_SLOT_SUFFIX_CHAINS !! m = Some c -> ZERO_TREE_SLOT_SUFFIX_CHAINS !! S m = Some c' ->
      Poseidon.hashv [z; c] = Ok c'.

Definition canonical_slot (s : TreeSlot) : Prop :=
  canonical (slot_id s) /\ canonical (utxo_root s) /\ canonical (nullifier_root s).

Lemma slot_hashes_app a b :
  slot_hashes (a ++ b) = (let? ha := slot_hashes a in let? hb := slot_hashes b in Ok (ha ++ hb)).
Proof.
  induction a as [|s a IH]; cbn [slot_hashes app]; [by destruct (slot_hashes b)|].
  destruct (slot_hash s); cbn [rbind]; try done. rewrite IH. by destruct (slot_hashes a), (slot_hashes b).
Qed.

(** Folding slots is folding their hashes. *)
Lemma fold_slots_hashes p c v :
  rfold fold_slot c (reverse p) = Ok v <->
  exists hs, slot_hashes p = Ok hs /\ rfold (fun chain h => Poseidon.hashv [h; chain]) c (reverse hs) = Ok v.
Proof.
  revert v. induction p as [|s p IH]; intros v.
  { cbn. naive_solver. }
  rewrite reverse_cons, rfold_app. cbn [slot_hashes]. split.
  - destruct (rfold fold_slot c (reverse p)) as [c'|e|] eqn:Ep; cbn [rbind rfold]; try done.
    destruct (proj1 (IH c') eq_refl) as (hs & -> & Hf). unfold fold_slot. destruct (slot_hash s) as [h|e|]; cbn [rbind]; try done.
    destruct (Poseidon.hashv [h; c']) as [w|e|] eqn:Ew; cbn; try done. intros [= <-].
    exists (h :: hs). split; [done|]. rewrite reverse_cons, rfold_app, Hf. cbn. by rewrite Ew.
  - intros (hs & Hs & Hf). destruct (slot_hash s) as [h|e|] eqn:Eh; cbn [rbind] in Hs; try done.
    destruct (slot_hashes p) as [hs'|e|]; cbn [rbind] in Hs; try done. injection Hs as <-.
    rewrite reverse_cons, rfold_app in Hf. destruct (rfold _ c (reverse hs')) as [c'|e|] eqn:Ec; cbn [rbind] in Hf; try done.
    rewrite (proj2 (IH c')) by (exists hs'; done). cbn [rbind rfold] in *. unfold fold_slot. by rewrite Eh.
Qed.

Lemma full_chain_snoc p s v :
  tree_slots_hash_chain (p ++ [s]) = Ok v <->
  exists h, slot_hash s = Ok h /\ rfold fold_slot h (reverse p) = Ok v.
Proof.
  unfold tree_slots_hash_chain. rewrite slot_hashes_app. cbn [slot_hashes]. split.
  - destruct (slot_hashes p) as [hs|e|] eqn:Ep; cbn [rbind]; try done.
    destruct (slot_hash s) as [h|e|]; cbn [rbind]; try done. unfold create_right_hash_chain_from_slice.
    rewrite split_last_snoc. intros Hf. exists h. split; [done|]. apply fold_slots_hashes. by exists hs.
  - intros (h & -> & Hf). apply fold_slots_hashes in Hf as (hs & -> & Hf). cbn [rbind].
    unfold create_right_hash_chain_from_slice. by rewrite split_last_snoc.
Qed.

Lemma zero_slots_fold m c : slot_suffix_law -> ZERO_TREE_SLOT_SUFFIX_CHAINS !! m = Some c ->
  exists z, slot_hash slot_ZERO = Ok z /\ rfold fold_slot z (replicate m slot_ZERO) = Ok c.
Proof.
  intros (z & Hz & H0 & Hstep) Hm. exists z. split; [done|]. revert c Hm.
  induction m as [|m IH]; intros c Hc; [cbn; congruence|].
  destruct (lookup_lt_is_Some_2 ZERO_TREE_SLOT_SUFFIX_CHAINS m) as [c' Hc'];
    [apply lookup_lt_Some in Hc; lia|].
  rewrite replicate_S_end, rfold_app, (IH c' Hc'). cbn [rbind rfold]. unfold fold_slot. rewrite Hz. cbn [rbind].
  by rewrite (Hstep m c' c Hc' Hc).
Qed.

Lemma populated_unfold populated v : slot_suffix_law -> (1 <= length populated <= INPUT_TREES)%nat ->
  populated_tree_slots_hash_chain populated = Ok v <->
  tree_slots_hash_chain (populated ++ replicate (INPUT_TREES - length populated) slot_ZERO) = Ok v.
Proof.
  intros Hlaw Hc. unfold populated_tree_slots_hash_chain.
  destruct (Nat.eqb_spec (length populated) 0), (Nat.ltb_spec INPUT_TREES (length populated)); try lia. cbn [orb negb].
  destruct (INPUT_TREES - length populated)%nat as [|m] eqn:Em.
  - destruct populated as [|s p _] using rev_ind; [done|]. rewrite split_last_snoc, app_nil_r, full_chain_snoc.
    cbn [ok_or rbind]. destruct (slot_hash s); cbn [rbind]; naive_solver.
  - destruct (lookup_lt_is_Some_2 ZERO_TREE_SLOT_SUFFIX_CHAINS m) as [c Hcm];
      [change (length ZERO_TREE_SLOT_SUFFIX_CHAINS) with 4%nat; unfold INPUT_TREES in *; lia|].
    rewrite Hcm. cbn [rbind]. destruct (zero_slots_fold m c Hlaw Hcm) as (z & Hz & Hf).
    rewrite replicate_S_end, app_assoc, full_chain_snoc, reverse_app, reverse_replicate.
    setoid_rewrite Hz. setoid_rewrite rfold_app. split.
    + intros Hv. exists z. by rewrite Hf.
    + intros (h & [= <-] & Hv). by rewrite Hf in Hv.
Qed.

Lemma zero_slot_canonical : canonical_slot slot_ZERO.
Proof. split; [|split]; apply (bool_decide_eq_true_1 _); vm_compute; reflexivity. Qed.

Lemma slot_hash_total s : PoseidonTotal SP -> canonical_slot s -> exists h, slot_hash s = Ok h /\ canonical h.
Proof. intros HT (? & ? & ?). apply poseidon_hashv_total; [cbn; lia|by rewrite !Forall_cons, Forall_nil]. Qed.

Lemma fold_slots_total c p : PoseidonTotal SP -> canonical c -> Forall canonical_slot p ->
  exists v, rfold fold_slot c p = Ok v /\ canonical v.
Proof.
  intros HT Hc Hp. revert c Hc. induction Hp as [|s p Hs _ IH]; intros c Hc; [by exists c|].
  cbn [rfold]. unfold fold_slot. destruct (slot_hash_total s HT Hs) as (h & -> & Hh). cbn [rbind].
  destruct (poseidon_hashv_total [h; c]) as (w & -> & Hw); [cbn; lia|by rewrite !Forall_cons, Forall_nil|]. by apply IH.
Qed.

Lemma full_chain_total p s : PoseidonTotal SP -> Forall canonical_slot (p ++ [s]) ->
  exists v, tree_slots_hash_chain (p ++ [s]) = Ok v /\ canonical v.
Proof.
  intros HT [Hp Hs]%Forall_app. rewrite Forall_singleton in Hs. destruct (slot_hash_total s HT Hs) as (h & Hh & Hch).
  destruct (fold_slots_total h (reverse p) HT Hch) as (v & Hv & Hcv); [by apply Forall_reverse|].
  exists v. split; [|done]. apply full_chain_snoc. by exists h.
Qed.

End chain_lemmas.

(** A hash function with the table's values, for the witness. *)
Definition slot_poseidon : SolPoseidon := fun vals =>
  (0, match vals with
      | [a; b] =>
          if decide (ZERO_TREE_SLOT_SUFFIX_CHAINS !! 0%nat = Some a)
          then table_step ZERO_TREE_SLOT_SUFFIX_CHAINS b (mix vals) else mix vals
      | [a; b; c] =>
          if decide (vals = [zero32; zero32; zero32])
          then default (mix vals) (ZERO_TREE_SLOT_SUFFIX_CHAINS !! 0%nat) else mix vals
      | _ => mix vals
      end).

Lemma slot_poseidon_law : @slot_suffix_law slot_poseidon.
Proof.
  eexists. split; [vm_compute; reflexivity|]. split; [vm_compute; reflexivity|].
  intros [|[|[|[|m]]]] c c' Hc Hc'; vm_compute in Hc, Hc'; try discriminate;
    injection Hc as <-; injection Hc' as <-; vm_compute; reflexivity.
Qed.

(** ** Theorems *)

(** C32. Packing the input flags: for [u8] tree indexes the result is a canonical
    field element with the dummy policy in bit 0 and input [i]'s index in bits
    [1 + 3i .. 3 + 3i], whenever there are at most [MAX_TRANSACT_INPUTS] inputs
    and every index names one of the [INPUT_TREES] slots; otherwise it is the
    range error if an index within the input capacity is out of range and the
    shape error if not. *)
Theorem input_flags_packing (allow : bool) (tree_indexes : list Z) :
  Forall (fun t => 0 <= t < 2 ^ 8) tree_indexes ->
  match pack_input_flags allow tree_indexes with
  | Ok flags => (length tree_indexes <= MAX_TRANSACT_INPUTS)%nat /\
      Forall (fun t => t < Z.of_nat INPUT_TREES) tree_indexes /\ canonical flags /\
      be_val flags = (if allow then 1 else 0) + packed_indexes 0 tree_indexes
  | Err InputTreeIndexOutOfRange =>
      Exists (fun t => Z.of_nat INPUT_TREES <= t) (take MAX_TRANSACT_INPUTS tree_indexes)
  | Err InvalidTransactShape => (MAX_TRANSACT_INPUTS < length tree_indexes)%nat /\
      Forall (fun t => t < Z.of_nat INPUT_TREES) (take MAX_TRANSACT_INPUTS tree_indexes)
  | _ => False
  end.
Proof.
  intros Hl. unfold pack_input_flags.
  destruct (or_bits_value zero32 (if allow then 1 else 0) 0) as (flags & -> & Hf & Hv); [done|by destruct allow..|].
  cbn [rbind]. change (be_val zero32) with 0 in Hv.
  assert (be_val flags < 2) as Hlt by (destruct allow; lia).
  pose proof (pack_loop_spec flags 0 tree_indexes Hl Hf ltac:(unfold MAX_TRANSACT_INPUTS; lia) Hlt) as Hspec.
  rewrite Nat.sub_0_r in Hspec. destruct (pack_loop flags 0 tree_indexes) as [flags'|e|]; [|destruct e; try done|done].
  - destruct Hspec as (Hlen & H5 & Hf' & Hv'). split; [done|]. split; [done|]. split; [|rewrite Hv', Hv; lia].
    split; [done|]. apply is_canonical_spec; [done|].
    pose proof (indexes_below_8 _ Hl H5) as H8.
    destruct (packed_indexes_bound 0 tree_indexes H8) as [_ Hpb].
    assert (2 ^ input_flags_tree_index_shift (0 + length tree_indexes) <= 2 ^ 148) as Hle
      by (apply Z.pow_le_mono_r; unfold input_flags_tree_index_shift, INPUT_FLAGS_TREE_INDEX_BITS,
          MAX_TRANSACT_INPUTS in *; lia).
    assert (2 ^ 148 < bn254_modulus) by reflexivity. change (2 ^ input_flags_tree_index_shift 0) with 2 in Hpb. lia.
  - by destruct Hspec.
Qed.

Lemma input_flags_packing_witness :
  exists flags, pack_input_flags true [4; 0; 3] = Ok flags /\ canonical flags /\ be_val flags = 1 + packed_indexes 0 [4; 0; 3].
Proof.
  pose proof (input_flags_packing true [4; 0; 3] ltac:(repeat constructor; lia)) as H.
  destruct (pack_input_flags true [4; 0; 3]) as [flags|e|] eqn:E; [|vm_compute in E; discriminate..].
  exists flags. split; [reflexivity|]. split; [apply H|apply H].
Defined.

(** The packed element determines what was packed: two inputs sets of one
    size that pack to the same element have the same dummy policy and the same
    tree index at every input. *)
Theorem input_flags_injective (allow allow' : bool) (l k : list Z) (flags : bytes) :
  Forall (fun t => 0 <= t < 2 ^ 8) l -> Forall (fun t => 0 <= t < 2 ^ 8) k -> length l = length k ->
  pack_input_flags allow l = Ok flags -> pack_input_flags allow' k = Ok flags ->
  allow = allow' /\ l = k.
Proof.
  intros Hl Hk Hlen Ha Hb. apply pack_input_flags_ok in Ha as (Hl5 & Hva); [|done].
  apply pack_input_flags_ok in Hb as (Hk5 & Hvb); [|done].
  pose proof (indexes_below_8 _ Hl Hl5) as Hl8. pose proof (indexes_below_8 _ Hk Hk5) as Hk8.
  destruct (packed_indexes_div 0 l) as [q Hq], (packed_indexes_div 0 k) as [q' Hq'].
  change (2 ^ input_flags_tree_index_shift 0) with 2 in Hq, Hq'.
  assert (allow = allow' /\ packed_indexes 0 l = packed_indexes 0 k) as [-> Heq]
    by (destruct allow, allow'; split; try done; lia).
  split; [done|]. by apply (packed_indexes_inj 0).
Qed.

Lemma input_flags_injective_witness : exists flags, pack_input_flags false [2; 1] = Ok flags /\
  ([2; 1] : list Z) = [2; 1].
Proof.
  destruct (pack_input_flags false [2; 1]) as [flags|e|] eqn:E; [|vm_compute in E; discriminate..].
  exists flags. split; [reflexivity|].
  apply (input_flags_injective false false [2; 1] [2; 1] flags); [repeat constructor; lia|repeat constructor; lia|
    reflexivity|exact E|exact E].
Defined.

(** C33. Hashing only the populated slots gives the full chain: over one to
    [INPUT_TREES] slots the fold that starts from the precomputed zero suffix
    returns exactly what the fold over the slots padded with zero slots
    returns; any other count is refused; and with a hash that is total on
    canonical elements it does return. *)
Theorem populated_chain_is_full_chain `{SP : SolPoseidon} (populated : list TreeSlot) :
  slot_suffix_law ->
  (forall v, populated_tree_slots_hash_chain populated = Ok v <->
     (1 <= length populated <= INPUT_TREES)%nat /\
     tree_slots_hash_chain (populated ++ replicate (INPUT_TREES - length populated) slot_ZERO) = Ok v) /\
  (PoseidonTotal SP -> Forall canonical_slot populated -> (1 <= length populated <= INPUT_TREES)%nat ->
   exists v, populated_tree_slots_hash_chain populated = Ok v /\ canonical v).
Proof.
  intros Hlaw. split.
  - intros v. destruct (decide (1 <= length populated <= INPUT_TREES)%nat) as [Hc|Hc].
    + rewrite populated_unfold by done. naive_solver.
    + unfold populated_tree_slots_hash_chain.
      destruct (Nat.eqb_spec (length populated) 0), (Nat.ltb_spec INPUT_TREES (length populated)); cbn; try (split; [done|lia]).
      lia.
  - intros HT Hcan Hc. set (slots := populated ++ replicate (INPUT_TREES - length populated) slot_ZERO).
    assert (Forall canonical_slot slots) as Hslots
      by (apply Forall_app_2; [done|apply Forall_replicate, zero_slot_canonical]).
    assert (exists p s, slots = p ++ [s]) as (p & s & Es).
    { destruct (exists_last (l := slots)) as (p & s & ->); [|by exists p, s]. unfold slots. by destruct populated; cbn in *; [lia|]. }
    rewrite Es in Hslots.
    destruct (full_chain_total p s HT Hslots) as (v & Hv & Hcv). exists v. split; [|done].
    apply populated_unfold; [done..|]. fold slots. by rewrite Es.
Qed.

Lemma populated_chain_is_full_chain_witness : exists v,
  @populated_tree_slots_hash_chain slot_poseidon [slot_new 7 (replicate 32 x01) (replicate 32 x02)] = Ok v /\
  @tree_slots_hash_chain slot_poseidon (slot_new 7 (replicate 32 x01) (replicate 32 x02) :: replicate 4 slot_ZERO) = Ok v.
Proof.
  destruct (@populated_tree_slots_hash_chain slot_poseidon [slot_new 7 (replicate 32 x01) (replicate 32 x02)])
    as [v|e|] eqn:E; [|vm_compute in E; discriminate..].
  exists v. split; [reflexivity|].
  destruct (@populated_chain_is_full_chain slot_poseidon [slot_new 7 (replicate 32 x01) (replicate 32 x02)]
    slot_poseidon_law) as [Hiff _].
  exact (proj2 (proj1 (Hiff v) E)).
Defined.
