(* ===== verification/Ledger.v ===== *)
(** * Accounts and the runtime

    The part of the Solana runtime that programs/shielded-pool uses through
    pinocchio: the ledger of accounts with the sysvars and the log of inner
    instructions, the views an instruction receives, and the calls whose code
    is elsewhere ([Runtime]: system-program instructions, resizing and closing
    an account, address derivation) with their documented effects
    ([RuntimeLaws]) and a concrete instance.

    Two views with one address alias: both read and write the ledger entry. *)

From S2P Require Import Prelude Hasher HashChain Smt Errors.

(** [crate::ID], the base58 [declare_id!] of programs/shielded-pool/src/lib.rs. *)
Definition ID : bytes :=
  be_bytes 32 0xcbcb578ae61258132eeaf6ac121c0a42b88a2e84fb11e7e2d5ba0afd1273163.

(** The System program's address. *)
Definition SYSTEM_PROGRAM : bytes := zero32.

(** ** Errors *)

Inductive ProgramError : Set :=
| Custom (code : Z)
| PeInvalidArgument
| PeInvalidInstructionData
| PeInvalidAccountData
| PeIncorrectProgramId
| PeMissingRequiredSignature
| PeAccountAlreadyInitialized
| PeNotEnoughAccountKeys
| PeAccountBorrowFailed
| PeArithmeticOverflow
| RuntimeError (code : Z).     (** any other error of the runtime *)

Definition pool (e : ShieldedPoolError) : ProgramError := Custom (error_code e).
Definition of_hasher (e : HasherError) : ProgramError := Custom (u32_of_hasher_error e).

(** ** The ledger *)

Record Account : Type := mkAccount {
  lamports : Z;
  acct_owner : bytes;
  acct_data : bytes;
}.

Definition with_lamports (n : Z) (a : Account) : Account := mkAccount n (acct_owner a) (acct_data a).
Definition with_owner (o : bytes) (a : Account) : Account := mkAccount (lamports a) o (acct_data a).
Definition with_data (d : bytes) (a : Account) : Account := mkAccount (lamports a) (acct_owner a) d.

Record Clock : Type := mkClock {
  slot : Z;
  unix_timestamp : Z;
}.

Record Ledger : Type := mkLedger {
  accounts : bytes -> Account;              (** absent: no lamports, no data, system-owned *)
  log : list bytes;                         (** data of the event self-invocations *)
  minimum_balance : Z -> res ProgramError Z;  (** [Rent::get()?.try_minimum_balance] *)
  clock : Clock;
}.

Definition with_accounts (f : bytes -> Account) (L : Ledger) : Ledger :=
  mkLedger f (log L) (minimum_balance L) (clock L).

(** Change one account. *)
Definition upd (a : bytes) (f : Account -> Account) (L : Ledger) : Ledger :=
  with_accounts (fun b => if decide (b = a) then f (accounts L a) else accounts L b) L.

(** What an instruction receives for an account. *)
Record View : Type := mkView {
  vaddr : bytes;
  vsigner : bool;
  vwritable : bool;
  vexecutable : bool;
}.

(** A handler runs on the ledger.  An [Err] or a [Panic] aborts the instruction
    and the runtime discards its changes. *)
Notation Ix A := (M Ledger ProgramError A).

Section access.
Context {E : Type}.

Definition account (v : View) : M Ledger E Account := fun L => (Ok (accounts L (vaddr v)), L).
Definition get_lamports (v : View) : M Ledger E Z := fun L => (Ok (lamports (accounts L (vaddr v))), L).
Definition data_len (v : View) : M Ledger E Z :=
  fun L => (Ok (Z.of_nat (length (acct_data (accounts L (vaddr v))))), L).
Definition get_data (v : View) : M Ledger E bytes := fun L => (Ok (acct_data (accounts L (vaddr v))), L).
Definition get_owner (v : View) : M Ledger E bytes := fun L => (Ok (acct_owner (accounts L (vaddr v))), L).
Definition set_lamports (v : View) (n : Z) : M Ledger E unit := mmodify (upd (vaddr v) (with_lamports n)).
Definition set_data (v : View) (d : bytes) : M Ledger E unit := mmodify (upd (vaddr v) (with_data d)).

End access.

Definition owned_by (a : Account) (program : bytes) : bool := bool_decide (acct_owner a = program).
Definition is_system (address : bytes) : bool := bool_decide (address = SYSTEM_PROGRAM).

Definition rent_minimum (len : Z) : Ix Z := fun L => (minimum_balance L len, L).
Definition get_clock : Ix Clock := fun L => (Ok (clock L), L).

(** The event self-invocation: the callee is this program's [EmitEvent] arm,
    which returns [Ok]; the data stays in the transaction's log. *)
Definition emit (data : bytes) : Ix unit :=
  mmodify (fun L => mkLedger (accounts L) (log L ++ [data]) (minimum_balance L) (clock L)).

(** ** The runtime's calls *)

Class Runtime : Type := {
  (** System-program instructions; [seeds] sign for a derived address. *)
  sys_transfer (from to : View) (n : Z) (seeds : list bytes) : Ix unit;
  sys_assign (v : View) (owner : bytes) (seeds : list bytes) : Ix unit;
  sys_allocate (v : View) (space : Z) (seeds : list bytes) : Ix unit;
  sys_create_account (from to : View) (n space : Z) (owner : bytes) (seeds : list bytes) : Ix unit;
  (** pinocchio's helper for derived accounts: create, or complete a funded address. *)
  create_with_minimum_balance (v : View) (space : Z) (owner : bytes) (payer : View) (seeds : list bytes) : Ix unit;
  (** [AccountView::resize] and [AccountView::close]. *)
  resize (v : View) (n : Z) : Ix unit;
  close (v : View) : Ix unit;
  (** The address of seeds and a bump, and the search for the highest bump that has one. *)
  derive_address (seeds : list bytes) (bump : Z) (program : bytes) : bytes;
  derive_program_address (seeds : list bytes) (program : bytes) : option (bytes * Z);
}.

Definition debit (n : Z) (a : Account) : Account := with_lamports (lamports a - n) a.
Definition credit (n : Z) (a : Account) : Account := with_lamports (lamports a + n) a.
Definition move (from to : bytes) (n : Z) (L : Ledger) : Ledger := upd to (credit n) (upd from (debit n) L).

Definition resized (n : Z) (d : bytes) : bytes := take (Z.to_nat n) d ++ replicate (Z.to_nat n - length d) x00.

Definition created (n : Z) (owner : bytes) (space : Z) (a : Account) : Account :=
  mkAccount (lamports a + n) owner (replicate (Z.to_nat space) x00).

(** Documented effects of successful calls.  A transfer moves lamports out of a
    system-owned account without data; allocation and assignment turn an empty
    system-owned account into zeroed data of the new owner; resizing keeps the
    prefix and fills with zeros; closing leaves the empty system-owned account. *)
Class RuntimeLaws (R : Runtime) : Prop := {
  transfer_ok : forall from to n seeds L u L', sys_transfer from to n seeds L = (Ok u, L') ->
    L' = move (vaddr from) (vaddr to) n L /\ n <= lamports (accounts L (vaddr from)) /\
    lamports (accounts (upd (vaddr from) (debit n) L) (vaddr to)) + n < 2 ^ 64 /\
    (0 < n -> acct_owner (accounts L (vaddr from)) = SYSTEM_PROGRAM /\ acct_data (accounts L (vaddr from)) = []);
  assign_ok : forall v owner seeds L u L', sys_assign v owner seeds L = (Ok u, L') ->
    L' = upd (vaddr v) (with_owner owner) L;
  allocate_ok : forall v space seeds L u L', sys_allocate v space seeds L = (Ok u, L') ->
    acct_owner (accounts L (vaddr v)) = SYSTEM_PROGRAM /\ acct_data (accounts L (vaddr v)) = [] /\
    L' = upd (vaddr v) (with_data (replicate (Z.to_nat space) x00)) L;
  create_account_ok : forall from to n space owner seeds L u L',
    sys_create_account from to n space owner seeds L = (Ok u, L') ->
    acct_owner (accounts L (vaddr to)) = SYSTEM_PROGRAM /\ acct_data (accounts L (vaddr to)) = [] /\
    lamports (accounts L (vaddr to)) = 0 /\ 0 <= n <= lamports (accounts L (vaddr from)) /\
    (0 < n -> acct_owner (accounts L (vaddr from)) = SYSTEM_PROGRAM /\ acct_data (accounts L (vaddr from)) = []) /\
    L' = upd (vaddr to) (created n owner space) (upd (vaddr from) (debit n) L);
  create_minimum_ok : forall v space owner payer seeds L u L',
    create_with_minimum_balance v space owner payer seeds L = (Ok u, L') ->
    acct_owner (accounts L (vaddr v)) = SYSTEM_PROGRAM /\ acct_data (accounts L (vaddr v)) = [] /\
    exists m, let n := saturating_sub m (lamports (accounts L (vaddr v))) in
      minimum_balance L space = Ok m /\ n <= lamports (accounts L (vaddr payer)) /\
      (0 < n -> acct_owner (accounts L (vaddr payer)) = SYSTEM_PROGRAM /\ acct_data (accounts L (vaddr payer)) = []) /\
      L' = upd (vaddr v) (created n owner space) (upd (vaddr payer) (debit n) L);
  resize_ok : forall v n L u L', resize v n L = (Ok u, L') ->
    L' = upd (vaddr v) (fun a => with_data (resized n (acct_data a)) a) L;
  close_ok : forall v L u L', close v L = (Ok u, L') ->
    L' = upd (vaddr v) (fun _ => mkAccount 0 SYSTEM_PROGRAM []) L;
  derive_ok : forall seeds program a bump, derive_program_address seeds program = Some (a, bump) ->
    a = derive_address seeds bump program /\ 0 <= bump < 256;
}.

(** ** Lemmas *)

Lemma accounts_upd_eq a f L : accounts (upd a f L) a = f (accounts L a).
Proof. unfold upd. simpl. by rewrite decide_True. Qed.

Lemma accounts_upd_ne a b f L : b <> a -> accounts (upd a f L) b = accounts L b.
Proof. intros. unfold upd. simpl. by rewrite decide_False. Qed.

Lemma accounts_upd a b f L : accounts (upd a f L) b = if decide (b = a) then f (accounts L a) else accounts L b.
Proof. done. Qed.

(** Owner and data of an account, which no lamport movement changes. *)
Definition core (L : Ledger) (a : bytes) : bytes * bytes := (acct_owner (accounts L a), acct_data (accounts L a)).

Lemma core_upd_lamports a b f L :
  (forall x, acct_owner (f x) = acct_owner x /\ acct_data (f x) = acct_data x) -> core (upd a f L) b = core L b.
Proof.
  intros Hf. unfold core. rewrite accounts_upd. case_decide as Hb; [|done]. subst.
  by destruct (Hf (accounts L a)) as [-> ->].
Qed.

Lemma core_move from to n L b : core (move from to n L) b = core L b.
Proof. unfold move. rewrite !core_upd_lamports; done. Qed.

Lemma core_upd_ne a b f L : b <> a -> core (upd a f L) b = core L b.
Proof. intros. unfold core. by rewrite accounts_upd_ne. Qed.

Lemma ID_not_system : ID <> SYSTEM_PROGRAM.
Proof. intros H. apply (f_equal (fun l => bool_decide (l = SYSTEM_PROGRAM))) in H. vm_compute in H. done. Qed.

(** ** A concrete runtime for the witnesses *)

(** Derived addresses: the first byte of the seeds, then all bytes modulo a prime
    below [2 ^ 248]. *)
Definition model_address (seeds : list bytes) (bump : Z) (program : bytes) : bytes :=
  default x00 (head (concat seeds))
  :: be_bytes 31 (be_val (x01 :: concat seeds ++ [byte_of bump] ++ program) mod (2 ^ 248 - 237)).

Definition guarded (b : Ledger -> bool) (f : Ledger -> Ledger) : Ix unit := fun L =>
  if b L then (Ok tt, f L) else (Err (RuntimeError 0), L).

Definition empty_system (a : Account) : bool := is_system (acct_owner a) && bool_decide (acct_data a = []).

#[local] Instance model_runtime : Runtime := {
  sys_transfer from to n _ := guarded
    (fun L => empty_system (accounts L (vaddr from)) && (n <=? lamports (accounts L (vaddr from))) &&
       (lamports (accounts (upd (vaddr from) (debit n) L) (vaddr to)) + n <? 2 ^ 64))
    (move (vaddr from) (vaddr to) n);
  sys_assign v owner _ := guarded (fun _ => true) (upd (vaddr v) (with_owner owner));
  sys_allocate v space _ := guarded (fun L => empty_system (accounts L (vaddr v)))
    (upd (vaddr v) (with_data (replicate (Z.to_nat space) x00)));
  sys_create_account from to n space owner _ := guarded
    (fun L => empty_system (accounts L (vaddr to)) && (lamports (accounts L (vaddr to)) =? 0) &&
       empty_system (accounts L (vaddr from)) && (0 <=? n) && (n <=? lamports (accounts L (vaddr from))))
    (fun L => upd (vaddr to) (created n owner space) (upd (vaddr from) (debit n) L));
  create_with_minimum_balance v space owner payer _ := fun L =>
    match minimum_balance L space with
    | Ok m =>
        let n := saturating_sub m (lamports (accounts L (vaddr v))) in
        guarded (fun L => empty_system (accounts L (vaddr v)) && empty_system (accounts L (vaddr payer)) &&
                   (n <=? lamports (accounts L (vaddr payer))))
          (fun L => upd (vaddr v) (created n owner space) (upd (vaddr payer) (debit n) L)) L
    | Err e => (Err e, L)
    | Panic => (Panic, L)
    end;
  resize v n := guarded (fun _ => true) (upd (vaddr v) (fun a => with_data (resized n (acct_data a)) a));
  close v := guarded (fun _ => true) (upd (vaddr v) (fun _ => mkAccount 0 SYSTEM_PROGRAM []));
  derive_address := model_address;
  derive_program_address seeds program := Some (model_address seeds 255 program, 255);
}.

Lemma guarded_ok b f L u L' : guarded b f L = (Ok u, L') -> b L = true /\ L' = f L.
Proof. unfold guarded. destruct (b L); [|done]. by intros [= _ <-]. Qed.

Lemma empty_system_true a : empty_system a = true -> acct_owner a = SYSTEM_PROGRAM /\ acct_data a = [].
Proof. unfold empty_system, is_system. intros H. by breflect. Qed.

#[local] Instance model_runtime_laws : RuntimeLaws model_runtime.
Proof.
  split; cbn [sys_transfer sys_assign sys_allocate sys_create_account create_with_minimum_balance resize close
    model_runtime].
  - intros from to n seeds L u L' [Hb ->]%guarded_ok. breflect.
    destruct (empty_system_true (accounts L (vaddr from))) as [? ?]; done.
  - intros v owner seeds L u L' [_ ->]%guarded_ok. done.
  - intros v space seeds L u L' [[? ?]%empty_system_true ->]%guarded_ok. done.
  - intros from to n space owner seeds L u L' [Hb ->]%guarded_ok. breflect.
    destruct (empty_system_true (accounts L (vaddr from))) as [? ?]; [done|].
    destruct (empty_system_true (accounts L (vaddr to))) as [? ?]; [done|]. done.
  - intros v space owner payer seeds L u L' H.
    destruct (minimum_balance L space) as [m|e|] eqn:Hm; [|done..]. apply guarded_ok in H as [Hb ->]. breflect.
    destruct (empty_system_true (accounts L (vaddr v))) as [? ?]; [done|].
    destruct (empty_system_true (accounts L (vaddr payer))) as [? ?]; [done|]. split_and!; [done..|]. by exists m.
  - intros v n L u L' [_ ->]%guarded_ok. done.
  - intros v L u L' [_ ->]%guarded_ok. done.
  - by intros seeds program a bump [= <- <-].
Qed.

(** ** Inverting a successful run *)

Section inversion.
Context {S E A B : Type}.
Implicit Types (m : M S E A) (s : S).

Lemma mlift_ok (r : res E A) s a s' : mlift r s = (Ok a, s') <-> r = Ok a /\ s' = s.
Proof. unfold mlift. naive_solver. Qed.

Lemma mret_ok (a b : A) s s' : mret (E := E) a s = (Ok b, s') <-> b = a /\ s' = s.
Proof. unfold mret. naive_solver. Qed.

Lemma mget_ok s a s' : mget (E := E) s = (Ok a, s') <-> a = s /\ s' = s.
Proof. unfold mget. naive_solver. Qed.

Lemma mmodify_ok f s u s' : mmodify (E := E) f s = (Ok u, s') <-> s' = f s.
Proof. unfold mmodify. destruct u. naive_solver. Qed.

Lemma require_ok (b : bool) (e : E) m s a s' :
  (if b then m else mthrow e) s = (Ok a, s') <-> b = true /\ m s = (Ok a, s').
Proof. destruct b; unfold mthrow; naive_solver. Qed.

Lemma check_ok (b : bool) (e : E) (r : res E A) a : (if b then r else Err e) = Ok a <-> b = true /\ r = Ok a.
Proof. destruct b; naive_solver. Qed.

Lemma when_ok (b : bool) (k : M S E unit) s u s' :
  (if b then k else mret tt) s = (Ok u, s') <-> b = true /\ k s = (Ok u, s') \/ b = false /\ s' = s.
Proof. destruct b, u; unfold mret; naive_solver. Qed.

Lemma mmap_err_ok {F} (f : F -> E) (m' : M S F B) s a s' :
  mmap_err f m' s = (Ok a, s') <-> m' s = (Ok a, s').
Proof. unfold mmap_err. destruct (m' s) as [[]]; cbn; naive_solver. Qed.

End inversion.

Section ledger_inversion.
Context {E : Type}.
Implicit Types (L : Ledger).

Lemma account_ok v L a L' : account (E := E) v L = (Ok a, L') <-> a = accounts L (vaddr v) /\ L' = L.
Proof. unfold account. naive_solver. Qed.

Lemma get_lamports_ok v L n L' :
  get_lamports (E := E) v L = (Ok n, L') <-> n = lamports (accounts L (vaddr v)) /\ L' = L.
Proof. unfold get_lamports. naive_solver. Qed.

Lemma data_len_ok v L n L' :
  data_len (E := E) v L = (Ok n, L') <-> n = Z.of_nat (length (acct_data (accounts L (vaddr v)))) /\ L' = L.
Proof. unfold data_len. naive_solver. Qed.

Lemma get_data_ok v L d L' : get_data (E := E) v L = (Ok d, L') <-> d = acct_data (accounts L (vaddr v)) /\ L' = L.
Proof. unfold get_data. naive_solver. Qed.

Lemma get_owner_ok v L o L' : get_owner (E := E) v L = (Ok o, L') <-> o = acct_owner (accounts L (vaddr v)) /\ L' = L.
Proof. unfold get_owner. naive_solver. Qed.

Lemma set_data_ok v d L u L' : set_data (E := E) v d L = (Ok u, L') <-> L' = upd (vaddr v) (with_data d) L.
Proof. apply mmodify_ok. Qed.

Lemma set_lamports_ok v n L u L' : set_lamports (E := E) v n L = (Ok u, L') <-> L' = upd (vaddr v) (with_lamports n) L.
Proof. apply mmodify_ok. Qed.

End ledger_inversion.

Lemma rent_minimum_ok len L n L' : rent_minimum len L = (Ok n, L') <-> minimum_balance L len = Ok n /\ L' = L.
Proof. unfold rent_minimum. split; [by intros [= -> ->]|by intros [-> ->]]. Qed.

Lemma get_clock_ok L c L' : get_clock L = (Ok c, L') <-> c = clock L /\ L' = L.
Proof. unfold get_clock. naive_solver. Qed.

(** One inversion of a successful run; the guards that held stay as hypotheses. *)
Ltac ix_step :=
  match goal with
  | H : mthrow _ _ = (Ok _, _) |- _ => discriminate H
  | H : (if _ then _ else mthrow _) _ = (Ok _, _) |- _ => apply require_ok in H as [? H]
  | H : (if _ then _ else Err _) = Ok _ |- _ => apply check_ok in H as [? H]
  | H : (if _ then _ else mret tt) _ = (Ok _, _) |- _ => apply when_ok in H as [[? H]|[? ->]]
  | H : mlift _ _ = (Ok _, _) |- _ => apply mlift_ok in H as [H ->]
  | H : mret _ _ = (Ok (_, _), _) |- _ => apply mret_ok in H as [H ->]; injection H; clear H; intros; subst
  | H : mret _ _ = (Ok _, _) |- _ => apply mret_ok in H as [-> ->]
  | H : mget _ = (Ok _, _) |- _ => apply mget_ok in H as [-> ->]
  | H : mmodify _ _ = (Ok _, _) |- _ => apply mmodify_ok in H as ->
  | H : account _ _ = (Ok _, _) |- _ => apply account_ok in H as [-> ->]
  | H : get_lamports _ _ = (Ok _, _) |- _ => apply get_lamports_ok in H as [-> ->]
  | H : data_len _ _ = (Ok _, _) |- _ => apply data_len_ok in H as [-> ->]
  | H : get_data _ _ = (Ok _, _) |- _ => apply get_data_ok in H as [-> ->]
  | H : get_owner _ _ = (Ok _, _) |- _ => apply get_owner_ok in H as [-> ->]
  | H : set_data _ _ _ = (Ok _, _) |- _ => apply set_data_ok in H as ->
  | H : set_lamports _ _ _ = (Ok _, _) |- _ => apply set_lamports_ok in H as ->
  | H : rent_minimum _ _ = (Ok _, _) |- _ => apply rent_minimum_ok in H as [? ->]
  | H : get_clock _ = (Ok _, _) |- _ => apply get_clock_ok in H as [-> ->]
  | H : mmap_err _ _ _ = (Ok _, _) |- _ => apply mmap_err_ok in H
  | H : negb (negb _) = true |- _ => rewrite negb_involutive in H
  | H : negb (_ || _) = true |- _ => rewrite negb_orb in H
  | H : _ && _ = true |- _ => apply andb_true_iff in H as [? H]
  | H : (_ =? _)%nat = true |- _ => apply Nat.eqb_eq in H
  | H : bool_decide _ = true |- _ => apply bool_decide_eq_true_1 in H
  | H : negb (bool_decide _) = true |- _ => apply negb_true_iff, bool_decide_eq_false_1 in H
  end.

Ltac ix_inv := repeat (progress (run_inv; cbn beta iota in *) || ix_step).
