(* ===== verification/AccountChecks.v ===== *)
(** * Account checks

    src/program-libs/account-checks: the checks on a single account, the
    iterator that hands out an instruction's accounts in order, and indexed
    access to a slice of accounts.  A check reads the view's flags and, where
    it needs them, the owner, data or balance of the ledger entry. *)

From S2P Require Import Prelude Ledger.

(** error.rs; the constructors stay in their own name space. *)
Module AccountErrors.

Inductive AccountError : Set :=
| AccountOwnedByWrongProgram
| AccountNotMutable
| InvalidDiscriminator
| BorrowAccountDataFailed
| AlreadyInitialized
| InvalidAccountSize
| AccountMutable
| InvalidAccountBalance
| InvalidSigner
| InvalidProgramId
| ProgramNotExecutable
| AccountNotZeroed
| NotEnoughAccountKeys
| InvalidAccount.

End AccountErrors.

Import AccountErrors.
Notation AccountError := AccountErrors.AccountError.

Definition u32_of_account_error (e : AccountError) : Z :=
  match e with
  | InvalidDiscriminator => 20000
  | AccountOwnedByWrongProgram => 20001
  | AccountNotMutable => 20002
  | BorrowAccountDataFailed => 20003
  | InvalidAccountSize => 20004
  | AccountMutable => 20005
  | AlreadyInitialized => 20006
  | InvalidAccountBalance => 20007
  | InvalidSigner => 20009
  | InvalidProgramId => 20011
  | ProgramNotExecutable => 20012
  | AccountNotZeroed => 20013
  | NotEnoughAccountKeys => 20014
  | InvalidAccount => 20015
  end.

Definition of_account_error (e : AccountError) : ProgramError := Custom (u32_of_account_error e).

(** ** checks.rs *)

(** discriminator.rs *)
Definition DISCRIMINATOR_LEN : nat := 8.

Class Discriminator : Type := LIGHT_DISCRIMINATOR : bytes.

Definition check_non_mut (v : View) : res AccountError unit :=
  check negb (vwritable v) else AccountMutable in Ok tt.

Definition check_signer (v : View) : res AccountError unit :=
  check negb (negb (vsigner v)) else InvalidSigner in Ok tt.

Definition check_mut (v : View) : res AccountError unit :=
  check negb (negb (vwritable v)) else AccountNotMutable in Ok tt.

Definition check_owner (owner : bytes) (a : Account) : res AccountError unit :=
  check negb (negb (owned_by a owner)) else AccountOwnedByWrongProgram in Ok tt.

Definition check_program (program_id : bytes) (v : View) : res AccountError unit :=
  check negb (negb (bool_decide (vaddr v = program_id))) else InvalidProgramId in
  check negb (negb (vexecutable v)) else ProgramNotExecutable in Ok tt.

(** [data.get(..n)]: [None] past the end. *)
Definition prefix (n : nat) (data : bytes) : option bytes :=
  if (n <=? length data)%nat then Some (take n data) else None.

Definition check_data_is_zeroed (n : nat) (data : bytes) : res AccountError unit :=
  let? head := ok_or (prefix n data) InvalidAccountSize in
  check negb (existsb (fun b => negb (bool_decide (b = x00))) head) else AccountNotZeroed in Ok tt.

Section typed_accounts.
Context `{T : Discriminator}.

Definition set_discriminator : M bytes AccountError unit :=
  do! bs <- mget;
  exec! mlift (map_err (fun _ => AlreadyInitialized) (check_data_is_zeroed DISCRIMINATOR_LEN bs));
  exec! mlift (ok_or (prefix DISCRIMINATOR_LEN bs) InvalidAccountSize);
  mmodify (fun bs => LIGHT_DISCRIMINATOR ++ drop DISCRIMINATOR_LEN bs).

Definition check_discriminator (bs : bytes) : res AccountError unit :=
  let? discriminator := ok_or (prefix DISCRIMINATOR_LEN bs) InvalidAccountSize in
  check negb (negb (bool_decide (LIGHT_DISCRIMINATOR = discriminator))) else InvalidDiscriminator in Ok tt.

Definition account_info_init : M Account AccountError unit :=
  zoom acct_data with_data set_discriminator.

Definition check_account_info (program_id : bytes) (a : Account) : res AccountError unit :=
  let? _ := check_owner program_id a in
  check_discriminator (acct_data a).

Definition check_account_info_mut (program_id : bytes) (v : View) (a : Account) : res AccountError unit :=
  let? _ := check_mut v in check_account_info program_id a.

Definition check_account_info_non_mut (program_id : bytes) (v : View) (a : Account) : res AccountError unit :=
  let? _ := check_non_mut v in check_account_info program_id a.

End typed_accounts.

Definition check_account_balance_is_rent_exempt (a : Account) (expected_size rent_minimum : Z)
    : res AccountError Z :=
  let account_size := Z.of_nat (length (acct_data a)) in
  check negb (negb (account_size =? expected_size)) else InvalidAccountSize in
  check negb (lamports a <? rent_minimum) else InvalidAccountBalance in
  Ok rent_minimum.

(** ** account_iterator.rs *)

Record AccountIterator : Type := mkIter {
  iter_accounts : list View;     (** not yet yielded *)
  iter_position : nat;           (** yielded so far *)
}.

Definition new_iter (accounts : list View) : AccountIterator := mkIter accounts 0.

Notation iter_res A := (res AccountError (A * AccountIterator)).

Definition next_account (it : AccountIterator) : iter_res View :=
  match iter_accounts it with
  | v :: rest => Ok (v, mkIter rest (S (iter_position it)))
  | [] => Err NotEnoughAccountKeys
  end.

Definition next_checked_pubkey (pubkey : bytes) (it : AccountIterator) : iter_res View :=
  let? '(v, it) := next_account it in
  check negb (negb (bool_decide (vaddr v = pubkey))) else InvalidAccount in Ok (v, it).

Definition next_signer (it : AccountIterator) : iter_res View :=
  let? '(v, it) := next_account it in
  let? _ := check_signer v in Ok (v, it).

Definition next_mut (it : AccountIterator) : iter_res View :=
  let? '(v, it) := next_account it in
  let? _ := check_mut v in Ok (v, it).

Definition next_non_mut (it : AccountIterator) : iter_res View :=
  let? '(v, it) := next_account it in
  let? _ := check_non_mut v in Ok (v, it).

Definition next_signer_mut (it : AccountIterator) : iter_res View :=
  let? '(v, it) := next_signer it in
  let? _ := check_mut v in Ok (v, it).

Definition next_signer_non_mut (it : AccountIterator) : iter_res View :=
  let? '(v, it) := next_signer it in
  let? _ := check_non_mut v in Ok (v, it).

Definition next_optional (next : AccountIterator -> iter_res View) (is_some : bool) (it : AccountIterator)
    : iter_res (option View) :=
  if is_some then let? '(v, it) := next it in Ok (Some v, it) else Ok (None, it).

Definition next_option := next_optional next_account.
Definition next_option_mut := next_optional next_mut.
Definition next_option_signer := next_optional next_signer.

Definition remaining (it : AccountIterator) : res AccountError (list View) :=
  check negb (bool_decide (iter_accounts it = [])) else NotEnoughAccountKeys in Ok (iter_accounts it).

Definition remaining_unchecked (it : AccountIterator) : res AccountError (list View) := Ok (iter_accounts it).

Definition iter_len (it : AccountIterator) : nat := iter_position it + length (iter_accounts it).
Definition iter_is_empty (it : AccountIterator) : bool := (iter_len it =? 0)%nat.
Definition iterator_is_empty (it : AccountIterator) : bool := bool_decide (iter_accounts it = []).

(** packed_accounts.rs *)
Definition packed_get (accounts : list View) (index : nat) : res AccountError View :=
  ok_or (accounts !! index) NotEnoughAccountKeys.

(** In a handler an account error becomes a custom program error. *)
Definition acc {A} (r : res AccountError A) : Ix A := mlift (map_err of_account_error r).

(** ** Lemmas *)

Lemma u32_of_account_error_inj : Inj (=) (=) u32_of_account_error.
Proof. by intros [] []. Qed.

(** A yielded account is the next one of the list and passed its check. *)
Lemma next_account_ok it v it' : next_account it = Ok (v, it') ->
  iter_accounts it = v :: iter_accounts it' /\ iter_len it' = iter_len it.
Proof.
  unfold next_account, iter_len. destruct it as [[|w l] n]; [done|]. simpl. intros [= <- <-]. simpl. split; [done|lia].
Qed.

Lemma next_signer_ok it v it' : next_signer it = Ok (v, it') ->
  iter_accounts it = v :: iter_accounts it' /\ iter_len it' = iter_len it /\ vsigner v = true.
Proof.
  unfold next_signer, check_signer. intros Hn. run_inv. destruct x as [w it1].
  destruct (vsigner w) eqn:Hs; [|done]. simpl in Hn. injection Hn as -> ->.
  apply next_account_ok in H as [? ?]. done.
Qed.

Lemma next_mut_ok it v it' : next_mut it = Ok (v, it') ->
  iter_accounts it = v :: iter_accounts it' /\ iter_len it' = iter_len it /\ vwritable v = true.
Proof.
  unfold next_mut, check_mut. intros Hn. run_inv. destruct x as [w it1].
  destruct (vwritable w) eqn:Hs; [|done]. simpl in Hn. injection Hn as -> ->.
  apply next_account_ok in H as [? ?]. done.
Qed.

Lemma next_signer_mut_ok it v it' : next_signer_mut it = Ok (v, it') ->
  iter_accounts it = v :: iter_accounts it' /\ iter_len it' = iter_len it /\ vsigner v = true /\ vwritable v = true.
Proof.
  unfold next_signer_mut, check_mut. intros Hn. run_inv. destruct x as [w it1].
  destruct (vwritable w) eqn:Hs; [|done]. simpl in Hn. injection Hn as -> ->.
  apply next_signer_ok in H as (? & ? & ?). done.
Qed.

Lemma check_zeroed_ok n d : check_data_is_zeroed n d = Ok tt <-> (n <= length d)%nat /\ take n d = replicate n x00.
Proof.
  unfold check_data_is_zeroed, prefix. destruct (Nat.leb_spec n (length d)) as [Hle|]; cbn; [|split; [done|lia]].
  destruct (existsb _ _) eqn:Hz; cbn; split; try done.
  - intros [_ Ht]. rewrite Ht in Hz. apply existsb_exists in Hz as (x & Hx & Hne).
    apply list_elem_of_In, elem_of_replicate in Hx as [-> _]. done.
  - intros _. split; [done|]. symmetry. apply replicate_as_elem_of. rewrite length_take. split; [lia|]. intros x Hx.
    destruct (decide (x = x00)) as [|Hne]; [done|exfalso]. rewrite <- not_true_iff_false in Hz. apply Hz.
    apply existsb_exists. exists x. split; [by apply list_elem_of_In|]. by rewrite bool_decide_false.
Qed.

(** Initialising a typed account: only zeroed data is accepted, the result
    passes the check for its type, and unless the discriminator is all zero a
    second initialisation fails. *)
Lemma set_discriminator_once `{T : Discriminator} bs bs' : length LIGHT_DISCRIMINATOR = DISCRIMINATOR_LEN ->
  set_discriminator bs = (Ok tt, bs') ->
  take DISCRIMINATOR_LEN bs = replicate DISCRIMINATOR_LEN x00 /\ length bs' = length bs /\
  check_discriminator bs' = Ok tt /\
  (LIGHT_DISCRIMINATOR <> replicate DISCRIMINATOR_LEN x00 -> set_discriminator bs' = (Err AlreadyInitialized, bs')).
Proof.
  intros Hlen Hset. unfold set_discriminator, mbindM, mget, mlift, mmodify in *.
  destruct (check_data_is_zeroed _ bs) as [[]|e|] eqn:Hz; [|done..]. apply check_zeroed_ok in Hz as [Hle Hz].
  cbn in Hset. unfold prefix in Hset. rewrite (proj2 (Nat.leb_le _ _) Hle) in Hset. injection Hset as <-.
  assert (take DISCRIMINATOR_LEN (LIGHT_DISCRIMINATOR ++ drop DISCRIMINATOR_LEN bs) = LIGHT_DISCRIMINATOR) as Htake
    by (by rewrite <- Hlen, take_app_length).
  assert (length (LIGHT_DISCRIMINATOR ++ drop DISCRIMINATOR_LEN bs) = length bs) as Hl
    by (rewrite length_app, length_drop; lia).
  set (bs' := LIGHT_DISCRIMINATOR ++ _) in *. split_and!; [done..| |].
  - unfold check_discriminator, prefix. rewrite (proj2 (Nat.leb_le _ _)) by lia. cbn [ok_or rbind].
    by rewrite Htake, bool_decide_true.
  - intros Hne. destruct (check_data_is_zeroed _ bs') as [[]|e|] eqn:Hz'; [|done|].
    + apply check_zeroed_ok in Hz' as [_ Hz']. congruence.
    + unfold check_data_is_zeroed in Hz'. destruct (prefix _ _); [|done]. cbn in Hz'. by destruct (negb _).
Qed.
