(* ===== verification/State.v ===== *)
(** * Account records

    src/program-libs/interface/src/state: the program's account types with their
    [repr(C)] layouts, checks and constructors, the nullifier PDA record, the
    lamport requirements of a tree account, and the cache selection published
    by a cached spend. *)

From S2P Require Import Prelude ZeroBytes Hasher HashChain Codec Smt Batch NullifierTree TreeAccount TreeTypes TreeSafety Errors TreeSlot.

(** ** discriminator.rs *)

Definition TREE_ACCOUNT_DISCRIMINATOR : Z := 1.
Definition PROTOCOL_CONFIG : Z := 3.
Definition RING_CONFIG : Z := 4.
Definition SPL_ASSET_REGISTRY : Z := 5.
Definition SPL_ASSET_COUNTER : Z := 6.
Definition CACHE : Z := 7.
Definition NULLIFIER_PDA : Z := 8.

(** bytemuck's checked cast of a [repr(C)] type: the length must be exact; account
    data is aligned for every type here. *)
Definition try_from_bytes {A} (c : Codec A) (data : bytes) : option A :=
  if (length data =? csize c)%nat then Some (dec c data) else None.

(** ** nullifier_pda.rs *)

(** [b"nullifier"] *)
Definition NULLIFIER_PDA_SEED : bytes := [x6e; x75; x6c; x6c; x69; x66; x69; x65; x72].
Definition NULLIFIER_PDA_SIZE : nat := 11.

Record NullifierPda : Set := mkNullifierPda {
  queue_index : Z;
  pda_tree_id : Z;
}.

Definition is_closable (r : NullifierPda) (close_before_index : Z) : bool := queue_index r <? close_before_index.

Definition to_account_data (r : NullifierPda) : bytes :=
  [byte_of NULLIFIER_PDA] ++ le_bytes 8 (queue_index r) ++ le_bytes 2 (pda_tree_id r).

Definition write_to (r : NullifierPda) (data : bytes) : option bytes :=
  if (length data =? NULLIFIER_PDA_SIZE)%nat then Some (to_account_data r) else None.

Definition read_from (data : bytes) : option NullifierPda :=
  if (length data =? NULLIFIER_PDA_SIZE)%nat then
    match data with
    | disc :: rest =>
        if bool_decide (disc = byte_of NULLIFIER_PDA) then
          Some (mkNullifierPda (le_val (take 8 rest)) (le_val (drop 8 rest)))
        else None
    | [] => None
    end
  else None.

(** ** tree.rs *)

Definition STATE_HEIGHT : Z := 32.
Definition DEFAULT_FEE_PER_TREE_LAMPORTS : Z := 5000.
Definition AT_COST_APPEND_REIMBURSEMENT_LAMPORTS : Z := 5000.
Definition AT_COST_CLOSE_REIMBURSEMENT_LAMPORTS : Z := 88.

Definition default_tree_fees : TreeFeeSchedule :=
  mkFees DEFAULT_FEE_PER_TREE_LAMPORTS AT_COST_APPEND_REIMBURSEMENT_LAMPORTS AT_COST_CLOSE_REIMBURSEMENT_LAMPORTS.

Definition tree_liquid_working_capital_lamports (input_queue_batch_size live_nullifier_pdas nullifier_pda_rent : Z)
    : option Z :=
  batches ← checked_add 64 NUM_BATCHES 1;
  total ← checked_mul 64 batches input_queue_batch_size;
  checked_mul 64 (saturating_sub total live_nullifier_pdas) nullifier_pda_rent.

Definition tree_working_capital_lamports (input_queue_batch_size nullifier_pda_rent : Z) : option Z :=
  tree_liquid_working_capital_lamports input_queue_batch_size 0 nullifier_pda_rent.

Definition tree_creation_lamports (p : NullifierTreeInitParams) (tree_rent nullifier_pda_rent : Z) : option Z :=
  capital ← tree_working_capital_lamports (input_queue_batch_size p) nullifier_pda_rent;
  checked_add 64 tree_rent capital.

Definition nullifier_tree_params : NullifierTreeInitParams :=
  mkInitParams DEFAULT_NULLIFIER_BATCH_SIZE DEFAULT_NULLIFIER_ZKP_BATCH_SIZE 40.

Definition TREE_ALLOCATION_STEP : Z := 10 * 1024.

Definition tree_creation_step_count : Z := div_ceil account_size TREE_ALLOCATION_STEP.

(** [account_data.get(a..b)] *)
Definition get_range (a b : nat) (data : bytes) : option bytes :=
  if (b <=? length data)%nat then Some (take (b - a) (drop a data)) else None.

Definition read_tree_id (account_data : bytes) : option Z :=
  bs ← get_range tree_id_offset (tree_id_offset + 2) account_data;
  Some (le_val bs).

(** ** protocol_config.rs *)

Record ProtocolConfig : Type := mkProtocolConfig {
  pc_discriminator : Z;
  protocol_authority : bytes;
  tree_creation_authority : bytes;
  forester_authority : bytes;
  ring_creation_authority : bytes;
  fee_authority : bytes;
  tree_creation_is_permissionless : Z;
  ring_activation_is_permissionless : Z;
  spl_interface_creation_is_permissionless : Z;
  next_tree_id : Z;
}.

Definition config_codec : Codec ProtocolConfig :=
  iso (fun '(d, (p, (t, (f, (r, (e, (a, (b, (c, n))))))))) => mkProtocolConfig d p t f r e a b c n)
      (fun c => (pc_discriminator c, (protocol_authority c, (tree_creation_authority c, (forester_authority c,
         (ring_creation_authority c, (fee_authority c, (tree_creation_is_permissionless c,
         (ring_activation_is_permissionless c, (spl_interface_creation_is_permissionless c, next_tree_id c))))))))))
      (u8 ⊕ raw 32 ⊕ raw 32 ⊕ raw 32 ⊕ raw 32 ⊕ raw 32 ⊕ u8 ⊕ u8 ⊕ u8 ⊕ u16).

Definition pc_check_discriminator (c : ProtocolConfig) : res InterfaceError unit :=
  check pc_discriminator c =? PROTOCOL_CONFIG else IfInvalidDiscriminator in Ok tt.

Definition pc_from_account_bytes (data : bytes) : res InterfaceError ProtocolConfig :=
  check negb (negb (length data =? csize config_codec)%nat) else IfInvalidProtocolConfigData in
  let? config := ok_or (try_from_bytes config_codec data) IfInvalidProtocolConfigData in
  let? _ := pc_check_discriminator config in
  Ok config.

Definition check_authority (stored authority : bytes) : res InterfaceError unit :=
  check bool_decide (stored = authority) else IfUnauthorized in Ok tt.

Definition check_protocol_authority (c : ProtocolConfig) := check_authority (protocol_authority c).
Definition check_tree_creation_authority (c : ProtocolConfig) := check_authority (tree_creation_authority c).
Definition check_forester_authority (c : ProtocolConfig) := check_authority (forester_authority c).
Definition check_ring_creation_authority (c : ProtocolConfig) := check_authority (ring_creation_authority c).
Definition check_fee_authority (c : ProtocolConfig) := check_authority (fee_authority c).

Definition allows_permissionless_tree_creation (c : ProtocolConfig) : bool :=
  negb (tree_creation_is_permissionless c =? 0).
Definition allows_permissionless_ring_activation (c : ProtocolConfig) : bool :=
  negb (ring_activation_is_permissionless c =? 0).
Definition allows_permissionless_spl_interface_creation (c : ProtocolConfig) : bool :=
  negb (spl_interface_creation_is_permissionless c =? 0).

(** [config.next_tree_id = v]. *)
Definition with_next_tree_id (v : Z) (c : ProtocolConfig) : ProtocolConfig :=
  mkProtocolConfig (pc_discriminator c) (protocol_authority c) (tree_creation_authority c) (forester_authority c)
    (ring_creation_authority c) (fee_authority c) (tree_creation_is_permissionless c)
    (ring_activation_is_permissionless c) (spl_interface_creation_is_permissionless c) v.

(** ** ring_config.rs *)

Record RingConfig : Type := mkRingConfig {
  rc_discriminator : Z;
  rc_authority : bytes;
  rc_program_id : bytes;
  ring_authority_transact_is_enabled : Z;
  rc_paused : Z;
  rc_activated : Z;
  rc_bump : Z;
}.

Definition ring_codec : Codec RingConfig :=
  iso (fun '(d, (a, (p, (e, (s, (t, b)))))) => mkRingConfig d a p e s t b)
      (fun c => (rc_discriminator c, (rc_authority c, (rc_program_id c, (ring_authority_transact_is_enabled c,
         (rc_paused c, (rc_activated c, rc_bump c)))))))
      (u8 ⊕ raw 32 ⊕ raw 32 ⊕ u8 ⊕ u8 ⊕ u8 ⊕ u8).

Definition rc_enabled (c : RingConfig) : bool := negb (ring_authority_transact_is_enabled c =? 0).
Definition rc_is_paused (c : RingConfig) : bool := negb (rc_paused c =? 0).
Definition rc_is_activated (c : RingConfig) : bool := negb (rc_activated c =? 0).
Definition rc_has_discriminator (c : RingConfig) : bool := rc_discriminator c =? RING_CONFIG.
Definition rc_check_authority (c : RingConfig) (authority : bytes) : bool := bool_decide (rc_authority c = authority).

(** ** spl_asset_counter.rs *)

Record SplAssetCounter : Type := mkCounter {
  sc_discriminator : Z;
  sc_reserved : bytes;
  sc_next_id : Z;
}.

Definition counter_codec : Codec SplAssetCounter :=
  iso (fun '(d, (r, n)) => mkCounter d r n) (fun c => (sc_discriminator c, (sc_reserved c, sc_next_id c)))
      (u8 ⊕ raw 7 ⊕ u64).

Definition FIRST_ASSET_ID : Z := 2.

Definition sc_check_discriminator (c : SplAssetCounter) : res InterfaceError unit :=
  check sc_discriminator c =? SPL_ASSET_COUNTER else IfInvalidDiscriminator in Ok tt.

Definition sc_init : M SplAssetCounter InterfaceError unit :=
  do! c <- mget;
  require negb (negb (sc_discriminator c =? 0)) else IfAlreadyInitialized;
  mmodify (fun c => mkCounter SPL_ASSET_COUNTER (sc_reserved c) FIRST_ASSET_ID).

Definition allocate_id : M SplAssetCounter InterfaceError Z :=
  do! c <- mget;
  let id := sc_next_id c in
  require negb (id <? FIRST_ASSET_ID) else IfInvalidDiscriminator;
  do! next <- mlift (ok_or (checked_add 64 id 1) IfInvalidDiscriminator);
  exec! mmodify (fun c => mkCounter (sc_discriminator c) (sc_reserved c) next);
  mret id.

(** ** spl_asset_registry.rs *)

Record SplAssetRegistry : Type := mkRegistry {
  sr_discriminator : Z;
  sr_reserved : bytes;
  sr_mint : bytes;
  sr_asset_id : Z;
}.

Definition registry_codec : Codec SplAssetRegistry :=
  iso (fun '(d, (r, (m, a))) => mkRegistry d r m a)
      (fun c => (sr_discriminator c, (sr_reserved c, (sr_mint c, sr_asset_id c))))
      (u8 ⊕ raw 7 ⊕ raw 32 ⊕ u64).

Definition sr_check_discriminator (r : SplAssetRegistry) : res InterfaceError unit :=
  check sr_discriminator r =? SPL_ASSET_REGISTRY else IfInvalidDiscriminator in Ok tt.

Definition sr_from_account_bytes (data : bytes) : res InterfaceError SplAssetRegistry :=
  let? bs := ok_or (bs ← get_range 0 (csize registry_codec) data;
                    if (length bs =? length data)%nat then Some bs else None) IfInvalidAccountData in
  let? registry := ok_or (try_from_bytes registry_codec bs) IfInvalidAccountData in
  let? _ := sr_check_discriminator registry in
  Ok registry.

Definition sr_set (mint : bytes) (asset_id : Z) (r : SplAssetRegistry) : SplAssetRegistry :=
  mkRegistry SPL_ASSET_REGISTRY (sr_reserved r) mint asset_id.

Definition sr_account_bytes (mint : bytes) (asset_id : Z) : bytes :=
  enc registry_codec (sr_set mint asset_id (mkRegistry 0 (replicate 7 x00) zero32 0)).

(** ** cache.rs *)

(** [b"cache"] *)
Definition CACHE_SEED : bytes := [x63; x61; x63; x68; x65].
Definition CACHE_CAPACITY : nat := 36.
Definition MAX_CACHE_WRITES : nat := 16.

(** [CacheWrite] of verifying_keys/circuit.rs: an output index and its slot. *)
Record CacheWriteEntry : Set := mkCacheWrite {
  cw_output : Z;
  cw_slot : Z;
}.

Record CacheAccount : Type := mkCache {
  ca_discriminator : Z;
  ca_bump : Z;
  ca_tree_id : bytes;
  ca_expires_at : bytes;
  ca_rent_sponsor : bytes;
  ca_write_authority : bytes;
  ca_utxo_hashes : list bytes;
}.

Definition cache_codec : Codec CacheAccount :=
  iso (fun '(d, (b, (t, (e, (r, (w, h)))))) => mkCache d b t e r w h)
      (fun c => (ca_discriminator c, (ca_bump c, (ca_tree_id c, (ca_expires_at c, (ca_rent_sponsor c,
         (ca_write_authority c, ca_utxo_hashes c)))))))
      (u8 ⊕ u8 ⊕ raw 2 ⊕ raw 8 ⊕ raw 32 ⊕ raw 32 ⊕ array CACHE_CAPACITY (raw 32)).

Definition ca_has_discriminator (c : CacheAccount) : bool := ca_discriminator c =? CACHE.

(** [i64::from_le_bytes]: two's complement. *)
Definition i64_of_le (bs : bytes) : Z := let v := le_val bs in if v <? 2 ^ 63 then v else v - 2 ^ 64.

Definition i64_to_le (v : Z) : bytes := le_bytes 8 (v mod 2 ^ 64).

Definition expiry_unix_ts (c : CacheAccount) : Z := i64_of_le (ca_expires_at c).

Definition count_ones (v : Z) : nat := length (filter (fun i => Z.testbit v (Z.of_nat i) = true) (seq 0 64)).

(** [b"cache_write"] *)
Definition cache_write_domain : bytes := [x63; x61; x63; x68; x65; x5f; x77; x72; x69; x74; x65].

Section selection.
Context `{SolPoseidon} `{SolHash}.

Definition bind_cache_write (external_data_hash : bytes) (destination : option (bytes * list CacheWriteEntry))
    : res HasherError bytes :=
  match destination with
  | Some (address, write_slots) =>
      let pairs := concat (map (fun e => [byte_of (cw_output e); byte_of (cw_slot e)]) write_slots) in
      let writes := take (2 * MAX_CACHE_WRITES) (pairs ++ replicate (2 * MAX_CACHE_WRITES) x00) in
      Sha256BE.hashv [cache_write_domain; external_data_hash; address; writes]
  | None => Ok external_data_hash
  end.

Definition empty_cached_input_fields (input_count : nat) : res HasherError (bytes * bytes) :=
  let groups := Z.to_nat (div_ceil (Z.of_nat (input_count - 1)) 3) in
  let? chain := ok_or (ZERO_SUFFIX_CHAINS !! groups)
    (InvalidInputLength (Z.of_nat ZERO_SUFFIX_GROUPS) (Z.of_nat groups)) in
  Ok (EMPTY_SLOT, chain).

(** The slots the bitmap selects, in slot order. *)
Definition selected_slots (read_bitmap : Z) (slots : list bytes) : list bytes :=
  map snd (filter (fun '(i, _) => Z.testbit read_bitmap (Z.of_nat i) = true) (imap pair slots)).

Definition cached_input_fields (read_bitmap tree_id : Z) (slots : list bytes) (input_count : nat)
    : res HasherError (bytes * bytes) :=
  if read_bitmap =? 0 then empty_cached_input_fields input_count else
  let read_count := count_ones read_bitmap in
  check negb (negb (Z.shiftr read_bitmap (Z.of_nat CACHE_CAPACITY) =? 0) || (input_count <? read_count)%nat)
    else InvalidInputLength (Z.of_nat input_count) (Z.of_nat read_count) in
  let? chain := create_padded_right_hash_chain_4 (selected_slots read_bitmap slots) input_count in
  Ok (tree_id_field tree_id, chain).

End selection.

(** ** Layout laws *)

#[export] Instance config_lawful : Lawful config_codec.
Proof. apply iso_lawful; [apply _|by intros (?&?&?&?&?&?&?&?&?&?)|by intros []]. Qed.

#[export] Instance ring_lawful : Lawful ring_codec.
Proof. apply iso_lawful; [apply _|by intros (?&?&?&?&?&?&?)|by intros []]. Qed.

#[export] Instance counter_lawful : Lawful counter_codec.
Proof. apply iso_lawful; [apply _|by intros (?&?&?)|by intros []]. Qed.

#[export] Instance registry_lawful : Lawful registry_codec.
Proof. apply iso_lawful; [apply _|by intros (?&?&?&?)|by intros []]. Qed.

#[export] Instance cache_lawful : Lawful cache_codec.
Proof. apply iso_lawful; [apply _|by intros (?&?&?&?&?&?&?)|by intros []]. Qed.

Lemma try_from_bytes_enc {A} (c : Codec A) `{!Lawful c} a : valid c a -> try_from_bytes c (enc c a) = Some a.
Proof. intros Ha. unfold try_from_bytes. by rewrite enc_size, Nat.eqb_refl, dec_enc. Qed.

Lemma try_from_bytes_Some {A} (c : Codec A) `{!Lawful c} d a :
  try_from_bytes c d = Some a -> length d = csize c /\ a = dec c d /\ valid c a.
Proof.
  unfold try_from_bytes. destruct (Nat.eqb_spec (length d) (csize c)); [|done]. intros [= <-].
  split_and!; [done..|]. by apply dec_valid.
Qed.

(** ** Theorems *)

Lemma length_to_account_data r : length (to_account_data r) = NULLIFIER_PDA_SIZE.
Proof. unfold to_account_data. by rewrite !length_app, !length_le_bytes. Qed.

(** The nullifier PDA record round trips: reading accepts exactly the bytes that
    writing produces for a [u64] index and a [u16] tree id, and returns them. *)
Lemma nullifier_pda_roundtrip (d : bytes) (r : NullifierPda) :
  read_from d = Some r <-> is_u64 (queue_index r) /\ is_u16 (pda_tree_id r) /\ d = to_account_data r.
Proof.
  unfold read_from, in_width. destruct r as [i t]. cbn [queue_index pda_tree_id]. split.
  - destruct (Nat.eqb_spec (length d) NULLIFIER_PDA_SIZE) as [Hl|]; [|done]. destruct d as [|b d]; [done|].
    case_bool_decide as Hb; [|done]. intros [= <- <-]. injection Hl as Hl.
    pose proof (le_val_bound (take 8 d)) as H8. pose proof (le_val_bound (drop 8 d)) as H2.
    rewrite length_take, Hl in H8. rewrite length_drop, Hl in H2.
    split; [exact H8|]. split; [exact H2|].
    unfold to_account_data. cbn [queue_index pda_tree_id app]. f_equal; [done|].
    rewrite <- (take_drop 8 d) at 1. f_equal; symmetry.
    + replace 8%nat with (length (take 8 d)) at 1 by (rewrite length_take; lia). apply le_bytes_le_val.
    + replace 2%nat with (length (drop 8 d)) at 1 by (rewrite length_drop; lia). apply le_bytes_le_val.
  - intros (Hi & Ht & ->). rewrite length_to_account_data, Nat.eqb_refl. unfold to_account_data.
    cbn [app queue_index pda_tree_id]. rewrite bool_decide_true by done.
    rewrite take_app_length', drop_app_length' by (by rewrite length_le_bytes).
    by rewrite !le_val_le_bytes.
Qed.

(** The liquid working capital: it is what the open PDAs leave to fund of three
    batches of PDA rent, so together with the rent the open PDAs hold it always
    covers the whole working capital, and only a [u64] overflow makes it
    unavailable. *)
Theorem working_capital_bounds (batch live rent : Z) : is_u64 batch -> is_u64 live -> is_u64 rent ->
  match tree_liquid_working_capital_lamports batch live rent with
  | Some c => 0 <= c < 2 ^ 64 /\ c = Z.max 0 (3 * batch - live) * rent /\ 3 * batch * rent <= c + live * rent
  | None => 2 ^ 64 <= 3 * batch \/ 2 ^ 64 <= Z.max 0 (3 * batch - live) * rent
  end.
Proof.
  unfold in_width, tree_liquid_working_capital_lamports, NUM_BATCHES. intros Hb Hl Hr. cbn [checked_add mbind option_bind].
  change (checked_add 64 2 1) with (Some 3). cbn [mbind option_bind]. unfold checked_mul at 2.
  destruct (Z.ltb_spec (3 * batch) (2 ^ 64)); cbn [mbind option_bind]; [|by left].
  unfold checked_mul, saturating_sub. destruct (Z.ltb_spec (Z.max 0 (3 * batch - live) * rent) (2 ^ 64)); [|by right].
  split_and!; nia.
Qed.

Lemma working_capital_bounds_witness :
  match tree_liquid_working_capital_lamports 1000 7 967440 with
  | Some c => 0 <= c < 2 ^ 64 /\ c = Z.max 0 (3 * 1000 - 7) * 967440 /\ 3 * 1000 * 967440 <= c + 7 * 967440
  | None => 2 ^ 64 <= 3 * 1000 \/ 2 ^ 64 <= Z.max 0 (3 * 1000 - 7) * 967440
  end.
Proof. apply (working_capital_bounds 1000 7 967440); split; lia. Defined.

(** The compile-time assertions on the account layouts: sizes and offsets. *)
Lemma state_layouts_pinned :
  csize config_codec = 166%nat /\ csize ring_codec = 69%nat /\ csize counter_codec = 16%nat /\
  csize registry_codec = 48%nat /\ csize cache_codec = 1228%nat /\
  forall c, valid config_codec c ->
    slice 129 32 (enc config_codec c) = fee_authority c /\ slice 164 2 (enc config_codec c) = le_bytes 2 (next_tree_id c).
Proof.
  do 5 (split; [reflexivity|]). intros c Hc. unfold config_codec, iso in *. cbn [enc valid] in *. split.
  - change 129%nat with (csize u8 + (csize (raw 32) + (csize (raw 32) + (csize (raw 32) + (csize (raw 32) + 0)))))%nat.
    do 5 skip_field Hc. by rewrite (slice_first (raw 32)) by (exact _ || exact Hc).
  - change 164%nat with (csize u8 + (csize (raw 32) + (csize (raw 32) + (csize (raw 32) + (csize (raw 32) + (csize (raw 32)
      + (csize u8 + (csize u8 + (csize u8 + 0)))))))))%nat.
    do 9 skip_field Hc. destruct c. unfold slice. cbn [snd enc uint u16]. rewrite drop_0. apply take_ge. by rewrite length_le_bytes.
Qed.

(** *** Asset ids *)

Fixpoint allocate_ids (n : nat) : M SplAssetCounter InterfaceError (list Z) :=
  match n with
  | O => mret []
  | S n' => do! id <- allocate_id; do! ids <- allocate_ids n'; mret (id :: ids)
  end.

Lemma allocate_id_spec c : allocate_id c =
  if decide (FIRST_ASSET_ID <= sc_next_id c) then
    if decide (sc_next_id c + 1 < 2 ^ 64) then (Ok (sc_next_id c), mkCounter (sc_discriminator c) (sc_reserved c) (sc_next_id c + 1))
    else (Err IfInvalidDiscriminator, c)
  else (Err IfInvalidDiscriminator, c).
Proof.
  unfold allocate_id, mbindM, mget, mlift, mthrow. cbn [mmodify mret].
  destruct (Z.ltb_spec (sc_next_id c) FIRST_ASSET_ID); [by rewrite decide_False by lia|].
  rewrite decide_True by lia. cbn [negb]. unfold checked_add. destruct (Z.ltb_spec (sc_next_id c + 1) (2 ^ 64)); cbn [ok_or].
  - by rewrite decide_True by lia.
  - by rewrite decide_False by lia.
Qed.

Lemma allocate_ids_spec n c : FIRST_ASSET_ID <= sc_next_id c -> sc_next_id c + Z.of_nat n < 2 ^ 64 ->
  allocate_ids n c = (Ok (map (fun i => sc_next_id c + Z.of_nat i) (seq 0 n)),
    mkCounter (sc_discriminator c) (sc_reserved c) (sc_next_id c + Z.of_nat n)).
Proof.
  revert c. induction n as [|n IH]; intros c Hlo Hhi; cbn [allocate_ids].
  - cbn. rewrite Z.add_0_r. by destruct c.
  - unfold mbindM, mret. rewrite allocate_id_spec, !decide_True by lia. rewrite IH by (cbn; lia). cbn [ sc_next_id sc_discriminator sc_reserved].
    cbn [seq map]. rewrite Z.add_0_r, <- seq_shift, map_map. f_equal; [|f_equal; lia]. do 2 f_equal.
    apply map_ext. intros i. lia.
Qed.

(** Asset registration: initialisation starts the ids at 2 and cannot be
    repeated, and any number of registrations hands out consecutive ids, so no
    id is assigned twice, until the [u64] range ends, when allocation fails and
    leaves the counter as it was. *)
Theorem asset_ids_unique (c c' : SplAssetCounter) (n : nat) : sc_init c = (Ok tt, c') -> Z.of_nat n < 2 ^ 64 - 2 ->
  sc_init c' = (Err IfAlreadyInitialized, c') /\
  exists c'' ids, allocate_ids n c' = (Ok ids, c'') /\ length ids = n /\ NoDup ids /\
    Forall (fun id => FIRST_ASSET_ID <= id < sc_next_id c'') ids /\
    (sc_next_id c'' = 2 ^ 64 - 1 -> allocate_id c'' = (Err IfInvalidDiscriminator, c'')).
Proof.
  unfold sc_init at 1, mbindM, mget, mthrow, mmodify. destruct (sc_discriminator c =? 0); [|done].
  intros [= <-] Hn. split; [reflexivity|]. rewrite allocate_ids_spec by (cbn; unfold FIRST_ASSET_ID; lia).
  eexists _, _. split; [reflexivity|]. cbn [sc_next_id]. split_and!.
  - by rewrite length_map, length_seq.
  - apply (NoDup_fmap_2_strong (fun i => 2 + Z.of_nat i)), NoDup_seq. intros i j _ _. lia.
  - apply Forall_map, Forall_forall. intros i [_ Hi]%elem_of_seq. cbn. lia.
  - intros Hmax. rewrite allocate_id_spec. cbn [sc_next_id]. rewrite Hmax, decide_True by (unfold FIRST_ASSET_ID; lia).
    by rewrite decide_False by lia.
Qed.

Lemma asset_ids_unique_witness :
  let c := mkCounter 0 (replicate 7 x00) 0 in let c' := (sc_init c).2 in
  sc_init c' = (Err IfAlreadyInitialized, c') /\
  exists c'' ids, allocate_ids 3 c' = (Ok ids, c'') /\ length ids = 3%nat /\ NoDup ids /\
    Forall (fun id => FIRST_ASSET_ID <= id < sc_next_id c'') ids /\
    (sc_next_id c'' = 2 ^ 64 - 1 -> allocate_id c'' = (Err IfInvalidDiscriminator, c'')).
Proof. apply (asset_ids_unique (mkCounter 0 (replicate 7 x00) 0) _ 3); [reflexivity|lia]. Defined.
