(* ===== verification/Event.v ===== *)
(** * Instruction tags and events

    src/program-libs/event: the first byte of an instruction, and the events the
    program logs through its self-invocation, encoded as [EMIT_EVENT], the kind
    and the borsh bytes of the body. *)

From S2P Require Import Prelude NullifierTree.

(** ** tag.rs *)

Inductive InstructionTag : Set :=
| CreateProtocolConfig
| UpdateProtocolConfig
| CreateTree
| PauseTree
| SetTreeFees
| ClaimTreeLamports
| CreateAssetCounter
| CreateSplInterface
| CreateRingConfig
| UpdateRingConfig
| UpdateRingConfigOwner
| SetRingActivation
| BatchUpdateNullifierTree
| CloseNullifierPdas
| EmitEvent
| Deposit
| Transact
| MergeTransact
| RingDeposit
| RingTransact
| RingMergeTransact
| RingAuthorityTransact
| CreateCache
| CloseCache.

(** In the order of their bytes. *)
Definition all_tags : list InstructionTag :=
  [CreateProtocolConfig; UpdateProtocolConfig; CreateTree; PauseTree; SetTreeFees; ClaimTreeLamports;
   CreateAssetCounter; CreateSplInterface; CreateRingConfig; UpdateRingConfig; UpdateRingConfigOwner;
   SetRingActivation; BatchUpdateNullifierTree; CloseNullifierPdas; EmitEvent; Deposit; Transact; MergeTransact;
   RingDeposit; RingTransact; RingMergeTransact; RingAuthorityTransact; CreateCache; CloseCache].

(** [tag as u8] *)
Definition tag_byte (t : InstructionTag) : Z :=
  match t with
  | CreateProtocolConfig => 0
  | UpdateProtocolConfig => 1
  | CreateTree => 2
  | PauseTree => 3
  | SetTreeFees => 4
  | ClaimTreeLamports => 5
  | CreateAssetCounter => 6
  | CreateSplInterface => 7
  | CreateRingConfig => 8
  | UpdateRingConfig => 9
  | UpdateRingConfigOwner => 10
  | SetRingActivation => 11
  | BatchUpdateNullifierTree => 12
  | CloseNullifierPdas => 13
  | EmitEvent => 14
  | Deposit => 15
  | Transact => 16
  | MergeTransact => 17
  | RingDeposit => 18
  | RingTransact => 19
  | RingMergeTransact => 20
  | RingAuthorityTransact => 21
  | CreateCache => 22
  | CloseCache => 23
  end.

(** [InstructionTag::try_from]: the tag with that byte. *)
Definition tag_try_from (byte : Z) : option InstructionTag :=
  List.find (fun t => tag_byte t =? byte) all_tags.

Lemma tag_roundtrip byte t : tag_try_from byte = Some t <-> byte = tag_byte t.
Proof.
  unfold tag_try_from. split.
  - intros [_ H]%List.find_some. by apply Z.eqb_eq in H.
  - intros ->. by destruct t.
Qed.

(** ** lib.rs *)

Record InputTreeSequence : Type := mkInputTreeSequence {
  seq_tree : bytes;
  first_input_queue_seq : Z;
}.

Record TransactEvent : Type := mkTransactEvent {
  te_input_trees : list InputTreeSequence;
  te_output_tree : bytes;
  te_first_output_leaf_index : Z;
}.

Record MergeEvent : Type := mkMergeEvent {
  me_input_trees : list InputTreeSequence;
  me_output_tree : bytes;
  me_output_leaf_index : Z;
  me_output_view_tag : bytes;
}.

Inductive EventKind : Set :=
| KindDeposit
| KindTransact
| KindMerge
| KindNullifierTreeUpdate.

(** [kind as u8] and [EventKind::from_byte]. *)
Definition kind_byte (k : EventKind) : Z :=
  match k with
  | KindDeposit => 1
  | KindTransact => 2
  | KindMerge => 3
  | KindNullifierTreeUpdate => 4
  end.

Definition kind_from_byte (byte : Z) : option EventKind :=
  match byte with
  | 1 => Some KindDeposit
  | 2 => Some KindTransact
  | 3 => Some KindMerge
  | 4 => Some KindNullifierTreeUpdate
  | _ => None
  end.

Lemma kind_roundtrip byte k : kind_from_byte byte = Some k <-> byte = kind_byte k.
Proof.
  split; [|intros ->; by destruct k]. unfold kind_from_byte. intros Hk. repeat case_match; by simplify_eq.
Qed.

(** Borsh: little-endian integers, a [u32] length before a vector. *)
Class Borsh (A : Type) : Type := borsh : A -> bytes.

Definition borsh_vec {A} `{Borsh A} (l : list A) : bytes := le_bytes 4 (Z.of_nat (length l)) ++ concat (map borsh l).

#[export] Instance borsh_input_tree : Borsh InputTreeSequence := fun s =>
  seq_tree s ++ le_bytes 8 (first_input_queue_seq s).

#[export] Instance borsh_transact : Borsh TransactEvent := fun e =>
  borsh_vec (te_input_trees e) ++ te_output_tree e ++ le_bytes 8 (te_first_output_leaf_index e).

#[export] Instance borsh_merge : Borsh MergeEvent := fun e =>
  borsh_vec (me_input_trees e) ++ me_output_tree e ++ le_bytes 8 (me_output_leaf_index e) ++ me_output_view_tag e.

#[export] Instance borsh_update : Borsh NullifierTreeUpdateEvent := fun e =>
  ev_merkle_tree_pubkey e ++ le_bytes 2 (ev_zkp_batch_size e) ++ le_bytes 8 (ev_old_next_index e) ++
  le_bytes 8 (start_sequence_number e) ++ le_bytes 4 (first_root_index e) ++ le_bytes 4 (num_update e) ++
  le_bytes 4 (first_zkp_batch_index e) ++ ev_new_root e.

(** ** lib.rs: the general event of a deposit *)

Record OutputUtxo : Type := mkOutputUtxo {
  ou_view_tag : bytes;
  ou_utxo_hash : bytes;
  ou_data : bytes;
}.

Record MessageData : Type := mkMessage {
  md_view_tag : bytes;
  md_data : bytes;
}.

Record Input : Type := mkInput {
  in_tree : bytes;
  in_input_queue_seq : Z;
  in_nullifier : bytes;
}.

Record SplTransfer : Type := mkSplTransfer {
  st_is_deposit : bool;
  st_amount : Z;
  st_asset : option bytes;
}.

Record GeneralEvent : Type := mkGeneralEvent {
  ge_inputs : list Input;
  ge_outputs : list OutputUtxo;
  ge_messages : list MessageData;
  ge_tx_viewing_pk : bytes;
  ge_salt : bytes;
  ge_first_output_leaf_index : Z;
  ge_output_tree : bytes;
  ge_spl_transfers : list SplTransfer;
}.

(** A byte vector, an option and a [bool] in borsh. *)
Definition borsh_bytes (bs : bytes) : bytes := le_bytes 4 (Z.of_nat (length bs)) ++ bs.
Definition borsh_option (f : bytes -> bytes) (o : option bytes) : bytes :=
  match o with Some bs => x01 :: f bs | None => [x00] end.
Definition borsh_array : bytes -> bytes := id.
Definition borsh_bool (b : bool) : bytes := [if b then x01 else x00].

#[export] Instance borsh_output_utxo : Borsh OutputUtxo := fun o =>
  ou_view_tag o ++ ou_utxo_hash o ++ borsh_bytes (ou_data o).

#[export] Instance borsh_message : Borsh MessageData := fun m => md_view_tag m ++ borsh_bytes (md_data m).

#[export] Instance borsh_input : Borsh Input := fun i => in_tree i ++ le_bytes 8 (in_input_queue_seq i) ++ in_nullifier i.

#[export] Instance borsh_spl_transfer : Borsh SplTransfer := fun t =>
  borsh_bool (st_is_deposit t) ++ le_bytes 8 (st_amount t) ++ borsh_option borsh_array (st_asset t).

#[export] Instance borsh_general : Borsh GeneralEvent := fun e =>
  borsh_vec (ge_inputs e) ++ borsh_vec (ge_outputs e) ++ borsh_vec (ge_messages e) ++ ge_tx_viewing_pk e ++ ge_salt e ++
  le_bytes 8 (ge_first_output_leaf_index e) ++ ge_output_tree e ++ borsh_vec (ge_spl_transfers e).

(** ** proofless.rs *)

Record ProoflessOutput : Type := mkProofless {
  po_owner : bytes;
  po_blinding : bytes;
  po_asset : bytes;
  po_amount : Z;
  po_data_hash : option bytes;
  po_utxo_data : option bytes;
  po_ring_program_id : option bytes;
  po_ring_data_hash : option bytes;
  po_ring_data : option bytes;
  po_memo : option bytes;
}.

#[export] Instance borsh_proofless : Borsh ProoflessOutput := fun o =>
  po_owner o ++ po_blinding o ++ po_asset o ++ le_bytes 8 (po_amount o) ++ borsh_option borsh_array (po_data_hash o) ++
  borsh_option borsh_bytes (po_utxo_data o) ++ borsh_option borsh_array (po_ring_program_id o) ++
  borsh_option borsh_array (po_ring_data_hash o) ++ borsh_option borsh_bytes (po_ring_data o) ++
  borsh_option borsh_bytes (po_memo o).

Record EncryptedRingDepositData : Type := mkEncryptedRing {
  er_tx_viewing_pk : bytes;
  er_salt : bytes;
  er_ciphertext : bytes;
}.

#[export] Instance borsh_encrypted_ring : Borsh EncryptedRingDepositData := fun d =>
  er_tx_viewing_pk d ++ er_salt d ++ borsh_bytes (er_ciphertext d).

Record EncryptedRingDepositOutput : Type := mkEncryptedRingOutput {
  eo_owner_utxo_hash : bytes;
  eo_asset : bytes;
  eo_amount : Z;
  eo_data_hash : option bytes;
  eo_ring_program_id : bytes;
  eo_ring_data_hash : bytes;
  eo_encrypted : EncryptedRingDepositData;
}.

#[export] Instance borsh_encrypted_ring_output : Borsh EncryptedRingDepositOutput := fun o =>
  eo_owner_utxo_hash o ++ eo_asset o ++ le_bytes 8 (eo_amount o) ++ borsh_option borsh_array (eo_data_hash o) ++
  eo_ring_program_id o ++ eo_ring_data_hash o ++ borsh (eo_encrypted o).

Inductive OutputDataEncoding : Type :=
| Plaintext (bs : bytes)
| Encrypted (bs : bytes)
| VerifiablyEncrypted (bs : bytes).

#[export] Instance borsh_encoding : Borsh OutputDataEncoding := fun e =>
  match e with
  | Plaintext bs => x00 :: borsh_bytes bs
  | Encrypted bs => x01 :: borsh_bytes bs
  | VerifiablyEncrypted bs => x02 :: borsh_bytes bs
  end.

Definition PLAINTEXT_TAG : Z := 0.
Definition ENCRYPTED_TAG : Z := 1.
Definition PLAINTEXT_SCHEME : Z := 0.
Definition ENCRYPTED_RING_DEPOSIT_SCHEME : Z := 8.
Definition CONFIDENTIAL_ENCRYPTED_SCHEME_TAG : Z := 3.
Definition RING_CONFIDENTIAL_ENCRYPTED_SCHEME_TAG : Z := 4.

Definition encrypted_output_body (data : bytes) (scheme : Z) : option bytes :=
  match data with
  | [] => None
  | encoding_tag :: rest =>
      if negb (byte_val encoding_tag =? ENCRYPTED_TAG) then None else
      if (length rest <? 4)%nat then None else
      let body_len := le_val (take 4 rest) in
      match drop 4 rest with
      | [] => None
      | scheme_byte :: payload =>
          if (body_len =? Z.of_nat (S (length payload))) && (byte_val scheme_byte =? scheme) then Some payload else None
      end
  end.

Definition confidential_encrypted_output_body (data : bytes) : option bytes :=
  encrypted_output_body data CONFIDENTIAL_ENCRYPTED_SCHEME_TAG.
Definition ring_confidential_encrypted_output_body (data : bytes) : option bytes :=
  encrypted_output_body data RING_CONFIDENTIAL_ENCRYPTED_SCHEME_TAG.
Definition is_confidential_encrypted_output (data : bytes) : bool :=
  match confidential_encrypted_output_body data with Some _ => true | None => false end.

(** The body's length is patched in after the body; a length past [u32] panics. *)
Definition encode_tagged_body {E} (encoding_tag scheme : Z) (body : bytes) : res E bytes :=
  let out := byte_of scheme :: body in
  if Z.of_nat (length out) <? 2 ^ 32 then Ok (byte_of encoding_tag :: le_bytes 4 (Z.of_nat (length out)) ++ out) else Panic.

Definition encode_output_data {E} (data : ProoflessOutput) : res E bytes :=
  encode_tagged_body PLAINTEXT_TAG PLAINTEXT_SCHEME (borsh data).

Definition encode_encrypted_ring_deposit_output {E} (data : EncryptedRingDepositOutput) : res E bytes :=
  encode_tagged_body ENCRYPTED_TAG ENCRYPTED_RING_DEPOSIT_SCHEME (borsh data).

(** ** merge_output.rs *)

Definition MERGE_OUTPUT_SCHEME : Z := 6.
Definition MERGE_OUTPUT_SALT_LEN : nat := 16.
Definition MERGE_OUTPUT_CIPHERTEXT_LEN : nat := 96.
Definition MERGE_OUTPUT_BODY_LEN : nat := MERGE_OUTPUT_SALT_LEN + MERGE_OUTPUT_CIPHERTEXT_LEN.

Record MergeOutputDataRef : Type := mkMergeOutput {
  mo_salt : bytes;
  mo_ciphertext : list bytes;
  mo_prefix : list bytes;
}.

Definition encode_merge_output_data (data : MergeOutputDataRef) : bytes :=
  let blob := [byte_of MERGE_OUTPUT_SCHEME] ++ concat (mo_prefix data) ++ mo_salt data ++ concat (mo_ciphertext data) in
  borsh (if negb (bool_decide (mo_prefix data = [])) then Encrypted blob else VerifiablyEncrypted blob).

Definition split_merge_output_body (body : bytes) : option (option bytes * bytes) :=
  if (length body =? MERGE_OUTPUT_BODY_LEN)%nat then Some (None, body)
  else if (length body =? 32 + MERGE_OUTPUT_BODY_LEN)%nat then Some (Some (take 32 body), drop 32 body)
  else None.

Definition encode_event_instruction {A} `{Borsh A} (kind : EventKind) (body : A) : bytes :=
  [byte_of (tag_byte EmitEvent); byte_of (kind_byte kind)] ++ borsh body.

(** ** Bodies of encrypted outputs *)

(** Exactly the encodings written with the encrypted tag and a scheme are
    recognised under that scheme, with their payload: decoding inverts encoding
    and nothing else is accepted. *)
Theorem encrypted_body_roundtrip data scheme payload : 0 <= scheme < 256 ->
  encrypted_output_body data scheme = Some payload <->
  encode_tagged_body (E := unit) ENCRYPTED_TAG scheme payload = Ok data.
Proof.
  intros Hs. unfold encrypted_output_body, encode_tagged_body. cbn [length]. split.
  - destruct data as [|t rest]; [done|]. destruct (Z.eqb_spec (byte_val t) ENCRYPTED_TAG) as [Ht|]; [|done]. cbn [negb].
    destruct (Nat.ltb_spec (length rest) 4) as [|Hl]; [done|]. destruct (drop 4 rest) as [|b p] eqn:Hd; [done|].
    destruct (_ && _) eqn:Hb; [|done]. intros [= ->]. breflect. rename H into Hlen.
    assert (Hlt : length (take 4 rest) = 4%nat) by (rewrite length_take; lia).
    pose proof (le_val_bound (take 4 rest)) as Hr. rewrite Hlt, Hlen in Hr.
    rewrite (proj2 (Z.ltb_lt _ _)) by exact (proj2 Hr). do 2 f_equal.
    + rewrite <- (byte_of_val t). by rewrite Ht.
    + rewrite <- (take_drop 4 rest), Hd, <- Hlen. f_equal; [|by rewrite <- H0, byte_of_val].
      rewrite <- Hlt at 1. apply le_bytes_le_val.
  - destruct (Z.ltb_spec (Z.of_nat (S (length payload))) (2 ^ 32)) as [Hl|]; [|done]. intros Hd.
    apply (f_equal (fun r => match r with Ok d => d | _ => [] end)) in Hd as <-. cbn beta iota.
    rewrite byte_val_of, Z.eqb_refl. cbn [negb]. rewrite length_app, length_le_bytes, take_app_length', drop_app_length'
      by (by rewrite length_le_bytes). cbn [Nat.ltb Nat.leb Nat.add]. rewrite le_val_le_bytes, byte_val_of by (cbn; lia).
    rewrite Z.mod_small, !Z.eqb_refl by done. done.
Qed.

Lemma encrypted_body_roundtrip_witness :
  encrypted_output_body (byte_of 1 :: le_bytes 4 3 ++ [byte_of 3; x2a; x2b]) CONFIDENTIAL_ENCRYPTED_SCHEME_TAG =
    Some [x2a; x2b].
Proof.
  apply (encrypted_body_roundtrip _ CONFIDENTIAL_ENCRYPTED_SCHEME_TAG [x2a; x2b]); [done|]. vm_compute. reflexivity.
Defined.

(** The body of a published merge output splits back into the ring data hash, if
    it has one, and the salt with the ciphertext. *)
Lemma merge_output_body_split data (ring_data_hash : option bytes) :
  length (mo_salt data) = MERGE_OUTPUT_SALT_LEN -> length (concat (mo_ciphertext data)) = MERGE_OUTPUT_CIPHERTEXT_LEN ->
  mo_prefix data = option_list ring_data_hash -> (forall h, ring_data_hash = Some h -> length h = 32%nat) ->
  exists tag len body, encode_merge_output_data data = tag :: len ++ [byte_of MERGE_OUTPUT_SCHEME] ++ body /\
    length len = 4%nat /\
    split_merge_output_body body = Some (ring_data_hash, mo_salt data ++ concat (mo_ciphertext data)).
Proof.
  intros Hs Hc Hp Hh. unfold encode_merge_output_data, split_merge_output_body. rewrite Hp.
  destruct ring_data_hash as [h|]; cbn [option_list concat].
  - specialize (Hh h eq_refl). rewrite bool_decide_false by done. cbn [negb borsh borsh_encoding].
    eexists _, _, _. split; [reflexivity|]. split; [apply length_le_bytes|].
    replace (concat (option_list (Some h))) with h by (symmetry; apply app_nil_r).
    rewrite !length_app, Hh, Hs, Hc. cbn.
    by rewrite take_app_length', drop_app_length' by done.
  - rewrite bool_decide_true by done. cbn [negb borsh borsh_encoding]. eexists _, _, _. split; [reflexivity|].
    split; [apply length_le_bytes|]. cbn [app]. by rewrite !length_app, Hs, Hc.
Qed.
