(* ===== verification/Shared.v ===== *)
(** * Shared helpers of the instruction handlers

    src/programs/shielded-pool/src/instructions/shared.rs, event.rs and
    protocol_config/loader.rs: error mapping, field-element checks, typed config
    accounts, reimbursements, expiry, derived accounts, the authority checks and
    the event emission.  Logging of causes has no effect and is left out. *)

From S2P Require Import Prelude ZeroBytes Hasher HashChain Codec Smt Batch NullifierTree TreeAccount Errors TreeSlot Ledger AccountChecks State Event.

(** ** Error mapping *)

Definition tree_error (e : TreeError) : ProgramError :=
  match e with
  | Paused => pool TreePaused
  | InvalidRootIndex => pool StaleNullifierRoot
  | TreeIsFull => pool StateAppendFailed
  | FeeOverflow => pool InvalidForesterFee
  | FeeTooHigh => pool TreeFeeTooHigh
  | _ => pool InvalidTreeAccounts
  end.

Definition nullifier_tree_error (e : NullifierTreeError) : ProgramError :=
  match e with
  | NonCanonicalFieldElement => pool NonCanonicalRoot
  | _ => pool NullifierTreeUpdateFailed
  end.

(** [.map_err(caused_by(e))], [.ok_or(e)?]. *)
Definition caused_by {E} (e : ProgramError) (_ : E) : ProgramError := e.

(** ** Field elements *)

Definition bool_field (value : bool) : bytes := replicate 31 x00 ++ [if value then x01 else x00].

Definition check_field_element (value : bytes) (e : ShieldedPoolError) : res ProgramError unit :=
  check is_canonical_bn254_scalar_be value else pool e in Ok tt.

Fixpoint check_field_elements (values : list bytes) (e : ShieldedPoolError) : res ProgramError unit :=
  match values with
  | [] => Ok tt
  | value :: values' => let? _ := check_field_element value e in check_field_elements values' e
  end.

Definition check_nonzero_field_elements (values : list bytes) (e : ShieldedPoolError) : res ProgramError unit :=
  check negb (existsb (fun value => bool_decide (value = zero32)) values) else pool e in Ok tt.

(** ** Typed config accounts *)

Definition validate_config {A} (c : Codec A) (has_valid_discriminator : A -> bool) (data : bytes)
    (e : ShieldedPoolError) : res ProgramError unit :=
  let? config := ok_or (try_from_bytes c data) (pool e) in
  check has_valid_discriminator config else pool e in Ok tt.

Definition load_config {A} (c : Codec A) (has_valid_discriminator : A -> bool) (e : ShieldedPoolError) (v : View)
    : Ix A :=
  do! a <- account v;
  require negb (negb (owned_by a ID)) else pool e;
  exec! mlift (validate_config c has_valid_discriminator (acct_data a) e);
  mret (dec c (acct_data a)).

Definition load_config_mut {A} (c : Codec A) (has_valid_discriminator : A -> bool) (e : ShieldedPoolError) (v : View)
    : Ix A :=
  do! a <- account v;
  require negb (negb (vwritable v) || negb (owned_by a ID)) else pool e;
  exec! mlift (validate_config c has_valid_discriminator (acct_data a) e);
  mret (dec c (acct_data a)).

(** Writing through the mutable reference of [load_config_mut]. *)
Definition store_config {A} (c : Codec A) (v : View) (config : A) : Ix unit := set_data v (enc c config).

(** The [init] of a freshly created config account: only zeroed data of the exact
    size is written. *)
Definition init_config {A} (c : Codec A) (e : ShieldedPoolError) (v : View) (config : A) : Ix unit :=
  do! data <- get_data v;
  require negb (negb (length data =? csize c)%nat || existsb (fun b => negb (bool_decide (b = x00))) data) else pool e;
  set_data v (enc c config).

(** ** Reimbursements *)

Definition check_reimbursement_recipient (v : View) : Ix unit :=
  do! a <- account v;
  require negb (owned_by a ID) else pool InvalidReimbursementRecipient;
  mret tt.

Definition pay_reimbursement_with_rent_minimum (tree recipient : View) (paid minimum : Z) : Ix unit :=
  do! tree_lamports <- get_lamports tree;
  do! remaining <- mlift (ok_or (remaining ← checked_sub tree_lamports paid;
                                 if minimum <=? remaining then Some remaining else None)
                            (pool InsufficientForesterFeeBalance));
  do! recipient_lamports <- get_lamports recipient;
  do! recipient_balance <- mlift (ok_or (checked_add 64 recipient_lamports paid) (pool InvalidForesterFee));
  exec! set_lamports tree remaining;
  set_lamports recipient recipient_balance.

Definition pay_reimbursement (tree recipient : View) (paid : Z) : Ix unit :=
  if paid =? 0 then mret tt else
  do! len <- data_len tree;
  do! minimum <- rent_minimum len;
  pay_reimbursement_with_rent_minimum tree recipient paid minimum.

(** ** Expiry *)

Definition check_not_expired (expiry_unix_ts : Z) (c : Clock) : res ProgramError unit :=
  check negb ((unix_timestamp c <? 0) || (expiry_unix_ts <? unix_timestamp c)) else pool ExpiredTransaction in Ok tt.

(** ** Derived accounts *)

Section derived.
Context `{R : Runtime}.

Definition verify_pda (account_key : bytes) (seeds : list bytes) (program_id : bytes) : res ProgramError Z :=
  let? '(derived, bump) := ok_or (derive_program_address seeds program_id) (pool InvalidPda) in
  check negb (negb (bool_decide (account_key = derived))) else pool InvalidPda in
  Ok bump.

(** [CreatePdaAccount::execute]: one to three seeds, then the bump. *)
Definition create_pda_account (fee_payer new_account : View) (space : Z) (owner : bytes) (signer_seeds : list bytes)
    (bump : Z) : Ix unit :=
  require (1 <=? length signer_seeds)%nat && (length signer_seeds <=? 3)%nat else PeInvalidArgument;
  create_with_minimum_balance new_account space owner fee_payer (signer_seeds ++ [[byte_of bump]]).

End derived.

(** ** protocol_config/loader.rs *)

Definition valid_config_discriminator (c : ProtocolConfig) : bool :=
  match pc_check_discriminator c with Ok _ => true | _ => false end.

Definition load_protocol_config : View -> Ix ProtocolConfig :=
  load_config config_codec valid_config_discriminator InvalidProtocolConfig.

Definition load_protocol_config_mut : View -> Ix ProtocolConfig :=
  load_config_mut config_codec valid_config_discriminator InvalidProtocolConfig.

Definition of_interface (e : InterfaceError) : ProgramError := pool (of_interface_error e).

Definition load_and_validate_protocol_authority (config_account authority : View) : Ix ProtocolConfig :=
  require negb (negb (vsigner authority)) else pool InvalidProtocolConfig;
  do! config <- load_protocol_config config_account;
  exec! mlift (map_err of_interface (check_protocol_authority config (vaddr authority)));
  mret config.

Definition load_and_validate_fee_authority (config_account authority : View) : Ix ProtocolConfig :=
  require negb (negb (vsigner authority)) else pool InvalidProtocolConfig;
  do! config <- load_protocol_config config_account;
  exec! mlift (map_err of_interface (check_fee_authority config (vaddr authority)));
  mret config.

Definition validate_forester_authority (config_account authority : View) : Ix unit :=
  do! config <- load_protocol_config config_account;
  mlift (map_err of_interface (check_forester_authority config (vaddr authority))).

Definition validate_ring_creation_authority (config_account authority : View) : Ix unit :=
  do! config <- load_protocol_config config_account;
  mlift (map_err of_interface (check_ring_creation_authority config (vaddr authority))).

Definition load_and_validate_protocol_authority_mut (config_account authority : View) : Ix ProtocolConfig :=
  require negb (negb (vsigner authority)) else pool InvalidProtocolConfig;
  do! config <- load_protocol_config_mut config_account;
  exec! mlift (map_err of_interface (check_protocol_authority config (vaddr authority)));
  mret config.

(** ** event.rs *)

Definition emit_event {A} `{Borsh A} (kind : EventKind) (event : A) : Ix unit :=
  emit (encode_event_instruction kind event).

(** ** Tree accounts

    A handler's access to a tree: the loader checks the account and casts its
    data in place, so every change of the layout is a change of the account. *)

Section trees.
Context `{W : Wincode}.

Definition tree_view (v : View) (a : Account) : AccountView :=
  mkAccountView (vwritable v) (acct_owner a) (vaddr v) false (acct_data a).

(** The data after a change of the layout through the cast. *)
Definition store_tree (l : TreeAccountLayout) (a : Account) : Account :=
  with_data (enc layout_codec l ++ drop (csize layout_codec) (acct_data a)) a.

Definition on_tree {A} (load : AccountView -> bytes -> Z -> res TreeError TreeAccount) (err : TreeError -> ProgramError)
    (v : View) (m : M TreeAccountLayout ProgramError A) : Ix A := fun L =>
  match load (tree_view v (accounts L (vaddr v))) ID TREE_ACCOUNT_DISCRIMINATOR with
  | Ok tree => match m (layout tree) with (r, l) => (r, upd (vaddr v) (store_tree l) L) end
  | Err e => (Err (err e), L)
  | Panic => (Panic, L)
  end.

Definition with_tree {A} := @on_tree A from_account_view_mut.
Definition with_tree_allow_paused {A} := @on_tree A from_account_view_mut_allow_paused.

End trees.
