(* ===== verification/NullifierPdas.v ===== *)
(** * Nullifier PDAs

    src/programs/shielded-pool/src/instructions/nullifier_pda: one account per
    queued nullifier at an address derived from the tree and the nullifier.  Its
    existence blocks a second spend until the tree's cleanup watermark has
    passed its queue index; then the forester authority may close it, which
    returns its rent to the tree. *)

From S2P Require Import Prelude ZeroBytes Hasher HashChain Codec Smt Batch NullifierTree TreeAccount Errors TreeSlot Ledger AccountChecks State Event Shared.

Section nullifier_pdas.
Context `{R : Runtime}.

(** ** loader.rs *)

Definition nullifier_seeds (tree nullifier : bytes) : list bytes := [NULLIFIER_PDA_SEED; tree; nullifier].

Definition load_unused_nullifier_pda (nullifier_pda : View) (tree nullifier : bytes) : Ix Z :=
  require negb (negb (vwritable nullifier_pda)) else pool InvalidNullifierPda;
  do! bump <- mlift (map_err (caused_by (pool InvalidNullifierPda))
                       (verify_pda (vaddr nullifier_pda) (nullifier_seeds tree nullifier) ID));
  do! a <- account nullifier_pda;
  require negb (negb (is_system (acct_owner a)) || negb (length (acct_data a) =? 0)%nat) else pool NullifierAlreadyQueued;
  mret bump.

Definition load_nullifier_pda (nullifier_pda : View) (tree_id : Z) : Ix NullifierPda :=
  do! a <- account nullifier_pda;
  require negb (negb (vwritable nullifier_pda) || negb (owned_by a ID)
                || negb (length (acct_data a) =? NULLIFIER_PDA_SIZE)%nat) else pool InvalidNullifierPda;
  do! record <- mlift (ok_or (read_from (acct_data a)) (pool InvalidNullifierPda));
  require negb (queue_index record =? 0) else pool InvalidNullifierPda;
  require negb (negb (pda_tree_id record =? tree_id)) else pool NullifierPdaTreeMismatch;
  mret record.

(** ** create.rs *)

Record NullifierPdaRent : Set := mkPdaRent {
  nullifier_pda_minimum : Z;
  tree_minimum : Z;
}.

Definition top_up (rent : NullifierPdaRent) (tree nullifier_pda : View) : Ix unit :=
  do! pda_lamports <- get_lamports nullifier_pda;
  let missing := saturating_sub (nullifier_pda_minimum rent) pda_lamports in
  if missing =? 0 then mret tt else
  do! tree_lamports <- get_lamports tree;
  do! tree_remaining <- mlift (ok_or (remaining ← checked_sub tree_lamports missing;
                                      if tree_minimum rent <=? remaining then Some remaining else None)
                                 (pool InsufficientNullifierPdaRent));
  exec! set_lamports tree tree_remaining;
  set_lamports nullifier_pda (nullifier_pda_minimum rent).

(** What the input tree assigned while its nullifiers were queued. *)
Record InputTreeResult : Type := mkInputTreeResult {
  itr_input_tree : InputTreeSequence;
  itr_tree_fee : Z;
  itr_fee_balance : Z;
  itr_tree_id : Z;
}.

Definition collect_tree_fee (payer tree : View) (amount : Z) : Ix unit :=
  if amount =? 0 then mret tt else sys_transfer payer tree amount [].

(** [NullifierPdaCreate::init] *)
Definition init_nullifier_pda (tree_address nullifier : bytes) (record : NullifierPda) (nullifier_pda : View) : Ix unit :=
  do! bump <- load_unused_nullifier_pda nullifier_pda tree_address nullifier;
  exec! sys_assign nullifier_pda ID (nullifier_seeds tree_address nullifier ++ [[byte_of bump]]);
  exec! resize nullifier_pda (Z.of_nat NULLIFIER_PDA_SIZE);
  do! data <- get_data nullifier_pda;
  do! data <- mlift (ok_or (write_to record data) (pool InvalidNullifierPda));
  set_data nullifier_pda data.

(** [for (position, (nullifier_pda, nullifier)) in (0u64..).zip(nullifier_pdas)] *)
Fixpoint create_loop (tree : View) (rent : NullifierPdaRent) (first_queue_index tree_id position : Z)
    (nullifier_pdas : list (View * bytes)) : Ix unit :=
  match nullifier_pdas with
  | [] => mret tt
  | (nullifier_pda, nullifier) :: rest =>
      do! queue_index <- mlift (ok_or (checked_add 64 first_queue_index position) PeArithmeticOverflow);
      exec! init_nullifier_pda (vaddr tree) nullifier (mkNullifierPda queue_index tree_id) nullifier_pda;
      exec! top_up rent tree nullifier_pda;
      create_loop tree rent first_queue_index tree_id (position + 1) rest
  end.

Definition create_nullifier_pdas (payer tree : View) (nullifier_pdas : list (View * bytes))
    (input_tree : InputTreeResult) : Ix unit :=
  do! nullifier_pda_minimum <- rent_minimum (Z.of_nat NULLIFIER_PDA_SIZE);
  do! len <- data_len tree;
  do! tree_rent <- rent_minimum len;
  do! tree_minimum <- mlift (ok_or (checked_add 64 tree_rent (itr_fee_balance input_tree)) PeArithmeticOverflow);
  exec! collect_tree_fee payer tree (itr_tree_fee input_tree);
  create_loop tree (mkPdaRent nullifier_pda_minimum tree_minimum) (first_input_queue_seq (itr_input_tree input_tree))
    (itr_tree_id input_tree) 0 nullifier_pdas.

Definition credit_output_tree_fee (is_input_tree : bool) : M TreeAccountLayout ProgramError Z :=
  if is_input_tree then mret 0 else mmap_err tree_error credit_tree_fee.

(** ** close.rs *)

Record NullifierPdaClose : Set := mkPdaClose {
  close_tree_id : Z;
  pda_close_before_index : Z;
}.

Definition close_nullifier_pda (c : NullifierPdaClose) (tree nullifier_pda : View) : Ix unit :=
  do! record <- load_nullifier_pda nullifier_pda (close_tree_id c);
  require negb (negb (is_closable record (pda_close_before_index c))) else pool NullifierPdaNotClosable;
  do! tree_lamports <- get_lamports tree;
  do! pda_lamports <- get_lamports nullifier_pda;
  do! tree_balance <- mlift (ok_or (checked_add 64 tree_lamports pda_lamports) PeArithmeticOverflow);
  exec! set_lamports tree tree_balance;
  exec! set_lamports nullifier_pda 0;
  close nullifier_pda.

End nullifier_pdas.
