(* ===== verification/Forester.v ===== *)
(** * Forester and tree administration

    src/programs/shielded-pool/src/instructions/batch_update_nullifier_tree.rs,
    close_nullifier_pdas.rs, claim_tree_lamports.rs, set_tree_fees.rs and
    protocol_config/pause_tree.rs.  The handlers take the instruction data after
    deserialisation; a handler without data takes its raw bytes, which must be
    empty. *)

From S2P Require Import Prelude ZeroBytes Hasher HashChain Codec Smt Batch NullifierTree TreeAccount Errors TreeSlot Ledger AccountChecks State Event Shared NullifierPdas.

Section forester.
Context `{SP : SolPoseidon} `{G : Groth16} `{W : Wincode} `{R : Runtime}.

(** ** batch_update_nullifier_tree.rs *)

Definition update_and_take (tree_pubkey : bytes) (instruction : InstructionDataBatchNullifyInputs)
    : M TreeAccountLayout ProgramError (option (NullifierTreeUpdateEvent * Z)) :=
  do! event <- nullifier_tree (mmap_err nullifier_tree_error (update_tree_from_queue tree_pubkey instruction));
  match event with
  | Some event =>
      do! paid <- mmap_err tree_error (take_append_reimbursement (num_update event));
      mret (Some (event, paid))
  | None => mret None
  end.

Definition process_batch_update_nullifier_tree (accounts : list View) (instruction : InstructionDataBatchNullifyInputs)
    : Ix unit :=
  do! '(authority, iter) <- acc (next_signer (new_iter accounts));
  do! '(protocol_config, iter) <- acc (next_account iter);
  do! '(tree, iter) <- acc (next_mut iter);
  do! '(reimbursement_recipient, iter) <- acc (next_mut iter);
  exec! validate_forester_authority protocol_config authority;
  exec! check_reimbursement_recipient reimbursement_recipient;
  do! applied <- with_tree (fun e => pool (of_tree_error e)) tree (update_and_take (vaddr tree) instruction);
  match applied with
  | Some (event, paid) =>
      exec! pay_reimbursement tree reimbursement_recipient paid;
      emit_event KindNullifierTreeUpdate event
  | None => mret tt
  end.

(** ** close_nullifier_pdas.rs *)

Definition record_closed (closed : Z) : M TreeAccountLayout ProgramError (NullifierPdaClose * Z) :=
  do! l <- mget;
  let close := mkPdaClose (tree_id l) (close_before_index (nullifier l)) in
  exec! mmap_err tree_error (record_nullifier_pdas_closed closed);
  do! paid <- mmap_err tree_error (take_close_reimbursement closed);
  mret (close, paid).

(** [while !iter.iterator_is_empty() { ... }] over the remaining accounts. *)
Fixpoint close_loop (c : NullifierPdaClose) (tree : View) (nullifier_pdas : list View) : Ix unit :=
  match nullifier_pdas with
  | [] => mret tt
  | nullifier_pda :: rest =>
      exec! acc (check_mut nullifier_pda);
      exec! close_nullifier_pda c tree nullifier_pda;
      close_loop c tree rest
  end.

Definition process_close_nullifier_pdas (accounts : list View) (data : bytes) : Ix unit :=
  require bool_decide (data = []) else pool InvalidInstructionData;
  do! '(authority, iter) <- acc (next_signer (new_iter accounts));
  do! '(protocol_config, iter) <- acc (next_account iter);
  do! '(tree, iter) <- acc (next_mut iter);
  do! '(reimbursement_recipient, iter) <- acc (next_mut iter);
  exec! validate_forester_authority protocol_config authority;
  exec! check_reimbursement_recipient reimbursement_recipient;
  require negb (iterator_is_empty iter) else pool InvalidInstructionData;
  let closed := Z.of_nat (iter_len iter - iter_position iter) in
  do! '(close, paid) <- with_tree tree_error tree (record_closed closed);
  exec! close_loop close tree (iter_accounts iter);
  pay_reimbursement tree reimbursement_recipient paid.

(** ** claim_tree_lamports.rs *)

Definition claim_reserve (tree_rent_minimum nullifier_pda_rent_minimum : Z) : M TreeAccountLayout ProgramError Z :=
  exec! mmap_err tree_error release_fee_surplus;
  do! l <- mget;
  do! working_capital <- mlift (ok_or (tree_liquid_working_capital_lamports (tree_batch_size (nullifier l))
                                         (live_nullifier_pdas l) nullifier_pda_rent_minimum) PeArithmeticOverflow);
  mlift (ok_or (reserve ← checked_add 64 tree_rent_minimum (fee_balance l);
                checked_add 64 reserve working_capital) PeArithmeticOverflow).

Definition process_claim_tree_lamports (accounts : list View) (data : bytes) : Ix unit :=
  require bool_decide (data = []) else pool InvalidInstructionData;
  do! '(authority, iter) <- acc (next_signer (new_iter accounts));
  do! '(protocol_config, iter) <- acc (next_account iter);
  do! '(tree, iter) <- acc (next_mut iter);
  do! '(recipient, iter) <- acc (next_mut iter);
  exec! load_and_validate_fee_authority protocol_config authority;
  exec! check_reimbursement_recipient recipient;
  do! len <- data_len tree;
  do! tree_rent_minimum <- rent_minimum len;
  do! nullifier_pda_rent_minimum <- rent_minimum (Z.of_nat NULLIFIER_PDA_SIZE);
  do! reserve <- with_tree_allow_paused tree_error tree (claim_reserve tree_rent_minimum nullifier_pda_rent_minimum);
  do! tree_lamports <- get_lamports tree;
  let claimable := saturating_sub tree_lamports reserve in
  require negb (claimable =? 0) else pool NoClaimableTreeLamports;
  pay_reimbursement_with_rent_minimum tree recipient claimable reserve.

(** ** set_tree_fees.rs and pause_tree.rs *)

Definition process_set_tree_fees (accounts : list View) (fees : TreeFeeSchedule) : Ix unit :=
  do! '(authority, iter) <- acc (next_signer (new_iter accounts));
  do! '(protocol_config, iter) <- acc (next_account iter);
  do! '(tree, iter) <- acc (next_mut iter);
  exec! load_and_validate_fee_authority protocol_config authority;
  with_tree_allow_paused tree_error tree (mmap_err tree_error (set_fee_schedule fees)).

Definition process_pause_tree (accounts : list View) (paused : Z) : Ix unit :=
  do! '(authority, iter) <- acc (next_signer (new_iter accounts));
  do! '(protocol_config, iter) <- acc (next_account iter);
  do! '(tree, iter) <- acc (next_mut iter);
  exec! load_and_validate_protocol_authority protocol_config authority;
  with_tree_allow_paused (fun e => pool (of_tree_error e)) tree (mmap_err tree_error (set_paused (negb (paused =? 0)))).

End forester.
