(* ===== verification/CreateTree.v ===== *)
(** * Creating a tree

    src/programs/shielded-pool/src/instructions/create_tree: a tree account is
    larger than one allocation step, so creation takes several instructions.
    The first allocates the account at the address derived from the next tree
    id, takes the lamports and records its payer and data in the account; later
    ones grow it and must repeat that record; the last clears the record, tops
    up the lamports and initialises the tree. *)

From S2P Require Import Prelude ZeroBytes Hasher HashChain Codec Smt Batch NullifierTree TreeAccount Errors TreeSlot Ledger AccountChecks State Event Shared.

(** [b"tree"] *)
Definition TREE_PDA_SEED : bytes := [x74; x72; x65; x65].

Record CreateTreeData : Type := mkCreateTreeData {
  ct_tree_id : Z;
  ct_nullifier_params : NullifierTreeInitParams;
  ct_fees : TreeFeeSchedule;
}.

(** Its borsh encoding, which is fixed-size: exactly these bytes are accepted. *)
Definition create_tree_codec : Codec CreateTreeData :=
  iso (fun '(t, (b, (z, (h, f)))) => mkCreateTreeData t (mkInitParams b z h) f)
      (fun d => (ct_tree_id d, (input_queue_batch_size (ct_nullifier_params d),
         (input_queue_zkp_batch_size (ct_nullifier_params d), (params_height (ct_nullifier_params d), ct_fees d)))))
      (u16 ⊕ u64 ⊕ u64 ⊕ u32 ⊕ fees_codec).

Section create_tree.
Context `{SP : SolPoseidon} `{W : Wincode} `{R : Runtime}.

(** ** allocate.rs *)

Definition is_unallocated (a : Account) : bool := is_system (acct_owner a) && (length (acct_data a) =? 0)%nat.

Definition fund_tree (payer tree : View) (lamports : Z) : Ix unit :=
  do! tree_lamports <- get_lamports tree;
  let missing := saturating_sub lamports tree_lamports in
  if missing =? 0 then mret tt else sys_transfer payer tree missing [].

(** [TreeAllocation::create] *)
Definition allocate_tree (payer tree : View) (tree_id_seed : bytes) (bump full_size lamports : Z) : Ix unit :=
  let seeds := [TREE_PDA_SEED; tree_id_seed; [byte_of bump]] in
  let space := Z.min full_size TREE_ALLOCATION_STEP in
  do! tree_lamports <- get_lamports tree;
  if tree_lamports =? 0 then sys_create_account payer tree lamports space ID seeds else
  exec! sys_allocate tree space seeds;
  exec! sys_assign tree ID seeds;
  fund_tree payer tree lamports.

Definition grow_tree (tree : View) (full_size : Z) : Ix unit :=
  do! a <- account tree;
  require negb (negb (vwritable tree) || negb (owned_by a ID)) else pool InvalidTreeAccounts;
  let current := Z.of_nat (length (acct_data a)) in
  if full_size <=? current then mret tt else
  require negb (negb (bool_decide (acct_data a !! 1%nat = Some (byte_of UNINITIALIZED)))) else pool InvalidTreeAccounts;
  let target := Z.min (saturating_add 64 current TREE_ALLOCATION_STEP) full_size in
  resize tree target.

(** ** pending.rs *)

Record PendingCreation : Type := mkPending {
  pending_payer : bytes;
  pending_data : bytes;
}.

(** The payer and data slots are inside the account. *)
Definition slots (p : PendingCreation) (account : bytes) : res ProgramError unit :=
  check (utxo_tree_offset + 32 + length (pending_data p) <=? length account)%nat else pool InvalidTreeAccounts in Ok tt.

(** Overwrite the bytes from [offset]. *)
Definition write_at (offset : nat) (new bs : bytes) : bytes :=
  take offset bs ++ new ++ drop (offset + length new) bs.

Definition pending_record (p : PendingCreation) (tree : View) : Ix unit :=
  do! account <- get_data tree;
  exec! mlift (slots p account);
  set_data tree (write_at utxo_tree_offset (pending_payer p ++ pending_data p) account).

Definition pending_check (p : PendingCreation) (tree : View) : Ix unit :=
  do! account <- get_data tree;
  require negb (negb (bool_decide (account !! 1%nat = Some (byte_of UNINITIALIZED)))) else pool InvalidTreeAccounts;
  exec! mlift (slots p account);
  require negb (negb (bool_decide (slice utxo_tree_offset 32 account = pending_payer p))
                || negb (bool_decide (slice (utxo_tree_offset + 32) (length (pending_data p)) account = pending_data p)))
    else pool TreeCreationMismatch;
  mret tt.

Definition pending_clear (p : PendingCreation) (tree : View) : Ix unit :=
  do! account <- get_data tree;
  exec! mlift (slots p account);
  set_data tree (write_at utxo_tree_offset (replicate (32 + length (pending_data p)) x00) account).

(** ** processor.rs *)

(** The scope of the mutable config borrow: authorise, and take the next tree id. *)
Definition take_tree_id (protocol_config authority : View) (unallocated : bool) (tree_id : Z) : Ix unit :=
  do! config <- load_protocol_config_mut protocol_config;
  require negb (negb (allows_permissionless_tree_creation config)
                && match check_tree_creation_authority config (vaddr authority) with Ok _ => false | _ => true end)
    else pool UnauthorizedCaller;
  if unallocated then
    require negb (negb (tree_id =? next_tree_id config)) else pool InvalidTreeId;
    do! next <- mlift (ok_or (checked_add 16 tree_id 1) (pool TreeIdOverflow));
    store_config config_codec protocol_config (with_next_tree_id next config)
  else mret tt.

(** [TreeAccount::init] on the account's bytes. *)
Definition init_tree (tree : View) (data : CreateTreeData) : Ix unit :=
  do! tree_data <- get_data tree;
  do! t <- mlift (map_err tree_error (init tree_data TREE_ACCOUNT_DISCRIMINATOR STATE_HEIGHT (vaddr tree) (ct_tree_id data)
                    (ct_nullifier_params data) (ct_fees data)));
  set_data tree (enc layout_codec (layout t)).

Definition process_create_tree (accounts : list View) (ix_data : bytes) : Ix unit :=
  do! data <- mlift (ok_or (try_from_bytes create_tree_codec ix_data) (pool InvalidInstructionData));
  exec! mlift (map_err tree_error (fees_validate (ct_fees data)));
  exec! mlift (map_err tree_error (params_validate (ct_nullifier_params data)));
  do! '(payer, iter) <- acc (next_signer_mut (new_iter accounts));
  do! '(authority, iter) <- acc (next_signer iter);
  do! '(protocol_config, iter) <- acc (next_mut iter);
  do! '(tree, iter) <- acc (next_mut iter);
  do! '(system_program, iter) <- acc (next_account iter);
  require negb (negb (is_system (vaddr system_program))) else pool InvalidSystemProgram;
  let tree_id_seed := le_bytes 2 (ct_tree_id data) in
  do! bump <- mlift (verify_pda (vaddr tree) [TREE_PDA_SEED; tree_id_seed] ID);
  do! a <- account tree;
  let unallocated := is_unallocated a in
  exec! take_tree_id protocol_config authority unallocated (ct_tree_id data);
  let full_size := account_size in
  do! tree_rent <- rent_minimum full_size;
  do! pda_rent <- rent_minimum (Z.of_nat NULLIFIER_PDA_SIZE);
  do! lamports <- mlift (ok_or (tree_creation_lamports (ct_nullifier_params data) tree_rent pda_rent) PeArithmeticOverflow);
  let pending := mkPending (vaddr payer) ix_data in
  exec! (if unallocated then
           exec! allocate_tree payer tree tree_id_seed bump full_size lamports;
           pending_record pending tree
         else
           exec! grow_tree tree full_size;
           pending_check pending tree);
  do! len <- data_len tree;
  if len <? full_size then mret tt else
  exec! pending_clear pending tree;
  exec! fund_tree payer tree lamports;
  init_tree tree data.

End create_tree.
