(* ===== verification/Circuit.v ===== *)
(** * Circuits and proof verification

    src/program-libs/interface/src/verifying_keys/circuit.rs: the circuit a
    transact names, its accessors and its verifying key; the feature gate of
    programs/shielded-pool/src/circuit_features.rs; and the Groth16 check of
    instructions/verifier.rs.  The generated key bytes are opaque: a key is its
    family and shape, the pairing check and the proving-key hashes are
    parameters. *)

From S2P Require Import Prelude Hasher Errors TreeSlot NullifierTree State Ledger.

Definition N_PUBLIC_SLOTS : Z := 3.
Definition CURRENT_PUBLIC_ASSET_SLOTS : Z := N_PUBLIC_SLOTS.

Record Bsb22Commitment : Type := mkBsb22 {
  bsb_commitment : bytes;
  bsb_commitment_pok : bytes;
}.

Record AnonymousRingEddsaProofData : Type := mkAnonymousData {
  ar_bsb22_commitment : Bsb22Commitment;
  ar_default_owner_tag : option bytes;
}.

Record EddsaProofData : Type := mkEddsaData {
  ed_bsb22_commitment : Bsb22Commitment;
  ed_owner_pk : bytes;
}.

(** ** Cache access *)

Record CacheAccess : Type := mkCacheAccess {
  read_bitmap : Z;
  write_slots : list CacheWriteEntry;     (** [MAX_CACHE_WRITES] entries *)
}.

#[export] Instance cache_write_eq_dec : EqDecision CacheWriteEntry.
Proof. solve_decision. Defined.

Definition cache_write_NONE : CacheWriteEntry := mkCacheWrite 255 255.

Definition is_write (e : CacheWriteEntry) : bool := negb (bool_decide (e = cache_write_NONE)).

(** [writes()]: the entries before the first empty one. *)
Definition cache_writes (a : CacheAccess) : list CacheWriteEntry := HashChain.take_while is_write (write_slots a).

Definition writes_cache (a : CacheAccess) : bool :=
  match head (write_slots a) with Some e => is_write e | None => false end.

(** No later entry has the same slot or output. *)
Fixpoint distinct_writes (writes : list CacheWriteEntry) : bool :=
  match writes with
  | [] => true
  | e :: rest =>
      forallb (fun later => negb (cw_slot later =? cw_slot e) && negb (cw_output later =? cw_output e)) rest
      && distinct_writes rest
  end.

Definition valid_cache_writes (write_slots : list CacheWriteEntry) (output_count : nat) : bool :=
  let used := length (HashChain.take_while is_write write_slots) in
  let writes := take used write_slots in
  let unused := drop used write_slots in
  forallb (fun e => bool_decide (e = cache_write_NONE)) unused
  && forallb (fun e => (cw_output e <? Z.of_nat output_count) && (cw_slot e <? Z.of_nat CACHE_CAPACITY)) writes
  && distinct_writes writes.

Definition cache_access_valid (a : CacheAccess) (input_count output_count : nat) : bool :=
  (Z.shiftr (read_bitmap a) (Z.of_nat CACHE_CAPACITY) =? 0)
  && (count_ones (read_bitmap a) <=? input_count)%nat
  && (negb (read_bitmap a =? 0) || writes_cache a)
  && valid_cache_writes (write_slots a) output_count.

(** ** Circuits *)

Inductive OutputOwnerMode : Set := OwnerNone | OwnerAll | OwnerConfidentialMarked.

Inductive CircuitId : Type :=
| ConfidentialSigner (n_in n_out slots : Z)
| ConfidentialRingEddsa (n_in n_out slots : Z)
| RingAuthority (n_in n_out slots : Z)
| AnonymousRingEddsa (n_in n_out slots : Z) (proof_data : AnonymousRingEddsaProofData)
| ConfidentialSignerCached (n_in n_out slots : Z) (selection : CacheAccess)
| ConfidentialRingEddsaCached (n_in n_out slots : Z) (selection : CacheAccess)
| AnonymousRingEddsaCached (n_in n_out slots : Z) (proof_data : AnonymousRingEddsaProofData) (selection : CacheAccess)
| ConfidentialEddsa (n_in n_out slots : Z) (proof_data : EddsaProofData)
| ConfidentialEddsaCached (n_in n_out slots : Z) (proof_data : EddsaProofData) (selection : CacheAccess).

Definition cache_access (c : CircuitId) : option CacheAccess :=
  match c with
  | ConfidentialSignerCached _ _ _ selection
  | ConfidentialRingEddsaCached _ _ _ selection
  | AnonymousRingEddsaCached _ _ _ _ selection
  | ConfidentialEddsaCached _ _ _ _ selection => Some selection
  | _ => None
  end.

Definition uncached (c : CircuitId) : CircuitId :=
  match c with
  | ConfidentialSignerCached i o s _ => ConfidentialSigner i o s
  | ConfidentialRingEddsaCached i o s _ => ConfidentialRingEddsa i o s
  | AnonymousRingEddsaCached i o s d _ => AnonymousRingEddsa i o s d
  | ConfidentialEddsaCached i o s d _ => ConfidentialEddsa i o s d
  | other => other
  end.

(** [shape()]: inputs, outputs and public asset slots. *)
Definition circuit_shape (c : CircuitId) : Z * Z * Z :=
  match c with
  | ConfidentialSigner i o s | ConfidentialRingEddsa i o s | RingAuthority i o s
  | AnonymousRingEddsa i o s _ | ConfidentialSignerCached i o s _ | ConfidentialRingEddsaCached i o s _
  | AnonymousRingEddsaCached i o s _ _ | ConfidentialEddsa i o s _ | ConfidentialEddsaCached i o s _ _ => (i, o, s)
  end.

Definition num_inputs (c : CircuitId) : Z := (circuit_shape c).1.1.
Definition num_outputs (c : CircuitId) : Z := (circuit_shape c).1.2.
Definition num_public_asset_slots (c : CircuitId) : Z := (circuit_shape c).2.

Definition is_confidential (c : CircuitId) : bool :=
  match uncached c with
  | ConfidentialSigner _ _ _ | ConfidentialRingEddsa _ _ _ | AnonymousRingEddsa _ _ _ _
  | ConfidentialEddsa _ _ _ _ => true
  | _ => false
  end.

Definition is_ring (c : CircuitId) : bool :=
  match uncached c with
  | ConfidentialRingEddsa _ _ _ | RingAuthority _ _ _ | AnonymousRingEddsa _ _ _ _ => true
  | _ => false
  end.

Definition is_authority (c : CircuitId) : bool := match c with RingAuthority _ _ _ => true | _ => false end.

Definition is_anonymous (c : CircuitId) : bool :=
  match uncached c with AnonymousRingEddsa _ _ _ _ => true | _ => false end.

Definition has_message_hash (c : CircuitId) : bool :=
  match uncached c with AnonymousRingEddsa _ _ _ _ | ConfidentialEddsa _ _ _ _ => true | _ => false end.

Definition bsb22_commitment (c : CircuitId) : option Bsb22Commitment :=
  match c with
  | AnonymousRingEddsa _ _ _ d | AnonymousRingEddsaCached _ _ _ d _ => Some (ar_bsb22_commitment d)
  | ConfidentialEddsa _ _ _ d | ConfidentialEddsaCached _ _ _ d _ => Some (ed_bsb22_commitment d)
  | _ => None
  end.

Definition eddsa_owner_pk (c : CircuitId) : option bytes :=
  match c with
  | ConfidentialEddsa _ _ _ d | ConfidentialEddsaCached _ _ _ d _ => Some (ed_owner_pk d)
  | _ => None
  end.

Definition default_owner_tag (c : CircuitId) : option bytes :=
  match c with
  | AnonymousRingEddsa _ _ _ d | AnonymousRingEddsaCached _ _ _ d _ => ar_default_owner_tag d
  | _ => None
  end.

Definition requires_input_signatures (c : CircuitId) : bool := negb (is_authority c).

Definition output_owner_mode (c : CircuitId) : OutputOwnerMode :=
  match c with
  | ConfidentialSigner _ _ _ | ConfidentialSignerCached _ _ _ _
  | ConfidentialEddsa _ _ _ _ | ConfidentialEddsaCached _ _ _ _ _ => OwnerAll
  | ConfidentialRingEddsa _ _ _ | AnonymousRingEddsa _ _ _ _
  | ConfidentialRingEddsaCached _ _ _ _ | AnonymousRingEddsaCached _ _ _ _ _ => OwnerConfidentialMarked
  | RingAuthority _ _ _ => OwnerNone
  end.

Definition circuit_is_supported (c : CircuitId) : bool :=
  let '(i, o, s) := circuit_shape c in
  if negb (s =? CURRENT_PUBLIC_ASSET_SLOTS) then false else
  let shape := mkShape (Z.to_nat i) (Z.to_nat o) in
  match c with
  | ConfidentialSigner _ _ _ | ConfidentialRingEddsa _ _ _ | AnonymousRingEddsa _ _ _ _
  | ConfidentialSignerCached _ _ _ _ | ConfidentialRingEddsaCached _ _ _ _
  | AnonymousRingEddsaCached _ _ _ _ _ => is_supported shape
  | RingAuthority _ _ _ => is_ring_authority shape
  | ConfidentialEddsa _ _ _ _ | ConfidentialEddsaCached _ _ _ _ _ => is_confidential_eddsa shape
  end.

(** ** Verifying keys *)

(** A generated key module, named by its family and shape. *)
Inductive PoolKey : Set :=
| merge (width : Z)
| merge_ring (width : Z)
| transfer_confidential (n_in n_out : Z)
| transfer_ring (n_in n_out : Z)
| transfer_eddsa_ring (n_in n_out : Z)
| transfer_ring_authority (n_in n_out : Z)
| transfer_confidential_eddsa (n_in n_out : Z).

(** The key tables of [circuit_key_item!]. *)
Definition transact_keys : list (Z * Z) :=
  [(1, 2); (1, 4); (1, 8); (2, 2); (2, 4); (1, 16); (2, 8); (3, 2); (3, 4); (2, 16); (3, 8); (4, 2); (4, 4);
   (4, 8); (5, 2); (5, 4); (4, 16); (5, 8); (6, 2); (6, 4); (5, 16); (6, 8); (8, 2); (8, 4); (8, 8); (8, 16);
   (12, 2); (12, 4); (12, 8); (16, 2); (16, 4); (16, 8); (24, 2); (24, 4); (32, 2); (40, 2); (48, 2); (49, 2)].

Definition authority_keys : list (Z * Z) := [(2, 2); (4, 4)].

Definition confidential_eddsa_keys : list (Z * Z) :=
  [(2, 8); (2, 16); (4, 8); (4, 16); (8, 8); (8, 16); (16, 8); (16, 16); (24, 8); (24, 16); (48, 8); (48, 16)].

(** The first arm with this shape. *)
Definition key_in (table : list (Z * Z)) (i o s : Z) (key : Z -> Z -> PoolKey) : option PoolKey :=
  if existsb (fun '(ki, ko) => (ki =? i) && (ko =? o)) table && (s =? CURRENT_PUBLIC_ASSET_SLOTS)
  then Some (key i o) else None.

Definition verifying_key (c : CircuitId) : option PoolKey :=
  match uncached c with
  | ConfidentialSigner i o s => key_in transact_keys i o s transfer_confidential
  | ConfidentialRingEddsa i o s => key_in transact_keys i o s transfer_ring
  | AnonymousRingEddsa i o s _ => key_in transact_keys i o s transfer_eddsa_ring
  | RingAuthority i o s => key_in authority_keys i o s transfer_ring_authority
  | ConfidentialEddsa i o s _ => key_in confidential_eddsa_keys i o s transfer_confidential_eddsa
  | _ => None
  end.

(** Generated with each key: the proving key's hash, and whether the build enables
    the circuit feature. *)
Class KeyMetadata : Type := {
  proving_key_sha256 : PoolKey -> bytes;
  confidential_eddsa_feature : bool;
}.

(** [vk_commitment.is_some()]: the families whose proofs carry a commitment. *)
Definition has_commitment (k : PoolKey) : bool :=
  match k with transfer_eddsa_ring _ _ | transfer_confidential_eddsa _ _ => true | _ => false end.

(** circuit_features.rs *)
Definition circuit_enabled `{KeyMetadata} (c : CircuitId) : bool :=
  match eddsa_owner_pk c with
  | None => true
  | Some _ =>
      match verifying_key c with
      | None => false
      | Some k =>
          confidential_eddsa_feature &&
          existsb (fun '(i, o) => bool_decide (proving_key_sha256 (transfer_confidential_eddsa i o) = proving_key_sha256 k))
            confidential_eddsa_keys
      end
  end.

(** ** verifier.rs *)

Record Groth16Proof : Type := mkGroth16Proof {
  g_a : bytes;
  g_b : bytes;
  g_c : bytes;
  g_commitment : option (bytes * bytes);
}.

(** groth16-solana for the pool's keys: the constructors' checks and the pairing
    checks, without and with a commitment. *)
Class PoolGroth16 : Type := {
  pool_decompress_g1 : bytes -> option bytes;
  pool_new : bytes -> bytes -> bytes -> list bytes -> PoolKey -> bool;
  pool_verify : bytes -> bytes -> bytes -> list bytes -> PoolKey -> bool;
  pool_new_with_commitment : bytes -> bytes -> bytes -> bytes -> bytes -> list bytes -> PoolKey -> bool;
  pool_verify_with_commitment : bytes -> bytes -> bytes -> bytes -> bytes -> list bytes -> PoolKey -> bool;
}.

Definition verify_groth16 `{PoolGroth16} (proof : Groth16Proof) (public_input_hash : bytes) (key : PoolKey)
    (encoding_err verify_err : ShieldedPoolError) : res ProgramError unit :=
  let? a := ok_or (pool_decompress_g1 (g_a proof)) (pool encoding_err) in
  let b := g_b proof in
  let? c := ok_or (pool_decompress_g1 (g_c proof)) (pool encoding_err) in
  let public_inputs := [public_input_hash] in
  match g_commitment proof, has_commitment key with
  | Some (commitment, commitment_pok), true =>
      let? commitment := ok_or (pool_decompress_g1 commitment) (pool encoding_err) in
      let? commitment_pok := ok_or (pool_decompress_g1 commitment_pok) (pool encoding_err) in
      check pool_new_with_commitment a b c commitment commitment_pok public_inputs key else pool verify_err in
      check pool_verify_with_commitment a b c commitment commitment_pok public_inputs key else pool verify_err in
      Ok tt
  | None, false =>
      check pool_new a b c public_inputs key else pool verify_err in
      check pool_verify a b c public_inputs key else pool verify_err in
      Ok tt
  | _, _ => Err (pool verify_err)
  end.

(** ** Theorems *)

Lemma listed_keys (shapes : list Shape) (table : list (Z * Z)) i o : 0 <= i -> 0 <= o ->
  Forall2 (fun s '(ki, ko) => Z.of_nat (n_inputs s) = ki /\ Z.of_nat (n_outputs s) = ko) shapes table ->
  is_listed (mkShape (Z.to_nat i) (Z.to_nat o)) shapes = existsb (fun '(ki, ko) => (ki =? i) && (ko =? o)) table.
Proof.
  intros Hi Ho. induction 1 as [|s [ki ko] shapes table [Hk1 Hk2] _ IH]; [done|]. cbn [is_listed existsb]. rewrite IH.
  cbn [n_inputs n_outputs].
  assert ((n_inputs s =? Z.to_nat i)%nat = (ki =? i)) as ->
    by (destruct (Nat.eqb_spec (n_inputs s) (Z.to_nat i)), (Z.eqb_spec ki i); lia).
  assert ((n_outputs s =? Z.to_nat o)%nat = (ko =? o)) as ->
    by (destruct (Nat.eqb_spec (n_outputs s) (Z.to_nat o)), (Z.eqb_spec ko o); lia).
  by destruct (_ && _).
Qed.

Lemma authority_shape i o : 0 <= i -> 0 <= o ->
  is_ring_authority (mkShape (Z.to_nat i) (Z.to_nat o)) = existsb (fun '(ki, ko) => (ki =? i) && (ko =? o)) authority_keys.
Proof.
  intros Hi Ho. unfold is_ring_authority, RING_AUTHORITY_WIDTHS, authority_keys. cbn [n_inputs n_outputs existsb].
  repeat match goal with
  | |- context [(?a =? ?b)%nat] => destruct (Nat.eqb_spec a b)
  | |- context [?a =? ?b] => destruct (Z.eqb_spec a b)
  end; cbn; try reflexivity; lia.
Qed.

(** C35. The supported selectors are exactly those with a committed verifying key, and
    a key takes a commitment exactly when the selector carries one: every
    admitted shape can be verified, and no key is reachable outside the list. *)
Theorem supported_iff_key (c : CircuitId) : 0 <= num_inputs c -> 0 <= num_outputs c ->
  (circuit_is_supported c = true <-> exists k, verifying_key c = Some k) /\
  forall k, verifying_key c = Some k -> has_commitment k = bool_decide (is_Some (bsb22_commitment c)).
Proof.
  intros Hi Ho. unfold num_inputs, num_outputs in *.
  assert (forall i o s key, 0 <= i -> 0 <= o ->
    (is_supported (mkShape (Z.to_nat i) (Z.to_nat o)) && (s =? CURRENT_PUBLIC_ASSET_SLOTS) = true
     <-> exists k, key_in transact_keys i o s key = Some k)) as Htransact.
  { intros i o s key Hi' Ho'. unfold is_supported, key_in. rewrite (listed_keys _ transact_keys) by (done || (unfold SPP_SUPPORTED_SHAPES, CONFIDENTIAL_EDDSA_SHAPES; repeat constructor)).
    destruct (_ && _); naive_solver. }
  assert (forall i o s key, 0 <= i -> 0 <= o ->
    (is_confidential_eddsa (mkShape (Z.to_nat i) (Z.to_nat o)) && (s =? CURRENT_PUBLIC_ASSET_SLOTS) = true
     <-> exists k, key_in confidential_eddsa_keys i o s key = Some k)) as Heddsa.
  { intros i o s key Hi' Ho'. unfold is_confidential_eddsa, key_in.
    rewrite (listed_keys _ confidential_eddsa_keys) by (done || (unfold SPP_SUPPORTED_SHAPES, CONFIDENTIAL_EDDSA_SHAPES; repeat constructor)). destruct (_ && _); naive_solver. }
  split.
  - unfold circuit_is_supported, verifying_key. destruct c; cbn [circuit_shape fst snd uncached] in *;
      (rewrite <- ?Htransact, <- ?Heddsa by done); try (destruct (_ =? _); cbn [negb]; rewrite ?andb_true_r, ?andb_false_r; done).
    unfold key_in. rewrite <- authority_shape by done. destruct (slots =? _); cbn [negb]; rewrite ?andb_true_r, ?andb_false_r.
    + destruct (is_ring_authority _); naive_solver.
    + naive_solver.
  - unfold verifying_key, key_in. intros k. destruct c; cbn [uncached bsb22_commitment];
      (destruct (_ && _); [|done]); intros [= <-]; reflexivity.
Qed.

Lemma supported_iff_key_witness :
  let c := ConfidentialSigner 2 2 3 in
  (circuit_is_supported c = true <-> exists k, verifying_key c = Some k) /\
  forall k, verifying_key c = Some k -> has_commitment k = bool_decide (is_Some (bsb22_commitment c)).
Proof. apply (supported_iff_key (ConfidentialSigner 2 2 3)); vm_compute; congruence. Defined.
