(* ===== verification/UserRegistry.v ===== *)
(** * The user registry

    src/program-libs/user-registry-interface and src/programs/user-registry: one
    record per owner at an address derived from the owner, with the owner's
    nullifier and viewing keys and the merge encryption scheme the owner
    accepts. *)

From S2P Require Import Prelude Codec TreeSafety Ledger State.

(** ** state.rs *)

Inductive MergeEncryptionScheme : Set := Disabled | PoseidonCtrV1.

#[export] Instance scheme_eq_dec : EqDecision MergeEncryptionScheme.
Proof. solve_decision. Defined.

Definition scheme_byte (s : MergeEncryptionScheme) : Z := match s with Disabled => 0 | PoseidonCtrV1 => 1 end.

(** Borsh rejects any other byte. *)
Definition scheme_from_byte (b : Z) : option MergeEncryptionScheme :=
  match b with 0 => Some Disabled | 1 => Some PoseidonCtrV1 | _ => None end.

Record UserRecord : Type := mkUserRecord {
  ur_owner : bytes;
  ur_bump : Z;
  ur_nullifier_pubkey : bytes;
  ur_viewing_pubkey : bytes;
  ur_merge_encryption : MergeEncryptionScheme;
}.

(** The fields of the borsh body, the scheme as its byte. *)
Definition record_fields : Codec (bytes * (Z * (bytes * (bytes * Z)))) := raw 32 ⊕ u8 ⊕ raw 32 ⊕ raw 33 ⊕ u8.

Definition RECORD_DISCRIMINATOR : Z := 1.
Definition RECORD_SIZE : nat := 1 + 32 + 1 + 32 + 33 + 1.

(** [borsh::to_vec(state)] and [UserRecord::deserialize]. *)
Definition record_body (r : UserRecord) : bytes :=
  enc record_fields (ur_owner r, (ur_bump r, (ur_nullifier_pubkey r, (ur_viewing_pubkey r,
    scheme_byte (ur_merge_encryption r))))).

Definition record_of_body (body : bytes) : option UserRecord :=
  let '(o, (b, (n, (v, s)))) := dec record_fields body in
  scheme ← scheme_from_byte s; Some (mkUserRecord o b n v scheme).

Definition try_from_account_data (data : bytes) : option UserRecord :=
  if (length data =? RECORD_SIZE)%nat then
    match data with
    | disc :: body => if bool_decide (disc = byte_of RECORD_DISCRIMINATOR) then record_of_body body else None
    | [] => None
    end
  else None.

(** ** lib.rs *)

Definition USER_REGISTRY_PROGRAM_ID : bytes :=
  be_bytes 32 0xcb8132722a9c550ade6d5ebee48a5699308f18a2556c5dcae4477610ebd5d17.

(** [b"zolana/registry/v0"] *)
Definition USER_RECORD_SEED : bytes :=
  [x7a; x6f; x6c; x61; x6e; x61; x2f; x72; x65; x67; x69; x73; x74; x72; x79; x2f; x76; x30].

(** ** error.rs *)

Inductive UserRegistryError : Set :=
| UrInvalidInstructionData
| UrUnauthorizedSigner
| UrInvalidRecordPda
| UrOwnerMismatch
| UrInvalidRecordAccount
| UrInvalidSystemProgram.

Definition registry_error (e : UserRegistryError) : ProgramError :=
  Custom (match e with
  | UrInvalidInstructionData => 0
  | UrUnauthorizedSigner => 1
  | UrInvalidRecordPda => 2
  | UrOwnerMismatch => 3
  | UrInvalidRecordAccount => 4
  | UrInvalidSystemProgram => 5
  end).

Section registry.
Context `{R : Runtime} (program_id : bytes).

(** ** common.rs *)

Definition check_system_program (v : View) : res ProgramError unit :=
  check negb (negb (bool_decide (vaddr v = SYSTEM_PROGRAM))) else registry_error UrInvalidSystemProgram in Ok tt.

Definition record_seeds (owner : bytes) : list bytes := [USER_RECORD_SEED; owner].

Definition check_record_pda (record : View) (owner : bytes) : res ProgramError Z :=
  let? '(expected, bump) := or_panic (derive_program_address (record_seeds owner) program_id) in
  check negb (negb (bool_decide (vaddr record = expected))) else registry_error UrInvalidRecordPda in Ok bump.

Definition check_record_pda_with_bump (record : View) (owner : bytes) (bump : Z) : res ProgramError unit :=
  let expected := derive_address (record_seeds owner) bump program_id in
  check negb (negb (bool_decide (vaddr record = expected))) else registry_error UrInvalidRecordPda in Ok tt.

Definition read_record (record : View) : Ix UserRecord :=
  do! a <- account record;
  require negb (negb (owned_by a program_id) || negb (vwritable record)) else registry_error UrInvalidRecordAccount;
  mlift (ok_or (try_from_account_data (acct_data a)) (registry_error UrInvalidRecordAccount)).

Definition write_record (record : View) (state : UserRecord) : Ix unit :=
  let body := record_body state in
  let needed := (1 + length body)%nat in
  do! data <- get_data record;
  require negb (negb (length data =? RECORD_SIZE)%nat || (length data <? needed)%nat)
    else registry_error UrInvalidRecordAccount;
  set_data record (byte_of RECORD_DISCRIMINATOR :: body ++ replicate (length data - needed) x00).

Definition create_record_account (record payer : View) (owner : bytes) (bump space : Z) : Ix unit :=
  do! required <- rent_minimum space;
  let seeds := record_seeds owner ++ [[byte_of bump]] in
  do! record_lamports <- get_lamports record;
  let top_up := saturating_sub required record_lamports in
  exec! (if 0 <? top_up then sys_transfer payer record top_up [] else mret tt);
  exec! sys_allocate record space seeds;
  sys_assign record program_id seeds.

(** ** register.rs, set_merge_encryption.rs, update_keys.rs *)

Definition process_register (accounts : list View) (nullifier_pubkey viewing_pubkey : bytes) : Ix unit :=
  match accounts with
  | record :: owner :: payer :: system_program :: _ =>
      require negb (negb (vsigner owner) || negb (vsigner payer)) else PeMissingRequiredSignature;
      require negb (negb (vwritable record)) else registry_error UrInvalidRecordAccount;
      exec! mlift (check_system_program system_program);
      do! bump <- mlift (check_record_pda record (vaddr owner));
      do! a <- account record;
      require negb (owned_by a program_id || negb (length (acct_data a) =? 0)%nat) else PeAccountAlreadyInitialized;
      exec! create_record_account record payer (vaddr owner) bump (Z.of_nat RECORD_SIZE);
      write_record record (mkUserRecord (vaddr owner) bump nullifier_pubkey viewing_pubkey Disabled)
  | _ => mthrow PeNotEnoughAccountKeys
  end.

Definition process_set_merge_encryption (accounts : list View) (scheme : MergeEncryptionScheme) : Ix unit :=
  match accounts with
  | record :: signer :: _ =>
      require negb (negb (vsigner signer)) else PeMissingRequiredSignature;
      do! state <- read_record record;
      exec! mlift (check_record_pda_with_bump record (ur_owner state) (ur_bump state));
      require negb (negb (bool_decide (vaddr signer = ur_owner state))) else registry_error UrUnauthorizedSigner;
      write_record record (mkUserRecord (ur_owner state) (ur_bump state) (ur_nullifier_pubkey state)
        (ur_viewing_pubkey state) scheme)
  | _ => mthrow PeNotEnoughAccountKeys
  end.

Definition process_update_keys (accounts : list View) (viewing_pubkey : bytes) : Ix unit :=
  match accounts with
  | record :: owner :: _ =>
      require negb (negb (vsigner owner)) else PeMissingRequiredSignature;
      do! state <- read_record record;
      exec! mlift (check_record_pda_with_bump record (ur_owner state) (ur_bump state));
      require negb (negb (bool_decide (ur_owner state = vaddr owner))) else registry_error UrOwnerMismatch;
      write_record record (mkUserRecord (ur_owner state) (ur_bump state) (ur_nullifier_pubkey state)
        viewing_pubkey (ur_merge_encryption state))
  | _ => mthrow PeNotEnoughAccountKeys
  end.

(** ** processor.rs: the data of each instruction is fixed-size borsh. *)

Definition register_codec : Codec (bytes * bytes) := raw 32 ⊕ raw 33.

Definition registry_process_instruction (accounts : list View) (instruction_data : bytes) : Ix unit :=
  match instruction_data with
  | [] => mthrow PeInvalidInstructionData
  | discriminator :: payload =>
      match byte_val discriminator with
      | 0 =>
          do! '(nullifier_pubkey, viewing_pubkey) <- mlift (ok_or (try_from_bytes register_codec payload)
                                                              (registry_error UrInvalidInstructionData));
          process_register accounts nullifier_pubkey viewing_pubkey
      | 1 =>
          do! scheme <- mlift (ok_or (b ← try_from_bytes u8 payload; scheme_from_byte b)
                                 (registry_error UrInvalidInstructionData));
          process_set_merge_encryption accounts scheme
      | 2 =>
          do! viewing_pubkey <- mlift (ok_or (try_from_bytes (raw 33) payload) (registry_error UrInvalidInstructionData));
          process_update_keys accounts viewing_pubkey
      | _ => mthrow PeInvalidInstructionData
      end
  end.

End registry.

(** ** Records round trip *)

Definition record_ok (r : UserRecord) : Prop :=
  is_bytes 32 (ur_owner r) /\ 0 <= ur_bump r < 256 /\ is_bytes 32 (ur_nullifier_pubkey r) /\
  is_bytes 33 (ur_viewing_pubkey r).

Lemma scheme_roundtrip b s : scheme_from_byte b = Some s <-> b = scheme_byte s.
Proof. split; [|intros ->; by destruct s]. unfold scheme_from_byte. intros Hs. repeat case_match; by simplify_eq. Qed.

Definition record_data (r : UserRecord) : bytes := byte_of RECORD_DISCRIMINATOR :: record_body r.

Lemma record_tuple_valid r : record_ok r ->
  valid record_fields (ur_owner r, (ur_bump r, (ur_nullifier_pubkey r, (ur_viewing_pubkey r,
    scheme_byte (ur_merge_encryption r))))).
Proof. intros (? & ? & ? & ?). split_and!; try done. by destruct (ur_merge_encryption r). Qed.

Lemma length_record_data r : record_ok r -> length (record_data r) = RECORD_SIZE.
Proof. intros Hr. unfold record_data, record_body. cbn [length]. by rewrite enc_size by (by apply record_tuple_valid). Qed.

Lemma record_roundtrip d r : try_from_account_data d = Some r <-> record_ok r /\ d = record_data r.
Proof.
  unfold try_from_account_data. split.
  - destruct (Nat.eqb_spec (length d) RECORD_SIZE) as [Hl|]; [|done]. destruct d as [|b d]; [done|].
    case_bool_decide as Hb; [|done]. injection Hl as Hl. unfold record_of_body.
    pose proof (dec_valid (c := record_fields) d Hl) as Hv.
    destruct (dec record_fields d) as (o & bump & n & v & s) eqn:Hd. destruct (scheme_from_byte s) as [sc|] eqn:Hs; [|done].
    intros [= <-]. destruct Hv as (Ho & Hbu & Hn & Hvi & _). split; [done|]. unfold record_data, record_body. f_equal; [done|].
    cbn [ur_owner ur_bump ur_nullifier_pubkey ur_viewing_pubkey ur_merge_encryption].
    apply scheme_roundtrip in Hs as <-. rewrite <- Hd. symmetry. by apply (enc_dec (c := record_fields)).
  - intros [Hr ->]. rewrite length_record_data, Nat.eqb_refl by done. unfold record_data. rewrite bool_decide_true by done.
    unfold record_of_body, record_body. rewrite dec_enc by (by apply record_tuple_valid).
    rewrite (proj2 (scheme_roundtrip _ _) eq_refl). by destruct r.
Qed.

(** ** Integrity of the records *)

Section integrity.
Context `{R : Runtime} `{!RuntimeLaws R} (program_id : bytes).

Definition record_at (L : Ledger) (a : bytes) (r : UserRecord) : Prop :=
  acct_owner (accounts L a) = program_id /\ try_from_account_data (acct_data (accounts L a)) = Some r.

(** The ledger after a handler that wrote [r] to [v]. *)
Definition wrote (v : View) (r : UserRecord) (L L' : Ledger) : Prop :=
  record_ok r /\ forall a, core L' a = if decide (a = vaddr v) then (program_id, record_data r) else core L a.

Lemma record_at_core L a r :
  record_at L a r <-> exists d, core L a = (program_id, d) /\ try_from_account_data d = Some r.
Proof. unfold record_at, core. naive_solver. Qed.

Lemma record_data_inj r r' : record_ok r -> record_ok r' -> record_data r = record_data r' -> r = r'.
Proof.
  intros Hr Hr' He. apply (f_equal try_from_account_data) in He.
  rewrite (proj2 (record_roundtrip _ r)), (proj2 (record_roundtrip _ r')) in He by done. by injection He.
Qed.

Lemma record_at_wrote v r L L' a r' : wrote v r L L' ->
  record_at L' a r' <-> if decide (a = vaddr v) then r' = r else record_at L a r'.
Proof.
  intros [Hr Hc]. rewrite record_at_core, Hc. case_decide; [|by rewrite record_at_core].
  setoid_rewrite record_roundtrip. split.
  - intros (d & Hd & Hr' & He). apply record_data_inj; [done..|]. congruence.
  - intros ->. by eexists.
Qed.

Lemma write_record_ok v state L u L' : record_ok state -> write_record v state L = (Ok u, L') ->
  L' = upd (vaddr v) (with_data (record_data state)) L.
Proof.
  intros Hs Hw. unfold write_record in Hw. ix_inv.
  pose proof (length_record_data state Hs) as Hlen. unfold record_data in *. cbn [length] in Hlen.
  rewrite H, <- Hlen, Nat.sub_diag. by rewrite app_nil_r.
Qed.

Lemma core_write v d L a : acct_owner (accounts L (vaddr v)) = program_id ->
  core (upd (vaddr v) (with_data d) L) a = if decide (a = vaddr v) then (program_id, d) else core L a.
Proof. intros <-. unfold core. rewrite accounts_upd. by case_decide. Qed.

Lemma create_record_account_ok record payer owner bump space L u L' :
  create_record_account program_id record payer owner bump space L = (Ok u, L') ->
  (forall a, a <> vaddr record -> core L' a = core L a) /\ acct_owner (accounts L' (vaddr record)) = program_id.
Proof.
  intros H. unfold create_record_account in H. ix_inv.
  - apply assign_ok in H as ->. apply allocate_ok in H3 as (_ & _ & ->). breflect.
    apply transfer_ok in H2 as (-> & _).
    split; [intros a Ha; by rewrite !core_upd_ne, core_move|by rewrite accounts_upd_eq].
  - apply assign_ok in H as ->. apply allocate_ok in H3 as (_ & _ & ->).
    split; [intros a Ha; by rewrite !core_upd_ne|by rewrite accounts_upd_eq].
Qed.

Lemma read_record_ok v L r L' : read_record program_id v L = (Ok r, L') -> L' = L /\ record_at L (vaddr v) r.
Proof. intros H. unfold read_record in H. ix_inv. by unfold owned_by in *; breflect. Qed.

(** What a successful instruction did: one record was created by its owner, or
    one record was changed by its owner. *)
Inductive registry_effect (views : list View) (L L' : Ledger) : Prop :=
| Registered record owner r : record ∈ views -> owner ∈ views -> vsigner owner = true ->
    vaddr owner = ur_owner r -> acct_owner (accounts L (vaddr record)) <> program_id ->
    derive_program_address (record_seeds (ur_owner r)) program_id = Some (vaddr record, ur_bump r) ->
    ur_merge_encryption r = Disabled -> wrote record r L L' -> registry_effect views L L'
| Changed record owner r r' : record ∈ views -> owner ∈ views -> vsigner owner = true ->
    vaddr owner = ur_owner r -> record_at L (vaddr record) r ->
    ur_owner r' = ur_owner r -> ur_bump r' = ur_bump r -> ur_nullifier_pubkey r' = ur_nullifier_pubkey r ->
    wrote record r' L L' -> registry_effect views L L'.

Lemma register_effect views n k L u L' : Forall (fun v => is_bytes 32 (vaddr v)) views -> is_bytes 32 n -> is_bytes 33 k ->
  process_register program_id views n k L = (Ok u, L') -> registry_effect views L L'.
Proof.
  intros Hv Hn Hk H. unfold process_register in H. destruct views as [|record [|owner [|payer [|sp rest]]]]; try done.
  unfold check_record_pda in H. ix_inv. destruct x2 as [expected bump]. ix_inv. subst.
  repeat match goal with HF : Forall _ (_ :: _) |- _ => apply Forall_cons in HF as [? HF] end.
  pose proof (derive_ok _ _ _ _ H7) as [_ Hbump].
  assert (Hr : record_ok (mkUserRecord (vaddr owner) x1 n k Disabled)) by done.
  apply write_record_ok in H as ->; [|done]. apply create_record_account_ok in H6 as [Hc Ho].
  apply (Registered _ _ _ record owner (mkUserRecord (vaddr owner) x1 n k Disabled));
    try (done || set_solver); [by unfold owned_by in *; breflect|].
  split; [done|]. intros a. rewrite core_write by done. case_decide; [done|]. by apply Hc.
Qed.

Lemma changed_effect views record owner r r' L L' u : record ∈ views -> owner ∈ views -> vsigner owner = true ->
  vaddr owner = ur_owner r -> record_at L (vaddr record) r -> is_bytes 33 (ur_viewing_pubkey r') ->
  ur_owner r' = ur_owner r -> ur_bump r' = ur_bump r -> ur_nullifier_pubkey r' = ur_nullifier_pubkey r ->
  write_record record r' L = (Ok u, L') -> registry_effect views L L'.
Proof.
  intros Hr Ho Hs Ha Hat Hv Hro Hrb Hrn Hw.
  assert (record_ok r') as Hr'.
  { destruct Hat as [_ ((? & ? & ? & _) & _)%record_roundtrip].
    unfold record_ok. by rewrite Hro, Hrb, Hrn. }
  apply write_record_ok in Hw as ->; [|done].
  eapply (Changed _ _ _ record owner r r'); try done. split; [done|]. intros a. apply core_write, Hat.
Qed.

Lemma update_keys_effect views k L u L' : is_bytes 33 k ->
  process_update_keys program_id views k L = (Ok u, L') -> registry_effect views L L'.
Proof.
  intros Hk H. unfold process_update_keys in H. destruct views as [|record [|owner rest]]; try done. ix_inv.
  apply read_record_ok in H1 as [-> Hat]. eapply (changed_effect _ record owner); [..|exact H]; done || set_solver.
Qed.

Lemma set_merge_encryption_effect views scheme L u L' :
  process_set_merge_encryption program_id views scheme L = (Ok u, L') -> registry_effect views L L'.
Proof.
  intros H. unfold process_set_merge_encryption in H. destruct views as [|record [|owner rest]]; try done. ix_inv.
  apply read_record_ok in H1 as [-> Hat]. eapply (changed_effect _ record owner); [..|exact H]; try (done || set_solver).
  by destruct Hat as [_ ((_ & _ & _ & ?) & _)%record_roundtrip].
Qed.

Lemma registry_effect_of views data L u L' : Forall (fun v => is_bytes 32 (vaddr v)) views ->
  registry_process_instruction program_id views data L = (Ok u, L') -> registry_effect views L L'.
Proof.
  intros Hv H. unfold registry_process_instruction in H. destruct data as [|t payload]; [done|].
  repeat case_match; try done; ix_inv.
  - destruct x as [n k]. apply try_from_bytes_Some in H1 as (_ & _ & Hn & Hk); [|apply _].
    by eapply (register_effect _ n k).
  - apply try_from_bytes_Some in H3 as (_ & _ & Hk); [|apply _]. eapply update_keys_effect; [exact Hk|exact H].
  - by eapply set_merge_encryption_effect.
Qed.

(** C26. Records of the user registry are never lost or taken over: after any
    accepted instruction every record that existed is still a record of the same
    owner, bump and nullifier key, and is unchanged unless its owner signed; and a
    record that did not exist lies at the address derived from its owner, who
    signed, with merging disabled. *)
Theorem registry_record_integrity views data L u L' :
  Forall (fun v => is_bytes 32 (vaddr v)) views ->
  registry_process_instruction program_id views data L = (Ok u, L') ->
  let signed owner := exists v, v ∈ views /\ vsigner v = true /\ vaddr v = owner in
  forall a,
    (forall r, record_at L a r -> exists r', record_at L' a r' /\ ur_owner r' = ur_owner r /\ ur_bump r' = ur_bump r /\
       ur_nullifier_pubkey r' = ur_nullifier_pubkey r /\ (r' = r \/ signed (ur_owner r))) /\
    (forall r', record_at L' a r' -> (exists r, record_at L a r) \/
       (signed (ur_owner r') /\ ur_merge_encryption r' = Disabled /\
        derive_program_address (record_seeds (ur_owner r')) program_id = Some (a, ur_bump r'))).
Proof.
  intros Hv H signed a. apply registry_effect_of in H; [|done].
  destruct H as [v o r0 Hin Ho Hs Ha Hn Hd Hm Hw|v o r0 r1 Hin Ho Hs Ha Hat Hro Hrb Hrn Hw];
    setoid_rewrite (record_at_wrote _ _ _ _ _ _ Hw); case_decide as Hav; try subst a.
  - split; [intros r [? _]; done|]. intros r' ->. right. split_and!; [by exists o|done..].
  - split; [intros r Hr; exists r; by split_and!; [..|left]|]. intros r' Hr'. left. by exists r'.
  - assert (forall r, record_at L (vaddr v) r -> r = r0) as Heq.
    { intros r [_ Hr]. destruct Hat as [_ Hr0]. rewrite Hr in Hr0. by injection Hr0. }
    split; [|intros r' ->; left; by exists r0]. intros r ->%Heq. exists r1. split_and!; try done. right. by exists o.
  - split; [intros r Hr; exists r; by split_and!; [..|left]|]. intros r' Hr'. left. by exists r'.
Qed.

End integrity.

(** ** Witness: a first registration *)

Definition registry_ledger : Ledger :=
  mkLedger (fun _ => mkAccount 1000 SYSTEM_PROGRAM []) [] (fun _ => Ok 500) (mkClock 0 0).

Definition registry_owner : bytes := replicate 32 x07.
Definition registry_record_address : bytes := model_address (record_seeds registry_owner) 255 USER_REGISTRY_PROGRAM_ID.

Definition registry_views : list View :=
  [mkView registry_record_address false true false; mkView registry_owner true false false;
   mkView (replicate 32 x08) true true false; mkView SYSTEM_PROGRAM false false false].

Lemma registry_record_integrity_witness :
  let run := registry_process_instruction (R := model_runtime) USER_REGISTRY_PROGRAM_ID registry_views
               (x00 :: replicate 65 x01) registry_ledger in
  run.1 = Ok tt /\
  exists r', record_at USER_REGISTRY_PROGRAM_ID run.2 registry_record_address r' /\
    ur_merge_encryption r' = Disabled.
Proof.
  intros run. assert (Hrun : run = (Ok tt, run.2)) by (vm_compute; reflexivity).
  assert (Hat : record_at USER_REGISTRY_PROGRAM_ID run.2 registry_record_address
    (mkUserRecord registry_owner 255 (replicate 32 x01) (replicate 33 x01) Disabled)) by (split; vm_compute; reflexivity).
  split; [by rewrite Hrun|]. eexists. split; [exact Hat|].
  assert (Hv : Forall (fun v => is_bytes 32 (vaddr v)) registry_views) by (repeat constructor; vm_compute; reflexivity).
  destruct (proj2 (registry_record_integrity (R := model_runtime) (RuntimeLaws0 := model_runtime_laws)
    _ _ _ _ _ _ Hv Hrun registry_record_address) _ Hat) as [[r [Hr _]]|(_ & Hm & _)]; [|exact Hm].
  exfalso. revert Hr. vm_compute. done.
Defined.
