(* ===== verification/Cache.v ===== *)
(** * Cache accounts

    src/programs/shielded-pool/src/instructions/cache: the loader, the validated
    writer handle [CacheWrite], and the instructions that create and close a
    cache.  The handle borrows the account's data in place, so its methods read
    and write the ledger. *)

From S2P Require Import Prelude ZeroBytes Hasher Codec Errors Ledger AccountChecks State Shared.

(** ** loader.rs *)

Definition load_cache : View -> Ix CacheAccount := load_config cache_codec ca_has_discriminator InvalidCache.
Definition load_cache_mut : View -> Ix CacheAccount := load_config_mut cache_codec ca_has_discriminator InvalidCache.

(** ** write.rs *)

Definition cache_write_load (cache writer : View) (now : Z) : Ix View :=
  do! state <- load_cache_mut cache;
  require negb (negb (bool_decide (vaddr writer = ca_write_authority state))) else pool CacheWriteAuthorityMismatch;
  require negb (expiry_unix_ts state <=? now) else pool CacheExpired;
  mret cache.

(** The state behind the handle. *)
Definition cache_write_state (handle : View) : Ix CacheAccount :=
  do! data <- get_data handle; mret (dec cache_codec data).

Definition cache_write_address (handle : View) : bytes := vaddr handle.

Definition check_slot (handle : View) (slot : Z) : Ix unit :=
  do! state <- cache_write_state handle;
  exec! mlift (ok_or (ca_utxo_hashes state !! Z.to_nat slot) (pool InvalidCacheSlot));
  mret tt.

(** [check_output_tree] on the state behind the handle. *)
Definition check_output_tree (state : CacheAccount) (output_tree_id : Z) : res ProgramError unit :=
  check negb (negb (output_tree_id =? le_val (ca_tree_id state))) else pool CacheTreeMismatch in Ok tt.

Definition set_slot (slot : nat) (utxo_hash : bytes) (c : CacheAccount) : CacheAccount :=
  mkCache (ca_discriminator c) (ca_bump c) (ca_tree_id c) (ca_expires_at c) (ca_rent_sponsor c) (ca_write_authority c)
    (<[slot := utxo_hash]> (ca_utxo_hashes c)).

Definition cache_write (handle : View) (slot : Z) (utxo_hash : bytes) : Ix unit :=
  do! state <- cache_write_state handle;
  exec! mlift (ok_or (ca_utxo_hashes state !! Z.to_nat slot) (pool InvalidCacheSlot));
  set_data handle (enc cache_codec (set_slot (Z.to_nat slot) utxo_hash state)).

(** ** init.rs *)

Record CacheInitParams : Type := mkCacheInit {
  ci_bump : Z;
  ci_tree_id : Z;
  ci_expires_at : Z;
  ci_rent_sponsor : bytes;
  ci_write_authority : bytes;
}.

Definition cache_init (p : CacheInitParams) (v : View) : Ix unit :=
  init_config cache_codec InvalidCache v
    (mkCache CACHE (ci_bump p) (le_bytes 2 (ci_tree_id p)) (i64_to_le (ci_expires_at p)) (ci_rent_sponsor p)
       (ci_write_authority p) (replicate CACHE_CAPACITY zero32)).

(** ** create.rs and close.rs *)

Record CreateCacheData : Type := mkCreateCacheData {
  cc_write_authority : bytes;
  cc_nonce : Z;
  cc_tree_id : Z;
  cc_expires_at : Z;
}.

Section handlers.
Context `{R : Runtime}.

Definition cache_seeds (rent_sponsor : bytes) (nonce : Z) : list bytes := [CACHE_SEED; rent_sponsor; le_bytes 8 nonce].

Definition process_create_cache (accounts : list View) (ix : CreateCacheData) : Ix unit :=
  do! '(payer, iter) <- acc (next_signer (new_iter accounts));
  do! '(cache, iter) <- acc (next_mut iter);
  do! '(system, iter) <- acc (next_account iter);
  do! rest <- acc (remaining_unchecked iter);
  require negb (negb (bool_decide (rest = []))) else pool InvalidInstructionData;
  require negb (negb (is_system (vaddr system))) else pool InvalidSystemProgram;
  do! c <- get_clock;
  require negb (cc_expires_at ix <=? unix_timestamp c) else pool CacheExpiryNotInFuture;
  let rent_sponsor := vaddr payer in
  let seeds := cache_seeds rent_sponsor (cc_nonce ix) in
  do! bump <- mlift (verify_pda (vaddr cache) seeds ID);
  do! a <- account cache;
  if owned_by a ID then
    do! current <- load_cache cache;
    require negb (negb (bool_decide (ca_write_authority current = cc_write_authority ix)) ||
                  negb (bool_decide (ca_tree_id current = le_bytes 2 (cc_tree_id ix))) ||
                  negb (bool_decide (ca_expires_at current = i64_to_le (cc_expires_at ix))))
      else pool CacheConfigMismatch;
    mret tt
  else
    require negb (negb (is_system (acct_owner a)) || negb (length (acct_data a) =? 0)%nat) else pool InvalidCache;
    exec! create_pda_account payer cache (Z.of_nat (csize cache_codec)) ID seeds bump;
    cache_init (mkCacheInit bump (cc_tree_id ix) (cc_expires_at ix) rent_sponsor (cc_write_authority ix)) cache.

Definition process_close_cache (accounts : list View) (data : bytes) : Ix unit :=
  require bool_decide (data = []) else pool InvalidInstructionData;
  let writer_present := (length accounts =? 3)%nat in
  do! '(cache, iter) <- acc (next_mut (new_iter accounts));
  do! '(recipient, iter) <- acc (next_mut iter);
  do! '(writer, iter) <- acc (next_option_signer writer_present iter);
  do! rest <- acc (remaining_unchecked iter);
  require negb (negb (bool_decide (rest = []))) else pool InvalidInstructionData;
  do! c <- get_clock;
  do! state <- load_cache cache;
  exec! (if unix_timestamp c <? expiry_unix_ts state then
           do! writer <- mlift (ok_or writer (pool CacheNotExpired));
           require negb (negb (bool_decide (vaddr writer = ca_write_authority state))) else pool CacheWriteAuthorityMismatch;
           mret tt
         else mret tt);
  require negb (negb (bool_decide (vaddr recipient = ca_rent_sponsor state))) else pool CacheRentRecipientMismatch;
  do! recipient_lamports <- get_lamports recipient;
  do! cache_lamports <- get_lamports cache;
  do! balance <- mlift (ok_or (checked_add 64 recipient_lamports cache_lamports) PeArithmeticOverflow);
  exec! set_lamports recipient balance;
  exec! set_lamports cache 0;
  close cache.

End handlers.
