(* ===== verification/Configs.v ===== *)
(** * Protocol and ring configuration

    src/programs/shielded-pool/src/instructions/protocol_config and ring_config:
    the singleton protocol config, created once by the program's upgrade
    authority, and the per-ring configs, which the ring creates and governance
    activates.  [create_asset_counter.rs] is here too. *)

From S2P Require Import Prelude ZeroBytes Hasher Codec Errors Ledger AccountChecks State Shared.

(** ** Instruction data *)

Record CreateProtocolConfigData : Type := mkCreateProtocolConfig {
  cp_protocol_authority : bytes;
  cp_tree_creation_authority : bytes;
  cp_tree_creation_is_permissionless : Z;
  cp_forester_authority : bytes;
  cp_ring_creation_authority : bytes;
  cp_ring_activation_is_permissionless : Z;
  cp_spl_interface_creation_is_permissionless : Z;
  cp_fee_authority : bytes;
}.

Definition create_protocol_config_codec : Codec CreateProtocolConfigData :=
  iso (fun '(p, (t, (tp, (f, (r, (rp, (sp, fee))))))) => mkCreateProtocolConfig p t tp f r rp sp fee)
      (fun d => (cp_protocol_authority d, (cp_tree_creation_authority d, (cp_tree_creation_is_permissionless d,
         (cp_forester_authority d, (cp_ring_creation_authority d, (cp_ring_activation_is_permissionless d,
         (cp_spl_interface_creation_is_permissionless d, cp_fee_authority d))))))))
      (raw 32 ⊕ raw 32 ⊕ u8 ⊕ raw 32 ⊕ raw 32 ⊕ u8 ⊕ u8 ⊕ raw 32).

Inductive UpdateProtocolConfigData : Type :=
| ProtocolAuthority (a : bytes)
| TreeCreationAuthority (a : bytes)
| ForesterAuthority (a : bytes)
| RingCreationAuthority (a : bytes)
| TreeCreationPermissionless (b : bool)
| RingActivationPermissionless (b : bool)
| SplInterfaceCreationPermissionless (b : bool)
| FeeAuthority (a : bytes).

Record CreateRingConfigData : Type := mkCreateRing {
  cr_program_id : bytes;
  cr_authority : bytes;
}.

Record SetRingActivationData : Set := mkSetActivation {
  sa_activated : Z;
  sa_ring_authority_transact_is_enabled : Z;
}.

Definition set_activation_codec : Codec SetRingActivationData :=
  iso (fun '(a, e) => mkSetActivation a e) (fun d => (sa_activated d, sa_ring_authority_transact_is_enabled d)) (u8 ⊕ u8).

Definition bool_u8 (b : bool) : Z := if b then 1 else 0.

(** ** Constants of the interface crate *)

(** [b"protocol_config"], [b"ring_auth"], [b"spl_asset_counter"] *)
Definition SPP_PROTOCOL_CONFIG_PDA_SEED : bytes :=
  [x70; x72; x6f; x74; x6f; x63; x6f; x6c; x5f; x63; x6f; x6e; x66; x69; x67].
Definition RING_AUTH_PDA_SEED : bytes := [x72; x69; x6e; x67; x5f; x61; x75; x74; x68].
Definition SPL_ASSET_COUNTER_PDA_SEED : bytes :=
  [x73; x70; x6c; x5f; x61; x73; x73; x65; x74; x5f; x63; x6f; x75; x6e; x74; x65; x72].

(** BPFLoaderUpgradeab1e11111111111111111111111 *)
Definition BPF_LOADER_UPGRADEABLE_ID : bytes :=
  be_bytes 32 0x2a8f6914e88a1b0e210153ef763ae2b00c2b93d16c124d2c0537a1004800000.

(** ** protocol_config/create.rs

    The state of a loader-v3 account is decoded by bincode: a parameter. *)

Inductive UpgradeableLoaderState : Type :=
| LoaderUninitialized
| LoaderBuffer (authority : option bytes)
| LoaderProgram (programdata_address : bytes)
| LoaderProgramData (slot : Z) (upgrade_authority_address : option bytes).

Class LoaderState : Type := decode_loader_state : bytes -> option UpgradeableLoaderState.

Section configs.
Context `{R : Runtime} `{LS : LoaderState}.

Definition check_initialization_authority (initialization_authority program program_data : View) : Ix unit :=
  require negb (negb (bool_decide (vaddr program = ID))) else pool UnauthorizedCaller;
  do! p <- account program;
  require negb (negb (owned_by p BPF_LOADER_UPGRADEABLE_ID)) else pool UnauthorizedCaller;
  match decode_loader_state (acct_data p) with
  | Some (LoaderProgram programdata_address) =>
      do! d <- account program_data;
      require negb (negb (bool_decide (vaddr program_data = programdata_address)) ||
                    negb (owned_by d BPF_LOADER_UPGRADEABLE_ID)) else pool UnauthorizedCaller;
      match decode_loader_state (acct_data d) with
      | Some (LoaderProgramData _ (Some upgrade_authority)) =>
          require negb (bool_decide (upgrade_authority = zero32) ||
                        negb (bool_decide (upgrade_authority = vaddr initialization_authority)))
            else pool UnauthorizedCaller;
          mret tt
      | _ => mthrow (pool UnauthorizedCaller)
      end
  | _ => mthrow (pool UnauthorizedCaller)
  end.

(** [ProtocolConfigInitParams::init] *)
Definition protocol_config_init (d : CreateProtocolConfigData) (v : View) : Ix unit :=
  init_config config_codec InvalidProtocolConfig v
    (mkProtocolConfig PROTOCOL_CONFIG (cp_protocol_authority d) (cp_tree_creation_authority d)
       (cp_forester_authority d) (cp_ring_creation_authority d) (cp_fee_authority d)
       (cp_tree_creation_is_permissionless d) (cp_ring_activation_is_permissionless d)
       (cp_spl_interface_creation_is_permissionless d) 0).

Definition process_create_protocol_config (accounts : list View) (data : bytes) : Ix unit :=
  do! d <- mlift (ok_or (try_from_bytes create_protocol_config_codec data) (pool InvalidInstructionData));
  do! '(fee_payer, iter) <- acc (next_signer (new_iter accounts));
  do! '(initialization_authority, iter) <- acc (next_signer iter);
  do! '(protocol_config, iter) <- acc (next_mut iter);
  do! '(system_program, iter) <- acc (next_account iter);
  do! '(program, iter) <- acc (next_account iter);
  do! '(program_data, iter) <- acc (next_account iter);
  require negb (negb (is_system (vaddr system_program))) else PeIncorrectProgramId;
  exec! check_initialization_authority initialization_authority program program_data;
  do! bump <- mlift (verify_pda (vaddr protocol_config) [SPP_PROTOCOL_CONFIG_PDA_SEED] ID);
  exec! mmap_err (caused_by (pool InvalidProtocolConfig))
    (create_pda_account fee_payer protocol_config (Z.of_nat (csize config_codec)) ID [SPP_PROTOCOL_CONFIG_PDA_SEED] bump);
  protocol_config_init d protocol_config.

(** ** protocol_config/update.rs *)

Definition update_protocol_config (data : UpdateProtocolConfigData) (c : ProtocolConfig) : ProtocolConfig :=
  let '(mkProtocolConfig d pa ta fa ra fee tp rp sp n) := c in
  match data with
  | ProtocolAuthority a => mkProtocolConfig d a ta fa ra fee tp rp sp n
  | TreeCreationAuthority a => mkProtocolConfig d pa a fa ra fee tp rp sp n
  | ForesterAuthority a => mkProtocolConfig d pa ta a ra fee tp rp sp n
  | RingCreationAuthority a => mkProtocolConfig d pa ta fa a fee tp rp sp n
  | TreeCreationPermissionless b => mkProtocolConfig d pa ta fa ra fee (bool_u8 b) rp sp n
  | RingActivationPermissionless b => mkProtocolConfig d pa ta fa ra fee tp (bool_u8 b) sp n
  | SplInterfaceCreationPermissionless b => mkProtocolConfig d pa ta fa ra fee tp rp (bool_u8 b) n
  | FeeAuthority a => mkProtocolConfig d pa ta fa ra a tp rp sp n
  end.

Definition process_update_protocol_config (accounts : list View) (data : UpdateProtocolConfigData) : Ix unit :=
  do! '(authority, iter) <- acc (next_signer (new_iter accounts));
  do! '(protocol_config, iter) <- acc (next_mut iter);
  exec! match data with
        | ProtocolAuthority a =>
            do! '(new_authority, iter) <- acc (next_signer iter);
            require negb (negb (bool_decide (vaddr new_authority = a))) else pool InvalidInstructionData;
            mret tt
        | _ => mret tt
        end;
  do! current <- load_and_validate_protocol_authority_mut protocol_config authority;
  store_config config_codec protocol_config (update_protocol_config data current).

(** ** ring_config/loader.rs *)

Definition load_ring_config : View -> Ix RingConfig := load_config ring_codec rc_has_discriminator InvalidRingConfig.
Definition load_ring_config_mut : View -> Ix RingConfig := load_config_mut ring_codec rc_has_discriminator InvalidRingConfig.

Definition load_active_ring_config (v : View) : Ix RingConfig :=
  do! config <- load_ring_config v;
  require negb (negb (rc_is_activated config)) else pool RingNotActivated;
  require negb (rc_is_paused config) else pool RingPaused;
  mret config.

Definition load_and_validate_ring_authority_mut (config_account authority_account : View) : Ix RingConfig :=
  require negb (negb (vsigner authority_account)) else pool InvalidRingConfig;
  do! config <- load_ring_config_mut config_account;
  require negb (negb (rc_check_authority config (vaddr authority_account))) else pool UnauthorizedCaller;
  mret config.

(** ** ring_config/create.rs and init.rs *)

Definition derive_ring_auth (program_id : bytes) : res ProgramError (bytes * Z) :=
  or_panic (derive_program_address [RING_AUTH_PDA_SEED] program_id).

Definition ring_config_init (authority program_id : bytes) (activated : bool) (bump : Z) (v : View) : Ix unit :=
  init_config ring_codec InvalidRingConfig v (mkRingConfig RING_CONFIG authority program_id 0 0 (bool_u8 activated) bump).

Definition process_create_ring_config (accounts : list View) (data : CreateRingConfigData) : Ix unit :=
  do! '(payer, iter) <- acc (next_signer (new_iter accounts));
  do! '(protocol_config, iter) <- acc (next_account iter);
  do! '(ring_config, iter) <- acc (next_mut iter);
  do! '(system_program, iter) <- acc (next_account iter);
  require negb (negb (is_system (vaddr system_program))) else PeIncorrectProgramId;
  require negb (negb (vsigner ring_config)) else pool InvalidRingConfig;
  do! '(expected, ring_auth_bump) <- mlift (derive_ring_auth (cr_program_id data));
  require negb (negb (bool_decide (vaddr ring_config = expected))) else pool InvalidRingConfig;
  do! config <- load_protocol_config protocol_config;
  let activated := allows_permissionless_ring_activation config in
  exec! mmap_err (caused_by (pool InvalidRingConfig))
    (create_with_minimum_balance ring_config (Z.of_nat (csize ring_codec)) ID payer []);
  ring_config_init (cr_authority data) (cr_program_id data) activated ring_auth_bump ring_config.

(** ** ring_config/set_activation.rs, update.rs, update_owner.rs *)

Definition with_activation (activated enabled : Z) (c : RingConfig) : RingConfig :=
  mkRingConfig (rc_discriminator c) (rc_authority c) (rc_program_id c) enabled (rc_paused c) activated (rc_bump c).
Definition with_paused (paused : Z) (c : RingConfig) : RingConfig :=
  mkRingConfig (rc_discriminator c) (rc_authority c) (rc_program_id c) (ring_authority_transact_is_enabled c) paused
    (rc_activated c) (rc_bump c).
Definition with_authority (authority : bytes) (c : RingConfig) : RingConfig :=
  mkRingConfig (rc_discriminator c) authority (rc_program_id c) (ring_authority_transact_is_enabled c) (rc_paused c)
    (rc_activated c) (rc_bump c).

Definition process_set_ring_activation (accounts : list View) (data : bytes) : Ix unit :=
  do! d <- mlift (ok_or (try_from_bytes set_activation_codec data) (pool InvalidInstructionData));
  do! '(authority, iter) <- acc (next_signer (new_iter accounts));
  do! '(protocol_config, iter) <- acc (next_account iter);
  do! '(config, iter) <- acc (next_mut iter);
  exec! validate_ring_creation_authority protocol_config authority;
  do! current <- load_ring_config_mut config;
  store_config ring_codec config
    (with_activation (bool_u8 (negb (sa_activated d =? 0)))
       (bool_u8 (negb (sa_ring_authority_transact_is_enabled d =? 0))) current).

Definition process_update_ring_config (accounts : list View) (paused : bool) : Ix unit :=
  do! '(authority, iter) <- acc (next_signer (new_iter accounts));
  do! '(config, iter) <- acc (next_mut iter);
  do! current <- load_and_validate_ring_authority_mut config authority;
  store_config ring_codec config (with_paused (bool_u8 paused) current).

Definition process_update_ring_config_owner (accounts : list View) (data : bytes) : Ix unit :=
  require bool_decide (data = []) else pool InvalidInstructionData;
  do! '(authority, iter) <- acc (next_signer (new_iter accounts));
  do! '(config, iter) <- acc (next_mut iter);
  do! '(new_authority, iter) <- acc (next_account iter);
  exec! (if negb (bool_decide (vaddr new_authority = zero32)) then acc (check_signer new_authority) else mret tt);
  do! current <- load_and_validate_ring_authority_mut config authority;
  store_config ring_codec config (with_authority (vaddr new_authority) current).

(** ** create_asset_counter.rs *)

Definition load_spl_asset_counter_mut : View -> Ix SplAssetCounter :=
  load_config_mut counter_codec (fun _ => true) InvalidSplAssetRegistry.

(** Run a method on the counter behind the mutable reference. *)
Definition on_counter {A} (v : View) (m : M SplAssetCounter ProgramError A) : Ix A :=
  do! counter <- load_spl_asset_counter_mut v;
  match m counter with
  | (r, counter') => exec! store_config counter_codec v counter'; mlift r
  end.

Definition process_create_asset_counter (accounts : list View) (data : bytes) : Ix unit :=
  require bool_decide (data = []) else pool InvalidInstructionData;
  do! '(authority, iter) <- acc (next_signer (new_iter accounts));
  do! '(protocol_config, iter) <- acc (next_account iter);
  do! '(asset_counter, iter) <- acc (next_mut iter);
  do! '(system_program, iter) <- acc (next_account iter);
  require negb (negb (is_system (vaddr system_program))) else PeIncorrectProgramId;
  do! config <- load_protocol_config protocol_config;
  exec! mlift (map_err of_interface (check_protocol_authority config (vaddr authority)));
  do! bump <- mlift (verify_pda (vaddr asset_counter) [SPL_ASSET_COUNTER_PDA_SEED] ID);
  exec! mmap_err (caused_by (pool InvalidSplAssetRegistry))
    (create_pda_account authority asset_counter (Z.of_nat (csize counter_codec)) ID [SPL_ASSET_COUNTER_PDA_SEED] bump);
  on_counter asset_counter (mmap_err of_interface sc_init).

End configs.
