(* ===== verification/Settlement.v ===== *)
(** * Settlement of public amounts

    src/programs/shielded-pool/src/instructions/settlement: validating the
    accounts a public amount moves between, and moving it: lamports by the
    System program, tokens by the SPL token program, whose vault balance is read
    before and after a deposit.  [create_spl_interface] creates a mint's vault and
    asset registry entry.

    The token program and the decoding of its accounts are parameters. *)

From S2P Require Import Prelude ZeroBytes Hasher Codec Errors Ledger AccountChecks State Shared Configs.

(** ** The token program *)

(** The base fields of a token account. *)
Record PodAccount : Type := mkPodAccount {
  ta_mint : bytes;
  ta_owner : bytes;
  ta_amount : Z;
  ta_state : Z;
}.

(** The mint extensions the code names; the others carry their number. *)
Inductive ExtensionType : Set :=
| InterestBearingConfig | MetadataPointer | TokenMetadata | GroupPointer | TokenGroup | GroupMemberPointer
| TokenGroupMember | ScaledUiAmount | ConfidentialTransferMint | ConfidentialTransferFeeConfig
| ConfidentialMintBurn | TransferFeeConfig
| OtherExtension (n : Z).

Class TokenProgram : Type := {
  (** [PodStateWithExtensions::<PodAccount>::unpack]. *)
  unpack_account : bytes -> option PodAccount;
  (** [PodStateWithExtensions::<PodMint>::unpack]: whether the mint is initialised, and its extensions. *)
  unpack_mint : bytes -> option (bool * option (list ExtensionType));
  (** [try_calculate_account_len] of the account extensions a mint's extensions require. *)
  token_account_len : list ExtensionType -> option Z;
  (** A call of a token program with accounts, each passed writable or not. *)
  token_invoke (program : View) (metas : list (View * bool)) (data : bytes) (seeds : list bytes) : Ix unit;
}.

(** What the runtime enforces of any call: accounts not passed as writable are
    unchanged, an account of another program keeps its owner and data and loses no
    lamports, and an account changes its owner only with zeroed data. *)
Class TokenLaws (T : TokenProgram) : Prop := {
  invoke_unwritten : forall program metas data seeds L u L', token_invoke program metas data seeds L = (Ok u, L') ->
    forall a, (forall v, (v, true) ∈ metas -> vaddr v <> a) -> accounts L' a = accounts L a;
  invoke_foreign : forall program metas data seeds L u L', token_invoke program metas data seeds L = (Ok u, L') ->
    forall a, acct_owner (accounts L a) <> vaddr program ->
    core L' a = core L a /\ lamports (accounts L a) <= lamports (accounts L' a);
  invoke_assigned : forall program metas data seeds L u L', token_invoke program metas data seeds L = (Ok u, L') ->
    forall a, acct_owner (accounts L' a) <> acct_owner (accounts L a) -> Forall (eq x00) (acct_data (accounts L' a));
  invoke_rest : forall program metas data seeds L u L', token_invoke program metas data seeds L = (Ok u, L') ->
    log L' = log L /\ clock L' = clock L /\ minimum_balance L' = minimum_balance L;
}.

(** ** Constants of the interface crate *)

(** CiNmas621VuyofiDSrEPfTXHKrdZuB6jMKECyNiMpLXE *)
Definition SOL_INTERFACE : bytes := be_bytes 32 0xae09fbb938445069bb9fa14119780f33e3abbfd51227271439ed93e4b9397dfd.
Definition SOL_INTERFACE_BUMP : Z := 248.
(** [b"sol_interface"] *)
Definition SOL_INTERFACE_PDA_SEED : bytes := [x73; x6f; x6c; x5f; x69; x6e; x74; x65; x72; x66; x61; x63; x65].
Definition DEFAULT_SOL_INTERFACE_INDEX_SEED : bytes := [x00].
(** CaM8DbtJ2mSecgaHYo9xeT7VSKq7AnaqEUm5p7e5LW4a *)
Definition SHIELDED_POOL_CPI_AUTHORITY : bytes :=
  be_bytes 32 0xabfb7a480227525b88b95201efecd5a2264df8eef26789684340f44e7688e63b.
(** [b"cpi_authority"] *)
Definition SHIELDED_POOL_CPI_AUTHORITY_PDA_SEED : bytes :=
  [x63; x70; x69; x5f; x61; x75; x74; x68; x6f; x72; x69; x74; x79].
Definition SHIELDED_POOL_CPI_AUTHORITY_BUMP : Z := 250.
(** [b"spl_asset_vault"], [b"spl_asset_registry"] *)
Definition SPL_INTERFACE_PDA_SEED : bytes :=
  [x73; x70; x6c; x5f; x61; x73; x73; x65; x74; x5f; x76; x61; x75; x6c; x74].
Definition SPL_ASSET_REGISTRY_PDA_SEED : bytes :=
  [x73; x70; x6c; x5f; x61; x73; x73; x65; x74; x5f; x72; x65; x67; x69; x73; x74; x72; x79].
Definition SPL_TOKEN_PROGRAM_ID : bytes := be_bytes 32 0x6ddf6e1d765a193d9cbe146ceeb79ac1cb485ed5f5b37913a8cf5857eff00a9.
(** TokenzQdBNbLqP5VEhdkAS6EPFLC1PHnBqCXEpPxuEb *)
Definition SPL_TOKEN_2022_PROGRAM_ID : bytes :=
  be_bytes 32 0x6ddf6e1ee758fde18425dbce46ccddab61afc4d83b90d27febdf928d8a18bfc.
Definition SPL_TOKEN_ACCOUNT_INITIALIZED : Z := 1.
Definition SPL_TOKEN_TRANSFER_CHECKED_DISCRIMINATOR : Z := 12.
Definition SPL_TOKEN_INITIALIZE_ACCOUNT3_DISCRIMINATOR : Z := 18.
Definition SPL_TOKEN_MINT_DECIMALS_OFFSET : nat := 44.

(** ** account.rs *)

Record SettlementAccountsSol : Type := mkSolSettlement {
  sol_interface_account : View;
  sol_interface_bump : Z;
  sol_recipient_account : View;
}.

Record SplDepositAccounts : Type := mkSplDeposit {
  sd_mint_account : View;
  sd_decimals : Z;
  sd_spl_interface_account : View;
  sd_token_authority_account : View;
  sd_user_token_account : View;
  sd_token_program_account : View;
}.

Record SplWithdrawalAccounts : Type := mkSplWithdrawal {
  sw_cpi_authority_account : View;
  sw_mint_account : View;
  sw_decimals : Z;
  sw_spl_interface_account : View;
  sw_user_token_account : View;
  sw_token_program_account : View;
}.

Inductive Settlement : Type :=
| SolDeposit (a : SettlementAccountsSol)
| SolWithdrawal (a : SettlementAccountsSol)
| SplDeposit (a : SplDepositAccounts)
| SplWithdrawal (a : SplWithdrawalAccounts).

Section settlement.
Context `{R : Runtime} `{T : TokenProgram}.

(** ** sol.rs *)

Definition settle_sol (s : SettlementAccountsSol) (amount : Z) (is_deposit : bool) : Ix unit :=
  if is_deposit then sys_transfer (sol_recipient_account s) (sol_interface_account s) amount []
  else sys_transfer (sol_interface_account s) (sol_recipient_account s) amount
         [SOL_INTERFACE_PDA_SEED; DEFAULT_SOL_INTERFACE_INDEX_SEED; [byte_of (sol_interface_bump s)]].

(** ** spl.rs *)

Definition transfer_checked_data (amount decimals : Z) : bytes :=
  [byte_of SPL_TOKEN_TRANSFER_CHECKED_DISCRIMINATOR] ++ le_bytes 8 amount ++ [byte_of decimals].

(** [SplTransferCpi::invoke_signed] *)
Definition spl_transfer (token_program from mint to authority : View) (amount decimals : Z) (seeds : list bytes) : Ix unit :=
  token_invoke token_program [(from, true); (mint, false); (to, true); (authority, false)]
    (transfer_checked_data amount decimals) seeds.

Definition token_account_amount (v : View) : Ix Z :=
  do! data <- get_data v;
  mlift (ok_or (ta_amount <$> unpack_account data) (pool PublicSettlementFailed)).

Definition settle_spl_deposit (s : SplDepositAccounts) (amount : Z) : Ix unit :=
  do! interface_amount_before <- token_account_amount (sd_spl_interface_account s);
  exec! spl_transfer (sd_token_program_account s) (sd_user_token_account s) (sd_mint_account s)
    (sd_spl_interface_account s) (sd_token_authority_account s) amount (sd_decimals s) [];
  do! interface_amount_after <- token_account_amount (sd_spl_interface_account s);
  do! expected_interface_amount <- mlift (ok_or (checked_add 64 interface_amount_before amount)
                                            (pool PublicSettlementFailed));
  require negb (negb (interface_amount_after =? expected_interface_amount)) else pool PublicSettlementFailed;
  mret tt.

Definition settle_spl_withdrawal (s : SplWithdrawalAccounts) (amount : Z) : Ix unit :=
  spl_transfer (sw_token_program_account s) (sw_spl_interface_account s) (sw_mint_account s) (sw_user_token_account s)
    (sw_cpi_authority_account s) amount (sw_decimals s)
    [SHIELDED_POOL_CPI_AUTHORITY_PDA_SEED; [byte_of SHIELDED_POOL_CPI_AUTHORITY_BUMP]].

(** ** mod.rs *)

Definition committed_accounts (s : Settlement) : View * View :=
  match s with
  | SolDeposit a | SolWithdrawal a => (sol_interface_account a, sol_recipient_account a)
  | SplDeposit a => (sd_mint_account a, sd_user_token_account a)
  | SplWithdrawal a => (sw_mint_account a, sw_user_token_account a)
  end.

Definition settle (s : Settlement) (amount : Z) : Ix unit :=
  match s with
  | SolDeposit a => settle_sol a amount true
  | SolWithdrawal a => settle_sol a amount false
  | SplDeposit a => settle_spl_deposit a amount
  | SplWithdrawal a => settle_spl_withdrawal a amount
  end.

Definition is_deposit (s : Settlement) : bool :=
  match s with SolDeposit _ | SplDeposit _ => true | _ => false end.

Definition spl_asset (s : Settlement) : res ProgramError (option bytes) :=
  match s with
  | SolDeposit _ | SolWithdrawal _ => Ok None
  | SplDeposit a => Ok (Some (vaddr (sd_mint_account a)))
  | SplWithdrawal a => Ok (Some (vaddr (sw_mint_account a)))
  end.

(** ** validate.rs *)

Record TokenMintState : Type := mkTokenMintState {
  tm_mint : bytes;
  tm_decimals : Z;
}.

Record ValidatedSplSettlement : Type := mkValidatedSpl {
  vs_mint : bytes;
  vs_decimals : Z;
  vs_user_token_account_authority : bytes;
}.

Definition validate_token_program (token_program : bytes) : res ProgramError unit :=
  check bool_decide (token_program = SPL_TOKEN_PROGRAM_ID) || bool_decide (token_program = SPL_TOKEN_2022_PROGRAM_ID)
    else pool InvalidSettlementAccounts in Ok tt.

Definition read_token_mint (mint : View) : Ix TokenMintState :=
  do! data <- get_data mint;
  do! decimals <- mlift (ok_or (data !! SPL_TOKEN_MINT_DECIMALS_OFFSET) (pool InvalidSettlementAccounts));
  mret (mkTokenMintState (vaddr mint) (byte_val decimals)).

Definition validate_sol_settlement (sol_interface recipient : View) : Ix Z :=
  do! a <- account sol_interface;
  require negb (negb (bool_decide (vaddr sol_interface = SOL_INTERFACE)) || negb (vwritable sol_interface) ||
                negb (vwritable recipient) || negb (owned_by a SYSTEM_PROGRAM)) else pool InvalidSettlementAccounts;
  mret SOL_INTERFACE_BUMP.

Definition validate_cpi_authority (v : View) : res ProgramError unit :=
  check negb (negb (bool_decide (vaddr v = SHIELDED_POOL_CPI_AUTHORITY))) else pool InvalidSettlementAccounts in Ok tt.

Record TokenAccountState : Type := mkTokenAccountState {
  tas_mint : bytes;
  tas_owner : bytes;
}.

Definition read_token_account (v : View) (token_program : bytes) : Ix TokenAccountState :=
  exec! mlift (validate_token_program token_program);
  do! a <- account v;
  require negb (negb (owned_by a token_program)) else pool InvalidSettlementAccounts;
  do! state <- mlift (ok_or (unpack_account (acct_data a)) (pool InvalidSettlementAccounts));
  require negb (negb (ta_state state =? SPL_TOKEN_ACCOUNT_INITIALIZED)) else pool InvalidSettlementAccounts;
  mret (mkTokenAccountState (ta_mint state) (ta_owner state)).

Definition validate_spl_settlement (mint_account spl_interface_account sender_token_account token_program : View)
    (interface_pda_bump : Z) : Ix ValidatedSplSettlement :=
  require negb (negb (vwritable spl_interface_account) || negb (vwritable sender_token_account))
    else pool InvalidSettlementAccounts;
  do! spl_interface_pda_state <- read_token_account spl_interface_account (vaddr token_program);
  do! sender_state <- read_token_account sender_token_account (vaddr token_program);
  do! mint_state <- read_token_mint mint_account;
  require negb (negb (bool_decide (tm_mint mint_state = tas_mint spl_interface_pda_state)) ||
                negb (bool_decide (tas_mint spl_interface_pda_state = tas_mint sender_state)) ||
                negb (bool_decide (tas_owner spl_interface_pda_state = SHIELDED_POOL_CPI_AUTHORITY)))
    else pool InvalidSettlementAccounts;
  let expected_interface_pda :=
    derive_address [SPL_INTERFACE_PDA_SEED; tas_mint spl_interface_pda_state] interface_pda_bump ID in
  require negb (negb (bool_decide (vaddr spl_interface_account = expected_interface_pda)))
    else pool InvalidSettlementAccounts;
  mret (mkValidatedSpl (tm_mint mint_state) (tm_decimals mint_state) (tas_owner sender_state)).

Definition validate_spl_deposit_settlement (mint_account spl_interface_account user_token_account token_program_account : View)
    (interface_pda_bump : Z) (token_authority_account : View) : Ix ValidatedSplSettlement :=
  require negb (negb (vsigner token_authority_account)) else pool SplTokenAuthorityMustSign;
  do! settlement <- validate_spl_settlement mint_account spl_interface_account user_token_account token_program_account
                      interface_pda_bump;
  require negb (negb (bool_decide (vs_user_token_account_authority settlement = vaddr token_authority_account)))
    else pool InvalidSettlementAccounts;
  mret settlement.

Definition validate_spl_withdrawal_settlement
    (cpi_authority_account mint_account spl_interface_account user_token_account token_program_account : View)
    (interface_pda_bump : Z) : Ix ValidatedSplSettlement :=
  exec! mlift (validate_cpi_authority cpi_authority_account);
  validate_spl_settlement mint_account spl_interface_account user_token_account token_program_account interface_pda_bump.

(** ** create_spl_interface *)

Definition is_allowed_mint_extension (e : ExtensionType) : bool :=
  match e with OtherExtension _ => false | _ => true end.

Definition validate_token_mint_for_interface (mint : View) (token_program : bytes) : Ix Z :=
  require negb (negb (bool_decide (token_program = SPL_TOKEN_PROGRAM_ID)) &&
                negb (bool_decide (token_program = SPL_TOKEN_2022_PROGRAM_ID))) else pool UnsupportedSplTokenProgram;
  do! a <- account mint;
  require negb (negb (owned_by a token_program)) else pool InvalidSplTokenMint;
  do! '(is_initialized, extensions) <- mlift (ok_or (unpack_mint (acct_data a)) (pool InvalidSplTokenMint));
  require negb (negb is_initialized) else pool InvalidSplTokenMint;
  do! extension_types <- mlift (ok_or extensions (pool InvalidSplTokenMint));
  require negb (negb (forallb is_allowed_mint_extension extension_types)) else pool UnsupportedToken2022Extension;
  mlift (ok_or (token_account_len extension_types) (pool InvalidSplTokenMint)).

(** [RegistryInitParams::init] *)
Definition registry_init (mint : bytes) (asset_id : Z) (v : View) : Ix unit :=
  init_config registry_codec InvalidSplAssetRegistry v (sr_set mint asset_id (mkRegistry 0 (replicate 7 x00) zero32 0)).

(** [SplInterfaceInitParams::init] *)
Definition spl_interface_init (token_program spl_interface mint : View) : Ix unit :=
  mmap_err (caused_by (pool InvalidSplAssetRegistry))
    (token_invoke token_program [(spl_interface, true); (mint, false)]
       ([byte_of SPL_TOKEN_INITIALIZE_ACCOUNT3_DISCRIMINATOR] ++ SHIELDED_POOL_CPI_AUTHORITY) []).

Definition process_create_spl_interface (accounts : list View) (data : bytes) : Ix unit :=
  require bool_decide (data = []) else pool InvalidInstructionData;
  do! '(authority, iter) <- acc (next_signer (new_iter accounts));
  do! '(protocol_config, iter) <- acc (next_account iter);
  do! '(asset_counter, iter) <- acc (next_mut iter);
  do! '(registry_entry, iter) <- acc (next_mut iter);
  do! '(mint, iter) <- acc (next_account iter);
  do! '(spl_interface, iter) <- acc (next_mut iter);
  do! '(system_program, iter) <- acc (next_account iter);
  do! '(token_program, iter) <- acc (next_account iter);
  require negb (negb (is_system (vaddr system_program))) else PeIncorrectProgramId;
  do! account_len <- validate_token_mint_for_interface mint (vaddr token_program);
  do! config <- load_protocol_config protocol_config;
  exec! (if negb (allows_permissionless_spl_interface_creation config)
         then mlift (map_err of_interface (check_protocol_authority config (vaddr authority))) else mret tt);
  let mint_key := vaddr mint in
  do! asset_id <- on_counter asset_counter
    (do! counter <- mget;
     exec! mlift (map_err (caused_by (pool InvalidSplAssetRegistry)) (sc_check_discriminator counter));
     mmap_err (caused_by (pool InvalidSplAssetRegistry)) allocate_id);
  do! registry_bump <- mlift (verify_pda (vaddr registry_entry) [SPL_ASSET_REGISTRY_PDA_SEED; mint_key] ID);
  do! registry_len <- data_len registry_entry;
  require negb (negb (registry_len =? 0)) else pool InvalidSplAssetRegistry;
  exec! mmap_err (caused_by (pool InvalidSplAssetRegistry))
    (create_pda_account authority registry_entry (Z.of_nat (csize registry_codec)) ID
       [SPL_ASSET_REGISTRY_PDA_SEED; mint_key] registry_bump);
  exec! registry_init mint_key asset_id registry_entry;
  do! spl_interface_bump <- mlift (verify_pda (vaddr spl_interface) [SPL_INTERFACE_PDA_SEED; mint_key] ID);
  do! interface_len <- data_len spl_interface;
  require negb (negb (interface_len =? 0)) else pool InvalidSplAssetRegistry;
  exec! mmap_err (caused_by (pool InvalidSplAssetRegistry))
    (create_pda_account authority spl_interface account_len (vaddr token_program)
       [SPL_INTERFACE_PDA_SEED; mint_key] spl_interface_bump);
  spl_interface_init token_program spl_interface mint.

End settlement.
