(* ===== verification/Merge.v ===== *)
(** * Merges

    src/programs/shielded-pool/src/instructions/merge and merge_ring, and the
    instruction data of src/program-libs/interface (merge_transact.rs and
    merge_ring.rs): spend up to fifty-two inputs of one tree into one output.
    The default rail binds the proof to the owner's user-registry record; the
    ring rail to the ring's config.  The handlers take the decoded instruction
    data; [validate_shape] is part of decoding. *)

From S2P Require Import Prelude ZeroBytes Hasher HashChain Codec Smt Batch NullifierTree TreeAccount Errors TreeSlot Ledger AccountChecks State Event Shared NullifierPdas Circuit UserRegistry Cache Configs.

(** ** Instruction data *)

Definition MERGE_DEFAULT_INPUT_COUNT : nat := 24.
Definition MAX_MERGE_INPUTS : nat := 52.
Definition MERGE_SUPPORTED_INPUT_COUNTS : list nat := [8%nat; MERGE_DEFAULT_INPUT_COUNT; MAX_MERGE_INPUTS].
Definition MAX_MERGE_OUTPUT_ENCRYPTION_PUBLIC_INPUTS : nat := 4.

Record MergeProofData : Type := mkMergeProof {
  mp_a : bytes;
  mp_b : bytes;
  mp_c : bytes;
}.

Inductive MergeOutputEncryption : Type :=
| PoseidonCtrV1 (salt : bytes) (ciphertext : list bytes).

Record MergeTransactIxData : Type := mkMergeIx {
  mt_expiry_unix_ts : Z;
  mt_proof : MergeProofData;
  mt_output_utxo_hash : bytes;
  mt_output_encryption : MergeOutputEncryption;
  mt_private_tx_hash : bytes;
  mt_nullifiers : list bytes;
  mt_utxo_tree_root_index : Z;
  mt_nullifier_tree_root_index : Z;
  mt_cache_slot : option Z;
}.

Record MergeRingIxData : Type := mkMergeRingIx {
  mr_output_ring_data_hash : bytes;
  mr_merge : MergeTransactIxData;
}.

Definition merge_circuit_width (input_count : nat) : option nat :=
  if (input_count =? 0)%nat then None
  else find (fun width => (input_count <=? width)%nat) MERGE_SUPPORTED_INPUT_COUNTS.

Definition validate_shape (ix : MergeTransactIxData) : bool :=
  match merge_circuit_width (length (mt_nullifiers ix)) with None => false | Some _ => true end.

Definition encryption_is_canonical (e : MergeOutputEncryption) : bool :=
  match e with PoseidonCtrV1 _ ciphertext => forallb is_canonical_bn254_scalar_be ciphertext end.

(** [try_push] onto an array of capacity [n]. *)
Definition try_push {A} (n : nat) (l : list A) (x : A) : option (list A) :=
  if (length l <? n)%nat then Some (l ++ [x]) else None.

Definition try_extend {A} (n : nat) (l xs : list A) : option (list A) :=
  if (length l + length xs <=? n)%nat then Some (l ++ xs) else None.

Definition append_public_inputs (n : nat) (e : MergeOutputEncryption) (inputs : list bytes) : option (list bytes) :=
  match e with
  | PoseidonCtrV1 salt ciphertext => inputs ← try_push n inputs (right_align salt); try_extend n inputs ciphertext
  end.

(** ** Owner binding and proof inputs (verify.rs) *)

Inductive MergeOwnerBinding : Type :=
| BindDefault (signing_pk_field nullifier_pk : bytes) (output_encryption : MergeOutputEncryption)
| BindRing (ring_program_id output_ring_data_hash : bytes).

Definition merge_instruction_tag (b : MergeOwnerBinding) : InstructionTag :=
  match b with BindDefault _ _ _ => MergeTransact | BindRing _ _ => RingMergeTransact end.

Record MergeProofInputs : Type := mkMergeInputs {
  mi_tree_slot : TreeSlot;
  mi_output_tree_id : bytes;
  mi_external_data_hash : bytes;
  mi_allow_dummy_inputs : bytes;
  mi_owner_binding : MergeOwnerBinding;
}.

Section hashes.
Context `{SP : SolPoseidon} `{SH : SolHash} `{G : PoolGroth16}.

(** [MergeExternalDataHash::hash] *)
Definition merge_external_data_hash (discriminator expiry_unix_ts : Z) (output_utxo_hash : bytes)
    (cache : option (bytes * Z)) : res HasherError bytes :=
  let preimage := [byte_of discriminator] ++ be_bytes 8 expiry_unix_ts ++ output_utxo_hash ++
    match cache with
    | Some (address, slot) => [x01] ++ address ++ [byte_of slot]
    | None => [x00]
    end in
  Sha256BE.hash preimage.

Definition circuit_width (ix : MergeTransactIxData) : res ProgramError nat :=
  ok_or (merge_circuit_width (length (mt_nullifiers ix))) (pool InvalidMergeShape).

Definition merge_verifying_key (ix : MergeTransactIxData) (binding : MergeOwnerBinding) : res ProgramError PoolKey :=
  let? width := circuit_width ix in
  match binding, width with
  | BindDefault _ _ (PoseidonCtrV1 _ _), 8%nat => Ok (merge 8)
  | BindDefault _ _ (PoseidonCtrV1 _ _), 24%nat => Ok (merge 24)
  | BindDefault _ _ (PoseidonCtrV1 _ _), 52%nat => Ok (merge 52)
  | BindRing _ _, 8%nat => Ok (merge_ring 8)
  | BindRing _ _, 24%nat => Ok (merge_ring 24)
  | BindRing _ _, 52%nat => Ok (merge_ring 52)
  | _, _ => Err (pool InvalidMergeShape)
  end.

Definition hashed {A} (r : res HasherError A) : res ProgramError A := map_err of_hasher r.

Definition merge_public_input_hash (ix : MergeTransactIxData) (derived : MergeProofInputs) : res ProgramError bytes :=
  let? width := circuit_width ix in
  let? nullifier_chain := hashed (create_padded_right_hash_chain_4 (mt_nullifiers ix) width) in
  let? slot_chain := hashed (populated_tree_slots_hash_chain [mi_tree_slot derived]) in
  let? prefix_hash := hashed (create_hash_chain_4_from_slice
    [nullifier_chain; mt_output_utxo_hash ix; slot_chain; mi_output_tree_id derived; mt_private_tx_hash ix;
     mi_external_data_hash derived; mi_allow_dummy_inputs derived]) in
  match mi_owner_binding derived with
  | BindDefault signing_pk_field nullifier_pk output_encryption =>
      let? inputs := ok_or (append_public_inputs (3 + MAX_MERGE_OUTPUT_ENCRYPTION_PUBLIC_INPUTS) output_encryption
                              [prefix_hash; signing_pk_field; nullifier_pk]) (pool InvalidMergeShape) in
      hashed (create_hash_chain_4_from_slice inputs)
  | BindRing ring_program_id output_ring_data_hash =>
      hashed (create_hash_chain_4_from_slice [prefix_hash; output_ring_data_hash; ring_program_id])
  end.

(** [MergeProof::verify] *)
Definition merge_verify (ix : MergeTransactIxData) (derived : MergeProofInputs) : res ProgramError unit :=
  let? public_input_hash := merge_public_input_hash ix derived in
  let p := mt_proof ix in
  let? vk := merge_verifying_key ix (mi_owner_binding derived) in
  verify_groth16 (mkGroth16Proof (mp_a p) (mp_b p) (mp_c p) None) public_input_hash vk
    InvalidTransactProofEncoding TransactProofVerificationFailed.

End hashes.

(** ** cache.rs *)

Record MergeCacheAccounts : Type := mkMergeCache {
  mc_cache : View;
  mc_writer : View;
  mc_slot : Z;
}.

Definition parse_cache_accounts (iter : AccountIterator) (cache_slot : option Z) : Ix (option MergeCacheAccounts) :=
  do! '(accounts, iter) <- match cache_slot with
    | Some slot =>
        do! '(cache, iter) <- acc (next_mut iter);
        do! '(writer, iter) <- acc (next_signer iter);
        mret (Some (mkMergeCache cache writer slot), iter)
    | None => mret (None, iter)
    end;
  do! rest <- acc (remaining_unchecked iter);
  require negb (negb (bool_decide (rest = []))) else pool InvalidMergeShape;
  mret accounts.

Definition load_merge_cache (accounts : option MergeCacheAccounts) (now : Z) : Ix (option (View * Z)) :=
  match accounts with
  | None => mret None
  | Some a =>
      do! cache <- cache_write_load (mc_cache a) (mc_writer a) now;
      exec! check_slot cache (mc_slot a);
      mret (Some (cache, mc_slot a))
  end.

(** ** account.rs *)

Section merge.
Context `{SP : SolPoseidon} `{SH : SolHash} `{G : PoolGroth16} `{W : Wincode} `{R : Runtime}.

(** [for _ in 0..n { try_push(iter.next_mut(..)) }] *)
Fixpoint next_muts (n : nat) (e : ProgramError) (capacity : nat) (pushed : list View) (iter : AccountIterator)
    : Ix (list View * AccountIterator) :=
  match n with
  | O => mret (pushed, iter)
  | S n' =>
      do! '(v, iter) <- acc (next_mut iter);
      do! pushed <- mlift (ok_or (try_push capacity pushed v) e);
      next_muts n' e capacity pushed iter
  end.

Record MergeTransactAccounts : Type := mkMergeAccounts {
  ma_input_tree : View;
  ma_output_tree : View;
  ma_payer : View;
  ma_user_record : View;
  ma_nullifier_pdas : list View;
  ma_cache : option MergeCacheAccounts;
}.

Definition merge_validate_and_parse (accounts : list View) (input_count : nat) (cache_slot : option Z)
    : Ix MergeTransactAccounts :=
  do! '(input_tree, iter) <- acc (next_mut (new_iter accounts));
  do! '(output_tree, iter) <- acc (next_mut iter);
  do! '(payer, iter) <- acc (next_signer iter);
  do! '(user_record, iter) <- acc (next_account iter);
  do! '(system_program, iter) <- acc (next_account iter);
  require negb (negb (is_system (vaddr system_program))) else pool InvalidSystemProgram;
  do! '(shielded_pool_program, iter) <- acc (next_account iter);
  require negb (negb (bool_decide (vaddr shielded_pool_program = ID))) else PeIncorrectProgramId;
  do! '(nullifier_pdas, iter) <- next_muts input_count (pool InvalidMergeShape) MAX_MERGE_INPUTS [] iter;
  do! cache <- parse_cache_accounts iter cache_slot;
  mret (mkMergeAccounts input_tree output_tree payer user_record nullifier_pdas cache).

Record UserPkFields : Type := mkUserPk {
  signing_pk_field : bytes;
  nullifier_pk : bytes;
  signing_view_tag : bytes;
  merge_encryption : MergeEncryptionScheme;
}.

Definition load_user_record (v : View) : Ix UserPkFields :=
  do! a <- account v;
  require negb (negb (owned_by a USER_REGISTRY_PROGRAM_ID)) else pool InvalidUserRecord;
  do! record <- mlift (ok_or (try_from_account_data (acct_data a)) (pool InvalidUserRecord));
  do! '(expected_record, expected_bump) <-
    mlift (ok_or (derive_program_address [USER_RECORD_SEED; ur_owner record] USER_REGISTRY_PROGRAM_ID)
             (pool InvalidUserRecord));
  require negb (negb (bool_decide (vaddr v = expected_record)) || negb (ur_bump record =? expected_bump))
    else pool InvalidUserRecord;
  do! identity <- mlift (hashed (solana_owner_identity (ur_owner record)));
  mret (mkUserPk identity (ur_nullifier_pubkey record) (ur_owner record) (ur_merge_encryption record)).

(** ** processor.rs *)

Record MergeCoreAccounts : Type := mkMergeCore {
  mca_input_tree : View;
  mca_output_tree : View;
  mca_payer : View;
  mca_nullifier_pdas : list View;
}.

Definition validate_field_elements (ix : MergeTransactIxData) : res ProgramError unit :=
  let? _ := check_field_elements (mt_nullifiers ix) NonCanonicalInputNullifier in
  let? _ := check_nonzero_field_elements (mt_nullifiers ix) ZeroInputNullifier in
  let? _ := check_field_element (mt_output_utxo_hash ix) NonCanonicalOutputUtxoHash in
  check_field_element (mt_private_tx_hash ix) NonCanonicalPrivateTxHash.

(** [for nullifier in nullifiers { insert_nullifier_into_queue(nullifier)?; }] *)
Fixpoint queue_nullifiers (nullifiers : list bytes) : M TreeAccountLayout ProgramError unit :=
  match nullifiers with
  | [] => mret tt
  | nullifier :: rest =>
      exec! mmap_err (caused_by (pool NullifierTreeUpdateFailed))
        (nullifier_tree (insert_nullifier_into_queue nullifier));
      queue_nullifiers rest
  end.

Definition apply_input_tree (ix : MergeTransactIxData) : M TreeAccountLayout ProgramError (TreeSlot * Z) :=
  do! tree <- mget;
  do! utxo_root <- mlift (map_err tree_error (get_utxo_tree_root tree (mt_utxo_tree_root_index ix)));
  do! nullifier_root <- mlift (map_err tree_error (get_nullifier_tree_root tree (mt_nullifier_tree_root_index ix)));
  let first_input_queue_seq := queue_next_index (nullifier tree) in
  exec! queue_nullifiers (mt_nullifiers ix);
  mret (mkSlot (tree_id_array tree) utxo_root nullifier_root, first_input_queue_seq).

(** The block that holds the input tree. *)
Definition spend_input_tree (address : bytes) (ix : MergeTransactIxData) (external_data_hash : bytes)
    (owner_binding : MergeOwnerBinding) : M TreeAccountLayout ProgramError (InputTreeResult * MergeProofInputs) :=
  do! tree <- mget;
  do! headroom <- mlift (map_err tree_error (dummy_input_headroom tree));
  let input_count := Z.of_nat (length (mt_nullifiers ix)) in
  let allow_dummy_inputs := input_count <=? headroom in
  do! '(slot, first_seq) <- apply_input_tree ix;
  do! tree_fee <- mmap_err tree_error credit_tree_fee;
  exec! mmap_err tree_error (record_nullifier_pdas_created input_count);
  do! tree <- mget;
  mret (mkInputTreeResult (mkInputTreeSequence address first_seq) tree_fee (fee_balance tree) (tree_id tree),
        mkMergeInputs slot zero32 external_data_hash (bool_field allow_dummy_inputs) owner_binding).

Record MergeTreeWrite : Type := mkMergeWrite {
  mw_input_tree : InputTreeSequence;
  mw_output_leaf_index : Z;
  mw_output_tree : bytes;
}.

Definition merge_apply_output_tree (ix : MergeTransactIxData) (output_tree : bytes) (input_tree : InputTreeSequence)
    (slot : Z) : M TreeAccountLayout ProgramError MergeTreeWrite :=
  do! tree <- mget;
  let output_leaf_index := Smt.next_index (utxo tree) in
  exec! mmap_err tree_error (utxo_tree (append UTXO_TREE_HEIGHT (mt_output_utxo_hash ix) slot));
  mret (mkMergeWrite input_tree output_leaf_index output_tree).

(** The state of a cache that is being written, if any. *)
Definition cache_state (cache : option View) : Ix (option CacheAccount) :=
  match cache with
  | Some handle => do! state <- cache_write_state handle; mret (Some state)
  | None => mret None
  end.

(** The block that holds the output tree.  [cache] is the state that the cache
    handle borrows, of another account, which the block does not change. *)
Definition merge_write_output (address : bytes) (ix : MergeTransactIxData) (input_tree : InputTreeSequence)
    (cache : option CacheAccount) (is_input_tree : bool) (slot : Z)
    : M TreeAccountLayout ProgramError (bytes * MergeTreeWrite * Z) :=
  do! tree <- mget;
  let output_tree_id := tree_id_array tree in
  exec! mlift (match cache with Some state => check_output_tree state (tree_id tree) | None => Ok tt end);
  do! write <- merge_apply_output_tree ix address input_tree slot;
  do! fee <- credit_output_tree_fee is_input_tree;
  mret (output_tree_id, write, fee).

Definition build_merge_event (w : MergeTreeWrite) (output_view_tag : bytes) : MergeEvent :=
  mkMergeEvent [mw_input_tree w] (mw_output_tree w) (mw_output_leaf_index w) output_view_tag.

Definition with_output_tree_id (id : bytes) (d : MergeProofInputs) : MergeProofInputs :=
  mkMergeInputs (mi_tree_slot d) id (mi_external_data_hash d) (mi_allow_dummy_inputs d) (mi_owner_binding d).

(** The steps up to the verification of the proof.  The code holds the borrowed
    cache state since the cache was loaded; reading it here cannot fail, and its
    check against the output tree follows the loading of the tree. *)
Definition prepare_merge (accounts : MergeCoreAccounts) (ix : MergeTransactIxData)
    (owner_binding : MergeOwnerBinding) (cache : option (View * Z)) (slot : Z) : Ix (MergeTreeWrite * MergeProofInputs) :=
  do! external_data_hash <- mlift (map_err (caused_by (pool TransactProofVerificationFailed))
    (merge_external_data_hash (tag_byte (merge_instruction_tag owner_binding)) (mt_expiry_unix_ts ix)
       (mt_output_utxo_hash ix) ((fun '(c, s) => (cache_write_address c, s)) <$> cache)));
  let input_tree := mca_input_tree accounts in
  let output_tree := mca_output_tree accounts in
  do! '(input_tree_result, derived) <- with_tree tree_error input_tree
    (spend_input_tree (vaddr input_tree) ix external_data_hash owner_binding);
  exec! create_nullifier_pdas (mca_payer accounts) input_tree (zip (mca_nullifier_pdas accounts) (mt_nullifiers ix))
    input_tree_result;
  let output_is_input_tree := bool_decide (vaddr output_tree = vaddr input_tree) in
  do! state <- cache_state (fst <$> cache);
  do! '(id_array, tree_write, output_tree_fee) <- with_tree tree_error output_tree
    (merge_write_output (vaddr output_tree) ix (itr_input_tree input_tree_result) state output_is_input_tree slot);
  exec! collect_tree_fee (mca_payer accounts) output_tree output_tree_fee;
  mret (tree_write, with_output_tree_id id_array derived).

Definition process_merge_core (accounts : MergeCoreAccounts) (ix : MergeTransactIxData)
    (owner_binding : MergeOwnerBinding) (cache : option (View * Z)) (output_view_tag : bytes) (slot : Z) : Ix unit :=
  do! '(tree_write, derived) <- prepare_merge accounts ix owner_binding cache slot;
  exec! mlift (merge_verify ix derived);
  exec! match cache with
        | Some (cache, cache_slot) => cache_write cache cache_slot (mt_output_utxo_hash ix)
        | None => mret tt
        end;
  emit_event KindMerge (build_merge_event tree_write output_view_tag).

(** What a merge instruction sets up for the core. *)
Record MergeSetup : Type := mkMergeSetup {
  ms_accounts : MergeCoreAccounts;
  ms_binding : MergeOwnerBinding;
  ms_cache : option (View * Z);
  ms_view_tag : bytes;
  ms_slot : Z;
}.

Definition setup_merge_transact (accounts : list View) (ix : MergeTransactIxData) : Ix MergeSetup :=
  require validate_shape ix else pool InvalidMergeShape;
  exec! mlift (validate_field_elements ix);
  require negb (negb (encryption_is_canonical (mt_output_encryption ix))) else pool NonCanonicalMergeCiphertext;
  do! clock <- get_clock;
  exec! mlift (check_not_expired (mt_expiry_unix_ts ix) clock);
  do! a <- merge_validate_and_parse accounts (length (mt_nullifiers ix)) (mt_cache_slot ix);
  do! pk_fields <- load_user_record (ma_user_record a);
  let scheme := match mt_output_encryption ix with PoseidonCtrV1 _ _ => UserRegistry.PoseidonCtrV1 end in
  require negb (negb (bool_decide (merge_encryption pk_fields = scheme))) else pool MergeEncryptionSchemeMismatch;
  do! cache <- load_merge_cache (ma_cache a) (unix_timestamp clock);
  mret (mkMergeSetup (mkMergeCore (ma_input_tree a) (ma_output_tree a) (ma_payer a) (ma_nullifier_pdas a))
    (BindDefault (signing_pk_field pk_fields) (nullifier_pk pk_fields) (mt_output_encryption ix)) cache
    (signing_view_tag pk_fields) (Ledger.slot clock)).

Definition process_merge_transact_ix (accounts : list View) (ix : MergeTransactIxData) : Ix unit :=
  do! s <- setup_merge_transact accounts ix;
  process_merge_core (ms_accounts s) ix (ms_binding s) (ms_cache s) (ms_view_tag s) (ms_slot s).

(** ** merge_ring *)

Record MergeRingAccounts : Type := mkMergeRingAccounts {
  mra_input_tree : View;
  mra_output_tree : View;
  mra_payer : View;
  mra_nullifier_pdas : list View;
  mra_cache : option MergeCacheAccounts;
  mra_ring_program_id : bytes;
}.

Definition merge_ring_validate_and_parse (accounts : list View) (input_count : nat) (cache_slot : option Z)
    : Ix MergeRingAccounts :=
  do! '(input_tree, iter) <- acc (next_mut (new_iter accounts));
  do! '(output_tree, iter) <- acc (next_mut iter);
  do! '(ring_config, iter) <- acc (next_signer iter);
  do! config <- load_active_ring_config ring_config;
  do! '(payer, iter) <- acc (next_signer iter);
  do! '(system_program, iter) <- acc (next_account iter);
  require negb (negb (is_system (vaddr system_program))) else pool InvalidSystemProgram;
  do! '(shielded_pool_program, iter) <- acc (next_account iter);
  require negb (negb (bool_decide (vaddr shielded_pool_program = ID))) else PeIncorrectProgramId;
  do! '(nullifier_pdas, iter) <- next_muts input_count (pool InvalidMergeShape) MAX_MERGE_INPUTS [] iter;
  do! cache <- parse_cache_accounts iter cache_slot;
  mret (mkMergeRingAccounts input_tree output_tree payer nullifier_pdas cache (rc_program_id config)).

Definition setup_merge_ring (accounts : list View) (ix : MergeRingIxData) : Ix MergeSetup :=
  let m := mr_merge ix in
  require validate_shape m else pool InvalidMergeShape;
  exec! mlift (validate_field_elements m);
  exec! mlift (check_field_element (mr_output_ring_data_hash ix) NonCanonicalRingDataHash);
  do! clock <- get_clock;
  exec! mlift (check_not_expired (mt_expiry_unix_ts m) clock);
  do! a <- merge_ring_validate_and_parse accounts (length (mt_nullifiers m)) (mt_cache_slot m);
  do! cache <- load_merge_cache (mra_cache a) (unix_timestamp clock);
  do! ring_program_id <- mlift (hashed (hash_bytes (mra_ring_program_id a)));
  do! first <- mlift (ok_or (mt_nullifiers m !! 0%nat) (pool InvalidMergeShape));
  mret (mkMergeSetup (mkMergeCore (mra_input_tree a) (mra_output_tree a) (mra_payer a) (mra_nullifier_pdas a))
    (BindRing ring_program_id (mr_output_ring_data_hash ix)) cache first (Ledger.slot clock)).

Definition process_merge_ring_ix (accounts : list View) (ix : MergeRingIxData) : Ix unit :=
  do! s <- setup_merge_ring accounts ix;
  process_merge_core (ms_accounts s) (mr_merge ix) (ms_binding s) (ms_cache s) (ms_view_tag s) (ms_slot s).

End merge.
