(* ===== verification/TransactProof.v ===== *)
(** * Transact: instruction data and the proof's public inputs

    src/program-libs/interface/src/instruction/instruction_data/transact.rs and
    src/programs/shielded-pool/src/instructions/transact/verify.rs: the decoded
    instruction, the preimage of its external data hash, and the public inputs the
    processor assigns step by step before the proof is verified. *)

From S2P Require Import Prelude ZeroBytes Hasher HashChain Codec Smt Batch NullifierTree TreeAccount Errors TreeSlot Ledger AccountChecks State Event Shared Circuit Settlement Merge.

(** ** Instruction data *)

Definition MAX_INTERFACE_TRANSFERS : nat := 32.
Definition NO_UTXO_ROOT : Z := 65535.

Record InputUtxo : Type := mkInputUtxo {
  nullifier_hash : bytes;
  tree_index : Z;
}.

Inductive InterfaceTransfer : Set :=
| TransferSolDeposit (amount : Z)
| TransferSolWithdrawal (amount : Z)
| TransferSplDeposit (amount spl_interface_bump : Z)
| TransferSplWithdrawal (amount spl_interface_bump : Z).

Definition transfer_amount (t : InterfaceTransfer) : Z :=
  match t with
  | TransferSolDeposit amount | TransferSolWithdrawal amount => amount
  | TransferSplDeposit amount _ | TransferSplWithdrawal amount _ => amount
  end.

Definition transfer_is_deposit (t : InterfaceTransfer) : bool :=
  match t with TransferSolDeposit _ | TransferSplDeposit _ _ => true | _ => false end.

Definition settlement_account_count (t : InterfaceTransfer) : nat :=
  match t with
  | TransferSolDeposit _ | TransferSolWithdrawal _ => 2
  | TransferSplDeposit _ _ => 5
  | TransferSplWithdrawal _ _ => 5
  end.

Definition mint_account_position (t : InterfaceTransfer) : option nat :=
  match t with
  | TransferSolDeposit _ | TransferSolWithdrawal _ => None
  | TransferSplDeposit _ _ => Some 0%nat
  | TransferSplWithdrawal _ _ => Some 1%nat
  end.

Inductive OwnerTag : Type :=
| Inline (tag : bytes)
| AccountTag (index : Z).

Record TransactOutput : Type := mkTransactOutput {
  to_utxo_hash : bytes;
  to_owner_tag : OwnerTag;
  to_data : option bytes;
}.

Record ResolvedOutput : Type := mkResolved {
  ro_utxo_hash : bytes;
  ro_owner_tag : bytes;
  ro_data : option bytes;
}.

Record TransactIxData : Type := mkTransactIx {
  ti_expiry_unix_ts : Z;
  ti_tx_viewing_pk : bytes;
  ti_salt : bytes;
  ti_interface_transfers : list InterfaceTransfer;
  ti_data_hash : option bytes;
  ti_ring_data_hash : option bytes;
  ti_outputs : list TransactOutput;
  ti_messages : list MessageData;
  ti_private_tx_hash : bytes;
  ti_circuit : CircuitId;
  ti_proof : MergeProofData;      (** the same three points as a merge proof *)
  ti_inputs : list InputUtxo;
  ti_tree_contexts : list TreeContext;
}.

Definition cache_account_count (c : CircuitId) : nat :=
  match cache_access c with
  | None => 0
  | Some access => (if read_bitmap access =? 0 then 0 else 1) + 2 * (if writes_cache access then 1 else 0)
  end.

(** The groups of settlement accounts in an instruction's account list. *)
Definition settlement_accounts {A} (transfers : list InterfaceTransfer) (circuit : CircuitId) (accounts : list A)
    : option (list A) :=
  let total := sum_list (map settlement_account_count transfers) in
  if (length accounts <? cache_account_count circuit)%nat then None else
  let end_ := (length accounts - cache_account_count circuit)%nat in
  if (end_ <? total)%nat then None else Some (take total (drop (end_ - total) accounts)).

Definition validate_interface_transfers (transfers : list InterfaceTransfer) : res ShieldedPoolError unit :=
  check negb (MAX_INTERFACE_TRANSFERS <? length transfers)%nat else TooManyInterfaceTransfers in
  check negb (existsb (fun t => transfer_amount t =? 0) transfers) else ZeroInterfaceTransferAmount in
  Ok tt.

(** The counts of the declared trees; the caller's array is zero past them. *)
Fixpoint count_inputs (inputs : list InputUtxo) (counts : list nat) : res ShieldedPoolError (list nat) :=
  match inputs with
  | [] => Ok counts
  | input :: rest =>
      let i := Z.to_nat (tree_index input) in
      let? c := ok_or (counts !! i) InputTreeIndexOutOfRange in
      count_inputs rest (<[i := S c]> counts)
  end.

Definition validate_input_tree_contexts (inputs : list InputUtxo) (tree_contexts : list TreeContext)
    : res ShieldedPoolError (list nat) :=
  let n := length tree_contexts in
  check (n <=? MAX_INPUT_TREES)%nat && negb (n =? 0)%nat else InvalidTreeContextCount in
  let? declared := count_inputs inputs (replicate n 0%nat) in
  check negb (existsb (fun c => c =? 0)%nat declared) else UnreferencedTreeContext in
  Ok (declared ++ replicate (MAX_INPUT_TREES - n) 0%nat).

Definition fetch_tag (tag : OwnerTag) (account_address : Z -> option bytes) : res ShieldedPoolError bytes :=
  match tag with
  | Inline bs => Ok bs
  | AccountTag index => ok_or (account_address index) OwnerTagAccountMissing
  end.

Definition into_resolved (o : TransactOutput) (account_address : Z -> option bytes) : res ShieldedPoolError ResolvedOutput :=
  let? tag := fetch_tag (to_owner_tag o) account_address in
  Ok (mkResolved (to_utxo_hash o) tag (to_data o)).

(** *** [ExternalDataPreimage] *)

Definition MAX_EXTERNAL_DATA_HASH_SLICES : nat := 2 + 2 * MAX_INTERFACE_TRANSFERS + MAX_OUTPUTS.

Definition push_address (slices : list bytes) (address : bytes) : res HasherError (list bytes) :=
  let provided := (length slices + 1)%nat in
  ok_or (try_push MAX_EXTERNAL_DATA_HASH_SLICES slices address)
    (InvalidInputLength (Z.of_nat MAX_EXTERNAL_DATA_HASH_SLICES) (Z.of_nat provided)).

Definition push_settlement (slices : list bytes) (asset_account user_account : bytes) : res HasherError (list bytes) :=
  let? slices := push_address slices asset_account in push_address slices user_account.

Definition push_owner_tag (slices : list bytes) (tag : OwnerTag) (resolved_owner_tag : bytes)
    : res HasherError (list bytes) :=
  match tag with
  | Inline _ => Ok slices
  | AccountTag _ => push_address slices resolved_owner_tag
  end.

(** ** Owner hashes *)

Definition MAX_OWNER_HASHES : nat := MAX_SIGNERS + MAX_OUTPUTS.

(** [OwnerHashCache]: owner tags with their identity hashes, in order of insertion. *)
Notation OwnerHashCache := (list (bytes * bytes)).

Section owner_hashes.
Context `{SP : SolPoseidon}.

Definition cache_entry (entries : OwnerHashCache) (owner_tag : bytes) : option bytes :=
  snd <$> find (fun e => bool_decide (e.1 = owner_tag)) entries.

Definition cache_insert (owner_tag : bytes) : M OwnerHashCache ProgramError bytes :=
  do! hash <- mlift (hashed (solana_owner_identity owner_tag));
  do! entries <- mget;
  do! entries <- mlift (ok_or (try_push MAX_OWNER_HASHES entries (owner_tag, hash)) (pool InvalidTransactShape));
  exec! mmodify (fun _ => entries);
  mret hash.

Definition output_owner_hash (owner_tag : bytes) : M OwnerHashCache ProgramError bytes :=
  do! entries <- mget;
  match cache_entry entries owner_tag with
  | Some hash => mret hash
  | None => cache_insert owner_tag
  end.

Definition new_signer_hash (address : bytes) : M OwnerHashCache ProgramError (option bytes) :=
  do! entries <- mget;
  match cache_entry entries address with
  | Some _ => mret None
  | None => do! hash <- cache_insert address; mret (Some hash)
  end.

End owner_hashes.

(** ** The public inputs under construction *)

Definition ASSIGNED_OUTPUT_OWNERS : Z := Z.shiftl 1 0.
Definition ASSIGNED_OWNER_SIGNERS : Z := Z.shiftl 1 1.
Definition ASSIGNED_PUBLIC_TRANSFERS : Z := Z.shiftl 1 2.
Definition ASSIGNED_INPUT_TREES : Z := Z.shiftl 1 3.
Definition ASSIGNED_EXTERNAL_DATA : Z := Z.shiftl 1 4.
Definition ASSIGNED_RING_PROGRAM : Z := Z.shiftl 1 5.
Definition ASSIGNED_OUTPUT_TREE : Z := Z.shiftl 1 6.
Definition ASSIGNED_CACHED_INPUTS : Z := Z.shiftl 1 7.
Definition ALL_ASSIGNMENTS : Z :=
  foldr Z.lor 0 [ASSIGNED_OUTPUT_OWNERS; ASSIGNED_OWNER_SIGNERS; ASSIGNED_PUBLIC_TRANSFERS; ASSIGNED_INPUT_TREES;
    ASSIGNED_EXTERNAL_DATA; ASSIGNED_RING_PROGRAM; ASSIGNED_OUTPUT_TREE; ASSIGNED_CACHED_INPUTS].

Definition N_PUBLIC : nat := Z.to_nat N_PUBLIC_SLOTS.

Record TransactProofInputs : Type := mkProofInputs {
  tree_slots : list TreeSlot;
  output_tree_id : bytes;
  signer_pk_hashes : list bytes;
  output_owner_pk_hashes : list bytes;
  external_data_hash : bytes;
  public_slot_assets : list bytes;
  public_slot_amounts : list Z;
  ring_program_id : bytes;
  input_flags : bytes;
  unique_owner_signer_count : Z;
  assignments : Z;
  cached_inputs : option (bytes * bytes);
}.

Definition proof_inputs_new (circuit : CircuitId) : TransactProofInputs :=
  let a := match cache_access circuit with
           | None => ASSIGNED_CACHED_INPUTS
           | Some access => if read_bitmap access =? 0 then ASSIGNED_CACHED_INPUTS else 0
           end in
  let a := match uncached circuit with
           | ConfidentialSigner _ _ _ | ConfidentialEddsa _ _ _ _ => Z.lor a ASSIGNED_RING_PROGRAM
           | _ => a
           end in
  mkProofInputs [] zero32 (replicate MAX_SIGNERS zero32) (replicate MAX_OUTPUTS zero32) zero32
    (replicate N_PUBLIC zero32) (replicate N_PUBLIC 0) zero32 zero32 0 a None.

(** [self.assignments |= flag] *)
Definition assigned (flag : Z) (p : TransactProofInputs) : TransactProofInputs :=
  let '(mkProofInputs ts ot sk oo ed pa pm rp fl us a ci) := p in mkProofInputs ts ot sk oo ed pa pm rp fl us (Z.lor a flag) ci.

Definition assign_ring_program_id (id : bytes) (p : TransactProofInputs) : TransactProofInputs :=
  let '(mkProofInputs ts ot sk oo ed pa pm _ fl us a ci) := p in
  assigned ASSIGNED_RING_PROGRAM (mkProofInputs ts ot sk oo ed pa pm id fl us a ci).

Definition assign_input_trees (slots : list TreeSlot) (flags : bytes) (p : TransactProofInputs) : TransactProofInputs :=
  let '(mkProofInputs _ ot sk oo ed pa pm rp _ us a ci) := p in
  assigned ASSIGNED_INPUT_TREES (mkProofInputs slots ot sk oo ed pa pm rp flags us a ci).

Definition assign_output_tree_id (tree_id : Z) (p : TransactProofInputs) : TransactProofInputs :=
  let '(mkProofInputs ts _ sk oo ed pa pm rp fl us a ci) := p in
  assigned ASSIGNED_OUTPUT_TREE (mkProofInputs ts (tree_id_field tree_id) sk oo ed pa pm rp fl us a ci).

Definition assign_external_data_hash (h : bytes) (p : TransactProofInputs) : TransactProofInputs :=
  let '(mkProofInputs ts ot sk oo _ pa pm rp fl us a ci) := p in
  assigned ASSIGNED_EXTERNAL_DATA (mkProofInputs ts ot sk oo h pa pm rp fl us a ci).

Definition with_cached_inputs (fields : bytes * bytes) (p : TransactProofInputs) : TransactProofInputs :=
  let '(mkProofInputs ts ot sk oo ed pa pm rp fl us a _) := p in mkProofInputs ts ot sk oo ed pa pm rp fl us a (Some fields).

Definition with_signers (hashes : list bytes) (count : Z) (p : TransactProofInputs) : TransactProofInputs :=
  let '(mkProofInputs ts ot _ oo ed pa pm rp fl _ a ci) := p in mkProofInputs ts ot hashes oo ed pa pm rp fl count a ci.

Definition with_output_owners (hashes : list bytes) (p : TransactProofInputs) : TransactProofInputs :=
  let '(mkProofInputs ts ot sk _ ed pa pm rp fl us a ci) := p in mkProofInputs ts ot sk hashes ed pa pm rp fl us a ci.

Definition with_public_slots (assets : list bytes) (amounts : list Z) (p : TransactProofInputs) : TransactProofInputs :=
  let '(mkProofInputs ts ot sk oo ed _ _ rp fl us a ci) := p in mkProofInputs ts ot sk oo ed assets amounts rp fl us a ci.

Definition ensure_complete (p : TransactProofInputs) : res ProgramError unit :=
  check negb (negb (assignments p =? ALL_ASSIGNMENTS)) else pool InvalidTransactShape in Ok tt.

Section assign.
Context `{SP : SolPoseidon} `{SH : SolHash}.

Definition assign_cached_inputs (circuit : CircuitId) (c : CacheAccount) (p : TransactProofInputs)
    : res ProgramError TransactProofInputs :=
  let? selection := ok_or (cache_access circuit) (pool InvalidCache) in
  check negb (existsb (fun '(slot, hash) => Z.testbit (read_bitmap selection) (Z.of_nat slot) && bool_decide (hash = zero32))
                (imap pair (ca_utxo_hashes c))) else pool CacheSlotEmpty in
  let? fields := hashed (cached_input_fields (read_bitmap selection) (le_val (ca_tree_id c)) (ca_utxo_hashes c)
                           (Z.to_nat (num_inputs circuit))) in
  Ok (assigned ASSIGNED_CACHED_INPUTS (with_cached_inputs fields p)).

(** The loop over the signers: the hashes written so far and their number. *)
Fixpoint signer_loop (signers hashes : list bytes) (unique_count : nat) : M OwnerHashCache ProgramError (list bytes * nat) :=
  match signers with
  | [] => mret (hashes, unique_count)
  | signer :: rest =>
      do! new <- new_signer_hash signer;
      match new with
      | None => signer_loop rest hashes unique_count
      | Some hash =>
          exec! mlift (ok_or (hashes !! unique_count) (pool InvalidTransactShape));
          signer_loop rest (<[unique_count := hash]> hashes) (S unique_count)
      end
  end.

Definition fill_owner_signer_hashes (requires_input_signatures : bool) (payer : bytes) (owner_signers : list bytes)
    (p : TransactProofInputs) : M OwnerHashCache ProgramError TransactProofInputs :=
  do! entries <- mget;
  require negb (negb (bool_decide (entries = []))) else pool InvalidTransactShape;
  let signers := if requires_input_signatures then owner_signers else [payer] in
  do! '(hashes, unique_count) <- signer_loop signers (signer_pk_hashes p) 0;
  require (unique_count <? 256)%nat else pool InvalidTransactShape;
  mret (assigned ASSIGNED_OWNER_SIGNERS (with_signers hashes (Z.of_nat unique_count) p)).

(** The loop over the outputs, with the outputs it hashes selected by the mode. *)
Fixpoint output_owner_loop (hashes_output : ResolvedOutput -> bool) (index : nat) (outputs : list ResolvedOutput)
    (hashes : list bytes) : M OwnerHashCache ProgramError (list bytes) :=
  match outputs with
  | [] => mret hashes
  | output :: rest =>
      if hashes_output output then
        do! hash <- output_owner_hash (ro_owner_tag output);
        output_owner_loop hashes_output (S index) rest (<[index := hash]> hashes)
      else output_owner_loop hashes_output (S index) rest hashes
  end.

Definition hashes_owner (mode : OutputOwnerMode) (output : ResolvedOutput) : bool :=
  match mode with
  | OwnerNone => false
  | OwnerAll => true
  | OwnerConfidentialMarked =>
      match ro_data output with Some data => is_confidential_encrypted_output data | None => false end
  end.

Definition fill_output_owner_pk_hashes (mode : OutputOwnerMode) (resolved_outputs : list ResolvedOutput)
    (p : TransactProofInputs) : M OwnerHashCache ProgramError TransactProofInputs :=
  require negb (MAX_OUTPUTS <? length resolved_outputs)%nat else pool InvalidTransactShape;
  do! hashes <- output_owner_loop (hashes_owner mode) 0 resolved_outputs (output_owner_pk_hashes p);
  mret (assigned ASSIGNED_OUTPUT_OWNERS (with_output_owners hashes p)).

(** *** Public amounts *)

Definition SOL_ASSET_FIELD : bytes := hash_literal 0x2098f5fb9e239eab3ceac3f27b81e481dc3124d55ffed523a839ee8446b64864.

Definition checked_slot_amount (net : Z) : res ProgramError Z :=
  check negb (2 ^ 64 <=? Z.abs net) else pool PublicAssetAmountOverflow in Ok net.

Definition signed_amount (t : InterfaceTransfer) : Z :=
  if transfer_is_deposit t then transfer_amount t else - transfer_amount t.

(** [i128::checked_add] *)
Definition checked_add_i128 (a b : Z) : option Z :=
  if (- 2 ^ 127 <=? a + b) && (a + b <? 2 ^ 127) then Some (a + b) else None.

(** [slots.iter().position(|slot| *slot == asset)] *)
Fixpoint position (asset : bytes) (assets : list bytes) : option nat :=
  match assets with
  | [] => None
  | a :: rest => if bool_decide (a = asset) then Some 0%nat else S <$> position asset rest
  end.

Definition settlement_asset_field (s : Settlement) : res ProgramError bytes :=
  let? asset := spl_asset s in
  match asset with
  | Some mint => hashed (hash_bytes mint)
  | None => Ok SOL_ASSET_FIELD
  end.

Definition assign_public_step (num_public_asset_slots : nat) (state : list bytes * list Z * nat)
    (leg : InterfaceTransfer * Settlement) : res ProgramError (list bytes * list Z * nat) :=
  let '(assets, amounts, used_slots) := state in
  let '(transfer, settlement) := leg in
  let amount := signed_amount transfer in
  check negb ((amount =? 0) || negb (eqb (transfer_is_deposit transfer) (is_deposit settlement)))
    else pool InvalidSettlementAccounts in
  let? hashed_mint := settlement_asset_field settlement in
  match position hashed_mint (take used_slots assets) with
  | Some index =>
      let? net := ok_or (checked_add_i128 (amounts !!! index) amount) (pool PublicAssetAmountOverflow) in
      let? net := checked_slot_amount net in
      Ok (assets, <[index := net]> amounts, used_slots)
  | None =>
      check negb (used_slots =? num_public_asset_slots)%nat else pool TooManyPublicAssets in
      let? amount := checked_slot_amount amount in
      Ok (<[used_slots := hashed_mint]> assets, <[used_slots := amount]> amounts, S used_slots)
  end.

Definition assign_public_amounts_and_assets (transfers : list InterfaceTransfer) (settlements : list Settlement)
    (num_public_asset_slots : nat) (p : TransactProofInputs) : res ProgramError TransactProofInputs :=
  check negb (negb (length transfers =? length settlements)%nat || (N_PUBLIC <? num_public_asset_slots)%nat)
    else pool InvalidTransactShape in
  let? '(assets, amounts, used_slots) :=
    rfold (assign_public_step num_public_asset_slots) (public_slot_assets p, public_slot_amounts p, 0%nat)
      (zip transfers settlements) in
  check negb (existsb (fun a => a =? 0) (take used_slots amounts)) else pool ZeroNetInterfaceTransferAmount in
  Ok (assigned ASSIGNED_PUBLIC_TRANSFERS (with_public_slots assets amounts p)).

End assign.

(** ** The public input hash *)

Definition SIGNER_ZERO_SUFFIX_CHAINS : list bytes := map hash_literal [
  0;
  0x2098f5fb9e239eab3ceac3f27b81e481dc3124d55ffed523a839ee8446b64864;
  0x1530572d8faf83d47bb6400a96237d6e9d1db8f3ef40e8670888fb9d65380ac8;
  0x01cbcc842970c5b05d881e0f171822a7088ca3d11efd0aac745ee01303e13ee8;
  0x235f18006fbf4efcc6fdf3c32c8c5e913d2488ce1a06d986e9191cc9b06539a7;
  0x2bd89a7b00c5081812f1ddaf86331f3260787a325c8ae3ced9e4c7ee3fb59b6b;
  0x2a3d8e02bf0a4262e20d41c497c8f6c001f0a2c933bf13cf4c56632ea2600c9e;
  0x256ea2ccdbd9db3a90bb375d35825a6e10f64099830726e5754fb2f6abedeb49;
  0x19319f3dae9b251f799710967d1874ade7d4014bd8cd1e11e14dfcded1664e4d;
  0x015762931450d9ecf2aa6a99370db5d64c9b5062d3f26d6e6603bd45ff1ba2b6;
  0x28fa185f05ba7d366b9b6fb4790f8cc57cbf78a916cedd62e6e9756e6eaa11e2;
  0x20dfd401e43cbd144477826157606b1e97e144f81eee2cced0db90bb60f5ef9d;
  0x2c50eb61ffee84a9aedfa1c8ef70ada4ffe8f851df883bf305f10d3625f98505;
  0x2811f8c5b1187690a02c6044451e1532b5f20cbdd6392e1af2f7901efe614efb;
  0x13825e8d559c090f2ad04766c2b4a81e3c4e62cb785d8514f7c2a25c5793ab4e;
  0x2de9492f0f511e3da54f6a90cf5ed139a751e9b4cc735d37328ce8b01188f0cc;
  0x06c81a6f88da1a29091c960feb2bf67cd3903e8c433b123d3f48603644ef5f11;
  0x12b8fd8c9efa044662378dc95b636411683e3b656961d1557ad1de048e508018;
  0x21db751f759abd291a9ae51f77e182359f88518fa9b35b1f0f6c44c16952dd92;
  0x19c9ee3a9d027d02189418a31f70f69910d854992578467d2ec7341f6adaaeda;
  0x081e209a563c9d8c1922f956ad4c711fa70b332020cd65697ff02393ece32e3a;
  0x2f3b1090017b239c3411e3ce2f3b4be976edb14c451e1ba193721a93cb3104cf;
  0x1dd8f2c538ee091c3210fa473e58db85c6c204f35b8094b1924920f4d3dac1c8;
  0x1f63dce7f52752c1d54f14d65b714190eb9ec96817deaef9a41dc8a2e5ee669e;
  0x19553058d6df21ff0f785ebd5aaf6fb041a899782edea630cee4a2c6bbe581f9;
  0x2723a02b5d5cb820b75d2af2a5aead037d0a1925c72e2b33a0a7bba37c888953;
  0x10509bd896793017dfe2988bd4f299e1678d57c898155369f12a51a6080fc37b;
  0x301a0f5ffe0bb8a71129dcfdd94f14d53d49ea476b248f3e6883094a9e6c4325;
  0x1ab9fd70903c6563373e1d4155b6e8fc79089a1bcce7d7d3ee71d1e4ccae2c57].

(** arkworks' scalar field: parameters. *)
Class ArkFr : Type := {
  Fr : Type;
  fr_from : Z -> Fr;                 (** [Fr::from(u64)] *)
  fr_neg : Fr -> Fr;
  fr_limbs : Fr -> list Z;           (** [into_bigint().0]: four 64-bit limbs, least significant first *)
}.

(** The value of the limbs. *)
Fixpoint limbs_val (limbs : list Z) : Z :=
  match limbs with [] => 0 | l :: rest => l + 2 ^ 64 * limbs_val rest end.

Class ArkFrLaws (F : ArkFr) : Prop := {
  fr_limbs_shape : forall x, length (fr_limbs x) = 4%nat /\ Forall (fun l => 0 <= l < 2 ^ 64) (fr_limbs x);
  fr_from_val : forall v, 0 <= v < 2 ^ 64 -> limbs_val (fr_limbs (fr_from v)) = v mod bn254_modulus;
  fr_neg_val : forall x, limbs_val (fr_limbs (fr_neg x)) = (- limbs_val (fr_limbs x)) mod bn254_modulus;
}.

Section public_inputs.
Context `{SP : SolPoseidon} `{SH : SolHash} `{G : PoolGroth16} `{F : ArkFr}.

(** Limbs written big-endian, most significant first. *)
Definition amount_field (amount : Z) : res ProgramError bytes :=
  let? magnitude := ok_or (if Z.abs amount <? 2 ^ 64 then Some (Z.abs amount) else None) (pool PublicAssetAmountOverflow) in
  let value := fr_from magnitude in
  let limbs := if amount <? 0 then fr_limbs (fr_neg value) else fr_limbs value in
  Ok (concat (map (be_bytes 8) (reverse (take 4 limbs)))).

(** [while index > 0 { ... }] over the hashes below [index], last first. *)
Fixpoint fold_signers (hashes : list bytes) (chain : bytes) : res ProgramError bytes :=
  match hashes with
  | [] => Ok chain
  | hash :: rest =>
      let? chain := map_err (caused_by (pool TransactProofVerificationFailed)) (Poseidon.hashv [hash; chain]) in
      fold_signers rest chain
  end.

Definition fixed_signer_hash_chain (unique_signer_pk_hashes : list bytes) (width : nat) : res ProgramError bytes :=
  let unique_count := length unique_signer_pk_hashes in
  check negb ((width =? 0)%nat || (length SIGNER_ZERO_SUFFIX_CHAINS <? width)%nat || (width <? unique_count)%nat)
    else pool InvalidTransactShape in
  if (unique_count =? width)%nat then
    let? last := ok_or (unique_signer_pk_hashes !! (unique_count - 1)%nat) (pool InvalidTransactShape) in
    fold_signers (reverse (take (unique_count - 1) unique_signer_pk_hashes)) last
  else
    let? suffix := ok_or (SIGNER_ZERO_SUFFIX_CHAINS !! (width - unique_count - 1)%nat) (pool InvalidTransactShape) in
    fold_signers (reverse unique_signer_pk_hashes) suffix.

(** [get(..n)] of an array. *)
Definition get_prefix {A} (n : nat) (l : list A) : res ProgramError (list A) :=
  ok_or (if (n <=? length l)%nat then Some (take n l) else None) (pool InvalidTransactShape).

Fixpoint amount_fields (slots : list (bytes * Z)) : res ProgramError (list bytes) :=
  match slots with
  | [] => Ok []
  | (asset, amount) :: rest =>
      let? field := amount_field amount in
      let? fields := amount_fields rest in
      Ok (asset :: field :: fields)
  end.

(** The buffer of the fields: pushing past its end panics.  The fields before the
    output owners are at most eighteen, so only the last pushes could. *)
Definition FIELDS_CAPACITY : nat := 20.
Definition fits {A} (fields : list A) : res ProgramError (list A) :=
  if (length fields <=? FIELDS_CAPACITY)%nat then Ok fields else Panic.

(** The fields in the circuit's order. *)
Definition public_fields (ix : TransactIxData) (d : TransactProofInputs) : res ProgramError (list bytes) :=
  let c := ti_circuit ix in
  let n_in := Z.to_nat (num_inputs c) in
  let n_out := Z.to_nat (num_outputs c) in
  let n_public_asset_slots := Z.to_nat (num_public_asset_slots c) in
  let width := if requires_input_signatures c then signer_width (mkShape n_in n_out) else 1%nat in
  let? unique_signers := get_prefix (Z.to_nat (unique_owner_signer_count d)) (signer_pk_hashes d) in
  let? output_owners := get_prefix n_out (output_owner_pk_hashes d) in
  let? assets := get_prefix n_public_asset_slots (public_slot_assets d) in
  let? amounts := get_prefix n_public_asset_slots (public_slot_amounts d) in
  let? nullifier_chain := hashed (create_padded_right_hash_chain_4 (map nullifier_hash (ti_inputs ix)) n_in) in
  let? output_chain := hashed (create_padded_right_hash_chain_4 (map to_utxo_hash (ti_outputs ix)) n_out) in
  let? slots := hashed (populated_tree_slots_hash_chain (tree_slots d)) in
  let? message :=
    if has_message_hash c then
      let? digest := map_err (caused_by (pool TransactProofVerificationFailed))
                       (Sha256.hashv [ti_private_tx_hash ix; external_data_hash d]) in
      let? field := hashed (hash_bytes digest) in Ok [field]
    else Ok [] in
  let? eddsa := match eddsa_owner_pk c with
                | Some owner_pk => let? field := hashed (solana_owner_identity owner_pk) in Ok [field]
                | None => Ok []
                end in
  let? anonymous := if is_anonymous c then
                      match default_owner_tag c with
                      | Some owner => let? field := hashed (solana_owner_identity owner) in Ok [field]
                      | None => Ok [zero32]
                      end
                    else Ok [] in
  let? public := amount_fields (zip assets amounts) in
  let? signers := fixed_signer_hash_chain unique_signers width in
  let? tail := match output_owner_mode c with
               | OwnerNone => Ok []
               | _ =>
                   let? owners := hashed (create_padded_right_hash_chain_4 output_owners n_out) in
                   let? '(cached_tree, cached_chain) := match cached_inputs d with
                                                        | Some fields => Ok fields
                                                        | None => hashed (empty_cached_input_fields n_in)
                                                        end in
                   Ok [owners; cached_tree; cached_chain]
               end in
  fits ([nullifier_chain; output_chain; slots; output_tree_id d; ti_private_tx_hash ix] ++ message ++ eddsa ++
        anonymous ++ [external_data_hash d] ++ public ++ [ring_program_id d; signers; input_flags d] ++ tail).

Definition public_input_hash (ix : TransactIxData) (d : TransactProofInputs) : res ProgramError bytes :=
  let? fields := public_fields ix d in
  hashed (create_hash_chain_4_from_slice fields).

(** [TransactProof::verify] *)
Definition transact_verify (ix : TransactIxData) (d : TransactProofInputs) : res ProgramError unit :=
  let? hash := public_input_hash ix d in
  let? key := ok_or (verifying_key (ti_circuit ix)) (pool InvalidTransactShape) in
  let commitment := (fun c => (bsb_commitment c, bsb_commitment_pok c)) <$> bsb22_commitment (ti_circuit ix) in
  let p := ti_proof ix in
  verify_groth16 (mkGroth16Proof (mp_a p) (mp_b p) (mp_c p) commitment) hash key
    InvalidTransactProofEncoding TransactProofVerificationFailed.

End public_inputs.
