(* ===== verification/ProofInputs.v ===== *)
(** * The public inputs of a proof

    What the verifier's single public input commits to: the signer chain, the net
    public amounts and their field encoding, and the fold of a merge's elements
    (transact/verify.rs and merge/verify.rs).  Assembling the input never runs past
    its fixed-size buffers. *)

From S2P Require Import Prelude ZeroBytes Hasher HashChain Codec TreeSlot Errors Ledger AccountChecks State Event Shared Circuit UserRegistry Cache Settlement Merge TransactProof.

(** ** The signer chain *)

(** The documented law of the table: it starts at zero and each entry is
    [Poseidon(0, previous)]. *)
Definition signer_suffix_law `{SolPoseidon} : Prop :=
  forall k z z', SIGNER_ZERO_SUFFIX_CHAINS !! k = Some z -> SIGNER_ZERO_SUFFIX_CHAINS !! S k = Some z' ->
  Poseidon.hashv [zero32; z] = Ok z'.

Lemma length_signer_table : length SIGNER_ZERO_SUFFIX_CHAINS = MAX_SIGNERS.
Proof. reflexivity. Qed.

Section signers.
Context `{SP : SolPoseidon}.

(** The fold of the loop, as the hasher's right fold. *)
Lemma fold_signers_rfold hashes chain :
  fold_signers hashes chain =
  map_err (caused_by (pool TransactProofVerificationFailed))
    (rfold (fun hash_chain input => Poseidon.hashv [input; hash_chain]) chain hashes).
Proof.
  revert chain. induction hashes as [|h hashes IH]; intros chain; cbn [fold_signers rfold]; [done|].
  destruct (Poseidon.hashv [h; chain]); cbn [map_err rbind]; [apply IH|done..].
Qed.

(** Zeros fold to the table. *)
Lemma fold_zeros k z : signer_suffix_law -> SIGNER_ZERO_SUFFIX_CHAINS !! k = Some z ->
  rfold (fun hash_chain input => Poseidon.hashv [input; hash_chain]) zero32 (replicate k zero32) = Ok z.
Proof.
  intros Hlaw. revert z. induction k as [|k IH]; intros z Hz.
  - vm_compute in Hz. injection Hz as <-. reflexivity.
  - destruct (SIGNER_ZERO_SUFFIX_CHAINS !! k) as [y|] eqn:Hy.
    2:{ apply lookup_ge_None in Hy. apply lookup_lt_Some in Hz. lia. }
    rewrite replicate_S_end, rfold_app, (IH y eq_refl). cbn [rbind rfold]. by rewrite (Hlaw k y z Hy Hz).
Qed.

Lemma right_chain_snoc l x :
  create_right_hash_chain_from_slice (l ++ [x]) =
  rfold (fun hash_chain input => Poseidon.hashv [input; hash_chain]) x (reverse l).
Proof. unfold create_right_hash_chain_from_slice. by rewrite split_last_snoc. Qed.

Lemma reverse_replicate_app {A} (l : list A) n x : reverse (l ++ replicate n x) = replicate n x ++ reverse l.
Proof. by rewrite reverse_app, reverse_replicate. Qed.

Lemma signer_chain_padded hashes width :
  signer_suffix_law ->
  fixed_signer_hash_chain hashes width =
  if (0 <? width)%nat && (width <=? MAX_SIGNERS)%nat && (length hashes <=? width)%nat
  then map_err (caused_by (pool TransactProofVerificationFailed))
         (create_right_hash_chain_from_slice (hashes ++ replicate (width - length hashes) zero32))
  else Err (pool InvalidTransactShape).
Proof.
  intros Hlaw. unfold fixed_signer_hash_chain. rewrite length_signer_table.
  destruct (Nat.eqb_spec width 0) as [->|H0]; [done|]. rewrite (proj2 (Nat.ltb_lt 0 width)) by lia.
  destruct (Nat.ltb_spec MAX_SIGNERS width) as [H1|H1]; [by rewrite (proj2 (Nat.leb_gt width MAX_SIGNERS))|].
  rewrite (proj2 (Nat.leb_le width MAX_SIGNERS)) by done.
  destruct (Nat.ltb_spec width (length hashes)) as [H2|H2]; [by rewrite (proj2 (Nat.leb_gt (length hashes) width))|].
  rewrite (proj2 (Nat.leb_le (length hashes) width)) by done. cbn [negb orb andb].
  destruct (Nat.eqb_spec (length hashes) width) as [E|E].
  - rewrite <- E, Nat.sub_diag, app_nil_r. destruct hashes as [|hash hashes _] using rev_ind; [done|].
    rewrite length_app, Nat.add_sub. cbn [length]. rewrite list_lookup_middle by done. cbn [ok_or rbind].
    by rewrite take_app_length, fold_signers_rfold, right_chain_snoc.
  - destruct (lookup_lt_is_Some_2 SIGNER_ZERO_SUFFIX_CHAINS (width - length hashes - 1)) as [z Hz];
      [rewrite length_signer_table; lia|].
    rewrite Hz. cbn [ok_or rbind]. rewrite fold_signers_rfold. f_equal.
    replace (width - length hashes)%nat with (S (width - length hashes - 1)) by lia.
    rewrite replicate_S_end, app_assoc, right_chain_snoc, reverse_replicate_app, rfold_app.
    by rewrite (fold_zeros _ z Hlaw Hz).
Qed.

(** C25. The signer chain: for a width within the table and at most that many signers,
    it is the right hash chain of the signers padded with zeros to the width; any
    other shape is refused. *)
Theorem signer_chain_is_padded_right_chain (hashes : list bytes) (width : nat) :
  signer_suffix_law ->
  fixed_signer_hash_chain hashes width =
  if (0 <? width)%nat && (width <=? MAX_SIGNERS)%nat && (length hashes <=? width)%nat
  then map_err (caused_by (pool TransactProofVerificationFailed))
         (create_right_hash_chain_from_slice (hashes ++ replicate (width - length hashes) zero32))
  else Err (pool InvalidTransactShape).
Proof. apply signer_chain_padded. Qed.

End signers.

(** A hash function with the table's values, for the witness. *)
Definition signer_poseidon : SolPoseidon := fun vals =>
  (0, match vals with
      | [a; b] => if decide (a = zero32) then table_step SIGNER_ZERO_SUFFIX_CHAINS b (mix vals) else mix vals
      | _ => mix vals
      end).

Definition signer_step_ok (k : nat) : bool :=
  match SIGNER_ZERO_SUFFIX_CHAINS !! k, SIGNER_ZERO_SUFFIX_CHAINS !! S k with
  | Some z, Some z' => bool_decide (@Poseidon.hashv signer_poseidon [zero32; z] = Ok z')
  | _, _ => false
  end.

Lemma signer_poseidon_law : @signer_suffix_law signer_poseidon.
Proof.
  intros k z z' Hz Hz'. assert (signer_step_ok k = true) as Hok.
  { apply (forall_below (fun k => signer_step_ok k = true) signer_step_ok (MAX_SIGNERS - 1)); [done|by vm_compute|].
    apply lookup_lt_Some in Hz'. rewrite length_signer_table in Hz'. lia. }
  unfold signer_step_ok in Hok. rewrite Hz, Hz' in Hok. by apply bool_decide_eq_true in Hok.
Qed.

Lemma signer_chain_is_padded_right_chain_witness :
  @fixed_signer_hash_chain signer_poseidon [replicate 32 x01; replicate 32 x02] 5 =
  map_err (caused_by (pool TransactProofVerificationFailed)) (@create_right_hash_chain_from_slice signer_poseidon
    ([replicate 32 x01; replicate 32 x02] ++ replicate 3 zero32)).
Proof.
  exact (@signer_chain_is_padded_right_chain signer_poseidon [replicate 32 x01; replicate 32 x02] 5
    signer_poseidon_law).
Defined.

(** ** Net public amounts *)

(** The legs of an instruction as asset fields with signed amounts, and the net
    amount of an asset. *)
Definition net (legs : list (bytes * Z)) (asset : bytes) : Z :=
  foldr (fun leg acc => (if bool_decide (leg.1 = asset) then leg.2 else 0) + acc) 0 legs.

Lemma net_app legs legs' asset : net (legs ++ legs') asset = net legs asset + net legs' asset.
Proof. unfold net. induction legs as [|leg legs IH]; cbn [app foldr]; [done|]. rewrite IH. lia. Qed.

Lemma net_absent legs asset : asset ∉ map fst legs -> net legs asset = 0.
Proof.
  unfold net. induction legs as [|leg legs IH]; cbn [map foldr]; [done|]. intros [H1 H2]%not_elem_of_cons.
  rewrite bool_decide_false by done. by rewrite IH.
Qed.

Lemma net_snoc_same legs asset amount : net (legs ++ [(asset, amount)]) asset = net legs asset + amount.
Proof. rewrite net_app. cbn. rewrite bool_decide_true by done. lia. Qed.

Lemma net_snoc_other legs asset other amount : other <> asset ->
  net (legs ++ [(asset, amount)]) other = net legs other.
Proof. intros. rewrite net_app. cbn. rewrite bool_decide_false by done. lia. Qed.

Lemma position_Some asset assets i : position asset assets = Some i -> assets !! i = Some asset.
Proof.
  revert i. induction assets as [|a assets IH]; intros i; cbn [position]; [done|]. case_bool_decide as Ha.
  - intros [=<-]. by subst.
  - destruct (position asset assets) as [j|]; [|done]. intros [=<-]. by apply IH.
Qed.

Lemma position_None asset assets : position asset assets = None -> asset ∉ assets.
Proof.
  induction assets as [|a assets IH]; cbn [position]; [intros _; apply not_elem_of_nil|].
  case_bool_decide; [done|]. destruct (position asset assets); [done|]. intros _. apply not_elem_of_cons. auto.
Qed.

(** The slots after some legs: the assets seen, in order of first use, with their
    net amounts; the rest of the arrays untouched. *)
Record slots_inv (n : nat) (legs : list (bytes * Z)) (used : list bytes) (state : list bytes * list Z * nat) : Prop := {
  inv_state : state = (used ++ replicate (N_PUBLIC - length used) zero32,
                       map (net legs) used ++ replicate (N_PUBLIC - length used) 0, length used);
  inv_bound : (length used <= n)%nat;
  inv_nodup : NoDup used;
  inv_assets : forall a, a ∈ used <-> a ∈ map fst legs;
  inv_range : Forall (fun a => Z.abs (net legs a) < 2 ^ 64) used;
}.

Lemma map_net_insert legs used i asset amount : NoDup used -> used !! i = Some asset ->
  <[i := net legs asset + amount]> (map (net legs) used) = map (net (legs ++ [(asset, amount)])) used.
Proof.
  intros Hnd Hi. apply list_eq. intros j. rewrite list_lookup_insert. change (map ?f ?l) with (f <$> l).
  rewrite !list_lookup_fmap, length_fmap. case_decide as Hij.
  - destruct Hij as [<- _]. rewrite Hi. cbn. by rewrite net_snoc_same.
  - destruct (used !! j) as [b|] eqn:Hj; [|done]. cbn. f_equal. symmetry. apply net_snoc_other. intros ->.
    apply Hij. split; [by eapply NoDup_lookup|by eapply lookup_lt_Some].
Qed.

Lemma map_net_fresh legs used asset amount : asset ∉ used ->
  map (net legs) used = map (net (legs ++ [(asset, amount)])) used.
Proof.
  intros Hfresh. apply list_fmap_ext. intros i a Ha. symmetry. apply net_snoc_other. intros ->.
  apply Hfresh. by eapply list_elem_of_lookup_2.
Qed.

Lemma slots_inv_amount n legs used (i : nat) asset assets (amounts : list Z) k :
  slots_inv n legs used (assets, amounts, k) -> used !! i = Some asset -> amounts !!! i = net legs asset.
Proof.
  intros [[= -> -> ->] _ _ _ _] Hpos. apply list_lookup_total_correct.
  rewrite lookup_app_l by (rewrite length_map; by eapply lookup_lt_Some).
  change (map ?f ?l) with (f <$> l). by rewrite list_lookup_fmap, Hpos.
Qed.

(** A further leg of a known asset. *)
Lemma slots_inv_add n legs used (i : nat) asset amount assets (amounts : list Z) k :
  slots_inv n legs used (assets, amounts, k) -> used !! i = Some asset ->
  Z.abs (net legs asset + amount) < 2 ^ 64 ->
  slots_inv n (legs ++ [(asset, amount)]) used (assets, <[i := net legs asset + amount]> amounts, k).
Proof.
  intros [[= -> -> ->] Hb Hnd Ha Hr] Hpos Hlt. pose proof (lookup_lt_Some _ _ _ Hpos) as Hi. split; [|done|done| |].
  - by rewrite insert_app_l, map_net_insert by (by rewrite ?length_map).
  - intros a. rewrite map_app, elem_of_app, <- Ha. cbn. rewrite list_elem_of_singleton.
    split; [tauto|]. intros [H| ->]; [done|]. by eapply list_elem_of_lookup_2.
  - rewrite Forall_forall in Hr |- *. intros a Hin. destruct (decide (a = asset)) as [->|Hne].
    + by rewrite net_snoc_same.
    + rewrite net_snoc_other by done. by apply Hr.
Qed.

(** The first leg of an asset. *)
Lemma slots_inv_new n legs used asset amount assets amounts k : (n <= N_PUBLIC)%nat ->
  slots_inv n legs used (assets, amounts, k) -> asset ∉ used -> k <> n -> Z.abs amount < 2 ^ 64 ->
  slots_inv n (legs ++ [(asset, amount)]) (used ++ [asset]) (<[k := asset]> assets, <[k := amount]> amounts, S k).
Proof.
  intros Hn [[= -> -> ->] Hb Hnd Ha Hr] Hpos Hne Hlt.
  assert (net (legs ++ [(asset, amount)]) asset = amount) as Hnew.
  { rewrite net_snoc_same, net_absent by (by rewrite <- Ha). lia. }
  split.
  - rewrite length_app. cbn [length]. rewrite map_app. cbn [map]. rewrite Hnew, <- map_net_fresh by done.
    replace (N_PUBLIC - length used)%nat with (S (N_PUBLIC - (length used + 1))) by lia. cbn [replicate].
    rewrite !insert_app_r_alt by (rewrite ?length_map; lia). rewrite ?length_map, Nat.sub_diag. cbn [list_insert insert].
    rewrite <- !app_assoc. repeat f_equal. lia.
  - rewrite length_app. cbn. lia.
  - apply NoDup_app. split_and!; [done| |apply NoDup_singleton]. intros a Hin ->%list_elem_of_singleton. done.
  - intros a. rewrite map_app, !elem_of_app, <- Ha. done.
  - apply Forall_app. split; [|by rewrite Forall_singleton, Hnew]. rewrite Forall_forall in Hr |- *.
    intros a Hin. rewrite net_snoc_other by (by intros ->). by apply Hr.
Qed.

Section netting.
Context `{SP : SolPoseidon}.

(** What a leg passes: its settlement's asset field, and its direction. *)
Definition leg_of (leg : InterfaceTransfer * Settlement) (entry : bytes * Z) : Prop :=
  settlement_asset_field leg.2 = Ok entry.1 /\ entry.2 = signed_amount leg.1 /\
  transfer_is_deposit leg.1 = is_deposit leg.2 /\ signed_amount leg.1 <> 0.

Lemma slots_step n legs used state leg state' : (n <= N_PUBLIC)%nat ->
  slots_inv n legs used state -> assign_public_step n state leg = Ok state' ->
  exists entry used', leg_of leg entry /\ slots_inv n (legs ++ [entry]) used' state'.
Proof.
  intros Hn Hinv. destruct state as [[assets amounts] k], leg as [transfer settlement].
  unfold assign_public_step, leg_of. cbn [fst snd].
  destruct (_ || _) eqn:Hguard; [done|]. cbn [negb]. apply orb_false_iff in Hguard as [Hz Hd].
  apply Z.eqb_neq in Hz. apply negb_false_iff, eqb_prop in Hd.
  destruct (settlement_asset_field settlement) as [asset|e|] eqn:Hf; [|done..]. cbn [rbind].
  assert (take k assets = used) as ->.
  { destruct Hinv as [[= -> _ ->] _ _ _ _]. apply take_app_length. }
  destruct (position asset used) as [i|] eqn:Hpos.
  - apply position_Some in Hpos. unfold checked_add_i128. destruct (_ && _); [|done]. cbn [ok_or rbind].
    unfold checked_slot_amount. destruct (Z.leb_spec (2 ^ 64) (Z.abs (amounts !!! i + signed_amount transfer))) as [|Hlt]; [done|].
    pose proof (slots_inv_amount _ _ _ _ _ _ _ _ Hinv Hpos) as E.
    rewrite E in Hlt |- *. intros [= <-]. exists (asset, signed_amount transfer), used.
    split; [done|]. by apply slots_inv_add.
  - apply position_None in Hpos. destruct (Nat.eqb_spec k n) as [|Hne]; [done|]. cbn [negb].
    unfold checked_slot_amount.
    destruct (Z.leb_spec (2 ^ 64) (Z.abs (signed_amount transfer))) as [|Hlt]; [done|]. intros [= <-].
    exists (asset, signed_amount transfer), (used ++ [asset]). split; [done|]. by apply slots_inv_new.
Qed.

Lemma slots_loop n legs used state pairs state' : (n <= N_PUBLIC)%nat ->
  slots_inv n legs used state -> rfold (assign_public_step n) state pairs = Ok state' ->
  exists entries used', Forall2 leg_of pairs entries /\ slots_inv n (legs ++ entries) used' state'.
Proof.
  intros Hn. revert legs used state. induction pairs as [|leg pairs IH]; intros legs used state Hinv; cbn [rfold].
  - intros [= <-]. exists [], used. by rewrite app_nil_r.
  - destruct (assign_public_step n state leg) as [state1|e|] eqn:Hs; [|done..]. cbn [rbind].
    destruct (slots_step n legs used state leg state1 Hn Hinv Hs) as (entry & used1 & Hleg & Hinv1). intros Hr.
    destruct (IH _ _ _ Hinv1 Hr) as (entries & used' & Hall & Hinv'). exists (entry :: entries), used'.
    split; [by constructor|]. by rewrite <- app_assoc in Hinv'.
Qed.

(** Public amounts: when the transfers are assigned to fresh slots, every leg moves
    in its settlement's direction, the used slots hold each touched asset once,
    with the signed sum of its legs, and those sums are non-zero and fit a [u64];
    the slots after them stay zero. *)
Theorem public_slots_net_transfers (transfers : list InterfaceTransfer) (settlements : list Settlement) (n : nat)
    (p p' : TransactProofInputs) :
  public_slot_assets p = replicate N_PUBLIC zero32 -> public_slot_amounts p = replicate N_PUBLIC 0 ->
  assign_public_amounts_and_assets transfers settlements n p = Ok p' ->
  exists entries used,
    Forall2 leg_of (zip transfers settlements) entries /\ length entries = length transfers /\
    NoDup used /\ (length used <= n <= N_PUBLIC)%nat /\ (forall a, a ∈ used <-> a ∈ map fst entries) /\
    public_slot_assets p' = used ++ replicate (N_PUBLIC - length used) zero32 /\
    public_slot_amounts p' = map (net entries) used ++ replicate (N_PUBLIC - length used) 0 /\
    Forall (fun a => net entries a <> 0 /\ Z.abs (net entries a) < 2 ^ 64) used.
Proof.
  intros HA HM. unfold assign_public_amounts_and_assets. rewrite HA, HM.
  destruct (_ || _) eqn:Hg; [done|]. cbn [negb]. apply orb_false_iff in Hg as [Hl Hn].
  apply negb_false_iff, Nat.eqb_eq in Hl. apply Nat.ltb_ge in Hn.
  destruct (rfold _ _ _) as [[[assets amounts] k]|e|] eqn:Hr; [|done..]. cbn [rbind].
  assert (slots_inv n [] [] (replicate N_PUBLIC zero32, replicate N_PUBLIC 0, 0%nat)) as H0
    by (split; try done; [cbn; lia|constructor]).
  destruct (slots_loop n [] [] _ _ _ Hn H0 Hr) as (entries & used & Hall & [[= -> -> ->] Hb Hnd Ha Hrange]).
  destruct (existsb _ _) eqn:Hz; [done|]. cbn [negb]. intros [= <-]. exists entries, used.
  pose proof (Forall2_length _ _ _ Hall) as Hlen. rewrite length_zip_with in Hlen. destruct p.
  split_and!; try done; [lia|]. rewrite Forall_forall in Hrange |- *. intros a Hin. split; [|by apply Hrange].
  intros E. apply not_true_iff_false in Hz. apply Hz, existsb_exists. exists 0. split; [|done].
  rewrite take_app_length' by (by rewrite length_map). rewrite <- E. by apply in_map, list_elem_of_In.
Qed.

End netting.

(** One deposit and a larger withdrawal of lamports, in one slot. *)
Lemma public_slots_net_transfers_witness :
  let v := mkView (replicate 32 x07) true true false in
  let s := mkSolSettlement v 0 v in
  exists entries used,
    Forall2 (@leg_of signer_poseidon)
      (zip [TransferSolDeposit 5; TransferSolWithdrawal 12] [SolDeposit s; SolWithdrawal s]) entries /\
    used ++ replicate (N_PUBLIC - length used) zero32 = [SOL_ASSET_FIELD; zero32; zero32] /\
    map (net entries) used ++ replicate (N_PUBLIC - length used) 0 = [-7; 0; 0].
Proof.
  intros v s. set (p := proof_inputs_new (ConfidentialSigner 1 2 3)).
  destruct (@public_slots_net_transfers signer_poseidon [TransferSolDeposit 5; TransferSolWithdrawal 12]
    [SolDeposit s; SolWithdrawal s] 3 p
    (assigned ASSIGNED_PUBLIC_TRANSFERS (with_public_slots [SOL_ASSET_FIELD; zero32; zero32] [-7; 0; 0] p)))
    as (entries & used & Hlegs & _ & _ & _ & _ & Hslots & Hamounts & _); [reflexivity..|].
  exists entries, used. split; [exact Hlegs|]. split; [exact (eq_sym Hslots)|exact (eq_sym Hamounts)].
Defined.

(** ** Amounts as field elements *)

Lemma be_val_app l k : be_val (l ++ k) = be_val l * 256 ^ Z.of_nat (length k) + be_val k.
Proof. unfold be_val. rewrite reverse_app, le_val_app, length_reverse. lia. Qed.

(** Limbs written most significant first are the big-endian value. *)
Lemma concat_limbs limbs : Forall (fun l => 0 <= l < 2 ^ 64) limbs ->
  length (concat (map (be_bytes 8) (reverse limbs))) = (8 * length limbs)%nat /\
  be_val (concat (map (be_bytes 8) (reverse limbs))) = limbs_val limbs.
Proof.
  induction 1 as [|l limbs Hl _ [IHl IHv]]; [done|]. rewrite reverse_cons, map_app, concat_app. cbn [map concat].
  rewrite app_nil_r, length_app, length_be_bytes, be_val_app, length_be_bytes, IHl, IHv, be_val_be_bytes by (by cbn).
  cbn [length limbs_val]. split; [lia|]. change (256 ^ Z.of_nat 8) with (2 ^ 64). lia.
Qed.

Section amounts.
Context `{F : ArkFr} {FL : ArkFrLaws F}.

Lemma fr_bytes x : concat (map (be_bytes 8) (reverse (take 4 (fr_limbs x)))) = be_bytes 32 (limbs_val (fr_limbs x)).
Proof.
  destruct (fr_limbs_shape x) as [Hlen Hr]. rewrite take_ge by lia. destruct (concat_limbs _ Hr) as [Hl Hv].
  rewrite Hlen in Hl. apply be_val_inj; [by rewrite Hl, length_be_bytes|]. rewrite Hv, be_val_be_bytes; [done|].
  rewrite <- Hv. pose proof (be_val_bound (concat (map (be_bytes 8) (reverse (fr_limbs x))))) as Hb.
  by rewrite Hl in Hb.
Qed.

Lemma amount_field_value a :
  amount_field a = if Z.abs a <? 2 ^ 64 then Ok (be_bytes 32 (a mod bn254_modulus)) else Err (pool PublicAssetAmountOverflow).
Proof.
  unfold amount_field. destruct (Z.ltb_spec (Z.abs a) (2 ^ 64)) as [Hlt|Hge]; [|done]. cbn [ok_or rbind].
  destruct (Z.ltb_spec a 0) as [Hn|Hp]; rewrite fr_bytes.
  - rewrite fr_neg_val, fr_from_val by lia. do 2 f_equal.
    rewrite <- (Z.sub_0_l (Z.abs a mod _)), Zminus_mod_idemp_r. f_equal. lia.
  - rewrite fr_from_val by lia. by rewrite Z.abs_eq.
Qed.

(** C30. A public amount's field element: an amount of magnitude below [2^64] is encoded
    as its residue modulo the scalar field, negatives as their additive inverse,
    any other is an overflow error; and no two amounts share an encoding. *)
Theorem amount_field_is_signed_residue (a b : Z) (f : bytes) :
  amount_field a =
    (if Z.abs a <? 2 ^ 64 then Ok (be_bytes 32 (a mod bn254_modulus)) else Err (pool PublicAssetAmountOverflow)) /\
  (amount_field a = Ok f -> amount_field b = Ok f -> a = b).
Proof.
  split; [apply amount_field_value|]. rewrite !amount_field_value.
  destruct (Z.ltb_spec (Z.abs a) (2 ^ 64)) as [Ha|]; [|done]. destruct (Z.ltb_spec (Z.abs b) (2 ^ 64)) as [Hb|]; [|done].
  intros Ea Eb. assert (be_bytes 32 (a mod bn254_modulus) = be_bytes 32 (b mod bn254_modulus)) as Heq by congruence.
  assert (2 ^ 65 < bn254_modulus < 256 ^ Z.of_nat 32) as Hp by (by vm_compute).
  pose proof (Z.mod_pos_bound a bn254_modulus ltac:(lia)). pose proof (Z.mod_pos_bound b bn254_modulus ltac:(lia)).
  apply (f_equal be_val) in Heq. rewrite !be_val_be_bytes in Heq by lia.
  assert ((a - b) mod bn254_modulus = 0) as Hz by (rewrite Zminus_mod, Heq, Z.sub_diag; done).
  apply Z.mod_divide in Hz as [k Hk]; [|lia]. clear -Ha Hb Hp Hk. generalize dependent bn254_modulus. intros m Hp Hk.
  assert (k <= -1 \/ k = 0 \/ 1 <= k) as [Hl | [-> | Hg]] by lia; [|lia|].
  - assert (k * m <= -1 * m) by (apply Z.mul_le_mono_nonneg_r; lia). lia.
  - assert (1 * m <= k * m) by (apply Z.mul_le_mono_nonneg_r; lia). lia.
Qed.

End amounts.

(** A concrete scalar field. *)
Definition model_fr : ArkFr := {|
  Fr := Z;
  fr_from v := v mod bn254_modulus;
  fr_neg x := (- x) mod bn254_modulus;
  fr_limbs x := map (fun i => (x mod bn254_modulus / 2 ^ (64 * i)) mod 2 ^ 64) [0; 1; 2; 3];
|}.

Lemma model_limbs_val (x : @Fr model_fr) : limbs_val (fr_limbs x) = x mod bn254_modulus.
Proof.
  assert (0 < bn254_modulus < 2 ^ 256) as Hp by (by vm_compute). cbn [fr_limbs model_fr map limbs_val].
  pose proof (Z.mod_pos_bound x bn254_modulus ltac:(lia)) as Hb. set (y := x mod bn254_modulus) in *. clearbody y.
  change (64 * 0) with 0. change (64 * 1) with 64. change (64 * 2) with (64 + 64). change (64 * 3) with (64 + 64 + 64).
  rewrite !Z.pow_add_r by lia. rewrite <- !Z.div_div, Z.pow_0_r, Z.div_1_r by lia.
  rewrite (Z.mod_small (y / 2 ^ 64 / 2 ^ 64 / 2 ^ 64)).
  - pose proof (Z.div_mod y (2 ^ 64)). pose proof (Z.div_mod (y / 2 ^ 64) (2 ^ 64)).
    pose proof (Z.div_mod (y / 2 ^ 64 / 2 ^ 64) (2 ^ 64)). lia.
  - rewrite !Z.div_div by lia. split; [apply Z.div_pos; lia|]. apply Z.div_lt_upper_bound; [lia|].
    change (2 ^ 64 * 2 ^ 64 * 2 ^ 64 * 2 ^ 64) with (2 ^ 256). lia.
Qed.

Lemma model_fr_laws : ArkFrLaws model_fr.
Proof.
  assert (0 < bn254_modulus) as Hp by (by vm_compute). split.
  - intros x. split; [done|]. apply Forall_map, Forall_forall. intros i _. apply Z.mod_pos_bound. lia.
  - intros v Hv. rewrite model_limbs_val. cbn [fr_from model_fr]. by rewrite Zmod_mod.
  - intros x. rewrite !model_limbs_val. cbn [fr_neg model_fr]. rewrite Zmod_mod.
    symmetry. rewrite <- (Z.sub_0_l x), <- (Z.sub_0_l (x mod bn254_modulus)). apply Zminus_mod_idemp_r.
Qed.

Lemma amount_field_is_signed_residue_witness :
  @amount_field model_fr (-7) = Ok (be_bytes 32 (bn254_modulus - 7)) /\
  (forall b, @amount_field model_fr b = Ok (be_bytes 32 (bn254_modulus - 7)) -> -7 = b).
Proof.
  split.
  - rewrite (proj1 (@amount_field_is_signed_residue model_fr model_fr_laws (-7) 0 [])). reflexivity.
  - intros b. apply (proj2 (@amount_field_is_signed_residue model_fr model_fr_laws (-7) b _)). vm_compute. reflexivity.
Defined.

(** ** The fold of a merge *)

Section merge_fold.
Context `{SP : SolPoseidon} `{SH : SolHash} `{G : PoolGroth16}.

(** Folding complete groups first and continuing is folding at once. *)
Lemma hash_chain_4_continue prefix rest : (exists k, length prefix = 1 + 3 * k)%nat ->
  create_hash_chain_4_from_slice (prefix ++ rest) =
  let? hash := create_hash_chain_4_from_slice prefix in create_hash_chain_4_from_slice (hash :: rest).
Proof.
  intros [k Hk]. destruct prefix as [|first groups]; [discriminate Hk|]. injection Hk as Hk. cbn.
  revert first groups Hk. induction k as [|k IH]; intros first groups Hk.
  - destruct groups; [done|discriminate Hk].
  - destruct groups as [|a [|b [|c groups]]]; cbn in Hk; try lia. cbn [app hash_chain_4_loop].
    destruct (Poseidon.hashv [first; a; b; c]) as [h|e|]; [|done..]. cbn [rbind]. apply IH. lia.
Qed.

(** The elements after the common prefix. *)
Definition binding_elements (b : MergeOwnerBinding) : list bytes :=
  match b with
  | BindDefault signing_pk_field nullifier_pk (PoseidonCtrV1 salt ciphertext) =>
      [signing_pk_field; nullifier_pk; right_align salt] ++ ciphertext
  | BindRing ring_program_id output_ring_data_hash => [output_ring_data_hash; ring_program_id]
  end.

(** Three ciphertext elements, as the type of the scheme fixes. *)
Definition binding_typed (b : MergeOwnerBinding) : Prop :=
  match b with BindDefault _ _ (PoseidonCtrV1 _ ciphertext) => length ciphertext = 3%nat | BindRing _ _ => True end.

(** The public input of a merge is one left fold over the seven common elements
    followed by the rail's: hashing the prefix first loses nothing, and the
    encryption's elements always fit the buffer. *)
Theorem merge_public_input_is_one_fold (ix : MergeTransactIxData) (d : MergeProofInputs) :
  binding_typed (mi_owner_binding d) ->
  merge_public_input_hash ix d =
    let? width := circuit_width ix in
    let? nullifier_chain := hashed (create_padded_right_hash_chain_4 (mt_nullifiers ix) width) in
    let? slot_chain := hashed (populated_tree_slots_hash_chain [mi_tree_slot d]) in
    hashed (create_hash_chain_4_from_slice
      ([nullifier_chain; mt_output_utxo_hash ix; slot_chain; mi_output_tree_id d; mt_private_tx_hash ix;
        mi_external_data_hash d; mi_allow_dummy_inputs d] ++ binding_elements (mi_owner_binding d))).
Proof.
  intros Hty. unfold merge_public_input_hash. destruct (circuit_width ix) as [width|e|]; [|done..]. cbn [rbind].
  destruct (hashed (create_padded_right_hash_chain_4 _ width)) as [nc|e|]; [|done..]. cbn [rbind].
  destruct (hashed (populated_tree_slots_hash_chain _)) as [sc|e|]; [|done..]. cbn [rbind].
  rewrite hash_chain_4_continue by (by exists 2%nat).
  unfold hashed. destruct (create_hash_chain_4_from_slice [_; _; _; _; _; _; _]) as [h|e|]; [|done..]. cbn [map_err rbind].
  destruct (mi_owner_binding d) as [spk npk [salt [|c1 [|c2 [|c3 [|c4 cs]]]]]|rp dh]; done.
Qed.

End merge_fold.

Lemma merge_public_input_is_one_fold_witness :
  let ix := mkMergeIx 0 (mkMergeProof [] [] []) (replicate 32 x01) (PoseidonCtrV1 (replicate 16 x02) (replicate 3 (replicate 32 x03)))
    (replicate 32 x04) [replicate 32 x05; replicate 32 x06] 0 0 None in
  let d := mkMergeInputs (slot_new 7 (replicate 32 x01) (replicate 32 x02)) (tree_id_field 7) (replicate 32 x08) zero32
    (BindDefault (replicate 32 x09) (replicate 32 x0a) (mt_output_encryption ix)) in
  exists v, @merge_public_input_hash signer_poseidon ix d = Ok v.
Proof.
  intros ix d. rewrite (@merge_public_input_is_one_fold signer_poseidon ix d eq_refl).
  eexists. vm_compute. reflexivity.
Defined.

(** ** The fields fit their buffer *)

(** Code that cannot panic, by the structure of its binds. *)
Definition panic_free {E A} (r : res E A) : Prop := r <> Panic.

Create HintDb panic_free.

Lemma panic_free_bind {E A B} (r : res E A) (k : A -> res E B) :
  panic_free r -> (forall a, r = Ok a -> panic_free (k a)) -> panic_free (rbind r k).
Proof. destruct r; cbn; unfold panic_free; auto; congruence. Qed.

Lemma panic_free_map_err {E E' A} (f : E -> E') (r : res E A) : panic_free r -> panic_free (map_err f r).
Proof. by destruct r. Qed.

Lemma panic_free_ok_or {E A} (o : option A) (e : E) : panic_free (ok_or o e).
Proof. by destruct o. Qed.

Lemma panic_free_rfold {E A B} (f : A -> B -> res E A) l a : (forall a b, panic_free (f a b)) -> panic_free (rfold f a l).
Proof.
  intros Hf. revert a. induction l as [|b l IH]; intros a; cbn [rfold]; [done|]. by apply panic_free_bind; [|intros; apply IH].
Qed.

Lemma panic_free_ok {E A} (a : A) : @panic_free E A (Ok a).
Proof. done. Qed.

Lemma panic_free_err {E A} (e : E) : @panic_free E A (Err e).
Proof. done. Qed.

#[export] Hint Resolve panic_free_map_err panic_free_ok_or panic_free_ok panic_free_err : panic_free.

(** One step through a bind, a match or a call. *)
Ltac safe_step :=
  first [ apply panic_free_bind; [|intros ? ?]
        | apply panic_free_rfold; intros
        | solve [auto with panic_free]
        | match goal with |- panic_free (match ?x with _ => _ end) => destruct x end ].
Ltac safe := repeat safe_step.

Section safe_hashes.
Context `{SP : SolPoseidon} `{SH : SolHash} `{F : ArkFr}.

Lemma hashv_safe vals : panic_free (Poseidon.hashv vals).
Proof. unfold Poseidon.hashv. safe. Qed.
#[local] Hint Resolve hashv_safe : panic_free.

Lemma sha_safe vals : panic_free (Sha256.hashv vals).
Proof. done. Qed.
#[local] Hint Resolve sha_safe : panic_free.

Lemma hashed_safe {A} (r : res HasherError A) : panic_free r -> panic_free (hashed r).
Proof. apply panic_free_map_err. Qed.
#[local] Hint Resolve hashed_safe : panic_free.

Lemma left_chain_safe inputs : panic_free (create_hash_chain_from_slice inputs).
Proof. unfold create_hash_chain_from_slice, create_hash_chain. safe. Qed.

Lemma hash_chain_4_safe inputs : panic_free (create_hash_chain_4_from_slice inputs).
Proof.
  unfold create_hash_chain_4_from_slice, create_hash_chain_4. destruct inputs as [|first inputs]; [done|].
  revert first. induction inputs as [inputs IH] using (induction_ltof1 _ length). unfold ltof in IH. intros first.
  destruct inputs as [|a [|b [|c inputs]]]; cbn [hash_chain_4_loop]; auto with panic_free.
  apply panic_free_bind; [auto with panic_free|]. intros h _. apply IH. cbn. lia.
Qed.
#[local] Hint Resolve left_chain_safe hash_chain_4_safe : panic_free.

Lemma right_chain_4_safe prefix seed : panic_free (create_right_hash_chain_4_from_seed prefix seed).
Proof. unfold create_right_hash_chain_4_from_seed. safe. Qed.
#[local] Hint Resolve right_chain_4_safe : panic_free.

Lemma fill_slots_safe slots index sent : panic_free (fill_slots slots index sent).
Proof. revert slots index. induction sent as [|v sent IH]; intros; cbn [fill_slots]; safe. Qed.
#[local] Hint Resolve fill_slots_safe : panic_free.

Lemma padded_chain_safe sent width : panic_free (create_padded_right_hash_chain_4 sent width).
Proof. unfold create_padded_right_hash_chain_4, create_zero_suffix_right_hash_chain_4. safe. Qed.
#[local] Hint Resolve padded_chain_safe : panic_free.

Lemma slots_chain_safe slots : panic_free (populated_tree_slots_hash_chain slots).
Proof. unfold populated_tree_slots_hash_chain, fold_slot, slot_hash. safe. Qed.

Lemma hash_bytes_safe bs : panic_free (hash_bytes bs).
Proof. unfold hash_bytes, Poseidon.hash. safe. Qed.

Lemma identity_safe pk : panic_free (solana_owner_identity pk).
Proof. unfold solana_owner_identity, tagged_identity. safe. Qed.
#[local] Hint Resolve slots_chain_safe hash_bytes_safe identity_safe : panic_free.

Lemma signer_chain_safe hashes width : panic_free (fixed_signer_hash_chain hashes width).
Proof.
  assert (forall hashes chain, panic_free (fold_signers hashes chain)) as Hfold.
  { clear. intros hashes. induction hashes as [|h hashes IH]; intros chain; cbn [fold_signers]; safe. }
  unfold fixed_signer_hash_chain. safe.
Qed.

Lemma cached_fields_safe n : panic_free (empty_cached_input_fields n).
Proof. unfold empty_cached_input_fields. safe. Qed.

Lemma amount_field_safe a : panic_free (amount_field a).
Proof. unfold amount_field. safe. Qed.
#[local] Hint Resolve signer_chain_safe cached_fields_safe amount_field_safe : panic_free.

Lemma amount_fields_length slots fields : amount_fields slots = Ok fields -> length fields = (2 * length slots)%nat.
Proof.
  revert fields. induction slots as [|[asset a] slots IH]; intros fields; cbn [amount_fields]; [by intros [= <-]|].
  destruct (amount_field a); [|done..]. cbn [rbind]. destruct (amount_fields slots) as [fs|e|]; [|done..].
  intros [= <-]. cbn. rewrite (IH fs eq_refl). lia.
Qed.

Lemma amount_fields_safe slots : panic_free (amount_fields slots).
Proof. induction slots as [|[asset a] slots IH]; cbn [amount_fields]; safe. Qed.

Lemma get_prefix_length {A} n (l prefix : list A) : get_prefix n l = Ok prefix ->
  (length prefix <= length l)%nat.
Proof.
  unfold get_prefix. destruct (_ <=? _)%nat; [|done]. intros [= <-]. rewrite length_take. lia.
Qed.

(** The optional fields a circuit adds. *)
Lemma optional_fields c (message eddsa anonymous : list bytes) :
  length message = (if has_message_hash c then 1 else 0)%nat ->
  length eddsa = (match eddsa_owner_pk c with Some _ => 1 | None => 0 end)%nat ->
  length anonymous = (if is_anonymous c then 1 else 0)%nat ->
  (length message + length eddsa + length anonymous <= 2)%nat.
Proof. intros -> -> ->. destruct c; cbn; lia. Qed.

(** C21. Assembling a transact's public input never runs past its fixed buffer of
    twenty fields, for every circuit selector and instruction: with the three
    public slots the arrays have, the widest circuit fills it exactly. *)
Theorem public_fields_fit (ix : TransactIxData) (d : TransactProofInputs) :
  length (public_slot_assets d) = N_PUBLIC ->
  public_input_hash ix d <> Panic.
Proof.
  intros Hslots. change (panic_free (public_input_hash ix d)). unfold public_input_hash.
  apply panic_free_bind; [|intros; auto with panic_free]. unfold public_fields. set (c := ti_circuit ix).
  do 2 (apply panic_free_bind; [unfold get_prefix; auto with panic_free|intros ? _]).
  apply panic_free_bind; [unfold get_prefix; auto with panic_free|intros assets Hassets%get_prefix_length].
  apply panic_free_bind; [unfold get_prefix; auto with panic_free|intros amounts _].
  do 3 (apply panic_free_bind; [auto with panic_free|intros ? _]).
  apply panic_free_bind; [safe|intros message Hmessage].
  apply panic_free_bind; [safe|intros eddsa Heddsa].
  apply panic_free_bind; [safe|intros anonymous Hanonymous].
  apply panic_free_bind; [apply amount_fields_safe|intros public Hpublic%amount_fields_length].
  apply panic_free_bind; [auto with panic_free|intros signers _].
  apply panic_free_bind; [destruct (output_owner_mode c); safe|intros tail Htail].
  assert (length message + length eddsa + length anonymous <= 2)%nat as Hopt.
  { apply (optional_fields c).
    - clear -Hmessage. destruct (has_message_hash c); [|by injection Hmessage as <-].
      destruct (map_err _ _); [|done..]. cbn [rbind] in Hmessage.
      destruct (hashed _); [|done..]. by injection Hmessage as <-.
    - clear -Heddsa. destruct (eddsa_owner_pk c); [|by injection Heddsa as <-].
      destruct (hashed _); [|done..]. by injection Heddsa as <-.
    - clear -Hanonymous. destruct (is_anonymous c); [|by injection Hanonymous as <-].
      destruct (default_owner_tag c); [|by injection Hanonymous as <-].
      destruct (hashed _); [|done..]. by injection Hanonymous as <-. }
  assert (length tail <= 3)%nat as Hlen.
  { clear -Htail. destruct (output_owner_mode c); [injection Htail as <-; cbn; lia|..];
      (destruct (hashed (create_padded_right_hash_chain_4 _ _)); [|done..]; cbn [rbind] in Htail;
       destruct (cached_inputs d) as [[? ?]|]; cbn [rbind] in Htail; [injection Htail as <-; cbn; lia|];
       destruct (hashed _) as [[? ?]|e|]; [injection Htail as <-; cbn; lia|done..]). }
  rewrite length_zip_with in Hpublic. unfold fits.
  rewrite (proj2 (Nat.leb_le _ _)); [done|]. rewrite !length_app. cbn [length].
  change N_PUBLIC with 3%nat in Hslots. unfold FIELDS_CAPACITY. lia.
Qed.

End safe_hashes.

Lemma public_fields_fit_witness :
  let ix := mkTransactIx 0 [] [] [] None None [] [] zero32
    (ConfidentialEddsa 2 8 3 (mkEddsaData (mkBsb22 [] []) (replicate 32 x01))) (mkMergeProof [] [] []) [] [] in
  @public_input_hash signer_poseidon {| sol_sha256 _ := zero32; sol_keccak256 _ := zero32 |} model_fr ix
    (proof_inputs_new (ti_circuit ix)) <> Panic.
Proof. intros ix. apply public_fields_fit. reflexivity. Defined.
