(* ===== verification/Transact.v ===== *)
(** * Transact

    src/programs/shielded-pool/src/instructions/transact: the account layout, the
    caches a transaction reads and writes, the input and output trees, public
    settlement and the processor of the three transact instructions.  The handler
    takes the decoded instruction and the bytes of its external-data prefix. *)

From S2P Require Import Prelude ZeroBytes Hasher HashChain Codec Smt Batch NullifierTree TreeAccount Errors TreeSlot Ledger AccountChecks State Event Shared NullifierPdas Circuit UserRegistry Cache Configs Settlement Merge TransactProof.

(** ** account.rs *)

Record TransactCacheAccounts : Type := mkTransactCacheAccounts {
  tc_read_cache : option View;
  tc_write_cache : option (View * View);
}.

Record TransactAccounts : Type := mkTransactAccounts {
  ta_payer : View;
  ta_input_trees : list View;
  ta_output_tree : View;
  ta_nullifier_pdas : list View;
  ta_owner_signers : list View;
  ta_settlements : list Settlement;
  ta_cache : option TransactCacheAccounts;
}.

Section accounts.
Context `{R : Runtime} `{T : TokenProgram}.

Definition validate_program_prefix (iter : AccountIterator) : Ix AccountIterator :=
  do! '(shielded_pool_program, iter) <- acc (next_account iter);
  require negb (negb (bool_decide (vaddr shielded_pool_program = ID))) else PeIncorrectProgramId;
  do! '(system_program, iter) <- acc (next_account iter);
  require negb (negb (is_system (vaddr system_program))) else pool InvalidSystemProgram;
  mret iter.

Fixpoint parse_input_trees (n : nat) (input_trees : list View) (iter : AccountIterator) : Ix (list View * AccountIterator) :=
  match n with
  | O => mret (input_trees, iter)
  | S n' =>
      do! '(input_tree, iter) <- acc (next_mut iter);
      require negb (existsb (fun tree => bool_decide (vaddr tree = vaddr input_tree)) input_trees) else pool DuplicateInputTree;
      do! input_trees <- mlift (ok_or (try_push INPUT_TREES input_trees input_tree) (pool InvalidTreeContextCount));
      parse_input_trees n' input_trees iter
  end.

(** One group of settlement accounts. *)
Definition parse_settlement (transfer : InterfaceTransfer) (iter : AccountIterator) : Ix (Settlement * AccountIterator) :=
  match transfer with
  | TransferSplDeposit _ spl_interface_bump =>
      do! '(mint_account, iter) <- acc (next_account iter);
      do! '(spl_interface_account, iter) <- acc (next_account iter);
      do! '(token_authority, iter) <- acc (next_account iter);
      do! '(user_token_account, iter) <- acc (next_account iter);
      do! '(token_program, iter) <- acc (next_account iter);
      do! mint_state <- validate_spl_deposit_settlement mint_account spl_interface_account user_token_account token_program
                          spl_interface_bump token_authority;
      mret (SplDeposit (mkSplDeposit mint_account (vs_decimals mint_state) spl_interface_account token_authority
                          user_token_account token_program), iter)
  | TransferSplWithdrawal _ spl_interface_bump =>
      do! '(cpi_authority, iter) <- acc (next_non_mut iter);
      do! '(mint_account, iter) <- acc (next_account iter);
      do! '(spl_interface_account, iter) <- acc (next_account iter);
      do! '(user_token_account, iter) <- acc (next_account iter);
      do! '(token_program, iter) <- acc (next_account iter);
      do! mint_state <- validate_spl_withdrawal_settlement cpi_authority mint_account spl_interface_account
                          user_token_account token_program spl_interface_bump;
      mret (SplWithdrawal (mkSplWithdrawal cpi_authority mint_account (vs_decimals mint_state) spl_interface_account
                             user_token_account token_program), iter)
  | TransferSolDeposit _ =>
      do! '(sol_interface, iter) <- acc (next_account iter);
      do! '(recipient, iter) <- acc (next_account iter);
      do! bump <- validate_sol_settlement sol_interface recipient;
      mret (SolDeposit (mkSolSettlement sol_interface bump recipient), iter)
  | TransferSolWithdrawal _ =>
      do! '(sol_interface, iter) <- acc (next_account iter);
      do! '(recipient, iter) <- acc (next_account iter);
      do! bump <- validate_sol_settlement sol_interface recipient;
      mret (SolWithdrawal (mkSolSettlement sol_interface bump recipient), iter)
  end.

Fixpoint parse_settlements (transfers : list InterfaceTransfer) (settlements : list Settlement) (iter : AccountIterator)
    : Ix (list Settlement * AccountIterator) :=
  match transfers with
  | [] => mret (settlements, iter)
  | transfer :: rest =>
      do! '(settlement, iter) <- parse_settlement transfer iter;
      do! settlements <- mlift (ok_or (try_push MAX_INTERFACE_TRANSFERS settlements settlement)
                                  (pool TooManyInterfaceTransfers));
      parse_settlements rest settlements iter
  end.

Definition reads_cache (c : CircuitId) : bool :=
  match cache_access c with Some access => negb (read_bitmap access =? 0) | None => false end.

Definition circuit_writes_cache (c : CircuitId) : bool :=
  match cache_access c with Some access => writes_cache access | None => false end.

Definition parse_transact_caches (c : CircuitId) (iter : AccountIterator) : Ix (option TransactCacheAccounts) :=
  if reads_cache c || circuit_writes_cache c then
    do! '(read_cache, iter) <- (if reads_cache c then do! '(v, iter) <- acc (next_account iter); mret (Some v, iter)
                                else mret (None, iter));
    do! write_cache <- (if circuit_writes_cache c then
                          do! '(cache, iter) <- acc (next_mut iter);
                          do! '(writer, iter) <- acc (next_signer iter);
                          mret (Some (cache, writer))
                        else mret None);
    mret (Some (mkTransactCacheAccounts read_cache write_cache))
  else mret None.

(** [remaining.iter().position(|account| !account.is_signer()).unwrap_or(remaining.len())] *)
Definition leading_signers (accounts : list View) : nat := length (HashChain.take_while vsigner accounts).

Definition from_iter (iter : AccountIterator) (ix : TransactIxData) (payer : View) (input_trees : list View)
    (output_tree : View) (allow_owner_signers : bool) : Ix TransactAccounts :=
  let c := ti_circuit ix in
  exec! mlift (map_err pool (validate_interface_transfers (ti_interface_transfers ix)));
  do! '(nullifier_pdas, iter) <- next_muts (length (ti_inputs ix)) (pool InvalidTransactShape) MAX_TRANSACT_INPUTS [] iter;
  do! remaining <- acc (remaining_unchecked iter);
  let signer_count := leading_signers remaining in
  require negb ((owner_signer_slots (Z.to_nat (num_inputs c)) + 1 <? signer_count)%nat ||
                (negb allow_owner_signers && negb (signer_count =? 0)%nat)) else pool InvalidTransactShape;
  let owner_signers := take signer_count remaining in
  let settlement_accounts := drop signer_count remaining in
  let remaining_count := (sum_list (map settlement_account_count (ti_interface_transfers ix)) + cache_account_count c)%nat in
  require negb (negb (length settlement_accounts =? remaining_count)%nat) else pool InvalidSettlementAccounts;
  do! '(settlements, iter) <- parse_settlements (ti_interface_transfers ix) [] (new_iter settlement_accounts);
  do! cache <- parse_transact_caches c iter;
  mret (mkTransactAccounts payer input_trees output_tree nullifier_pdas owner_signers settlements cache).

Definition transact_validate_and_parse (accounts : list View) (ix : TransactIxData) : Ix TransactAccounts :=
  do! '(payer, iter) <- acc (next_signer (new_iter accounts));
  do! '(output_tree, iter) <- acc (next_mut iter);
  do! iter <- validate_program_prefix iter;
  do! '(input_trees, iter) <- parse_input_trees (length (ti_tree_contexts ix)) [] iter;
  from_iter iter ix payer input_trees output_tree true.

Definition ring_validate_and_parse (accounts : list View) (ix : TransactIxData) (require_ring_authority_enabled : bool)
    : Ix (TransactAccounts * bytes) :=
  do! '(payer, iter) <- acc (next_signer (new_iter accounts));
  do! '(output_tree, iter) <- acc (next_mut iter);
  do! iter <- validate_program_prefix iter;
  do! '(ring_config, iter) <- acc (next_signer iter);
  do! config <- load_active_ring_config ring_config;
  require negb (require_ring_authority_enabled && negb (rc_enabled config)) else pool RingAuthorityTransactDisabled;
  do! '(input_trees, iter) <- parse_input_trees (length (ti_tree_contexts ix)) [] iter;
  do! a <- from_iter iter ix payer input_trees output_tree (negb require_ring_authority_enabled);
  mret (a, rc_program_id config).

End accounts.

(** ** cache.rs

    A cache read through its own account is read when it is loaded; one read
    through the written cache is read when its inputs are bound, before any
    write. *)

Inductive CacheRead : Type :=
| Own (state : CacheAccount)
| WriteCache.

Record TransactCache : Type := mkTransactCache {
  tx_read : option CacheRead;
  tx_write : option View;
}.

Definition transact_cache_load (accounts : option TransactCacheAccounts) (now : Z) : Ix (option TransactCache) :=
  match accounts with
  | None => mret None
  | Some a =>
      let shared := match tc_read_cache a, tc_write_cache a with
                    | Some read, Some (write, _) => bool_decide (vaddr read = vaddr write)
                    | _, _ => false
                    end in
      do! write <- match tc_write_cache a with
                   | Some (cache, writer) => do! handle <- cache_write_load cache writer now; mret (Some handle)
                   | None => mret None
                   end;
      do! read <- match tc_read_cache a with
                  | Some cache => if shared then mret (Some WriteCache) else do! state <- load_cache cache; mret (Some (Own state))
                  | None => mret None
                  end;
      mret (Some (mkTransactCache read write))
  end.

Definition read_state (c : TransactCache) : Ix (option CacheAccount) :=
  match tx_read c with
  | Some (Own state) => mret (Some state)
  | Some WriteCache => cache_state (tx_write c)
  | None => mret None
  end.

Definition writable (cache : option TransactCache) : option View := c ← cache; tx_write c.

Definition validate_cache_selection (ix : TransactIxData) : res ProgramError unit :=
  check negb (match cache_access (ti_circuit ix) with
              | Some selection => negb (cache_access_valid selection (length (ti_inputs ix)) (length (ti_outputs ix)))
              | None => false
              end) else pool InvalidCacheBitmap in Ok tt.

Section cache.
Context `{SP : SolPoseidon} `{SH : SolHash}.

Definition bind_cached_inputs (cache : option TransactCache) (ix : TransactIxData) (p : TransactProofInputs)
    : Ix TransactProofInputs :=
  do! state <- match cache with Some c => read_state c | None => mret None end;
  match state with
  | None => mret p
  | Some state => mlift (assign_cached_inputs (ti_circuit ix) state p)
  end.

Definition transact_bind_cache_write (cache : option TransactCache) (ix : TransactIxData) (external_data_hash : bytes)
    : res ProgramError bytes :=
  let destination := match writable cache, cache_access (ti_circuit ix) with
                     | Some handle, Some access => Some (cache_write_address handle, write_slots access)
                     | _, _ => None
                     end in
  map_err (caused_by (pool TransactProofVerificationFailed)) (bind_cache_write external_data_hash destination).

Definition check_cache_output_tree (cache : option TransactCache) (output_tree_id : Z) : Ix unit :=
  match writable cache with
  | Some handle => do! state <- cache_write_state handle; mlift (check_output_tree state output_tree_id)
  | None => mret tt
  end.

Fixpoint write_entries (handle : View) (outputs : list TransactOutput) (entries : list CacheWriteEntry) : Ix unit :=
  match entries with
  | [] => mret tt
  | entry :: rest =>
      do! output <- mlift (ok_or (outputs !! Z.to_nat (cw_output entry)) (pool InvalidCacheBitmap));
      exec! cache_write handle (cw_slot entry) (to_utxo_hash output);
      write_entries handle outputs rest
  end.

Definition write_cached_outputs (cache : option TransactCache) (ix : TransactIxData) : Ix unit :=
  match writable cache, cache_access (ti_circuit ix) with
  | Some handle, Some access => write_entries handle (ti_outputs ix) (cache_writes access)
  | _, _ => mret tt
  end.

End cache.

(** ** interface_transfer.rs *)

Section settle.
Context `{R : Runtime} `{T : TokenProgram}.

Fixpoint settle_interface_transfers (legs : list (InterfaceTransfer * Settlement)) : Ix unit :=
  match legs with
  | [] => mret tt
  | (transfer, settlement) :: rest =>
      require negb (negb (eqb (transfer_is_deposit transfer) (is_deposit settlement))) else pool InvalidSettlementAccounts;
      exec! settle settlement (transfer_amount transfer);
      settle_interface_transfers rest
  end.

End settle.

(** ** event.rs *)

Record TreeWrite : Type := mkTreeWrite {
  tw_first_output_leaf_index : Z;
  tw_output_tree : bytes;
  tw_output_tree_id : Z;
}.

Fixpoint resolve_outputs (accounts : list View) (outputs : list TransactOutput) (resolved : list ResolvedOutput)
    : res ProgramError (list ResolvedOutput) :=
  match outputs with
  | [] => Ok resolved
  | output :: rest =>
      let? o := map_err pool (into_resolved output (fun i => vaddr <$> accounts !! Z.to_nat i)) in
      let? resolved := ok_or (try_push MAX_OUTPUTS resolved o) (pool InvalidTransactShape) in
      resolve_outputs accounts rest resolved
  end.

Definition build_transact_event (w : TreeWrite) (sequences : list InputTreeSequence) : TransactEvent :=
  mkTransactEvent sequences (tw_output_tree w) (tw_first_output_leaf_index w).

(** ** tree.rs *)

Section transact.
Context `{SP : SolPoseidon} `{SH : SolHash} `{G : PoolGroth16} `{W : Wincode} `{R : Runtime} `{T : TokenProgram}
  `{F : ArkFr} `{K : KeyMetadata}.

Definition resolve_input_tree_slot (tree : TreeAccountLayout) (context : TreeContext) : res ProgramError TreeSlot :=
  if negb (utxo_tree_root_index context =? NO_UTXO_ROOT) then map_err tree_error (resolve_tree_slot tree context) else
  let? nullifier_root := map_err tree_error (get_nullifier_tree_root tree (nullifier_tree_root_index context)) in
  Ok (mkSlot (tree_id_array tree) zero32 nullifier_root).

(** Steps 2 and 3 on one loaded input tree. *)
Definition spend_tree (address : bytes) (context : TreeContext) (tree_input_count : nat) (nullifiers : list bytes)
    : M TreeAccountLayout ProgramError (bool * TreeSlot * InputTreeResult) :=
  do! tree <- mget;
  do! headroom <- mlift (map_err tree_error (dummy_input_headroom tree));
  let allow := Z.of_nat tree_input_count <=? headroom in
  do! slot <- mlift (resolve_input_tree_slot tree context);
  let first_input_queue_seq := queue_next_index (nullifier tree) in
  exec! queue_nullifiers nullifiers;
  do! tree_fee <- mmap_err tree_error credit_tree_fee;
  exec! mmap_err tree_error (record_nullifier_pdas_created (Z.of_nat tree_input_count));
  do! tree <- mget;
  mret (allow, slot,
        mkInputTreeResult (mkInputTreeSequence address first_input_queue_seq) tree_fee (fee_balance tree) (tree_id tree)).

(** The inputs that reference a tree, with their PDAs, in input order. *)
Definition tree_inputs (tree_index : Z) (pdas : list View) (inputs : list InputUtxo) : list (View * bytes) :=
  map (fun '(pda, input) => (pda, nullifier_hash input))
    (filter (fun '(_, input) => TransactProof.tree_index input = tree_index) (zip pdas inputs)).

Fixpoint apply_trees (payer : View) (pdas : list View) (inputs : list InputUtxo) (tree_index : Z)
    (trees : list (View * TreeContext * nat)) (sequences : list InputTreeSequence) (tree_slots : list TreeSlot)
    (allow_dummy_inputs : bool) : Ix (list InputTreeSequence * list TreeSlot * bool) :=
  match trees with
  | [] => mret (sequences, tree_slots, allow_dummy_inputs)
  | (tree, context, count) :: rest =>
      let nullifiers := map nullifier_hash (filter (fun i => TransactProof.tree_index i = tree_index) inputs) in
      do! '(allow, slot, result) <- with_tree tree_error tree (spend_tree (vaddr tree) context count nullifiers);
      do! tree_slots <- mlift (ok_or (try_push INPUT_TREES tree_slots slot) (pool InvalidTransactShape));
      exec! create_nullifier_pdas payer tree (tree_inputs tree_index pdas inputs) result;
      do! sequences <- mlift (ok_or (try_push INPUT_TREES sequences (itr_input_tree result)) (pool InvalidTransactShape));
      apply_trees payer pdas inputs (tree_index + 1) rest sequences tree_slots (allow_dummy_inputs && allow)
  end.

Definition apply_input_trees (accounts : TransactAccounts) (ix : TransactIxData) (tree_input_counts : list nat)
    (p : TransactProofInputs) : Ix (list InputTreeSequence * TransactProofInputs) :=
  require negb (negb (length (ta_nullifier_pdas accounts) =? length (ti_inputs ix))%nat) else pool InvalidNullifierPda;
  require negb (negb (length (ta_input_trees accounts) =? length (ti_tree_contexts ix))%nat ||
                (MAX_INPUT_TREES <? length (ti_tree_contexts ix))%nat) else pool InvalidTransactShape;
  do! '(sequences, tree_slots, allow_dummy_inputs) <-
    apply_trees (ta_payer accounts) (ta_nullifier_pdas accounts) (ti_inputs ix) 0
      (zip (zip (ta_input_trees accounts) (ti_tree_contexts ix)) tree_input_counts) [] [] true;
  do! flags <- mlift (map_err pool (pack_input_flags allow_dummy_inputs (map TransactProof.tree_index (ti_inputs ix))));
  mret (sequences, assign_input_trees tree_slots flags p).

Definition write_output_tree (address : bytes) (ix : TransactIxData) (slot : Z) (is_input_tree : bool)
    : M TreeAccountLayout ProgramError (TreeWrite * Z) :=
  do! tree <- mget;
  let first_output_leaf_index := Smt.next_index (utxo tree) in
  exec! mmap_err tree_error (utxo_tree (append_batch UTXO_TREE_HEIGHT (map to_utxo_hash (ti_outputs ix)) slot));
  do! tree_fee <- (if bool_decide (ti_outputs ix = []) then mret 0 else credit_output_tree_fee is_input_tree);
  do! tree <- mget;
  mret (mkTreeWrite first_output_leaf_index address (tree_id tree), tree_fee).

Definition transact_apply_output_tree (output_tree : View) (ix : TransactIxData) (slot : Z) (is_input_tree : bool)
    : Ix (TreeWrite * Z) :=
  with_tree tree_error output_tree (write_output_tree (vaddr output_tree) ix slot is_input_tree).

(** ** processor.rs *)

Definition circuit_matches (tag : InstructionTag) (c : CircuitId) : bool :=
  match tag, uncached c with
  | Transact, (ConfidentialSigner _ _ _ | ConfidentialEddsa _ _ _ _) => true
  | RingTransact, (ConfidentialRingEddsa _ _ _ | AnonymousRingEddsa _ _ _ _) => true
  | RingAuthorityTransact, _ => is_authority c
  | _, _ => false
  end.

Definition validate_circuit_type (ix : TransactIxData) (tag : InstructionTag) : res ProgramError unit :=
  let c := ti_circuit ix in
  check negb (negb (circuit_matches tag c)) else pool MismatchedCircuitType in
  check negb (bool_decide (ti_inputs ix = []) || (num_inputs c <? Z.of_nat (length (ti_inputs ix))) ||
              (num_outputs c <? Z.of_nat (length (ti_outputs ix))) || (N_PUBLIC_SLOTS <? num_public_asset_slots c) ||
              negb (circuit_is_supported c)) else pool InvalidTransactShape in
  check negb (negb (circuit_enabled c)) else pool CircuitFeatureDisabled in
  let? _ := check_field_elements (map nullifier_hash (ti_inputs ix)) NonCanonicalInputNullifier in
  let? _ := check_field_elements (map to_utxo_hash (ti_outputs ix)) NonCanonicalOutputUtxoHash in
  let? _ := check_nonzero_field_elements (map nullifier_hash (ti_inputs ix)) ZeroInputNullifier in
  let? _ := check_nonzero_field_elements (map to_utxo_hash (ti_outputs ix)) ZeroOutputUtxoHash in
  let? _ := check_field_element (ti_private_tx_hash ix) NonCanonicalPrivateTxHash in
  validate_cache_selection ix.

Definition push_settlements (slices : list bytes) (settlements : list Settlement) : res HasherError (list bytes) :=
  rfold (fun slices s => let '(asset, user) := committed_accounts s in push_settlement slices (vaddr asset) (vaddr user))
    slices settlements.

Definition push_owner_tags (slices : list bytes) (outputs : list (TransactOutput * ResolvedOutput)) : res HasherError (list bytes) :=
  rfold (fun slices '(output, resolved) => push_owner_tag slices (to_owner_tag output) (ro_owner_tag resolved)) slices outputs.

Definition hash_external_data (tag : bytes) (external_data_prefix : bytes) (ix : TransactIxData)
    (settlements : list Settlement) (resolved_outputs : list ResolvedOutput) : res ProgramError bytes :=
  map_err (caused_by (pool TooManyExternalDataHashSlices))
    (let? slices := push_settlements [tag; external_data_prefix] settlements in
     let? slices := push_owner_tags slices (zip (ti_outputs ix) resolved_outputs) in
     Sha256BE.hashv slices).

(** Steps 7 to 9: the hash cache starts empty and is dropped afterwards. *)
Definition assign_owners_and_amounts (accounts : TransactAccounts) (ix : TransactIxData)
    (resolved_outputs : list ResolvedOutput) (p : TransactProofInputs) : res ProgramError TransactProofInputs :=
  let c := ti_circuit ix in
  let? p := fst ((do! p <- fill_owner_signer_hashes (requires_input_signatures c) (vaddr (ta_payer accounts))
                             (map vaddr (ta_owner_signers accounts)) p;
                  fill_output_owner_pk_hashes (output_owner_mode c) resolved_outputs p) []) in
  assign_public_amounts_and_assets (ti_interface_transfers ix) (ta_settlements accounts)
    (Z.to_nat (num_public_asset_slots c)) p.

(** The steps up to the verification of the proof. *)
Definition prepare_transact (accounts : list View) (ix : TransactIxData) (external_data_prefix : bytes)
    (tag : InstructionTag) (clock : Clock) (tree_input_counts : list nat) (resolved_outputs : list ResolvedOutput)
    : Ix (TransactAccounts * option TransactCache * TreeWrite * list InputTreeSequence * TransactProofInputs) :=
  let c := ti_circuit ix in
  let p := proof_inputs_new c in
  do! '(a, p) <- (if is_ring c then
                    do! '(a, ring_program_id) <- ring_validate_and_parse accounts ix (is_authority c);
                    do! field <- mlift (hashed (hash_bytes ring_program_id));
                    mret (a, assign_ring_program_id field p)
                  else do! a <- transact_validate_and_parse accounts ix; mret (a, p));
  do! cache <- transact_cache_load (ta_cache a) (unix_timestamp clock);
  do! p <- mlift (assign_owners_and_amounts a ix resolved_outputs p);
  do! '(sequences, p) <- apply_input_trees a ix tree_input_counts p;
  do! p <- bind_cached_inputs cache ix p;
  let output_is_input_tree := existsb (fun tree => bool_decide (vaddr tree = vaddr (ta_output_tree a))) (ta_input_trees a) in
  do! '(tree_write, output_tree_fee) <- transact_apply_output_tree (ta_output_tree a) ix (Ledger.slot clock) output_is_input_tree;
  exec! collect_tree_fee (ta_payer a) (ta_output_tree a) output_tree_fee;
  exec! check_cache_output_tree cache (tw_output_tree_id tree_write);
  let p := assign_output_tree_id (tw_output_tree_id tree_write) p in
  do! hash <- mlift (hash_external_data [byte_of (tag_byte tag)] external_data_prefix ix (ta_settlements a) resolved_outputs);
  do! hash <- mlift (transact_bind_cache_write cache ix hash);
  let p := assign_external_data_hash hash p in
  exec! mlift (ensure_complete p);
  mret (a, cache, tree_write, sequences, p).

Definition process_resolved_transact (accounts : list View) (ix : TransactIxData) (external_data_prefix : bytes)
    (tag : InstructionTag) (clock : Clock) (tree_input_counts : list nat) (resolved_outputs : list ResolvedOutput)
    : Ix unit :=
  do! '(a, cache, tree_write, sequences, p) <-
    prepare_transact accounts ix external_data_prefix tag clock tree_input_counts resolved_outputs;
  exec! mlift (transact_verify ix p);
  exec! write_cached_outputs cache ix;
  exec! settle_interface_transfers (zip (ti_interface_transfers ix) (ta_settlements a));
  emit_event KindTransact (build_transact_event tree_write sequences).

Definition process_transact_ix (accounts : list View) (ix : TransactIxData) (external_data_prefix : bytes)
    (tag : InstructionTag) : Ix unit :=
  exec! mlift (validate_circuit_type ix tag);
  do! tree_input_counts <- mlift (map_err pool (validate_input_tree_contexts (ti_inputs ix) (ti_tree_contexts ix)));
  do! clock <- get_clock;
  exec! mlift (check_not_expired (ti_expiry_unix_ts ix) clock);
  do! resolved_outputs <- mlift (resolve_outputs accounts (ti_outputs ix) []);
  process_resolved_transact accounts ix external_data_prefix tag clock tree_input_counts resolved_outputs.

End transact.
