(* ===== verification/Deposit.v ===== *)
(** * Deposits

    src/programs/shielded-pool/src/instructions/deposit: a batch of public
    deposits without a proof.  Each entry appends one output whose commitment the
    program computes itself, and each asset is settled once with the sum of its
    entries.  The handlers take the decoded instruction data. *)

From S2P Require Import Prelude ZeroBytes Hasher HashChain Codec Smt Batch NullifierTree TreeAccount Errors TreeSlot Ledger AccountChecks State Event Shared Configs Settlement Merge TransactProof.

(** ** Instruction data (deposit.rs of the interface crate) *)

Definition MAX_DEPOSIT_ASSETS : nat := 5.

(** [b"Deposit"] *)
Definition DEPOSIT_BLINDING_DOMAIN : bytes := [x44; x65; x70; x6f; x73; x69; x74].

Inductive DepositAssetKind : Set :=
| KindSol
| KindSpl (spl_interface_bump : Z).

Record DepositEntry : Type := mkDepositEntry {
  de_asset_index : Z;
  de_view_tag : bytes;
  de_owner : bytes;
  de_amount : Z;
  de_memo : option bytes;
}.

Record RingDepositEntry : Type := mkRingDepositEntry {
  re_asset_index : Z;
  re_view_tag : bytes;
  re_owner_utxo_hash : bytes;
  re_amount : Z;
  re_ring_data_hash : bytes;
  re_encrypted : EncryptedRingDepositData;
}.

Definition deposit_blinding `{SolHash} (tree : bytes) (leaf_index : Z) : res HasherError bytes :=
  Sha256BE.hashv [DEPOSIT_BLINDING_DOMAIN; tree; be_bytes 8 leaf_index].

(** ** hash.rs *)

Definition field_from_u64 (value : Z) : bytes := replicate 24 x00 ++ be_bytes 8 value.
Definition UTXO_DOMAIN : Z := 3.
Definition UTXO_DOMAIN_FIELD : bytes := field_from_u64 UTXO_DOMAIN.

(** ** account.rs *)

Record DepositAssetGroup : Type := mkGroup {
  dg_asset : bytes;
  dg_asset_field : bytes;
  dg_settlement : Settlement;
}.

Section accounts.
Context `{SP : SolPoseidon} `{R : Runtime} `{T : TokenProgram}.

Definition deposit_validate_sol (depositor system_program sol_interface : View) : Ix Z :=
  require negb (negb (is_system (vaddr system_program))) else pool InvalidSettlementAccounts;
  validate_sol_settlement sol_interface depositor.

Definition parse_group (depositor : View) (kind : DepositAssetKind) (iter : AccountIterator)
    : Ix (DepositAssetGroup * AccountIterator) :=
  match kind with
  | KindSol =>
      do! '(system_program, iter) <- acc (next_account iter);
      do! '(sol_interface, iter) <- acc (next_account iter);
      do! bump <- deposit_validate_sol depositor system_program sol_interface;
      mret (mkGroup zero32 SOL_ASSET_FIELD (SolDeposit (mkSolSettlement sol_interface bump depositor)), iter)
  | KindSpl spl_interface_bump =>
      do! '(token_program, iter) <- acc (next_account iter);
      do! '(mint_account, iter) <- acc (next_account iter);
      do! '(user_token, iter) <- acc (next_account iter);
      do! '(spl_interface, iter) <- acc (next_account iter);
      do! mint_state <- validate_spl_deposit_settlement mint_account spl_interface user_token token_program
                          spl_interface_bump depositor;
      do! field <- mlift (hashed (hash_bytes (vs_mint mint_state)));
      mret (mkGroup (vs_mint mint_state) field
              (SplDeposit (mkSplDeposit mint_account (vs_decimals mint_state) spl_interface depositor user_token token_program)),
            iter)
  end.

Fixpoint parse_groups (depositor : View) (assets : list DepositAssetKind) (groups : list DepositAssetGroup)
    (iter : AccountIterator) : Ix (list DepositAssetGroup * AccountIterator) :=
  match assets with
  | [] => mret (groups, iter)
  | kind :: rest =>
      do! '(group, iter) <- parse_group depositor kind iter;
      require negb (existsb (fun existing => bool_decide (dg_asset existing = dg_asset group)) groups)
        else pool DuplicateDepositAsset;
      parse_groups depositor rest (groups ++ [group]) iter
  end.

Record DepositAccounts : Type := mkDepositAccounts {
  da_tree : View;
  da_groups : list DepositAssetGroup;
}.

Definition deposit_validate_and_parse (has_ring : bool) (accounts : list View) (assets : list DepositAssetKind)
    : Ix (DepositAccounts * option bytes) :=
  require negb (bool_decide (assets = [])) else pool InvalidSettlementAccounts;
  require negb (MAX_DEPOSIT_ASSETS <? length assets)%nat else pool TooManyDepositAssets;
  do! '(tree, iter) <- acc (next_mut (new_iter accounts));
  do! '(depositor, iter) <- acc (next_signer iter);
  do! '(ring_program_id, iter) <- (if has_ring then
                                     do! '(account, iter) <- acc (next_signer iter);
                                     do! config <- load_active_ring_config account;
                                     mret (Some (rc_program_id config), iter)
                                   else mret (None, iter));
  do! '(program_account, iter) <- acc (next_account iter);
  require negb (negb (bool_decide (vaddr program_account = ID))) else pool InvalidSettlementAccounts;
  do! '(groups, iter) <- parse_groups depositor assets [] iter;
  require negb (negb (iterator_is_empty iter)) else pool InvalidSettlementAccounts;
  mret (mkDepositAccounts tree groups, ring_program_id).

End accounts.

(** ** processor.rs *)

(** light-array-map's insertion-ordered map with a fixed capacity: a parameter. *)
Class ArrayMapLib : Type := {
  amap : Type;
  am_new : amap;
  am_get : Z -> amap -> option Z;             (** [get_mut_by_key] *)
  am_update : Z -> Z -> amap -> amap;         (** writing through that reference *)
  am_insert : Z -> Z -> amap -> option amap;  (** [None]: full *)
  am_entries : amap -> list (Z * Z);          (** [len] and [get_by_index] *)
}.

Class ArrayMapLaws (A : ArrayMapLib) : Prop := {
  am_new_entries : am_entries am_new = [];
  am_get_entries : forall k m, am_get k m = snd <$> find (fun e => e.1 =? k) (am_entries m);
  am_update_entries : forall k v m,
    am_entries (am_update k v m) = map (fun e => if e.1 =? k then (e.1, v) else e) (am_entries m);
  am_insert_entries : forall k v m m', am_insert k v m = Some m' -> am_entries m' = am_entries m ++ [(k, v)];
}.

Inductive ProcessingEntry : Type :=
| DefaultEntry (e : DepositEntry)
| RingEntry (e : RingDepositEntry).

Definition entry_asset_index (e : ProcessingEntry) : Z :=
  match e with DefaultEntry e => de_asset_index e | RingEntry e => re_asset_index e end.
Definition entry_amount (e : ProcessingEntry) : Z :=
  match e with DefaultEntry e => de_amount e | RingEntry e => re_amount e end.

Definition check_entry_field_elements (e : ProcessingEntry) : res ProgramError unit :=
  match e with
  | DefaultEntry e => check_field_element (de_owner e) NonCanonicalDepositField
  | RingEntry e =>
      let? _ := check_field_element (re_owner_utxo_hash e) NonCanonicalDepositField in
      check_field_element (re_ring_data_hash e) NonCanonicalDepositField
  end.

Section deposit.
Context `{SP : SolPoseidon} `{SH : SolHash} `{W : Wincode} `{R : Runtime} `{T : TokenProgram} `{A : ArrayMapLib}.

(** A Poseidon hash whose failure is reported as a failed proof. *)
Definition deposit_hash (vals : list bytes) : res ProgramError bytes :=
  map_err (caused_by (pool TransactProofVerificationFailed)) (Poseidon.hashv vals).

Definition hash_with_program_id (data_hash program_id_field : bytes) : res ProgramError bytes :=
  deposit_hash [data_hash; program_id_field].

(** event.rs *)
Definition proofless_output_utxo (e : DepositEntry) (blinding utxo_hash asset : bytes) : res ProgramError OutputUtxo :=
  let? data := encode_output_data (mkProofless (de_owner e) blinding asset (de_amount e) None None None None None (de_memo e)) in
  Ok (mkOutputUtxo (de_view_tag e) utxo_hash data).

Definition encrypted_ring_output_utxo (e : RingDepositEntry) (utxo_hash asset ring_program_id : bytes)
    : res ProgramError OutputUtxo :=
  let? data := encode_encrypted_ring_deposit_output
    (mkEncryptedRingOutput (re_owner_utxo_hash e) asset (re_amount e) None ring_program_id (re_ring_data_hash e) (re_encrypted e)) in
  Ok (mkOutputUtxo (re_view_tag e) utxo_hash data).

(** What a batch is hashed under. *)
Record DepositContext : Type := mkDepositContext {
  dc_has_ring : bool;
  dc_groups : list DepositAssetGroup;
  dc_ring_program_id : option bytes;
  dc_ring_program_id_field : bytes;
  dc_zero_ring_hash : bytes;
  dc_output_tree : bytes;
  dc_tree_id : bytes;
  dc_first_output_leaf_index : Z;
}.

Definition entry_blinding (c : DepositContext) (entry_index : Z) : res ProgramError bytes :=
  if dc_has_ring c then Ok zero32 else
  let? leaf_index := ok_or (checked_add 64 (dc_first_output_leaf_index c) entry_index) (pool StateAppendFailed) in
  map_err (caused_by (pool DepositBlindingDerivationFailed)) (deposit_blinding (dc_output_tree c) leaf_index).

Definition entry_hashes (c : DepositContext) (blinding : bytes) (e : ProcessingEntry) : res ProgramError (bytes * bytes) :=
  match e with
  | DefaultEntry e =>
      let? owner_utxo_hash := deposit_hash [de_owner e; blinding] in Ok (dc_zero_ring_hash c, owner_utxo_hash)
  | RingEntry e =>
      let? ring_hash := hash_with_program_id (re_ring_data_hash e) (dc_ring_program_id_field c) in
      Ok (ring_hash, re_owner_utxo_hash e)
  end.

Definition utxo_commitment (tree_id asset_field : bytes) (amount : Z) (ring_hash owner_utxo_hash : bytes)
    : res ProgramError bytes :=
  deposit_hash [UTXO_DOMAIN_FIELD; tree_id; asset_field; field_from_u64 amount; zero32; ring_hash; owner_utxo_hash].

Definition add_to_sum (asset_index amount : Z) (sums : amap) : res ProgramError amap :=
  match am_get asset_index sums with
  | Some total =>
      let? total := ok_or (checked_add 64 total amount) (pool DepositAmountOverflow) in
      Ok (am_update asset_index total sums)
  | None => ok_or (am_insert asset_index amount sums) (pool TooManyDepositAssets)
  end.

(** One iteration: the sums, the outputs and the commitments so far. *)
Definition process_entry (c : DepositContext) (entry_index : Z) (e : ProcessingEntry)
    (state : amap * list OutputUtxo * list bytes) : res ProgramError (amap * list OutputUtxo * list bytes) :=
  let '(sums, outputs, utxo_hashes) := state in
  let? _ := check_entry_field_elements e in
  let? group := ok_or (dc_groups c !! Z.to_nat (entry_asset_index e)) (pool InvalidDepositAssetIndex) in
  let? blinding := entry_blinding c entry_index in
  let? '(ring_hash, owner_utxo_hash) := entry_hashes c blinding e in
  let? utxo_hash := utxo_commitment (dc_tree_id c) (dg_asset_field group) (entry_amount e) ring_hash owner_utxo_hash in
  let? sums := add_to_sum (entry_asset_index e) (entry_amount e) sums in
  let? output := match e with
                 | DefaultEntry e => proofless_output_utxo e blinding utxo_hash (dg_asset group)
                 | RingEntry e =>
                     let? ring_program_id := ok_or (dc_ring_program_id c) (pool InvalidRingConfig) in
                     encrypted_ring_output_utxo e utxo_hash (dg_asset group) ring_program_id
                 end in
  Ok (sums, outputs ++ [output], utxo_hashes ++ [utxo_hash]).

Fixpoint process_entries (c : DepositContext) (entry_index : Z) (entries : list ProcessingEntry)
    (state : amap * list OutputUtxo * list bytes) : res ProgramError (amap * list OutputUtxo * list bytes) :=
  match entries with
  | [] => Ok state
  | e :: rest => let? state := process_entry c entry_index e state in process_entries c (entry_index + 1) rest state
  end.

(** The block that holds the tree: hashing the entries and appending them. *)
Definition append_entries (address : bytes) (has_ring : bool) (groups : list DepositAssetGroup)
    (ring_program_id : option bytes) (ring_program_id_field zero_ring_hash : bytes) (entries : list ProcessingEntry)
    (slot : Z) : M TreeAccountLayout ProgramError (amap * list OutputUtxo * Z) :=
  do! tree <- mget;
  let first_output_leaf_index := Smt.next_index (utxo tree) in
  let c := mkDepositContext has_ring groups ring_program_id ring_program_id_field zero_ring_hash address
             (tree_id_array tree) first_output_leaf_index in
  do! '(sums, outputs, utxo_hashes) <- mlift (process_entries c 0 entries (am_new, [], []));
  exec! mmap_err (fun e => pool (of_tree_error e)) (utxo_tree (append_batch UTXO_TREE_HEIGHT utxo_hashes slot));
  mret (sums, outputs, first_output_leaf_index).

(** [for slot in 0..asset_sums.len()] *)
Fixpoint settle_sums (groups : list DepositAssetGroup) (sums : list (Z * Z)) : Ix (list SplTransfer) :=
  match sums with
  | [] => mret []
  | (asset_index, total) :: rest =>
      do! group <- mlift (ok_or (groups !! Z.to_nat asset_index) (pool InvalidDepositAssetIndex));
      require negb (negb (is_deposit (dg_settlement group))) else pool InvalidSettlementAccounts;
      exec! (if 0 <? total then settle (dg_settlement group) total else mret tt);
      do! asset <- mlift (spl_asset (dg_settlement group));
      do! transfers <- settle_sums groups rest;
      mret (mkSplTransfer true total asset :: transfers)
  end.

Definition emit_deposit_event (outputs : list OutputUtxo) (spl_transfers : list SplTransfer)
    (first_output_leaf_index : Z) (output_tree : bytes) : Ix unit :=
  emit_event KindDeposit
    (mkGeneralEvent [] outputs [] (replicate 33 x00) (replicate 16 x00) first_output_leaf_index output_tree spl_transfers).

Definition process_deposit_internal (has_ring : bool) (accounts : list View) (assets : list DepositAssetKind)
    (entries : list ProcessingEntry) : Ix unit :=
  require negb (length entries =? 0)%nat else pool EmptyDepositBatch;
  do! '(parsed, ring_program_id) <- deposit_validate_and_parse has_ring accounts assets;
  do! ring_program_id_field <- mlift (match ring_program_id with
                                      | Some program_id => hashed (hash_bytes program_id)
                                      | None => Ok zero32
                                      end);
  do! zero_ring_hash <- mlift (or_panic (POSEIDON_ZERO_BYTES !! 1%nat));
  do! c <- get_clock;
  do! '(sums, outputs, first_output_leaf_index) <- with_tree (fun e => pool (of_tree_error e)) (da_tree parsed)
    (append_entries (vaddr (da_tree parsed)) has_ring (da_groups parsed) ring_program_id ring_program_id_field
       zero_ring_hash entries (Ledger.slot c));
  require negb (negb (length (am_entries sums) =? length (da_groups parsed))%nat) else pool UnreferencedDepositAsset;
  do! spl_transfers <- settle_sums (da_groups parsed) (am_entries sums);
  emit_deposit_event outputs spl_transfers first_output_leaf_index (vaddr (da_tree parsed)).

Definition process_deposit (accounts : list View) (assets : list DepositAssetKind) (deposits : list DepositEntry) : Ix unit :=
  process_deposit_internal false accounts assets (map DefaultEntry deposits).

Definition process_ring_deposit (accounts : list View) (assets : list DepositAssetKind) (deposits : list RingDepositEntry)
    : Ix unit :=
  process_deposit_internal true accounts assets (map RingEntry deposits).

End deposit.
