(* ===== verification/Program.v ===== *)
(** * The shielded-pool program

    src/programs/shielded-pool/src/lib.rs: the dispatch of an instruction on its
    tag.  Instruction data in borsh or plain bytes is decoded here; the wincode
    formats of transact, merge, deposit and create-cache are parameters. *)

From S2P Require Import Prelude ZeroBytes Hasher HashChain Codec Smt Batch NullifierTree TreeAccount Errors TreeSlot Ledger AccountChecks State Event Shared NullifierPdas Forester CreateTree Circuit UserRegistry Cache Configs Settlement Merge TransactProof Transact Deposit.

(** ** Borsh formats *)

Definition batch_update_codec : Codec InstructionDataBatchNullifyInputs :=
  iso (fun '(n, (o, (z, (a, (b, c))))) => mkBatchNullifyInputs n o z (mkNullifierTreeProof a b c))
      (fun d => (in_new_root d, (in_old_root d, (in_zkp_batch_index d, (proof_a (in_proof d), (proof_b (in_proof d),
         proof_c (in_proof d)))))))
      (raw 32 ⊕ raw 32 ⊕ u16 ⊕ raw 32 ⊕ raw 128 ⊕ raw 32).

Definition create_ring_codec : Codec CreateRingConfigData :=
  iso (fun '(p, a) => mkCreateRing p a) (fun d => (cr_program_id d, cr_authority d)) (raw 32 ⊕ raw 32).

(** A borsh [bool] is one byte, zero or one. *)
Definition decode_bool (data : bytes) : option bool :=
  v ← try_from_bytes u8 data;
  match v with 0 => Some false | 1 => Some true | _ => None end.

Definition decode_update_protocol_config (data : bytes) : option UpdateProtocolConfigData :=
  match data with
  | [] => None
  | tag :: rest =>
      match byte_val tag with
      | 0 => ProtocolAuthority <$> try_from_bytes (raw 32) rest
      | 1 => TreeCreationAuthority <$> try_from_bytes (raw 32) rest
      | 2 => ForesterAuthority <$> try_from_bytes (raw 32) rest
      | 3 => RingCreationAuthority <$> try_from_bytes (raw 32) rest
      | 4 => TreeCreationPermissionless <$> decode_bool rest
      | 5 => RingActivationPermissionless <$> decode_bool rest
      | 6 => SplInterfaceCreationPermissionless <$> decode_bool rest
      | 7 => FeeAuthority <$> try_from_bytes (raw 32) rest
      | _ => None
      end
  end.

(** ** Wincode formats *)

Class WincodeFormats : Type := {
  decode_transact : bytes -> option (TransactIxData * bytes);
  decode_merge : bytes -> option MergeTransactIxData;
  decode_merge_ring : bytes -> option MergeRingIxData;
  decode_deposit : bytes -> option (list DepositAssetKind * list DepositEntry);
  decode_ring_deposit : bytes -> option (list DepositAssetKind * list RingDepositEntry);
  decode_create_cache : bytes -> option CreateCacheData;
}.

(** The fields have the widths of their types. *)
Definition transact_data_typed (ix : TransactIxData) : Prop :=
  Forall (fun i => is_bytes 32 (nullifier_hash i) /\ 0 <= TransactProof.tree_index i < 256) (ti_inputs ix) /\
  Forall (fun o => is_bytes 32 (to_utxo_hash o)) (ti_outputs ix) /\
  Forall (fun t => 0 <= transfer_amount t < 2 ^ 64) (ti_interface_transfers ix).

Definition merge_data_typed (ix : MergeTransactIxData) : Prop :=
  Forall (is_bytes 32) (mt_nullifiers ix) /\ is_bytes 32 (mt_output_utxo_hash ix) /\
  match mt_output_encryption ix with Merge.PoseidonCtrV1 _ ciphertext => length ciphertext = 3%nat end.

Class WincodeTyped (D : WincodeFormats) : Prop := {
  decode_transact_typed : forall d ix p, decode_transact d = Some (ix, p) -> transact_data_typed ix;
  decode_merge_typed : forall d ix, decode_merge d = Some ix -> merge_data_typed ix;
  decode_merge_ring_typed : forall d ix, decode_merge_ring d = Some ix -> merge_data_typed (mr_merge ix);
  decode_deposit_typed : forall d assets entries, decode_deposit d = Some (assets, entries) ->
    Forall (fun e => is_bytes 32 (de_owner e) /\ 0 <= de_amount e < 2 ^ 64 /\ 0 <= de_asset_index e < 256) entries;
  decode_ring_deposit_typed : forall d assets entries, decode_ring_deposit d = Some (assets, entries) ->
    Forall (fun e => is_bytes 32 (re_owner_utxo_hash e) /\ is_bytes 32 (re_ring_data_hash e) /\
                     0 <= re_amount e < 2 ^ 64 /\ 0 <= re_asset_index e < 256) entries;
  decode_create_cache_typed : forall d c, decode_create_cache d = Some c -> is_bytes 32 (cc_write_authority c);
}.

Section program.
Context `{SP : SolPoseidon} `{SH : SolHash} `{G : Groth16} `{PG : PoolGroth16} `{W : Wincode} `{R : Runtime}
  `{T : TokenProgram} `{F : ArkFr} `{K : KeyMetadata} `{LS : LoaderState} `{A : ArrayMapLib} `{D : WincodeFormats}.

(** Decode the payload, or report [e]. *)
Definition decoded {X} (o : option X) (e : ProgramError) (k : X -> Ix unit) : Ix unit :=
  do! x <- mlift (ok_or o e); k x.

Definition dispatch (tag : InstructionTag) (accounts : list View) (payload : bytes) : Ix unit :=
  let invalid := pool InvalidInstructionData in
  match tag with
  | EmitEvent => mret tt
  | Event.Transact | RingTransact | RingAuthorityTransact =>
      decoded (decode_transact payload) PeInvalidInstructionData (fun '(ix, prefix) => process_transact_ix accounts ix prefix tag)
  | CreateTree => process_create_tree accounts payload
  | BatchUpdateNullifierTree =>
      decoded (try_from_bytes batch_update_codec payload) invalid (process_batch_update_nullifier_tree accounts)
  | Event.Deposit => decoded (decode_deposit payload) invalid (fun '(assets, entries) => process_deposit accounts assets entries)
  | RingDeposit =>
      decoded (decode_ring_deposit payload) invalid (fun '(assets, entries) => process_ring_deposit accounts assets entries)
  | CreateAssetCounter => process_create_asset_counter accounts payload
  | CreateSplInterface => process_create_spl_interface accounts payload
  | CreateProtocolConfig => process_create_protocol_config accounts payload
  | UpdateProtocolConfig => decoded (decode_update_protocol_config payload) invalid (process_update_protocol_config accounts)
  | PauseTree => decoded (try_from_bytes u8 payload) invalid (process_pause_tree accounts)
  | CreateRingConfig => decoded (try_from_bytes create_ring_codec payload) invalid (process_create_ring_config accounts)
  | UpdateRingConfigOwner => process_update_ring_config_owner accounts payload
  | UpdateRingConfig => decoded (decode_bool payload) invalid (process_update_ring_config accounts)
  | SetRingActivation => process_set_ring_activation accounts payload
  | MergeTransact => decoded (decode_merge payload) (pool InvalidMergeShape) (process_merge_transact_ix accounts)
  | RingMergeTransact => decoded (decode_merge_ring payload) (pool InvalidMergeShape) (process_merge_ring_ix accounts)
  | CreateCache => decoded (decode_create_cache payload) invalid (process_create_cache accounts)
  | CloseCache => process_close_cache accounts payload
  | CloseNullifierPdas => process_close_nullifier_pdas accounts payload
  | SetTreeFees => decoded (try_from_bytes fees_codec payload) invalid (process_set_tree_fees accounts)
  | ClaimTreeLamports => process_claim_tree_lamports accounts payload
  end.

Definition process_instruction (program_id : bytes) (accounts : list View) (instruction_data : bytes) : Ix unit :=
  require negb (negb (bool_decide (program_id = ID))) else PeIncorrectProgramId;
  match instruction_data with
  | [] => mthrow PeInvalidInstructionData
  | ix_tag :: payload =>
      do! tag <- mlift (ok_or (tag_try_from (byte_val ix_tag)) PeInvalidInstructionData);
      dispatch tag accounts payload
  end.

End program.
