(* ===== verification/EventIndex.v ===== *)
(** * Event discovery and reconstruction

    src/sdk-libs/event: an indexer finds the event self-invocations of a confirmed
    transaction, resolves the instruction that emitted each, and rebuilds the
    general event from the emitted body and the data and accounts of that
    instruction. *)

From S2P Require Import Prelude Hasher HashChain Codec NullifierTree Errors TreeSlot Ledger State Event Circuit Merge TransactProof Deposit Program.

(** ** Borsh decoding

    A reader takes its value off the front of the input. *)

Notation reader A := (bytes -> option (A * bytes)).

Definition read_bytes (n : nat) : reader bytes := fun d =>
  if (n <=? length d)%nat then Some (take n d, drop n d) else None.

Definition read_int (n : nat) : reader Z := fun d => '(b, d) ← read_bytes n d; Some (le_val b, d).

Definition read_vec_u8 : reader bytes := fun d => '(n, d) ← read_int 4 d; read_bytes (Z.to_nat n) d.

Fixpoint read_times {A} (r : reader A) (n : nat) : reader (list A) := fun d =>
  match n with
  | O => Some ([], d)
  | S n' => '(x, d) ← r d; '(xs, d) ← read_times r n' d; Some (x :: xs, d)
  end.

Definition read_vec {A} (r : reader A) : reader (list A) := fun d => '(n, d) ← read_int 4 d; read_times r (Z.to_nat n) d.

Definition read_bool : reader bool := fun d =>
  match d with
  | x00 :: d => Some (false, d)
  | x01 :: d => Some (true, d)
  | _ => None
  end.

Definition read_option {A} (r : reader A) : reader (option A) := fun d =>
  match d with
  | x00 :: d => Some (None, d)
  | x01 :: d => '(x, d) ← r d; Some (Some x, d)
  | _ => None
  end.

(** [try_from_slice]: nothing may follow the value. *)
Definition try_from_slice {A} (r : reader A) (d : bytes) : option A :=
  '(x, rest) ← r d; if bool_decide (rest = []) then Some x else None.

(** The derived readers: the fields in order. *)

Definition read_input_tree : reader InputTreeSequence := fun d =>
  '(t, d) ← read_bytes 32 d; '(s, d) ← read_int 8 d; Some (mkInputTreeSequence t s, d).

Definition read_transact_event : reader TransactEvent := fun d =>
  '(ts, d) ← read_vec read_input_tree d; '(o, d) ← read_bytes 32 d; '(i, d) ← read_int 8 d;
  Some (mkTransactEvent ts o i, d).

Definition read_merge_event : reader MergeEvent := fun d =>
  '(ts, d) ← read_vec read_input_tree d; '(o, d) ← read_bytes 32 d; '(i, d) ← read_int 8 d; '(v, d) ← read_bytes 32 d;
  Some (mkMergeEvent ts o i v, d).

Definition read_output_utxo : reader OutputUtxo := fun d =>
  '(v, d) ← read_bytes 32 d; '(h, d) ← read_bytes 32 d; '(b, d) ← read_vec_u8 d; Some (mkOutputUtxo v h b, d).

Definition read_message : reader MessageData := fun d =>
  '(v, d) ← read_bytes 32 d; '(b, d) ← read_vec_u8 d; Some (mkMessage v b, d).

Definition read_input : reader Input := fun d =>
  '(t, d) ← read_bytes 32 d; '(s, d) ← read_int 8 d; '(n, d) ← read_bytes 32 d; Some (mkInput t s n, d).

Definition read_spl_transfer : reader SplTransfer := fun d =>
  '(b, d) ← read_bool d; '(a, d) ← read_int 8 d; '(m, d) ← read_option (read_bytes 32) d; Some (mkSplTransfer b a m, d).

Definition read_general_event : reader GeneralEvent := fun d =>
  '(ins, d) ← read_vec read_input d; '(outs, d) ← read_vec read_output_utxo d; '(ms, d) ← read_vec read_message d;
  '(k, d) ← read_bytes 33 d; '(s, d) ← read_bytes 16 d; '(i, d) ← read_int 8 d; '(o, d) ← read_bytes 32 d;
  '(ts, d) ← read_vec read_spl_transfer d; Some (mkGeneralEvent ins outs ms k s i o ts, d).

Definition read_proofless : reader ProoflessOutput := fun d =>
  '(o, d) ← read_bytes 32 d; '(b, d) ← read_bytes 32 d; '(a, d) ← read_bytes 32 d; '(m, d) ← read_int 8 d;
  '(h, d) ← read_option (read_bytes 32) d; '(u, d) ← read_option read_vec_u8 d; '(p, d) ← read_option (read_bytes 32) d;
  '(r, d) ← read_option (read_bytes 32) d; '(z, d) ← read_option read_vec_u8 d; '(e, d) ← read_option read_vec_u8 d;
  Some (mkProofless o b a m h u p r z e, d).

Definition read_encrypted_ring : reader EncryptedRingDepositData := fun d =>
  '(k, d) ← read_bytes 33 d; '(s, d) ← read_bytes 16 d; '(c, d) ← read_vec_u8 d; Some (mkEncryptedRing k s c, d).

Definition read_encrypted_ring_output : reader EncryptedRingDepositOutput := fun d =>
  '(o, d) ← read_bytes 32 d; '(a, d) ← read_bytes 32 d; '(m, d) ← read_int 8 d; '(h, d) ← read_option (read_bytes 32) d;
  '(p, d) ← read_bytes 32 d; '(r, d) ← read_bytes 32 d; '(e, d) ← read_encrypted_ring d;
  Some (mkEncryptedRingOutput o a m h p r e, d).

Definition read_encoding : reader OutputDataEncoding := fun d =>
  match d with
  | x00 :: d => '(b, d) ← read_vec_u8 d; Some (Plaintext b, d)
  | x01 :: d => '(b, d) ← read_vec_u8 d; Some (Encrypted b, d)
  | x02 :: d => '(b, d) ← read_vec_u8 d; Some (VerifiablyEncrypted b, d)
  | _ => None
  end.

(** ** lib.rs and instruction.rs *)

Inductive EventDecodeError : Set :=
| MissingInstructionTag
| InvalidInstructionTag (tag : Z)
| InvalidPayload
| InvalidEventKind (kind : Z)
| InvalidOutputData
| MissingOutput
| MissingDepositSplTransfer
| InvalidSourceInstructionData
| UnsupportedSourceInstruction (tag : Z)
| OutputOwnerAccountMissing (index : Z)
| UnsupportedInputTreeCount (n : Z)
| EdInputTreeIndexOutOfRange (index : Z)
| MissingSettlementAccount
| NotAGeneralEvent
| IndexOverflow.

Record ParsedInstruction : Type := mkParsed {
  pi_program_id : bytes;
  pi_accounts : list bytes;
  pi_data : bytes;
  stack_height : Z;
}.

Record InstructionGroup : Type := mkGroup {
  outer : ParsedInstruction;
  inner : list ParsedInstruction;
}.

(** ** deposit.rs *)

(** The scheme byte and the body after it. *)
Definition scheme_body {A} (r : reader A) (expected : Z) (blob : bytes) : res EventDecodeError A :=
  match blob with
  | [] => Err InvalidOutputData
  | scheme :: body =>
      check negb (negb (byte_val scheme =? expected)) else InvalidOutputData in
      ok_or (try_from_slice r body) InvalidOutputData
  end.

Definition decode_output_data (data : bytes) : res EventDecodeError ProoflessOutput :=
  let? encoding := ok_or (try_from_slice read_encoding data) InvalidOutputData in
  match encoding with
  | Plaintext blob => scheme_body read_proofless 0 blob
  | _ => Err InvalidOutputData
  end.

Definition decode_encrypted_ring_deposit_output_data (data : bytes) : res EventDecodeError EncryptedRingDepositOutput :=
  let? encoding := ok_or (try_from_slice read_encoding data) InvalidOutputData in
  match encoding with
  | Encrypted blob => scheme_body read_encrypted_ring_output ENCRYPTED_RING_DEPOSIT_SCHEME blob
  | _ => Err InvalidOutputData
  end.

(** [iter().map(f).collect::<Result<_, _>>()] *)
Fixpoint collect {A B E} (f : A -> res E B) (l : list A) : res E (list B) :=
  match l with
  | [] => Ok []
  | x :: l => let? y := f x in let? ys := collect f l in Ok (y :: ys)
  end.

Definition require_deposit (event : GeneralEvent) : res EventDecodeError unit :=
  check negb (bool_decide (ge_spl_transfers event = []) || negb (forallb st_is_deposit (ge_spl_transfers event)))
    else MissingDepositSplTransfer in Ok tt.

Definition proofless_outputs (event : GeneralEvent) : res EventDecodeError (list ProoflessOutput) :=
  check negb (bool_decide (ge_outputs event = [])) else MissingOutput in
  let? _ := require_deposit event in
  collect (fun output => decode_output_data (ou_data output)) (ge_outputs event).

(** ** reconstruct.rs *)

Definition source_tag_and_data (source : ParsedInstruction) : res EventDecodeError (Z * bytes) :=
  match pi_data source with
  | [] => Err MissingInstructionTag
  | tag :: data => Ok (byte_val tag, data)
  end.

Definition single_input_tree (input_trees : list InputTreeSequence) : res EventDecodeError InputTreeSequence :=
  match input_trees with
  | [tree] => Ok tree
  | _ => Err (UnsupportedInputTreeCount (Z.of_nat (length input_trees)))
  end.

(** The loop over the inputs with the count of earlier inputs per tree. *)
Fixpoint assign_inputs (input_trees : list InputTreeSequence) (spent_per_tree : list Z) (inputs : list InputUtxo)
    : res EventDecodeError (list Input) :=
  match inputs with
  | [] => Ok []
  | input :: rest =>
      let position := Z.to_nat (TransactProof.tree_index input) in
      let? '(tree, spent) := ok_or (tree ← input_trees !! position; spent ← spent_per_tree !! position; Some (tree, spent))
                               (EdInputTreeIndexOutOfRange (TransactProof.tree_index input)) in
      let? input_queue_seq := ok_or (checked_add 64 (first_input_queue_seq tree) spent) IndexOverflow in
      let? spent := ok_or (checked_add 64 spent 1) IndexOverflow in
      let? rest := assign_inputs input_trees (<[position := spent]> spent_per_tree) rest in
      Ok (mkInput (seq_tree tree) input_queue_seq (nullifier_hash input) :: rest)
  end.

Definition inputs_from_tree_indexes (input_trees : list InputTreeSequence) (inputs : list InputUtxo)
    : res EventDecodeError (list Input) :=
  check negb (bool_decide (input_trees = [])) else UnsupportedInputTreeCount 0 in
  assign_inputs input_trees (replicate (length input_trees) 0) inputs.

(** A position of a vector always fits a [u64]. *)
Definition inputs_from_nullifiers (tree : InputTreeSequence) (nullifiers : list bytes) : res EventDecodeError (list Input) :=
  collect (fun '(position, nullifier) =>
    let? input_queue_seq := ok_or (checked_add 64 (first_input_queue_seq tree) (Z.of_nat position)) IndexOverflow in
    Ok (mkInput (seq_tree tree) input_queue_seq nullifier)) (imap pair nullifiers).

Fixpoint settlement_transfers (transfers : list InterfaceTransfer) (settlement_accounts : list bytes) (group_start : nat)
    : res EventDecodeError (list SplTransfer) :=
  match transfers with
  | [] => Ok []
  | transfer :: rest =>
      let? asset := match mint_account_position transfer with
                    | None => Ok None
                    | Some position =>
                        let? mint := ok_or (settlement_accounts !! (group_start + position)%nat) MissingSettlementAccount in
                        Ok (Some mint)
                    end in
      let? rest := settlement_transfers rest settlement_accounts (group_start + settlement_account_count transfer) in
      Ok (mkSplTransfer (transfer_is_deposit transfer) (transfer_amount transfer) asset :: rest)
  end.

Definition resolve_output (accounts : list bytes) (output : TransactOutput) : res EventDecodeError OutputUtxo :=
  let? resolved := map_err (fun _ => match to_owner_tag output with
                                     | AccountTag index => OutputOwnerAccountMissing index
                                     | Inline _ => InvalidSourceInstructionData
                                     end)
                     (into_resolved output (fun index => accounts !! Z.to_nat index)) in
  Ok (mkOutputUtxo (ro_owner_tag resolved) (ro_utxo_hash resolved) (default [] (ro_data resolved))).

Section reconstruct.
Context `{D : WincodeFormats}.

Definition transact_general_event (source : ParsedInstruction) (event : TransactEvent) : res EventDecodeError GeneralEvent :=
  let? '(source_tag, ix_bytes) := source_tag_and_data source in
  check existsb (fun t => source_tag =? tag_byte t) [Event.Transact; RingTransact; RingAuthorityTransact]
    else UnsupportedSourceInstruction source_tag in
  let? '(ix, _) := ok_or (decode_transact ix_bytes) InvalidSourceInstructionData in
  let? window := ok_or (settlement_accounts (ti_interface_transfers ix) (ti_circuit ix) (pi_accounts source))
                   MissingSettlementAccount in
  let? spl_transfers := settlement_transfers (ti_interface_transfers ix) window 0 in
  let? inputs := inputs_from_tree_indexes (te_input_trees event) (ti_inputs ix) in
  let? outputs := collect (resolve_output (pi_accounts source)) (ti_outputs ix) in
  Ok (mkGeneralEvent inputs outputs (ti_messages ix) (ti_tx_viewing_pk ix) (ti_salt ix) (te_first_output_leaf_index event)
        (te_output_tree event) spl_transfers).

Definition merge_general_event (source : ParsedInstruction) (event : MergeEvent) : res EventDecodeError GeneralEvent :=
  let? '(source_tag, ix_bytes) := source_tag_and_data source in
  let? '(ix, prefix) :=
    if source_tag =? tag_byte MergeTransact then
      let? ix := ok_or (decode_merge ix_bytes) InvalidSourceInstructionData in Ok (ix, [])
    else if source_tag =? tag_byte RingMergeTransact then
      let? ring := ok_or (decode_merge_ring ix_bytes) InvalidSourceInstructionData in
      Ok (mr_merge ring, [mr_output_ring_data_hash ring])
    else Err (UnsupportedSourceInstruction source_tag) in
  let output_data := match mt_output_encryption ix with
                     | PoseidonCtrV1 salt ciphertext => encode_merge_output_data (mkMergeOutput salt ciphertext prefix)
                     end in
  let? input_tree := single_input_tree (me_input_trees event) in
  let? inputs := inputs_from_nullifiers input_tree (mt_nullifiers ix) in
  Ok (mkGeneralEvent inputs [mkOutputUtxo (me_output_view_tag event) (mt_output_utxo_hash ix) output_data] []
        (replicate 33 x00) (replicate 16 x00) (me_output_leaf_index event) (me_output_tree event) []).

Definition reconstruct_general_event_from_payload (source : ParsedInstruction) (payload : bytes)
    : res EventDecodeError GeneralEvent :=
  match payload with
  | [] => Err InvalidPayload
  | kind_byte :: body =>
      let? kind := ok_or (kind_from_byte (byte_val kind_byte)) (InvalidEventKind (byte_val kind_byte)) in
      match kind with
      | KindDeposit => ok_or (try_from_slice read_general_event body) InvalidPayload
      | KindTransact =>
          let? event := ok_or (try_from_slice read_transact_event body) InvalidPayload in
          transact_general_event source event
      | KindMerge =>
          let? event := ok_or (try_from_slice read_merge_event body) InvalidPayload in
          merge_general_event source event
      | KindNullifierTreeUpdate => Err NotAGeneralEvent
      end
  end.

Definition reconstruct_general_event (source : ParsedInstruction) (emit_event_data : bytes)
    : res EventDecodeError GeneralEvent :=
  match emit_event_data with
  | [] => Err MissingInstructionTag
  | tag :: payload =>
      check negb (negb (byte_val tag =? tag_byte EmitEvent)) else InvalidInstructionTag (byte_val tag) in
      reconstruct_general_event_from_payload source payload
  end.

(** ** indexed.rs *)

Record IndexedEvent : Type := mkIndexed {
  ie_tag : Z;
  ie_payload : bytes;
  ie_decoded : res EventDecodeError GeneralEvent;
}.

Definition event_kind_from_indexed (event : IndexedEvent) : option EventKind :=
  kind ← head (ie_payload event); kind_from_byte (byte_val kind).

(** Returns the rebuilt event when there is one. *)
Definition general_event_from_indexed (event : IndexedEvent) : res EventDecodeError GeneralEvent :=
  match ie_decoded event with
  | Ok general_event => Ok general_event
  | Err e => Err e
  | Panic => Panic
  end.

Definition event_parent (group : InstructionGroup) (event_index : nat) : option ParsedInstruction :=
  event ← inner group !! event_index;
  parent_height ← checked_sub (stack_height event) 1;
  let preceding := take event_index (inner group) in
  match List.find (fun i => stack_height i =? parent_height) (reverse preceding) with
  | Some parent => Some parent
  | None => if stack_height (outer group) =? parent_height then Some (outer group) else None
  end.

Definition is_general_event_source_tag (byte : Z) : bool :=
  existsb (fun t => byte =? tag_byte t)
    [Event.Deposit; RingDeposit; Event.Transact; RingTransact; RingAuthorityTransact; MergeTransact; RingMergeTransact].

Definition is_event_source (program : bytes) (i : ParsedInstruction) : bool :=
  bool_decide (pi_program_id i = program) &&
  match pi_data i with tag :: _ => is_general_event_source_tag (byte_val tag) | [] => false end.

Definition is_ring_wrapper_event_source (program : bytes) (i : ParsedInstruction) : bool :=
  match pi_data i with
  | tag :: _ => existsb (fun t => byte_val tag =? tag_byte t) [RingDeposit; RingTransact; RingAuthorityTransact; RingMergeTransact]
  | [] => false
  end && bool_decide (program ∈ pi_accounts i).

Definition is_emit_event (program : bytes) (i : ParsedInstruction) : bool :=
  bool_decide (pi_program_id i = program) &&
  match pi_data i with tag :: _ => byte_val tag =? tag_byte EmitEvent | [] => false end.

Definition event_source_parent (program : bytes) (group : InstructionGroup) (event_index : nat) : option ParsedInstruction :=
  parent ← event_parent group event_index;
  if is_event_source program parent then Some parent else None.

Definition instruction_may_emit_events (program : bytes) (i : ParsedInstruction) : bool :=
  is_event_source program i || is_ring_wrapper_event_source program i.

Definition indexed_event (source : ParsedInstruction) (data : bytes) : IndexedEvent :=
  mkIndexed (tag_byte EmitEvent) (drop 1 data) (reconstruct_general_event source data).

(** The loop over one group's inner instructions. *)
Definition group_events (program : bytes) (group : InstructionGroup) : list IndexedEvent :=
  omap (fun '(index, instruction) =>
    if negb (is_emit_event program instruction) then None
    else source ← event_source_parent program group index; Some (indexed_event source (pi_data instruction)))
    (imap pair (inner group)).

Definition indexed_events_from_instruction_groups (program : bytes) (groups : list InstructionGroup) : list IndexedEvent :=
  concat (map (group_events program) groups).

End reconstruct.

(** ** Decoding inverts encoding *)

(** [r] reads back what [enc] writes of the values [ok], and leaves what follows. *)
Definition reads {A} (r : reader A) (enc : A -> bytes) (ok : A -> Prop) : Prop :=
  forall x rest, ok x -> r (enc x ++ rest) = Some (x, rest).

Create HintDb reads.

Lemma reads_bytes n : reads (read_bytes n) id (is_bytes n).
Proof.
  intros x rest Hx. unfold read_bytes, is_bytes, id in *. subst n. rewrite length_app, (proj2 (Nat.leb_le _ _)) by lia.
  by rewrite take_app_length, drop_app_length.
Qed.

Lemma reads_int n : reads (read_int n) (le_bytes n) (fun v => 0 <= v < 256 ^ Z.of_nat n).
Proof.
  intros v rest Hv. unfold read_int. rewrite (reads_bytes n (le_bytes n v)) by (apply length_le_bytes). cbn.
  by rewrite le_val_le_bytes.
Qed.

Definition small {A} (l : list A) : Prop := Z.of_nat (length l) < 2 ^ 32.

Lemma reads_len {A} (l : list A) rest : small l -> read_int 4 (le_bytes 4 (Z.of_nat (length l)) ++ rest) = Some (Z.of_nat (length l), rest).
Proof. intros Hl. apply reads_int. unfold small in Hl. change (256 ^ Z.of_nat 4) with (2 ^ 32). lia. Qed.

Lemma reads_vec_u8 : reads read_vec_u8 borsh_bytes small.
Proof.
  intros x rest Hx. unfold read_vec_u8, borsh_bytes. rewrite <- app_assoc, reads_len by done. cbn. rewrite Nat2Z.id.
  by apply (reads_bytes (length x)).
Qed.

Lemma reads_times {A} (r : reader A) enc ok l rest : reads r enc ok -> Forall ok l ->
  read_times r (length l) (concat (map enc l) ++ rest) = Some (l, rest).
Proof.
  intros Hr. induction 1 as [|x l Hx _ IH]; [done|]. cbn [length read_times map concat]. rewrite <- app_assoc, Hr by done.
  cbn. by rewrite IH.
Qed.

Lemma reads_vec {A} `{Borsh A} (r : reader A) ok : reads r borsh ok -> reads (read_vec r) borsh_vec (fun l => small l /\ Forall ok l).
Proof.
  intros Hr l rest [Hl Hok]. unfold read_vec, borsh_vec. rewrite <- app_assoc, reads_len by done. cbn. rewrite Nat2Z.id.
  by eapply reads_times.
Qed.

Lemma reads_bool : reads read_bool borsh_bool (fun _ => True).
Proof. by intros [] rest _. Qed.

Lemma reads_option {A} (r : reader A) (f : A -> bytes) (ok : A -> Prop) : reads r f ok ->
  reads (read_option r) (fun o => match o with Some x => x01 :: f x | None => [x00] end)
    (fun o => match o with Some x => ok x | None => True end).
Proof. intros Hr [x|] rest Hx; [|done]. cbn [app read_option]. rewrite Hr by done. done. Qed.

(** As rewriting rules for the fields of a record. *)
Lemma read_bytes_app n x rest : is_bytes n x -> read_bytes n (x ++ rest) = Some (x, rest).
Proof. apply reads_bytes. Qed.

Lemma read_u64_app v rest : is_u64 v -> read_int 8 (le_bytes 8 v ++ rest) = Some (v, rest).
Proof. intros. by apply reads_int. Qed.

Lemma read_option_bytes_app o rest : match o with Some x => is_bytes 32 x | None => True end ->
  read_option (read_bytes 32) (borsh_option borsh_array o ++ rest) = Some (o, rest).
Proof. apply (reads_option (read_bytes 32) borsh_array (is_bytes 32)), reads_bytes. Qed.

Lemma read_option_vec_app o rest : match o with Some x => small x | None => True end ->
  read_option read_vec_u8 (borsh_option borsh_bytes o ++ rest) = Some (o, rest).
Proof. apply (reads_option read_vec_u8 borsh_bytes small), reads_vec_u8. Qed.

Lemma read_vec_u8_app x rest : small x -> read_vec_u8 (borsh_bytes x ++ rest) = Some (x, rest).
Proof. apply reads_vec_u8. Qed.

Lemma read_bool_app b rest : read_bool (borsh_bool b ++ rest) = Some (b, rest).
Proof. by apply reads_bool. Qed.

#[export] Hint Rewrite read_bytes_app read_u64_app read_option_bytes_app read_option_vec_app read_vec_u8_app read_bool_app
  using (first [eassumption|done]) : reads.

(** Read the fields of a record from its encoding. *)
Ltac reading := repeat (rewrite <- ?app_assoc; first [progress (autorewrite with reads)|progress (cbn [mbind option_bind])]).

(** *** Values of the source's types *)

Definition input_tree_ok (s : InputTreeSequence) : Prop := is_bytes 32 (seq_tree s) /\ is_u64 (first_input_queue_seq s).

Definition transact_event_ok (e : TransactEvent) : Prop :=
  small (te_input_trees e) /\ Forall input_tree_ok (te_input_trees e) /\ is_bytes 32 (te_output_tree e) /\
  is_u64 (te_first_output_leaf_index e).

Definition merge_event_ok (e : MergeEvent) : Prop :=
  small (me_input_trees e) /\ Forall input_tree_ok (me_input_trees e) /\ is_bytes 32 (me_output_tree e) /\
  is_u64 (me_output_leaf_index e) /\ is_bytes 32 (me_output_view_tag e).

Definition output_ok (o : OutputUtxo) : Prop :=
  is_bytes 32 (ou_view_tag o) /\ is_bytes 32 (ou_utxo_hash o) /\ small (ou_data o).

Definition message_ok (m : MessageData) : Prop := is_bytes 32 (md_view_tag m) /\ small (md_data m).

Definition input_ok (i : Input) : Prop :=
  is_bytes 32 (in_tree i) /\ is_u64 (in_input_queue_seq i) /\ is_bytes 32 (in_nullifier i).

Definition spl_transfer_ok (t : SplTransfer) : Prop :=
  is_u64 (st_amount t) /\ match st_asset t with Some x => is_bytes 32 x | None => True end.

Definition general_event_ok (e : GeneralEvent) : Prop :=
  (small (ge_inputs e) /\ Forall input_ok (ge_inputs e)) /\ (small (ge_outputs e) /\ Forall output_ok (ge_outputs e)) /\
  (small (ge_messages e) /\ Forall message_ok (ge_messages e)) /\ is_bytes 33 (ge_tx_viewing_pk e) /\
  is_bytes 16 (ge_salt e) /\ is_u64 (ge_first_output_leaf_index e) /\ is_bytes 32 (ge_output_tree e) /\
  (small (ge_spl_transfers e) /\ Forall spl_transfer_ok (ge_spl_transfers e)).

Lemma reads_input_tree : reads read_input_tree borsh input_tree_ok.
Proof. intros x rest [Ht Hs]. unfold borsh, borsh_input_tree, read_input_tree. reading. by destruct x. Qed.

Lemma reads_transact_event : reads read_transact_event borsh transact_event_ok.
Proof.
  intros x rest (Hn & Hts & Ho & Hi). unfold borsh, borsh_transact, read_transact_event.
  rewrite <- app_assoc, (reads_vec _ _ reads_input_tree) by done. reading. by destruct x.
Qed.

Lemma reads_merge_event : reads read_merge_event borsh merge_event_ok.
Proof.
  intros x rest (Hn & Hts & Ho & Hi & Hv). unfold borsh, borsh_merge, read_merge_event.
  rewrite <- app_assoc, (reads_vec _ _ reads_input_tree) by done. reading. by destruct x.
Qed.

Lemma reads_output : reads read_output_utxo borsh output_ok.
Proof. intros x rest (Hv & Hh & Hd). unfold borsh, borsh_output_utxo, read_output_utxo. reading. by destruct x. Qed.

Lemma reads_message : reads read_message borsh message_ok.
Proof. intros x rest (Hv & Hd). unfold borsh, borsh_message, read_message. reading. by destruct x. Qed.

Lemma reads_input : reads read_input borsh input_ok.
Proof. intros x rest (Ht & Hs & Hn). unfold borsh, borsh_input, read_input. reading. by destruct x. Qed.

Lemma reads_spl_transfer : reads read_spl_transfer borsh spl_transfer_ok.
Proof. intros x rest (Ha & Hm). unfold borsh, borsh_spl_transfer, read_spl_transfer. reading. by destruct x. Qed.

Lemma reads_general_event : reads read_general_event borsh general_event_ok.
Proof.
  intros x rest (Hins & Houts & Hms & Hk & Hs & Hi & Ho & Hts).
  unfold borsh, borsh_general, read_general_event.
  rewrite <- !app_assoc, (reads_vec _ _ reads_input) by done. cbn [mbind option_bind].
  rewrite (reads_vec _ _ reads_output) by done. cbn [mbind option_bind].
  rewrite (reads_vec _ _ reads_message) by done. reading.
  rewrite (reads_vec _ _ reads_spl_transfer) by done. by destruct x.
Qed.

Lemma try_from_slice_enc {A} (r : reader A) enc ok x : reads r enc ok -> ok x -> try_from_slice r (enc x) = Some x.
Proof. intros Hr Hx. unfold try_from_slice. rewrite <- (app_nil_r (enc x)), Hr by done. done. Qed.

(** ** Callers

    An execution as a tree of invocations; its instructions are listed when they
    start, each one level above its caller. *)

Inductive call : Type :=
| Call (program : bytes) (accounts : list bytes) (data : bytes) (children : list call).

Definition call_ins (h : Z) (c : call) : ParsedInstruction :=
  match c with Call program accounts data _ => mkParsed program accounts data h end.

(** The instructions of the subtrees with their callers, in order of execution. *)
Fixpoint trace (h : Z) (parent : ParsedInstruction) (c : call) : list (ParsedInstruction * ParsedInstruction) :=
  match c with
  | Call program accounts data children =>
      (mkParsed program accounts data h, parent) ::
      concat (map (trace (h + 1) (mkParsed program accounts data h)) children)
  end.

Definition callees (c : call) : list (ParsedInstruction * ParsedInstruction) :=
  match c with Call _ _ _ children => concat (map (trace 2 (call_ins 1 c)) children) end.

Definition group_of (c : call) : InstructionGroup := mkGroup (call_ins 1 c) (map fst (callees c)).

Lemma call_induction (P : call -> Prop) :
  (forall program accounts data children, Forall P children -> P (Call program accounts data children)) -> forall c, P c.
Proof.
  intros Hstep. fix IH 1. intros [program accounts data children]. apply Hstep.
  induction children as [|c children IHc]; constructor; [apply IH|apply IHc].
Qed.

(** The nearest preceding instruction at a level. *)
Definition nearest (out : ParsedInstruction) (pre : list ParsedInstruction) (k : Z) : option ParsedInstruction :=
  match List.find (fun i => stack_height i =? k) (reverse pre) with
  | Some parent => Some parent
  | None => if stack_height out =? k then Some out else None
  end.

Lemma nearest_skip out pre l k : Forall (fun i => stack_height i <> k) l -> nearest out (pre ++ l) k = nearest out pre k.
Proof.
  intros Hl. unfold nearest. rewrite reverse_app. assert (Forall (fun i => stack_height i <> k) (reverse l)) as Hr
    by (by rewrite Forall_reverse). clear Hl. induction Hr as [|x r Hx _ IH]; [done|]. cbn [app List.find].
  by rewrite (proj2 (Z.eqb_neq _ _) Hx).
Qed.

Lemma nearest_snoc out pre x : nearest out (pre ++ [x]) (stack_height x) = Some x.
Proof. unfold nearest. rewrite reverse_snoc. cbn [List.find]. by rewrite Z.eqb_refl. Qed.

Lemma trace_heights c h parent : Forall (fun e => h <= stack_height e.1) (trace h parent c).
Proof.
  revert h parent. induction c as [program accounts data children IH] using call_induction. intros h parent. cbn [trace].
  constructor; [cbn; lia|]. induction IH as [|c children Hc _ IHc]; [constructor|]. cbn [map concat].
  apply Forall_app. split; [|exact IHc]. eapply Forall_impl; [apply Hc|]. cbn. lia.
Qed.

Lemma forest_heights cs h parent : Forall (fun e => h <= stack_height e.1) (concat (map (trace h parent) cs)).
Proof. induction cs; [constructor|]. cbn [map concat]. apply Forall_app. split; [apply trace_heights|done]. Qed.

(** Every instruction of a forest started after [pre] has its caller nearest. *)
Definition callers_nearest (out : ParsedInstruction) (pre : list ParsedInstruction)
    (l : list (ParsedInstruction * ParsedInstruction)) : Prop :=
  forall i x p, l !! i = Some (x, p) -> nearest out (pre ++ map fst (take i l)) (stack_height x - 1) = Some p.

Lemma callers_app out pre l l' : callers_nearest out pre l -> callers_nearest out (pre ++ map fst l) l' ->
  callers_nearest out pre (l ++ l').
Proof.
  intros H1 H2 i x p Hi. destruct (decide (i < length l)%nat) as [Hlt|Hge].
  - rewrite lookup_app_l in Hi by done. rewrite take_app_le by lia. by apply H1.
  - rewrite lookup_app_r in Hi by lia. rewrite take_app_ge by lia. rewrite map_app, app_assoc. by apply H2.
Qed.

Lemma forest_callers out cs : forall h pre parent,
  Forall (fun c => forall h pre parent, nearest out pre (h - 1) = Some parent -> callers_nearest out pre (trace h parent c)) cs ->
  nearest out pre (h - 1) = Some parent -> callers_nearest out pre (concat (map (trace h parent) cs)).
Proof.
  intros h pre parent Hcs. revert pre. induction Hcs as [|c cs Hc _ IH]; intros pre Hp; [by intros i x p|].
  cbn [map concat]. apply callers_app; [by apply Hc|]. apply IH. rewrite nearest_skip; [done|].
  apply Forall_map. eapply Forall_impl; [apply trace_heights|]. cbn. lia.
Qed.

Lemma trace_callers out c : forall h pre parent,
  nearest out pre (h - 1) = Some parent -> callers_nearest out pre (trace h parent c).
Proof.
  induction c as [program accounts data children IH] using call_induction. intros h pre parent Hp. cbn [trace].
  set (x := mkParsed program accounts data h). change ((x, parent) :: ?l) with ([(x, parent)] ++ l). apply callers_app.
  - intros [|i] y p Hi; [|done]. injection Hi as <- <-. by rewrite app_nil_r.
  - apply forest_callers; [done|]. replace (h + 1 - 1) with (stack_height x) by (cbn; lia). apply nearest_snoc.
Qed.

(** In the instruction list of any execution, the parent the indexer resolves for
    an inner instruction is the instruction that invoked it. *)
Lemma event_parent_is_caller (c : call) (i : nat) (x p : ParsedInstruction) :
  callees c !! i = Some (x, p) -> event_parent (group_of c) i = Some p.
Proof.
  intros Hi. assert (callers_nearest (call_ins 1 c) [] (callees c)) as Hc.
  { destruct c as [program accounts data children]. cbn [callees]. apply forest_callers; [|done].
    apply Forall_forall. intros c _. apply trace_callers. }
  assert (1 <= stack_height x) as Hh.
  { assert (Forall (fun e => 2 <= stack_height e.1) (callees c)) as Hf by (destruct c; apply forest_heights).
    pose proof (proj1 (Forall_lookup _ _) Hf _ _ Hi). cbn in *. lia. }
  unfold event_parent, group_of. cbn [inner outer]. change (map fst ?l) with (fst <$> l).
  rewrite list_lookup_fmap, Hi. cbn [fmap option_fmap option_map mbind option_bind fst].
  rewrite (proj2 (checked_sub_Some _ _ (stack_height x - 1))) by lia. cbn [mbind option_bind].
  rewrite <- fmap_take. exact (Hc i x p Hi).
Qed.

Lemma omap_imap {A B C} (F : C -> option B) (G : A -> option B) (f : nat -> A -> C) l :
  (forall i x, l !! i = Some x -> F (f i x) = G x) -> omap F (imap f l) = omap G l.
Proof.
  revert f. induction l as [|x l IH]; intros f Hfg; [done|]. rewrite imap_cons. cbn [omap list_omap].
  rewrite (Hfg 0%nat x eq_refl). rewrite (IH (f ∘ S)); [done|]. intros i y Hy. by apply (Hfg (S i)).
Qed.

(** C23. Discovery: the events an indexer takes from a transaction are exactly the event
    self-invocations whose caller is a state-transitioning instruction of the pool,
    in order, each rebuilt against that caller; what other callers log is ignored. *)
Theorem discovered_events_are_the_pools `{D : WincodeFormats} (program : bytes) (calls : list call) :
  indexed_events_from_instruction_groups program (map group_of calls) =
  concat (map (fun c => omap (fun '(x, p) =>
    if is_emit_event program x && is_event_source program p then Some (indexed_event p (pi_data x)) else None)
    (callees c)) calls).
Proof.
  unfold indexed_events_from_instruction_groups. rewrite map_map. f_equal. apply map_ext. intros c. unfold group_events.
  change (inner (group_of c)) with (fst <$> callees c). rewrite imap_fmap.
  apply omap_imap. intros i [x p] Hi. cbn. destruct (is_emit_event program x); [|done]. cbn [negb andb].
  unfold event_source_parent. rewrite (event_parent_is_caller c i x p Hi). cbn [mbind option_bind].
  by destruct (is_event_source program p).
Qed.

(** ** Output payloads *)

Definition opt_ok (ok : bytes -> Prop) (o : option bytes) : Prop := match o with Some x => ok x | None => True end.

Definition proofless_ok (o : ProoflessOutput) : Prop :=
  is_bytes 32 (po_owner o) /\ is_bytes 32 (po_blinding o) /\ is_bytes 32 (po_asset o) /\ is_u64 (po_amount o) /\
  opt_ok (is_bytes 32) (po_data_hash o) /\ opt_ok small (po_utxo_data o) /\ opt_ok (is_bytes 32) (po_ring_program_id o) /\
  opt_ok (is_bytes 32) (po_ring_data_hash o) /\ opt_ok small (po_ring_data o) /\ opt_ok small (po_memo o).

Definition encrypted_ring_ok (o : EncryptedRingDepositOutput) : Prop :=
  is_bytes 32 (eo_owner_utxo_hash o) /\ is_bytes 32 (eo_asset o) /\ is_u64 (eo_amount o) /\
  opt_ok (is_bytes 32) (eo_data_hash o) /\ is_bytes 32 (eo_ring_program_id o) /\ is_bytes 32 (eo_ring_data_hash o) /\
  is_bytes 33 (er_tx_viewing_pk (eo_encrypted o)) /\ is_bytes 16 (er_salt (eo_encrypted o)) /\
  small (er_ciphertext (eo_encrypted o)).

Lemma reads_proofless : reads read_proofless borsh proofless_ok.
Proof.
  intros x rest (Ho & Hb & Ha & Hm & Hh & Hu & Hp & Hr & Hz & He). unfold borsh, borsh_proofless, read_proofless.
  reading. by destruct x.
Qed.

Lemma reads_encrypted_ring_output : reads read_encrypted_ring_output borsh encrypted_ring_ok.
Proof.
  intros x rest (Ho & Ha & Hm & Hh & Hp & Hr & Hk & Hs & Hc).
  unfold borsh, borsh_encrypted_ring_output, borsh, borsh_encrypted_ring, read_encrypted_ring_output, read_encrypted_ring.
  reading. destruct x as [? ? ? ? ? ? []]. done.
Qed.

Lemma tagged_body_Ok {E} tag scheme body bs : encode_tagged_body (E := E) tag scheme body = Ok bs ->
  small (byte_of scheme :: body) /\ bs = byte_of tag :: borsh_bytes (byte_of scheme :: body).
Proof.
  unfold encode_tagged_body, small. destruct (Z.ltb_spec (Z.of_nat (length (byte_of scheme :: body))) (2 ^ 32)); [|done].
  intros Hbs. split; [done|]. unfold borsh_bytes. congruence.
Qed.

Lemma read_plaintext b : small b -> try_from_slice read_encoding (x00 :: borsh_bytes b) = Some (Plaintext b).
Proof. intros Hb. unfold try_from_slice. cbn [read_encoding]. by rewrite <- (app_nil_r (borsh_bytes b)), read_vec_u8_app. Qed.

Lemma read_encrypted b : small b -> try_from_slice read_encoding (x01 :: borsh_bytes b) = Some (Encrypted b).
Proof. intros Hb. unfold try_from_slice. cbn [read_encoding]. by rewrite <- (app_nil_r (borsh_bytes b)), read_vec_u8_app. Qed.

(** C31. Output payloads: what the program writes for a deposit's output, plain or
    encrypted, decodes to the same output. *)
Theorem output_payload_roundtrip (o : ProoflessOutput) (e : EncryptedRingDepositOutput) (bs es : bytes) :
  proofless_ok o -> encrypted_ring_ok e ->
  encode_output_data (E := EventDecodeError) o = Ok bs ->
  encode_encrypted_ring_deposit_output (E := EventDecodeError) e = Ok es ->
  decode_output_data bs = Ok o /\ decode_encrypted_ring_deposit_output_data es = Ok e /\
  decode_output_data es = Err InvalidOutputData /\ decode_encrypted_ring_deposit_output_data bs = Err InvalidOutputData.
Proof.
  intros Ho He [Hs ->]%tagged_body_Ok [Hs' ->]%tagged_body_Ok.
  change (byte_of PLAINTEXT_TAG) with x00. change (byte_of ENCRYPTED_TAG) with x01.
  unfold decode_output_data, decode_encrypted_ring_deposit_output_data.
  rewrite read_plaintext, read_encrypted by done. cbn [ok_or rbind scheme_body].
  rewrite (try_from_slice_enc _ _ _ _ reads_proofless), (try_from_slice_enc _ _ _ _ reads_encrypted_ring_output) by done.
  done.
Qed.

Definition example_proofless : ProoflessOutput :=
  mkProofless zero32 zero32 zero32 7 None None None None None (Some [x68; x69]).

Definition example_encrypted_ring : EncryptedRingDepositOutput :=
  mkEncryptedRingOutput zero32 zero32 7 None zero32 zero32 (mkEncryptedRing (replicate 33 x02) (replicate 16 x00) [x01]).

Lemma output_payload_roundtrip_witness : exists bs es,
  decode_output_data bs = Ok example_proofless /\ decode_encrypted_ring_deposit_output_data es = Ok example_encrypted_ring /\
  decode_output_data es = Err InvalidOutputData /\ decode_encrypted_ring_deposit_output_data bs = Err InvalidOutputData.
Proof.
  eexists _, _. apply output_payload_roundtrip.
  - repeat split; done.
  - repeat split; done.
  - reflexivity.
  - reflexivity.
Defined.

(** ** Inputs of a transaction *)

(** The queue positions and nullifiers of the inputs on a tree. *)
Definition inputs_on (T : bytes) (inputs : list Input) : list (Z * bytes) :=
  map (fun i => (in_input_queue_seq i, in_nullifier i)) (filter (fun i => in_tree i = T) inputs).

(** Nullifiers queued one after the other. *)
Definition queued_from (first : Z) (vs : list bytes) : list (Z * bytes) := imap (fun k v => (first + Z.of_nat k, v)) vs.

Lemma queued_from_cons first v vs : queued_from first (v :: vs) = (first, v) :: queued_from (first + 1) vs.
Proof.
  unfold queued_from. rewrite imap_cons. f_equal; [f_equal; lia|]. apply imap_ext. intros i x _. cbn. f_equal. lia.
Qed.

Lemma inputs_on_cons T i inputs : inputs_on T (i :: inputs) =
  (if decide (in_tree i = T) then [(in_input_queue_seq i, in_nullifier i)] else []) ++ inputs_on T inputs.
Proof. unfold inputs_on. rewrite filter_cons. by destruct (decide _). Qed.

(** The nullifiers of the inputs that name the [k]-th tree. *)
Definition nullifiers_of (k : nat) (inputs : list InputUtxo) : list bytes :=
  map nullifier_hash (filter (fun i => TransactProof.tree_index i = Z.of_nat k) inputs).

Lemma assign_inputs_spec (ts : list InputTreeSequence) (inputs : list InputUtxo) :
  NoDup (map seq_tree ts) ->
  Forall (fun i => 0 <= TransactProof.tree_index i < Z.of_nat (length ts)) inputs ->
  forall counts, length counts = length ts ->
  (forall k s c, ts !! k = Some s -> counts !! k = Some c ->
     0 <= c /\ 0 <= first_input_queue_seq s /\ first_input_queue_seq s + c + Z.of_nat (length inputs) < 2 ^ 64) ->
  exists ins, assign_inputs ts counts inputs = Ok ins /\ map in_nullifier ins = map nullifier_hash inputs /\
    Forall (fun i => in_tree i ∈ map seq_tree ts) ins /\
    forall k s c, ts !! k = Some s -> counts !! k = Some c ->
      inputs_on (seq_tree s) ins = queued_from (first_input_queue_seq s + c) (nullifiers_of k inputs).
Proof.
  intros Hnd Hrange. induction Hrange as [|x inputs Hx _ IH]; intros counts Hlen Hb; cbn [assign_inputs].
  { exists []. split_and!; try done. }
  set (p := Z.to_nat (TransactProof.tree_index x)).
  destruct (lookup_lt_is_Some_2 ts p) as [s Hs]; [lia|]. destruct (lookup_lt_is_Some_2 counts p) as [c Hc]; [lia|].
  destruct (Hb p s c Hs Hc) as (Hc0 & Hf0 & Hsum). cbn [length] in Hsum. rewrite Hs, Hc. cbn [mbind option_bind ok_or rbind].
  unfold checked_add. rewrite !(proj2 (Z.ltb_lt _ _)) by lia. cbn [ok_or rbind].
  destruct (IH (<[p := c + 1]> counts)) as (ins & -> & Hnul & Htrees & Hins).
  { by rewrite length_insert. }
  { intros k s' c' Hs' [(<- & <- & _)|[Hne Hc']]%list_lookup_insert_Some.
    - assert (s' = s) as -> by congruence. lia.
    - destruct (Hb k s' c' Hs' Hc') as (? & ? & Hsum'). cbn [length] in Hsum'. lia. }
  cbn [rbind]. eexists. split; [reflexivity|]. split; [cbn; by rewrite Hnul|]. split.
  { constructor; [|done]. cbn. apply list_elem_of_fmap. exists s. split; [done|]. by eapply list_elem_of_lookup_2. }
  intros k s' c' Hs' Hc'. rewrite inputs_on_cons. cbn [in_tree in_input_queue_seq in_nullifier]. unfold nullifiers_of.
  rewrite filter_cons. destruct (decide (k = p)) as [->|Hne].
  - assert (s' = s) as -> by congruence. assert (c' = c) as -> by congruence.
    rewrite !decide_True by (done || (unfold p; lia)). cbn [map app]. rewrite queued_from_cons. f_equal.
    rewrite (Hins p s (c + 1)); [|done|]; [f_equal; lia|]. apply list_lookup_insert_eq. apply lookup_lt_Some in Hc. lia.
  - assert (forall j t, ts !! j = Some t -> map seq_tree ts !! j = Some (seq_tree t)) as Hmap.
    { intros j t Hj. change (map ?f ?l) with (f <$> l). by rewrite list_lookup_fmap, Hj. }
    rewrite decide_False by (intros E; apply Hne; eapply (NoDup_lookup _ _ _ _ Hnd (Hmap k s' Hs')); rewrite <- E; by apply Hmap).
    rewrite decide_False by (unfold p in Hne; lia). cbn [app]. apply Hins; [done|]. by rewrite list_lookup_insert_ne.
Qed.

Lemma inputs_from_nullifiers_spec (s : InputTreeSequence) (ns : list bytes) :
  0 <= first_input_queue_seq s -> first_input_queue_seq s + Z.of_nat (length ns) < 2 ^ 64 ->
  exists ins, inputs_from_nullifiers s ns = Ok ins /\
    forall T, inputs_on T ins = if decide (seq_tree s = T) then queued_from (first_input_queue_seq s) ns else [].
Proof.
  intros H0 Hb. unfold inputs_from_nullifiers. match goal with |- context [collect ?g _] => set (f := g) end.
  assert (forall k, first_input_queue_seq s + Z.of_nat k + Z.of_nat (length ns) < 2 ^ 64 ->
    exists ins, collect f (imap (fun i n => ((k + i)%nat, n)) ns) = Ok ins /\
    forall T, inputs_on T ins = if decide (seq_tree s = T) then queued_from (first_input_queue_seq s + Z.of_nat k) ns else []) as Hk.
  { clear Hb. induction ns as [|n ns IH]; intros k Hb; [exists []; split; [done|]; intros T; by destruct (decide _)|].
    cbn [length] in Hb. rewrite imap_cons. cbn [collect]. unfold f at 1. unfold checked_add at 1.
    rewrite Nat.add_0_r, (proj2 (Z.ltb_lt _ _)) by lia. cbn [ok_or rbind].
    destruct (IH (S k)) as (ins & Hins & Hon); [lia|]. rewrite (imap_ext _ (fun i n => ((S k + i)%nat, n))), Hins by (intros; cbn; f_equal; lia).
    cbn [rbind]. eexists. split; [reflexivity|]. intros T. rewrite inputs_on_cons, Hon, queued_from_cons. cbn [in_tree in_input_queue_seq in_nullifier].
    destruct (decide _); [|done]. cbn [app]. do 2 f_equal. lia. }
  destruct (Hk 0%nat) as (ins & Hins & Hon); [lia|]. exists ins. split; [exact Hins|]. intros T. rewrite Hon. by rewrite Z.add_0_r.
Qed.

(** ** Rebuilding an event from what the program logs *)

Section logged.
Context `{D : WincodeFormats}.

Lemma reconstruct_merge source e : merge_event_ok e ->
  reconstruct_general_event source (encode_event_instruction KindMerge e) = merge_general_event source e.
Proof.
  intros He. change (rbind (ok_or (try_from_slice read_merge_event (borsh e)) InvalidPayload) (merge_general_event source) =
    merge_general_event source e). by rewrite (try_from_slice_enc _ _ _ _ reads_merge_event).
Qed.

Lemma reconstruct_deposit source e : general_event_ok e ->
  reconstruct_general_event source (encode_event_instruction KindDeposit e) = Ok e.
Proof.
  intros He. change (ok_or (try_from_slice read_general_event (borsh e)) InvalidPayload = Ok e).
  by rewrite (try_from_slice_enc _ _ _ _ reads_general_event).
Qed.

Lemma reconstruct_transact source e : transact_event_ok e ->
  reconstruct_general_event source (encode_event_instruction KindTransact e) = transact_general_event source e.
Proof.
  intros He. change (rbind (ok_or (try_from_slice read_transact_event (borsh e)) InvalidPayload) (transact_general_event source) =
    transact_general_event source e). by rewrite (try_from_slice_enc _ _ _ _ reads_transact_event).
Qed.

(** The instruction data of a merge. *)
Definition merge_source (source : ParsedInstruction) (ix : MergeTransactIxData) : Prop :=
  exists payload, (pi_data source = byte_of (tag_byte MergeTransact) :: payload /\ decode_merge payload = Some ix) \/
  (exists ring, pi_data source = byte_of (tag_byte RingMergeTransact) :: payload /\ decode_merge_ring payload = Some ring /\
     mr_merge ring = ix).

Lemma merge_general_event_spec source ix s output index view_tag : merge_source source ix ->
  0 <= first_input_queue_seq s -> first_input_queue_seq s + Z.of_nat (length (mt_nullifiers ix)) < 2 ^ 64 ->
  exists e, merge_general_event source (mkMergeEvent [s] output index view_tag) = Ok e /\
    (forall T, inputs_on T (ge_inputs e) =
       if decide (seq_tree s = T) then queued_from (first_input_queue_seq s) (mt_nullifiers ix) else []) /\
    map ou_utxo_hash (ge_outputs e) = [mt_output_utxo_hash ix] /\ ge_output_tree e = output /\
    ge_first_output_leaf_index e = index.
Proof.
  intros Hs H0 Hb. destruct (inputs_from_nullifiers_spec s (mt_nullifiers ix) H0 Hb) as (ins & Hins & Hon).
  unfold merge_general_event, source_tag_and_data.
  destruct Hs as (payload & [[-> Hd]|(ring & -> & Hd & Hm)]); cbn [rbind].
  - change (byte_val (byte_of (tag_byte MergeTransact)) =? tag_byte MergeTransact) with true. cbv iota. rewrite Hd.
    cbn [ok_or rbind me_input_trees single_input_tree]. rewrite Hins. cbn [rbind]. eexists. split; [reflexivity|]. by cbn.
  - change (byte_val (byte_of (tag_byte RingMergeTransact)) =? tag_byte MergeTransact) with false.
    change (byte_val (byte_of (tag_byte RingMergeTransact)) =? tag_byte RingMergeTransact) with true. cbv iota. rewrite Hd.
    cbn [ok_or rbind me_input_trees single_input_tree]. rewrite Hm, Hins. cbn [rbind]. eexists. split; [reflexivity|]. by cbn.
Qed.

Lemma settlement_transfers_spec transfers window k :
  (k + sum_list (map settlement_account_count transfers) <= length window)%nat ->
  exists ts, settlement_transfers transfers window k = Ok ts /\
    map (fun t => (st_is_deposit t, st_amount t)) ts = map (fun t => (transfer_is_deposit t, transfer_amount t)) transfers.
Proof.
  revert k. induction transfers as [|t transfers IH]; intros k Hk; cbn [settlement_transfers]; [by exists []|].
  change (sum_list (map settlement_account_count (t :: transfers))) with
    (settlement_account_count t + sum_list (map settlement_account_count transfers))%nat in Hk. destruct (IH (k + settlement_account_count t)%nat) as (ts & -> & Hts); [lia|].
  assert (forall p, mint_account_position t = Some p -> (k + p < length window)%nat) as Hp.
  { intros p. destruct t; cbn [settlement_account_count mint_account_position] in Hk |- *; intros Hp; simplify_eq; lia. }
  destruct (mint_account_position t) as [p|]; cbn [rbind].
  - destruct (lookup_lt_is_Some_2 window (k + p)) as [mint ->]; [by apply Hp|]. cbn [ok_or rbind].
    eexists. split; [reflexivity|]. cbn. by rewrite Hts.
  - eexists. split; [reflexivity|]. cbn. by rewrite Hts.
Qed.

(** The instruction data of a transaction. *)
Definition transact_source (source : ParsedInstruction) (ix : TransactIxData) : Prop :=
  exists tag payload prefix, tag ∈ [Event.Transact; RingTransact; RingAuthorityTransact] /\
    pi_data source = byte_of (tag_byte tag) :: payload /\ decode_transact payload = Some (ix, prefix).

Lemma transact_general_event_spec source ix window outs ts output index : transact_source source ix ->
  settlement_accounts (ti_interface_transfers ix) (ti_circuit ix) (pi_accounts source) = Some window ->
  collect (resolve_output (pi_accounts source)) (ti_outputs ix) = Ok outs -> ts <> [] -> NoDup (map seq_tree ts) ->
  Forall (fun i => 0 <= TransactProof.tree_index i < Z.of_nat (length ts)) (ti_inputs ix) ->
  Forall (fun s => 0 <= first_input_queue_seq s /\ first_input_queue_seq s + Z.of_nat (length (ti_inputs ix)) < 2 ^ 64) ts ->
  exists e, transact_general_event source (mkTransactEvent ts output index) = Ok e /\
    Forall (fun i => in_tree i ∈ map seq_tree ts) (ge_inputs e) /\
    (forall k s, ts !! k = Some s ->
       inputs_on (seq_tree s) (ge_inputs e) = queued_from (first_input_queue_seq s) (nullifiers_of k (ti_inputs ix))) /\
    ge_outputs e = outs /\ ge_output_tree e = output /\ ge_first_output_leaf_index e = index /\
    map (fun t => (st_is_deposit t, st_amount t)) (ge_spl_transfers e) =
      map (fun t => (transfer_is_deposit t, transfer_amount t)) (ti_interface_transfers ix).
Proof.
  intros (tag & payload & prefix & Htag & Hdata & Hd) Hw Houts Hts Hnd Hrange Hb.
  unfold transact_general_event, source_tag_and_data. rewrite Hdata. cbn [rbind].
  assert (existsb (fun t => byte_val (byte_of (tag_byte tag)) =? tag_byte t) [Event.Transact; RingTransact; RingAuthorityTransact] = true)
    as -> by (rewrite !elem_of_cons in Htag; destruct Htag as [->|[->|[->|[]%elem_of_nil]]]; reflexivity).
  cbv iota. rewrite Hd. cbn [ok_or rbind]. rewrite Hw. cbn [ok_or rbind].
  destruct (settlement_transfers_spec (ti_interface_transfers ix) window 0) as (sts & -> & Hsts).
  { unfold settlement_accounts in Hw. repeat case_match; simplify_eq. rewrite length_take, length_drop.
    repeat match goal with H : (_ <? _)%nat = false |- _ => apply Nat.ltb_ge in H end. lia. }
  cbn [rbind]. unfold inputs_from_tree_indexes. cbn [te_input_trees]. rewrite bool_decide_false by done. cbn [negb].
  destruct (assign_inputs_spec ts (ti_inputs ix) Hnd Hrange (replicate (length ts) 0)) as (ins & -> & _ & Htrees & Hon).
  { apply length_replicate. }
  { intros k s c Hs [-> _]%lookup_replicate. pose proof (proj1 (Forall_lookup _ _) Hb k s Hs). cbn in *. lia. }
  cbn [rbind]. rewrite Houts. cbn [rbind]. eexists. split; [reflexivity|].
  cbn [ge_inputs ge_outputs ge_output_tree ge_first_output_leaf_index ge_spl_transfers]. split_and!; try done.
  intros k s Hs. rewrite (Hon k s 0 Hs), Z.add_0_r; [done|]. apply lookup_replicate. split; [done|]. by eapply lookup_lt_Some.
Qed.

End logged.
