(* ===== verification/TreeTrace.v ===== *)
(** * Runs on one tree account

    What a handler does to a loaded tree account, as a labelled transition: the
    label is the list of nullifiers it queues.  [tree_holds vs l] is the
    invariant of an account whose queue has taken [vs]; [extends ws l l'] says
    that a run queues [ws] and keeps the invariant, the tree id and the order of
    the cleanup watermarks.  [traced ws m] is the rule for handler bodies.

    An update hashes the old root, the new root, the chain of the ZKP batch and
    its first leaf index; [HashLog] is what is known of these preimages. *)

From S2P Require Import Prelude ZeroBytes Hasher HashChain Codec Smt Batch NullifierTree NullifierQueue NullifierSafety TreeAccount TreeTypes TreeSafety Errors TreeSlot Ledger State Event Shared NullifierPdas Forester UserRegistry Cache Circuit Merge Configs Settlement TransactProof Transact Deposit.

Local Notation K := NULLIFIER_TREE_ZKP_BATCHES.

(** Split the pairs in the context. *)
Ltac destruct_prods := repeat match goal with p : (_ * _)%type |- _ => destruct p end.

(** What is known of the preimages hashed for updates.  [log_all] asks nothing. *)
Class HashLog : Type := hash_logged : list bytes -> Prop.

#[export] Instance log_all : HashLog | 100 := fun _ => True.

(** The index field of a public input. *)
Definition index_field (start : Z) : bytes := replicate 24 x00 ++ be_bytes 8 start.

(** The preimage an update on [t] hashes is logged. *)
Definition update_logged {LG : HashLog} (t : NullifierTreeLayout) (data : InstructionDataBatchNullifyInputs) : Prop :=
  forall b chain, get_pending_batch t = Ok b -> hash_chain b (Z.to_nat (in_zkp_batch_index data)) = Some chain ->
  hash_logged [in_old_root data; in_new_root data; chain;
    index_field (start_index b + in_zkp_batch_index data * tree_zkp_batch_size t)].

Section trace.
Context `{SP : SolPoseidon} `{G : Groth16} `{W : Wincode} {LG : HashLog}.
Context {HT : PoseidonTotal SP} {HS : PoseidonSized SP} {HF : PoseidonField SP} {HZ : ZeroBytesLaw Poseidon.Poseidon}.

(** The preimage of the step from [old] to [new] by ZKP batch [m] is logged. *)
Definition step_logged (ZB : nat) (values : list bytes) (m : nat) (old new : bytes) : Prop :=
  ((m + 1) * ZB <= length values)%nat /\
  exists chain, create_hash_chain_4 (zkp_slice ZB m values) = Ok chain /\
    hash_logged [old; new; chain; index_field (1 + Z.of_nat (m * ZB))].

Definition roots_logged (ZB : nat) (values rs : list bytes) : Prop :=
  forall j old new, rs !! j = Some old -> rs !! S j = Some new -> step_logged ZB values j old new.

Record steps_logged (ZB : nat) (q : QSpec) : Prop := {
  sl_roots : roots_logged ZB (q_values q) (q_roots q);
  sl_cache : forall m old new, q_cache q !! m = Some (old, new) -> step_logged ZB (q_values q) m old new;
}.

Record tree_spec (ZB : nat) (q : QSpec) (vs : list bytes) (l : TreeAccountLayout) : Prop := {
  ts_size : (0 < ZB <= 4999)%nat;
  ts_account : account_inv ZB l;
  ts_queue : inv K ZB (2 ^ 40) (nullifier l) q;
  ts_values : q_values q = vs;
  ts_logged : steps_logged ZB q;
}.

Definition tree_holds (vs : list bytes) (l : TreeAccountLayout) : Prop :=
  valid layout_codec l /\ exists ZB q, tree_spec ZB q vs l.

Record extends (ws : list bytes) (l l' : TreeAccountLayout) : Prop := {
  ex_holds : forall vs, tree_holds vs l -> tree_holds (vs ++ ws) l';
  ex_id : tree_id l' = tree_id l;
  ex_disc : discriminator l' = discriminator l;
  ex_close : forall vs, tree_holds vs l -> close_before_index (nullifier l) <= close_before_index (nullifier l');
}.

Definition traced {E A} (ws : list bytes) (m : M TreeAccountLayout E A) : Prop :=
  forall l a l', m l = (Ok a, l') -> extends ws l l'.

Lemma extends_refl l : extends [] l l.
Proof. split; [intros vs; by rewrite app_nil_r|done|done|lia]. Qed.

Lemma extends_trans ws1 ws2 l1 l2 l3 : extends ws1 l1 l2 -> extends ws2 l2 l3 -> extends (ws1 ++ ws2) l1 l3.
Proof.
  intros H1 H2. split.
  - intros vs Hvs. rewrite app_assoc. by apply H2, H1.
  - by rewrite (ex_id _ _ _ H2), (ex_id _ _ _ H1).
  - by rewrite (ex_disc _ _ _ H2), (ex_disc _ _ _ H1).
  - intros vs Hvs. etrans; [by apply H1 with vs|]. by apply H2 with (vs ++ ws1), H1.
Qed.

Lemma holds_queue_next vs l : tree_holds vs l -> queue_next_index (nullifier l) = 1 + Z.of_nat (length vs).
Proof. intros (_ & ZB & q & []). by rewrite (inv_queue_next _ _ _ _ _ ts_queue0), ts_values0. Qed.

(** ** The log *)

Lemma step_logged_app ZB values ws m old new : step_logged ZB values m old new -> step_logged ZB (values ++ ws) m old new.
Proof.
  intros (Hm & chain & Hc & Hl). split; [rewrite length_app; lia|]. exists chain. split; [|done].
  unfold zkp_slice in *. rewrite drop_app_le, take_app_le by (rewrite ?length_drop; nia). done.
Qed.

(** Applying cached updates logs nothing new. *)
Lemma applies_logged ZB q q' : applies q q' -> (0 < length (q_roots q))%nat -> steps_logged ZB q -> steps_logged ZB q'.
Proof.
  induction 1 as [q|q old new Hn Hne|q old new q' Hn Hlast _ IH]; intros Hpos [Hr Hc]; [by split| |].
  - split; [done|]. cbn. intros m o w [_ Hm]%lookup_delete_Some. by apply Hc.
  - apply IH; cbn [q_roots]; [rewrite length_app; simpl; lia|]. split; cbn [q_roots q_values q_cache].
    + intros j o w Ho Hw. apply lookup_snoc_Some in Hw as [[Hj Hw]|[Hj <-]].
      * apply lookup_snoc_Some in Ho as [[_ Ho]|[Ho _]]; [by eapply Hr|lia].
      * apply lookup_snoc_Some in Ho as [[_ Ho]|[Ho _]]; [|lia]. rewrite last_lookup in Hlast.
        replace (pred (length (q_roots q))) with j in Hlast by lia. rewrite Ho in Hlast. injection Hlast as ->.
        apply Hc. by replace j with (q_applied q) by (unfold q_applied; lia).
    + intros m o w [_ Hm]%lookup_delete_Some. by apply Hc.
Qed.

(** The preimage of an update that is cached as batch [m]. *)
Lemma update_target_logged ZB t q data m : (0 < ZB <= 4999)%nat -> inv K ZB (2 ^ 40) t q -> 0 <= in_zkp_batch_index data ->
  spec_update K ZB data q = Ok (Some m) -> update_logged t data ->
  step_logged ZB (q_values q) m (in_old_root data) (in_new_root data).
Proof.
  intros HZB Hinv Hi Hs Hlog. pose proof (zkp_batches_bounds ZB HZB) as (HK & HZ' & HB & HK32).
  destruct (pending_batch K ZB (2 ^ 40) HK HZ' HB t q Hinv) as (b & g & Hb & Hpb & Hheld & Hholds & Hg).
  pose proof (pending_target K ZB (2 ^ 40) HK HZ' HB t q b g (Z.to_nat (in_zkp_batch_index data)) Hinv Hheld Hholds Hg) as Ht.
  unfold spec_update in Hs. destruct (_ && _); [|done]. destruct (spec_target _ _ _ _) as [[m'|]|e|]; [|done..]. cbn [rbind] in Hs.
  destruct (spec_verify _ _ _ _) as [[]|e|]; [|done..]. injection Hs as ->.
  destruct Ht as (-> & Hm & HiK & _ & _ & _ & HmT & chain & Hch & _ & Hcr). split; [done|]. exists chain. split; [done|].
  specialize (Hlog b chain Hpb Hch). destruct Hholds as (Hst & _). rewrite Hst, (inv_zkp_batch_size _ _ _ _ _ Hinv) in Hlog.
  replace (1 + Z.of_nat (m * ZB)) with (1 + Z.of_nat (q_applied q / K * (K * ZB)) + in_zkp_batch_index data * Z.of_nat ZB); [done|].
  rewrite Hm. nia.
Qed.

(** ** Steps *)

(** A committed call that leaves the nullifier tree alone queues nothing. *)
Lemma step_quiet l l' : account_step l l' -> nullifier l' = nullifier l -> tree_id l' = tree_id l ->
  discriminator l' = discriminator l -> extends [] l l'.
Proof.
  intros Hs Hn Hi Hd. split; [|done|done|by rewrite Hn]. intros vs (Hv & ZB & q & []). rewrite app_nil_r.
  split; [by eapply account_step_typed|]. exists ZB, q. split; [done|by eapply account_step_inv|by rewrite Hn|done|done].
Qed.

Lemma step_queues l v i l' : is_bytes 32 v ->
  nullifier_tree (insert_nullifier_into_queue v) l = (Ok i, l') -> extends [v] l l'.
Proof.
  intros Hv Hr. pose proof (step_queue l v i l' Hv Hr) as Hs.
  assert (forall vs, tree_holds vs l -> tree_holds (vs ++ [v]) l' /\
    close_before_index (nullifier l) <= close_before_index (nullifier l')) as Hall.
  { intros vs (Hval & ZB & q & []). pose proof (zkp_batches_bounds ZB ts_size0) as (HK & HZ' & HB & HK32).
    pose proof (insert_refines_lemma _ ZB (2 ^ 40) HK HZ' HB ltac:(lia) (nullifier l) q v ts_queue0 Hv) as Href.
    assert (account_inv ZB l') as Hinv by (by eapply account_step_inv).
    unfold nullifier_tree, zoom in Hr. destruct (insert_nullifier_into_queue _ _) as [r u] eqn:Hu.
    injection Hr as -> Hl'. destruct (spec_insert _ _ _ _ _) as [[j q']|e|] eqn:Hq; [|done..].
    destruct Href as (u' & [= <- <-] & Hrep).
    assert (q_values q' = q_values q ++ [v] /\ q_applied q' = q_applied q) as [Hvals Happ].
    { unfold spec_insert in Hq. repeat case_match; by simplify_eq/=. }
    subst l'. split.
    - split; [by eapply account_step_typed|]. exists ZB, q'. split; [done..|by rewrite Hvals, ts_values0|].
      assert (q_roots q' = q_roots q /\ q_cache q' = q_cache q) as [Hroots Hcache]
        by (unfold spec_insert in Hq; repeat case_match; by simplify_eq/=).
      destruct ts_logged0 as [Hlr Hlc]. split; rewrite Hvals, ?Hroots, ?Hcache; unfold roots_logged; intros; apply step_logged_app; eauto.
    - cbn. rewrite (inv_close _ _ _ _ _ Hrep), (inv_close _ _ _ _ _ ts_queue0), Happ. done. }
  split; [apply Hall| | |apply Hall]; unfold nullifier_tree, zoom in Hr; destruct (insert_nullifier_into_queue _ _);
    by injection Hr as _ <-.
Qed.

Lemma watermark_mono ZB n m : (n <= m)%nat -> watermark K ZB n <= watermark K ZB m.
Proof.
  intros Hle. unfold watermark. assert (n / K <= m / K)%nat as Hd by (apply Nat.Div0.div_le_mono; lia).
  set (a := (n / K)%nat) in *. set (b := (m / K)%nat) in *.
  assert ((a - 1) * (K * ZB) <= (b - 1) * (K * ZB))%nat as Hm by (apply Nat.mul_le_mono_r; lia).
  clearbody a b. revert Hm. generalize ((a - 1) * (K * ZB))%nat ((b - 1) * (K * ZB))%nat. intros x y Hm.
  repeat case_decide; lia.
Qed.

Lemma applies_applied q q' : applies q q' -> (q_applied q <= q_applied q')%nat.
Proof.
  intros Ha%applies_prefix. apply prefix_length in Ha. unfold q_applied. lia.
Qed.

Lemma step_updates l key data ev l' :
  update_logged (nullifier l) data -> 0 <= in_zkp_batch_index data -> is_bytes 32 (in_old_root data) -> is_bytes 32 (in_new_root data) ->
  nullifier_tree (update_tree_from_queue key data) l = (Ok ev, l') -> extends [] l l'.
Proof.
  intros Hlog Hi Ho Hw Hr. pose proof (step_update l key data ev l' Hi Ho Hw Hr) as Hs.
  assert (forall vs, tree_holds vs l -> tree_holds vs l' /\
    close_before_index (nullifier l) <= close_before_index (nullifier l')) as Hall.
  { intros vs (Hval & ZB & q & []). pose proof (zkp_batches_bounds ZB ts_size0) as (HK & HZ' & HB & HK32).
    pose proof (update_refines_lemma _ ZB (2 ^ 40) HK HZ' HB ltac:(lia) HK32 (nullifier l) q key data ts_queue0 Hi Ho Hw) as Href.
    assert (account_inv ZB l') as Hinv by (by eapply account_step_inv).
    assert (valid layout_codec l') as Hval' by (by eapply account_step_typed).
    unfold nullifier_tree, zoom in Hr. destruct (update_tree_from_queue _ _ _) as [r u] eqn:Hu.
    injection Hr as -> Hl'. destruct (spec_update _ _ _ _) as [[m|]|e|] eqn:Hup; [| |done..].
    - destruct Href as (u' & q' & [= _ <-] & Hrep & Happ). subst l'. split.
      + split; [done|]. exists ZB, q'. split; [done..|by rewrite (applies_values _ _ Happ)|].
        pose proof (update_target_logged ZB _ _ data m ts_size0 ts_queue0 Hi Hup Hlog) as Hm.
        apply (applies_logged ZB _ _ Happ); [by destruct (inv_roots _ _ _ _ _ ts_queue0) as (_ & ? & _)|].
        destruct ts_logged0 as [Hlr Hlc]. split; [done|]. cbn. intros m' o w [[<- [= <- <-]]|[_ Hm']]%lookup_insert_Some; [done|].
        by apply Hlc.
      + cbn. rewrite (inv_close _ _ _ _ _ Hrep), (inv_close _ _ _ _ _ ts_queue0).
        apply watermark_mono. by apply applies_applied in Happ.
    - injection Href as -> ->. subst l'. split; [|done]. split; [done|]. by exists ZB, q. }
  split; [intros vs; rewrite app_nil_r; apply Hall| | |apply Hall]; unfold nullifier_tree, zoom in Hr;
    destruct (update_tree_from_queue _ _ _); by injection Hr as _ <-.
Qed.

(** ** Rules *)

Lemma traced_bind {E A B} ws1 ws2 (m : M TreeAccountLayout E A) (k : A -> M TreeAccountLayout E B) :
  traced ws1 m -> (forall a, traced ws2 (k a)) -> traced (ws1 ++ ws2) (mbindM m k).
Proof.
  intros Hm Hk l b l' (a & l1 & H1 & H2)%mbindM_ok. eapply extends_trans; [by eapply Hm|by eapply Hk].
Qed.

Lemma traced_then {E A B} ws (m : M TreeAccountLayout E A) (k : A -> M TreeAccountLayout E B) :
  traced [] m -> (forall a, traced ws (k a)) -> traced ws (mbindM m k).
Proof. exact (traced_bind [] ws m k). Qed.

Lemma traced_first {E A B} ws (m : M TreeAccountLayout E A) (k : A -> M TreeAccountLayout E B) :
  traced ws m -> (forall a, traced [] (k a)) -> traced ws (mbindM m k).
Proof. rewrite <- (app_nil_r ws) at 2. apply traced_bind. Qed.

Lemma traced_ret {E A} (a : A) : traced [] (mret (E := E) a).
Proof. intros l b l' [-> ->]%mret_ok. apply extends_refl. Qed.

Lemma traced_get {E} : traced [] (mget (E := E)).
Proof. intros l b l' [-> ->]%mget_ok. apply extends_refl. Qed.

Lemma traced_lift {E A} (r : res E A) : traced [] (mlift r).
Proof. intros l b l' [_ ->]%mlift_ok. apply extends_refl. Qed.

Lemma traced_map_err {E F A} ws (f : F -> E) (m : M TreeAccountLayout F A) : traced ws m -> traced ws (mmap_err f m).
Proof. intros Hm l a l' Hr%mmap_err_ok. by eapply Hm. Qed.

(** Follow code that queues nothing down to its calls. *)
Ltac tracing :=
  lazymatch goal with
  | |- traced _ (mret _) => apply traced_ret
  | |- traced _ mget => apply traced_get
  | |- traced _ (mlift _) => apply traced_lift
  | |- traced _ (mmap_err _ _) => apply traced_map_err; tracing
  | |- traced _ (mbindM _ _) => apply traced_then; [tracing|intros; cbv beta; tracing]
  | |- traced _ (if ?b then _ else _) => destruct b eqn:?; tracing
  | |- traced _ (match ?x with _ => _ end) => destruct x eqn:?; tracing
  | |- _ => idtac
  end.

(** ** The account's operations *)

Lemma append_batch_traced leaves slot : Forall canonical leaves -> valid u64 slot ->
  traced [] (utxo_tree (append_batch UTXO_TREE_HEIGHT leaves slot)).
Proof.
  intros Hl Hs l [] l' Hr. apply step_quiet; [by eapply step_append|..].
  all: unfold utxo_tree, zoom in Hr; destruct (append_batch _ _ _ _); by injection Hr as _ <-.
Qed.

Lemma set_paused_traced b : traced [] (set_paused b).
Proof. intros l [] l' Hr. apply step_quiet; [by eapply step_pause|..]; by injection Hr as <-. Qed.

Lemma set_fee_schedule_traced f : valid fees_codec f -> traced [] (set_fee_schedule f).
Proof.
  intros Hf l [] l' Hr. apply step_quiet; [by eapply step_set_fees|..];
    unfold set_fee_schedule in Hr; by ix_inv.
Qed.

Lemma credit_tree_fee_traced : traced [] credit_tree_fee.
Proof. intros l a l' Hr. apply step_quiet; [by eapply step_credit|..]; unfold credit_tree_fee in Hr; by ix_inv. Qed.

Lemma release_fee_surplus_traced : traced [] release_fee_surplus.
Proof. intros l a l' Hr. apply step_quiet; [by eapply step_release|..]; unfold release_fee_surplus in Hr; by ix_inv. Qed.

Lemma record_created_traced n : is_u64 n -> traced [] (record_nullifier_pdas_created n).
Proof. intros Hn l [] l' Hr. apply step_quiet; [by eapply step_created|..]; by injection Hr as <-. Qed.

Lemma record_closed_traced n : is_u64 n -> traced [] (record_nullifier_pdas_closed n).
Proof. intros Hn l [] l' Hr. apply step_quiet; [by eapply step_closed|..]; by injection Hr as <-. Qed.

Lemma take_append_traced n : is_u32 n -> traced [] (take_append_reimbursement n).
Proof.
  intros Hn l a l' Hr. apply step_quiet; [by eapply step_take_append|..];
    unfold take_append_reimbursement, take_reimbursement in Hr; by ix_inv.
Qed.

Lemma take_close_traced n : is_u64 n -> traced [] (take_close_reimbursement n).
Proof.
  intros Hn l a l' Hr. apply step_quiet; [by eapply step_take_close|..];
    unfold take_close_reimbursement, take_reimbursement in Hr; by ix_inv.
Qed.

Lemma queue_nullifiers_traced vs : Forall (is_bytes 32) vs -> traced vs (queue_nullifiers vs).
Proof.
  induction 1 as [|v vs Hv _ IH]; [apply traced_ret|]. apply (traced_bind [v]); [|done].
  apply traced_map_err. intros l i l' Hr. by eapply step_queues.
Qed.

(** ** Handler bodies on a tree *)

(** The count of an update event is a [u32]. *)
Definition event_ok (ev : option NullifierTreeUpdateEvent) : Prop := forall e, ev = Some e -> is_u32 (num_update e).

Lemma record_update_event ev key size applied i root e :
  event_ok ev -> record_update ev key size applied i root = Ok e -> event_ok (Some e).
Proof.
  intros Hev Hr e' [= <-]. destruct applied as [[a b] c]. unfold record_update in Hr.
  set (ev0 := default _ ev) in *.
  assert (is_u32 (num_update ev0)) as [? ?] by (unfold ev0; destruct ev as [e1|]; [by apply Hev|by vm_compute]).
  ix_inv. unfold in_width. cbn [num_update]. lia.
Qed.

Lemma apply_loop_event fuel key ev t ev' t' :
  event_ok ev -> apply_loop fuel key ev t = (Ok ev', t') -> event_ok ev'.
Proof.
  revert ev t. induction fuel as [|fuel IH]; intros ev t Hev Hr; cbn [apply_loop] in Hr; ix_inv.
  case_match; ix_inv; [|done]. destruct (negb _); ix_inv; [done|]. eapply IH; [|exact Hr].
  by eapply record_update_event.
Qed.

Lemma update_event_ok key data t ev t' : update_tree_from_queue key data t = (Ok ev, t') -> event_ok ev.
Proof.
  unfold update_tree_from_queue, apply_cached_tree_updates. intros Hr. ix_inv. destruct (negb _); ix_inv; [done|].
  by eapply apply_loop_event in Hr.
Qed.

Lemma update_and_take_run key data l a l' :
  update_logged (nullifier l) data ->
  0 <= in_zkp_batch_index data -> is_bytes 32 (in_old_root data) -> is_bytes 32 (in_new_root data) ->
  update_and_take key data l = (Ok a, l') -> extends [] l l'.
Proof.
  intros Hlog Hi Ho Hn Hr. unfold update_and_take in Hr. ix_inv.
  assert (nullifier_tree (update_tree_from_queue key data) l = (Ok x, x0)) as Hu.
  { unfold nullifier_tree, zoom, mmap_err in *. destruct (update_tree_from_queue key data (nullifier l)) as [r t].
    destruct r; by simplify_eq/=. }
  apply (extends_trans [] [] l x0 l'); [by eapply step_updates|]. destruct x as [e|]; ix_inv; [|apply extends_refl].
  eapply take_append_traced; [|done]. unfold nullifier_tree, zoom in Hu.
  destruct (update_tree_from_queue key data (nullifier l)) as [r t] eqn:Hq. injection Hu as -> _.
  by eapply update_event_ok.
Qed.

(** Closing records the id and watermark it found, and changes neither. *)
Lemma record_closed_run closed l c paid l' : is_u64 closed -> record_closed closed l = (Ok (c, paid), l') ->
  extends [] l l' /\ c = mkPdaClose (tree_id l) (close_before_index (nullifier l)) /\ nullifier l' = nullifier l.
Proof.
  intros Hc Hr. split.
  - assert (traced [] (record_closed closed)) as Ht; [|by eapply Ht].
    unfold record_closed. tracing; [by apply record_closed_traced|by apply take_close_traced].
  - unfold record_closed, record_nullifier_pdas_closed, take_close_reimbursement, take_reimbursement in Hr. by ix_inv.
Qed.

Lemma claim_reserve_traced m n : traced [] (claim_reserve m n).
Proof. unfold claim_reserve. tracing. apply release_fee_surplus_traced. Qed.

(** Spending on an input tree queues exactly the nullifiers, and reports the
    queue index of the first and the tree's id. *)
Definition spend_result (vs : list bytes) (l l' : TreeAccountLayout) (r : InputTreeResult) : Prop :=
  extends vs l l' /\ first_input_queue_seq (itr_input_tree r) = queue_next_index (nullifier l) /\
  itr_tree_id r = tree_id l'.

Lemma queue_and_count vs n l u l1 fee l2 u' l3 : Forall (is_bytes 32) vs -> is_u64 n ->
  queue_nullifiers vs l = (Ok u, l1) -> credit_tree_fee l1 = (Ok fee, l2) ->
  record_nullifier_pdas_created n l2 = (Ok u', l3) -> extends vs l l3.
Proof.
  intros Hvs Hn H1 H2 H3. rewrite <- (app_nil_r vs). eapply extends_trans; [by eapply queue_nullifiers_traced|].
  apply (extends_trans [] [] _ l2); [by eapply credit_tree_fee_traced|by eapply record_created_traced].
Qed.

Lemma spend_tree_run address context count vs l allow slot r l' :
  Forall (is_bytes 32) vs -> is_u64 (Z.of_nat count) ->
  spend_tree address context count vs l = (Ok (allow, slot, r), l') -> spend_result vs l l' r.
Proof.
  intros Hvs Hn Hr. unfold spend_tree in Hr. ix_inv. split; [|done]. by eapply queue_and_count.
Qed.

Lemma spend_input_tree_run address ix hash binding l r d l' :
  Forall (is_bytes 32) (mt_nullifiers ix) -> is_u64 (Z.of_nat (length (mt_nullifiers ix))) ->
  spend_input_tree address ix hash binding l = (Ok (r, d), l') -> spend_result (mt_nullifiers ix) l l' r.
Proof.
  intros Hvs Hn Hr. unfold spend_input_tree, apply_input_tree in Hr. ix_inv.
  destruct_prods. ix_inv. split; [|done]. by eapply queue_and_count.
Qed.

(** Output trees queue nothing. *)
Lemma credit_output_tree_fee_traced b : traced [] (credit_output_tree_fee b).
Proof. unfold credit_output_tree_fee. tracing. apply credit_tree_fee_traced. Qed.

Lemma write_output_tree_traced address ix slot b :
  Forall canonical (map to_utxo_hash (ti_outputs ix)) -> valid u64 slot -> traced [] (write_output_tree address ix slot b).
Proof.
  intros Ho Hs. unfold write_output_tree. tracing; [by apply append_batch_traced|apply credit_output_tree_fee_traced].
Qed.

Lemma merge_write_output_traced address ix seq cache b slot :
  canonical (mt_output_utxo_hash ix) -> valid u64 slot -> traced [] (merge_write_output address ix seq cache b slot).
Proof.
  intros Ho Hs. unfold merge_write_output, merge_apply_output_tree. tracing.
  - apply append_batch_traced; [by constructor|done].
  - apply credit_output_tree_fee_traced.
Qed.

(** Deposit commitments are canonical field elements. *)
Lemma process_entry_canonical `{SH : SolHash} `{A : ArrayMapLib} c i e sums outs hashes sums' outs' hashes' :
  process_entry c i e (sums, outs, hashes) = Ok (sums', outs', hashes') -> Forall canonical hashes ->
  Forall canonical hashes'.
Proof.
  unfold process_entry. intros Hr Hh. run_inv. destruct_prods. run_inv.
  apply Forall_app_2; [done|]. constructor; [|done]. unfold utxo_commitment, deposit_hash in *. run_inv.
  by eapply hashv_canonical.
Qed.

Lemma process_entries_canonical `{SH : SolHash} `{A : ArrayMapLib} c i es st st' :
  process_entries c i es st = Ok st' -> Forall canonical st.2 -> Forall canonical st'.2.
Proof.
  revert i st. induction es as [|e es IH]; intros i st Hr Hst; cbn in Hr; run_inv; [done|].
  eapply IH; [done|]. destruct st as [[? ?] ?], x as [[? ?] ?]. by eapply process_entry_canonical.
Qed.

Lemma append_entries_traced `{SH : SolHash} `{A : ArrayMapLib} address ring groups id field zero es slot :
  valid u64 slot -> traced [] (append_entries address ring groups id field zero es slot).
Proof.
  intros Hs l a l' Hr. unfold append_entries in Hr. ix_inv. destruct x1 as [[sums outs] hashes]. ix_inv.
  eapply (append_batch_traced hashes slot); [|done|done].
  match goal with H : process_entries _ _ _ _ = Ok _ |- _ => by apply process_entries_canonical in H end.
Qed.

End trace.
