(* ===== verification/PoolMachine.v ===== *)
(** * The pool as a state machine

    The changes a handler makes to the accounts of the program, as a transition
    system: [effect L sp L'] is one change, labelled with the nullifiers it
    spends, and [effects] a sequence of them.  [good h L] is the invariant of the
    ledger, where [h] is the list of nullifiers spent so far on each tree: every
    account of the program has the shape of its type ([kind]), and every spent
    nullifier is either covered by the cleanup watermark of its tree or still has
    its PDA ([spent]).  Every effect preserves it.  [PoolHandlers] shows that
    every handler is a sequence of effects. *)

From S2P Require Import Prelude ZeroBytes Hasher HashChain Codec Smt Batch NullifierTree NullifierQueue NullifierSafety TreeAccount TreeTypes TreeSafety Errors Ledger State Shared NullifierPdas CreateTree Cache Configs TreeTrace.

(** Overlap of derived addresses is excluded by the collision resistance of the
    derivation; the program relies on it where a tree could be mistaken for the
    protocol config or for a cache. *)
Class PdaDisjoint (R : Runtime) : Prop := {
  tree_config_disjoint : forall id a b b',
    derive_program_address [TREE_PDA_SEED; le_bytes 2 id] ID = Some (a, b) ->
    derive_program_address [SPP_PROTOCOL_CONFIG_PDA_SEED] ID = Some (a, b') -> False;
  tree_cache_disjoint : forall id sponsor nonce a b b',
    derive_program_address [TREE_PDA_SEED; le_bytes 2 id] ID = Some (a, b) ->
    derive_program_address (cache_seeds sponsor nonce) ID = Some (a, b') -> False;
}.

Section machine.
Context `{SP : SolPoseidon} `{G : Groth16} `{R : Runtime} {LG : HashLog}.
Context {HT : PoseidonTotal SP} {HS : PoseidonSized SP} {HZ : ZeroBytesLaw Poseidon.Poseidon}.

Implicit Types (L : Ledger) (l : TreeAccountLayout) (h : bytes -> list bytes) (a d T v p : bytes).

(** ** Account types *)

Definition tree_seeds (id : Z) : list bytes := [TREE_PDA_SEED; le_bytes 2 id].

Definition derived (seeds : list bytes) (a : bytes) : Prop := exists bump, derive_program_address seeds ID = Some (a, bump).

(** The region where a creation in progress keeps its payer and data. *)
Definition pending_end : nat := utxo_tree_offset + 32 + csize create_tree_codec.

(** A tree under construction: zero outside that region. *)
Definition blank (d : bytes) : Prop :=
  forall i b, d !! i = Some b -> (i < utxo_tree_offset \/ pending_end <= i)%nat -> b = x00.

Inductive kind : list bytes -> bytes -> bytes -> Prop :=
| kind_empty a : kind [] a []
| kind_blank a d : head d = Some x00 -> blank d -> kind [] a d
| kind_tree vs a l :
    discriminator l = TREE_ACCOUNT_DISCRIMINATOR -> tree_holds vs l -> derived (tree_seeds (tree_id l)) a ->
    kind vs a (enc layout_codec l)
| kind_config a d :
    head d = Some (byte_of PROTOCOL_CONFIG) -> length d = csize config_codec ->
    derived [SPP_PROTOCOL_CONFIG_PDA_SEED] a -> kind [] a d
| kind_ring a d : head d = Some (byte_of RING_CONFIG) -> length d = csize ring_codec -> kind [] a d
| kind_registry a d : head d = Some (byte_of SPL_ASSET_REGISTRY) -> length d = csize registry_codec -> kind [] a d
| kind_counter a d : head d = Some (byte_of SPL_ASSET_COUNTER) -> length d = csize counter_codec -> kind [] a d
| kind_cache a d sponsor nonce :
    head d = Some (byte_of CACHE) -> length d = csize cache_codec -> derived (cache_seeds sponsor nonce) a -> kind [] a d
| kind_nullifier_pda a r : is_u64 (queue_index r) -> is_u16 (pda_tree_id r) -> kind [] a (to_account_data r).

(** Neither a tree nor a nullifier PDA. *)
Definition plain (d : bytes) : Prop :=
  head d <> Some (byte_of TREE_ACCOUNT_DISCRIMINATOR) /\ head d <> Some (byte_of NULLIFIER_PDA).

(** ** The invariant *)

Definition tree_at (L : Ledger) (a : bytes) (l : TreeAccountLayout) : Prop :=
  core L a = (ID, enc layout_codec l) /\ valid layout_codec l /\ discriminator l = TREE_ACCOUNT_DISCRIMINATOR.

(** The PDA of a nullifier that was queued [k]-th on tree [T]. *)
Definition has_pda (L : Ledger) (T : bytes) (l : TreeAccountLayout) (k : nat) (v : bytes) : Prop :=
  exists p, derived (nullifier_seeds T v) p /\
    core L p = (ID, to_account_data (mkNullifierPda (1 + Z.of_nat k) (tree_id l))).

Definition spent (L : Ledger) (T : bytes) (l : TreeAccountLayout) (k : nat) (v : bytes) : Prop :=
  1 + Z.of_nat k < close_before_index (nullifier l) \/ has_pda L T l k v.

Record good (h : bytes -> list bytes) (L : Ledger) : Prop := {
  gd_kind : forall a d, core L a = (ID, d) -> kind (h a) a d;
  gd_live : forall a, h a <> [] -> exists d, core L a = (ID, d);
  gd_spent : forall T k v l, h T !! k = Some v -> tree_at L T l -> spent L T l k v;
  gd_slot : valid u64 (slot (clock L));
}.

(** ** Effects *)

(** Outside [X] the program's accounts keep their data, and what becomes the
    program's is zeroed. *)
Record frame (X : list bytes) (L L' : Ledger) : Prop := {
  fr_keep : forall a d, a ∉ X -> core L a = (ID, d) -> core L' a = (ID, d);
  fr_new : forall a d, a ∉ X -> core L' a = (ID, d) -> core L a = (ID, d) \/ Forall (eq x00) d;
  fr_slot : valid u64 (slot (clock L)) -> valid u64 (slot (clock L'));
}.

(** The PDAs of a spend: the [i]-th is derived from the tree and the [i]-th
    nullifier, was unallocated and records the queue index and the tree. *)
Definition spend_pdas (L L' : Ledger) (T : bytes) (l : TreeAccountLayout) (vs pdas : list bytes) : Prop :=
  length pdas = length vs /\
  forall i p v, pdas !! i = Some p -> vs !! i = Some v ->
    derived (nullifier_seeds T v) p /\ core L p = (SYSTEM_PROGRAM, []) /\
    core L' p = (ID, to_account_data (mkNullifierPda (queue_next_index (nullifier l) + Z.of_nat i) (tree_id l))).

(** Queueing [vs] on the tree [T] and creating their PDAs. *)
Definition spend (L : Ledger) (T : bytes) (vs : list bytes) (L' : Ledger) : Prop :=
  exists l l' pdas, tree_at L T l /\ core L' T = (ID, enc layout_codec l') /\ extends vs l l' /\
    spend_pdas L L' T l vs pdas /\ frame (T :: pdas) L L'.

Inductive effect (L : Ledger) : list (bytes * list bytes) -> Ledger -> Prop :=
| eff_frame L' : frame [] L L' -> effect L [] L'
| eff_new a d L' :
    core L a = (SYSTEM_PROGRAM, []) -> core L' a = (ID, d) -> kind [] a d -> frame [a] L L' -> effect L [] L'
| eff_write a d d' L' :
    core L a = (ID, d) -> core L' a = (ID, d') -> (forall vs, kind vs a d -> plain d /\ kind vs a d') ->
    frame [a] L L' -> effect L [] L'
| eff_tree T l l' L' :
    tree_at L T l -> core L' T = (ID, enc layout_codec l') -> extends [] l l' -> frame [T] L L' -> effect L [] L'
| eff_spend T vs L' : spend L T vs L' -> effect L [(T, vs)] L'
| eff_close_pda T l p d r L' :
    tree_at L T l -> core L p = (ID, d) -> read_from d = Some r -> pda_tree_id r = tree_id l ->
    is_closable r (close_before_index (nullifier l)) = true -> core L' p = (SYSTEM_PROGRAM, []) -> frame [p] L L' ->
    effect L [] L'
| eff_drop p d L' :
    core L p = (ID, d) -> plain d -> core L' p = (SYSTEM_PROGRAM, []) -> frame [p] L L' -> effect L [] L'.

Inductive effects (L : Ledger) : list (bytes * list bytes) -> Ledger -> Prop :=
| effects_nil : effects L [] L
| effects_cons sp L1 sps L2 : effect L sp L1 -> effects L1 sps L2 -> effects L (sp ++ sps) L2.

(** The history after some spends. *)
Definition spent_on (T : bytes) (sps : list (bytes * list bytes)) : list bytes :=
  concat (map snd (filter (fun s => s.1 = T) sps)).

Definition after (h : bytes -> list bytes) (sps : list (bytes * list bytes)) : bytes -> list bytes :=
  fun T => h T ++ spent_on T sps.

(** ** Lemmas on account types *)

Lemma head_layout l : head (enc layout_codec l) = Some (byte_of (discriminator l)).
Proof. done. Qed.

Lemma head_pda r : head (to_account_data r) = Some (byte_of NULLIFIER_PDA).
Proof. done. Qed.

Lemma derived_inj seeds a b : derived seeds a -> derived seeds b -> a = b.
Proof. intros [x Ha] [y Hb]. rewrite Ha in Hb. by injection Hb. Qed.

(** An account with the tree discriminator is a tree, and only trees have a
    history. *)
Lemma kind_is_tree vs a d : kind vs a d ->
  head d = Some (byte_of TREE_ACCOUNT_DISCRIMINATOR) \/ vs <> [] ->
  exists l, d = enc layout_codec l /\ discriminator l = TREE_ACCOUNT_DISCRIMINATOR /\ tree_holds vs l /\
    derived (tree_seeds (tree_id l)) a.
Proof.
  intros Hk Ht. destruct Hk as [|? ? Hh|vs a l Hd Hl Ha|? ? Hh|? ? Hh|? ? Hh|? ? Hh|? ? ? ? Hh|];
    try (destruct Ht as [Ht|Ht]; [|done]; try rewrite Hh in Ht; discriminate Ht).
  by exists l.
Qed.

Lemma kind_zero a d : Forall (eq x00) d -> kind [] a d.
Proof.
  intros Hz. destruct d as [|b d]; [constructor|]. apply kind_blank.
  - inversion Hz. by subst.
  - intros i c Hc _. symmetry. by eapply Forall_lookup_1 in Hz.
Qed.

Lemma enc_layout_inj l l' : valid layout_codec l -> valid layout_codec l' ->
  enc layout_codec l = enc layout_codec l' -> l = l'.
Proof. intros Hv Hv' He. apply (f_equal (dec layout_codec)) in He. by rewrite !dec_enc in He. Qed.

Lemma tree_at_unique L T l l' : tree_at L T l -> tree_at L T l' -> l = l'.
Proof.
  intros (H1 & Hv & _) (H2 & Hv' & _). rewrite H1 in H2. apply (f_equal snd) in H2. cbn [snd] in H2.
  by apply enc_layout_inj.
Qed.

Lemma good_tree h L T l : good h L -> tree_at L T l -> tree_holds (h T) l /\ derived (tree_seeds (tree_id l)) T.
Proof.
  intros Hg (Hc & Hv & Hd). pose proof (gd_kind _ _ Hg _ _ Hc) as Hk.
  apply kind_is_tree in Hk as (l' & He & Hd' & Hl & Ha); [|left; by rewrite head_layout, Hd].
  assert (l = l') as <-; [|done]. apply enc_layout_inj; [done|by destruct Hl|done].
Qed.

Lemma good_history_tree h L T : good h L -> h T <> [] -> exists l, tree_at L T l.
Proof.
  intros Hg Hh. destruct (gd_live _ _ Hg T Hh) as [d Hd]. pose proof (gd_kind _ _ Hg _ _ Hd) as Hk.
  apply kind_is_tree in Hk as (l & -> & Hl & [Hv _] & _); [|by right]. by exists l.
Qed.

(** An account that is not the program's has no history. *)
Lemma good_foreign h L a : good h L -> (forall d, core L a <> (ID, d)) -> h a = [].
Proof.
  intros Hg Ha. destruct (decide (h a = [])) as [|Hne]; [done|]. destruct (gd_live _ _ Hg a Hne) as [d Hd]. by destruct (Ha d).
Qed.

Lemma core_system_ne L a d : core L a = (SYSTEM_PROGRAM, []) -> core L a <> (ID, d).
Proof. intros -> Hs%(f_equal fst). by apply ID_not_system. Qed.

(** ** Preservation *)

Lemma frame_nil X L L' : frame [] L L' -> frame X L L'.
Proof. intros []. split; [|  |done]; intros a d _; [apply fr_keep0|apply fr_new0]; set_solver. Qed.

(** Spent nullifiers outlive a change that removes no PDA. *)
Lemma spent_keep X L L' T l k v :
  frame X L L' -> (forall p r, p ∈ X -> core L p <> (ID, to_account_data r)) -> spent L T l k v -> spent L' T l k v.
Proof.
  intros Hf HX [Hc|(p & Hp & Hc)]; [by left|]. right. exists p. split; [done|].
  apply (fr_keep _ _ _ Hf); [|done]. intros Hin. by destruct (HX p _ Hin Hc).
Qed.

(** A watermark that moves on and an id that stays keep a nullifier spent. *)
Lemma spent_mono L T l l' k v : close_before_index (nullifier l) <= close_before_index (nullifier l') ->
  tree_id l' = tree_id l -> spent L T l k v -> spent L T l' k v.
Proof. intros Hc Hi [?|?]; [left; lia|right]. unfold has_pda. by rewrite Hi. Qed.

Lemma good_spent_keep X h L L' T k v l : good h L -> frame X L L' ->
  (forall p r, p ∈ X -> core L p <> (ID, to_account_data r)) ->
  h T !! k = Some v -> tree_at L T l -> spent L' T l k v.
Proof. intros Hg Hf HX Hk Hl. eapply spent_keep; [done..|]. by eapply gd_spent. Qed.

(** What changes inside [X] must be shown; the rest of the invariant is framed. *)
Lemma good_update X h h' L L' : good h L -> frame X L L' -> (forall a, a ∉ X -> h' a = h a) ->
  (forall T k v l, h T !! k = Some v -> tree_at L T l -> spent L' T l k v) ->
  (forall a d, a ∈ X -> core L' a = (ID, d) -> kind (h' a) a d) ->
  (forall a, a ∈ X -> h' a <> [] -> exists d, core L' a = (ID, d)) ->
  (forall T k v l', T ∈ X -> h' T !! k = Some v -> tree_at L' T l' -> spent L' T l' k v) ->
  good h' L'.
Proof.
  intros Hg Hf Hh Hkeep Hkind Hlive Hspent. split.
  - intros a d Hd. destruct (decide (a ∈ X)) as [|Ha]; [by apply Hkind|]. rewrite (Hh a Ha).
    destruct (fr_new _ _ _ Hf a d Ha Hd) as [Hd'|Hz]; [by apply Hg|].
    destruct (decide (h a = [])) as [->|Hne]; [by apply kind_zero|].
    destruct (gd_live _ _ Hg a Hne) as [d' Hd']. apply Hg. rewrite Hd'. f_equal.
    pose proof (fr_keep _ _ _ Hf a d' Ha Hd') as Hk. rewrite Hd in Hk. by apply (f_equal snd) in Hk.
  - intros a Hne. destruct (decide (a ∈ X)) as [|Ha]; [by apply Hlive|]. rewrite (Hh a Ha) in Hne.
    destruct (gd_live _ _ Hg a Hne) as [d Hd]. exists d. by apply (fr_keep _ _ _ Hf).
  - intros T k v l' Hk Hl'. destruct (decide (T ∈ X)) as [|HT']; [by apply Hspent|]. rewrite (Hh T HT') in Hk.
    destruct (gd_live _ _ Hg T) as [d Hd]; [intros He; by rewrite He in Hk|].
    apply (Hkeep _ _ _ _ Hk). destruct Hl' as (Hc & ?). split; [|done]. rewrite Hd. f_equal. pose proof (fr_keep _ _ _ Hf T d HT' Hd) as Hc'. rewrite Hc in Hc'. by apply (f_equal snd) in Hc'.
  - apply (fr_slot _ _ _ Hf), Hg.
Qed.

Lemma plain_not_pda d r : plain d -> d <> to_account_data r.
Proof. intros [_ Hp] ->. by rewrite head_pda in Hp. Qed.

Lemma plain_no_history h L a d : good h L -> core L a = (ID, d) -> plain d -> h a = [].
Proof.
  intros Hg Hc [Ht _]. destruct (decide (h a = [])) as [|Hne]; [done|].
  destruct (kind_is_tree _ _ _ (gd_kind _ _ Hg _ _ Hc)) as (l & -> & Hd & _); [by right|].
  rewrite head_layout, Hd in Ht. done.
Qed.

Lemma core_det L a d d' : core L a = (ID, d) -> core L a = (ID, d') -> d = d'.
Proof. intros -> H%(f_equal snd). exact H. Qed.

(** [x ∈ [a]] and [x ∉ [a]] in the context. *)
Ltac single := repeat match goal with H : _ ∈ [_] |- _ => apply list_elem_of_singleton in H as -> end.

Lemma good_new h L L' a d : good h L -> core L a = (SYSTEM_PROGRAM, []) -> core L' a = (ID, d) -> kind [] a d ->
  frame [a] L L' -> good h L'.
Proof.
  intros Hg Hs Hd Hk Hf.
  assert (h a = []) as Hh by (eapply good_foreign; [done|]; intros; by apply core_system_ne).
  apply (good_update [a] h h L L'); [done..| | | |].
  - intros. eapply good_spent_keep; [done..| |done|done]. intros p r Hp. single. by apply core_system_ne.
  - intros b d' Hb Hd'. single. rewrite Hh. by rewrite (core_det _ _ _ _ Hd' Hd).
  - intros b Hb. single. by rewrite Hh.
  - intros T k v l' HT'. single. by rewrite Hh.
Qed.

Lemma good_write h L L' a d d' : good h L -> core L a = (ID, d) -> core L' a = (ID, d') ->
  (forall vs, kind vs a d -> plain d /\ kind vs a d') -> frame [a] L L' -> good h L'.
Proof.
  intros Hg Hd Hd' Hk Hf. destruct (Hk _ (gd_kind _ _ Hg _ _ Hd)) as [Hp Hk'].
  pose proof (plain_no_history _ _ _ _ Hg Hd Hp) as Hh. apply (good_update [a] h h L L'); [done..| | | |].
  - intros. eapply good_spent_keep; [done..| |done|done]. intros p r Hin. single. intros Hc. by apply (plain_not_pda d r Hp), (core_det _ _ _ _ Hd).
  - intros b d'' Hb Hd''. single. by rewrite (core_det _ _ _ _ Hd'' Hd').
  - intros b Hb. single. by rewrite Hh.
  - intros T k v l' HT'. single. by rewrite Hh.
Qed.

Lemma good_drop h L L' p d : good h L -> core L p = (ID, d) -> plain d -> core L' p = (SYSTEM_PROGRAM, []) ->
  frame [p] L L' -> good h L'.
Proof.
  intros Hg Hd Hp Hs Hf. pose proof (plain_no_history _ _ _ _ Hg Hd Hp) as Hh.
  apply (good_update [p] h h L L'); [done..| | | |].
  - intros. eapply good_spent_keep; [done..| |done|done]. intros q r Hin. single. intros Hc. by apply (plain_not_pda d r Hp), (core_det _ _ _ _ Hd).
  - intros b d' Hb Hd'. single. by destruct (core_system_ne _ _ d' Hs).
  - intros b Hb. single. by rewrite Hh.
  - intros T k v l' HT'. single. by rewrite Hh.
Qed.

Lemma good_frame h L L' : good h L -> frame [] L L' -> good h L'.
Proof.
  intros Hg Hf. apply (good_update [] h h L L'); [done|done|done| |set_solver..].
  intros. eapply good_spent_keep; [done..|set_solver|done|done].
Qed.

Lemma good_ext h h' L : (forall a, h' a = h a) -> good h L -> good h' L.
Proof.
  intros Hh Hg. apply (good_update [] h h' L L); [done| |done|by apply Hg|set_solver..]. split; [done| |done]. by left.
Qed.

Lemma read_from_pda r : is_u64 (queue_index r) -> is_u16 (pda_tree_id r) -> read_from (to_account_data r) = Some r.
Proof. intros. by apply nullifier_pda_roundtrip. Qed.

(** The queue index and the tree id of a spent nullifier fit their record. *)
Lemma spent_record_typed vs l k : tree_holds vs l -> (k < length vs)%nat ->
  is_u64 (1 + Z.of_nat k) /\ is_u16 (tree_id l).
Proof.
  intros (Hv & ZB & q & Hq) Hk. pose proof (inv_fits _ _ _ _ _ (ts_queue _ _ _ _ Hq)) as Hf.
  rewrite (ts_values _ _ _ _ Hq) in Hf.
  destruct (proj1 (layout_valid l) Hv) as (_ & _ & Hid & _). rewrite valid_u16 in Hid. unfold in_width. lia.
Qed.

Lemma good_close_pda h L L' T l p d r : good h L -> tree_at L T l -> core L p = (ID, d) -> read_from d = Some r ->
  pda_tree_id r = tree_id l -> is_closable r (close_before_index (nullifier l)) = true ->
  core L' p = (SYSTEM_PROGRAM, []) -> frame [p] L L' -> good h L'.
Proof.
  intros Hg Hl Hd Hr Hid Hclose Hs Hf. apply Z.ltb_lt in Hclose.
  pose proof (proj1 (nullifier_pda_roundtrip d r) Hr) as (_ & _ & Hdr).
  assert (h p = []) as Hh.
  { destruct (decide (h p = [])) as [|Hne]; [done|].
    destruct (kind_is_tree _ _ _ (gd_kind _ _ Hg _ _ Hd)) as (l' & He & Hd' & _); [by right|].
    rewrite Hdr in He. apply (f_equal head) in He. by rewrite head_pda, head_layout, Hd' in He. }
  apply (good_update [p] h h L L'); [done..| | | |].
  - intros T' k v l' Hk Hl'. destruct (gd_spent _ _ Hg _ _ _ _ Hk Hl') as [|(p' & Hp' & Hc')]; [by left|].
    destruct (decide (p' = p)) as [->|Hne].
    + left. destruct (good_tree _ _ _ _ Hg Hl) as [_ Ha]. destruct (good_tree _ _ _ _ Hg Hl') as [Hh' Ha'].
      destruct (spent_record_typed _ _ _ Hh' (lookup_lt_Some _ _ _ Hk)) as [? ?].
      rewrite (core_det _ _ _ _ Hd Hc'), read_from_pda in Hr by done. injection Hr as <-. cbn in *.
      rewrite Hid in Ha'. pose proof (derived_inj _ _ _ Ha Ha') as <-. by rewrite (tree_at_unique _ _ _ _ Hl' Hl).
    + right. exists p'. split; [done|]. apply (fr_keep _ _ _ Hf); [|done]. set_solver.
  - intros b d' Hb Hd'. single. by destruct (core_system_ne _ _ d' Hs).
  - intros b Hb. single. by rewrite Hh.
  - intros T' k v l' HT'. single. by rewrite Hh.
Qed.

Lemma spent_on_app T s1 s2 : spent_on T (s1 ++ s2) = spent_on T s1 ++ spent_on T s2.
Proof. unfold spent_on. by rewrite filter_app, map_app, concat_app. Qed.

Lemma spent_on_one T T' vs : spent_on T [(T', vs)] = if decide (T' = T) then vs else [].
Proof. unfold spent_on. rewrite filter_cons, filter_nil. cbn [fst]. case_decide; cbn; [by rewrite app_nil_r|done]. Qed.

Lemma after_nil h a : after h [] a = h a.
Proof. apply app_nil_r. Qed.

Lemma after_app h s1 s2 a : after h (s1 ++ s2) a = after (after h s1) s2 a.
Proof. unfold after. by rewrite spent_on_app, app_assoc. Qed.

Lemma after_same h T vs : after h [(T, vs)] T = h T ++ vs.
Proof. unfold after. by rewrite spent_on_one, decide_True. Qed.

Lemma after_other h T vs a : a <> T -> after h [(T, vs)] a = h a.
Proof. intros. unfold after. by rewrite spent_on_one, decide_False, app_nil_r. Qed.

Lemma spend_pdas_elem L L' T l vs pdas p : spend_pdas L L' T l vs pdas -> p ∈ pdas ->
  exists i v, (i < length vs)%nat /\ vs !! i = Some v /\ pdas !! i = Some p /\ derived (nullifier_seeds T v) p /\
    core L p = (SYSTEM_PROGRAM, []) /\
    core L' p = (ID, to_account_data (mkNullifierPda (queue_next_index (nullifier l) + Z.of_nat i) (tree_id l))).
Proof.
  intros [Hlen Hp] [i Hi]%list_elem_of_lookup. pose proof (lookup_lt_Some _ _ _ Hi).
  destruct (lookup_lt_is_Some_2 vs i) as [v Hv]; [lia|]. exists i, v. split_and!; [lia|done|done|by apply (Hp i p v)..].
Qed.

Lemma good_spend h L L' T vs : good h L -> spend L T vs L' -> good (after h [(T, vs)]) L'.
Proof.
  intros Hg (l & l' & pdas & Hl & HT' & Hext & Hpdas & Hf). destruct (good_tree _ _ _ _ Hg Hl) as [Hh Ha].
  pose proof (ex_holds _ _ _ Hext _ Hh) as Hh'. pose proof (ex_close _ _ _ Hext _ Hh) as Hclose.
  assert (forall p, p ∈ pdas -> p <> T /\ h p = []) as Hfresh.
  { intros p Hp. destruct (spend_pdas_elem _ _ _ _ _ _ _ Hpdas Hp) as (i & v & _ & _ & _ & _ & Hs & _). split.
    - intros ->. destruct Hl as [Hl _]. by destruct (core_system_ne _ _ _ Hs Hl).
    - eapply good_foreign; [done|]. intros. by apply core_system_ne. }
  assert (forall a, a <> T -> after h [(T, vs)] a = h a) as Hother by (intros; by apply after_other).
  assert (tree_at L' T l') as Hl'.
  { split; [done|]. split; [by destruct Hh'|]. rewrite (ex_disc _ _ _ Hext). apply Hl. }
  assert (forall T' k v l0, h T' !! k = Some v -> tree_at L T' l0 -> spent L' T' l0 k v) as Hkeep.
  { intros T' k v l0. apply (good_spent_keep (T :: pdas) h L); [done..|]. intros p r [->|Hp]%elem_of_cons.
    - destruct Hl as (-> & _ & Hd). intros He%(f_equal snd). apply (f_equal head) in He. cbn [snd] in He.
      by rewrite head_pda, head_layout, Hd in He.
    - destruct (spend_pdas_elem _ _ _ _ _ _ _ Hpdas Hp) as (i & v' & _ & _ & _ & _ & Hs & _). by apply core_system_ne. }
  apply (good_update (T :: pdas) h _ L L'); [done|done| |done| | |].
  - intros a [HaT _]%not_elem_of_cons. by apply Hother.
  - intros a d [->|Hp]%elem_of_cons Hd.
    + rewrite after_same, <- (core_det _ _ _ _ HT' Hd). apply kind_tree; [apply Hl'|done|]. by rewrite (ex_id _ _ _ Hext).
    + destruct (Hfresh a Hp) as [Hne He]. rewrite Hother, He by done.
      destruct (spend_pdas_elem _ _ _ _ _ _ _ Hpdas Hp) as (i & v & Hi & _ & _ & _ & _ & Hc).
      rewrite <- (core_det _ _ _ _ Hc Hd). pose proof (holds_queue_next _ _ Hh) as Hq.
      destruct (spent_record_typed _ _ (length (h T) + i) Hh'); [rewrite length_app; lia|].
      rewrite (ex_id _ _ _ Hext) in *. constructor; cbn; [|done].
      by replace (queue_next_index _ + _) with (1 + Z.of_nat (length (h T) + i)) by lia.
  - intros a [->|Hp]%elem_of_cons Hne; [by eexists|]. destruct (Hfresh a Hp) as [? He]. by rewrite Hother, He in Hne.
  - intros T0 k v l0 [->|Hp]%elem_of_cons Hk Hl0.
    2:{ destruct (Hfresh T0 Hp) as [? He]. by rewrite Hother, He in Hk. }
    rewrite (tree_at_unique _ _ _ _ Hl0 Hl'). rewrite after_same in Hk. apply lookup_app_Some in Hk as [Hk|[Hk1 Hk2]].
    + apply (spent_mono _ _ l); [done|apply Hext|by apply Hkeep].
    + right. destruct (lookup_lt_is_Some_2 pdas (k - length (h T))) as [p Hp].
      { destruct Hpdas as [-> _]. by apply lookup_lt_Some in Hk2. }
      destruct (proj2 Hpdas _ _ _ Hp Hk2) as (Hder & _ & Hc). exists p. split; [done|]. rewrite Hc.
      rewrite (ex_id _ _ _ Hext), (holds_queue_next _ _ Hh). do 3 f_equal. lia.
Qed.

Lemma extends_good h L L' T l l' : good h L -> tree_at L T l -> core L' T = (ID, enc layout_codec l') ->
  extends [] l l' -> frame [T] L L' -> good h L'.
Proof.
  intros Hg Hl HT' Hext Hf. apply (good_ext (after h [(T, [])])).
  - intros a. unfold after. rewrite spent_on_one. case_decide; by rewrite app_nil_r.
  - apply (good_spend h L); [done|]. by exists l, l', [].
Qed.

Lemma effect_good h L sp L' : good h L -> effect L sp L' -> good (after h sp) L'.
Proof.
  intros Hg He. destruct He; try (apply (good_ext h); [intros; apply after_nil|]).
  - by eapply good_frame.
  - by eapply good_new.
  - by eapply good_write.
  - by eapply extends_good.
  - by eapply good_spend.
  - by eapply good_close_pda.
  - by eapply good_drop.
Qed.

Lemma effects_good h L sp L' : good h L -> effects L sp L' -> good (after h sp) L'.
Proof.
  intros Hg He. revert h Hg. induction He as [|L sp L1 sps L2 H1 _ IH]; intros h Hg.
  - apply (good_ext h); [intros; apply after_nil|done].
  - apply (good_ext (after (after h sp) sps)); [intros; apply after_app|]. by apply IH, effect_good with L.
Qed.

Lemma effects_one L sp L' : effect L sp L' -> effects L sp L'.
Proof. intros He. rewrite <- (app_nil_r sp). eapply effects_cons; [done|constructor]. Qed.

Lemma effects_trans L1 s1 L2 s2 L3 : effects L1 s1 L2 -> effects L2 s2 L3 -> effects L1 (s1 ++ s2) L3.
Proof.
  induction 1 as [|L sp L1 sps L2 H1 _ IH]; intros H2; [done|]. rewrite <- app_assoc.
  eapply effects_cons; [done|by apply IH].
Qed.

(** ** Spending twice *)

(** A nullifier that is spent again was covered by the watermark. *)
Lemma spend_covered h L L' T l vs v k : good h L -> tree_at L T l -> spend L T vs L' ->
  v ∈ vs -> h T !! k = Some v -> 1 + Z.of_nat k < close_before_index (nullifier l).
Proof.
  intros Hg Hl (l0 & l' & pdas & Hl0 & _ & _ & [Hlen Hp] & _) [i Hi]%list_elem_of_lookup Hk.
  destruct (gd_spent _ _ Hg _ _ _ _ Hk Hl) as [|(p & Hder & Hc)]; [done|].
  destruct (lookup_lt_is_Some_2 pdas i) as [p' Hp']; [by rewrite Hlen; apply lookup_lt_Some in Hi|].
  destruct (Hp i p' v Hp' Hi) as (Hder' & Hs & _). rewrite (derived_inj _ _ _ Hder' Hder) in Hs.
  by destruct (core_system_ne _ _ _ Hs Hc).
Qed.

(** One spend has no nullifier twice. *)
Lemma spend_nodup h L L' T vs : good h L -> spend L T vs L' -> NoDup vs.
Proof.
  intros Hg (l & l' & pdas & Hl & _ & Hext & [Hlen Hp] & _). apply NoDup_alt. intros i j v Hi Hj.
  destruct (good_tree _ _ _ _ Hg Hl) as [Hh _]. pose proof (ex_holds _ _ _ Hext _ Hh) as Hh'.
  assert (forall i, (i < length vs)%nat -> is_u64 (queue_next_index (nullifier l) + Z.of_nat i) /\ is_u16 (tree_id l)) as Hty.
  { intros n Hn. rewrite (holds_queue_next _ _ Hh), <- (ex_id _ _ _ Hext).
    replace (_ + _) with (1 + Z.of_nat (length (h T) + n)) by lia.
    apply (spent_record_typed _ _ _ Hh'). rewrite length_app. lia. }
  pose proof (lookup_lt_Some _ _ _ Hi) as Hi'. pose proof (lookup_lt_Some _ _ _ Hj) as Hj'.
  destruct (lookup_lt_is_Some_2 pdas i) as [p Hpi]; [lia|]. destruct (lookup_lt_is_Some_2 pdas j) as [p' Hpj]; [lia|].
  destruct (Hp i p v Hpi Hi) as (Hd & _ & Hc). destruct (Hp j p' v Hpj Hj) as (Hd' & _ & Hc').
  rewrite (derived_inj _ _ _ Hd' Hd) in Hc'. pose proof (core_det _ _ _ _ Hc Hc') as He.
  destruct (Hty i Hi'), (Hty j Hj'). apply (f_equal read_from) in He. rewrite !read_from_pda in He by done.
  injection He. lia.
Qed.

(** Spends on several trees, one after the other. *)
Inductive spend_seq (L : Ledger) : list (bytes * list bytes) -> Ledger -> Prop :=
| seq_nil : spend_seq L [] L
| seq_cons T vs L1 sps L2 : spend L T vs L1 -> spend_seq L1 sps L2 -> spend_seq L ((T, vs) :: sps) L2.

Lemma seq_effects L sps L' : spend_seq L sps L' -> effects L sps L'.
Proof.
  induction 1 as [|L T vs L1 sps L2 Hs _ IH]; [constructor|]. apply (effects_cons _ [(T, vs)] L1); [by constructor|done].
Qed.

(** A tree after a spend on another tree was the same before. *)
Lemma spend_other L T vs L' T' l : spend L T vs L' -> T' <> T -> tree_at L' T' l -> tree_at L T' l.
Proof.
  intros (l0 & l' & pdas & _ & _ & _ & Hp & Hf) Hne (Hc & Hv & Hd). split; [|done].
  assert (T' ∉ T :: pdas) as Hout.
  { apply not_elem_of_cons. split; [done|]. intros Hin.
    destruct (spend_pdas_elem _ _ _ _ _ _ _ Hp Hin) as (i & v & _ & _ & _ & _ & _ & Hc').
    apply (core_det _ _ _ _ Hc), (f_equal head) in Hc'. by rewrite head_layout, head_pda, Hd in Hc'. }
  destruct (fr_new _ _ _ Hf T' _ Hout Hc) as [|Hz]; [done|]. exfalso. pose proof (head_layout l) as Hh. rewrite Hd in Hh.
  destruct (enc layout_codec l) as [|b bs]; [done|]. injection Hh as ->. by apply Forall_inv in Hz.
Qed.

(** Spends on distinct trees: no nullifier twice, and every one that was spent
    before is covered by the watermark its tree had at the start. *)
Lemma seq_safe h L sps L' T vs : good h L -> spend_seq L sps L' -> NoDup (map fst sps) -> (T, vs) ∈ sps ->
  exists l, tree_at L T l /\ NoDup vs /\
    forall v k, v ∈ vs -> h T !! k = Some v -> 1 + Z.of_nat k < close_before_index (nullifier l).
Proof.
  intros Hg Hseq. revert h Hg.
  induction Hseq as [|L T0 vs0 L1 sps L2 Hs Hseq IH]; intros h Hg Hnd Hin; [by apply elem_of_nil in Hin|].
  apply NoDup_cons in Hnd as [Hnew Hnd]. apply elem_of_cons in Hin as [[= -> ->]|Hin].
  - pose proof Hs as (l & _ & _ & Hl & _). exists l. split; [done|]. split; [by eapply spend_nodup|].
    intros v k Hv Hk. by eapply spend_covered.
  - assert (T <> T0) as Hne.
    { intros ->. apply Hnew. apply list_elem_of_fmap. by exists (T0, vs). }
    destruct (IH _ (good_spend _ _ _ _ _ Hg Hs) Hnd Hin) as (l & Hl & Hvs & Hcov). exists l.
    split; [by eapply spend_other|]. split; [done|]. intros v k Hv Hk. apply (Hcov v k Hv). by rewrite after_other.
Qed.

End machine.
