(* ===== verification/PoolSteps.v ===== *)
(** * From runtime calls to effects

    Code that changes no owner and no data is [inert]: parsing and validating
    accounts, loading configs, moving lamports, emitting events.  The other
    building blocks of the handlers (creating and initialising an account,
    writing a config, changing a loaded tree, creating nullifier PDAs, calling a
    token program) are effects of [PoolMachine].  [does sp m] says that every
    successful run of [m] from a good ledger is a sequence of effects that spends
    [sp]. *)

From S2P Require Import Prelude ZeroBytes Hasher HashChain Codec Smt Batch NullifierTree NullifierQueue NullifierSafety TreeAccount TreeTypes TreeSafety Errors TreeSlot Ledger AccountChecks State Event Shared NullifierPdas Forester CreateTree Circuit UserRegistry Cache Configs Settlement Merge TransactProof Transact Deposit TreeTrace PoolMachine.

(** ** Inert code *)

Definition same_core (L L' : Ledger) : Prop := (forall a, core L' a = core L a) /\ clock L' = clock L.

Definition inert {A} (m : Ix A) : Prop := forall L a L', m L = (Ok a, L') -> same_core L L'.

Lemma same_core_refl L : same_core L L.
Proof. done. Qed.

Lemma same_core_trans L1 L2 L3 : same_core L1 L2 -> same_core L2 L3 -> same_core L1 L3.
Proof. intros [H1 H1'] [H2 H2']. split; [intros a; by rewrite H2|by rewrite H2']. Qed.

Lemma inert_bind {A B} (m : Ix A) (k : A -> Ix B) : inert m -> (forall a, inert (k a)) -> inert (mbindM m k).
Proof. intros Hm Hk L b L' (a & L1 & H1 & H2)%mbindM_ok. eapply same_core_trans; [by eapply Hm|by eapply Hk]. Qed.

Lemma inert_ret {A} (a : A) : inert (mret a).
Proof. by intros L b L' [-> ->]%mret_ok. Qed.

Lemma inert_lift {A} (r : res ProgramError A) : inert (mlift r).
Proof. by intros L b L' [_ ->]%mlift_ok. Qed.

Lemma inert_throw {A} e : inert (mthrow (A := A) e).
Proof. by intros L b L' H. Qed.

Lemma inert_map_err {A} f (m : Ix A) : inert m -> inert (mmap_err f m).
Proof. intros Hm L a L' Hr%mmap_err_ok. by eapply Hm. Qed.

Lemma inert_account v : inert (account v).
Proof. by intros L a L' [_ ->]%account_ok. Qed.

Lemma inert_get_lamports v : inert (get_lamports v).
Proof. by intros L a L' [_ ->]%get_lamports_ok. Qed.

Lemma inert_data_len v : inert (data_len v).
Proof. by intros L a L' [_ ->]%data_len_ok. Qed.

Lemma inert_get_data v : inert (get_data v).
Proof. by intros L a L' [_ ->]%get_data_ok. Qed.

Lemma inert_rent len : inert (rent_minimum len).
Proof. by intros L a L' [_ ->]%rent_minimum_ok. Qed.

Lemma inert_clock : inert get_clock.
Proof. by intros L a L' [_ ->]%get_clock_ok. Qed.

Lemma inert_set_lamports v n : inert (set_lamports v n).
Proof. intros L a L' ->%set_lamports_ok. split; [|done]. intros b. by apply core_upd_lamports. Qed.

Lemma inert_emit d : inert (emit d).
Proof. by intros L a L' ->%mmodify_ok. Qed.

Create HintDb inert discriminated.
#[export] Hint Resolve inert_ret inert_lift inert_throw inert_account inert_get_lamports inert_data_len inert_get_data
  inert_rent inert_clock inert_set_lamports inert_emit : inert.
#[export] Hint Extern 1 (inert (acc _)) => apply inert_lift : inert.

(** Follow the code down to its calls, which the hint database knows. *)
Ltac inerting :=
  lazymatch goal with
  | |- inert (mbindM _ _) => apply inert_bind; [inerting|intros; cbv beta; inerting]
  | |- inert (mmap_err _ _) => apply inert_map_err; inerting
  | |- inert (if ?b then _ else _) => destruct b eqn:?; inerting
  | |- inert (match ?x with _ => _ end) => destruct x eqn:?; inerting
  | |- _ => auto with inert
  end.

Section inert_calls.
Context `{R : Runtime} {RL : RuntimeLaws R}.

Lemma inert_transfer from to n seeds : inert (sys_transfer from to n seeds).
Proof. intros L u L' Hr. apply transfer_ok in Hr as [-> _]. split; [|done]. intros a. apply core_move. Qed.

Lemma inert_load_config {A} (c : Codec A) f e v : inert (load_config c f e v).
Proof. unfold load_config. inerting. Qed.

Lemma inert_load_config_mut {A} (c : Codec A) f e v : inert (load_config_mut c f e v).
Proof. unfold load_config_mut. inerting. Qed.

End inert_calls.

#[export] Hint Resolve inert_transfer inert_load_config inert_load_config_mut : inert.
#[export] Hint Extern 1 (inert (load_protocol_config _)) => apply inert_load_config : inert.
#[export] Hint Extern 1 (inert (load_protocol_config_mut _)) => apply inert_load_config_mut : inert.
#[export] Hint Extern 1 (inert (load_ring_config _)) => apply inert_load_config : inert.
#[export] Hint Extern 1 (inert (load_ring_config_mut _)) => apply inert_load_config_mut : inert.
#[export] Hint Extern 1 (inert (load_cache _)) => apply inert_load_config : inert.
#[export] Hint Extern 1 (inert (load_cache_mut _)) => apply inert_load_config_mut : inert.
#[export] Hint Extern 1 (inert (load_spl_asset_counter_mut _)) => apply inert_load_config_mut : inert.

Section inert_handlers.
Context `{SP : SolPoseidon} `{SH : SolHash} `{R : Runtime} {RL : RuntimeLaws R} `{T : TokenProgram} `{LS : LoaderState}.

(** shared.rs, event.rs and protocol_config/loader.rs *)

Lemma inert_protocol_authority c a : inert (load_and_validate_protocol_authority c a).
Proof. unfold load_and_validate_protocol_authority. inerting. Qed.

Lemma inert_protocol_authority_mut c a : inert (load_and_validate_protocol_authority_mut c a).
Proof. unfold load_and_validate_protocol_authority_mut. inerting. Qed.

Lemma inert_fee_authority c a : inert (load_and_validate_fee_authority c a).
Proof. unfold load_and_validate_fee_authority. inerting. Qed.

Lemma inert_forester_authority c a : inert (validate_forester_authority c a).
Proof. unfold validate_forester_authority. inerting. Qed.

Lemma inert_ring_creation_authority c a : inert (validate_ring_creation_authority c a).
Proof. unfold validate_ring_creation_authority. inerting. Qed.

Lemma inert_reimbursement_recipient v : inert (check_reimbursement_recipient v).
Proof. unfold check_reimbursement_recipient. inerting. Qed.

Lemma inert_pay_with_minimum t r p m : inert (pay_reimbursement_with_rent_minimum t r p m).
Proof. unfold pay_reimbursement_with_rent_minimum. inerting. Qed.

Lemma inert_pay t r p : inert (pay_reimbursement t r p).
Proof. unfold pay_reimbursement, pay_reimbursement_with_rent_minimum. inerting. Qed.

Lemma inert_emit_event {A} `{Borsh A} k (e : A) : inert (emit_event k e).
Proof. apply inert_emit. Qed.

(** nullifier_pda, create_tree, ring_config and cache *)

Lemma inert_top_up rent t p : inert (top_up rent t p).
Proof. unfold top_up. inerting. Qed.

Lemma inert_collect_tree_fee p t n : inert (collect_tree_fee p t n).
Proof. unfold collect_tree_fee. inerting. Qed.

Lemma inert_load_unused p t v : inert (load_unused_nullifier_pda p t v).
Proof. unfold load_unused_nullifier_pda. inerting. Qed.

Lemma inert_fund_tree p t n : inert (fund_tree p t n).
Proof. unfold fund_tree. inerting. Qed.

Lemma inert_initialization_authority a p d : inert (check_initialization_authority a p d).
Proof. unfold check_initialization_authority. inerting. Qed.

Lemma inert_active_ring_config v : inert (load_active_ring_config v).
Proof. unfold load_active_ring_config. inerting. Qed.

Lemma inert_ring_authority_mut c a : inert (load_and_validate_ring_authority_mut c a).
Proof. unfold load_and_validate_ring_authority_mut. inerting. Qed.

Lemma inert_cache_write_load c w n : inert (cache_write_load c w n).
Proof. unfold cache_write_load. inerting. Qed.

Lemma inert_cache_write_state c : inert (cache_write_state c).
Proof. unfold cache_write_state. inerting. Qed.

Lemma inert_cache_state c : inert (cache_state c).
Proof. unfold cache_state, cache_write_state. inerting. Qed.

(** settlement *)

Lemma inert_settle_sol s n b : inert (settle_sol s n b).
Proof. unfold settle_sol. inerting. Qed.

Lemma inert_token_amount v : inert (token_account_amount v).
Proof. unfold token_account_amount. inerting. Qed.

Lemma inert_read_token_account v p : inert (read_token_account v p).
Proof. unfold read_token_account. inerting. Qed.

Lemma inert_sol_settlement i r : inert (validate_sol_settlement i r).
Proof. unfold validate_sol_settlement. inerting. Qed.

Lemma inert_spl_settlement m i u p b : inert (validate_spl_settlement m i u p b).
Proof. unfold validate_spl_settlement, read_token_account, read_token_mint. inerting. Qed.

Lemma inert_mint_for_interface m p : inert (validate_token_mint_for_interface m p).
Proof. unfold validate_token_mint_for_interface. inerting. Qed.

End inert_handlers.

#[export] Hint Resolve inert_protocol_authority inert_protocol_authority_mut inert_fee_authority
  inert_forester_authority inert_ring_creation_authority inert_reimbursement_recipient inert_pay_with_minimum inert_pay
  inert_emit_event inert_top_up inert_collect_tree_fee inert_load_unused inert_fund_tree inert_initialization_authority
  inert_active_ring_config inert_ring_authority_mut inert_cache_write_load inert_cache_write_state inert_cache_state
  inert_settle_sol inert_token_amount inert_read_token_account inert_sol_settlement inert_spl_settlement
  inert_mint_for_interface : inert.

Section inert_parsing.
Context `{SP : SolPoseidon} `{SH : SolHash} `{R : Runtime} {RL : RuntimeLaws R} `{T : TokenProgram}.

Lemma inert_next_muts n e c pushed it : inert (next_muts n e c pushed it).
Proof. revert pushed it. induction n; intros; cbn [next_muts]; inerting. Qed.

Lemma inert_parse_input_trees n pushed it : inert (parse_input_trees n pushed it).
Proof. revert pushed it. induction n; intros; cbn [parse_input_trees]; inerting. Qed.

Lemma inert_parse_settlement t it : inert (parse_settlement t it).
Proof. unfold parse_settlement, validate_spl_deposit_settlement, validate_spl_withdrawal_settlement. inerting. Qed.

Lemma inert_parse_settlements ts ss it : inert (parse_settlements ts ss it).
Proof.
  revert ss it. induction ts; intros; cbn [parse_settlements]; inerting. apply inert_parse_settlement.
Qed.

Lemma inert_parse_group d k it : inert (parse_group d k it).
Proof. unfold parse_group, deposit_validate_sol, validate_spl_deposit_settlement. inerting. Qed.

Lemma inert_parse_groups d ks gs it : inert (parse_groups d ks gs it).
Proof. revert gs it. induction ks; intros; cbn [parse_groups]; inerting. apply inert_parse_group. Qed.

End inert_parsing.

#[export] Hint Resolve inert_next_muts inert_parse_input_trees inert_parse_settlements inert_parse_groups : inert.

Section inert_accounts.
Context `{SP : SolPoseidon} `{SH : SolHash} `{R : Runtime} {RL : RuntimeLaws R} `{T : TokenProgram}.

Lemma inert_load_merge_cache a n : inert (load_merge_cache a n).
Proof. unfold load_merge_cache, check_slot. inerting. Qed.

Lemma inert_merge_parse a n s : inert (merge_validate_and_parse a n s).
Proof. unfold merge_validate_and_parse, parse_cache_accounts. inerting. Qed.

Lemma inert_merge_ring_parse a n s : inert (merge_ring_validate_and_parse a n s).
Proof. unfold merge_ring_validate_and_parse, parse_cache_accounts. inerting. Qed.

Lemma inert_load_user_record v : inert (load_user_record v).
Proof. unfold load_user_record. inerting. Qed.

Lemma inert_from_iter it ix p ts o b : inert (from_iter it ix p ts o b).
Proof. unfold from_iter, parse_transact_caches. inerting. Qed.

Lemma inert_transact_cache_load a n : inert (transact_cache_load a n).
Proof. unfold transact_cache_load. inerting. Qed.

Lemma inert_bind_cached_inputs c ix p : inert (bind_cached_inputs c ix p).
Proof. unfold bind_cached_inputs, read_state. inerting. Qed.

Lemma inert_check_cache_output_tree c i : inert (check_cache_output_tree c i).
Proof. unfold check_cache_output_tree. inerting. Qed.

Lemma inert_deposit_parse r a k : inert (deposit_validate_and_parse r a k).
Proof. unfold deposit_validate_and_parse. inerting. Qed.

End inert_accounts.

#[export] Hint Resolve inert_load_merge_cache inert_merge_parse inert_merge_ring_parse inert_load_user_record
  inert_from_iter inert_transact_cache_load inert_bind_cached_inputs inert_check_cache_output_tree inert_deposit_parse
  : inert.

Section inert_transact.
Context `{SP : SolPoseidon} `{SH : SolHash} `{R : Runtime} {RL : RuntimeLaws R} `{T : TokenProgram}.

Lemma inert_transact_parse a ix : inert (transact_validate_and_parse a ix).
Proof. unfold transact_validate_and_parse, validate_program_prefix. inerting. Qed.

Lemma inert_ring_parse a ix b : inert (ring_validate_and_parse a ix b).
Proof. unfold ring_validate_and_parse, validate_program_prefix. inerting. Qed.

End inert_transact.

#[export] Hint Resolve inert_transact_parse inert_ring_parse : inert.

(** ** Building blocks *)

Section does.
Context `{SP : SolPoseidon} `{G : Groth16} `{W : Wincode} `{R : Runtime} {LG : HashLog}.
Context {HT : PoseidonTotal SP} {HS : PoseidonSized SP} {HZ : ZeroBytesLaw Poseidon.Poseidon} {HW : WincodeLaw W}
  {RL : RuntimeLaws R}.

Definition does {A} (sp : list (bytes * list bytes)) (m : Ix A) : Prop :=
  forall h L a L', good h L -> m L = (Ok a, L') -> effects L sp L'.

Lemma same_core_frame X L L' : same_core L L' -> frame X L L'.
Proof.
  intros [Hc Hclock]. split; [intros a d _; by rewrite Hc|intros a d _; rewrite Hc; by left|by rewrite Hclock].
Qed.

Lemma same_core_effects L L' : same_core L L' -> effects L [] L'.
Proof. intros H. by apply effects_one, eff_frame, same_core_frame. Qed.

Lemma same_core_good h L L' : same_core L L' -> good h L -> good h L'.
Proof. intros H Hg. eapply good_frame; [done|]. by apply same_core_frame. Qed.

Lemma inert_does {A} (m : Ix A) : inert m -> does [] m.
Proof. intros Hm h L a L' _ Hr. by eapply same_core_effects, Hm. Qed.

Lemma does_bind {A B} s1 s2 (m : Ix A) (k : A -> Ix B) :
  does s1 m -> (forall a, does s2 (k a)) -> does (s1 ++ s2) (mbindM m k).
Proof.
  intros Hm Hk h L b L' Hg (a & L1 & H1 & H2)%mbindM_ok. pose proof (Hm _ _ _ _ Hg H1) as He.
  eapply effects_trans; [done|]. eapply Hk; [by eapply effects_good|done].
Qed.

Lemma does_then {A B} sp (m : Ix A) (k : A -> Ix B) : inert m -> (forall a, does sp (k a)) -> does sp (mbindM m k).
Proof. intros Hm Hk. apply (does_bind [] sp); [by apply inert_does|done]. Qed.

Lemma does_lift {A B} sp (r : res ProgramError A) (k : A -> Ix B) :
  (forall a, r = Ok a -> does sp (k a)) -> does sp (mbindM (mlift r) k).
Proof. intros Hk h L b L' Hg (a & L1 & [Ha ->]%mlift_ok & Hr)%mbindM_ok. by eapply Hk. Qed.

Lemma does_map_err {A} sp f (m : Ix A) : does sp m -> does sp (mmap_err f m).
Proof. intros Hm h L a L' Hg Hr%mmap_err_ok. by eapply Hm. Qed.

Lemma does_require {A} sp (b : bool) e (m : Ix A) : (b = true -> does sp m) -> does sp (if b then m else mthrow e).
Proof. intros Hm h L a L' Hg [Hb Hr]%require_ok. by eapply Hm. Qed.

(** *** Frames *)

Lemma frame_refl X L : frame X L L.
Proof. by apply same_core_frame. Qed.

Lemma frame_trans X L1 L2 L3 : frame X L1 L2 -> frame X L2 L3 -> frame X L1 L3.
Proof.
  intros H1 H2. split.
  - intros a d Ha Hd. by apply (fr_keep _ _ _ H2), (fr_keep _ _ _ H1).
  - intros a d Ha Hd. destruct (fr_new _ _ _ H2 a d Ha Hd) as [Hd'|]; [|by right]. by apply (fr_new _ _ _ H1).
  - intros Hs. by apply (fr_slot _ _ _ H2), (fr_slot _ _ _ H1).
Qed.

Lemma frame_weaken X Y L L' : frame X L L' -> (forall a, a ∈ X -> a ∈ Y) -> frame Y L L'.
Proof.
  intros [] HXY. split; [| |done]; intros a d Ha; [apply fr_keep|apply fr_new]; (intros Hin; by apply Ha, HXY).
Qed.

(** Only the accounts [X] change. *)
Definition only (X : list bytes) (L L' : Ledger) : Prop :=
  (forall a, a ∉ X -> core L' a = core L a) /\ clock L' = clock L.

Lemma only_frame X L L' : only X L L' -> frame X L L'.
Proof.
  intros [Hc Hclock]. split; [intros a d Ha; by rewrite Hc|intros a d Ha; rewrite Hc by done; by left|by rewrite Hclock].
Qed.

Lemma same_core_only X L L' : same_core L L' -> only X L L'.
Proof. intros [Hc Hclock]. split; [intros a _; apply Hc|done]. Qed.

Lemma only_trans X L1 L2 L3 : only X L1 L2 -> only X L2 L3 -> only X L1 L3.
Proof. intros [H1 H1'] [H2 H2']. split; [intros a Ha; by rewrite H2, H1|by rewrite H2']. Qed.

Lemma only_weaken X Y L L' : only X L L' -> (forall a, a ∈ X -> a ∈ Y) -> only Y L L'.
Proof. intros [H1 H1'] HXY. split; [|done]. intros a Ha. apply H1. intros Hin. by apply Ha, HXY. Qed.

Lemma only_upd a f L : only [a] L (upd a f L).
Proof. split; [|done]. intros b Hb. apply core_upd_ne. set_solver. Qed.

Lemma frame_upd a f L : frame [a] L (upd a f L).
Proof. apply only_frame, only_upd. Qed.

Lemma core_upd_eq a f L : core (upd a f L) a = (acct_owner (f (accounts L a)), acct_data (f (accounts L a))).
Proof. unfold core. by rewrite accounts_upd_eq. Qed.

Lemma core_with_data a d L : core (upd a (with_data d) L) a = (acct_owner (accounts L a), d).
Proof. by rewrite core_upd_eq. Qed.

(** *** Trees *)

(** A loaded tree is changed in place. *)
Lemma on_tree_run {A} load err v (m : M TreeAccountLayout ProgramError A) h L a L' :
  load = from_account_view_mut \/ load = from_account_view_mut_allow_paused ->
  good h L -> on_tree load err v m L = (Ok a, L') ->
  exists l l', tree_at L (vaddr v) l /\ m l = (Ok a, l') /\ core L' (vaddr v) = (ID, enc layout_codec l') /\
    only [vaddr v] L L'.
Proof.
  intros Hload Hg Hr. unfold on_tree in Hr. set (view := tree_view v _) in Hr.
  destruct (load view ID TREE_ACCOUNT_DISCRIMINATOR) as [t| |] eqn:Ht; [|done..].
  assert (load_checked view ID TREE_ACCOUNT_DISCRIMINATOR = Ok t) as Hc.
  { destruct Hload; subst load; [|exact Ht]. unfold from_account_view_mut in Ht. run_inv. by destruct (negb _); run_inv. }
  clear Ht. unfold load_checked in Hc. ix_inv. subst view. cbn [tree_view owner data layout] in *.
  match goal with H : acct_owner _ = ID |- _ => rename H into Ho end.
  assert (core L (vaddr v) = (ID, acct_data (accounts L (vaddr v)))) as Hcore by (unfold core; by rewrite Ho).
  destruct (kind_is_tree _ _ _ (gd_kind _ _ Hg _ _ Hcore)) as (l & Hd & Hdisc & Hl & _); [by left|].
  assert (Z.of_nat (length (acct_data (accounts L (vaddr v)))) = account_size) as Hlen.
  { rewrite Hd. unfold account_size. f_equal. apply enc_size, Hl. }
  assert (x = l) as ->.
  { match goal with H : deserialize_mut _ = Some _ |- _ => rewrite (wincode_exact _ Hlen), Hd, dec_enc in H by apply Hl end.
    by apply (inj Some). }
  destruct (m l) as [r l'] eqn:Hm.
  pose proof (f_equal fst Hr) as Hr1. pose proof (f_equal snd Hr) as Hr2. cbn [fst snd] in Hr1, Hr2. subst r L'. exists l, l'.
  split_and!; [|done| |apply only_upd].
  - split; [by rewrite Hcore, Hd|]. split; [apply Hl|done].
  - rewrite core_upd_eq. cbn [acct_owner acct_data store_tree with_data]. rewrite Ho, Hd, drop_ge, app_nil_r; [done|].
    by rewrite enc_size by apply Hl.
Qed.

Lemma with_tree_run {A} err v (m : M TreeAccountLayout ProgramError A) h L a L' :
  good h L -> with_tree err v m L = (Ok a, L') ->
  exists l l', tree_at L (vaddr v) l /\ m l = (Ok a, l') /\ core L' (vaddr v) = (ID, enc layout_codec l') /\
    only [vaddr v] L L'.
Proof. apply on_tree_run. by left. Qed.

Lemma tree_effects L L' T l l' : tree_at L T l -> core L' T = (ID, enc layout_codec l') -> extends [] l l' ->
  frame [T] L L' -> effects L [] L'.
Proof. intros. apply effects_one. by eapply eff_tree. Qed.

Lemma does_tree {A} err v (m : M TreeAccountLayout ProgramError A) : traced [] m -> does [] (with_tree err v m).
Proof.
  intros Hm h L a L' Hg Hr. destruct (with_tree_run _ _ _ _ _ _ _ Hg Hr) as (l & l' & Hl & Hr' & Hc & Hf).
  eapply tree_effects; [done..|by eapply Hm|by apply only_frame].
Qed.

Lemma does_tree_allow_paused {A} err v (m : M TreeAccountLayout ProgramError A) :
  traced [] m -> does [] (with_tree_allow_paused err v m).
Proof.
  intros Hm h L a L' Hg Hr.
  destruct (on_tree_run _ _ _ _ _ _ _ _ (or_intror eq_refl) Hg Hr) as (l & l' & Hl & Hr' & Hc & Hf).
  eapply tree_effects; [done..|by eapply Hm|by apply only_frame].
Qed.

(** *** Config accounts *)

(** Overwriting an account of a plain type by data of the same type and size. *)
Lemma kind_same vs a d d' k : k ∈ [PROTOCOL_CONFIG; RING_CONFIG; SPL_ASSET_COUNTER; CACHE] ->
  head d = Some (byte_of k) -> head d' = Some (byte_of k) -> length d' = length d ->
  kind vs a d -> plain d /\ kind vs a d'.
Proof.
  intros Hk Hh Hh' Hlen Hd. split.
  - split; rewrite Hh; intros He; rewrite !elem_of_cons in Hk; destruct Hk as [->|[->|[->|[->|Hk]]]];
      first [discriminate He|by inversion Hk].
  - destruct Hd as [|? ? Hd|vs a l Hd|? ? Hd|? ? Hd|? ? Hd|? ? Hd|? ? ? ? Hd|? r];
      rewrite ?head_layout, ?Hd, ?head_pda in Hh; rewrite !elem_of_cons in Hk;
      destruct Hk as [->|[->|[->|[->|Hk]]]]; try discriminate Hh; try (by inversion Hk).
    all: econstructor; first [done|by rewrite Hlen|by rewrite Hh'].
Qed.

Lemma load_config_run {A} (c : Codec A) f e v L cfg L' : load_config c f e v L = (Ok cfg, L') ->
  L' = L /\ exists d, core L (vaddr v) = (ID, d) /\ length d = csize c /\ cfg = dec c d /\ f cfg = true.
Proof.
  unfold load_config, validate_config, try_from_bytes, core, owned_by. intros Hr. ix_inv.
  match goal with H : (if (?n =? ?m)%nat then _ else _) = Some _ |- _ => destruct (Nat.eqb_spec n m); [|done]; injection H as <- end.
  match goal with H : acct_owner _ = ID |- _ => rewrite H end. split; [done|]. by eexists.
Qed.

Lemma load_config_mut_run {A} (c : Codec A) f e v L cfg L' : load_config_mut c f e v L = (Ok cfg, L') ->
  L' = L /\ exists d, core L (vaddr v) = (ID, d) /\ length d = csize c /\ cfg = dec c d /\ f cfg = true.
Proof.
  intros Hr. apply (load_config_run c f e). unfold load_config_mut in Hr. unfold load_config, mbindM in *. cbn in *.
  destruct (vwritable v); [done|discriminate].
Qed.

Lemma store_effects {A} (c : Codec A) `{!Lawful c} k v L d cfg :
  k ∈ [PROTOCOL_CONFIG; RING_CONFIG; SPL_ASSET_COUNTER; CACHE] ->
  core L (vaddr v) = (ID, d) -> length d = csize c -> head d = Some (byte_of k) -> valid c cfg ->
  head (enc c cfg) = Some (byte_of k) -> effects L [] (upd (vaddr v) (with_data (enc c cfg)) L).
Proof.
  intros Hk Hc Hl Hh Hv Hh'. apply effects_one. eapply (eff_write L (vaddr v) d (enc c cfg)); [done| | |apply frame_upd].
  - rewrite core_with_data. unfold core in Hc. by injection Hc as ->.
  - intros vs. apply (kind_same vs _ _ _ k); [done..|]. by rewrite enc_size.
Qed.

End does.

#[export] Instance config_exact : Exact config_codec.
Proof. apply iso_exact; [apply _|by intros (?&?&?&?&?&?&?&?&?&?)]. Qed.

#[export] Instance ring_exact : Exact ring_codec.
Proof. apply iso_exact; [apply _|by intros (?&?&?&?&?&?&?)]. Qed.

#[export] Instance counter_exact : Exact counter_codec.
Proof. apply iso_exact; [apply _|by intros (?&?&?)]. Qed.

#[export] Instance cache_exact : Exact cache_codec.
Proof. apply iso_exact; [apply _|by intros (?&?&?&?&?&?&?)]. Qed.

(** The discriminator is the first byte. *)
Lemma head_config c : head (enc config_codec c) = Some (byte_of (pc_discriminator c)).
Proof. done. Qed.

Lemma head_ring c : head (enc ring_codec c) = Some (byte_of (rc_discriminator c)).
Proof. done. Qed.

Lemma head_counter c : head (enc counter_codec c) = Some (byte_of (sc_discriminator c)).
Proof. done. Qed.

Lemma head_cache c : head (enc cache_codec c) = Some (byte_of (ca_discriminator c)).
Proof. done. Qed.

Lemma head_exact {A} (c : Codec A) `{!Exact c} d : length d = csize c -> head d = head (enc c (dec c d)).
Proof. intros Hl. by rewrite enc_dec. Qed.

Section creation.
Context `{SP : SolPoseidon} `{G : Groth16} `{W : Wincode} `{R : Runtime} `{TP : TokenProgram} {LG : HashLog}.
Context {HT : PoseidonTotal SP} {HS : PoseidonSized SP} {HZ : ZeroBytesLaw Poseidon.Poseidon} {HW : WincodeLaw W}
  {RL : RuntimeLaws R} {TL : TokenLaws TP}.

(** *** New accounts *)

Lemma core_created v n owner space L payer k :
  core (upd v (created n owner space) (upd payer (debit k) L)) v = (owner, replicate (Z.to_nat space) x00).
Proof. by rewrite core_upd_eq. Qed.

Lemma frame_created v n owner space L payer k :
  frame [v] L (upd v (created n owner space) (upd payer (debit k) L)).
Proof.
  eapply frame_trans; [|apply frame_upd]. apply same_core_frame. split; [|done]. intros a. by apply core_upd_lamports.
Qed.

Lemma create_minimum_run v space owner payer seeds L u L' :
  create_with_minimum_balance v space owner payer seeds L = (Ok u, L') ->
  core L (vaddr v) = (SYSTEM_PROGRAM, []) /\ core L' (vaddr v) = (owner, replicate (Z.to_nat space) x00) /\
  frame [vaddr v] L L' /\ clock L' = clock L.
Proof.
  intros Hr. apply create_minimum_ok in Hr as (Ho & Hd & m & _ & _ & _ & ->).
  split; [unfold core; by rewrite Ho, Hd|]. split; [apply core_created|]. split; [apply frame_created|done].
Qed.

(** An account created and then initialised. *)
Lemma create_init_effects {A} (c : Codec A) v space payer seeds L u L1 e cfg u' L2 :
  create_with_minimum_balance v space ID payer seeds L = (Ok u, L1) -> init_config c e v cfg L1 = (Ok u', L2) ->
  kind [] (vaddr v) (enc c cfg) -> effects L [] L2.
Proof.
  intros Hc Hi Hk. destruct (create_minimum_run _ _ _ _ _ _ _ _ Hc) as (Hs & Hd & Hf & _).
  unfold init_config in Hi. ix_inv. apply effects_one. eapply (eff_new L (vaddr v) (enc c cfg)); [done| |done|].
  - rewrite core_with_data. unfold core in Hd. by injection Hd as ->.
  - eapply frame_trans; [done|apply frame_upd].
Qed.

(** *** Nullifier PDAs *)

Lemma init_nullifier_pda_run T v r p L u L' : init_nullifier_pda T v r p L = (Ok u, L') ->
  derived (nullifier_seeds T v) (vaddr p) /\ core L (vaddr p) = (SYSTEM_PROGRAM, []) /\
  core L' (vaddr p) = (ID, to_account_data r) /\ only [vaddr p] L L'.
Proof.
  unfold init_nullifier_pda, load_unused_nullifier_pda, verify_pda, is_system. intros Hr. ix_inv.
  destruct_prods. ix_inv. repeat match goal with H : sys_assign _ _ _ _ = _ |- _ => apply assign_ok in H as -> end.
  repeat match goal with H : resize _ _ _ = _ |- _ => apply resize_ok in H as -> end.
  unfold write_to in *. repeat match goal with H : (if ?b then _ else _) = Some _ |- _ => destruct b; [injection H as <-|done] end.
  match goal with H : length _ = 0%nat |- _ => apply nil_length_inv in H as Hnil end.
  subst. split; [by eexists|]. split; [unfold core; congruence|]. split.
  - rewrite core_with_data. by rewrite accounts_upd_eq, accounts_upd_eq.
  - eapply only_trans; [|apply only_upd]. eapply only_trans; [|apply only_upd]. apply only_upd.
Qed.

(** What the loop leaves: the [i]-th account was unallocated and now records the
    queue index [first + i]. *)
Definition created_pdas (L L' : Ledger) (T : bytes) (first tree_id : Z) (nullifier_pdas : list (View * bytes)) : Prop :=
  only (map (fun x => vaddr x.1) nullifier_pdas) L L' /\
  forall i p v, nullifier_pdas !! i = Some (p, v) ->
    derived (nullifier_seeds T v) (vaddr p) /\ core L (vaddr p) = (SYSTEM_PROGRAM, []) /\
    core L' (vaddr p) = (ID, to_account_data (mkNullifierPda (first + Z.of_nat i) tree_id)).

Lemma same_core_created L1 L2 L3 T first id pdas :
  same_core L1 L2 -> created_pdas L2 L3 T first id pdas -> created_pdas L1 L3 T first id pdas.
Proof.
  intros Hs [Ho Hp]. split; [eapply only_trans; [by apply same_core_only|done]|].
  intros i p v Hi. rewrite <- (proj1 Hs (vaddr p)). by apply Hp.
Qed.

Lemma created_pdas_cons L1 L2 L3 T first id p v rest :
  derived (nullifier_seeds T v) (vaddr p) -> core L1 (vaddr p) = (SYSTEM_PROGRAM, []) ->
  core L2 (vaddr p) = (ID, to_account_data (mkNullifierPda first id)) -> only [vaddr p] L1 L2 ->
  created_pdas L2 L3 T (first + 1) id rest -> created_pdas L1 L3 T first id ((p, v) :: rest).
Proof.
  intros Hd Hs Hc Ho [Ho' Hrest].
  assert (forall q w, (q, w) ∈ rest -> vaddr q <> vaddr p) as Hfresh.
  { intros q w [i Hi]%list_elem_of_lookup He. destruct (Hrest i q w Hi) as (_ & Hq & _).
    rewrite He in Hq. by destruct (core_system_ne _ _ _ Hq Hc). }
  split.
  - cbn [map]. eapply only_trans; eapply only_weaken; [done|set_solver|done|set_solver].
  - intros [|i] q w Hi.
    + injection Hi as <- <-. rewrite Z.add_0_r. split_and!; [done..|]. rewrite (proj1 Ho'); [done|].
      intros [[q w'] [Heq Hin]]%list_elem_of_fmap. by destruct (Hfresh q w' Hin).
    + cbn in Hi. destruct (Hrest i q w Hi) as (Hq1 & Hq2 & Hq3).
      replace (first + Z.of_nat (S i)) with (first + 1 + Z.of_nat i) by lia. split_and!; [done| |done].
      rewrite <- (proj1 Ho); [done|]. rewrite list_elem_of_singleton. by eapply Hfresh, list_elem_of_lookup_2.
Qed.

Lemma create_loop_run tree rent first id pos pdas L u L' :
  create_loop tree rent first id pos pdas L = (Ok u, L') -> created_pdas L L' (vaddr tree) (first + pos) id pdas.
Proof.
  revert pos L. induction pdas as [|[p v] pdas IH]; intros pos L Hr; cbn [create_loop] in Hr; ix_inv.
  - split; [by apply same_core_only|]. intros i q w Hi. by rewrite lookup_nil in Hi.
  - match goal with H : init_nullifier_pda _ _ _ _ _ = _ |- _ =>
      destruct (init_nullifier_pda_run _ _ _ _ _ _ _ H) as (Hd & Hs & Hc & Ho) end.
    eapply created_pdas_cons; [done..|].
    eapply same_core_created; [by eapply inert_top_up|]. replace (first + pos + 1) with (first + (pos + 1)) by lia. by apply IH.
Qed.

Lemma create_nullifier_pdas_run payer tree pdas r L u L' : create_nullifier_pdas payer tree pdas r L = (Ok u, L') ->
  created_pdas L L' (vaddr tree) (first_input_queue_seq (itr_input_tree r)) (itr_tree_id r) pdas.
Proof.
  unfold create_nullifier_pdas. intros Hr. ix_inv. eapply same_core_created; [by eapply inert_collect_tree_fee|].
  apply create_loop_run in Hr. by rewrite Z.add_0_r in Hr.
Qed.

(** *** Spending *)

(** Accounts of the other types keep their data. *)
Definition keeps (L L' : Ledger) : Prop := forall a d, core L a = (ID, d) -> plain d -> core L' a = (ID, d).

Lemma keeps_trans L1 L2 L3 : keeps L1 L2 -> keeps L2 L3 -> keeps L1 L3.
Proof. intros H1 H2 a d Hd Hp. by apply H2, Hp; apply H1. Qed.

Lemma frame_keeps X L L' : frame X L L' -> (forall a d, a ∈ X -> core L a = (ID, d) -> ~ plain d) -> keeps L L'.
Proof.
  intros Hf HX a d Hd Hp. apply (fr_keep _ _ _ Hf); [|done]. intros Hin. by destruct (HX a d Hin Hd).
Qed.

Lemma tree_not_plain L T l d : tree_at L T l -> core L T = (ID, d) -> ~ plain d.
Proof. intros (Hc & _ & Hd) Hc' [Hp _]. rewrite (core_det _ _ _ _ Hc' Hc), head_layout, Hd in Hp. done. Qed.

(** The two halves of a spend: queueing on the loaded tree, then the PDAs. *)
Lemma spend_halves L L1 L2 T l l' vs (pdas : list (View * bytes)) first id :
  tree_at L T l -> core L1 T = (ID, enc layout_codec l') -> only [T] L L1 -> extends vs l l' -> map snd pdas = vs ->
  first = queue_next_index (nullifier l) -> id = tree_id l' -> created_pdas L1 L2 T first id pdas ->
  spend L T vs L2.
Proof.
  intros Hl Hl' Ho Hext Hvs -> -> [Ho' Hp]. set (ps := map (fun x : View * bytes => vaddr x.1) pdas) in *.
  assert (forall i p v, pdas !! i = Some (p, v) -> vaddr p <> T) as Hne.
  { intros i p v Hi He. destruct (Hp i p v Hi) as (_ & Hs & _). rewrite He in Hs. by destruct (core_system_ne _ _ _ Hs Hl'). }
  assert (T ∉ ps) as HT'.
  { intros [[p v] [He [i Hi]%list_elem_of_lookup]]%list_elem_of_fmap. by eapply Hne. }
  assert (frame (T :: ps) L L2) as Hf.
  { apply only_frame. eapply only_trans; eapply only_weaken; [done|set_solver|done|set_solver]. }
  assert (forall i p v, pdas !! i = Some (p, v) -> core L (vaddr p) = (SYSTEM_PROGRAM, [])) as Hsys.
  { intros i p v Hi. rewrite <- (proj1 Ho); [by apply (Hp i p v)|]. rewrite list_elem_of_singleton. by eapply Hne. }
  exists l, l', ps. split_and!; [done| |done| |done].
  - by rewrite (proj1 Ho' T HT').
  - split; [unfold ps; by rewrite <- Hvs, !length_map|]. intros i a v Ha Hv. unfold ps in Ha. rewrite <- Hvs in Hv.
    rewrite list_lookup_fmap in Ha, Hv. destruct (pdas !! i) as [[p w]|] eqn:Hi; [|done]. injection Ha as <-.
    injection Hv as <-. destruct (Hp i p w Hi) as (Hd & _ & Hc). rewrite (ex_id _ _ _ Hext) in Hc.
    split_and!; [done|by eapply Hsys|done].
Qed.

Lemma spend_keeps L T vs L' : spend L T vs L' -> keeps L L'.
Proof.
  intros (l & l' & pdas & Hl & _ & _ & Hp & Hf). eapply frame_keeps; [done|].
  intros a d [->|Ha]%elem_of_cons Hd; [by eapply tree_not_plain|].
  destruct (spend_pdas_elem _ _ _ _ _ _ _ Hp Ha) as (i & v & _ & _ & _ & _ & Hs & _). by destruct (core_system_ne _ _ d Hs).
Qed.

(** *** Calls of a token program *)

Lemma token_invoke_frame program metas data seeds L u L' : vaddr program <> ID ->
  token_invoke program metas data seeds L = (Ok u, L') -> frame [] L L'.
Proof.
  intros Hp Hr. assert (forall a d, core L a = (ID, d) -> core L' a = core L a) as Hkeep.
  { intros a d Hd. eapply invoke_foreign; [done|]. unfold core in Hd. apply (f_equal fst) in Hd. cbn in Hd. by rewrite Hd. }
  split.
  - intros a d _ Hd. by rewrite (Hkeep a d Hd).
  - intros a d _ Hd. destruct (decide (acct_owner (accounts L a) = ID)) as [Ho|Ho].
    + left. rewrite <- (Hkeep a (acct_data (accounts L a))); [done|]. unfold core. by rewrite Ho.
    + right. unfold core in Hd. pose proof (f_equal fst Hd) as H1. pose proof (f_equal snd Hd) as H2. cbn in H1, H2.
      rewrite <- H2. eapply invoke_assigned; [done|]. by rewrite H1.
  - apply invoke_rest in Hr as (_ & -> & _). done.
Qed.

End creation.
