(* ===== verification/PoolHandlers.v ===== *)
(** * Every handler is a sequence of effects

    For each instruction of programs/shielded-pool, a successful run from a good
    ledger is a sequence of effects of [PoolMachine]; the spending instructions
    (transact and merge) are labelled with exactly the nullifiers they spend on
    each input tree. *)

From S2P Require Import Prelude ZeroBytes Hasher HashChain Codec Smt Batch NullifierTree NullifierQueue NullifierSafety TreeAccount TreeTypes TreeSafety Errors TreeSlot Ledger AccountChecks State Event Shared NullifierPdas Forester CreateTree Circuit UserRegistry Cache Configs Settlement Merge TransactProof Transact Deposit Program TreeTrace PoolMachine PoolSteps.

(** Follow the code through inert calls and guards. *)
Ltac doing :=
  lazymatch goal with
  | |- does _ (mbindM _ _) => first [apply does_then; [solve [inerting]|intros; cbv beta; doing]|idtac]
  | |- does _ (if ?b then _ else mthrow _) => apply does_require; intros; doing
  | |- does _ (if ?b then _ else _) => destruct b eqn:?; doing
  | |- does _ (match ?x with _ => _ end) => destruct x eqn:?; doing
  | |- _ => try (apply inert_does; solve [inerting])
  end.

Lemma acc_ok {A} (r : res AccountError A) L a L' : acc r L = (Ok a, L') -> r = Ok a /\ L' = L.
Proof. unfold acc. intros [Hr ->]%mlift_ok. by apply map_err_ok in Hr. Qed.

(** Invert the parsing of an instruction's accounts. *)
Ltac parse_step :=
  match goal with
  | H : acc _ _ = (Ok _, _) |- _ => apply acc_ok in H as [H ->]
  | p : (_ * _)%type |- _ => destruct p
  end.

Ltac parse_inv := repeat (progress ix_inv || parse_step).

(** The accounts in order. *)
Ltac iter_facts :=
  repeat match goal with
  | H : next_signer_mut _ = Ok _ |- _ => apply next_signer_mut_ok in H as (H & _)
  | H : next_signer _ = Ok _ |- _ => apply next_signer_ok in H as (H & _)
  | H : next_account _ = Ok _ |- _ => apply next_account_ok in H as (H & _)
  | H : next_mut _ = Ok _ |- _ => apply next_mut_ok in H as (H & _)
  end; cbn [iter_accounts new_iter] in *.

(** Their addresses have 32 bytes. *)
Ltac views_facts Hviews :=
  iter_facts;
  repeat match goal with H : ?it = _ :: _ |- _ => rewrite H in Hviews; clear H end;
  rewrite !Forall_cons in Hviews; destruct_and? Hviews.

(** Step over an inert call in the context, and in the goal if it starts there. *)
Lemma same_core_then `{SolPoseidon} `{Groth16} `{Runtime} {LG : HashLog} L L1 sp L2 : same_core L L1 -> effects L1 sp L2 -> effects L sp L2.
Proof. intros Hs He. apply (effects_trans _ [] L1); [by apply same_core_effects|done]. Qed.

Ltac skip Hg :=
  match type of Hg with good _ ?L =>
    match goal with H : ?m L = (Ok _, ?L1) |- _ =>
      let Hs := fresh in assert (same_core L L1) as Hs by (assert (inert m) as Hi by (solve [inerting]); exact (Hi _ _ _ H));
      pose proof (same_core_good _ _ _ Hs Hg); try apply (same_core_then _ _ _ _ Hs); clear Hs H Hg; rename_good Hg
    end
  end
with rename_good Hg := match goal with H : good _ _ |- _ => rename H into Hg end.

(** The accounts an iterator has not yielded yet are among the instruction's. *)
Lemma iter_len_remaining it : (iter_len it - iter_position it = length (iter_accounts it))%nat.
Proof. unfold iter_len. lia. Qed.

(** ** Formats of instruction data *)

#[export] Instance create_protocol_config_lawful : Lawful create_protocol_config_codec.
Proof. apply iso_lawful; [apply _|by intros (?&?&?&?&?&?&?&?)|by intros []]. Qed.

#[export] Instance set_activation_lawful : Lawful set_activation_codec.
Proof. apply iso_lawful; [apply _|by intros (?&?)|by intros []]. Qed.

#[export] Instance create_ring_lawful : Lawful create_ring_codec.
Proof. apply iso_lawful; [apply _|by intros (?&?)|by intros []]. Qed.

#[export] Instance batch_update_lawful : Lawful batch_update_codec.
Proof. apply iso_lawful; [apply _|by intros (?&?&?&?&?&?)|by intros [? ? ? []]]. Qed.

#[export] Instance create_tree_lawful : Lawful create_tree_codec.
Proof. apply iso_lawful; [apply _|by intros (?&?&?&?&?)|by intros [? [] ?]]. Qed.

Lemma ring_valid c : valid ring_codec c <->
  valid u8 (rc_discriminator c) /\ is_bytes 32 (rc_authority c) /\ is_bytes 32 (rc_program_id c) /\
  valid u8 (ring_authority_transact_is_enabled c) /\ valid u8 (rc_paused c) /\ valid u8 (rc_activated c) /\
  valid u8 (rc_bump c).
Proof. reflexivity. Qed.

Lemma config_valid c : valid config_codec c <->
  valid u8 (pc_discriminator c) /\ is_bytes 32 (protocol_authority c) /\ is_bytes 32 (tree_creation_authority c) /\
  is_bytes 32 (forester_authority c) /\ is_bytes 32 (ring_creation_authority c) /\ is_bytes 32 (fee_authority c) /\
  valid u8 (tree_creation_is_permissionless c) /\ valid u8 (ring_activation_is_permissionless c) /\
  valid u8 (spl_interface_creation_is_permissionless c) /\ valid u16 (next_tree_id c).
Proof. reflexivity. Qed.

Section handlers.
Context `{SP : SolPoseidon} `{SH : SolHash} `{G : Groth16} `{PG : PoolGroth16} `{W : Wincode} `{R : Runtime}
  {LG : HashLog} `{TP : TokenProgram} `{F : ArkFr} `{KM : KeyMetadata} `{LS : LoaderState} `{A : ArrayMapLib}.
Context {HT : PoseidonTotal SP} {HS : PoseidonSized SP} {HF : PoseidonField SP} {HZ : ZeroBytesLaw Poseidon.Poseidon}
  {HW : WincodeLaw W} {RL : RuntimeLaws R} {TL : TokenLaws TP}.

(** ** Forester and tree administration *)

(** The update's tree is the third account. *)
Lemma batch_update_effects accounts data h L u L' :
  0 <= in_zkp_batch_index data -> is_bytes 32 (in_old_root data) -> is_bytes 32 (in_new_root data) ->
  (forall tree l, accounts !! 2%nat = Some tree -> tree_at L (vaddr tree) l -> update_logged (nullifier l) data) ->
  good h L -> process_batch_update_nullifier_tree accounts data L = (Ok u, L') -> effects L [] L'.
Proof.
  intros Hi Ho Hn Hlog Hg Hr. unfold process_batch_update_nullifier_tree in Hr. parse_inv. iter_facts.
  match goal with H : validate_forester_authority _ _ _ = _ |- _ => rename H into Hauth end.
  match goal with H : check_reimbursement_recipient _ _ = _ |- _ => rename H into Hcheck end.
  match goal with H : with_tree _ _ _ _ = (Ok ?x, ?M) |- _ => rename H into Htree, x into applied, M into L2 end.
  assert (inert (validate_forester_authority v0 v) /\ inert (check_reimbursement_recipient v2)) as [Hi1 Hi2] by (split; inerting).
  pose proof (same_core_trans _ _ _ (Hi1 _ _ _ Hauth) (Hi2 _ _ _ Hcheck)) as Hs.
  destruct (with_tree_run _ _ _ _ _ _ _ (same_core_good _ _ _ Hs Hg) Htree) as (l & l' & Hl & Hrun & Hc & Hf).
  assert (update_logged (nullifier l) data) as Hl'.
  { apply (Hlog v1); [by subst; rewrite H0, H1|]. unfold tree_at in *. by rewrite <- (proj1 Hs). }
  apply (same_core_then _ _ _ _ Hs), (effects_trans _ [] L2 []).
  - eapply tree_effects; [done..|by eapply update_and_take_run|by apply only_frame].
  - eapply (same_core_effects L2). assert (inert (match applied with
      | Some (event, paid) => exec! pay_reimbursement v1 v2 paid; emit_event KindNullifierTreeUpdate event | None => mret tt end)) as Hi3 by inerting.
    exact (Hi3 _ _ _ Hr).
Qed.

Lemma set_tree_fees_does accounts fees : valid fees_codec fees -> does [] (process_set_tree_fees accounts fees).
Proof.
  intros Hf. unfold process_set_tree_fees. doing.
  apply does_tree_allow_paused, traced_map_err. by apply set_fee_schedule_traced.
Qed.

Lemma pause_tree_does accounts paused : does [] (process_pause_tree accounts paused).
Proof.
  unfold process_pause_tree. doing. apply does_tree_allow_paused, traced_map_err, set_paused_traced.
Qed.

Lemma claim_tree_lamports_does accounts data : does [] (process_claim_tree_lamports accounts data).
Proof.
  unfold process_claim_tree_lamports. doing.
  apply (does_bind [] []); [apply does_tree_allow_paused, claim_reserve_traced|]. intros reserve. doing.
Qed.

(** The accounts of an instruction: 32-byte addresses, at most 256 of them. *)
Definition views_ok (views : list View) : Prop :=
  Forall (fun v => is_bytes 32 (vaddr v)) views /\ (length views <= 256)%nat.

Lemma close_run v L u L' : close v L = (Ok u, L') ->
  core L' (vaddr v) = (SYSTEM_PROGRAM, []) /\ only [vaddr v] L L'.
Proof. intros Hr. apply close_ok in Hr as ->. split; [by rewrite core_upd_eq|apply only_upd]. Qed.

Lemma close_nullifier_pda_effect c tree l p L u L' : tree_at L (vaddr tree) l ->
  c = mkPdaClose (tree_id l) (close_before_index (nullifier l)) -> close_nullifier_pda c tree p L = (Ok u, L') ->
  effect L [] L' /\ tree_at L' (vaddr tree) l.
Proof.
  intros Hl -> Hr. unfold close_nullifier_pda, load_nullifier_pda, owned_by in Hr. ix_inv.
  cbn [close_tree_id pda_close_before_index] in *.
  match goal with H : close _ _ = _ |- _ => apply close_run in H as [Hs Ho] end.
  match goal with H : acct_owner _ = ID |- _ => rename H into Hown end.
  match goal with H : read_from _ = Some _ |- _ => rename H into Hread end.
  set (d := acct_data (Ledger.accounts L (vaddr p))) in *.
  assert (core L (vaddr p) = (ID, d)) as Hd by (unfold core; by rewrite Hown).
  assert (only [vaddr p] L L') as Ho'.
  { eapply only_trans; [|done]. apply same_core_only. split; [|done]. intros a. by rewrite !core_upd_lamports. }
  assert (vaddr tree <> vaddr p) as Hne.
  { intros He. destruct Hl as (Hc & _ & Hdisc). rewrite He in Hc. rewrite (core_det _ _ _ _ Hd Hc) in Hread.
    apply nullifier_pda_roundtrip in Hread as (_ & _ & Hhead). apply (f_equal head) in Hhead.
    by rewrite head_pda, head_layout, Hdisc in Hhead. }
  breflect. split.
  - eapply (eff_close_pda L (vaddr tree) l (vaddr p) d); [done..|by apply only_frame].
  - destruct Hl as (Hc & Hv). split; [|done]. rewrite (proj1 Ho'); [done|]. by rewrite list_elem_of_singleton.
Qed.

Lemma close_loop_effects c tree l pdas L u L' : tree_at L (vaddr tree) l ->
  c = mkPdaClose (tree_id l) (close_before_index (nullifier l)) -> close_loop c tree pdas L = (Ok u, L') ->
  effects L [] L'.
Proof.
  intros Hl Hc. revert L Hl. induction pdas as [|p pdas IH]; intros L Hl Hr; cbn [close_loop] in Hr; ix_inv; [constructor|].
  match goal with H : acc _ _ = _ |- _ => apply inert_lift in H as Hsame; apply mlift_ok in H as [_ ->] end.
  match goal with H : close_nullifier_pda _ _ _ _ = _ |- _ =>
    destruct (close_nullifier_pda_effect _ _ _ _ _ _ _ Hl Hc H) as [He Hl'] end.
  eapply (effects_cons _ []); [done|by apply IH].
Qed.

Lemma close_nullifier_pdas_does accounts data : views_ok accounts ->
  does [] (process_close_nullifier_pdas accounts data).
Proof.
  intros [_ Hlen] h L u L' Hg Hr. unfold process_close_nullifier_pdas in Hr. parse_inv.
  iter_facts.
  assert (is_u64 (Z.of_nat (iter_len a2 - iter_position a2))) as Hu.
  { rewrite iter_len_remaining. unfold in_width.
    repeat match goal with H : _ = _ :: _ |- _ => apply (f_equal length) in H; cbn [length] in H end. lia. }
  do 2 skip Hg. destruct (with_tree_run _ _ _ _ _ _ _ Hg H7) as (l & l' & Hl & Hrun & Hc & Ho).
  destruct (record_closed_run _ _ _ _ _ Hu Hrun) as (Hext & -> & Hn).
  assert (tree_at x4 (vaddr v1) l') as Hl'.
  { split; [done|]. destruct (good_tree _ _ _ _ Hg Hl) as [Hh _]. destruct (ex_holds _ _ _ Hext _ Hh) as [Hv _].
    split; [done|]. rewrite (ex_disc _ _ _ Hext). apply Hl. }
  apply (effects_trans _ [] x4 []); [by eapply tree_effects, only_frame|].
  apply (effects_trans _ [] x5 []); [|by apply same_core_effects; eapply inert_pay].
  eapply close_loop_effects; [done| |done]. by rewrite Hn, (ex_id _ _ _ Hext).
Qed.

(** ** Protocol and ring configs *)

Lemma verify_pda_derived key seeds bump : verify_pda key seeds ID = Ok bump -> derived seeds key.
Proof. unfold verify_pda. intros Hr. ix_inv. destruct_prods. ix_inv. subst. by eexists. Qed.

(** Loading a protocol config for writing gives a typed one. *)
Lemma load_protocol_config_mut_run v L cfg L' : load_protocol_config_mut v L = (Ok cfg, L') ->
  L' = L /\ valid config_codec cfg /\ pc_discriminator cfg = PROTOCOL_CONFIG /\
  forall cfg', valid config_codec cfg' -> pc_discriminator cfg' = PROTOCOL_CONFIG ->
    effects L [] (upd (vaddr v) (with_data (enc config_codec cfg')) L).
Proof.
  intros Hr. apply load_config_mut_run in Hr as (-> & d & Hc & Hl & -> & Hf). split; [done|].
  unfold valid_config_discriminator, pc_check_discriminator in Hf.
  destruct (Z.eqb_spec (pc_discriminator (dec config_codec d)) PROTOCOL_CONFIG) as [Hd|]; [|done].
  split; [by apply dec_valid|]. split; [done|]. intros cfg' Hv' Hd'.
  apply (store_effects config_codec PROTOCOL_CONFIG v L d); [set_solver|done..| |done|].
  - by rewrite (head_exact config_codec d Hl), head_config, Hd.
  - by rewrite head_config, Hd'.
Qed.

Lemma load_ring_config_mut_run v L cfg L' : load_ring_config_mut v L = (Ok cfg, L') ->
  L' = L /\ valid ring_codec cfg /\ rc_discriminator cfg = RING_CONFIG /\
  forall cfg', valid ring_codec cfg' -> rc_discriminator cfg' = RING_CONFIG ->
    effects L [] (upd (vaddr v) (with_data (enc ring_codec cfg')) L).
Proof.
  intros Hr. apply load_config_mut_run in Hr as (-> & d & Hc & Hl & -> & Hd%Z.eqb_eq). split; [done|].
  split; [by apply dec_valid|]. split; [done|]. intros cfg' Hv' Hd'.
  apply (store_effects ring_codec RING_CONFIG v L d); [set_solver|done..| |done|].
  - by rewrite (head_exact ring_codec d Hl), head_ring, Hd.
  - by rewrite head_ring, Hd'.
Qed.

Lemma create_protocol_config_does accounts data : does [] (process_create_protocol_config accounts data).
Proof.
  intros h L u L' Hg Hr. unfold process_create_protocol_config, protocol_config_init, create_pda_account in Hr. parse_inv.
  skip Hg. eapply create_init_effects; [done..|].
  match goal with H : verify_pda _ _ _ = Ok _ |- _ => apply verify_pda_derived in H end.
  match goal with H : try_from_bytes _ _ = Some _ |- _ => apply try_from_bytes_Some in H as (_ & _ & Hv); [|exact _] end.
  apply kind_config; [done| |done]. apply enc_size. destruct Hv as (? & ? & ? & ? & ? & ? & ? & ?).
  by split_and!.
Qed.

(** The decoded data has 32-byte authorities. *)
Definition update_typed (data : UpdateProtocolConfigData) : Prop :=
  match data with
  | ProtocolAuthority a | TreeCreationAuthority a | ForesterAuthority a | RingCreationAuthority a | FeeAuthority a =>
      is_bytes 32 a
  | _ => True
  end.

Lemma bool_u8_valid b : valid u8 (bool_u8 b).
Proof. by destruct b. Qed.

Lemma update_config_valid data c : update_typed data -> valid config_codec c ->
  valid config_codec (update_protocol_config data c) /\
  pc_discriminator (update_protocol_config data c) = pc_discriminator c.
Proof.
  intros Ht Hv. destruct c as [d pa ta fa ra fee tp rp sp n]. destruct Hv as (? & ? & ? & ? & ? & ? & ? & ? & ? & ?).
  destruct data as [| | | |[]|[]|[]|]; by split_and!.
Qed.

Lemma update_protocol_config_does accounts data : update_typed data ->
  does [] (process_update_protocol_config accounts data).
Proof.
  intros Ht h L u L' Hg Hr. unfold process_update_protocol_config, load_and_validate_protocol_authority_mut in Hr. parse_inv.
  skip Hg. match goal with H : load_protocol_config_mut _ _ = _ |- _ =>
    apply load_protocol_config_mut_run in H as (-> & Hv & Hd & He) end.
  unfold store_config in Hr. ix_inv. destruct (update_config_valid data _ Ht Hv) as [Hv' Hd']. apply He; congruence.
Qed.

Lemma create_ring_config_does accounts data : is_bytes 32 (cr_program_id data) -> is_bytes 32 (cr_authority data) ->
  does [] (process_create_ring_config accounts data).
Proof.
  intros Hp Ha h L u L' Hg Hr. unfold process_create_ring_config, ring_config_init, derive_ring_auth in Hr. parse_inv.
  skip Hg. eapply create_init_effects; [done..|]. apply kind_ring; [done|]. apply enc_size.
  match goal with H : derive_program_address _ _ = Some _ |- _ => apply derive_ok in H as [_ Hb] end.
  apply ring_valid. by split_and!; [..|apply bool_u8_valid|].
Qed.

Lemma set_ring_activation_does accounts data : does [] (process_set_ring_activation accounts data).
Proof.
  intros h L u L' Hg Hr. unfold process_set_ring_activation in Hr. parse_inv. skip Hg.
  match goal with H : load_ring_config_mut _ _ = _ |- _ => apply load_ring_config_mut_run in H as (-> & Hv & Hd & He) end.
  unfold store_config in Hr. ix_inv. apply ring_valid in Hv as (? & ? & ? & ? & ? & ? & ?). apply He; [|done].
  apply ring_valid. split_and!; try done; apply bool_u8_valid.
Qed.

Lemma update_ring_config_does accounts paused : does [] (process_update_ring_config accounts paused).
Proof.
  intros h L u L' Hg Hr. unfold process_update_ring_config, load_and_validate_ring_authority_mut in Hr. parse_inv.
  match goal with H : load_ring_config_mut _ _ = _ |- _ => apply load_ring_config_mut_run in H as (-> & Hv & Hd & He) end.
  unfold store_config in Hr. ix_inv. apply ring_valid in Hv as (? & ? & ? & ? & ? & ? & ?). apply He; [|done].
  apply ring_valid. split_and!; try done; apply bool_u8_valid.
Qed.

Lemma update_ring_config_owner_does accounts data : views_ok accounts ->
  does [] (process_update_ring_config_owner accounts data).
Proof.
  intros [Hviews _] h L u L' Hg Hr.
  unfold process_update_ring_config_owner, load_and_validate_ring_authority_mut in Hr. parse_inv.
  all: match goal with H : load_ring_config_mut _ _ = _ |- _ => apply load_ring_config_mut_run in H as (-> & Hv & Hd & He) end.
  all: unfold store_config in Hr; ix_inv; apply ring_valid in Hv as (? & ? & ? & ? & ? & ? & ?); apply He; [|done].
  all: apply ring_valid; split_and!; try done.
  all: by views_facts Hviews.
Qed.

(** ** Assets *)

Lemma counter_valid c : valid counter_codec c <->
  valid u8 (sc_discriminator c) /\ is_bytes 7 (sc_reserved c) /\ valid u64 (sc_next_id c).
Proof. reflexivity. Qed.

Lemma on_counter_run {X} v (m : M SplAssetCounter ProgramError X) L x L' : on_counter v m L = (Ok x, L') ->
  exists d c', core L (vaddr v) = (ID, d) /\ length d = csize counter_codec /\ m (dec counter_codec d) = (Ok x, c') /\
    L' = upd (vaddr v) (with_data (enc counter_codec c')) L.
Proof.
  unfold on_counter, store_config. intros Hr. ix_inv.
  match goal with H : load_spl_asset_counter_mut _ _ = _ |- _ => apply load_config_mut_run in H as (-> & d & Hc & Hl & -> & _) end.
  destruct (m _) as [r c'] eqn:Hm. ix_inv. subst r. by exists d, c'.
Qed.

Lemma create_asset_counter_does accounts data : does [] (process_create_asset_counter accounts data).
Proof.
  intros h L u L' Hg Hr. unfold process_create_asset_counter, create_pda_account in Hr. parse_inv. skip Hg.
  match goal with H : create_with_minimum_balance _ _ _ _ _ _ = _ |- _ =>
    destruct (create_minimum_run _ _ _ _ _ _ _ _ H) as (Hs & Hd & Hf & _) end.
  apply on_counter_run in Hr as (d & c' & Hc & Hl & Hm & ->). unfold sc_init in Hm. ix_inv.
  pose proof (dec_valid (c := counter_codec) d Hl) as (_ & Hres & _). apply effects_one.
  eapply eff_new; [exact Hs| | |eapply frame_trans; [exact Hf|apply frame_upd]].
  - rewrite core_with_data. unfold core in Hc. by injection Hc as ->.
  - apply kind_counter; [done|]. by apply enc_size, counter_valid.
Qed.

Lemma create_foreign_frame v space owner payer seeds L u L' : owner <> ID ->
  create_with_minimum_balance v space owner payer seeds L = (Ok u, L') -> frame [] L L'.
Proof.
  intros Ho Hr. destruct (create_minimum_run _ _ _ _ _ _ _ _ Hr) as (Hs & Hd & [Hk Hn Hc] & _). split; [| |done].
  - intros a d _ Had. apply Hk; [|done]. intros ->%list_elem_of_singleton. by apply core_system_ne in Had.
  - intros a d _ Had. apply Hn; [|done]. intros ->%list_elem_of_singleton. rewrite Hd in Had. by apply (f_equal fst) in Had.
Qed.

Lemma token_programs_not_pool p : p = SPL_TOKEN_PROGRAM_ID \/ p = SPL_TOKEN_2022_PROGRAM_ID -> p <> ID.
Proof. intros [-> | ->] H; apply (f_equal (fun x => bool_decide (x = ID))) in H; vm_compute in H; discriminate H. Qed.

Lemma mint_for_interface_program mint p L n L' : validate_token_mint_for_interface mint p L = (Ok n, L') -> p <> ID.
Proof.
  unfold validate_token_mint_for_interface. intros [Hb _]%require_ok. apply token_programs_not_pool.
  apply negb_true_iff, andb_false_iff in Hb. rewrite !negb_false_iff, !bool_decide_eq_true in Hb. done.
Qed.

Lemma registry_kind mint asset_id a : is_bytes 32 mint -> is_u64 asset_id ->
  kind [] a (enc registry_codec (sr_set mint asset_id (mkRegistry 0 (replicate 7 x00) zero32 0))).
Proof. intros Hm Hi. apply kind_registry; [done|]. apply enc_size. by split_and!. Qed.

Lemma allocate_asset_effects v L id L' :
  on_counter v (mbindM mget (fun counter =>
    mbindM (mlift (map_err (caused_by (pool InvalidSplAssetRegistry)) (sc_check_discriminator counter)))
      (fun _ => mmap_err (caused_by (pool InvalidSplAssetRegistry)) allocate_id))) L = (Ok id, L') ->
  effects L [] L' /\ is_u64 id.
Proof.
  intros (d & c' & Hc & Hl & Hm & ->)%on_counter_run. pose proof (dec_valid (c := counter_codec) d Hl) as Hv.
  destruct (proj1 (counter_valid _) Hv) as (_ & Hres & Hid). unfold sc_check_discriminator, allocate_id in Hm. ix_inv. breflect.
  set (c := dec counter_codec d) in *. rewrite valid_u64 in Hid. split; [|done].
  apply (store_effects counter_codec SPL_ASSET_COUNTER v L d); [set_solver|done..| | |].
  - rewrite (head_exact counter_codec d Hl), head_counter. fold c. congruence.
  - apply counter_valid. cbn [sc_discriminator sc_reserved sc_next_id]. split_and!; [|done|rewrite valid_u64; lia].
    match goal with H : sc_discriminator c = _ |- _ => by rewrite H end.
  - rewrite head_counter. cbn [sc_discriminator]. congruence.
Qed.

Lemma create_spl_interface_does accounts data : views_ok accounts -> does [] (process_create_spl_interface accounts data).
Proof.
  intros [Hviews _] h L u L' Hg Hr.
  unfold process_create_spl_interface, create_pda_account, registry_init, spl_interface_init in Hr. parse_inv.
  all: match goal with H : validate_token_mint_for_interface _ _ _ = _ |- _ =>
    pose proof (mint_for_interface_program _ _ _ _ _ H) as Hp end; do 2 skip Hg.
  all: match goal with H : on_counter _ _ _ = _ |- _ => apply allocate_asset_effects in H as [He Hid] end;
    views_facts Hviews.
  all: eapply (effects_trans _ [] _ []); [done|].
  all: eapply (effects_trans _ [] _ []); [by eapply create_init_effects; [..|apply registry_kind]|].
  all: eapply effects_one, eff_frame, frame_trans; [by eapply create_foreign_frame|by eapply token_invoke_frame].
Qed.

(** ** Caches *)

Lemma cache_valid c : valid cache_codec c <->
  valid u8 (ca_discriminator c) /\ valid u8 (ca_bump c) /\ is_bytes 2 (ca_tree_id c) /\ is_bytes 8 (ca_expires_at c) /\
  is_bytes 32 (ca_rent_sponsor c) /\ is_bytes 32 (ca_write_authority c) /\
  valid (array CACHE_CAPACITY (raw 32)) (ca_utxo_hashes c).
Proof. reflexivity. Qed.

Lemma verify_pda_bump key seeds bump : verify_pda key seeds ID = Ok bump -> valid u8 bump.
Proof.
  unfold verify_pda. intros Hr. ix_inv. destruct_prods. ix_inv.
  match goal with H : derive_program_address _ _ = _ |- _ => by apply derive_ok in H as [_ Hb] end.
Qed.

Lemma empty_slots_valid : valid (array CACHE_CAPACITY (raw 32)) (replicate CACHE_CAPACITY zero32).
Proof. split; [apply length_replicate|]. by apply Forall_replicate. Qed.

Lemma create_cache_does accounts ix : views_ok accounts -> is_bytes 32 (cc_write_authority ix) ->
  does [] (process_create_cache accounts ix).
Proof.
  intros [Hviews _] Hw h L u L' Hg Hr. unfold process_create_cache, create_pda_account, cache_init in Hr. parse_inv.
  destruct (owned_by _ _); parse_inv; [by skip Hg; constructor|].
  match goal with H : verify_pda _ _ _ = _ |- _ =>
    pose proof (verify_pda_bump _ _ _ H) as Hb; apply verify_pda_derived in H as Hder end.
  eapply create_init_effects; [done..|]. eapply kind_cache; [done| |done]. apply enc_size, cache_valid.
  views_facts Hviews.
  split_and!; [done|done|apply length_le_bytes|apply length_le_bytes|done|done|apply empty_slots_valid].
Qed.

Lemma load_cache_plain v L c L' : load_cache v L = (Ok c, L') ->
  L' = L /\ exists d, core L (vaddr v) = (ID, d) /\ plain d.
Proof.
  intros Hr. apply load_config_run in Hr as (-> & d & Hc & Hl & -> & Hd%Z.eqb_eq). split; [done|]. exists d. split; [done|].
  unfold plain. by rewrite (head_exact cache_codec d Hl), head_cache, Hd.
Qed.

Lemma close_cache_does accounts data : does [] (process_close_cache accounts data).
Proof.
  intros h L u L' Hg Hr. unfold process_close_cache in Hr. parse_inv.
  all: match goal with H : load_cache _ _ = _ |- _ => apply load_cache_plain in H as (-> & d & Hc & Hp) end.
  all: apply close_run in Hr as [Hs Ho]; apply effects_one; eapply eff_drop; [done..|].
  all: apply only_frame; eapply only_trans; [|done]; apply same_core_only; split; [|done]; intros b.
  all: by rewrite !core_upd_lamports.
Qed.

End handlers.
