(* ===== verification/PoolCreate.v ===== *)
(** * Creating a tree is a sequence of effects

    The steps of [process_create_tree]: the id is taken from the config, the
    account is allocated and its creation recorded, or it is grown, and in the
    last step the record is cleared and the tree initialised.  The check of the
    record rules out that an account of another type is grown or initialised: the
    record of a creation with valid parameters is never all zero, and derived
    addresses do not collide. *)

From S2P Require Import Prelude ZeroBytes Hasher HashChain MerkleSpec Codec Smt Batch NullifierTree NullifierQueue NullifierSafety TreeAccount TreeTypes TreeSafety Errors TreeSlot Ledger AccountChecks State Event Shared NullifierPdas CreateTree Cache Configs Settlement TreeTrace PoolMachine PoolSteps PoolHandlers.

(** ** Bytes *)

Lemma lookup_write_at off new bs i : (off + length new <= length bs)%nat ->
  write_at off new bs !! i =
    if decide (off <= i < off + length new)%nat then new !! (i - off)%nat else bs !! i.
Proof.
  intros Hl. unfold write_at. assert (length (take off bs) = off) as Ht by (rewrite length_take; lia).
  destruct (decide (i < off)%nat) as [Hi|Hi].
  - rewrite lookup_app_l, lookup_take_lt, decide_False by lia. done.
  - rewrite lookup_app_r, Ht by lia. case_decide as Hd.
    + by rewrite lookup_app_l by lia.
    + rewrite lookup_app_r, lookup_drop by lia. f_equal. lia.
Qed.

Lemma length_write_at off new bs : (off + length new <= length bs)%nat -> length (write_at off new bs) = length bs.
Proof. intros Hl. unfold write_at. rewrite !length_app, length_take, length_drop. lia. Qed.

(** Clearing the record of a creation leaves zeros. *)
Lemma clear_blank d : (pending_end <= length d)%nat -> blank d ->
  write_at utxo_tree_offset (replicate (32 + csize create_tree_codec) x00) d = replicate (length d) x00.
Proof.
  intros Hl Hb. symmetry. apply replicate_as_elem_of.
  assert (utxo_tree_offset + length (replicate (32 + csize create_tree_codec) x00) = pending_end)%nat as He.
  { rewrite length_replicate. unfold pending_end. lia. }
  split; [apply length_write_at; lia|]. intros x [i Hi]%list_elem_of_lookup. rewrite lookup_write_at in Hi by lia.
  case_decide as Hd; [by apply lookup_replicate in Hi as [-> _]|]. apply (Hb i x Hi). lia.
Qed.

Lemma record_blank payer data n : is_bytes 32 payer -> length data = csize create_tree_codec -> (pending_end <= n)%nat ->
  let d := write_at utxo_tree_offset (payer ++ data) (replicate n x00) in head d = Some x00 /\ blank d.
Proof.
  intros Hp Hd Hn d. assert (utxo_tree_offset + length (payer ++ data) = pending_end)%nat as He.
  { rewrite length_app, Hp, Hd. unfold pending_end. lia. }
  assert (forall i, (i < n)%nat -> (i < utxo_tree_offset \/ pending_end <= i)%nat -> d !! i = Some x00) as Hz.
  { intros i Hi Hout. unfold d. rewrite lookup_write_at by (rewrite length_replicate; lia).
    rewrite decide_False by lia. by apply lookup_replicate. }
  split.
  - assert (d !! 0%nat = Some x00) as H0 by (apply Hz; unfold pending_end, utxo_tree_offset in *; lia).
    by destruct d.
  - intros i b Hb Hout. assert (i < n)%nat as Hi.
    { apply lookup_lt_Some in Hb. unfold d in Hb. rewrite length_write_at, length_replicate in Hb; [done|].
      rewrite length_replicate. lia. }
    rewrite (Hz i Hi Hout) in Hb. congruence.
Qed.

(** Valid creation data is not all zero. *)
Lemma zero_params_invalid : params_validate (ct_nullifier_params
  (dec create_tree_codec (replicate (csize create_tree_codec) x00))) <> Ok tt.
Proof. vm_compute. done. Qed.

Section create.
Context `{SP : SolPoseidon} `{G : Groth16} `{W : Wincode} `{R : Runtime} `{TP : TokenProgram} {LG : HashLog}.
Context {HT : PoseidonTotal SP} {HS : PoseidonSized SP} {HF : PoseidonField SP} {HZ : ZeroBytesLaw Poseidon.Poseidon} {HW : WincodeLaw W}
  {RL : RuntimeLaws R} {TL : TokenLaws TP} {PD : PdaDisjoint R}.

(** ** The record of a creation *)

(** The data [d], grown to [d']. *)
Definition grown (d d' : bytes) : Prop := d' = d \/ d !! 1%nat = Some x00 /\ exists n, d' = d ++ replicate n x00.

Lemma grown_lookup d d' i b : grown d d' -> d !! i = Some b -> d' !! i = Some b.
Proof. intros [->|[_ [n ->]]] Hi; [done|]. by rewrite lookup_app_l by (by apply lookup_lt_Some in Hi). Qed.

(** Data below the record's offset, grown: the record is zero. *)
Lemma grown_small d d' m : grown d d' -> (length d <= utxo_tree_offset + 32)%nat ->
  (utxo_tree_offset + 32 + m <= length d')%nat -> (0 < m)%nat ->
  slice (utxo_tree_offset + 32) m d' = replicate m x00.
Proof.
  intros [->|[_ [n ->]]] Hs Hl Hm; [lia|]. unfold slice. rewrite length_app, length_replicate in Hl.
  rewrite drop_app_ge, drop_replicate, take_replicate by lia. f_equal. lia.
Qed.

(** An account that passes the check is a tree under construction. *)
Lemma pending_is_blank vs a d d' id ix_data : kind vs a d -> derived (tree_seeds id) a -> grown d d' ->
  d' !! 1%nat = Some x00 -> length ix_data = csize create_tree_codec ->
  (utxo_tree_offset + 32 + length ix_data <= length d')%nat ->
  slice (utxo_tree_offset + 32) (length ix_data) d' = ix_data ->
  params_validate (ct_nullifier_params (dec create_tree_codec ix_data)) = Ok tt ->
  head d = Some x00 /\ vs = [] /\ blank d.
Proof.
  intros Hk [b Hder] Hgr H1 Hlen Hfit Hslice Hparams.
  assert (forall n, length d = n -> (n <= utxo_tree_offset + 32)%nat -> False) as Hsmall.
  { intros n Hn Hle. apply zero_params_invalid. rewrite <- Hparams. do 3 f_equal. rewrite <- Hlen.
    rewrite <- Hslice at 2. symmetry. apply (grown_small d); [done|lia|done|]. rewrite Hlen. vm_compute. lia. }
  destruct Hk as [a|a d Hh Hb|vs a l Hd Hl Ha|a d Hh Hl [b' Ha]|a d Hh Hl|a d Hh Hl|a d Hh Hl|a d s n Hh Hl [b' Ha]|a r].
  - by destruct (Hsmall 0%nat eq_refl); [unfold utxo_tree_offset; lia].
  - done.
  - exfalso. destruct Hl as (Hv & ZB & q & Hq). pose proof (ai_state _ _ (ts_account _ _ _ _ Hq)) as Hst.
    assert (enc layout_codec l !! 1%nat = Some (byte_of (tree_state l))) as Hs by done.
    rewrite (grown_lookup _ _ _ _ Hgr Hs) in H1. by destruct Hst as [Hst|Hst]; rewrite Hst in H1.
  - by destruct (tree_config_disjoint _ _ _ _ Hder Ha).
  - by destruct (Hsmall _ Hl); [vm_compute; lia].
  - by destruct (Hsmall _ Hl); [vm_compute; lia].
  - by destruct (Hsmall _ Hl); [vm_compute; lia].
  - by destruct (tree_cache_disjoint _ _ _ _ _ _ Hder Ha).
  - by destruct (Hsmall _ (length_to_account_data r)); [vm_compute; lia].
Qed.

(** ** The steps *)

Lemma take_tree_id_effects v authority unallocated id L u L' : 0 <= id ->
  take_tree_id v authority unallocated id L = (Ok u, L') -> effects L [] L'.
Proof.
  intros Hid Hr. unfold take_tree_id, store_config in Hr. ix_inv.
  all: match goal with H : load_protocol_config_mut _ _ = _ |- _ =>
    apply load_protocol_config_mut_run in H as (-> & Hv & Hd & He) end.
  2: by constructor.
  apply He; [|done].
  destruct (proj1 (config_valid _) Hv) as (? & ? & ? & ? & ? & ? & ? & ? & ? & ?). apply config_valid.
  split_and!; try done. rewrite valid_u16. cbn [next_tree_id with_next_tree_id]. lia.
Qed.

(** A system-owned, empty account becomes the program's, with zeroed data. *)
Lemma allocate_tree_run payer tree seed bump full lamports L u L' :
  allocate_tree payer tree seed bump full lamports L = (Ok u, L') ->
  core L (vaddr tree) = (SYSTEM_PROGRAM, []) /\ only [vaddr tree] L L' /\
  core L' (vaddr tree) = (ID, replicate (Z.to_nat (Z.min full TREE_ALLOCATION_STEP)) x00).
Proof.
  intros Hr. unfold allocate_tree in Hr. ix_inv. destruct (_ =? 0); ix_inv.
  - apply create_account_ok in Hr as (Ho & Hd & _ & _ & _ & ->). split; [unfold core; by rewrite Ho, Hd|].
    split; [|apply core_created]. eapply only_trans; [|apply only_upd]. apply same_core_only. split; [|done].
    intros a. by apply core_upd_lamports.
  - match goal with H : sys_allocate _ _ _ _ = _ |- _ => apply allocate_ok in H as (Ho & Hd & ->) end.
    match goal with H : sys_assign _ _ _ _ = _ |- _ => apply assign_ok in H as -> end.
    apply inert_fund_tree in Hr as Hs. split; [unfold core; by rewrite Ho, Hd|]. split.
    + eapply only_trans; [|by apply same_core_only]. eapply only_trans; [|apply only_upd]. apply only_upd.
    + rewrite (proj1 Hs), core_upd_eq, accounts_upd_eq. done.
Qed.

(** The new account holds the record of its creation. *)
Lemma allocate_record_effects payer tree seed bump full lamports p L u L1 u' L2 :
  is_bytes 32 (pending_payer p) -> length (pending_data p) = csize create_tree_codec ->
  allocate_tree payer tree seed bump full lamports L = (Ok u, L1) -> pending_record p tree L1 = (Ok u', L2) ->
  effects L [] L2 /\ exists d, core L2 (vaddr tree) = (ID, d) /\ head d = Some x00 /\ (pending_end <= length d)%nat.
Proof.
  intros Hp Hd Ha Hr. apply allocate_tree_run in Ha as (Hs & Ho & Hc).
  unfold pending_record, slots in Hr. ix_inv.
  match goal with H : (_ <=? _)%nat = true |- _ => apply Nat.leb_le in H as Hfit end.
  assert (acct_data (accounts L1 (vaddr tree)) = replicate (Z.to_nat (Z.min full TREE_ALLOCATION_STEP)) x00) as Hdata.
  { unfold core in Hc. by apply (f_equal snd) in Hc. }
  assert (acct_owner (accounts L1 (vaddr tree)) = ID) as Hown by (unfold core in Hc; by apply (f_equal fst) in Hc).
  rewrite Hdata in *. rewrite length_replicate, Hd in Hfit.
  destruct (record_blank (pending_payer p) (pending_data p) (Z.to_nat (Z.min full TREE_ALLOCATION_STEP)) Hp Hd) as [Hh Hb];
    [unfold pending_end; lia|].
  set (d := write_at _ _ _) in *.
  assert (core (upd (vaddr tree) (with_data d) L1) (vaddr tree) = (ID, d)) as Hcore by (by rewrite core_with_data, Hown).
  split; [|exists d; split_and!; [done..|]].
  - apply effects_one. eapply eff_new; [done|done|by apply kind_blank|].
    apply only_frame. eapply only_trans; [done|apply only_upd].
  - unfold d. rewrite length_write_at, length_replicate; [unfold pending_end; lia|].
    rewrite length_app, length_replicate, Hp, Hd. lia.
Qed.

Lemma grow_tree_run tree full L u L' : full < 2 ^ 64 -> grow_tree tree full L = (Ok u, L') ->
  exists d d', core L (vaddr tree) = (ID, d) /\ core L' (vaddr tree) = (ID, d') /\ grown d d' /\ only [vaddr tree] L L'.
Proof.
  intros Hfull Hr. unfold grow_tree, owned_by in Hr. ix_inv. breflect.
  match goal with H : acct_owner _ = ID |- _ => rename H into Hown end.
  set (d := acct_data (accounts L (vaddr tree))) in *.
  assert (core L (vaddr tree) = (ID, d)) as Hc by (unfold core; by rewrite Hown).
  destruct (Z.leb_spec full (Z.of_nat (length d))); ix_inv.
  - exists d, d. split_and!; [done..|by left|by apply same_core_only].
  - apply resize_ok in Hr as ->. eexists d, _. split_and!; [done| | |apply only_upd].
    + rewrite core_upd_eq. cbn [acct_owner acct_data with_data]. rewrite Hown. done.
    + right. split; [done|]. unfold resized. fold d. rewrite take_ge; [by eexists|].
      unfold saturating_add, TREE_ALLOCATION_STEP. lia.
Qed.

Lemma grown_blank d d' : grown d d' -> head d = Some x00 -> blank d -> head d' = Some x00 /\ blank d'.
Proof.
  intros [->|[_ [n ->]]] Hh Hb; [done|]. split; [by destruct d|]. intros i b Hi Hout.
  apply lookup_app_Some in Hi as [Hi|[_ Hi]]; [by apply (Hb i)|]. by apply lookup_replicate in Hi as [-> _].
Qed.

Lemma zero_head_plain d : head d = Some x00 -> plain d.
Proof. intros Hh. unfold plain. rewrite Hh. split; intros He; discriminate He. Qed.

(** The data of a creation: its encoding, and valid parameters. *)
Definition creation_data (ix_data : bytes) (data : CreateTreeData) : Prop :=
  length ix_data = csize create_tree_codec /\ data = dec create_tree_codec ix_data /\
  params_validate (ct_nullifier_params data) = Ok tt.

Lemma grow_check_effects p tree data L u L1 u' L2 : derived (tree_seeds (ct_tree_id data)) (vaddr tree) ->
  creation_data (pending_data p) data -> grow_tree tree account_size L = (Ok u, L1) ->
  pending_check p tree L1 = (Ok u', L2) ->
  effects L [] L2 /\ exists d, core L2 (vaddr tree) = (ID, d) /\ (pending_end <= length d)%nat /\
    forall vs, kind vs (vaddr tree) d -> head d = Some x00 /\ vs = [].
Proof.
  intros Hder (Hlen & -> & Hparams) Hgrow Hcheck.
  destruct (grow_tree_run tree account_size L u L1 eq_refl Hgrow) as (d & d' & Hc & Hc' & Hgr & Ho).
  unfold pending_check, slots in Hcheck. ix_inv. cbn [byte_of UNINITIALIZED] in *.
  assert (acct_data (accounts L1 (vaddr tree)) = d') as Hd' by (unfold core in Hc'; by apply (f_equal snd) in Hc').
  rewrite Hd' in *. match goal with H : (_ <=? _)%nat = true |- _ => apply Nat.leb_le in H as Hfit end.
  match goal with H : slice _ (length _) _ = _ |- _ => rename H into Hslice end.
  match goal with H : d' !! _ = Some _ |- _ => rename H into H1 end.
  split.
  - apply effects_one. eapply (eff_write L (vaddr tree) d d'); [done|done| |by apply only_frame].
    intros vs Hk. destruct (pending_is_blank _ _ _ d' _ _ Hk Hder Hgr H1 Hlen Hfit Hslice Hparams) as (Hh & -> & Hb).
    split; [by apply zero_head_plain|]. destruct (grown_blank _ _ Hgr Hh Hb). by apply kind_blank.
  - exists d'. split; [done|]. split; [unfold pending_end; lia|]. intros vs Hk.
    destruct (pending_is_blank _ _ _ d' _ _ Hk Hder (or_introl eq_refl) H1 Hlen Hfit Hslice Hparams) as (? & ? & _). done.
Qed.

(** Initialising the zeroed account gives a tree with an empty history. *)
Lemma init_holds key id p f t : init_args_ok TREE_ACCOUNT_DISCRIMINATOR id p f ->
  init zero_account TREE_ACCOUNT_DISCRIMINATOR STATE_HEIGHT key id p f = Ok t ->
  tree_holds [] (layout t) /\ discriminator (layout t) = TREE_ACCOUNT_DISCRIMINATOR /\ tree_id (layout t) = id.
Proof.
  intros Hargs Hinit. pose proof (init_typed _ _ _ _ _ _ _ _ Hargs Hinit) as Hv.
  destruct (init_ok_params _ _ _ _ _ _ _ _ Hinit) as [Hp Hf].
  destruct (init_account_lemma TREE_ACCOUNT_DISCRIMINATOR key id p f Hp Hf) as (l & r & ZB & Hi & _ & HZB & _ & Hu & Hn & Hl).
  change (Z.of_nat UTXO_TREE_HEIGHT) with STATE_HEIGHT in Hi. rewrite Hi in Hinit. injection Hinit as <-. cbn [layout] in *.
  split; [|by rewrite Hl]. split; [done|]. exists ZB, queue0. split; [done| |done|done|].
  2:{ split; [|by intros]. by intros [|j] old new _ Hj. }
  destruct Hargs as (_ & _ & _ & _ & (Hf1 & Hf2 & Hf3)%fees_parts). rewrite !valid_u64 in *. rewrite Hl.
  split; cbn [utxo nullifier fees fee_balance live_nullifier_pdas tree_state]; eauto; unfold in_width; try lia.
Qed.

Lemma init_length d disc height key id p f t : init d disc height key id p f = Ok t ->
  Z.of_nat (length d) = account_size.
Proof. unfold init. intros Hi. ix_inv. by apply Z.eqb_eq. Qed.

Lemma creation_args ix_data : length ix_data = csize create_tree_codec ->
  let data := dec create_tree_codec ix_data in
  init_args_ok TREE_ACCOUNT_DISCRIMINATOR (ct_tree_id data) (ct_nullifier_params data) (ct_fees data).
Proof.
  intros Hl data. destruct (dec_valid (c := create_tree_codec) ix_data Hl) as (? & ? & ? & ? & ?). by split_and!.
Qed.

Lemma zero_head_blank vs a d : kind vs a d -> head d = Some x00 -> blank d.
Proof.
  intros Hk Hh. destruct Hk as [|? ? ? ?|? ? ? Hd' _ _|? ? Hh'|? ? Hh'|? ? Hh'|? ? Hh'|? ? ? ? Hh'|];
    try done; try (rewrite Hh' in Hh; discriminate Hh). rewrite head_layout, Hd' in Hh. discriminate Hh.
Qed.

(** The last step turns a blank account into a tree with an empty history. *)
Lemma finish_run h p payer tree lamports data d L u L1 u1 L2 u2 L3 :
  good h L -> creation_data (pending_data p) data ->
  core L (vaddr tree) = (ID, d) -> (pending_end <= length d)%nat ->
  (forall vs, kind vs (vaddr tree) d -> head d = Some x00 /\ vs = []) ->
  pending_clear p tree L = (Ok u, L1) -> fund_tree payer tree lamports L1 = (Ok u1, L2) ->
  init_tree tree data L2 = (Ok u2, L3) ->
  only [vaddr tree] L L3 /\ exists l, core L3 (vaddr tree) = (ID, enc layout_codec l) /\ tree_holds [] l /\
    discriminator l = TREE_ACCOUNT_DISCRIMINATOR /\ tree_id l = ct_tree_id data.
Proof.
  intros Hg (Hlen & Hdata & Hparams) Hc Hfit Hblank Hclear Hfund Hinit.
  assert (acct_owner (accounts L (vaddr tree)) = ID /\ d = acct_data (accounts L (vaddr tree))) as [Hown Hd].
  { unfold core in Hc. split; [by apply (f_equal fst) in Hc|by apply (f_equal snd) in Hc]. }
  destruct (Hblank _ (gd_kind _ _ Hg _ _ Hc)) as [Hh _].
  pose proof (zero_head_blank _ _ _ (gd_kind _ _ Hg _ _ Hc) Hh) as Hb.
  unfold pending_clear, slots in Hclear. ix_inv.
  set (d := acct_data (accounts L (vaddr tree))) in *.
  rewrite Hlen, clear_blank in Hfund by done. apply inert_fund_tree in Hfund as Hs.
  unfold init_tree in Hinit. ix_inv.
  assert (core L2 (vaddr tree) = (ID, replicate (length d) x00)) as Hc2.
  { rewrite (proj1 Hs), core_with_data, Hown. done. }
  assert (acct_data (accounts L2 (vaddr tree)) = replicate (length d) x00) as Hd2.
  { unfold core in Hc2. by apply (f_equal snd) in Hc2. }
  match goal with H : init _ _ _ _ _ _ _ = Ok _ |- _ => rewrite Hd2 in H; rename H into Hi end.
  pose proof (init_length _ _ _ _ _ _ _ _ Hi) as Hl. rewrite length_replicate in Hl.
  assert (length d = csize layout_codec) as Hl' by (by apply Nat2Z.inj). rewrite Hl' in Hi.
  destruct (init_holds _ _ _ _ _ (creation_args _ Hlen) Hi) as (Hholds & Hdisc & Hid). split.
  - eapply only_trans; [|apply only_upd]. eapply only_trans; [apply only_upd|by apply same_core_only].
  - eexists. split; [|by split_and!]. rewrite core_with_data. unfold core in Hc2. apply (f_equal fst) in Hc2.
    cbn [fst] in Hc2. by rewrite Hc2.
Qed.

Lemma finish_effects h p payer tree lamports data d L u L1 u1 L2 u2 L3 :
  good h L -> creation_data (pending_data p) data -> derived (tree_seeds (ct_tree_id data)) (vaddr tree) ->
  core L (vaddr tree) = (ID, d) -> (pending_end <= length d)%nat ->
  (forall vs, kind vs (vaddr tree) d -> head d = Some x00 /\ vs = []) ->
  pending_clear p tree L = (Ok u, L1) -> fund_tree payer tree lamports L1 = (Ok u1, L2) ->
  init_tree tree data L2 = (Ok u2, L3) -> effects L [] L3.
Proof.
  intros Hg Hcd Hder Hc Hfit Hblank Hclear Hfund Hinit.
  destruct (finish_run _ _ _ _ _ _ _ _ _ _ _ _ _ _ Hg Hcd Hc Hfit Hblank Hclear Hfund Hinit) as (Ho & l & Hc3 & Hh & Hd & Hid).
  apply effects_one. eapply (eff_write L (vaddr tree) d (enc layout_codec l)); [done..| |by apply only_frame].
  intros vs Hk. destruct (Hblank vs Hk) as [Hz ->]. split; [by apply zero_head_plain|]. apply kind_tree; [done..|]. by rewrite Hid.
Qed.

(** The branch of the processor: a new account is allocated, another is grown. *)
Lemma allocate_or_grow_effects h (unallocated : bool) payer tree seed bump lamports p data L u L' :
  good h L -> is_bytes 32 (pending_payer p) -> creation_data (pending_data p) data ->
  derived (tree_seeds (ct_tree_id data)) (vaddr tree) ->
  (if unallocated then
     mbindM (allocate_tree payer tree seed bump account_size lamports) (fun _ => pending_record p tree)
   else mbindM (grow_tree tree account_size) (fun _ => pending_check p tree)) L = (Ok u, L') ->
  effects L [] L' /\ exists d, core L' (vaddr tree) = (ID, d) /\ (pending_end <= length d)%nat /\
    forall vs, kind vs (vaddr tree) d -> head d = Some x00 /\ vs = [].
Proof.
  intros Hg Hp Hdata Hder Hr. destruct unallocated; ix_inv; [|by eapply grow_check_effects].
  destruct (allocate_record_effects payer tree seed bump account_size lamports p L x x0 u L') as (He & d & Hc & Hh & Hl);
    [done|apply Hdata|done..|]. split; [done|]. exists d. split_and!; [done..|]. intros vs Hk. split; [done|].
  destruct (decide (vs = [])) as [|Hne]; [done|]. apply kind_is_tree in Hk as (l & -> & Hd & _); [|by right].
  rewrite head_layout, Hd in Hh. discriminate Hh.
Qed.

Lemma create_tree_does accounts ix_data : views_ok accounts -> does [] (process_create_tree accounts ix_data).
Proof.
  intros [Hviews _] h L u L' Hg Hr. unfold process_create_tree in Hr. parse_inv.
  match goal with H : try_from_bytes _ _ = Some _ |- _ => apply try_from_bytes_Some in H as (Hlen & Hdata & Hv); [|exact _] end.
  match goal with H : verify_pda _ _ _ = Ok _ |- _ => apply verify_pda_derived in H as Hder end.
  match goal with H : params_validate _ = Ok ?y |- _ => destruct y; rename H into Hparams end.
  set (p := mkPending (vaddr v) ix_data) in *. views_facts Hviews.
  assert (creation_data (pending_data p) x) as Hcd by done.
  assert (0 <= ct_tree_id x) as Hid.
  { destruct Hv as (Hid & _). rewrite valid_u16 in Hid. apply Hid. }
  match goal with H : take_tree_id _ _ _ _ _ = _ |- _ => apply (take_tree_id_effects _ _ _ _ _ _ _ Hid) in H as He1 end.
  pose proof (effects_good _ _ _ _ Hg He1) as Hg1.
  match goal with H : (if is_unallocated _ then _ else _) _ = _ |- _ =>
    destruct (allocate_or_grow_effects _ _ _ _ _ _ _ p x _ _ _ Hg1 ltac:(done) Hcd Hder H) as (He2 & d & Hc & Hfit & Hblank) end.
  pose proof (effects_good _ _ _ _ Hg1 He2) as Hg2.
  apply (effects_trans _ [] _ [] _ He1). apply (effects_trans _ [] _ [] _ He2).
  destruct (_ <? account_size); ix_inv; [constructor|]. by eapply (finish_effects _ p).
Qed.

End create.
