(* ===== verification/PoolSpend.v ===== *)
(** * The spending instructions

    Transact and merge: parsing the accounts leaves the ledger as it is, then each
    input tree queues its nullifiers and their PDAs are created, and everything
    after that (the output tree, caches, settlement, events) spends nothing.
    Deposits are here too, since they share settlement. *)

From S2P Require Import Prelude ZeroBytes Hasher HashChain Codec Smt Batch NullifierTree NullifierQueue NullifierSafety TreeAccount TreeTypes TreeSafety Errors TreeSlot Ledger AccountChecks State Event Shared NullifierPdas Circuit UserRegistry Cache Configs Settlement Merge TransactProof Transact Deposit Program TreeTrace PoolMachine PoolSteps PoolHandlers.

Section spend.
Context `{SP : SolPoseidon} `{SH : SolHash} `{G : Groth16} `{PG : PoolGroth16} `{W : Wincode} `{R : Runtime}
  {LG : HashLog} `{TP : TokenProgram} `{F : ArkFr} `{KM : KeyMetadata} `{A : ArrayMapLib}.
Context {HT : PoseidonTotal SP} {HS : PoseidonSized SP} {HF : PoseidonField SP} {HZ : ZeroBytesLaw Poseidon.Poseidon}
  {HW : WincodeLaw W} {RL : RuntimeLaws R} {TL : TokenLaws TP}.

(** A successful run from a good ledger spends [sps], each tree once, then changes
    no history. *)
Definition spending {X} (sps : list (bytes * list bytes)) (m : Ix X) : Prop :=
  forall h L a L', good h L -> m L = (Ok a, L') ->
  NoDup (map fst sps) /\ exists L0 L1, same_core L L0 /\ spend_seq L0 sps L1 /\ effects L1 [] L'.

Lemma does_spending {X} (m : Ix X) : does [] m -> spending [] m.
Proof. intros Hm h L a L' Hg Hr. split; [constructor|]. exists L, L. split; [done|]. split; [constructor|by eapply Hm]. Qed.

Lemma spending_then {X Y} sps (m : Ix X) (k : X -> Ix Y) :
  inert m -> (forall a, spending sps (k a)) -> spending sps (mbindM m k).
Proof.
  intros Hm Hk h L b L' Hg (a & L1 & H1 & H2)%mbindM_ok. pose proof (Hm _ _ _ H1) as Hs.
  destruct (Hk a h L1 b L' (same_core_good _ _ _ Hs Hg) H2) as (? & L2 & L3 & Hs' & ? & ?). split; [done|]. exists L2, L3.
  split; [by eapply same_core_trans|done].
Qed.

(** ** Caches *)

Definition is_cache (L : Ledger) (v : View) : Prop :=
  exists d, core L (vaddr v) = (ID, d) /\ length d = csize cache_codec /\ head d = Some (byte_of CACHE).

Lemma cache_keeps L L' v : keeps L L' -> is_cache L v -> is_cache L' v.
Proof.
  intros Hk (d & Hc & Hl & Hh). exists d. split_and!; [|done..]. apply Hk; [done|]. unfold plain. by rewrite Hh.
Qed.

Lemma same_core_keeps L L' : same_core L L' -> keeps L L'.
Proof. intros [Hs _] a d Hd _. by rewrite Hs. Qed.

Lemma seq_keeps L sps L' : spend_seq L sps L' -> keeps L L'.
Proof. induction 1 as [|L T vs L1 sps L2 Hs _ IH]; [by intros a d|]. eapply keeps_trans; [by eapply spend_keeps|done]. Qed.

Lemma cache_write_load_cache v writer now L v' L' : cache_write_load v writer now L = (Ok v', L') -> v' = v /\ is_cache L v.
Proof.
  unfold cache_write_load. intros Hr. ix_inv. split; [done|].
  match goal with H : load_cache_mut _ _ = _ |- _ => apply load_config_mut_run in H as (-> & d & Hc & Hl & -> & Hd%Z.eqb_eq) end.
  exists d. split_and!; [done..|]. by rewrite (head_exact cache_codec d Hl), head_cache, Hd.
Qed.

Lemma cache_mutable : CACHE ∈ [PROTOCOL_CONFIG; RING_CONFIG; SPL_ASSET_COUNTER; CACHE].
Proof. set_solver. Qed.

Lemma slots_insert_valid n i x l : valid (array n (raw 32)) l -> is_bytes 32 x ->
  valid (array n (raw 32)) (<[i := x]> l).
Proof. intros [Hl Hf] Hx. split; [by rewrite length_insert|by apply Forall_insert]. Qed.

Lemma cache_write_effects v slot hash L u L' : is_cache L v -> is_bytes 32 hash ->
  cache_write v slot hash L = (Ok u, L') -> effects L [] L' /\ is_cache L' v.
Proof.
  intros (d & Hc & Hl & Hh) Hhash Hr. unfold cache_write, cache_write_state in Hr. ix_inv.
  assert (acct_data (accounts L (vaddr v)) = d) as Hd by (unfold core in Hc; by apply (f_equal snd) in Hc).
  rewrite Hd in *. pose proof (dec_valid (c := cache_codec) d Hl) as Hv.
  destruct (proj1 (cache_valid _) Hv) as (Hv1 & Hv2 & Hv3 & Hv4 & Hv5 & Hv6 & Hv7).
  set (c := dec cache_codec d) in *. set (c' := set_slot _ _ c).
  assert (valid cache_codec c') as Hv'.
  { apply cache_valid. split_and!; [done..|]. by apply slots_insert_valid. }
  assert (head (enc cache_codec c') = Some (byte_of CACHE)) as Hh'.
  { rewrite <- Hh, (head_exact cache_codec d Hl), !head_cache. done. }
  split; [exact (store_effects cache_codec CACHE v L d c' cache_mutable Hc Hl Hh Hv' Hh')|].
  exists (enc cache_codec c'). split_and!; [|by apply enc_size|done].
  rewrite core_with_data. unfold core in Hc. apply (f_equal fst) in Hc. cbn [fst] in Hc. by rewrite Hc.
Qed.

Lemma write_entries_effects v outputs entries L u L' : is_cache L v ->
  Forall (fun o => is_bytes 32 (to_utxo_hash o)) outputs ->
  write_entries v outputs entries L = (Ok u, L') -> effects L [] L'.
Proof.
  intros Hc Ho. revert L Hc. induction entries as [|e entries IH]; intros L Hc Hr; cbn [write_entries] in Hr; ix_inv; [constructor|].
  match goal with H : cache_write _ _ _ _ = _ |- _ => apply cache_write_effects in H as [He Hc']; [|done|] end.
  - apply (effects_trans _ [] _ [] _ He). by apply IH.
  - by eapply Forall_lookup_1 in Ho.
Qed.

(** ** Settlement *)

(** A token program is not the pool. *)
Definition settlement_ok (s : Settlement) : Prop :=
  match s with
  | SplDeposit a => vaddr (sd_token_program_account a) <> ID
  | SplWithdrawal a => vaddr (sw_token_program_account a) <> ID
  | _ => True
  end.

Lemma spl_settlement_program mint interface user program bump L r L' :
  validate_spl_settlement mint interface user program bump L = (Ok r, L') -> vaddr program <> ID.
Proof.
  unfold validate_spl_settlement, read_token_account, validate_token_program. intros Hr. ix_inv. breflect.
  by apply token_programs_not_pool.
Qed.

Lemma does_token_invoke program metas data seeds : vaddr program <> ID -> does [] (token_invoke program metas data seeds).
Proof. intros Hp h L u L' Hg Hr. by eapply effects_one, eff_frame, token_invoke_frame. Qed.

Lemma settle_does s amount : settlement_ok s -> does [] (settle s amount).
Proof.
  intros Hs. destruct s as [a|a|a|a]; cbn [settle settlement_ok] in *; unfold settle_spl_deposit, settle_spl_withdrawal, spl_transfer.
  - apply inert_does, inert_settle_sol.
  - apply inert_does, inert_settle_sol.
  - doing. apply (does_bind [] []); [by apply does_token_invoke|]. intros _. doing.
  - by apply does_token_invoke.
Qed.

Lemma settle_interface_transfers_does legs : Forall (fun l => settlement_ok l.2) legs ->
  does [] (settle_interface_transfers legs).
Proof.
  induction 1 as [|[t s] legs Hs _ IH]; cbn [settle_interface_transfers]; [apply inert_does, inert_ret|]. doing.
  apply (does_bind [] []); [by apply settle_does|done].
Qed.

Lemma parse_settlement_ok t it s it' L L' : parse_settlement t it L = (Ok (s, it'), L') -> settlement_ok s.
Proof.
  destruct t; cbn [parse_settlement]; unfold validate_spl_deposit_settlement, validate_spl_withdrawal_settlement;
    intros Hr; parse_inv; try done; by eapply spl_settlement_program.
Qed.

Lemma parse_settlements_ok ts ss it ss' it' L L' : Forall settlement_ok ss ->
  parse_settlements ts ss it L = (Ok (ss', it'), L') -> Forall settlement_ok ss'.
Proof.
  revert ss it L. induction ts as [|t ts IH]; intros ss it L Hss Hr; cbn [parse_settlements] in Hr; parse_inv; [done|].
  eapply IH; [|done]. match goal with H : try_push _ _ _ = Some _ |- _ => unfold try_push in H end.
  case_match; simplify_eq. apply Forall_app_2; [done|]. constructor; [|done]. by eapply parse_settlement_ok.
Qed.

Lemma parse_group_ok d k it g it' L L' : parse_group d k it L = (Ok (g, it'), L') -> settlement_ok (dg_settlement g).
Proof.
  destruct k; cbn [parse_group]; unfold validate_spl_deposit_settlement; intros Hr; parse_inv; cbn [dg_settlement];
    [done|]. by eapply spl_settlement_program.
Qed.

Lemma parse_groups_ok d ks gs it gs' it' L L' : Forall (fun g => settlement_ok (dg_settlement g)) gs ->
  parse_groups d ks gs it L = (Ok (gs', it'), L') -> Forall (fun g => settlement_ok (dg_settlement g)) gs'.
Proof.
  revert gs it L. induction ks as [|k ks IH]; intros gs it L Hgs Hr; cbn [parse_groups] in Hr; parse_inv; [done|].
  eapply IH; [|done]. apply Forall_app_2; [done|]. constructor; [|done]. by eapply parse_group_ok.
Qed.

Lemma settle_sums_does groups sums : Forall (fun g => settlement_ok (dg_settlement g)) groups ->
  does [] (settle_sums groups sums).
Proof.
  intros Hg. induction sums as [|[i total] sums IH]; cbn [settle_sums]; [apply inert_does, inert_ret|].
  apply does_lift. intros g Hlk%ok_or_ok. apply does_require. intros _. apply (does_bind [] []).
  - destruct (0 <? total); [|apply inert_does, inert_ret]. apply settle_does. by eapply (Forall_lookup_1 _ _ _ _ Hg).
  - intros _. apply does_lift. intros asset _. apply (does_bind [] []); [done|]. intros. apply inert_does, inert_ret.
Qed.

(** ** Deposits *)

Lemma deposit_parse_ok ring accounts assets parsed id L L' :
  deposit_validate_and_parse ring accounts assets L = (Ok (parsed, id), L') ->
  Forall (fun g => settlement_ok (dg_settlement g)) (da_groups parsed).
Proof.
  unfold deposit_validate_and_parse. intros Hr. parse_inv. destruct ring; parse_inv.
  all: match goal with H : parse_groups _ _ _ _ _ = _ |- _ => by eapply parse_groups_ok in H end.
Qed.

Lemma deposit_does ring accounts assets entries : does [] (process_deposit_internal ring accounts assets entries).
Proof.
  intros h L u L' Hg Hr. unfold process_deposit_internal in Hr.
  parse_inv.
  match goal with H : deposit_validate_and_parse _ _ _ _ = _ |- _ => pose proof (deposit_parse_ok _ _ _ _ _ _ _ H) as Hok end.
  skip Hg. match goal with H : with_tree _ _ _ _ = _ |- _ => pose proof (does_tree _ _ _
    (append_entries_traced _ _ _ _ _ _ _ _ (gd_slot _ _ Hg)) _ _ _ _ Hg H) as He1 end.
  pose proof (effects_good _ _ _ _ Hg He1) as Hg1. apply (effects_trans _ [] _ [] _ He1).
  match goal with H : settle_sums _ _ _ = _ |- _ => pose proof (settle_sums_does _ _ Hok _ _ _ _ Hg1 H) as He2 end.
  apply (effects_trans _ [] _ [] _ He2). eapply same_core_effects, inert_emit, Hr.
Qed.

(** ** Trees *)

Lemma tree_keeps L L' T l : tree_at L T l -> only [T] L L' -> keeps L L'.
Proof.
  intros Hl Ho. eapply frame_keeps; [by apply only_frame|]. intros a d ->%list_elem_of_singleton. by apply (tree_not_plain _ _ l).
Qed.

(** Changing a loaded tree without queueing keeps the other accounts. *)
Lemma with_tree_effects {X} err v (m : M TreeAccountLayout ProgramError X) h L a L' : good h L -> traced [] m ->
  with_tree err v m L = (Ok a, L') -> effects L [] L' /\ keeps L L'.
Proof.
  intros Hg Hm Hr. split; [by eapply does_tree|].
  destruct (with_tree_run _ _ _ _ _ _ _ Hg Hr) as (l & l' & Hl & _ & _ & Ho). by eapply tree_keeps.
Qed.

(** Queueing on a loaded tree and creating the PDAs is a spend. *)
Lemma with_tree_spend {X} err payer v (m : M TreeAccountLayout ProgramError X) (r : X -> InputTreeResult) pdas vs h L a L1 u L2 :
  good h L -> (forall l l', m l = (Ok a, l') -> spend_result vs l l' (r a)) -> map snd pdas = vs ->
  with_tree err v m L = (Ok a, L1) -> create_nullifier_pdas payer v pdas (r a) L1 = (Ok u, L2) ->
  spend L (vaddr v) vs L2.
Proof.
  intros Hg Hm Hvs Hr Hc. destruct (with_tree_run _ _ _ _ _ _ _ Hg Hr) as (l & l' & Hl & Hrun & Hcore & Ho).
  destruct (Hm l l' Hrun) as (Hext & Hfirst & Hid). apply create_nullifier_pdas_run in Hc.
  by eapply (spend_halves L L1 L2 (vaddr v) l l' vs pdas).
Qed.

Lemma map_snd_zip {X Y} (l : list X) (k : list Y) : length l = length k -> map snd (zip l k) = k.
Proof. intros Hl. apply (snd_zip l k). lia. Qed.

(** ** Merge *)

Lemma merge_core_spends accounts ix binding cache tag slot h L u L' :
  good h L -> Forall (is_bytes 32) (mt_nullifiers ix) -> (length (mt_nullifiers ix) <= 256)%nat ->
  length (mca_nullifier_pdas accounts) = length (mt_nullifiers ix) -> canonical (mt_output_utxo_hash ix) ->
  valid u64 slot -> (forall handle s, cache = Some (handle, s) -> is_cache L handle) ->
  process_merge_core accounts ix binding cache tag slot L = (Ok u, L') ->
  exists L1, spend L (vaddr (mca_input_tree accounts)) (mt_nullifiers ix) L1 /\ effects L1 [] L'.
Proof.
  intros Hg Hvs Hn Hlen Hout Hslot Hcache Hr. unfold process_merge_core, prepare_merge in Hr. parse_inv.
  match goal with H : create_nullifier_pdas _ _ _ _ _ = (_, ?Lb) |- _ =>
    assert (spend L (vaddr (mca_input_tree accounts)) (mt_nullifiers ix) Lb) as Hs;
    [eapply (with_tree_spend _ _ _ _ fst); [done| |by apply map_snd_zip|done|done]|exists Lb; split; [done|]] end.
  { intros l1 l2. apply spend_input_tree_run; [done|]. unfold in_width. lia. }
  pose proof (good_spend _ _ _ _ _ Hg Hs) as Hg1.
  match goal with H : cache_state _ _ = _ |- _ => pose proof (inert_cache_state _ _ _ _ H) as Hs1 end.
  match goal with H : collect_tree_fee _ _ _ _ = _ |- _ => pose proof (inert_collect_tree_fee _ _ _ _ _ _ H) as Hs2 end.
  match goal with H : with_tree _ _ (merge_write_output _ _ _ _ _ _) _ = _ |- _ =>
    destruct (with_tree_effects _ _ _ _ _ _ _ (same_core_good _ _ _ Hs1 Hg1)
      (merge_write_output_traced _ _ _ _ _ _ Hout Hslot) H) as [He Hk] end.
  apply (same_core_then _ _ _ _ Hs1), (effects_trans _ [] _ [] _ He), (same_core_then _ _ _ _ Hs2).
  eapply (effects_trans _ [] _ []); [|eapply same_core_effects, inert_emit, Hr].
  destruct cache as [[handle s]|]; ix_inv; [|constructor]. eapply cache_write_effects; [|apply Hout|done].
  eapply cache_keeps; [by eapply same_core_keeps|]. eapply cache_keeps; [done|].
  eapply cache_keeps; [by eapply same_core_keeps|]. eapply cache_keeps; [by eapply spend_keeps|]. by eapply Hcache.
Qed.

Lemma next_muts_length n e cap pushed it l it' L L' : (length pushed <= cap)%nat ->
  next_muts n e cap pushed it L = (Ok (l, it'), L') -> length l = (length pushed + n)%nat /\ (length l <= cap)%nat.
Proof.
  revert pushed it L. induction n as [|n IH]; intros pushed it L Hp Hr; cbn [next_muts] in Hr; parse_inv; [lia|].
  match goal with H : try_push _ _ _ = Some _ |- _ => unfold try_push in H; destruct (Nat.ltb_spec (length pushed) cap);
    [injection H as <-|done] end.
  apply IH in Hr; rewrite length_app in *; cbn [length] in *; lia.
Qed.

Lemma load_merge_cache_is_cache a now L cache L' : load_merge_cache a now L = (Ok cache, L') ->
  forall handle s, cache = Some (handle, s) -> is_cache L' handle.
Proof.
  intros Hr handle s ->. pose proof (inert_load_merge_cache _ _ _ _ _ Hr) as Hs.
  eapply cache_keeps; [by eapply same_core_keeps|]. unfold load_merge_cache in Hr. destruct a; ix_inv; [|done].
  apply mret_ok in Hr as [[= -> ->] ->].
  match goal with H : cache_write_load _ _ _ _ = _ |- _ => by apply cache_write_load_cache in H as [-> ?] end.
Qed.

(** The input tree is the first account. *)
Definition merge_spends (accounts : list View) (ix : MergeTransactIxData) : list (bytes * list bytes) :=
  match accounts with v :: _ => [(vaddr v, mt_nullifiers ix)] | [] => [] end.

Lemma merge_parse_facts accounts n slot a L L' : merge_validate_and_parse accounts n slot L = (Ok a, L') ->
  (exists rest, accounts = ma_input_tree a :: rest) /\ length (ma_nullifier_pdas a) = n /\ (n <= 256)%nat.
Proof.
  unfold merge_validate_and_parse. intros Hr. parse_inv.
  match goal with H : next_muts _ _ _ _ _ _ = _ |- _ => apply next_muts_length in H as [Hl Hc]; [|cbn; lia] end.
  cbn [ma_input_tree ma_nullifier_pdas]. iter_facts. cbn [length] in *. unfold MAX_MERGE_INPUTS in *. split; [by eexists|lia].
Qed.

Lemma merge_ring_parse_facts accounts n slot a L L' : merge_ring_validate_and_parse accounts n slot L = (Ok a, L') ->
  (exists rest, accounts = mra_input_tree a :: rest) /\ length (mra_nullifier_pdas a) = n /\ (n <= 256)%nat.
Proof.
  unfold merge_ring_validate_and_parse. intros Hr. parse_inv.
  match goal with H : next_muts _ _ _ _ _ _ = _ |- _ => apply next_muts_length in H as [Hl Hc]; [|cbn; lia] end.
  cbn [mra_input_tree mra_nullifier_pdas]. iter_facts. cbn [length] in *. unfold MAX_MERGE_INPUTS in *. split; [by eexists|lia].
Qed.

Lemma merge_output_canonical ix u : is_bytes 32 (mt_output_utxo_hash ix) -> validate_field_elements ix = Ok u ->
  canonical (mt_output_utxo_hash ix).
Proof. intros Hb Hv. unfold validate_field_elements, check_field_element in Hv. ix_inv. by split. Qed.

(** The parsed accounts, the loaded cache and the checked output are what the core needs. *)
Lemma merge_core_spending accounts ix binding a now cache tag slot rest views u u' h L L1 L2 L3 L' :
  load_merge_cache a now L1 = (Ok cache, L2) -> process_merge_core accounts ix binding cache tag slot L3 = (Ok u, L') ->
  merge_data_typed ix -> validate_field_elements ix = Ok u' -> valid u64 slot ->
  views = mca_input_tree accounts :: rest -> length (mca_nullifier_pdas accounts) = length (mt_nullifiers ix) ->
  (length (mt_nullifiers ix) <= 256)%nat -> good h L -> same_core L L1 -> same_core L2 L3 ->
  NoDup (map fst (merge_spends views ix)) /\
  exists L0 L1, same_core L L0 /\ spend_seq L0 (merge_spends views ix) L1 /\ effects L1 [] L'.
Proof.
  intros Hc Hr (Hvs & Hout & _) Hval Hslot -> Hlen Hn Hg Hs1 Hs3.
  pose proof (inert_load_merge_cache _ _ _ _ _ Hc) as Hs2.
  assert (same_core L L3) as Hs by (do 2 (eapply same_core_trans; [done|]); done).
  destruct (merge_core_spends accounts ix binding cache tag slot h L3 u L') as (L4 & Hspend & He);
    [by eapply same_core_good|done|done|done|by eapply merge_output_canonical|done| |done|].
  { intros handle s E. eapply cache_keeps; [exact (same_core_keeps _ _ Hs3)|]. exact (load_merge_cache_is_cache _ _ _ _ _ Hc handle s E). }
  split; [apply NoDup_singleton|]. exists L3, L4. split_and!; [done| |done]. eapply seq_cons; [done|constructor].
Qed.

Lemma merge_transact_spending accounts ix : merge_data_typed ix ->
  spending (merge_spends accounts ix) (process_merge_transact_ix accounts ix).
Proof.
  intros Hty h L u L' Hg Hr. unfold process_merge_transact_ix, setup_merge_transact in Hr. parse_inv.
  match goal with H : merge_validate_and_parse _ _ _ _ = _ |- _ =>
    destruct (merge_parse_facts _ _ _ _ _ _ H) as ([rest ->] & Hlen & Hn); apply inert_merge_parse in H as Hs1 end.
  match goal with H : load_user_record _ _ = _ |- _ => apply inert_load_user_record in H as Hs2 end.
  eapply merge_core_spending; try done; [apply Hg|by eapply same_core_trans].
Qed.

Lemma merge_ring_spending accounts ix : merge_data_typed (mr_merge ix) ->
  spending (merge_spends accounts (mr_merge ix)) (process_merge_ring_ix accounts ix).
Proof.
  intros Hty h L u L' Hg Hr. unfold process_merge_ring_ix, setup_merge_ring in Hr. parse_inv.
  match goal with H : merge_ring_validate_and_parse _ _ _ _ = _ |- _ =>
    destruct (merge_ring_parse_facts _ _ _ _ _ _ H) as ([rest ->] & Hlen & Hn); apply inert_merge_ring_parse in H as Hs1 end.
  eapply merge_core_spending; try done; apply Hg.
Qed.

End spend.
