(* ===== verification/PoolTransact.v ===== *)
(** * The transact instructions spend what they name

    A successful transact, ring transact or ring-authority transact queues, for
    each declared input tree in turn, the nullifiers of the inputs that reference
    it, creates their PDAs, and spends nothing else. *)

From S2P Require Import Prelude ZeroBytes Hasher HashChain Codec Smt Batch NullifierTree NullifierQueue NullifierSafety TreeAccount TreeTypes TreeSafety Errors TreeSlot Ledger AccountChecks State Event Shared NullifierPdas Circuit UserRegistry Cache Configs Settlement Merge TransactProof Transact Deposit Program TreeTrace PoolMachine PoolSteps PoolHandlers PoolSpend.

Section transact.
Context `{SP : SolPoseidon} `{SH : SolHash} `{G : Groth16} `{PG : PoolGroth16} `{W : Wincode} `{R : Runtime}
  {LG : HashLog} `{TP : TokenProgram} `{F : ArkFr} `{KM : KeyMetadata} `{A : ArrayMapLib}.
Context {HT : PoseidonTotal SP} {HS : PoseidonSized SP} {HF : PoseidonField SP} {HZ : ZeroBytesLaw Poseidon.Poseidon}
  {HW : WincodeLaw W} {RL : RuntimeLaws R} {TL : TokenLaws TP}.

(** ** Parsing *)

(** The parsed trees are the next [n] accounts and differ from one another. *)
Lemma parse_input_trees_facts n trees it trees' it' L L' :
  parse_input_trees n trees it L = (Ok (trees', it'), L') -> NoDup (map vaddr trees) ->
  trees' = trees ++ take n (iter_accounts it) /\ NoDup (map vaddr trees').
Proof.
  revert trees it L. induction n as [|n IH]; intros trees it L Hr Hnd; cbn [parse_input_trees] in Hr; parse_inv.
  { by rewrite take_0, app_nil_r. }
  iter_facts.
  match goal with H : try_push _ _ _ = Some _ |- _ => unfold try_push in H; case_match; simplify_eq end.
  match goal with H : negb (existsb _ _) = true |- _ => apply negb_true_iff in H as Hnew end.
  match goal with H : iter_accounts _ = _ :: _ |- _ => rewrite H end.
  apply IH in Hr as [-> Hnd']; [split; [by rewrite <- app_assoc|done]|].
  rewrite map_app. apply NoDup_app. split_and!; [done| |apply NoDup_singleton].
  intros x (w & -> & Hw)%list_elem_of_fmap Hx%list_elem_of_singleton. apply not_true_iff_false in Hnew. apply Hnew.
  apply existsb_exists. exists w. split; [by apply list_elem_of_In|]. by apply bool_decide_eq_true.
Qed.

Lemma from_iter_facts it ix payer trees output allow a L L' : from_iter it ix payer trees output allow L = (Ok a, L') ->
  ta_input_trees a = trees /\ (length (ti_inputs ix) <= 49)%nat /\ Forall settlement_ok (ta_settlements a).
Proof.
  unfold from_iter. intros Hr. parse_inv. cbn [ta_input_trees ta_settlements].
  match goal with H : next_muts _ _ _ _ _ _ = _ |- _ => apply next_muts_length in H as [Hl Hc]; [|cbn; lia] end.
  cbn [length] in *. unfold MAX_TRANSACT_INPUTS in *. split_and!; [done|lia|].
  match goal with H : parse_settlements _ _ _ _ = _ |- _ => by eapply parse_settlements_ok in H end.
Qed.

(** The input trees follow the payer, the output tree and the two programs, and
    in a ring transaction the ring config. *)
Definition input_tree_accounts (accounts : list View) (ix : TransactIxData) : list View :=
  take (length (ti_tree_contexts ix)) (drop (if is_ring (ti_circuit ix) then 5 else 4) accounts).

(** The nullifiers of the inputs that reference each tree. *)
Fixpoint tree_spends (inputs : list InputUtxo) (tree_index : Z) (trees : list bytes) : list (bytes * list bytes) :=
  match trees with
  | [] => []
  | T :: rest =>
      (T, map nullifier_hash (filter (fun i => TransactProof.tree_index i = tree_index) inputs)) ::
      tree_spends inputs (tree_index + 1) rest
  end.

Definition transact_spends (accounts : list View) (ix : TransactIxData) : list (bytes * list bytes) :=
  tree_spends (ti_inputs ix) 0 (map vaddr (input_tree_accounts accounts ix)).

Lemma tree_spends_trees inputs i trees : map fst (tree_spends inputs i trees) = trees.
Proof. revert i. induction trees as [|T trees IH]; intros i; cbn; [done|]. by rewrite IH. Qed.

(** The tree accounts parsed for an instruction. *)
Definition trees_parsed (accounts : list View) (ix : TransactIxData) (a : TransactAccounts) : Prop :=
  ta_input_trees a = input_tree_accounts accounts ix /\ NoDup (map vaddr (ta_input_trees a)) /\
  (length (ti_inputs ix) <= 49)%nat /\ Forall settlement_ok (ta_settlements a).

Lemma transact_parse_facts accounts ix a L L' : is_ring (ti_circuit ix) = false ->
  transact_validate_and_parse accounts ix L = (Ok a, L') -> trees_parsed accounts ix a.
Proof.
  intros Hc Hr. unfold transact_validate_and_parse, validate_program_prefix in Hr. parse_inv. iter_facts. subst.
  match goal with H : parse_input_trees _ _ _ _ = _ |- _ => apply parse_input_trees_facts in H as [-> Hnd]; [|constructor] end.
  apply from_iter_facts in Hr as (Ht & Hn & Hs). unfold trees_parsed, input_tree_accounts. rewrite Hc, Ht.
  by repeat match goal with H : _ = _ :: _ |- _ => rewrite H; clear H end.
Qed.

Lemma ring_parse_facts accounts ix b a p L L' : is_ring (ti_circuit ix) = true ->
  ring_validate_and_parse accounts ix b L = (Ok (a, p), L') -> trees_parsed accounts ix a.
Proof.
  intros Hc Hr. unfold ring_validate_and_parse, validate_program_prefix in Hr. parse_inv. iter_facts. subst.
  match goal with H : parse_input_trees _ _ _ _ = _ |- _ => apply parse_input_trees_facts in H as [-> Hnd]; [|constructor] end.
  match goal with H : from_iter _ _ _ _ _ _ _ = _ |- _ => apply from_iter_facts in H as (Ht & Hn & Hs) end.
  unfold trees_parsed, input_tree_accounts. rewrite Hc, Ht.
  by repeat match goal with H : _ = _ :: _ |- _ => rewrite H; clear H end.
Qed.

Lemma transact_cache_load_is_cache a now L cache L' : transact_cache_load a now L = (Ok cache, L') ->
  forall v, writable cache = Some v -> is_cache L' v.
Proof.
  intros Hr v Hv. pose proof (inert_transact_cache_load _ _ _ _ _ Hr) as Hs.
  eapply cache_keeps; [by eapply same_core_keeps|]. unfold transact_cache_load in Hr. destruct a as [a|]; ix_inv; [|done].
  cbn in Hv. destruct (tc_write_cache a) as [[c w]|]; ix_inv; [|done]. injection Hv as <-.
  match goal with H : cache_write_load _ _ _ _ = _ |- _ => by apply cache_write_load_cache in H as [-> ?] end.
Qed.

(** ** The counts *)

Lemma count_inputs_facts inputs counts out m : count_inputs inputs counts = Ok out -> Forall (fun c => (c <= m)%nat) counts ->
  length out = length counts /\ Forall (fun c => (c <= m + length inputs)%nat) out.
Proof.
  revert counts m. induction inputs as [|i inputs IH]; intros counts m Hr Hm; cbn [count_inputs length] in *.
  { injection Hr as ->. by rewrite Nat.add_0_r. }
  ix_inv. apply (IH _ (S m)) in Hr as [-> Hf].
  - rewrite length_insert. split; [done|]. eapply Forall_impl; [done|]. cbn. lia.
  - apply Forall_insert; [eapply Forall_impl; [done|]; cbn; lia|].
    match goal with H : counts !! _ = Some _ |- _ => pose proof (proj1 (Forall_lookup _ _) Hm _ _ H) end. cbn in *. lia.
Qed.

Lemma validate_contexts_facts inputs contexts counts : validate_input_tree_contexts inputs contexts = Ok counts ->
  (length contexts <= length counts)%nat /\ Forall (fun c => (c <= length inputs)%nat) counts.
Proof.
  unfold validate_input_tree_contexts. intros Hr. ix_inv.
  match goal with H : count_inputs _ _ = _ |- _ => apply (count_inputs_facts _ _ _ 0) in H as [Hl Hf] end.
  - rewrite length_replicate in Hl. rewrite length_app, Hl. split; [lia|]. apply Forall_app_2; [done|].
    apply Forall_replicate. lia.
  - apply Forall_replicate. lia.
Qed.

(** ** The input trees *)

Lemma tree_inputs_nullifiers i pdas inputs : length pdas = length inputs ->
  map snd (tree_inputs i pdas inputs) = map nullifier_hash (filter (fun x => TransactProof.tree_index x = i) inputs).
Proof.
  revert pdas. induction inputs as [|x inputs IH]; intros [|p pdas] Hl; try done. injection Hl as Hl.
  specialize (IH pdas Hl). unfold tree_inputs in *. cbn [zip]. rewrite !filter_cons.
  destruct (decide (TransactProof.tree_index x = i)) as [E|E].
  - cbn [map]. by rewrite IH.
  - apply IH.
Qed.

Lemma tree_nullifiers_bytes i inputs : Forall (fun x => is_bytes 32 (nullifier_hash x)) inputs ->
  Forall (is_bytes 32) (map nullifier_hash (filter (fun x => TransactProof.tree_index x = i) inputs)).
Proof. intros Hb. apply Forall_map. rewrite Forall_forall in *. intros x [_ Hx]%list_elem_of_filter. by apply Hb. Qed.

Lemma apply_trees_seq payer pdas inputs trees : Forall (fun x => is_bytes 32 (nullifier_hash x)) inputs ->
  length pdas = length inputs -> Forall (fun t => (t.2 <= 49)%nat) trees ->
  forall i sequences slots allow h L r L', good h L ->
  apply_trees payer pdas inputs i trees sequences slots allow L = (Ok r, L') ->
  spend_seq L (tree_spends inputs i (map (fun t => vaddr t.1.1) trees)) L'.
Proof.
  intros Hb Hl. induction 1 as [|[[tree context] count] trees Hc _ IH];
    intros i sequences slots allow h L r L' Hg Hr; cbn [apply_trees] in Hr; [ix_inv; constructor|].
  parse_inv. cbn [map tree_spends fst snd] in *.
  match goal with H : create_nullifier_pdas _ _ _ _ _ = (_, ?L1) |- _ =>
    assert (spend L (vaddr tree) (map nullifier_hash (filter (fun x => TransactProof.tree_index x = i) inputs)) L1) as Hs end.
  { eapply (with_tree_spend _ _ _ _ snd); [done| |by apply tree_inputs_nullifiers|done|done].
    intros l1 l2. apply spend_tree_run; [by apply tree_nullifiers_bytes|]. unfold in_width. lia. }
  eapply seq_cons; [done|]. eapply IH; [by eapply good_spend|done].
Qed.

Lemma zip_trees (trees : list View) (contexts : list TreeContext) (counts : list nat) :
  length trees = length contexts -> (length contexts <= length counts)%nat ->
  map (fun t => vaddr t.1.1) (zip (zip trees contexts) counts) = map vaddr trees.
Proof.
  revert contexts counts. induction trees as [|t trees IH]; intros [|c contexts] [|n counts] H1 H2; cbn in *; try done; try lia.
  rewrite IH; [done|lia..].
Qed.

Lemma apply_input_trees_seq accounts ix counts p h L r L' : good h L ->
  Forall (fun x => is_bytes 32 (nullifier_hash x)) (ti_inputs ix) -> (length (ti_inputs ix) <= 49)%nat ->
  validate_input_tree_contexts (ti_inputs ix) (ti_tree_contexts ix) = Ok counts ->
  apply_input_trees accounts ix counts p L = (Ok r, L') ->
  spend_seq L (tree_spends (ti_inputs ix) 0 (map vaddr (ta_input_trees accounts))) L'.
Proof.
  intros Hg Hb Hn [Hl Hf]%validate_contexts_facts Hr. unfold apply_input_trees in Hr. parse_inv.
  match goal with H : apply_trees _ _ _ _ _ _ _ _ _ = _ |- _ => rename H into Ht end.
  eapply apply_trees_seq in Ht; [|done..| |done].
  - by rewrite zip_trees in Ht.
  - apply Forall_forall. intros [t c] Hin%list_elem_of_In%in_combine_r%list_elem_of_In. cbn.
    rewrite Forall_forall in Hf. specialize (Hf c Hin). lia.
Qed.

(** ** The handler *)

Lemma check_field_elements_canonical vs e u : Forall (is_bytes 32) vs -> check_field_elements vs e = Ok u ->
  Forall canonical vs.
Proof.
  induction 1 as [|v vs Hv _ IH]; cbn [check_field_elements]; intros Hr; [constructor|].
  unfold check_field_element in Hr. ix_inv. constructor; [by split|by apply IH].
Qed.

Lemma circuit_type_outputs ix tag u : Forall (fun o => is_bytes 32 (to_utxo_hash o)) (ti_outputs ix) ->
  validate_circuit_type ix tag = Ok u -> Forall canonical (map to_utxo_hash (ti_outputs ix)).
Proof.
  intros Hb%Forall_map Hr. unfold validate_circuit_type in Hr. ix_inv. by eapply check_field_elements_canonical.
Qed.

(** What follows the input trees. *)
Lemma after_inputs_effects accounts ix cache slot is_input legs h L w fee L1 u1 L2 u2 L3 u3 L4 u4 L5 :
  good h L -> Forall canonical (map to_utxo_hash (ti_outputs ix)) -> valid u64 slot ->
  (forall v, writable cache = Some v -> is_cache L v) -> Forall (fun l => settlement_ok l.2) legs ->
  transact_apply_output_tree (ta_output_tree accounts) ix slot is_input L = (Ok (w, fee), L1) ->
  collect_tree_fee (ta_payer accounts) (ta_output_tree accounts) fee L1 = (Ok u1, L2) ->
  check_cache_output_tree cache (tw_output_tree_id w) L2 = (Ok u2, L3) ->
  write_cached_outputs cache ix L3 = (Ok u3, L4) -> settle_interface_transfers legs L4 = (Ok u4, L5) -> effects L [] L5.
Proof.
  intros Hg Ho Hslot Hcache Hlegs Hw Hfee Hcheck Hwc Hset.
  destruct (with_tree_effects _ _ _ _ _ _ _ Hg (write_output_tree_traced _ _ _ _ Ho Hslot) Hw) as [He Hk].
  pose proof (inert_collect_tree_fee _ _ _ _ _ _ Hfee) as Hs1. pose proof (inert_check_cache_output_tree _ _ _ _ _ Hcheck) as Hs2.
  assert (effects L3 [] L4) as He4.
  { unfold write_cached_outputs in Hwc. destruct (writable cache) as [v|]; [|ix_inv; constructor].
    destruct (cache_access (ti_circuit ix)); [|ix_inv; constructor].
    eapply write_entries_effects; [|..|done].
    - apply (cache_keeps _ _ _ (same_core_keeps _ _ Hs2)), (cache_keeps _ _ _ (same_core_keeps _ _ Hs1)).
      by apply (cache_keeps _ _ _ Hk), Hcache.
    - refine (Forall_impl _ _ _ (proj1 (Forall_map _ _ _) Ho) _). by intros o [? _]. }
  assert (effects L [] L4) as HL4.
  { apply (effects_trans _ [] _ [] _ He), (same_core_then _ _ _ _ Hs1), (same_core_then _ _ _ _ Hs2), He4. }
  apply (effects_trans _ [] _ [] _ HL4). by eapply settle_interface_transfers_does; [| |done]; [done|eapply effects_good].
Qed.

Lemma resolved_transact_spending accounts ix prefix tag counts resolved h L u L' :
  transact_data_typed ix -> Forall canonical (map to_utxo_hash (ti_outputs ix)) ->
  validate_input_tree_contexts (ti_inputs ix) (ti_tree_contexts ix) = Ok counts -> good h L ->
  process_resolved_transact accounts ix prefix tag (clock L) counts resolved L = (Ok u, L') ->
  NoDup (map fst (transact_spends accounts ix)) /\
  exists L0 L1, same_core L L0 /\ spend_seq L0 (transact_spends accounts ix) L1 /\ effects L1 [] L'.
Proof.
  intros (Hin & _ & _) Hout Hcounts Hg Hr. unfold process_resolved_transact, prepare_transact in Hr. parse_inv.
  match goal with H : (if is_ring _ then _ else _) L = (Ok (?a, _), ?L0) |- _ =>
    assert (trees_parsed accounts ix a /\ same_core L L0) as [(Htrees & Hnd & Hn & Hset) Hs0] end.
  { destruct (is_ring (ti_circuit ix)) eqn:Hc; parse_inv.
    - split; [by eapply ring_parse_facts|]. by eapply inert_ring_parse.
    - split; [by eapply transact_parse_facts|]. by eapply inert_transact_parse. }
  match goal with H : transact_cache_load _ _ _ = (Ok ?c, ?M) |- _ => rename H into Hload, c into cache, M into L1;
    pose proof (inert_transact_cache_load _ _ _ _ _ Hload) as Hs1; pose proof (transact_cache_load_is_cache _ _ _ _ _ Hload) as Hcache end.
  assert (same_core L L1) as Hs by by eapply same_core_trans.
  assert (Forall (fun x => is_bytes 32 (nullifier_hash x)) (ti_inputs ix)) as Hb.
  { refine (Forall_impl _ _ _ Hin _). by intros ? [? _]. }
  match goal with H : apply_input_trees _ _ _ _ _ = (_, ?M) |- _ => rename M into L2;
    pose proof (apply_input_trees_seq _ _ _ _ _ _ _ _ (same_core_good _ _ _ Hs Hg) Hb Hn Hcounts H) as Hseq end.
  unfold transact_spends. rewrite <- Htrees, tree_spends_trees. split; [done|]. exists L1, L2. split_and!; [done..|].
  match goal with H : bind_cached_inputs _ _ _ _ = _ |- _ => pose proof (inert_bind_cached_inputs _ _ _ _ _ _ H) as Hs2 end.
  apply (same_core_then _ _ _ _ Hs2). eapply (effects_trans _ [] _ []); [|eapply same_core_effects, inert_emit, Hr].
  eapply (after_inputs_effects t ix cache (slot (clock L)) _ (zip (ti_interface_transfers ix) (ta_settlements t)));
    try done; [|apply Hg| |].
  - eapply same_core_good; [done|]. eapply effects_good, seq_effects, Hseq. by eapply same_core_good.
  - intros v Hv. apply (cache_keeps _ _ _ (same_core_keeps _ _ Hs2)), (cache_keeps _ _ _ (seq_keeps _ _ _ Hseq)). by apply Hcache.
  - apply Forall_forall. intros [t' s] Hi%list_elem_of_In%in_combine_r%list_elem_of_In. by eapply Forall_forall in Hset.
Qed.

Lemma transact_spending accounts ix prefix tag : transact_data_typed ix ->
  spending (transact_spends accounts ix) (process_transact_ix accounts ix prefix tag).
Proof.
  intros Hty h L u L' Hg Hr. unfold process_transact_ix in Hr. parse_inv.
  eapply resolved_transact_spending; try done. eapply circuit_type_outputs; [apply Hty|done].
Qed.

End transact.
