(* ===== verification/PoolSafety.v ===== *)
(** * Safety of the program

    Every instruction the program accepts acts on the accounts it owns as one of
    the effects of [PoolMachine], with the nullifiers the instruction names as its
    spends.  A reachable ledger therefore has well-formed accounts, every nullifier
    ever spent is still protected, and spending one again would need a
    non-inclusion proof against a root that contains it. *)

From S2P Require Import Prelude ZeroBytes Hasher HashChain Codec Smt Batch NullifierTree NullifierQueue NullifierSafety TreeAccount TreeTypes TreeSafety Errors TreeSlot Ledger AccountChecks State Event Shared NullifierPdas Forester CreateTree Circuit UserRegistry Cache Configs Settlement Merge TransactProof Transact Deposit Program TreeTrace PoolMachine PoolSteps PoolHandlers PoolCreate PoolSpend PoolTransact.

Local Notation K := NULLIFIER_TREE_ZKP_BATCHES.

Section safety.
Context `{SP : SolPoseidon} `{SH : SolHash} `{G : Groth16} `{PG : PoolGroth16} `{W : Wincode} `{R : Runtime}
  {LG : HashLog} `{TP : TokenProgram} `{F : ArkFr} `{KM : KeyMetadata} `{LS : LoaderState} `{A : ArrayMapLib} `{D : WincodeFormats}.

(** ** What an instruction spends *)

Definition spends (accounts : list View) (instruction_data : bytes) : list (bytes * list bytes) :=
  match instruction_data with
  | [] => []
  | ix_tag :: payload =>
      match tag_try_from (byte_val ix_tag) with
      | Some (Event.Transact | RingTransact | RingAuthorityTransact) =>
          match decode_transact payload with Some (ix, _) => transact_spends accounts ix | None => [] end
      | Some MergeTransact => match decode_merge payload with Some ix => merge_spends accounts ix | None => [] end
      | Some RingMergeTransact =>
          match decode_merge_ring payload with Some ix => merge_spends accounts (mr_merge ix) | None => [] end
      | _ => []
      end
  end.

(** The preimage that a batch update hashes, for the tree it names, is logged;
    with [log_all] this asks nothing. *)
Definition instruction_logged (L : Ledger) (accounts : list View) (instruction_data : bytes) : Prop :=
  match instruction_data with
  | [] => True
  | ix_tag :: payload =>
      match tag_try_from (byte_val ix_tag) with
      | Some BatchUpdateNullifierTree =>
          forall data tree l, try_from_bytes batch_update_codec payload = Some data -> accounts !! 2%nat = Some tree ->
          tree_at L (vaddr tree) l -> update_logged (nullifier l) data
      | _ => True
      end
  end.

Lemma spender_logged L accounts data s : s ∈ spends accounts data -> instruction_logged L accounts data.
Proof.
  destruct data as [|b payload]; [done|]. unfold spends, instruction_logged. destruct (tag_try_from (byte_val b)) as [[]|]; intros Hs; try done. by apply elem_of_nil in Hs.
Qed.

(** ** Reachable ledgers *)

(** Before the program runs, what it owns is zeroed. *)
Definition genesis (L : Ledger) : Prop :=
  (forall a d, core L a = (ID, d) -> Forall (eq x00) d) /\ valid u64 (slot (clock L)).

(** Accepted instructions interleaved with what other programs and the clock do:
    the runtime lets nobody else write or reassign the program's accounts, and
    hands an account over only with zeroed data.  The trace lists the spends. *)
Inductive reachable : list (bytes * list bytes) -> Ledger -> Prop :=
| reach_genesis L : genesis L -> reachable [] L
| reach_others tr L L' : reachable tr L -> frame [] L L' -> reachable tr L'
| reach_instruction tr L program_id accounts data L' :
    reachable tr L -> views_ok accounts -> instruction_logged L accounts data ->
    process_instruction program_id accounts data L = (Ok tt, L') ->
    reachable (tr ++ spends accounts data) L'.

Context {HT : PoseidonTotal SP} {HS : PoseidonSized SP} {HF : PoseidonField SP} {HZ : ZeroBytesLaw Poseidon.Poseidon}
  {HW : WincodeLaw W} {RL : RuntimeLaws R} {TL : TokenLaws TP} {PD : PdaDisjoint R} {DT : WincodeTyped D}.

(** ** Every instruction *)

Lemma decode_update_typed data u : decode_update_protocol_config data = Some u -> update_typed u.
Proof.
  unfold decode_update_protocol_config. destruct data as [|b data]; [done|]. intros H.
  repeat case_match; simplify_eq; apply fmap_Some in H as (x & Hx & ->); cbn; try done.
  all: by apply (try_from_bytes_Some (raw 32)) in Hx as (_ & _ & ?).
Qed.

Lemma decoded_spending {X} (o : option X) e k sps : (forall x, o = Some x -> spending (sps x) (k x)) ->
  spending (match o with Some x => sps x | None => [] end) (decoded o e k).
Proof.
  intros Hk h L u L' Hg Hr. unfold decoded in Hr. ix_inv. subst. by eapply Hk.
Qed.

Lemma decoded_does {X} (o : option X) e k : (forall x, o = Some x -> does [] (k x)) -> spending [] (decoded o e k).
Proof. intros Hk h L u L' Hg Hr. unfold decoded in Hr. ix_inv. subst. eapply does_spending; [by apply Hk|done..]. Qed.

Lemma transact_decoded tag accounts payload :
  spending (match decode_transact payload with Some (ix, _) => transact_spends accounts ix | None => [] end)
    (decoded (decode_transact payload) PeInvalidInstructionData (fun '(ix, prefix) => process_transact_ix accounts ix prefix tag)).
Proof.
  apply (decoded_spending _ _ _ (fun '(ix, _) => transact_spends accounts ix)). intros [ix prefix] Hx.
  by eapply transact_spending, decode_transact_typed.
Qed.

Lemma update_decoded_effects accounts payload e h L u L' :
  (forall data tree l, try_from_bytes batch_update_codec payload = Some data -> accounts !! 2%nat = Some tree ->
   tree_at L (vaddr tree) l -> update_logged (nullifier l) data) -> good h L ->
  decoded (try_from_bytes batch_update_codec payload) e (process_batch_update_nullifier_tree accounts) L = (Ok u, L') ->
  effects L [] L'.
Proof.
  intros Hlog Hg Hr. unfold decoded in Hr. ix_inv.
  match goal with H : try_from_bytes _ _ = Some ?x |- _ => rename H into Hx, x into data end.
  pose proof Hx as (_ & _ & ? & ? & Hi & _)%(try_from_bytes_Some batch_update_codec).
  eapply batch_update_effects; [apply Hi|done|done|by intros tree l; apply Hlog|done|done].
Qed.

Lemma dispatch_spending tag accounts payload b h L u L' : views_ok accounts -> tag_try_from (byte_val b) = Some tag ->
  instruction_logged L accounts (b :: payload) -> good h L -> dispatch tag accounts payload L = (Ok u, L') ->
  NoDup (map fst (spends accounts (b :: payload))) /\
  exists L0 L1, same_core L L0 /\ spend_seq L0 (spends accounts (b :: payload)) L1 /\ effects L1 [] L'.
Proof.
  intros Hv Htag Hlog Hg Hr. assert (tag = BatchUpdateNullifierTree \/ tag <> BatchUpdateNullifierTree) as [->|Hne] by (destruct tag; (by left) || (by right)).
  { cbn [spends instruction_logged dispatch] in *. rewrite Htag in *. split; [constructor|]. exists L, L. split; [done|].
    split; [constructor|]. by eapply update_decoded_effects. }
  revert h L u L' Hg Hr Hlog. assert (spending (spends accounts (b :: payload)) (dispatch tag accounts payload)) as Hs; [|by intros; eapply Hs].
  cbn [spends]. rewrite Htag. clear Htag. destruct tag; try done; cbn [dispatch].
  all: try (apply does_spending; first
    [apply inert_does, inert_ret|by apply create_tree_does|apply create_asset_counter_does
    |by apply create_spl_interface_does|apply create_protocol_config_does|by apply update_ring_config_owner_does
    |apply set_ring_activation_does|apply close_cache_does|by apply close_nullifier_pdas_does
    |apply claim_tree_lamports_does]).
  all: try (apply decoded_does; intros x Hx; first
    [by apply update_protocol_config_does, (decode_update_typed payload)|apply pause_tree_does|apply update_ring_config_does
    |by apply create_cache_does; [|apply (decode_create_cache_typed payload)]|destruct x; apply deposit_does|idtac]).
  - apply (try_from_bytes_Some fees_codec) in Hx as (_ & _ & Hx). by apply set_tree_fees_does.
  - apply (try_from_bytes_Some create_ring_codec) in Hx as (_ & _ & [? ?]). by apply create_ring_config_does.
  - by apply transact_decoded.
  - apply decoded_spending. intros ix Hix. by apply merge_transact_spending, (decode_merge_typed payload).
  - by apply transact_decoded.
  - apply (decoded_spending _ _ _ (fun ix => merge_spends accounts (mr_merge ix))). intros ix Hix.
    by apply merge_ring_spending, (decode_merge_ring_typed payload).
  - by apply transact_decoded.
Qed.

Lemma process_instruction_spending program_id accounts data h L u L' : views_ok accounts ->
  instruction_logged L accounts data -> good h L -> process_instruction program_id accounts data L = (Ok u, L') ->
  NoDup (map fst (spends accounts data)) /\
  exists L0 L1, same_core L L0 /\ spend_seq L0 (spends accounts data) L1 /\ effects L1 [] L'.
Proof.
  intros Hv Hlog Hg Hr. unfold process_instruction in Hr. apply require_ok in Hr as [_ Hr].
  destruct data as [|b payload]; [done|]. apply mbindM_ok in Hr as (tag & L1 & [Htag%ok_or_ok ->]%mlift_ok & Hr).
  by eapply dispatch_spending.
Qed.

Lemma process_instruction_effects program_id accounts data h L u L' : views_ok accounts ->
  instruction_logged L accounts data -> good h L -> process_instruction program_id accounts data L = (Ok u, L') ->
  effects L (spends accounts data) L'.
Proof.
  intros Hv Hlog Hg Hr. destruct (process_instruction_spending _ _ _ _ _ _ _ Hv Hlog Hg Hr) as (_ & L0 & L1 & Hs & Hseq & He).
  apply (same_core_then _ _ _ _ Hs). rewrite <- (app_nil_r (spends accounts data)). by eapply effects_trans; [apply seq_effects|].
Qed.

(** ** The invariant holds in every reachable ledger *)

Lemma genesis_good L : genesis L -> good (fun _ => []) L.
Proof. intros [Hz Hs]. split; [|done..|done]. intros a d Hd. by apply kind_zero, (Hz a). Qed.

Lemma reachable_good tr L : reachable tr L -> good (fun T => spent_on T tr) L.
Proof.
  induction 1 as [L Hg|tr L L' _ IH Hf|tr L id accounts data L' _ IH Hv Hlog Hr].
  - by apply genesis_good.
  - by eapply good_frame.
  - pose proof (process_instruction_effects _ _ _ _ _ _ _ Hv Hlog IH Hr) as He.
    eapply good_ext; [|by eapply effects_good]. intros T. by rewrite spent_on_app.
Qed.

(** A reachable tree's history of roots, and what the watermark says of them. *)
Lemma tree_holds_roots vs l : tree_holds vs l -> exists ZB rs, history ZB (nullifier l) vs rs /\
  forall index r, root_by_index (nullifier l) index = Some r ->
  exists j, rs !! j = Some r /\ close_before_index (nullifier l) <= 1 + Z.of_nat (j * ZB).
Proof.
  intros (_ & ZB & q & [Hz _ Hq <-]). exists ZB, (q_roots q). pose proof (zkp_batches_bounds ZB Hz) as (HK & HZ' & HB & HK32).
  split; [by eapply (inv_history K ZB (2 ^ 40))|]. intros index r Hr.
  destruct (accepted_root K ZB HK HZ' HB HK32 _ _ index r Hq Hr) as (j & ? & _ & _ & _ & ?). by exists j.
Qed.

(** C6. No double spend.  When the program accepts an instruction in a reachable
    ledger, the nullifiers it spends on a tree are distinct, no tree appears
    twice, and any of them that was spent on that tree before, as its [k]-th
    nullifier, is a leaf of every root the tree still serves: such a root is the
    [j]-th of the tree, each of whose transitions was proved, and [k] lies in the
    [j] ZKP batches appended before it.  The non-inclusion proof the instruction
    carries for it would be against such a root. *)
Theorem no_double_spend (tr : list (bytes * list bytes)) (L : Ledger) (program_id : bytes) (accounts : list View)
    (data : bytes) (L' : Ledger) (T : bytes) (vs : list bytes) :
  reachable tr L -> views_ok accounts -> process_instruction program_id accounts data L = (Ok tt, L') ->
  (T, vs) ∈ spends accounts data ->
  NoDup (map fst (spends accounts data)) /\ NoDup vs /\
  exists ZB l rs, tree_at L T l /\ history ZB (nullifier l) (spent_on T tr) rs /\
    forall index r, root_by_index (nullifier l) index = Some r ->
    exists j, rs !! j = Some r /\ forall k v, v ∈ vs -> spent_on T tr !! k = Some v -> (k < j * ZB)%nat.
Proof.
  intros Hreach Hv Hr Hin. pose proof (reachable_good _ _ Hreach) as Hg.
  destruct (process_instruction_spending program_id accounts data _ L tt L' Hv (spender_logged _ _ _ _ Hin) Hg Hr)
    as (Hnd & L0 & L1 & Hs & Hseq & _).
  destruct (seq_safe _ _ _ _ T vs (same_core_good _ _ _ Hs Hg) Hseq Hnd Hin) as (l & Hl & Hvs & Hcov).
  unfold tree_at in Hl. rewrite (proj1 Hs) in Hl. destruct (good_tree _ _ T l Hg Hl) as [Hholds _].
  destruct (tree_holds_roots _ _ Hholds) as (ZB & rs & Hhist & Hroots). split_and!; [done..|].
  exists ZB, l, rs. split_and!; [done..|]. intros index r Hi. destruct (Hroots index r Hi) as (j & Hj & Hle).
  exists j. split; [done|]. intros k v Hvin Hk. pose proof (Hcov v k Hvin Hk). lia.
Qed.

(** C11. Every account the program owns in a reachable ledger is of one of its account
    types: empty, a tree under construction, an initialised tree at the address of
    its id whose nullifier queue holds exactly what was spent on it, a config at
    the config's address, a ring config, an asset registry, the asset counter, a
    cache at the address of its sponsor and nonce, or a nullifier PDA.  A tree
    with spends is never lost, and a tree id names one account. *)
Theorem reachable_accounts_typed (tr : list (bytes * list bytes)) (L : Ledger) :
  reachable tr L ->
  (forall a d, core L a = (ID, d) -> kind (spent_on a tr) a d) /\
  (forall T, spent_on T tr <> [] -> exists l, tree_at L T l /\ tree_holds (spent_on T tr) l) /\
  (forall a b l l', tree_at L a l -> tree_at L b l' -> tree_id l = tree_id l' -> a = b).
Proof.
  intros Hg%reachable_good. split_and!.
  - apply Hg.
  - intros T HT'. destruct (good_history_tree _ _ _ Hg HT') as [l Hl]. exists l. split; [done|].
    by destruct (good_tree _ _ _ _ Hg Hl).
  - intros a b l l' Hl Hl' E. destruct (good_tree _ _ _ _ Hg Hl) as [_ Ha]. destruct (good_tree _ _ _ _ Hg Hl') as [_ Hb].
    rewrite E in Ha. by eapply derived_inj.
Qed.

(** C12. Every nullifier ever spent stays protected: its queue index is below the
    tree's close watermark, or its PDA exists and records that index and the
    tree's id. *)
Theorem spent_nullifiers_stay_protected (tr : list (bytes * list bytes)) (L : Ledger) (T : bytes) (k : nat) (v : bytes) :
  reachable tr L -> spent_on T tr !! k = Some v -> exists l, tree_at L T l /\ spent L T l k v.
Proof.
  intros Hg%reachable_good Hk. destruct (good_history_tree _ _ T Hg) as [l Hl]; [by intros E; rewrite E in Hk|].
  exists l. split; [done|]. by eapply gd_spent.
Qed.

End safety.

Lemma all_logged L accounts data : @instruction_logged log_all L accounts data.
Proof. destruct data as [|b payload]; [done|]. unfold instruction_logged. by destruct (tag_try_from (byte_val b)) as [[]|]. Qed.
