(* ===== verification/CreateSteps.v ===== *)
(** * Creating a tree ends

    A tree account is larger than one allocation step, so its creation is the
    same instruction sent [tree_creation_step_count] times.  Each accepted one
    makes progress: the account grows by one step, and the last one leaves an
    initialised tree with an empty history.  None is accepted after that. *)

From S2P Require Import Prelude ZeroBytes Hasher HashChain MerkleSpec Codec Smt Batch NullifierTree NullifierQueue NullifierSafety TreeAccount TreeTypes TreeSafety Errors TreeSlot Ledger AccountChecks State Event Shared NullifierPdas Forester CreateTree Circuit UserRegistry Cache Configs Settlement Merge TransactProof Transact Deposit Program TreeTrace PoolMachine PoolSteps PoolHandlers PoolCreate PoolSpend PoolTransact PoolSafety.

Section steps.
Context `{SP : SolPoseidon} `{SH : SolHash} `{G : Groth16} `{PG : PoolGroth16} `{W : Wincode} `{R : Runtime}
  {LG : HashLog} `{TP : TokenProgram} `{F : ArkFr} `{KM : KeyMetadata} `{LS : LoaderState} `{A : ArrayMapLib} `{D : WincodeFormats}.

(** [n] accepted copies of an instruction in a row. *)
Inductive repeated (program_id : bytes) (accounts : list View) (data : bytes) : nat -> Ledger -> Ledger -> Prop :=
| repeated_none L : repeated program_id accounts data 0 L L
| repeated_more n L L1 L2 : repeated program_id accounts data n L L1 ->
    process_instruction program_id accounts data L1 = (Ok tt, L2) -> repeated program_id accounts data (S n) L L2.

(** The account [T] after [n] steps of the creation of the tree [id]. *)
Definition created_after (n : nat) (T : bytes) (id : Z) (L : Ledger) : Prop :=
  match n with
  | O => is_unallocated (accounts L T) = true
  | S _ =>
      if Z.of_nat n <? tree_creation_step_count
      then exists d, core L T = (ID, d) /\ Z.of_nat (length d) = Z.of_nat n * TREE_ALLOCATION_STEP
      else Z.of_nat n = tree_creation_step_count /\ exists l, tree_at L T l /\ tree_holds [] l /\ tree_id l = id
  end.

Context {HT : PoseidonTotal SP} {HS : PoseidonSized SP} {HF : PoseidonField SP} {HZ : ZeroBytesLaw Poseidon.Poseidon}
  {HW : WincodeLaw W} {RL : RuntimeLaws R} {TL : TokenLaws TP} {PD : PdaDisjoint R} {DT : WincodeTyped D}.

Lemma steps_and_size : tree_creation_step_count = 4 /\ account_size = 40080 /\ TREE_ALLOCATION_STEP = 10240.
Proof. vm_compute. done. Qed.

Lemma core_parts L a o d : core L a = (o, d) -> acct_owner (accounts L a) = o /\ acct_data (accounts L a) = d.
Proof. intros H. split; [exact (f_equal fst H)|exact (f_equal snd H)]. Qed.

(** Allocating gives one step, growing adds one, up to the full size. *)
Lemma allocate_size payer tree seed bump lamports p L u L1 u' L2 : is_bytes 32 (pending_payer p) ->
  allocate_tree payer tree seed bump account_size lamports L = (Ok u, L1) -> pending_record p tree L1 = (Ok u', L2) ->
  exists d, core L2 (vaddr tree) = (ID, d) /\ Z.of_nat (length d) = TREE_ALLOCATION_STEP.
Proof.
  intros Hp Ha Hr. apply allocate_tree_run in Ha as (_ & _ & Hc). unfold pending_record, slots in Hr. ix_inv.
  apply core_parts in Hc as [Ho Hd]. eexists. rewrite core_with_data, Ho. split; [reflexivity|].
  match goal with H : (_ <=? _)%nat = true |- _ => apply Nat.leb_le in H as Hfit end.
  rewrite length_write_at by (rewrite length_app, Hp; lia). rewrite Hd, length_replicate.
  destruct steps_and_size as (_ & -> & ->). lia.
Qed.

Lemma grow_size tree L d u L' : core L (vaddr tree) = (ID, d) -> grow_tree tree account_size L = (Ok u, L') ->
  exists d', core L' (vaddr tree) = (ID, d') /\
    Z.of_nat (length d') = Z.max (Z.of_nat (length d)) (Z.min (Z.of_nat (length d) + TREE_ALLOCATION_STEP) account_size).
Proof.
  intros Hc Hr. unfold grow_tree in Hr. ix_inv. destruct (core_parts _ _ _ _ Hc) as [Ho Hd]. rewrite Hd in *. destruct (Z.leb_spec account_size (Z.of_nat (length d))); ix_inv.
  - exists d. split; [done|]. lia.
  - apply resize_ok in Hr as ->. eexists. rewrite core_upd_eq. cbn [acct_owner acct_data with_data]. rewrite Ho. split; [reflexivity|].
    unfold resized. rewrite Hd, length_app, length_take, length_replicate. destruct steps_and_size as (_ & Hs & Ht).
    unfold saturating_add. rewrite Hs, Ht in *. lia.
Qed.

Lemma pool_owned L a d : core L a = (ID, d) -> is_unallocated (accounts L a) = false.
Proof.
  intros [Ho _]%core_parts. unfold is_unallocated, is_system. rewrite Ho, bool_decide_false; [done|]. exact ID_not_system.
Qed.

Lemma take_id_allocated v authority id L u L' : take_tree_id v authority false id L = (Ok u, L') -> L' = L.
Proof.
  unfold take_tree_id. intros Hr. ix_inv.
  match goal with H : load_protocol_config_mut _ _ = _ |- _ => by apply load_protocol_config_mut_run in H as (-> & _) end.
Qed.

Lemma grown_head d d' b : grown d d' -> head d = Some b -> head d' = Some b.
Proof. intros [->|[_ [n ->]]] Hh; [exact Hh|]. by destruct d. Qed.

Lemma pending_check_same p tree L u L' : pending_check p tree L = (Ok u, L') -> L' = L.
Proof. unfold pending_check, slots. intros Hr. ix_inv. done. Qed.

Lemma created_account n T id L : created_after (S n) T id L -> exists d, core L T = (ID, d) /\
  (Z.of_nat (S n) < tree_creation_step_count /\ Z.of_nat (length d) = Z.of_nat (S n) * TREE_ALLOCATION_STEP \/
   head d = Some (byte_of TREE_ACCOUNT_DISCRIMINATOR)).
Proof.
  cbn [created_after]. destruct (Z.ltb_spec (Z.of_nat (S n)) tree_creation_step_count).
  - intros (d & Hd & Hl). exists d. split; [exact Hd|]. left. split; assumption.
  - intros (_ & l & (Hd & _ & Hdisc) & _). eexists. split; [exact Hd|]. right. by rewrite head_layout, Hdisc.
Qed.

(** The account before the last part of an accepted step. *)
Lemma next_size n id v authority payer tree seed bump lamports p L u0 L1 u L2 : is_bytes 32 (pending_payer p) ->
  created_after n (vaddr tree) id L ->
  take_tree_id v authority (is_unallocated (accounts L (vaddr tree))) id L = (Ok u0, L1) ->
  (if is_unallocated (accounts L (vaddr tree)) then
     mbindM (allocate_tree payer tree seed bump account_size lamports) (fun _ => pending_record p tree)
   else mbindM (grow_tree tree account_size) (fun _ => pending_check p tree)) L1 = (Ok u, L2) ->
  exists d, core L2 (vaddr tree) = (ID, d) /\
  (Z.of_nat n < tree_creation_step_count /\
     Z.of_nat (length d) = Z.min (Z.of_nat (S n) * TREE_ALLOCATION_STEP) account_size \/
   head d = Some (byte_of TREE_ACCOUNT_DISCRIMINATOR)).
Proof.
  intros Hp Hn Ht Hr. destruct steps_and_size as (Hc & Hs & Hst). destruct n as [|n].
  { cbn [created_after] in Hn. rewrite Hn in Hr. ix_inv.
    match goal with H : allocate_tree _ _ _ _ _ _ _ = _ |- _ => destruct (allocate_size _ _ _ _ _ _ _ _ _ _ _ Hp H Hr) as (d & Hd & Hl) end.
    exists d. split; [done|]. left. lia. }
  apply created_account in Hn as (d & Hd & Hcase).
  rewrite (pool_owned _ _ _ Hd) in *. apply take_id_allocated in Ht as ->. ix_inv. apply pending_check_same in Hr as ->.
  match goal with H : grow_tree _ _ _ = _ |- _ => destruct (grow_size _ _ _ _ _ Hd H) as (d' & Hd' & Hl);
    destruct (grow_tree_run tree account_size _ _ _ eq_refl H) as (e & e' & He & He' & Hgr & _) end.
  exists d'. split; [exact Hd'|]. destruct Hcase as [[Hlt Hle]|Hh]; [left; lia|right].
  rewrite <- (core_det _ _ _ _ Hd He), <- (core_det _ _ _ _ Hd' He') in Hgr. by apply (grown_head d).
Qed.

Lemma created_next n T id L d : Z.of_nat (S n) < tree_creation_step_count -> core L T = (ID, d) ->
  Z.of_nat (length d) = Z.min (Z.of_nat (S n) * TREE_ALLOCATION_STEP) account_size -> created_after (S n) T id L.
Proof.
  intros Hn Hc Hl. cbn [created_after]. rewrite (proj2 (Z.ltb_lt _ _) Hn). exists d. split; [exact Hc|].
  destruct steps_and_size as (Hs & Ha & Ht). lia.
Qed.

Lemma created_last n T id L l : Z.of_nat (S n) = tree_creation_step_count -> core L T = (ID, enc layout_codec l) ->
  tree_holds [] l -> discriminator l = TREE_ACCOUNT_DISCRIMINATOR -> tree_id l = id -> created_after (S n) T id L.
Proof.
  intros Hn Hc Hh Hd Hid. cbn [created_after]. rewrite Hn, Z.ltb_irrefl. split; [reflexivity|]. exists l.
  split; [|split; assumption]. split; [exact Hc|]. split; [apply Hh|exact Hd].
Qed.

Lemma create_step n accounts ix_data tree data h L u L' : good h L -> views_ok accounts -> accounts !! 3%nat = Some tree ->
  try_from_bytes create_tree_codec ix_data = Some data -> created_after n (vaddr tree) (ct_tree_id data) L ->
  process_create_tree accounts ix_data L = (Ok u, L') -> created_after (S n) (vaddr tree) (ct_tree_id data) L'.
Proof.
  intros Hg [Hviews _] Htree Hix Hn Hr. unfold process_create_tree in Hr. parse_inv.
  match goal with H : try_from_bytes _ _ = Some ?x |- _ => assert (x = data) as -> by congruence; clear H end.
  apply try_from_bytes_Some in Hix as (Hlen & Hdata & Hv); [|exact _].
  match goal with H : verify_pda _ _ _ = Ok _ |- _ => apply verify_pda_derived in H as Hder end.
  match goal with H : params_validate _ = Ok ?y |- _ => destruct y; rename H into Hparams end.
  set (p := mkPending (vaddr v) ix_data) in *.
  assert (v2 = tree /\ is_bytes 32 (vaddr v)) as [-> Hp].
  { iter_facts. repeat match goal with H : ?it = _ :: _ |- _ => rewrite H in *; clear H end. cbn in Htree.
    rewrite !Forall_cons in Hviews. split; [congruence|apply Hviews]. }
  assert (creation_data (pending_data p) data) as Hcd by done.
  assert (0 <= ct_tree_id data) as Hid by (destruct Hv as (Hid & _); rewrite valid_u16 in Hid; apply Hid).
  match goal with H : take_tree_id _ _ _ _ _ = _ |- _ => rename H into Htake; pose proof (take_tree_id_effects _ _ _ _ _ _ _ Hid Htake) as He1 end.
  pose proof (effects_good _ _ _ _ Hg He1) as Hg1.
  match goal with H : (if is_unallocated _ then _ else _) _ = _ |- _ =>
    destruct (allocate_or_grow_effects _ _ _ _ _ _ _ p data _ _ _ Hg1 Hp Hcd Hder H) as (He2 & d & Hc & Hfit & Hblank);
    destruct (next_size _ _ _ _ _ _ _ _ _ p _ _ _ _ _ Hp Hn Htake H) as (d' & Hc' & Hsize) end.
  pose proof (effects_good _ _ _ _ Hg1 He2) as Hg2. assert (d' = d) as -> by exact (core_det _ _ _ _ Hc' Hc).
  destruct (Hblank _ (gd_kind _ _ Hg2 _ _ Hc)) as [Hzero _].
  destruct Hsize as [[Hlt Hsize]|Hdisc]; [|rewrite Hzero in Hdisc; discriminate Hdisc].
  destruct (core_parts _ _ _ _ Hc) as [_ Hd]. rewrite Hd, Hsize in Hr. destruct steps_and_size as (Hcount & Hfull & Hstep).
  destruct (Z.ltb_spec (Z.min (Z.of_nat (S n) * TREE_ALLOCATION_STEP) account_size) account_size).
  - apply mret_ok in Hr as [_ ->]. eapply created_next; [lia|exact Hc|exact Hsize].
  - ix_inv. match goal with H : pending_clear _ _ _ = _, H' : fund_tree _ _ _ _ = _ |- _ =>
      destruct (finish_run _ p _ _ _ _ _ _ _ _ _ _ _ _ Hg2 Hcd Hc Hfit Hblank H H' Hr) as (_ & l & ? & ? & ? & ?) end.
    eapply created_last; [lia|eassumption..].
Qed.

Lemma created_bound k T id M : created_after k T id M -> Z.of_nat k <= tree_creation_step_count.
Proof.
  destruct k as [|k]; [destruct steps_and_size as (-> & _); lia|]. cbn [created_after].
  destruct (Z.ltb_spec (Z.of_nat (S k)) tree_creation_step_count); [lia|]. intros [-> _]. lia.
Qed.

(** C22. Creating a tree ends.  Sending the same creation again and again from a ledger
    where the tree's account is not allocated: after [n] accepted instructions the
    account is [n] allocation steps long and not yet a tree while [n] is below
    [tree_creation_step_count]; at that count it is an initialised tree with the
    requested id and nothing spent, and no further instruction is accepted. *)
Theorem tree_creation_ends (tr : list (bytes * list bytes)) (L : Ledger) (program_id : bytes) (accounts : list View)
    (ix_data : bytes) (tree : View) (data : CreateTreeData) (n : nat) (L' : Ledger) :
  reachable tr L -> views_ok accounts -> accounts !! 3%nat = Some tree ->
  try_from_bytes create_tree_codec ix_data = Some data -> is_unallocated (Ledger.accounts L (vaddr tree)) = true ->
  repeated program_id accounts (byte_of (tag_byte CreateTree) :: ix_data) n L L' ->
  Z.of_nat n <= tree_creation_step_count /\ created_after n (vaddr tree) (ct_tree_id data) L' /\
  (Z.of_nat n = tree_creation_step_count -> forall L2,
     process_instruction program_id accounts (byte_of (tag_byte CreateTree) :: ix_data) L' <> (Ok tt, L2)).
Proof.
  intros Hreach Hv Htree Hix Hun Hrep.
  assert (forall k M M', reachable tr M -> created_after k (vaddr tree) (ct_tree_id data) M ->
    process_instruction program_id accounts (byte_of (tag_byte CreateTree) :: ix_data) M = (Ok tt, M') ->
    reachable tr M' /\ created_after (S k) (vaddr tree) (ct_tree_id data) M') as Hstep.
  { intros k M M' Hr Hk Hp. split.
    - rewrite <- (app_nil_r tr). exact (reach_instruction _ _ _ _ (byte_of (tag_byte CreateTree) :: ix_data) _ Hr Hv I Hp).
    - unfold process_instruction in Hp. apply require_ok in Hp as [_ Hp].
      apply mbindM_ok in Hp as (t & M1 & [Ht%ok_or_ok ->]%mlift_ok & Hp). injection Ht as <-. cbn [dispatch] in Hp.
      eapply create_step; try done. by apply reachable_good. }
  assert (reachable tr L' /\ created_after n (vaddr tree) (ct_tree_id data) L') as [Hr' Hn].
  { clear Hix. induction Hrep as [L|n L L1 L2 _ IH Hp]; [done|]. destruct (IH Hreach Hun) as [H1 H2]. by eapply Hstep. }
  split; [exact (created_bound _ _ _ _ Hn)|]. split; [exact Hn|]. intros Heq L2 Hp. destruct (Hstep n L' L2 Hr' Hn Hp) as [_ Hs%created_bound]. lia.
Qed.

End steps.
