(* ===== verification/PoolEvents.v ===== *)
(** * The event log

    Every accepted deposit, transact and merge logs exactly one event, and what an
    indexer rebuilds from it ([EventIndex]) is what the instruction did: the
    inputs are the spent nullifiers with the queue positions the trees gave them,
    and the outputs are the leaves appended to the output tree, from the leaf index
    the event states.  Code that logs nothing is [quiet]. *)

From S2P Require Import Prelude ZeroBytes Hasher HashChain Codec Smt Batch NullifierTree NullifierQueue NullifierSafety TreeAccount TreeTypes TreeSafety Errors TreeSlot Ledger AccountChecks State Event Shared NullifierPdas Forester CreateTree Circuit UserRegistry Cache Configs Settlement Merge TransactProof Transact Deposit Program EventIndex TreeTrace PoolMachine PoolSteps PoolHandlers PoolSpend PoolTransact PoolSafety.

(** ** Quiet code *)

Definition quiet {A} (m : Ix A) : Prop := forall L a L', m L = (Ok a, L') -> log L' = log L.

Lemma quiet_bind {A B} (m : Ix A) (k : A -> Ix B) : quiet m -> (forall a, quiet (k a)) -> quiet (mbindM m k).
Proof. intros Hm Hk L b L' (a & L1 & H1 & H2)%mbindM_ok. by rewrite (Hk _ _ _ _ H2), (Hm _ _ _ H1). Qed.

Lemma quiet_ret {A} (a : A) : quiet (mret a).
Proof. by intros L b L' [-> ->]%mret_ok. Qed.

Lemma quiet_lift {A} (r : res ProgramError A) : quiet (mlift r).
Proof. by intros L b L' [_ ->]%mlift_ok. Qed.

Lemma quiet_throw {A} e : quiet (mthrow (A := A) e).
Proof. by intros L b L' H. Qed.

Lemma quiet_map_err {A} f (m : Ix A) : quiet m -> quiet (mmap_err f m).
Proof. intros Hm L a L' Hr%mmap_err_ok. by eapply Hm. Qed.

Lemma quiet_account v : quiet (account v).
Proof. by intros L a L' [_ ->]%account_ok. Qed.

Lemma quiet_get_lamports v : quiet (get_lamports v).
Proof. by intros L a L' [_ ->]%get_lamports_ok. Qed.

Lemma quiet_data_len v : quiet (data_len v).
Proof. by intros L a L' [_ ->]%data_len_ok. Qed.

Lemma quiet_get_data v : quiet (get_data v).
Proof. by intros L a L' [_ ->]%get_data_ok. Qed.

Lemma quiet_rent len : quiet (rent_minimum len).
Proof. by intros L a L' [_ ->]%rent_minimum_ok. Qed.

Lemma quiet_clock : quiet get_clock.
Proof. by intros L a L' [_ ->]%get_clock_ok. Qed.

Lemma quiet_set_lamports v n : quiet (set_lamports v n).
Proof. by intros L a L' ->%set_lamports_ok. Qed.

Lemma quiet_set_data v d : quiet (set_data v d).
Proof. by intros L a L' ->%set_data_ok. Qed.

Create HintDb quiet discriminated.
#[export] Hint Resolve quiet_ret quiet_lift quiet_throw quiet_account quiet_get_lamports quiet_data_len quiet_get_data
  quiet_rent quiet_clock quiet_set_lamports quiet_set_data : quiet.
#[export] Hint Extern 1 (quiet (acc _)) => apply quiet_lift : quiet.

Ltac quieting :=
  lazymatch goal with
  | |- quiet (mbindM _ _) => apply quiet_bind; [quieting|intros; cbv beta; quieting]
  | |- quiet (mmap_err _ _) => apply quiet_map_err; quieting
  | |- quiet (if ?b then _ else _) => destruct b; quieting
  | |- quiet (match ?x with _ => _ end) => destruct x; quieting
  | |- _ => auto with quiet
  end.

Section quiet_calls.
Context `{W : Wincode} `{R : Runtime} {RL : RuntimeLaws R} `{T : TokenProgram} {TL : TokenLaws T}.

Lemma quiet_transfer from to n seeds : quiet (sys_transfer from to n seeds).
Proof. intros L u L' Hr. by apply transfer_ok in Hr as [-> _]. Qed.

Lemma quiet_assign v o seeds : quiet (sys_assign v o seeds).
Proof. intros L u L' Hr. by apply assign_ok in Hr as ->. Qed.

Lemma quiet_resize v n : quiet (resize v n).
Proof. intros L u L' Hr. by apply resize_ok in Hr as ->. Qed.

Lemma quiet_invoke p metas d seeds : quiet (token_invoke p metas d seeds).
Proof. intros L u L' Hr. by apply invoke_rest in Hr as [-> _]. Qed.

Lemma quiet_load_config {A} (c : Codec A) f e v : quiet (load_config c f e v).
Proof. unfold load_config. quieting. Qed.

Lemma quiet_load_config_mut {A} (c : Codec A) f e v : quiet (load_config_mut c f e v).
Proof. unfold load_config_mut. quieting. Qed.

Lemma quiet_with_tree {A} err v (m : M TreeAccountLayout ProgramError A) : quiet (with_tree err v m).
Proof.
  intros L a L' Hr. unfold with_tree, on_tree in Hr. destruct (from_account_view_mut _ _ _) as [t| |]; [|done..].
  destruct (m (layout t)). apply (f_equal snd) in Hr. cbn in Hr. by subst.
Qed.

End quiet_calls.

#[export] Hint Resolve quiet_transfer quiet_assign quiet_resize quiet_invoke quiet_load_config quiet_load_config_mut
  quiet_with_tree : quiet.
#[export] Hint Extern 1 (quiet (load_protocol_config _)) => apply quiet_load_config : quiet.
#[export] Hint Extern 1 (quiet (load_ring_config _)) => apply quiet_load_config : quiet.
#[export] Hint Extern 1 (quiet (load_cache _)) => apply quiet_load_config : quiet.
#[export] Hint Extern 1 (quiet (load_cache_mut _)) => apply quiet_load_config_mut : quiet.

Section quiet_parts.
Context `{SP : SolPoseidon} `{SH : SolHash} `{W : Wincode} `{R : Runtime} {RL : RuntimeLaws R} `{T : TokenProgram}
  {TL : TokenLaws T}.

Lemma quiet_cache_write_load c w n : quiet (cache_write_load c w n).
Proof. unfold cache_write_load. quieting. Qed.

Lemma quiet_cache_write_state c : quiet (cache_write_state c).
Proof. unfold cache_write_state. quieting. Qed.

Lemma quiet_cache_write c s h : quiet (cache_write c s h).
Proof. unfold cache_write, cache_write_state. quieting. Qed.

Lemma quiet_cache_state c : quiet (cache_state c).
Proof. unfold cache_state, cache_write_state. quieting. Qed.

Lemma quiet_active_ring_config v : quiet (load_active_ring_config v).
Proof. unfold load_active_ring_config. quieting. Qed.

Lemma quiet_sol_settlement i r : quiet (validate_sol_settlement i r).
Proof. unfold validate_sol_settlement. quieting. Qed.

Lemma quiet_spl_settlement m i u p b : quiet (validate_spl_settlement m i u p b).
Proof. unfold validate_spl_settlement, read_token_account, read_token_mint. quieting. Qed.

Lemma quiet_token_amount v : quiet (token_account_amount v).
Proof. unfold token_account_amount. quieting. Qed.

Lemma quiet_load_unused p t v : quiet (load_unused_nullifier_pda p t v).
Proof. unfold load_unused_nullifier_pda. quieting. Qed.

Lemma quiet_collect_tree_fee p t n : quiet (collect_tree_fee p t n).
Proof. unfold collect_tree_fee. quieting. Qed.

Lemma quiet_next_muts n e c pushed it : quiet (next_muts n e c pushed it).
Proof. revert pushed it. induction n; intros; cbn [next_muts]; quieting. Qed.

Lemma quiet_load_user_record v : quiet (load_user_record v).
Proof. unfold load_user_record. quieting. Qed.

End quiet_parts.

#[export] Hint Resolve quiet_cache_write_load quiet_cache_write_state quiet_cache_write quiet_cache_state
  quiet_active_ring_config quiet_sol_settlement quiet_spl_settlement quiet_token_amount quiet_load_unused
  quiet_collect_tree_fee quiet_next_muts quiet_load_user_record : quiet.

Section quiet_handlers.
Context `{SP : SolPoseidon} `{SH : SolHash} `{G : PoolGroth16} `{W : Wincode} `{R : Runtime} {RL : RuntimeLaws R}
  `{T : TokenProgram} {TL : TokenLaws T} `{A : ArrayMapLib}.

Lemma quiet_settle s n : quiet (settle s n).
Proof. destruct s; cbn [settle]; unfold settle_sol, settle_spl_deposit, settle_spl_withdrawal, spl_transfer; quieting. Qed.

Lemma quiet_settle_transfers legs : quiet (settle_interface_transfers legs).
Proof. induction legs as [|[t s] legs IH]; cbn [settle_interface_transfers]; quieting. apply quiet_settle. Qed.

Lemma quiet_settle_sums groups sums : quiet (settle_sums groups sums).
Proof. induction sums as [|[i total] sums IH]; cbn [settle_sums]; quieting. apply quiet_settle. Qed.

Lemma quiet_parse_settlement t it : quiet (parse_settlement t it).
Proof. unfold parse_settlement, validate_spl_deposit_settlement, validate_spl_withdrawal_settlement. quieting. Qed.

Lemma quiet_parse_settlements ts ss it : quiet (parse_settlements ts ss it).
Proof. revert ss it. induction ts; intros; cbn [parse_settlements]; quieting. apply quiet_parse_settlement. Qed.

Lemma quiet_parse_input_trees n pushed it : quiet (parse_input_trees n pushed it).
Proof. revert pushed it. induction n; intros; cbn [parse_input_trees]; quieting. Qed.

Lemma quiet_parse_group d k it : quiet (parse_group d k it).
Proof. unfold parse_group, deposit_validate_sol, validate_spl_deposit_settlement. quieting. Qed.

Lemma quiet_parse_groups d ks gs it : quiet (parse_groups d ks gs it).
Proof. revert gs it. induction ks; intros; cbn [parse_groups]; quieting. apply quiet_parse_group. Qed.

Lemma quiet_create_loop t rent first id i pdas : quiet (create_loop t rent first id i pdas).
Proof.
  revert i. induction pdas as [|[p v] pdas IH]; intros i; cbn [create_loop]; unfold init_nullifier_pda, top_up; quieting.
Qed.

Lemma quiet_create_pdas p t pdas r : quiet (create_nullifier_pdas p t pdas r).
Proof. unfold create_nullifier_pdas. quieting. apply quiet_create_loop. Qed.

Lemma quiet_apply_trees p pdas ins i ts sq sl b : quiet (apply_trees p pdas ins i ts sq sl b).
Proof.
  revert i sq sl b. induction ts as [|[[t c] n] ts IH]; intros; cbn [apply_trees]; quieting. apply quiet_create_pdas.
Qed.

Lemma quiet_apply_input_trees a ix n p : quiet (apply_input_trees a ix n p).
Proof. unfold apply_input_trees. quieting. apply quiet_apply_trees. Qed.

Lemma quiet_write_entries v os es : quiet (write_entries v os es).
Proof. induction es; cbn [write_entries]; quieting. Qed.

Lemma quiet_write_cached_outputs c ix : quiet (write_cached_outputs c ix).
Proof. unfold write_cached_outputs. quieting. apply quiet_write_entries. Qed.

Lemma quiet_from_iter it ix p ts o b : quiet (from_iter it ix p ts o b).
Proof. unfold from_iter, parse_transact_caches. quieting. apply quiet_parse_settlements. Qed.

Lemma quiet_transact_parse a ix : quiet (transact_validate_and_parse a ix).
Proof.
  unfold transact_validate_and_parse, validate_program_prefix. quieting; [apply quiet_parse_input_trees|apply quiet_from_iter].
Qed.

Lemma quiet_ring_parse a ix b : quiet (ring_validate_and_parse a ix b).
Proof.
  unfold ring_validate_and_parse, validate_program_prefix. quieting; [apply quiet_parse_input_trees|apply quiet_from_iter].
Qed.

Lemma quiet_transact_cache_load a n : quiet (transact_cache_load a n).
Proof. unfold transact_cache_load. quieting. Qed.

Lemma quiet_bind_cached_inputs c ix p : quiet (bind_cached_inputs c ix p).
Proof. unfold bind_cached_inputs, read_state. quieting. Qed.

Lemma quiet_check_cache_output_tree c i : quiet (check_cache_output_tree c i).
Proof. unfold check_cache_output_tree. quieting. Qed.

Lemma quiet_load_merge_cache a n : quiet (load_merge_cache a n).
Proof. unfold load_merge_cache, check_slot. quieting. Qed.

Lemma quiet_merge_parse a n s : quiet (merge_validate_and_parse a n s).
Proof. unfold merge_validate_and_parse, parse_cache_accounts. quieting. Qed.

Lemma quiet_merge_ring_parse a n s : quiet (merge_ring_validate_and_parse a n s).
Proof. unfold merge_ring_validate_and_parse, parse_cache_accounts. quieting. Qed.

Lemma quiet_deposit_parse r a k : quiet (deposit_validate_and_parse r a k).
Proof. unfold deposit_validate_and_parse. quieting; apply quiet_parse_groups. Qed.

End quiet_handlers.

#[export] Hint Resolve quiet_settle_transfers quiet_settle_sums quiet_create_pdas quiet_apply_input_trees
  quiet_write_cached_outputs quiet_transact_parse quiet_ring_parse quiet_transact_cache_load quiet_bind_cached_inputs
  quiet_check_cache_output_tree quiet_load_merge_cache quiet_merge_parse quiet_merge_ring_parse quiet_deposit_parse : quiet.

(** ** Leaves *)

Section events.
Context `{SP : SolPoseidon} `{SH : SolHash} `{G : Groth16} `{PG : PoolGroth16} `{W : Wincode} `{R : Runtime}
  {LG : HashLog} `{TP : TokenProgram} `{F : ArkFr} `{KM : KeyMetadata} `{A : ArrayMapLib}.
Context {HT : PoseidonTotal SP} {HS : PoseidonSized SP} {HF : PoseidonField SP} {HZ : ZeroBytesLaw Poseidon.Poseidon}
  {HW : WincodeLaw W} {RL : RuntimeLaws R} {TL : TokenLaws TP}.

(** The account [T] is a tree whose state tree is [u]. *)
Definition has_utxo (L : Ledger) (T : bytes) (u : UtxoTreeLayout) : Prop := exists l, tree_at L T l /\ utxo l = u.

(** No state tree changes. *)
Definition same_utxo (L L' : Ledger) : Prop := forall T u, has_utxo L T u <-> has_utxo L' T u.

Lemma same_utxo_trans L1 L2 L3 : same_utxo L1 L2 -> same_utxo L2 L3 -> same_utxo L1 L3.
Proof. intros H1 H2 T u. by rewrite (H1 T u). Qed.

Lemma tree_at_core L L' T l : core L' T = core L T -> tree_at L T l -> tree_at L' T l.
Proof. intros Hc (H1 & H2). split; [by rewrite Hc|done]. Qed.

Lemma has_utxo_core L L' T u : core L' T = core L T -> has_utxo L T u <-> has_utxo L' T u.
Proof. intros Hc. split; intros (l & Hl & <-); exists l; (split; [|done]); by eapply tree_at_core. Qed.

Lemma same_core_utxo L L' : same_core L L' -> same_utxo L L'.
Proof. intros [Hc _] T u. by apply has_utxo_core. Qed.

Lemma frame_same_utxo X L L' : frame X L L' -> (forall T u, T ∈ X -> has_utxo L T u <-> has_utxo L' T u) -> same_utxo L L'.
Proof.
  intros Hf HX T u. destruct (decide (T ∈ X)) as [|Hn]; [by apply HX|]. split; intros (l & (Hc & Hv & Hd) & <-); exists l.
  - split; [|done]. split; [by apply (fr_keep _ _ _ Hf)|done].
  - split; [|done]. split; [|done]. destruct (fr_new _ _ _ Hf T _ Hn Hc) as [|Hz]; [done|].
    pose proof (head_layout l) as Hh. destruct (enc layout_codec l) as [|b d]; [done|]. injection Hh as ->.
    inversion Hz as [|? ? Hb _]. by rewrite Hd in Hb.
Qed.

(** An account that is no tree. *)
Lemma not_tree_utxo L T u d : core L T = (ID, d) -> head d <> Some (byte_of TREE_ACCOUNT_DISCRIMINATOR) -> ~ has_utxo L T u.
Proof. intros Hc Hh (l & (Hl & _ & Hd) & _). apply Hh. by rewrite (core_det _ _ _ _ Hc Hl), head_layout, Hd. Qed.

Lemma system_not_utxo L T u : core L T = (SYSTEM_PROGRAM, []) -> ~ has_utxo L T u.
Proof. intros Hs (l & (Hl & _) & _). by eapply core_system_ne. Qed.

Lemma tree_change_utxo L L' T l l' : tree_at L T l -> core L' T = (ID, enc layout_codec l') -> valid layout_codec l' ->
  discriminator l' = discriminator l -> only [T] L L' -> utxo l' = utxo l -> same_utxo L L'.
Proof.
  intros Hl Hc Hv Hd Ho Hu. apply (frame_same_utxo [T]); [by apply only_frame|]. intros T' u ->%list_elem_of_singleton.
  assert (tree_at L' T l') as Hl' by (split_and!; [done..|]; rewrite Hd; apply Hl). split; intros (k & Hk & <-).
  - exists l'. split; [done|]. by rewrite (tree_at_unique _ _ _ _ Hk Hl).
  - exists l. split; [done|]. by rewrite (tree_at_unique _ _ _ _ Hk Hl').
Qed.

Lemma created_pdas_utxo L L' T first id pdas : created_pdas L L' T first id pdas -> same_utxo L L'.
Proof.
  intros [Ho Hp]. eapply frame_same_utxo; [by apply only_frame|].
  intros p u [[v n] [-> [i Hi]%list_elem_of_lookup]]%list_elem_of_fmap. destruct (Hp i v n Hi) as (_ & Hs & Hd). split.
  - intros Hu. by destruct (system_not_utxo _ _ _ Hs Hu).
  - intros Hu. destruct (not_tree_utxo L' (vaddr v) u _ Hd); [by rewrite head_pda|done].
Qed.

(** Tree code that leaves the state tree as it is. *)
Definition keeps_utxo {X} (m : M TreeAccountLayout ProgramError X) : Prop := forall l a l', m l = (Ok a, l') -> utxo l' = utxo l.

Lemma queue_keeps_utxo vs : keeps_utxo (queue_nullifiers vs).
Proof.
  induction vs as [|v vs IH]; intros l a l' Hr; cbn [queue_nullifiers] in Hr; ix_inv; [done|]. rewrite (IH _ _ _ Hr).
  unfold nullifier_tree, zoom in *. match goal with H : (match ?x with _ => _ end) = _ |- _ => destruct x; by inversion H end.
Qed.

Lemma spend_tree_facts address context count vs l allow slot r l' : spend_tree address context count vs l = (Ok (allow, slot, r), l') ->
  utxo l' = utxo l /\ itr_input_tree r = mkInputTreeSequence address (queue_next_index (nullifier l)).
Proof.
  unfold spend_tree, credit_tree_fee, record_nullifier_pdas_created. intros Hr. ix_inv. cbn.
  match goal with H : queue_nullifiers _ _ = _ |- _ => apply queue_keeps_utxo in H as <- end. done.
Qed.

Lemma spend_input_tree_facts address ix hash b l r d l' : spend_input_tree address ix hash b l = (Ok (r, d), l') ->
  utxo l' = utxo l /\ itr_input_tree r = mkInputTreeSequence address (queue_next_index (nullifier l)).
Proof.
  unfold spend_input_tree, apply_input_tree, credit_tree_fee, record_nullifier_pdas_created. intros Hr. ix_inv. destruct_prods. ix_inv. cbn.
  match goal with H : queue_nullifiers _ _ = _ |- _ => apply queue_keeps_utxo in H as <- end. done.
Qed.

(** ** Spending *)

(** What the event of a spend on [T] says of its tree. *)
Definition tree_sequence (h : bytes -> list bytes) (T : bytes) : InputTreeSequence :=
  mkInputTreeSequence T (1 + Z.of_nat (length (h T))).

Lemma with_tree_spend_event {X} err payer v (m : M TreeAccountLayout ProgramError X) (r : X -> InputTreeResult) pdas vs h L a L1 u L2 :
  good h L ->
  (forall l l', m l = (Ok a, l') -> spend_result vs l l' (r a) /\ utxo l' = utxo l /\
     itr_input_tree (r a) = mkInputTreeSequence (vaddr v) (queue_next_index (nullifier l))) ->
  map snd pdas = vs -> with_tree err v m L = (Ok a, L1) -> create_nullifier_pdas payer v pdas (r a) L1 = (Ok u, L2) ->
  spend L (vaddr v) vs L2 /\ same_utxo L L2 /\ itr_input_tree (r a) = tree_sequence h (vaddr v).
Proof.
  intros Hg Hm Hvs Hr Hc. split; [eapply with_tree_spend; [done| |done..]; intros; by apply Hm|].
  destruct (with_tree_run _ _ _ _ _ _ _ Hg Hr) as (l & l' & Hl & Hrun & Hcore & Ho).
  destruct (Hm l l' Hrun) as ((Hext & _) & Hu & ->). apply create_nullifier_pdas_run in Hc.
  destruct (good_tree _ _ _ _ Hg Hl) as [Hh _]. split.
  - eapply same_utxo_trans; [|by eapply created_pdas_utxo]. eapply tree_change_utxo; [done..| | |done|done].
    + apply (ex_holds _ _ _ Hext _ Hh).
    + apply (ex_disc _ _ _ Hext).
  - unfold tree_sequence. by rewrite (holds_queue_next _ _ Hh).
Qed.

Lemma apply_trees_event payer pdas inputs trees : Forall (fun x => is_bytes 32 (nullifier_hash x)) inputs ->
  length pdas = length inputs -> Forall (fun t => (t.2 <= 49)%nat) trees -> NoDup (map (fun t => vaddr t.1.1) trees) ->
  forall i sequences slots allow h L sequences' slots' allow' L', good h L ->
  apply_trees payer pdas inputs i trees sequences slots allow L = (Ok (sequences', slots', allow'), L') ->
  same_utxo L L' /\ sequences' = sequences ++ map (tree_sequence h) (map (fun t => vaddr t.1.1) trees).
Proof.
  intros Hb Hl. induction 1 as [|[[tree context] count] trees Hc _ IH];
    intros Hnd i sequences slots allow h L sequences' slots' allow' L' Hg Hr; cbn [apply_trees] in Hr.
  { ix_inv. by rewrite app_nil_r. }
  parse_inv. cbn [map fst snd] in *. apply NoDup_cons in Hnd as [Hn Hnd].
  set (vs := map nullifier_hash (filter (fun x => TransactProof.tree_index x = i) inputs)) in *.
  match goal with H : create_nullifier_pdas _ _ _ ?r _ = (_, ?L1) |- _ =>
    assert (spend L (vaddr tree) vs L1 /\ same_utxo L L1 /\ itr_input_tree r = tree_sequence h (vaddr tree)) as (Hs & Hu & Hseq) end.
  { eapply (with_tree_spend_event _ _ _ _ snd _ _ _ _ (_, _, _)); [done| |by apply tree_inputs_nullifiers|done|done].
    intros l1 l2 Hrun. split; [|by eapply spend_tree_facts].
    eapply spend_tree_run; [by apply tree_nullifiers_bytes| |done]. unfold in_width. lia. }
  apply IH with (h := after h [(vaddr tree, vs)]) in Hr
    as [Hu' ->]; [|done|by eapply good_spend].
  split; [by eapply same_utxo_trans|].
  match goal with H : try_push _ sequences _ = Some _ |- _ => unfold try_push in H; case_match; simplify_eq end.
  rewrite <- app_assoc. cbn [app snd]. rewrite Hseq. do 2 f_equal. apply list_fmap_ext. intros j T HT'.
  assert (vaddr tree <> T) as Hne by (intros <-; apply Hn; by eapply list_elem_of_lookup_2).
  unfold tree_sequence, after, spent_on. rewrite filter_cons_False by done. by rewrite app_nil_r.
Qed.

(** ** After the inputs *)

(** Code that changes no state tree. *)
Definition calm {X} (m : Ix X) : Prop := forall L a L', m L = (Ok a, L') -> same_utxo L L'.

Lemma inert_calm {X} (m : Ix X) : inert m -> calm m.
Proof. intros Hm L a L' Hr. by eapply same_core_utxo, Hm. Qed.

Lemma calm_bind {X Y} (m : Ix X) (k : X -> Ix Y) : calm m -> (forall a, calm (k a)) -> calm (mbindM m k).
Proof. intros Hm Hk L b L' (a & L1 & H1 & H2)%mbindM_ok. eapply same_utxo_trans; [by eapply Hm|by eapply Hk]. Qed.

Lemma calm_then {X Y} (m : Ix X) (k : X -> Ix Y) : inert m -> (forall a, calm (k a)) -> calm (mbindM m k).
Proof. intros Hm. apply calm_bind. by apply inert_calm. Qed.

Lemma calm_invoke program metas data seeds : vaddr program <> ID -> calm (token_invoke program metas data seeds).
Proof.
  intros Hp L u L' Hr. apply (frame_same_utxo []); [by eapply token_invoke_frame|]. intros T w HT'. by apply not_elem_of_nil in HT'.
Qed.

Lemma calm_settle s n : settlement_ok s -> calm (settle s n).
Proof.
  intros Hs. destruct s as [a|a|a|a]; cbn [settle settlement_ok] in *; unfold settle_spl_deposit, settle_spl_withdrawal, spl_transfer.
  - apply inert_calm, inert_settle_sol.
  - apply inert_calm, inert_settle_sol.
  - apply calm_then; [inerting|]. intros before. apply calm_bind; [by apply calm_invoke|]. intros _. apply inert_calm. inerting.
  - by apply calm_invoke.
Qed.

Lemma calm_settle_transfers legs : Forall (fun l => settlement_ok l.2) legs -> calm (settle_interface_transfers legs).
Proof.
  induction 1 as [|[t s] legs Hs _ IH]; cbn [settle_interface_transfers]; [apply inert_calm, inert_ret|].
  destruct (negb _); [|apply inert_calm, inert_throw]. apply calm_bind; [by apply calm_settle|done].
Qed.

Lemma calm_lift {X Y} (r : res ProgramError X) (k : X -> Ix Y) : (forall a, r = Ok a -> calm (k a)) -> calm (mbindM (mlift r) k).
Proof. intros Hk L b L' (a & L1 & [Ha ->]%mlift_ok & Hr)%mbindM_ok. by eapply Hk. Qed.

Lemma calm_settle_sums groups sums : Forall (fun g => settlement_ok (dg_settlement g)) groups -> calm (settle_sums groups sums).
Proof.
  intros Hg. induction sums as [|[i total] sums IH]; cbn [settle_sums]; [apply inert_calm, inert_ret|].
  apply calm_lift. intros g Hlk%ok_or_ok. destruct (negb _); [|apply inert_calm, inert_throw]. apply calm_bind.
  - destruct (0 <? total); [|apply inert_calm, inert_ret]. apply calm_settle. by eapply (Forall_lookup_1 _ _ _ _ Hg).
  - intros _. apply calm_lift. intros asset _. apply calm_bind; [done|]. intros. apply inert_calm, inert_ret.
Qed.

Lemma is_cache_no_tree L v u : is_cache L v -> ~ has_utxo L (vaddr v) u.
Proof. intros (d & Hc & _ & Hh). eapply not_tree_utxo; [done|]. by rewrite Hh. Qed.

Lemma cache_write_utxo v slot hash L u L' : is_cache L v -> is_bytes 32 hash ->
  cache_write v slot hash L = (Ok u, L') -> same_utxo L L' /\ is_cache L' v.
Proof.
  intros Hc Hh Hr. assert (is_cache L' v) as Hc' by by eapply cache_write_effects.
  split; [|done]. apply (frame_same_utxo [vaddr v]).
  - unfold cache_write, cache_write_state in Hr. ix_inv. apply frame_upd.
  - intros T w ->%list_elem_of_singleton. split; intros Hu; [by destruct (is_cache_no_tree _ _ _ Hc Hu)|by destruct (is_cache_no_tree _ _ _ Hc' Hu)].
Qed.

Lemma write_entries_utxo v outputs entries L u L' : is_cache L v ->
  Forall (fun o => is_bytes 32 (to_utxo_hash o)) outputs ->
  write_entries v outputs entries L = (Ok u, L') -> same_utxo L L'.
Proof.
  intros Hc Ho. revert L Hc. induction entries as [|e entries IH]; intros L Hc Hr; cbn [write_entries] in Hr; ix_inv; [done|].
  match goal with H : cache_write _ _ _ _ = _ |- _ => apply cache_write_utxo in H as [Hu Hc']; [|done|] end.
  - eapply same_utxo_trans; [done|by apply IH].
  - by eapply Forall_lookup_1 in Ho.
Qed.

(** ** What an event tells *)

(** The event of an instruction that took the ledger from [L], with the spends [h]
    so far, to [L'] with the further spends [sps]: the inputs on each tree are its
    spends in queue order, and the outputs are the leaves appended to the output
    tree from the stated index on. *)
Record event_tells (h : bytes -> list bytes) (sps : list (bytes * list bytes)) (L L' : Ledger) (e : GeneralEvent) : Prop := {
  tells_inputs : forall T, inputs_on T (ge_inputs e) = queued_from (1 + Z.of_nat (length (h T))) (spent_on T sps);
  tells_outputs : exists u u' slot, has_utxo L (ge_output_tree e) u /\ has_utxo L' (ge_output_tree e) u' /\
    ge_first_output_leaf_index e = Smt.next_index u /\
    append_batch UTXO_TREE_HEIGHT (map ou_utxo_hash (ge_outputs e)) slot u = (Ok tt, u');
}.

(** The output tree of an instruction: [T] had [u], and appending [leaves] left [u']. *)
Definition appended (L L' : Ledger) (T : bytes) (first : Z) (leaves : list bytes) : Prop :=
  exists u u' slot, has_utxo L T u /\ has_utxo L' T u' /\ first = Smt.next_index u /\
    append_batch UTXO_TREE_HEIGHT leaves slot u = (Ok tt, u').

Lemma appended_same L L1 L2 L' T first leaves : same_utxo L L1 -> appended L1 L2 T first leaves -> same_utxo L2 L' ->
  appended L L' T first leaves.
Proof.
  intros H1 (u & u' & slot & Hu & Hu' & ? & ?) H2. exists u, u', slot. split_and!; [by apply H1|by apply H2|done..].
Qed.

(** A tree that is given [leaves], and what its code returns. *)
Lemma with_tree_appended {X} err v (m : M TreeAccountLayout ProgramError X) (P : Prop) first leaves slot h L a L' :
  good h L -> traced [] m ->
  (forall l l', m l = (Ok a, l') -> P /\ first = Smt.next_index (utxo l) /\
     append_batch UTXO_TREE_HEIGHT leaves slot (utxo l) = (Ok tt, utxo l')) ->
  with_tree err v m L = (Ok a, L') -> P /\ appended L L' (vaddr v) first leaves.
Proof.
  intros Hg Ht Hm Hr. destruct (with_tree_run _ _ _ _ _ _ _ Hg Hr) as (l & l' & Hl & Hrun & Hcore & Ho).
  destruct (Hm l l' Hrun) as (HP & -> & Ha). split; [done|]. exists (utxo l), (utxo l'), slot.
  pose proof (Ht _ _ _ Hrun) as Hext. destruct (good_tree _ _ _ _ Hg Hl) as [Hh _].
  split_and!; [by exists l| |done|done]. exists l'. split; [|done]. split; [done|].
  split; [apply (ex_holds _ _ _ Hext _ Hh)|]. rewrite (ex_disc _ _ _ Hext). apply Hl.
Qed.

Lemma utxo_tree_run {X} (m : M UtxoTreeLayout TreeError X) l a l' : utxo_tree m l = (Ok a, l') ->
  m (utxo l) = (Ok a, utxo l').
Proof.
  unfold utxo_tree, zoom. destruct (m (utxo l)) as [r u] eqn:E. intros H. pose proof (f_equal fst H) as H1. pose proof (f_equal snd H) as H2.
  cbn [fst snd] in H1, H2. by subst.
Qed.

Lemma credit_output_utxo b l a l' : credit_output_tree_fee b l = (Ok a, l') -> utxo l' = utxo l.
Proof. unfold credit_output_tree_fee, credit_tree_fee. intros Hr. destruct b; ix_inv; done. Qed.

Lemma write_output_tree_facts address ix slot b l w fee l' : write_output_tree address ix slot b l = (Ok (w, fee), l') ->
  tw_output_tree w = address /\ tw_first_output_leaf_index w = Smt.next_index (utxo l) /\
  append_batch UTXO_TREE_HEIGHT (map to_utxo_hash (ti_outputs ix)) slot (utxo l) = (Ok tt, utxo l').
Proof.
  unfold write_output_tree. intros Hr. ix_inv. cbn [tw_output_tree tw_first_output_leaf_index]. split_and!; [done..|].
  match goal with H : utxo_tree _ _ = (Ok ?x, _) |- _ => apply utxo_tree_run in H as ->; destruct x end.
  f_equal. destruct (bool_decide _); ix_inv; [done|]. symmetry. by eapply credit_output_utxo.
Qed.

Lemma merge_write_output_facts address ix seq cache b slot l id w fee l' :
  merge_write_output address ix seq cache b slot l = (Ok (id, w, fee), l') ->
  mw_input_tree w = seq /\ mw_output_tree w = address /\ mw_output_leaf_index w = Smt.next_index (utxo l) /\
  append_batch UTXO_TREE_HEIGHT [mt_output_utxo_hash ix] slot (utxo l) = (Ok tt, utxo l').
Proof.
  unfold merge_write_output, merge_apply_output_tree. intros Hr. ix_inv.
  cbn [mw_input_tree mw_output_tree mw_output_leaf_index]. split_and!; [done..|].
  match goal with H : utxo_tree _ _ = (Ok ?x, _) |- _ => apply utxo_tree_run in H; destruct x end.
  match goal with H : credit_output_tree_fee _ _ = _ |- _ => by rewrite (credit_output_utxo _ _ _ _ H) end.
Qed.

(** A logged event is the last entry of the log. *)
Lemma emit_event_log {X} `{Borsh X} kind (e : X) L u L' : emit_event kind e L = (Ok u, L') ->
  log L' = log L ++ [encode_event_instruction kind e] /\ same_core L L'.
Proof. intros Hr. split; [|by eapply inert_emit_event]. unfold emit_event, emit in Hr. by apply mmodify_ok in Hr as ->. Qed.

(** The calls in the context log nothing. *)
Ltac logging :=
  repeat match goal with
  | H : ?m ?L = (Ok _, ?L') |- log ?L' = _ =>
      let Q := fresh in assert (quiet m) as Q by quieting; rewrite (Q _ _ _ H); clear Q H
  end; try reflexivity.

(** ** Merge *)

Lemma merge_core_event accounts ix binding cache tag slot h L u L' :
  good h L -> Forall (is_bytes 32) (mt_nullifiers ix) -> (length (mt_nullifiers ix) <= 256)%nat ->
  length (mca_nullifier_pdas accounts) = length (mt_nullifiers ix) -> canonical (mt_output_utxo_hash ix) ->
  valid u64 slot -> (forall handle s, cache = Some (handle, s) -> is_cache L handle) ->
  process_merge_core accounts ix binding cache tag slot L = (Ok u, L') ->
  exists w, log L' = log L ++ [encode_event_instruction KindMerge (build_merge_event w tag)] /\
    mw_input_tree w = tree_sequence h (vaddr (mca_input_tree accounts)) /\
    mw_output_tree w = vaddr (mca_output_tree accounts) /\
    appended L L' (mw_output_tree w) (mw_output_leaf_index w) [mt_output_utxo_hash ix].
Proof.
  intros Hg Hvs Hn Hlen Hout Hslot Hcache Hr. unfold process_merge_core, prepare_merge in Hr. parse_inv.
  match goal with H : create_nullifier_pdas _ _ _ ?i _ = (_, ?Lb) |- _ =>
    assert (spend L (vaddr (mca_input_tree accounts)) (mt_nullifiers ix) Lb /\ same_utxo L Lb /\
            itr_input_tree i = tree_sequence h (vaddr (mca_input_tree accounts))) as (Hs & Hu & Hseq) end.
  { eapply (with_tree_spend_event _ _ _ _ fst _ _ _ _ (_, _)); [done| |by apply map_snd_zip|done|done].
    intros l1 l2 Hrun. split; [|by eapply spend_input_tree_facts].
    eapply spend_input_tree_run; [done| |done]. unfold in_width. lia. }
  pose proof (good_spend _ _ _ _ _ Hg Hs) as Hg1.
  match goal with H : cache_state _ _ = _ |- _ => pose proof (inert_cache_state _ _ _ _ H) as Hs1 end.
  match goal with H : collect_tree_fee _ _ _ _ = _ |- _ => pose proof (inert_collect_tree_fee _ _ _ _ _ _ H) as Hs2 end.
  apply emit_event_log in Hr as [Hlog Hs3]. match type of Hlog with _ = log ?Le ++ _ => assert (log Le = log L) as Hquiet by logging end.
  match goal with H : with_tree _ _ (merge_write_output _ _ _ _ _ _) _ = (Ok (_, ?w, _), ?L2) |- _ =>
    pose proof (with_tree_effects _ _ _ _ _ _ _ (same_core_good _ _ _ Hs1 Hg1)
      (merge_write_output_traced _ _ _ _ _ _ Hout Hslot) H) as [_ Hk];
    eapply with_tree_appended with (first := mw_output_leaf_index w) (leaves := [mt_output_utxo_hash ix])
      (P := mw_input_tree w = _ /\ mw_output_tree w = _)
      in H as [[Hw1 Hw2] Happ]; [|by eapply same_core_good|by apply merge_write_output_traced|];
    [exists w|intros l1 l2 (? & ? & ? & ?)%merge_write_output_facts; done] end.
  rewrite Hlog, Hquiet, Hw1, Hw2. split_and!; [done..|].
  eapply appended_same; [|done|].
  - eapply same_utxo_trans; [done|]. by apply same_core_utxo.
  - eapply same_utxo_trans; [by eapply same_core_utxo|]. eapply same_utxo_trans; [|by eapply same_core_utxo].
    destruct cache as [[handle s]|]; ix_inv; [|by intros T w]. eapply cache_write_utxo; [|apply Hout|done].
    eapply cache_keeps; [by eapply same_core_keeps|]. eapply cache_keeps; [done|].
    eapply cache_keeps; [by eapply same_core_keeps|]. eapply cache_keeps; [by eapply spend_keeps|]. by eapply Hcache.
Qed.

(** ** Rebuilding *)

Context `{D : WincodeFormats}.

Definition tells (source : ParsedInstruction) (h : bytes -> list bytes) (sps : list (bytes * list bytes)) (L L' : Ledger) : Prop :=
  exists ev e, log L' = log L ++ [ev] /\ reconstruct_general_event source ev = Ok e /\ event_tells h sps L L' e.

Lemma tells_after source h sps L L0 L' : same_core L L0 -> log L0 = log L -> tells source h sps L0 L' -> tells source h sps L L'.
Proof.
  intros Hs Hl (ev & e & Hlog & Hr & [Hin Hout]). exists ev, e. split_and!; [by rewrite <- Hl|done|]. split; [done|].
  by eapply (appended_same L L0 L' L'); [apply same_core_utxo|exact Hout|].
Qed.

Lemma holds_fits vs l : tree_holds vs l -> 1 + Z.of_nat (length vs) <= 2 ^ 40.
Proof. intros (_ & ZB & q & Hq). pose proof (inv_fits _ _ _ _ _ (ts_queue _ _ _ _ Hq)) as Hf. by rewrite (ts_values _ _ _ _ Hq) in Hf. Qed.

Lemma spend_fits h L T vs L' : good h L -> spend L T vs L' -> 1 + Z.of_nat (length (h T)) <= 2 ^ 40.
Proof. intros Hg (l & _ & _ & Hl & _). destruct (good_tree _ _ _ _ Hg Hl) as [Hh _]. by apply (holds_fits _ l). Qed.

Lemma seq_fits sps h L L' T : good h L -> spend_seq L sps L' -> T ∈ map fst sps -> 1 + Z.of_nat (length (h T)) <= 2 ^ 40.
Proof.
  intros Hg Hs. revert h Hg. induction Hs as [|L T' vs L1 sps L2 H1 _ IH]; intros h Hg Hin; [by apply not_elem_of_nil in Hin|].
  cbn [map fst] in Hin. apply elem_of_cons in Hin as [->|Hin]; [by eapply spend_fits|].
  pose proof (IH _ (good_spend _ _ _ _ _ Hg H1) Hin) as Hf. unfold after in Hf. rewrite length_app in Hf. lia.
Qed.

Lemma appended_index L L' T first leaves : appended L L' T first leaves -> is_u64 first.
Proof.
  intros (u & u' & slot & (l & (_ & Hv & _) & <-) & _ & -> & _). apply layout_valid in Hv as (_ & _ & _ & _ & _ & _ & _ & _ & Hu & _).
  apply utxo_valid in Hu as (Hb & _). unfold Smt.next_index. pose proof (le_val_bound (next_index_bytes (utxo l))) as Hr.
  rewrite Hb in Hr. exact Hr.
Qed.

Lemma sequence_ok h T : is_bytes 32 T -> 1 + Z.of_nat (length (h T)) <= 2 ^ 40 -> input_tree_ok (tree_sequence h T).
Proof. intros HT' Hf. split; [done|]. cbn. unfold in_width. lia. Qed.

Lemma merge_core_tells source accounts ix binding cache tag slot h L u L' : merge_source source ix ->
  good h L -> merge_data_typed ix -> (length (mt_nullifiers ix) <= 256)%nat ->
  length (mca_nullifier_pdas accounts) = length (mt_nullifiers ix) -> canonical (mt_output_utxo_hash ix) ->
  valid u64 slot -> (forall handle s, cache = Some (handle, s) -> is_cache L handle) ->
  is_bytes 32 (vaddr (mca_input_tree accounts)) -> is_bytes 32 (vaddr (mca_output_tree accounts)) -> is_bytes 32 tag ->
  process_merge_core accounts ix binding cache tag slot L = (Ok u, L') ->
  tells source h [(vaddr (mca_input_tree accounts), mt_nullifiers ix)] L L'.
Proof.
  intros Hsrc Hg [Hvs _] Hn Hlen Hout Hslot Hcache Ha1 Ha2 Htag Hr.
  destruct (merge_core_spends _ _ _ _ _ _ _ _ _ _ Hg Hvs Hn Hlen Hout Hslot Hcache Hr) as (L1 & Hs & _).
  pose proof (spend_fits _ _ _ _ _ Hg Hs) as Hf.
  destruct (merge_core_event _ _ _ _ _ _ _ _ _ _ Hg Hvs Hn Hlen Hout Hslot Hcache Hr) as (w & Hlog & Hw1 & Hw2 & Happ).
  destruct (merge_general_event_spec source ix (mw_input_tree w) (mw_output_tree w) (mw_output_leaf_index w) tag Hsrc)
    as (e & He & Hin & Ho & Ht & Hi); [rewrite Hw1; cbn; lia..|].
  eexists _, e. split; [exact Hlog|]. rewrite reconstruct_merge.
  - split; [exact He|]. split.
    + intros T. rewrite Hin, Hw1, spent_on_one. cbn. destruct (decide _) as [<-|]; [done|]. done.
    + rewrite Ht, Hi, Ho. exact Happ.
  - split_and!; cbn; [done| |by rewrite Hw2|by eapply appended_index|done]. rewrite Hw1. constructor; [by apply sequence_ok|done].
Qed.

Lemma merge_parse_trees accounts n slot a L L' : merge_validate_and_parse accounts n slot L = (Ok a, L') ->
  exists rest, accounts = ma_input_tree a :: ma_output_tree a :: rest.
Proof. unfold merge_validate_and_parse. intros Hr. parse_inv. cbn [ma_input_tree ma_output_tree]. iter_facts.
  repeat match goal with H : _ = _ :: _ |- _ => rewrite H; clear H end. by eexists.
Qed.

Lemma merge_ring_parse_trees accounts n slot a L L' : merge_ring_validate_and_parse accounts n slot L = (Ok a, L') ->
  exists rest, accounts = mra_input_tree a :: mra_output_tree a :: rest.
Proof. unfold merge_ring_validate_and_parse. intros Hr. parse_inv. cbn [mra_input_tree mra_output_tree]. iter_facts.
  repeat match goal with H : _ = _ :: _ |- _ => rewrite H; clear H end. by eexists.
Qed.

Lemma load_user_record_tag v L f L' : load_user_record v L = (Ok f, L') -> is_bytes 32 (signing_view_tag f).
Proof.
  unfold load_user_record. intros Hr. parse_inv. cbn [signing_view_tag].
  match goal with H : try_from_account_data _ = Some _ |- _ => apply record_roundtrip in H as [[? _] _] end. done.
Qed.

(** From the handler's checks to the core. *)
Lemma merge_handler_tells source accounts ix binding a now cache tag slot rest views u u' h L L1 L2 L3 L' :
  load_merge_cache a now L1 = (Ok cache, L2) -> process_merge_core accounts ix binding cache tag slot L3 = (Ok u, L') ->
  merge_source source ix -> merge_data_typed ix -> validate_field_elements ix = Ok u' -> valid u64 slot -> views_ok views ->
  views = mca_input_tree accounts :: mca_output_tree accounts :: rest ->
  length (mca_nullifier_pdas accounts) = length (mt_nullifiers ix) -> (length (mt_nullifiers ix) <= 256)%nat ->
  is_bytes 32 tag -> good h L -> same_core L L1 -> same_core L2 L3 -> log L3 = log L ->
  tells source h (merge_spends views ix) L L'.
Proof.
  intros Hc Hr Hsrc Hty Hval Hslot [Hv _] -> Hlen Hn Htag Hg Hs1 Hs3 Hlog.
  pose proof (inert_load_merge_cache _ _ _ _ _ Hc) as Hs2.
  assert (same_core L L3) as Hs by (do 2 (eapply same_core_trans; [done|]); done).
  rewrite !Forall_cons in Hv. destruct Hv as (Hv1 & Hv2 & _). eapply tells_after; [done..|]. cbn [merge_spends].
  eapply merge_core_tells; try done; [by eapply same_core_good|by eapply merge_output_canonical; [apply Hty|]|].
  intros handle s E. eapply cache_keeps; [exact (same_core_keeps _ _ Hs3)|]. exact (load_merge_cache_is_cache _ _ _ _ _ Hc handle s E).
Qed.

Lemma merge_transact_tells source accounts ix h L u L' : views_ok accounts -> merge_source source ix -> merge_data_typed ix ->
  good h L -> process_merge_transact_ix accounts ix L = (Ok u, L') -> tells source h (merge_spends accounts ix) L L'.
Proof.
  intros Hv Hsrc Hty Hg Hr. unfold process_merge_transact_ix, setup_merge_transact in Hr. parse_inv.
  match goal with H : merge_validate_and_parse _ _ _ _ = _ |- _ => destruct (merge_parse_trees _ _ _ _ _ _ H) as [rest Hacc];
    destruct (merge_parse_facts _ _ _ _ _ _ H) as (_ & Hlen & Hn); apply inert_merge_parse in H as Hs1 end.
  match goal with H : load_user_record _ _ = _ |- _ => apply inert_load_user_record in H as Hs2; apply load_user_record_tag in H as Htag end.
  match goal with H : process_merge_core _ _ _ _ _ _ ?L3 = _ |- _ => assert (log L3 = log L) as Hlog by logging end.
  eapply merge_handler_tells; try done; [apply Hg|by eapply same_core_trans].
Qed.

Lemma merge_ring_tells source accounts ix h L u L' : views_ok accounts -> merge_source source (mr_merge ix) ->
  merge_data_typed (mr_merge ix) -> good h L -> process_merge_ring_ix accounts ix L = (Ok u, L') ->
  tells source h (merge_spends accounts (mr_merge ix)) L L'.
Proof.
  intros Hv Hsrc Hty Hg Hr. unfold process_merge_ring_ix, setup_merge_ring in Hr. parse_inv.
  match goal with H : merge_ring_validate_and_parse _ _ _ _ = _ |- _ => destruct (merge_ring_parse_trees _ _ _ _ _ _ H) as [rest Hacc];
    destruct (merge_ring_parse_facts _ _ _ _ _ _ H) as (_ & Hlen & Hn); apply inert_merge_ring_parse in H as Hs1 end.
  match goal with H : process_merge_core _ _ _ _ _ _ ?L3 = _ |- _ => assert (log L3 = log L) as Hlog by logging end.
  eapply merge_handler_tells; try done; [apply Hg|]. eapply Forall_lookup_1; [apply Hty|done].
Qed.

(** ** Transact *)

Lemma parse_input_trees_len n trees it trees' it' L L' : parse_input_trees n trees it L = (Ok (trees', it'), L') ->
  (length (iter_accounts it') <= length (iter_accounts it))%nat.
Proof.
  revert trees it L. induction n as [|n IH]; intros trees it L Hr; cbn [parse_input_trees] in Hr; parse_inv; [done|].
  apply IH in Hr. iter_facts. match goal with H : iter_accounts it = _ |- _ => rewrite H end. cbn [length]. lia.
Qed.

Lemma next_muts_len n e cap pushed it l it' L L' : next_muts n e cap pushed it L = (Ok (l, it'), L') ->
  (length (iter_accounts it') <= length (iter_accounts it))%nat.
Proof.
  revert pushed it L. induction n as [|n IH]; intros pushed it L Hr; cbn [next_muts] in Hr; parse_inv; [done|].
  apply IH in Hr. iter_facts. match goal with H : iter_accounts it = _ |- _ => rewrite H end. cbn [length]. lia.
Qed.

(** The accounts at the end that the event reads. *)
Definition trailing_accounts (ix : TransactIxData) : nat :=
  sum_list (map settlement_account_count (ti_interface_transfers ix)) + cache_account_count (ti_circuit ix).

Lemma from_iter_len it ix payer trees output allow a L L' : from_iter it ix payer trees output allow L = (Ok a, L') ->
  (trailing_accounts ix <= length (iter_accounts it))%nat /\ ta_output_tree a = output.
Proof.
  unfold from_iter, remaining_unchecked. intros Hr. parse_inv. cbn [ta_output_tree]. split; [|done].
  match goal with H : next_muts _ _ _ _ _ _ = _ |- _ => apply next_muts_len in H as Hle end.
  repeat match goal with H : Ok _ = Ok _ |- _ => injection H as <- end. breflect. unfold trailing_accounts.
  rewrite length_drop in *. lia.
Qed.

Lemma settlement_window ix (l : list bytes) : (trailing_accounts ix <= length l)%nat ->
  exists window, settlement_accounts (ti_interface_transfers ix) (ti_circuit ix) l = Some window.
Proof.
  unfold trailing_accounts, settlement_accounts. intros Hl. rewrite !(proj2 (Nat.ltb_ge _ _)) by lia. by eexists.
Qed.

Lemma transact_parse_output accounts ix a L L' : transact_validate_and_parse accounts ix L = (Ok a, L') ->
  ta_output_tree a ∈ accounts /\ (trailing_accounts ix <= length accounts)%nat.
Proof.
  unfold transact_validate_and_parse, validate_program_prefix. intros Hr. parse_inv. apply from_iter_len in Hr as [Hl ->].
  match goal with H : parse_input_trees _ _ _ _ = _ |- _ => apply parse_input_trees_len in H end. iter_facts.
  repeat match goal with H : _ = _ :: _ |- _ => rewrite H in *; clear H end. cbn [length] in *. split; [set_solver|lia].
Qed.

Lemma ring_parse_output accounts ix b a p L L' : ring_validate_and_parse accounts ix b L = (Ok (a, p), L') ->
  ta_output_tree a ∈ accounts /\ (trailing_accounts ix <= length accounts)%nat.
Proof.
  unfold ring_validate_and_parse, validate_program_prefix. intros Hr. parse_inv.
  match goal with H : from_iter _ _ _ _ _ _ _ = _ |- _ => apply from_iter_len in H as [Hl ->] end.
  match goal with H : parse_input_trees _ _ _ _ = _ |- _ => apply parse_input_trees_len in H end. iter_facts.
  repeat match goal with H : _ = _ :: _ |- _ => rewrite H in *; clear H end. cbn [length] in *. split; [set_solver|lia].
Qed.

Lemma fetch_tag_view tag accounts : fetch_tag tag (fun i => map vaddr accounts !! Z.to_nat i) =
  fetch_tag tag (fun i => vaddr <$> accounts !! Z.to_nat i).
Proof. destruct tag; [done|]. cbn [fetch_tag]. by rewrite <- list_lookup_fmap. Qed.

Lemma resolve_outputs_collect accounts outputs acc r : resolve_outputs accounts outputs acc = Ok r ->
  exists outs, collect (resolve_output (map vaddr accounts)) outputs = Ok outs /\ map ou_utxo_hash outs = map to_utxo_hash outputs.
Proof.
  revert acc. induction outputs as [|o outputs IH]; intros acc Hr; cbn [resolve_outputs collect] in *; [by exists []|].
  ix_inv. apply IH in Hr as (outs & -> & Hh). unfold resolve_output, into_resolved in *. ix_inv. rewrite fetch_tag_view.
  match goal with H : fetch_tag _ _ = Ok _ |- _ => rewrite H end. cbn. eexists. split; [reflexivity|]. cbn. by rewrite Hh.
Qed.

(** ** Its inputs *)

Lemma count_inputs_range inputs counts out : count_inputs inputs counts = Ok out ->
  Forall (fun i => (Z.to_nat (TransactProof.tree_index i) < length counts)%nat) inputs.
Proof.
  revert counts. induction inputs as [|i inputs IH]; intros counts Hr; cbn [count_inputs] in Hr; [constructor|]. ix_inv.
  apply IH in Hr. rewrite length_insert in Hr. constructor; [by eapply lookup_lt_Some|done].
Qed.

Lemma contexts_range inputs contexts counts : validate_input_tree_contexts inputs contexts = Ok counts ->
  contexts <> [] /\ Forall (fun i => (Z.to_nat (TransactProof.tree_index i) < length contexts)%nat) inputs.
Proof.
  unfold validate_input_tree_contexts. intros Hr. ix_inv. breflect. split; [by intros ->|].
  match goal with H : count_inputs _ _ = _ |- _ => apply count_inputs_range in H; by rewrite length_replicate in H end.
Qed.

Lemma spent_on_none T inputs i trees : T ∉ trees -> spent_on T (tree_spends inputs i trees) = [].
Proof.
  intros Hn. unfold spent_on. replace (filter _ _) with (@nil (bytes * list bytes)); [done|]. symmetry.
  revert i Hn. induction trees as [|T' trees IH]; intros i Hn; [done|]. cbn [tree_spends]. apply not_elem_of_cons in Hn as [Hne Hn].
  rewrite filter_cons_False by (cbn; congruence). by apply IH.
Qed.

Lemma tree_spends_on T inputs trees : NoDup trees -> forall i k, trees !! k = Some T ->
  spent_on T (tree_spends inputs i trees) =
  map nullifier_hash (filter (fun x => TransactProof.tree_index x = i + Z.of_nat k) inputs).
Proof.
  induction 1 as [|T' trees Hn _ IH]; intros i k Hk; [done|]. cbn [tree_spends].
  change (spent_on T (?x :: ?l)) with (spent_on T ([x] ++ l)). rewrite spent_on_app, spent_on_one.
  destruct k as [|k]; cbn in Hk.
  - injection Hk as ->. rewrite decide_True, spent_on_none, app_nil_r by done. do 2 f_equal. by rewrite Z.add_0_r.
  - rewrite decide_False, (IH (i + 1) k Hk); [|by intros ->; apply Hn; eapply list_elem_of_lookup_2].
    cbn [app]. f_equal. apply list_filter_iff. intros x. lia.
Qed.

Lemma apply_input_trees_event accounts ix counts p h L sequences p' L' : good h L ->
  Forall (fun x => is_bytes 32 (nullifier_hash x)) (ti_inputs ix) -> (length (ti_inputs ix) <= 49)%nat ->
  NoDup (map vaddr (ta_input_trees accounts)) ->
  validate_input_tree_contexts (ti_inputs ix) (ti_tree_contexts ix) = Ok counts ->
  apply_input_trees accounts ix counts p L = (Ok (sequences, p'), L') ->
  same_utxo L L' /\ sequences = map (tree_sequence h) (map vaddr (ta_input_trees accounts)) /\
  length (ta_input_trees accounts) = length (ti_tree_contexts ix).
Proof.
  intros Hg Hb Hn Hnd [Hl Hf]%validate_contexts_facts Hr. unfold apply_input_trees in Hr. parse_inv.
  match goal with H : apply_trees _ _ _ _ _ _ _ _ _ = _ |- _ => rename H into Ht end.
  eapply apply_trees_event in Ht; [|done..| | |done].
  - rewrite zip_trees in Ht by done. destruct Ht as [Hu ->]. split_and!; [done..|]. breflect. done.
  - apply Forall_forall. intros [t c] Hin%list_elem_of_In%in_combine_r%list_elem_of_In. cbn.
    rewrite Forall_forall in Hf. specialize (Hf c Hin). lia.
  - by rewrite zip_trees.
Qed.

(** ** After its inputs *)

Lemma write_cached_outputs_utxo cache ix L u L' : (forall v, writable cache = Some v -> is_cache L v) ->
  Forall (fun o => is_bytes 32 (to_utxo_hash o)) (ti_outputs ix) -> write_cached_outputs cache ix L = (Ok u, L') -> same_utxo L L'.
Proof.
  intros Hc Ho Hr. unfold write_cached_outputs in Hr. destruct (writable cache) as [v|]; [|ix_inv; by intros T w].
  destruct (cache_access (ti_circuit ix)); [|ix_inv; by intros T w]. eapply write_entries_utxo; [by apply Hc|done..].
Qed.

Lemma after_inputs_event accounts ix cache slot is_input legs h L w fee L1 u1 L2 u2 L3 u3 L4 u4 L5 :
  good h L -> Forall canonical (map to_utxo_hash (ti_outputs ix)) -> valid u64 slot ->
  (forall v, writable cache = Some v -> is_cache L v) -> Forall (fun l => settlement_ok l.2) legs ->
  transact_apply_output_tree (ta_output_tree accounts) ix slot is_input L = (Ok (w, fee), L1) ->
  collect_tree_fee (ta_payer accounts) (ta_output_tree accounts) fee L1 = (Ok u1, L2) ->
  check_cache_output_tree cache (tw_output_tree_id w) L2 = (Ok u2, L3) ->
  write_cached_outputs cache ix L3 = (Ok u3, L4) -> settle_interface_transfers legs L4 = (Ok u4, L5) ->
  tw_output_tree w = vaddr (ta_output_tree accounts) /\
  appended L L5 (tw_output_tree w) (tw_first_output_leaf_index w) (map to_utxo_hash (ti_outputs ix)).
Proof.
  intros Hg Ho Hslot Hcache Hlegs Hw Hfee Hcheck Hwc Hset.
  pose proof (write_output_tree_traced (vaddr (ta_output_tree accounts)) ix slot is_input Ho Hslot) as Htr.
  destruct (with_tree_effects _ _ _ _ _ _ _ Hg Htr Hw) as [_ Hk].
  pose proof (inert_collect_tree_fee _ _ _ _ _ _ Hfee) as Hs1. pose proof (inert_check_cache_output_tree _ _ _ _ _ Hcheck) as Hs2.
  eapply (with_tree_appended _ _ _ (tw_output_tree w = _) (tw_first_output_leaf_index w)) in Hw as [Hw1 Happ]; [|done|done|].
  2: { intros l l' (? & ? & ?)%write_output_tree_facts. done. }
  split; [done|]. rewrite Hw1. eapply appended_same; [by intros T u|done|].
  eapply same_utxo_trans; [by apply same_core_utxo|]. eapply same_utxo_trans; [by apply same_core_utxo|].
  eapply same_utxo_trans; [|by eapply calm_settle_transfers]. eapply write_cached_outputs_utxo; [| |done].
  - intros v Hv. apply (cache_keeps _ _ _ (same_core_keeps _ _ Hs2)), (cache_keeps _ _ _ (same_core_keeps _ _ Hs1)).
    by apply (cache_keeps _ _ _ Hk), Hcache.
  - refine (Forall_impl _ _ _ (proj1 (Forall_map _ _ _) Ho) _). by intros o [? _].
Qed.

Lemma quiet_apply_output_tree v ix n b : quiet (transact_apply_output_tree v ix n b).
Proof. apply quiet_with_tree. Qed.

#[local] Hint Resolve quiet_apply_output_tree : quiet.

(** The parsed accounts, of a ring transaction or not. *)
Lemma any_parse_facts accounts ix p a p' L L0 :
  (if is_ring (ti_circuit ix) then
     do! '(a, ring_program_id) <- ring_validate_and_parse accounts ix (is_authority (ti_circuit ix));
     do! field <- mlift (hashed (hash_bytes ring_program_id));
     mret (a, assign_ring_program_id field p)
   else do! a <- transact_validate_and_parse accounts ix; mret (a, p)) L = (Ok (a, p'), L0) ->
  trees_parsed accounts ix a /\ same_core L L0 /\ log L0 = log L /\
  ta_output_tree a ∈ accounts /\ (trailing_accounts ix <= length accounts)%nat.
Proof.
  intros Hr. destruct (is_ring (ti_circuit ix)) eqn:Hc; parse_inv.
  - split; [by eapply ring_parse_facts|]. split; [by eapply inert_ring_parse|]. split; [by eapply quiet_ring_parse|by eapply ring_parse_output].
  - split; [by eapply transact_parse_facts|]. split; [by eapply inert_transact_parse|].
    split; [by eapply quiet_transact_parse|by eapply transact_parse_output].
Qed.

(** What the handler logs. *)
Lemma resolved_transact_event accounts ix prefix tag counts resolved h L u L' :
  transact_data_typed ix -> Forall canonical (map to_utxo_hash (ti_outputs ix)) -> views_ok accounts ->
  validate_input_tree_contexts (ti_inputs ix) (ti_tree_contexts ix) = Ok counts -> good h L ->
  process_resolved_transact accounts ix prefix tag (clock L) counts resolved L = (Ok u, L') ->
  let trees := map vaddr (input_tree_accounts accounts ix) in
  exists w, log L' = log L ++ [encode_event_instruction KindTransact (build_transact_event w (map (tree_sequence h) trees))] /\
    is_bytes 32 (tw_output_tree w) /\ length trees = length (ti_tree_contexts ix) /\
    (trailing_accounts ix <= length accounts)%nat /\ (length (ti_inputs ix) <= 49)%nat /\
    appended L L' (tw_output_tree w) (tw_first_output_leaf_index w) (map to_utxo_hash (ti_outputs ix)).
Proof.
  intros (Hin & _ & _) Hout [Hv _] Hcounts Hg Hr trees. unfold process_resolved_transact, prepare_transact in Hr. parse_inv.
  match goal with H : (if is_ring _ then _ else _) L = _ |- _ =>
    apply any_parse_facts in H as ((Htrees & Hnd & Hn & Hset) & Hs0 & Hlog0 & Hot & Htr) end.
  match goal with H : transact_cache_load _ _ _ = (Ok ?c, ?M) |- _ => rename c into cache, M into L1;
    pose proof (inert_transact_cache_load _ _ _ _ _ H) as Hs1; pose proof (transact_cache_load_is_cache _ _ _ _ _ H) as Hcache end.
  assert (same_core L L1) as Hs by by eapply same_core_trans.
  pose proof (same_core_good _ _ _ Hs Hg) as Hg1.
  assert (Forall (fun x => is_bytes 32 (nullifier_hash x)) (ti_inputs ix)) as Hb.
  { refine (Forall_impl _ _ _ Hin _). by intros ? [? _]. }
  apply emit_event_log in Hr as [Hlog Hs3]. match type of Hlog with _ = log ?Le ++ _ => assert (log Le = log L) as Hquiet by (rewrite <- Hlog0; logging) end.
  match goal with H : apply_input_trees _ _ _ _ _ = _ |- _ =>
    pose proof (apply_input_trees_seq _ _ _ _ _ _ _ _ Hg1 Hb Hn Hcounts H) as Hseq;
    destruct (apply_input_trees_event _ _ _ _ _ _ _ _ _ Hg1 Hb Hn Hnd Hcounts H) as (Hu & Hsq & Hlen) end.
  match goal with H : bind_cached_inputs _ _ _ _ = _ |- _ => pose proof (inert_bind_cached_inputs _ _ _ _ _ _ H) as Hs2 end.
  match goal with H : transact_apply_output_tree _ _ _ _ ?Lo = (Ok (?w, _), _) |- _ => exists w; rename H into Hw end.
  edestruct (after_inputs_event t ix cache (slot (clock L))) as [Hw1 Happ]; [..|exact Hw|done|done|done|done|]; try done; [|apply Hg| | |].
  - eapply same_core_good; [done|]. by eapply effects_good, seq_effects.
  - intros v Hv'. apply (cache_keeps _ _ _ (same_core_keeps _ _ Hs2)), (cache_keeps _ _ _ (seq_keeps _ _ _ Hseq)). by apply Hcache.
  - apply Forall_forall. intros [t' s] Hi%list_elem_of_In%in_combine_r%list_elem_of_In. by eapply Forall_forall in Hset.
  - rewrite Hlog, Hquiet, Hsq, Htrees. split_and!; try done.
    + rewrite Hw1. rewrite Forall_forall in Hv. by apply Hv.
    + unfold trees. by rewrite <- Htrees, length_map.
    + eapply appended_same; [|exact Happ|by apply same_core_utxo].
      eapply same_utxo_trans; [by apply same_core_utxo|]. eapply same_utxo_trans; [done|by apply same_core_utxo].
Qed.

Lemma sequence_trees h trees : map seq_tree (map (tree_sequence h) trees) = trees.
Proof. rewrite map_map. apply map_id. Qed.

Lemma inputs_on_none T inputs (trees : list bytes) : Forall (fun i => in_tree i ∈ trees) inputs -> T ∉ trees -> inputs_on T inputs = [].
Proof.
  intros Hf Hn. unfold inputs_on. induction Hf as [|i inputs Hi _ IH]; [done|].
  rewrite filter_cons_False; [done|]. by intros <-.
Qed.

Lemma inputs_tell h trees inputs ins : NoDup trees -> Forall (fun i => in_tree i ∈ map seq_tree (map (tree_sequence h) trees)) ins ->
  (forall k s, map (tree_sequence h) trees !! k = Some s ->
     inputs_on (seq_tree s) ins = queued_from (first_input_queue_seq s) (nullifiers_of k inputs)) ->
  forall T, inputs_on T ins = queued_from (1 + Z.of_nat (length (h T))) (spent_on T (tree_spends inputs 0 trees)).
Proof.
  intros Hnd Hf Hin T. rewrite sequence_trees in Hf. destruct (decide (T ∈ trees)) as [[k Hk]%list_elem_of_lookup|Hn].
  - rewrite (tree_spends_on T inputs trees Hnd 0 k Hk). apply (Hin k (tree_sequence h T)).
    change (map ?f ?l) with (f <$> l). by rewrite list_lookup_fmap, Hk.
  - by rewrite spent_on_none, (inputs_on_none _ _ _ Hf).
Qed.

Lemma input_tree_bytes accounts ix T : views_ok accounts -> T ∈ map vaddr (input_tree_accounts accounts ix) -> is_bytes 32 T.
Proof.
  intros [Hv _] (v & -> & Hin)%list_elem_of_fmap. rewrite Forall_forall in Hv. apply Hv.
  unfold input_tree_accounts in Hin. by eapply subseteq_drop, subseteq_take.
Qed.

Lemma contexts_few inputs contexts counts : validate_input_tree_contexts inputs contexts = Ok counts -> (length contexts <= 5)%nat.
Proof. unfold validate_input_tree_contexts, MAX_INPUT_TREES. intros Hr. ix_inv. breflect. lia. Qed.

Lemma transact_tells source accounts ix prefix tag h L u L' : views_ok accounts -> transact_source source ix ->
  pi_accounts source = map vaddr accounts -> transact_data_typed ix -> good h L ->
  process_transact_ix accounts ix prefix tag L = (Ok u, L') -> tells source h (transact_spends accounts ix) L L'.
Proof.
  intros Hv Hsrc Hacc Hty Hg Hr.
  destruct (transact_spending accounts ix prefix tag Hty h L u L' Hg Hr) as (Hnd & L0 & L1 & Hs & Hseq & _).
  unfold process_transact_ix in Hr. parse_inv.
  match goal with H : validate_circuit_type _ _ = _ |- _ => pose proof (circuit_type_outputs _ _ _ (proj1 (proj2 Hty)) H) as Hcan end.
  match goal with H : resolve_outputs _ _ _ = _ |- _ => apply resolve_outputs_collect in H as (outs & Houts & Hh) end.
  match goal with H : validate_input_tree_contexts _ _ = _ |- _ => rename H into Hcounts; destruct (contexts_range _ _ _ Hcounts) as [Hne Hrange] end.
  destruct (resolved_transact_event _ _ _ _ _ _ _ _ _ _ Hty Hcan Hv Hcounts Hg Hr) as (w & Hlog & Ho & Hlen & Htr & Hn & Happ).
  destruct (settlement_window ix (pi_accounts source)) as [window Hw]; [by rewrite Hacc, length_map|].
  unfold transact_spends in *. rewrite tree_spends_trees in Hnd. set (trees := map vaddr (input_tree_accounts accounts ix)) in *.
  assert (forall T, T ∈ trees -> is_bytes 32 T /\ 1 + Z.of_nat (length (h T)) <= 2 ^ 40) as Hfit.
  { intros T HT'. split; [by eapply input_tree_bytes|].
    eapply (seq_fits _ h L0 L1); [by eapply same_core_good|done|by rewrite tree_spends_trees]. }
  assert (Forall (fun s => 0 <= first_input_queue_seq s <= 2 ^ 40) (map (tree_sequence h) trees)) as Hseqs.
  { apply Forall_map, Forall_forall. intros T HT'%Hfit. cbn. lia. }
  destruct (transact_general_event_spec source ix window outs (map (tree_sequence h) trees) (tw_output_tree w)
    (tw_first_output_leaf_index w) Hsrc Hw) as (e & He & Htrees & Hin & Ho' & Ht & Hi & _).
  - by rewrite Hacc.
  - intros E%map_eq_nil. rewrite E in Hlen. by destruct (ti_tree_contexts ix).
  - by rewrite sequence_trees.
  - rewrite length_map, Hlen. eapply Forall_impl; [exact (proj2 (Forall_and _ _) (conj Hrange (proj1 Hty)))|]. cbn. lia.
  - eapply Forall_impl; [exact Hseqs|]. cbn. lia.
  - eexists _, e. split; [exact Hlog|]. rewrite reconstruct_transact.
    + split; [exact He|]. split; [by apply inputs_tell|]. rewrite Ht, Hi, Ho', Hh. exact Happ.
    + split_and!; cbn [te_input_trees te_output_tree te_first_output_leaf_index build_transact_event];
        [| |done|by eapply appended_index].
      * unfold small. rewrite length_map, Hlen. pose proof (contexts_few _ _ _ Hcounts). lia.
      * apply Forall_map, Forall_forall. intros T HT'. by apply sequence_ok; apply Hfit.
Qed.

(** ** Deposits *)

Lemma process_entry_hashes c i e sums outs hashes sums' outs' hashes' :
  process_entry c i e (sums, outs, hashes) = Ok (sums', outs', hashes') ->
  map ou_utxo_hash outs = hashes -> map ou_utxo_hash outs' = hashes'.
Proof.
  unfold process_entry, proofless_output_utxo, encrypted_ring_output_utxo. intros Hr Heq. ix_inv. destruct_prods. ix_inv.
  destruct e; ix_inv; by rewrite map_app.
Qed.

Lemma process_entries_hashes c i es sums outs hashes sums' outs' hashes' :
  process_entries c i es (sums, outs, hashes) = Ok (sums', outs', hashes') ->
  map ou_utxo_hash outs = hashes -> map ou_utxo_hash outs' = hashes'.
Proof.
  revert i sums outs hashes. induction es as [|e es IH]; intros i sums outs hashes Hr Heq; cbn [process_entries] in Hr; ix_inv; [done|].
  destruct_prods. eapply IH; [done|]. by eapply process_entry_hashes.
Qed.

Lemma append_entries_facts address ring groups id field zero es slot l sums outs first l' :
  append_entries address ring groups id field zero es slot l = (Ok (sums, outs, first), l') ->
  True /\ first = Smt.next_index (utxo l) /\
  append_batch UTXO_TREE_HEIGHT (map ou_utxo_hash outs) slot (utxo l) = (Ok tt, utxo l').
Proof.
  unfold append_entries. intros Hr. parse_inv. split_and!; [done..|].
  match goal with H : process_entries _ _ _ _ = Ok _ |- _ => apply process_entries_hashes in H as ->; [|done] end.
  match goal with H : utxo_tree _ _ = (Ok ?x, _) |- _ => apply utxo_tree_run in H as ->; by destruct x end.
Qed.

Lemma deposit_event ring accounts assets entries h L u L' : good h L ->
  process_deposit_internal ring accounts assets entries L = (Ok u, L') ->
  exists e, log L' = log L ++ [encode_event_instruction KindDeposit e] /\ event_tells h [] L L' e.
Proof.
  intros Hg Hr. unfold process_deposit_internal, emit_deposit_event in Hr. parse_inv.
  match goal with H : deposit_validate_and_parse _ _ _ _ = (_, ?L0) |- _ => pose proof (deposit_parse_ok _ _ _ _ _ _ _ H) as Hok;
    pose proof (inert_deposit_parse _ _ _ _ _ _ H) as Hs0 end.
  apply emit_event_log in Hr as [Hlog Hs3]. match type of Hlog with _ = log ?Le ++ _ => assert (log Le = log L) as Hquiet by logging end.
  eexists. split; [by rewrite Hlog, Hquiet|]. split; [done|].
  cbn [ge_output_tree ge_first_output_leaf_index ge_outputs].
  match goal with H : with_tree _ _ (append_entries _ _ _ _ _ _ _ _) ?L0 = (Ok (_, ?outs, ?first), ?L1) |- _ =>
    rename H into Ht end.
  eapply (with_tree_appended _ _ _ True) in Ht as [_ Happ];
    [|by eapply same_core_good|apply append_entries_traced, (same_core_good _ _ _ Hs0 Hg)|intros l1 l2; apply append_entries_facts].
  eapply appended_same; [by apply same_core_utxo|exact Happ|].
  eapply same_utxo_trans; [by eapply calm_settle_sums|by apply same_core_utxo].
Qed.

(** ** Every spending instruction *)

Context `{LS : LoaderState} {PD : PdaDisjoint R} {DT : WincodeTyped D}.

Definition spending_tags : list InstructionTag :=
  [Event.Transact; RingTransact; RingAuthorityTransact; MergeTransact; RingMergeTransact].

Lemma decoded_run {X} (o : option X) e (k : X -> Ix unit) L u L' : decoded o e k L = (Ok u, L') ->
  exists x, o = Some x /\ k x L = (Ok u, L').
Proof. unfold decoded. intros (x & L1 & [Hx%ok_or_ok ->]%mlift_ok & Hr)%mbindM_ok. by exists x. Qed.

Lemma spending_tag_byte tag : tag ∈ spending_tags -> tag_try_from (byte_val (byte_of (tag_byte tag))) = Some tag.
Proof. unfold spending_tags. rewrite !elem_of_cons. by intros [->|[->|[->|[->|[->|[]%elem_of_nil]]]]]. Qed.

Lemma dispatch_tells tag accounts payload program_id height h L u L' : views_ok accounts -> tag ∈ spending_tags -> good h L ->
  dispatch tag accounts payload L = (Ok u, L') ->
  tells (mkParsed program_id (map vaddr accounts) (byte_of (tag_byte tag) :: payload) height) h
    (spends accounts (byte_of (tag_byte tag) :: payload)) L L'.
Proof.
  intros Hv Htag Hg Hr. cbn [spends]. rewrite spending_tag_byte by done.
  assert (forall t ix prefix, t ∈ [Event.Transact; RingTransact; RingAuthorityTransact] -> decode_transact payload = Some (ix, prefix) ->
    process_transact_ix accounts ix prefix t L = (Ok u, L') ->
    tells (mkParsed program_id (map vaddr accounts) (byte_of (tag_byte t) :: payload) height) h (transact_spends accounts ix) L L') as Ht.
  { intros t ix prefix Hin Hd Hp. eapply transact_tells; try done; [by exists t, payload, prefix|by eapply decode_transact_typed]. }
  unfold spending_tags in Htag. rewrite !elem_of_cons in Htag.
  destruct Htag as [->|[->|[->|[->|[->|[]%elem_of_nil]]]]]; cbn [dispatch] in Hr; apply decoded_run in Hr as (x & Hx & Hr).
  1-3: destruct x as [ix prefix]; rewrite Hx; apply (Ht _ ix prefix); [set_solver|done..].
  - rewrite Hx. eapply merge_transact_tells; try done; [exists payload; by left|by eapply decode_merge_typed].
  - rewrite Hx. eapply merge_ring_tells; try done; [exists payload; right; by exists x|by eapply decode_merge_ring_typed].
Qed.

(** C13. The event log.  When the program accepts a transact or a merge in a reachable
    ledger, it logs one event, and what an indexer rebuilds from that event and the
    instruction is what happened: on every tree the inputs are exactly the spent
    nullifiers, at the queue positions that follow those of all earlier spends of
    the tree, and the outputs are exactly the leaves that were appended to the output
    tree, starting at the leaf index the event states. *)
Theorem logged_event_tells_spends (tr : list (bytes * list bytes)) (L : Ledger) (program_id : bytes) (accounts : list View)
    (tag : InstructionTag) (payload : bytes) (height : Z) (L' : Ledger) :
  let data := byte_of (tag_byte tag) :: payload in
  reachable tr L -> views_ok accounts -> tag ∈ spending_tags ->
  process_instruction program_id accounts data L = (Ok tt, L') ->
  exists ev e, log L' = log L ++ [ev] /\
    reconstruct_general_event (mkParsed program_id (map vaddr accounts) data height) ev = Ok e /\
    event_tells (fun T => spent_on T tr) (spends accounts data) L L' e.
Proof.
  intros data Hreach Hv Htag Hr. unfold data, process_instruction in Hr. apply require_ok in Hr as [_ Hr].
  apply mbindM_ok in Hr as (t & L1 & [Ht%ok_or_ok ->]%mlift_ok & Hr). rewrite spending_tag_byte in Ht by done. injection Ht as <-.
  by eapply dispatch_tells; [| |apply reachable_good|].
Qed.

(** A deposit logs its event in full: no inputs, and the leaves it appended; the
    indexer reads it back when its vectors are within the wire format's lengths. *)
Theorem logged_deposit_event (tr : list (bytes * list bytes)) (L : Ledger) (program_id : bytes) (accounts : list View)
    (tag : InstructionTag) (payload : bytes) (source : ParsedInstruction) (L' : Ledger) :
  reachable tr L -> tag ∈ [Event.Deposit; RingDeposit] ->
  process_instruction program_id accounts (byte_of (tag_byte tag) :: payload) L = (Ok tt, L') ->
  exists e, let ev := encode_event_instruction KindDeposit e in
    log L' = log L ++ [ev] /\ event_tells (fun T => spent_on T tr) [] L L' e /\
    (general_event_ok e -> reconstruct_general_event source ev = Ok e).
Proof.
  intros Hreach Htag Hr. pose proof (reachable_good _ _ Hreach) as Hg. unfold process_instruction in Hr.
  apply require_ok in Hr as [_ Hr]. apply mbindM_ok in Hr as (t & L1 & [Ht%ok_or_ok ->]%mlift_ok & Hr).
  assert (t = tag) as ->.
  { rewrite !elem_of_cons in Htag. destruct Htag as [->|[->|[]%elem_of_nil]]; by injection Ht. }
  assert (exists e, log L' = log L ++ [encode_event_instruction KindDeposit e] /\
                    event_tells (fun T => spent_on T tr) [] L L' e) as (e & Hlog & He).
  { rewrite !elem_of_cons in Htag. destruct Htag as [->|[->|[]%elem_of_nil]]; cbn [dispatch] in Hr;
      apply decoded_run in Hr as ([assets entries] & _ & Hr); by eapply deposit_event. }
  exists e. split_and!; [done..|]. apply reconstruct_deposit.
Qed.

End events.
