(* ===== verification/Gnark.v ===== *)
(** * The constraint language of the circuits

    The circuits of prover/server/circuits are written against the builder of
    gnark, [frontend.API].  A circuit is read here as what it says of one
    assignment of its variables: a variable is its value in the scalar field, an
    operation of the builder computes the value of its result, and an assertion
    holds or does not.  [circ A] is a circuit with result [A]: [None] when a
    constraint is not satisfied (or the circuit does not compile), and otherwise
    the result with the list of preimages that were hashed on the way.  The
    preimages matter because a soundness theorem can only rely on hash inputs
    somebody computed not to collide; [runs Q m a] says that [m] is satisfied with
    result [a] and hashes only preimages in [Q].

    The builder is not part of the repository, so it is the parameter [Gnark] with
    the laws of its documentation, [GnarkLaws]; so is the hash the gadgets call,
    [CircuitHash], which [PoseidonGadget] instantiates. *)

From S2P Require Import Prelude Hasher.

(** ** Field elements *)

Definition fe (x : Z) : Prop := 0 <= x < bn254_modulus.

#[global] Instance fe_dec x : Decision (fe x).
Proof. unfold fe. solve_decision. Defined.

(** The low [n] bits of [x], least significant first, and the number they make. *)
Definition bits (n : nat) (x : Z) : list Z := map (fun i => Z.b2z (Z.testbit x (Z.of_nat i))) (seq 0 n).

Fixpoint bits_val (bs : list Z) : Z :=
  match bs with
  | [] => 0
  | b :: bs' => b + 2 * bits_val bs'
  end.

Definition is_bit (b : Z) : Prop := b = 0 \/ b = 1.

(** ** The builder *)

Class Gnark : Type := {
  api_add : Z -> Z -> Z;
  api_sub : Z -> Z -> Z;
  api_mul : Z -> Z -> Z;
  api_is_zero : Z -> Z;
  api_select : Z -> Z -> Z -> Z;
  api_to_binary : Z -> nat -> option (list Z);
  api_from_binary : list Z -> Z;
  api_assert_is_equal : Z -> Z -> bool;
  api_assert_is_different : Z -> Z -> bool;
  api_assert_is_boolean : Z -> bool;
  api_range_check : Z -> nat -> bool;
  field_bit_len : nat;
}.

(** The documented meaning: arithmetic is that of the scalar field of BN254,
    [ToBinary] with [n] digits is satisfied by values below [2^n] and, at the
    width of the field, yields the canonical digits. *)
Class GnarkLaws (G : Gnark) : Prop := {
  add_law : forall x y, api_add x y = (x + y) mod bn254_modulus;
  sub_law : forall x y, api_sub x y = (x - y) mod bn254_modulus;
  mul_law : forall x y, api_mul x y = (x * y) mod bn254_modulus;
  is_zero_law : forall x, fe x -> api_is_zero x = if x =? 0 then 1 else 0;
  select_law : forall x y, api_select 1 x y = x /\ api_select 0 x y = y;
  to_binary_law : forall x n, fe x -> (n <= 254)%nat ->
    api_to_binary x n = if x <? 2 ^ Z.of_nat n then Some (bits n x) else None;
  from_binary_law : forall bs, Forall is_bit bs -> api_from_binary bs = bits_val bs mod bn254_modulus;
  assert_equal_law : forall x y, fe x -> fe y -> api_assert_is_equal x y = (x =? y);
  assert_different_law : forall x y, fe x -> fe y -> api_assert_is_different x y = negb (x =? y);
  assert_boolean_law : forall x, fe x -> api_assert_is_boolean x = ((x =? 0) || (x =? 1));
  range_check_law : forall x n, fe x -> (n <= 253)%nat -> api_range_check x n = (x <? 2 ^ Z.of_nat n);
  bit_len_law : field_bit_len = 254%nat;
}.

(** The hash gadget: the value of [PoseidonHash] on the values of its inputs. *)
Class CircuitHash : Type := poseidon : list Z -> Z.

Class CircuitHashLaw (H : CircuitHash) : Prop :=
  poseidon_fe : forall xs, fe (poseidon xs).

(** ** Circuits *)

Definition circ (A : Type) : Type := option (A * list (list Z)).

Definition cret {A} (a : A) : circ A := Some (a, []).

#[global] Instance circ_ret : MRet circ := @cret.
#[global] Instance circ_bind : MBind circ := fun A B f m =>
  match m with
  | Some (a, q) => match f a with Some (b, q') => Some (b, q ++ q') | None => None end
  | None => None
  end.

Definition csat (b : bool) : circ unit := if b then Some (tt, []) else None.

Definition cpanic {A} : circ A := None.

Definition clift {A} (o : option A) : circ A :=
  match o with Some a => Some (a, []) | None => None end.

Definition runs (Q : list Z -> Prop) {A} (m : circ A) (a : A) : Prop :=
  exists q, m = Some (a, q) /\ Forall Q q.

(** A loop [for _, x := range l { s = f(s, x) }]. *)
Fixpoint cfold {A B} (f : A -> B -> circ A) (s : A) (l : list B) : circ A :=
  match l with
  | [] => cret s
  | x :: l' => s' ← f s x; cfold f s' l'
  end.

Fixpoint citer {B} (f : B -> circ unit) (l : list B) : circ unit :=
  match l with
  | [] => cret tt
  | x :: l' => f x;; citer f l'
  end.

Lemma clift_bind {A B} (a : A) (f : A -> circ B) : clift (Some a) ≫= f = f a.
Proof. cbn. by destruct (f a) as [[b q]|]. Qed.

Section api.
Context {G : Gnark} {H : CircuitHash}.

Definition AssertIsEqual (x y : Z) : circ unit := csat (api_assert_is_equal x y).
Definition AssertIsDifferent (x y : Z) : circ unit := csat (api_assert_is_different x y).
Definition AssertIsBoolean (x : Z) : circ unit := csat (api_assert_is_boolean x).
Definition ToBinary (x : Z) (n : nat) : circ (list Z) := clift (api_to_binary x n).
Definition RangeCheck (x : Z) (n : nat) : circ unit := csat (api_range_check x n).

(** [PoseidonHash] takes 1 to 16 inputs and panics on other counts. *)
Definition PoseidonHash (inputs : list Z) : circ Z :=
  if ((length inputs =? 0) || (16 <? length inputs))%nat then cpanic else Some (poseidon inputs, [inputs]).

End api.

(** ** Running a circuit *)

Section runs.
Context (Q : list Z -> Prop).

Lemma runs_ret {A} (a b : A) : runs Q (cret a) b <-> a = b.
Proof. split; [intros (q & E & _); by injection E|]. intros ->. by exists []. Qed.

Lemma runs_bind {A B} (m : circ A) (f : A -> circ B) b :
  runs Q (m ≫= f) b <-> exists a, runs Q m a /\ runs Q (f a) b.
Proof.
  unfold runs, mbind, circ_bind. split.
  - intros (q & E & Hq). destruct m as [[a q1]|]; [|done]. destruct (f a) as [[b' q2]|] eqn:Ef; [|done].
    injection E as -> <-. apply Forall_app in Hq as [? ?]. exists a. split; [by exists q1|]. exists q2. by rewrite Ef.
  - intros (a & (q1 & -> & H1) & (q2 & -> & H2)). exists (q1 ++ q2). split; [done|]. by apply Forall_app.
Qed.

Lemma runs_csat b u : runs Q (csat b) u <-> b = true.
Proof.
  unfold csat. destruct b; split; try done; [|by intros (? & ? & _)]. intros _. destruct u. by exists [].
Qed.

Lemma runs_clift {A} (o : option A) a : runs Q (clift o) a <-> o = Some a.
Proof.
  destruct o as [x|]; simpl; (split; [intros (q & E & _)|intros E]); try done; injection E as ->; [done|].
  by exists [].
Qed.

Lemma runs_panic {A} (a : A) : runs Q cpanic a <-> False.
Proof. split; [by intros (? & ? & _)|done]. Qed.

Lemma runs_mapM {A B} (f : A -> circ B) l k :
  runs Q (mapM f l) k <-> Forall2 (fun x y => runs Q (f x) y) l k.
Proof.
  revert k. induction l as [|x l IH]; intros k; simpl.
  - rewrite runs_ret. split; [intros <-; constructor|]. by inversion 1.
  - rewrite runs_bind. split.
    + intros (y & Hy & Hk). apply runs_bind in Hk as (ys & Hys & Hk). apply runs_ret in Hk as <-.
      constructor; [done|]. by apply IH.
    + inversion 1 as [|? y ? ys Hy Hys]; subst. exists y. split; [done|]. apply runs_bind. exists ys.
      split; [by apply IH|]. by apply runs_ret.
Qed.

Lemma runs_citer {B} (f : B -> circ unit) l u :
  runs Q (citer f l) u <-> Forall (fun x => runs Q (f x) tt) l.
Proof.
  destruct u. induction l as [|x l IH]; simpl.
  - rewrite runs_ret. split; [constructor|done].
  - rewrite runs_bind, Forall_cons. split; [intros ([] & ? & ?); tauto|]. intros [? ?]. exists tt. tauto.
Qed.

Lemma runs_cfold_snoc {A B} (f : A -> B -> circ A) s l x s' :
  runs Q (cfold f s (l ++ [x])) s' <-> exists t, runs Q (cfold f s l) t /\ runs Q (f t x) s'.
Proof.
  revert s. induction l as [|y l IH]; intros s; simpl.
  - rewrite runs_bind. setoid_rewrite runs_ret. split; [|naive_solver].
    intros (t & ? & <-). by exists s.
  - rewrite runs_bind. setoid_rewrite IH. setoid_rewrite runs_bind. naive_solver.
Qed.

(** An invariant of a loop. *)
Lemma runs_cfold_inv {A B} (f : A -> B -> circ A) (I : nat -> A -> Prop) l s s' :
  runs Q (cfold f s l) s' -> I 0%nat s ->
  (forall i x t t', l !! i = Some x -> I i t -> runs Q (f t x) t' -> I (S i) t') ->
  I (length l) s'.
Proof.
  revert I s. induction l as [|x l IH]; intros I s Hrun H0 Hstep; simpl in *.
  - by apply runs_ret in Hrun as <-.
  - apply runs_bind in Hrun as (t & Ht & Hrun). apply (IH (fun i => I (S i)) t Hrun); [by eapply (Hstep 0%nat)|].
    intros i y u u' Hy. by apply (Hstep (S i)).
Qed.

Lemma runs_mono {A} (m : circ A) a (Q' : list Z -> Prop) : (forall x, Q x -> Q' x) -> runs Q m a -> runs Q' m a.
Proof. intros HQ (q & ? & ?). exists q. split; [done|]. by eapply Forall_impl. Qed.

End runs.

#[global] Opaque cpanic.

(** Unfolds one [runs] hypothesis into the facts it is made of. *)
Ltac cinv_one :=
  match goal with
  | H : runs _ (cret _) _ |- _ => apply runs_ret in H; subst
  | H : runs _ (mbind _ _) _ |- _ => apply runs_bind in H as (? & ? & H)
  | H : runs _ (csat _) _ |- _ => apply runs_csat in H
  | H : runs _ cpanic _ |- _ => by apply runs_panic in H
  | H : runs _ (if ?b then _ else _) _ |- _ => let E := fresh "Hb" in destruct b eqn:E
  end.

Ltac cinv := repeat cinv_one.

(** Builds a run from the facts it is made of. *)
Ltac crun :=
  repeat match goal with
  | |- runs _ (cret _) _ => apply runs_ret; reflexivity
  | |- runs _ (mbind _ _) _ => apply runs_bind; eexists; split
  | |- runs _ (csat _) _ => apply runs_csat
  end.

(** Reads a [runs] hypothesis through a specification, its side conditions by [t]. *)
Tactic Notation "cspec" uconstr(lem) "by" tactic3(t) :=
  match goal with
  | H : runs _ _ _ |- _ => apply lem in H; [|solve [t]..]
  end.

(** Takes the first action of a sequence off a [runs] hypothesis. *)
Tactic Notation "cbind" hyp(H) "as" simple_intropattern(x) ident(Hx) :=
  apply runs_bind in H as (x & Hx & H).
