(* ===== verification/Gadgets.v ===== *)
(** * The circuit gadgets

    prover/server/circuits/gadget: Merkle roots, the indexed leaf, the full-field
    comparison, conditional equality, the hash chains and byte packing.  Each
    gadget is a [circ] in the shape of its [DefineGadget].  A loop over an index
    range is a [cfold] over that range, an index out of range a panic. *)

From S2P Require Import Prelude Hasher Gnark.

Section gadgets.
Context {G : Gnark} {H : CircuitHash}.

(** ** proof_gadgets.go and indexed.go *)

Definition ProveParentHash (Bit Hash Sibling : Z) : circ Z :=
  AssertIsBoolean Bit;;
  PoseidonHash [api_select Bit Sibling Hash; api_select Bit Hash Sibling].

Definition MerkleRootGadget (Hash : Z) (Index Path : list Z) (Height : nat) : circ Z :=
  cfold (fun currentHash i =>
    bit ← clift (Index !! i);
    sibling ← clift (Path !! i);
    ProveParentHash bit currentHash sibling) Hash (seq 0 Height).

Definition MerkleRootUpdateGadget (OldRoot OldLeaf NewLeaf : Z) (PathIndex MerkleProof : list Z) (Height : nat) : circ Z :=
  oldRoot ← MerkleRootGadget OldLeaf PathIndex MerkleProof Height;
  AssertIsEqual oldRoot OldRoot;;
  MerkleRootGadget NewLeaf PathIndex MerkleProof Height.

Definition IndexedLeafHash (value nextValue : Z) : circ Z := PoseidonHash [value; nextValue].

(** ** full_field_compare.go *)

Record fieldLimbs : Type := mkLimbs {
  limb_lo : Z;
  limb_hi : Z;
  loBits : nat;
  hiBits : nat;
}.

Definition CanonicalLimbs (x : Z) : circ fieldLimbs :=
  bs ← ToBinary x field_bit_len;
  let half := (length bs / 2)%nat in
  cret (mkLimbs (api_from_binary (take half bs)) (api_from_binary (drop half bs)) half (length bs - half)).

Definition isLessBounded (x y : Z) (k : nat) : circ Z :=
  let offset := 2 ^ Z.of_nat k in
  let d := api_add (api_sub x y) offset in
  bs ← ToBinary d (k + 1);
  top ← clift (bs !! k);
  cret (api_sub 1 top).

Definition IsLessLimbs (a b : fieldLimbs) : circ Z :=
  hiLess ← isLessBounded (limb_hi a) (limb_hi b) (hiBits a `max` hiBits b);
  let hiEqual := api_is_zero (api_sub (limb_hi a) (limb_hi b)) in
  loLess ← isLessBounded (limb_lo a) (limb_lo b) (loBits a `max` loBits b);
  cret (api_add hiLess (api_mul hiEqual loLess)).

Definition AssertIsLessFullField (a b : Z) : circ unit :=
  la ← CanonicalLimbs a;
  lb ← CanonicalLimbs b;
  r ← IsLessLimbs la lb;
  AssertIsEqual r 1.

Definition AssertStrictlyOrderedFullField (lo mid hi : Z) : circ unit :=
  AssertIsLessFullField lo mid;;
  AssertIsLessFullField mid hi.

(** ** conditional_cmp.go *)

Definition AssertEqualWhen (Cond A B : Z) : circ unit := AssertIsEqual (api_mul Cond (api_sub A B)) 0.

Definition AssertZeroWhen (Cond V : Z) : circ unit := AssertIsEqual (api_mul Cond V) 0.

(** ** hashchain.go *)

Definition HashChainGadget (Inputs : list Z) : circ Z :=
  h ← clift (head Inputs);
  cfold (fun h input => PoseidonHash [h; input]) h (tail Inputs).

Definition HashChain (inputs : list Z) : circ Z :=
  if (length inputs =? 0)%nat then cret 0 else HashChainGadget inputs.

Definition RightHashChain (inputs : list Z) : circ Z :=
  if (length inputs =? 0)%nat then cret 0 else
  h ← clift (last inputs);
  cfold (fun h input => PoseidonHash [input; h]) h (reverse (removelast inputs)).

(** An input with whether the compiler knows it to be the constant zero.  The
    accumulator is that constant until the first input is taken. *)
Definition NonZeroHashChainGadget (Inputs : list (Z * bool)) : circ Z :=
  '(h, _) ← cfold (fun '(h, h_const) '(input, isConstantZero) =>
    if (isConstantZero : bool) then cret (h, h_const)
    else if (h_const : bool) then cret (input, false)
    else
      next ← PoseidonHash [h; input];
      cret (api_select (api_is_zero input) h (api_select (api_is_zero h) input next), false))
    (0, true) Inputs;
  cret h.

Definition NonZeroHashChain (inputs : list (Z * bool)) : circ Z :=
  if (length inputs =? 0)%nat then cret 0 else NonZeroHashChainGadget inputs.

(** [for start := 1; start < len; start += 3]. *)
Definition HashChain4Gadget (Inputs : list Z) : circ Z :=
  h ← clift (head Inputs);
  cfold (fun h k =>
    let start := (1 + 3 * k)%nat in
    PoseidonHash (h :: map (fun j => default 0 (Inputs !! (start + j)%nat)) [0; 1; 2]%nat))
    h (seq 0 ((length Inputs + 1) / 3)).

Definition HashChain4 (inputs : list Z) : circ Z :=
  match inputs with
  | [] => cret 0
  | [x] => cret x
  | _ => HashChain4Gadget inputs
  end.

(** [for end := len - 1; end > 0; end = start]. *)
Definition RightHashChain4Gadget (Inputs : list Z) : circ Z :=
  h ← clift (last Inputs);
  cfold (fun h k =>
    let stop := (length Inputs - 1 - 3 * k)%nat in
    let start := (stop - 3)%nat in
    PoseidonHash (map (fun j => if (start + j <? stop)%nat then default 0 (Inputs !! (start + j)%nat) else 0) [0; 1; 2]%nat ++ [h]))
    h (seq 0 ((length Inputs + 1) / 3)).

Definition RightHashChain4 (inputs : list Z) : circ Z :=
  match inputs with
  | [] => cret 0
  | [x] => cret x
  | _ => RightHashChain4Gadget inputs
  end.

(** ** poseidon_ctr.go *)

Definition PoseidonCtrGadget (Domain Key Nonce : Z) (Plaintext : list Z) : circ (list Z) :=
  mapM (fun '(i, element) =>
    pad ← PoseidonHash [Domain; Key; Nonce; Z.of_nat i];
    cret (api_add element pad)) (imap pair Plaintext).

Definition Encrypt (Domain Key Nonce : Z) (plaintext : list Z) : circ (list Z) :=
  if (length plaintext =? 0)%nat then cret [] else PoseidonCtrGadget Domain Key Nonce plaintext.

(** ** bytes.go and hash_bytes.go

    A byte checker is the range checker, the bit decomposition, or none when the
    caller has already bounded the bytes. *)

Definition HashBytesChunkSize : nat := 31.
Definition byteBits : nat := 8.

Definition BitChecker (v : Z) (n : nat) : circ unit := ToBinary v n;; cret tt.
Definition boundedBytes (v : Z) (n : nat) : circ unit := cret tt.

Definition BytesToFieldWith (rc : Z -> nat -> circ unit) (bs : list Z) : circ Z :=
  if (HashBytesChunkSize + 1 <? length bs)%nat then cpanic else
  (if (length bs =? HashBytesChunkSize + 1)%nat then first ← clift (head bs); AssertIsEqual first 0 else cret tt);;
  if (field_bit_len <=? byteBits * (length bs `min` HashBytesChunkSize))%nat then cpanic else
  cfold (fun acc b => rc b byteBits;; cret (api_add (api_mul acc 256) b)) 0 bs.

Definition BitsToBytesBE (bs : list Z) : circ (list Z) :=
  if negb (length bs mod byteBits =? 0)%nat then cpanic else
  let n := (length bs / byteBits)%nat in
  cret (map (fun i => api_from_binary (take byteBits (drop ((n - 1 - i) * byteBits)%nat bs))) (seq 0 n)).

Definition FieldToBytesBE (value : Z) : circ (list Z) :=
  if (256 <? field_bit_len)%nat then cpanic else
  bs ← ToBinary value field_bit_len;
  BitsToBytesBE (bs ++ replicate (256 - length bs) 0).

Definition PackBytesBEWith (rc : Z -> nat -> circ unit) (bs : list Z) : circ (list Z) :=
  mapM (BytesToFieldWith rc) (chunks HashBytesChunkSize bs).

Definition HashBytesWith (rc : Z -> nat -> circ unit) (bs : list Z) : circ Z :=
  fields ← PackBytesBEWith rc bs;
  HashChain fields.

Definition HashBytes (bs : list Z) : circ Z := HashBytesWith RangeCheck bs.
Definition HashBoundedBytes (bs : list Z) : circ Z := HashBytesWith boundedBytes bs.

Definition solanaOwnerPreimage (key : list Z) : list Z := 83 :: key.
Definition SolanaOwnerIdentity (key : list Z) : circ Z := HashBytes (solanaOwnerPreimage key).
Definition SolanaOwnerIdentityBounded (key : list Z) : circ Z := HashBoundedBytes (solanaOwnerPreimage key).

(** [FieldLowBytesBE]: the hinted high part and bytes are the prover's choice. *)
Definition FieldLowBytesBE (rc : Z -> nat -> circ unit) (value : Z) (n : nat) (high : Z) (bs : list Z) : circ (list Z) :=
  if ((n <? 1) || (HashBytesChunkSize <? n))%nat || negb (length bs =? n)%nat then cpanic else
  let lowBits := (byteBits * n)%nat in
  low ← BytesToFieldWith rc bs;
  rc high (field_bit_len - lowBits)%nat;;
  AssertIsEqual value (api_add (api_mul high (2 ^ Z.of_nat lowBits)) low);;
  let qHigh := Z.shiftr bn254_modulus (Z.of_nat lowBits) in
  let qLow := bn254_modulus - Z.shiftl qHigh (Z.of_nat lowBits) in
  rc (api_sub qHigh high) (Z.to_nat (Z.log2 qHigh + 1));;
  let atBound := api_is_zero (api_sub high qHigh) in
  rc (api_mul atBound (api_sub (qLow - 1) low)) lowBits;;
  cret bs.

End gadgets.
