(* ===== verification/PrimeField.v ===== *)
(** * The scalar field is a field

    The circuits multiply differences to test membership, which is only sound in a
    field.  The scalar modulus of BN254 is proved prime here with Pocklington
    certificates, checked by evaluation: for a prime factor [q] of [n - 1] and a
    base [a] with [a^(n-1) = 1] and [a^((n-1)/q) - 1] invertible modulo [n], every
    prime divisor of [n] is 1 modulo [q]; with enough such factors it exceeds the
    square root of [n]. *)

From Stdlib Require Import Znumtheory Zmod.ZmodInv.
From S2P Require Import Prelude Hasher.

Fixpoint powmod (a : Z) (e : positive) (n : Z) : Z :=
  match e with
  | xH => a mod n
  | xO e' => let b := powmod a e' n in (b * b) mod n
  | xI e' => let b := powmod a e' n in ((b * b) mod n * a) mod n
  end.

Lemma powmod_spec a e n : powmod a e n = a ^ Zpos e mod n.
Proof.
  induction e as [e IH|e IH|]; cbn [powmod]; [| |by rewrite Z.pow_1_r].
  - rewrite IH, Zmult_mod_idemp_l, Pos2Z.inj_xI, Z.pow_add_r, Z.pow_1_r, Z.pow_twice_r by lia.
    rewrite Zmult_mod. rewrite <- Zmult_mod. rewrite <- (Zmult_mod_idemp_l (_ * _)). rewrite <- Zmult_mod.
    by rewrite Zmult_mod_idemp_l.
  - rewrite IH, Pos2Z.inj_xO, Z.pow_twice_r by lia. by rewrite <- Zmult_mod.
Qed.

(** One factor of a certificate: a prime [q] and the inverse of [a^((n-1)/q) - 1]. *)
Definition factor_ok (n a : Z) '((q, u) : Z * Z) : bool :=
  let c := powmod a (Z.to_pos ((n - 1) / q)) n in
  ((n - 1) mod q =? 0) && (powmod c (Z.to_pos q) n =? 1) && ((c - 1) * u mod n =? 1).

Lemma mod_divisor x y n r : (r | n) -> 0 < r -> x mod n = y mod n -> x mod r = y mod r.
Proof.
  intros [k ->] Hr E. assert (x = y + (k * (x / (k * r) - y / (k * r))) * r) as ->.
  { destruct (Z.eq_dec (k * r) 0) as [E0|Hne].
    - rewrite E0, !Zmod_0_r in E. rewrite E0, !Zdiv_0_r. lia.
    - pose proof (Z.div_mod x (k * r) Hne). pose proof (Z.div_mod y (k * r) Hne). nia. }
  apply Z_mod_plus_full.
Qed.

Lemma one_mod_divisor x n r : 1 < n -> (r | n) -> 1 < r -> x mod n = 1 -> x mod r = 1.
Proof.
  intros Hn Hr H1 E. rewrite <- (Z.mod_small 1 r) by lia. apply (mod_divisor _ _ n); [done|lia|].
  by rewrite (Z.mod_small 1 n) by lia.
Qed.

Lemma pow_one_mod c k r : 1 < r -> 0 <= k -> c mod r = 1 -> c ^ k mod r = 1.
Proof. intros Hr Hk Hc. rewrite <- Z.mod_pow_l, Hc, Z.pow_1_l by lia. by apply Z.mod_small. Qed.

(** If [q] and [m] are coprime, an element whose [q]-th and [m]-th powers are 1 is 1. *)
Lemma coprime_powers c q m r : 1 < r -> 0 < q -> 0 < m -> Z.coprime q m ->
  c ^ q mod r = 1 -> c ^ m mod r = 1 -> c mod r = 1.
Proof.
  intros Hr Hq Hm Hqm H1 H2.
  assert (exists x k, 0 <= x /\ 0 <= k /\ x * q = 1 + k * m) as (x & k & Hx & Hk & E).
  { destruct (Z.eq_dec m 1) as [->|Hm1]; [exists 1, (q - 1); lia|].
    pose proof (Z.invmod_coprime' q m Hqm) as Hinv. rewrite (Z.mod_small 1) in Hinv by lia.
    assert (0 <= Z.invmod q m) by (rewrite <- Z.mod_invmod; apply Z.mod_pos_bound; lia).
    pose proof (Z.div_mod (Z.invmod q m * q) m ltac:(lia)). exists (Z.invmod q m), (Z.invmod q m * q / m).
    split_and!; [done|apply Z.div_pos; nia|lia]. }
  pose proof (pow_one_mod (c ^ q) x r Hr Hx H1) as Hl. rewrite <- Z.pow_mul_r in Hl by lia.
  rewrite Z.mul_comm, E, Z.pow_add_r, Z.pow_1_r, (Z.mul_comm k), Z.pow_mul_r in Hl by lia.
  rewrite <- Zmult_mod_idemp_r, (pow_one_mod _ k r Hr Hk H2), Z.mul_1_r in Hl. done.
Qed.

(** Every prime divisor of [n] is 1 modulo the factor. *)
Lemma factor_divides n a q u r : 1 < n -> Z.prime q -> factor_ok n a (q, u) = true -> Z.prime r -> (r | n) -> (q | r - 1).
Proof.
  intros Hn Hq Hok Hr Hrn. unfold factor_ok in Hok. rewrite !andb_true_iff, !Z.eqb_eq in Hok.
  set (c := powmod a _ n) in Hok. rewrite powmod_spec in Hok. destruct Hok as [[_ Hcq] Hinv].
  pose proof (Z.prime_ge_2 q Hq). pose proof (Z.prime_ge_2 r Hr). rewrite Z2Pos.id in Hcq by lia.
  apply (one_mod_divisor _ n r Hn Hrn ltac:(lia)) in Hcq, Hinv.
  destruct (Zdivide_dec q (r - 1)) as [?|Hndiv]; [done|]. exfalso.
  assert (c mod r <> 0) as Hc0.
  { intros E. rewrite <- Z.mod_pow_l, E, Z.pow_0_l, Z.mod_0_l in Hcq by lia. lia. }
  pose proof (Z.fermat_nz r c Hr Hc0) as Hfermat.
  pose proof (coprime_powers c q (r - 1) r ltac:(lia) ltac:(lia) ltac:(lia) (Z.coprime_prime_l _ _ Hq Hndiv) Hcq Hfermat) as Hc1.
  assert ((c - 1) mod r = 0) as E0 by (rewrite <- Zminus_mod_idemp_l, Hc1; by rewrite Z.mod_0_l by lia).
  rewrite <- Zmult_mod_idemp_l, E0, Z.mod_0_l in Hinv by lia. done.
Qed.

(** Trial division. *)
Definition trial (n : Z) : bool :=
  (1 <? n) && forallb (fun d => negb (n mod Z.of_nat d =? 0)) (seq 2 (Z.to_nat (Z.sqrt n) - 1)).

Lemma small_divisor n : 1 < n -> ~ Z.prime n -> exists d, 1 < d /\ d * d <= n /\ (d | n).
Proof.
  intros Hn Hp. rewrite prime_alt in Hp. destruct (not_prime_divide n Hn Hp) as (d & Hd & k & ->).
  destruct (Z.le_gt_cases d k); [exists d|exists k]; split_and!; try nia; [by exists k|by exists d; lia].
Qed.

Lemma prime_divisor n : 1 < n -> exists r, Z.prime r /\ (r | n).
Proof.
  intros Hn. remember (Z.to_nat n) as m eqn:Hm. revert n Hn Hm. induction m as [m IH] using lt_wf_ind. intros n Hn ->.
  destruct (prime_dec n) as [Hp|Hp]; rewrite <- prime_alt in Hp; [by exists n|].
  destruct (small_divisor n Hn Hp) as (d & Hd & Hdd & Hdn).
  destruct (IH (Z.to_nat d) ltac:(nia) d Hd eq_refl) as (r & Hr & Hrd). exists r. split; [done|]. by etrans.
Qed.

Lemma trial_prime n : trial n = true -> Z.prime n.
Proof.
  intros [Hn%Z.ltb_lt Hall]%andb_true_iff. rewrite forallb_forall in Hall.
  destruct (prime_dec n) as [Hp|Hp]; rewrite <- prime_alt in Hp; [done|].
  destruct (small_divisor n Hn Hp) as (d & Hd & Hdd & Hdn). apply Z.sqrt_le_square in Hdd; [|lia..].
  specialize (Hall (Z.to_nat d)). rewrite Z2Nat.id, in_seq in Hall by lia.
  apply Z.mod_divide in Hdn; [|lia]. rewrite Hdn in Hall. discriminate Hall. lia.
Qed.

Fixpoint zprod (l : list Z) : Z := match l with [] => 1 | x :: l' => x * zprod l' end.

Lemma zprod_pos l : Forall Z.prime l -> 0 < zprod l.
Proof. induction 1 as [|q l Hq _ IH]; cbn [zprod]; [lia|]. pose proof (Z.prime_ge_2 q Hq). nia. Qed.

Lemma prime_not_zprod q l : Z.prime q -> Forall Z.prime l -> q ∉ l -> ~ (q | zprod l).
Proof.
  intros Hq Hl. induction Hl as [|x l Hx _ IH]; cbn [zprod]; intros Hnin Hd.
  - apply Z.divide_1_r in Hd. pose proof (Z.prime_ge_2 q Hq). lia.
  - apply not_elem_of_cons in Hnin as [Hne Hnin]. apply Z.divide_prime_mul in Hd as [Hd|Hd]; [|by apply IH|done].
    by apply Z.divide_prime_prime in Hd.
Qed.

(** Distinct primes dividing [m] divide it together. *)
Lemma zprod_divides l m : Forall Z.prime l -> NoDup l -> (forall q, q ∈ l -> (q | m)) -> (zprod l | m).
Proof.
  induction l as [|q l IH]; intros Hl Hnd Hm; cbn [zprod]; [apply Z.divide_1_l|].
  apply Forall_cons in Hl as [Hq Hl]. apply NoDup_cons in Hnd as [Hnin Hnd].
  destruct (Hm q (list_elem_of_here _ _)) as [k ->].
  assert (zprod l | k * q) as Hd by (apply IH; [done..|]; intros; apply Hm; by apply list_elem_of_further).
  rewrite Z.mul_comm in Hd. apply Z.gauss in Hd; [destruct Hd as [j ->]; exists j; lia|].
  rewrite Z.gcd_comm. apply (Z.coprime_prime_l q); [done|]. by apply prime_not_zprod.
Qed.

Definition certified (n a : Z) (l : list (Z * Z)) : bool :=
  (1 <? n) && forallb (factor_ok n a) l && (n <? zprod l.*1 * zprod l.*1).

Lemma pocklington n a l : Forall Z.prime l.*1 -> NoDup l.*1 -> certified n a l = true -> Z.prime n.
Proof.
  intros Hl Hnd Hc. unfold certified in Hc. rewrite !andb_true_iff, !Z.ltb_lt, forallb_forall in Hc. destruct Hc as [[Hn Hf] Hbig].
  destruct (prime_dec n) as [Hp|Hp]; rewrite <- prime_alt in Hp; [done|].
  destruct (small_divisor n Hn Hp) as (d & Hd & Hdd & Hdn). destruct (prime_divisor d Hd) as (r & Hr & Hrd).
  assert (forall q, q ∈ l.*1 -> (q | r - 1)) as Hdiv.
  { intros q ([q' u] & -> & Hin)%list_elem_of_fmap. apply (factor_divides n a q' u r); [done| | |done|by etrans].
    - rewrite Forall_forall in Hl. apply Hl. by apply (list_elem_of_fmap_2 fst _ (q', u)).
    - by apply Hf, list_elem_of_In. }
  pose proof (zprod_divides _ (r - 1) Hl Hnd Hdiv) as Hprod. pose proof (Z.prime_ge_2 r Hr).
  apply Z.divide_pos_le in Hprod, Hrd; [|lia..]. pose proof (zprod_pos _ Hl). nia.
Qed.

(** ** The scalar modulus *)

Lemma prime_93001 : Z.prime 93001.
Proof. apply trial_prime. vm_compute. reflexivity. Qed.

Lemma prime_661 : Z.prime 661.
Proof. apply trial_prime. vm_compute. reflexivity. Qed.

Lemma prime_1637 : Z.prime 1637.
Proof. apply trial_prime. vm_compute. reflexivity. Qed.

Lemma prime_853 : Z.prime 853.
Proof. apply trial_prime. vm_compute. reflexivity. Qed.

#[local] Hint Resolve prime_93001 prime_661 prime_1637 prime_853 : primes.

(** Applies a certificate whose factors are known to be prime. *)
Ltac certify a l :=
  apply (pocklington _ a l);
  [repeat (apply Forall_cons; split; [by eauto with primes|]); by apply Forall_nil|by apply (bool_decide_unpack _)|vm_compute; reflexivity].

Lemma prime_639533339 : Z.prime 639533339.
Proof. certify 2 [(1637, 296391531); (853, 303978671)]. Qed.

Lemma prime_12048837557 : Z.prime 12048837557.
Proof. certify 2 [(93001, 10304344409); (661, 1826643224)]. Qed.

#[local] Hint Resolve prime_639533339 prime_12048837557 : primes.

Lemma prime_5156902474397 : Z.prime 5156902474397.
Proof. certify 2 [(12048837557, 5089286551700)]. Qed.

Lemma prime_65865678001877903 : Z.prime 65865678001877903.
Proof. certify 2 [(639533339, 39033286818209505)]. Qed.

#[local] Hint Resolve prime_5156902474397 prime_65865678001877903 : primes.

Lemma prime_1670836401704629 : Z.prime 1670836401704629.
Proof. certify 2 [(5156902474397, 735766788910399)]. Qed.

Lemma prime_13818364434197438864469338081 : Z.prime 13818364434197438864469338081.
Proof. certify 2 [(65865678001877903, 12281824895882260584345986666)]. Qed.

#[local] Hint Resolve prime_1670836401704629 prime_13818364434197438864469338081 : primes.

Lemma bn254_modulus_prime : Z.prime bn254_modulus.
Proof.
  certify 2 [(13818364434197438864469338081, 18830771696733986827343121108258373716716634563029220880262390084180817631389); (1670836401704629, 86052601511993865195709936845511121156384965108811623497653747272590813794)].
Qed.

(** So a product of field elements is zero only if a factor is. *)
Lemma field_domain x y : (x * y) mod bn254_modulus = 0 -> x mod bn254_modulus = 0 \/ y mod bn254_modulus = 0.
Proof.
  intros E. pose proof (Z.prime_ge_2 _ bn254_modulus_prime). apply Z.mod_divide in E; [|lia].
  apply (Z.divide_prime_mul _ _ _ bn254_modulus_prime) in E as [E|E]; [left|right]; by apply Z.mod_divide; [lia|].
Qed.
