(* ===== verification/GadgetSpecs.v ===== *)
(** * What the gadgets prove

    Bit decompositions, the full-field comparison and the conditional assertions
    mean what their names say for every field element. *)

From S2P Require Import Prelude Hasher Gnark Gadgets.

(** ** Bits *)

Lemma bits_cons n x : 0 <= x -> bits (S n) x = x mod 2 :: bits n (x / 2).
Proof.
  intros Hx. unfold bits. cbn [seq map]. f_equal; [by rewrite Z.bit0_mod|].
  rewrite <- seq_shift, map_map. apply map_ext. intros i. f_equal.
  rewrite <- Z.div2_div, Z.div2_spec, Z.shiftr_spec by lia. f_equal. lia.
Qed.

Lemma length_bits n x : length (bits n x) = n.
Proof. unfold bits. by rewrite length_map, length_seq. Qed.

Lemma lookup_bits n x i : (i < n)%nat -> bits n x !! i = Some (Z.b2z (Z.testbit x (Z.of_nat i))).
Proof. intros Hi. unfold bits. rewrite list_lookup_fmap, lookup_seq_lt by done. done. Qed.

Lemma bits_are_bits n x : Forall is_bit (bits n x).
Proof.
  unfold bits. apply Forall_map, Forall_forall. intros i _. unfold is_bit. destruct (Z.testbit _ _); simpl; tauto.
Qed.

Lemma bits_val_bits n x : 0 <= x -> bits_val (bits n x) = x mod 2 ^ Z.of_nat n.
Proof.
  revert x. induction n as [|n IH]; intros x Hx; [by rewrite Z.mod_1_r|].
  rewrite bits_cons by done. cbn [bits_val]. rewrite IH by (apply Z.div_pos; lia).
  rewrite Nat2Z.inj_succ, Z.pow_succ_r, Z.rem_mul_r by lia. lia.
Qed.

Lemma take_bits k n x : (k <= n)%nat -> take k (bits n x) = bits k x.
Proof. intros Hk. unfold bits. rewrite firstn_map, take_seq. by rewrite Nat.min_l. Qed.

Lemma drop_bits k n x : 0 <= x -> drop k (bits n x) = bits (n - k) (x / 2 ^ Z.of_nat k).
Proof.
  revert n x. induction k as [|k IH]; intros n x Hx; [by rewrite Z.div_1_r, Nat.sub_0_r|].
  destruct n as [|n]; [done|]. rewrite bits_cons by done. cbn [drop Nat.sub]. rewrite IH by (apply Z.div_pos; lia).
  rewrite Nat2Z.inj_succ, Z.pow_succ_r, Z.div_div by lia. done.
Qed.

Lemma bits_val_bound bs : Forall is_bit bs -> 0 <= bits_val bs < 2 ^ Z.of_nat (length bs).
Proof.
  induction 1 as [|b bs Hb _ IH]; cbn [bits_val length]; [lia|]. rewrite Nat2Z.inj_succ, Z.pow_succ_r by lia.
  destruct Hb; lia.
Qed.

Lemma bn254_modulus_bounds : 2 ^ 253 < bn254_modulus < 2 ^ 254.
Proof. vm_compute. done. Qed.

Lemma fe_bit254 x : fe x -> x < 2 ^ 254.
Proof. unfold fe. pose proof bn254_modulus_bounds. lia. Qed.

Lemma fe_small x k : 0 <= x < 2 ^ k -> k <= 253 -> fe x.
Proof.
  intros Hx Hk. pose proof bn254_modulus_bounds. unfold fe.
  destruct (Z.le_gt_cases 0 k) as [H0|H0]; [|rewrite Z.pow_neg_r in Hx by done; lia].
  pose proof (Z.pow_le_mono_r 2 k 253 ltac:(lia) Hk). lia.
Qed.

Lemma fe_0 : fe 0. Proof. unfold fe. pose proof bn254_modulus_bounds. lia. Qed.
Lemma fe_1 : fe 1. Proof. unfold fe. pose proof bn254_modulus_bounds. lia. Qed.
Lemma fe_mod x : fe (x mod bn254_modulus).
Proof. apply Z.mod_pos_bound. pose proof bn254_modulus_bounds. lia. Qed.
Lemma fe_id x : fe x -> x mod bn254_modulus = x.
Proof. intros Hx. by apply Z.mod_small. Qed.

Create HintDb field.
#[export] Hint Resolve fe_0 fe_1 fe_mod poseidon_fe : field.

Section specs.
Context {G : Gnark} {GL : GnarkLaws G} {H : CircuitHash} {HL : CircuitHashLaw H}.
Context (Q : list Z -> Prop).

Lemma add_fe x y : fe (api_add x y). Proof. rewrite add_law. apply fe_mod. Qed.
Lemma sub_fe x y : fe (api_sub x y). Proof. rewrite sub_law. apply fe_mod. Qed.
Lemma mul_fe x y : fe (api_mul x y). Proof. rewrite mul_law. apply fe_mod. Qed.

Lemma sub_zero x y : fe x -> fe y -> (api_sub x y =? 0) = (x =? y).
Proof.
  intros Hx Hy. rewrite sub_law. unfold fe in *. apply eq_iff_eq_true. rewrite !Z.eqb_eq. split; [|intros ->; by rewrite Z.sub_diag].
  intros E. pose proof bn254_modulus_bounds. apply Z.mod_divide in E as [k E]; [|lia].
  assert (-1 < k < 1) by nia. assert (k = 0) as -> by lia. lia.
Qed.

Lemma is_zero_sub x y : fe x -> fe y -> api_is_zero (api_sub x y) = Z.b2z (x =? y).
Proof.
  intros Hx Hy. rewrite is_zero_law by apply sub_fe. rewrite sub_zero by done. by destruct (x =? y).
Qed.

Lemma is_zero_b2z x : fe x -> api_is_zero x = Z.b2z (x =? 0).
Proof. intros. rewrite is_zero_law by done. by destruct (x =? 0). Qed.

Lemma b2z_fe b : fe (Z.b2z b). Proof. destruct b; auto with field. Qed.

Lemma not_b2z b : api_sub 1 (Z.b2z b) = Z.b2z (negb b).
Proof. rewrite sub_law. destruct b; apply fe_id; auto with field. Qed.

Lemma and_b2z a b : api_mul (Z.b2z a) (Z.b2z b) = Z.b2z (a && b).
Proof. rewrite mul_law. destruct a, b; apply fe_id; auto with field. Qed.

Lemma select_b2z b x y : api_select (Z.b2z b) x y = if b then x else y.
Proof. destruct b; apply select_law. Qed.

Lemma gate_b2z b x : fe x -> api_mul (Z.b2z b) x = if b then x else 0.
Proof. intros. rewrite mul_law. destruct b; cbn [Z.b2z]; rewrite ?Z.mul_1_l, ?Z.mul_0_l; [by apply fe_id|done]. Qed.

Lemma runs_equal x y u : fe x -> fe y -> runs Q (AssertIsEqual x y) u <-> x = y.
Proof. intros. unfold AssertIsEqual. by rewrite runs_csat, assert_equal_law, Z.eqb_eq. Qed.

Lemma runs_different x y u : fe x -> fe y -> runs Q (AssertIsDifferent x y) u <-> x <> y.
Proof. intros. unfold AssertIsDifferent. by rewrite runs_csat, assert_different_law, negb_true_iff, Z.eqb_neq. Qed.

Lemma runs_boolean x u : fe x -> runs Q (AssertIsBoolean x) u <-> exists b, x = Z.b2z b.
Proof.
  intros. unfold AssertIsBoolean. rewrite runs_csat, assert_boolean_law, orb_true_iff, !Z.eqb_eq by done. split.
  - intros [->| ->]; [by exists false|by exists true].
  - intros [[] ->]; tauto.
Qed.

Lemma runs_to_binary x n bs : fe x -> (n <= 254)%nat ->
  runs Q (ToBinary x n) bs <-> x < 2 ^ Z.of_nat n /\ bs = bits n x.
Proof.
  intros Hx Hn. unfold ToBinary. rewrite runs_clift, to_binary_law by done.
  destruct (Z.ltb_spec x (2 ^ Z.of_nat n)); split.
  - intros E. by injection E as <-.
  - by intros [_ ->].
  - done.
  - lia.
Qed.

Lemma runs_poseidon xs h : (1 <= length xs <= 16)%nat ->
  runs Q (PoseidonHash xs) h <-> h = poseidon xs /\ Q xs.
Proof.
  intros Hl. unfold PoseidonHash. destruct (Nat.eqb_spec (length xs) 0); [lia|].
  destruct (Nat.ltb_spec 16 (length xs)); [lia|]. cbn. unfold runs. split.
  - intros (q & E & Hq). injection E as <- <-. by inversion Hq.
  - intros [-> HQ]. exists [xs]. by repeat constructor.
Qed.

Lemma from_binary_small bs : Forall is_bit bs -> (length bs <= 253)%nat -> api_from_binary bs = bits_val bs.
Proof.
  intros Hb Hl. rewrite from_binary_law by done. pose proof (bits_val_bound bs Hb). apply fe_id.
  apply (fe_small _ (Z.of_nat (length bs))); lia.
Qed.

(** ** Comparison *)

Lemma mod_shift x y k : (x mod bn254_modulus + 2 ^ k) mod bn254_modulus = y -> fe (x + 2 ^ k) -> y = x + 2 ^ k.
Proof. intros <- Hfe. rewrite Zplus_mod_idemp_l. by apply fe_id. Qed.

Lemma isLessBounded_spec x y k r : 0 <= x < 2 ^ Z.of_nat k -> 0 <= y < 2 ^ Z.of_nat k -> (k <= 252)%nat ->
  runs Q (isLessBounded x y k) r <-> r = Z.b2z (x <? y).
Proof.
  intros Hx Hy Hk. unfold isLessBounded. set (d := api_add _ _).
  assert (2 ^ Z.of_nat (k + 1) = 2 * 2 ^ Z.of_nat k) as Hp by (rewrite Nat.add_1_r, Nat2Z.inj_succ, Z.pow_succ_r; lia).
  assert (fe (x - y + 2 ^ Z.of_nat k)) as Hd by (apply (fe_small _ (Z.of_nat (k + 1))); lia).
  assert (d = x - y + 2 ^ Z.of_nat k) as Ed.
  { apply mod_shift; [|done]. unfold d. by rewrite add_law, sub_law. }
  assert (Z.b2z (x <? y) = api_sub 1 (Z.b2z (Z.testbit d (Z.of_nat k)))) as Er.
  { rewrite not_b2z. f_equal. rewrite Ed. apply eq_iff_eq_true. rewrite Z.ltb_lt, negb_true_iff.
    rewrite Z.testbit_false by lia. destruct (Z.lt_ge_cases x y) as [?|?].
    - rewrite Z.div_small by lia. tauto.
    - split; [lia|]. replace (x - y + 2 ^ Z.of_nat k) with (x - y + 1 * 2 ^ Z.of_nat k) by lia.
      rewrite Z.div_add, Z.div_small by lia. done. }
  rewrite runs_bind. setoid_rewrite runs_bind. setoid_rewrite runs_ret. rewrite Er. split.
  - intros (bs & Hbs & top & Htop & <-). apply runs_to_binary in Hbs as [_ ->]; [|by rewrite Ed|lia].
    apply runs_clift in Htop. rewrite lookup_bits in Htop by lia. by injection Htop as <-.
  - intros ->. eexists. split; [apply runs_to_binary; [by rewrite Ed|lia|]; split; [rewrite Ed; lia|done]|].
    eexists. split; [apply runs_clift, lookup_bits; lia|done].
Qed.

(** The limbs of a canonical element: its low and high 127 bits. *)
Definition limbs_of (x : Z) : fieldLimbs := mkLimbs (x mod 2 ^ 127) (x / 2 ^ 127) 127 127.

Lemma CanonicalLimbs_spec x l : fe x -> runs Q (CanonicalLimbs x) l <-> l = limbs_of x.
Proof.
  intros Hx. pose proof (fe_bit254 x Hx). pose proof (proj1 Hx). unfold CanonicalLimbs. rewrite runs_bind, bit_len_law.
  setoid_rewrite runs_ret. setoid_rewrite runs_to_binary; [|done|lia].
  assert (mkLimbs (api_from_binary (take 127 (bits 254 x))) (api_from_binary (drop 127 (bits 254 x))) 127 127 = limbs_of x) as E.
  { unfold limbs_of. rewrite take_bits, drop_bits by lia. change (2 ^ Z.of_nat 127) with (2 ^ 127).
    assert (0 <= x / 2 ^ 127) by (apply Z.div_pos; lia).
    rewrite !from_binary_small by (first [apply bits_are_bits|rewrite length_bits; lia]).
    rewrite !bits_val_bits by lia. f_equal. apply Z.mod_small. split; [done|]. change (2 ^ Z.of_nat (254 - 127)) with (2 ^ 127).
    apply Z.div_lt_upper_bound; [done|]. change (2 ^ 127 * 2 ^ 127) with (2 ^ 254). lia. }
  split.
  - intros (bs & [_ ->] & <-). rewrite length_bits. exact E.
  - intros ->. exists (bits 254 x). rewrite length_bits. split; [split; [lia|done]|exact E].
Qed.

Lemma limbs_compare a b : 0 <= a < 2 ^ 254 -> 0 <= b < 2 ^ 254 ->
  (a <? b) = (a / 2 ^ 127 <? b / 2 ^ 127) || ((a / 2 ^ 127 =? b / 2 ^ 127) && (a mod 2 ^ 127 <? b mod 2 ^ 127)).
Proof.
  intros Ha Hb. pose proof (Z.div_mod a (2 ^ 127)). pose proof (Z.div_mod b (2 ^ 127)).
  pose proof (Z.mod_pos_bound a (2 ^ 127)). pose proof (Z.mod_pos_bound b (2 ^ 127)). apply eq_iff_eq_true.
  rewrite orb_true_iff, andb_true_iff, !Z.ltb_lt, Z.eqb_eq. nia.
Qed.

Lemma IsLessLimbs_spec a b r : fe a -> fe b ->
  runs Q (IsLessLimbs (limbs_of a) (limbs_of b)) r <-> r = Z.b2z (a <? b).
Proof.
  intros Ha Hb. pose proof (fe_bit254 a Ha). pose proof (fe_bit254 b Hb). unfold fe in *. unfold IsLessLimbs, limbs_of. cbn [limb_lo limb_hi loBits hiBits].
  rewrite Nat.max_id.
  assert (forall x, 0 <= x < 2 ^ 254 -> 0 <= x / 2 ^ 127 < 2 ^ Z.of_nat 127) as Hhi.
  { intros x ?. split; [apply Z.div_pos; lia|]. apply Z.div_lt_upper_bound; lia. }
  assert (forall x, 0 <= x mod 2 ^ 127 < 2 ^ Z.of_nat 127) as Hlo by (intros; apply Z.mod_pos_bound; lia).
  assert (Z.b2z (a <? b) = api_add (Z.b2z (a / 2 ^ 127 <? b / 2 ^ 127))
    (api_mul (api_is_zero (api_sub (a / 2 ^ 127) (b / 2 ^ 127))) (Z.b2z (a mod 2 ^ 127 <? b mod 2 ^ 127)))) as E.
  { rewrite (limbs_compare a b) by lia.
    rewrite is_zero_sub by (apply (fe_small _ (Z.of_nat 127)); [apply Hhi|]; lia). rewrite and_b2z, add_law.
    destruct (Z.ltb_spec (a / 2 ^ 127) (b / 2 ^ 127)), (Z.eqb_spec (a / 2 ^ 127) (b / 2 ^ 127)); try lia;
    destruct (a mod 2 ^ 127 <? b mod 2 ^ 127); done. }
  rewrite E. split.
  - intros Hr. cinv. do 2 cspec isLessBounded_spec by auto with lia. by subst.
  - intros ->. crun; (apply isLessBounded_spec; [by auto with lia..|done]).
Qed.

Lemma AssertIsLessFullField_spec a b u : fe a -> fe b -> runs Q (AssertIsLessFullField a b) u <-> a < b.
Proof.
  intros Ha Hb. unfold AssertIsLessFullField. split.
  - intros He. cinv. do 2 cspec CanonicalLimbs_spec by done. subst.
    cspec IsLessLimbs_spec by done. subst. apply runs_equal in He; [|apply b2z_fe|auto with field]. apply Z.ltb_lt. by destruct (a <? b).
  - intros Hlt. crun; [by apply CanonicalLimbs_spec..|by apply IsLessLimbs_spec|].
    rewrite (proj2 (Z.ltb_lt a b) Hlt). apply runs_equal; auto with field.
Qed.

End specs.

#[export] Hint Resolve add_fe sub_fe mul_fe b2z_fe : field.
