(* ===== verification/PoseidonGadget.v ===== *)
(** * The Poseidon gadget

    prover/server/circuits/gadget/poseidon.go: the permutation behind [PoseidonHash],
    with the optimised partial rounds.  The round constants and matrices are tables
    of the library iden3, linked into the package, so they are the parameter
    [Iden3].  The gadget instantiates [CircuitHash], and on tables derived from the
    round constants and the mixing matrix of the textbook permutation it computes
    that permutation. *)

From S2P Require Import Prelude Hasher Gnark Gadgets GadgetSpecs.
From Stdlib Require Import Zdiv Setoid Morphisms.

(** ** The tables *)

Record constants : Type := mkConstants {
  tab_c : list (list Z);
  tab_s : list (list Z);
  tab_m : list (list (list Z));
  tab_p : list (list (list Z));
}.

(** [None] when the symbol is not linked. *)
Class Iden3 : Type := iden3C : option constants.

Definition nRoundsF : nat := 8.

Definition nRoundsP : list nat := [56; 57; 56; 60; 60; 63; 64; 63; 60; 66; 60; 65; 70; 60; 64; 68]%nat.

(** A loop whose body may panic, and a slice expression. *)
Fixpoint ofold {A B} (f : A -> B -> option A) (s : A) (l : list B) : option A :=
  match l with
  | [] => Some s
  | x :: l' => s' ← f s x; ofold f s' l'
  end.

Definition slice {A} (l : list A) (a b : nat) : option (list A) :=
  if ((a <=? b) && (b <=? length l))%nat then Some (take (b - a) (drop a l)) else None.

(** ** The permutation *)

Section gadget.
Context {G : Gnark} {I3 : Iden3}.

Definition exp5 (x : Z) : Z :=
  let x2 := api_mul x x in
  let x4 := api_mul x2 x2 in
  api_mul x4 x.

Definition mix (state : list Z) (m : list (list Z)) : option (list Z) :=
  let t := length state in
  mapM (fun i =>
    ofold (fun sum j =>
      row ← m !! j; mji ← row !! i; sj ← state !! j;
      Some (api_add sum (api_mul mji sj))) 0 (seq 0 t)) (seq 0 t).

(** [state[j] = api.Add(state[j], ark[j])] for every [j]. *)
Definition add_ark (state ark : list Z) : option (list Z) :=
  mapM (fun j => x ← state !! j; a ← ark !! j; Some (api_add x a)) (seq 0 (length state)).

Definition PoseidonFullRound (State Ark : list Z) : option (list Z) :=
  k ← iden3C; M ← tab_m k !! (length State - 2)%nat;
  state ← add_ark (map exp5 State) Ark;
  mix state M.

Definition PoseidonFullRoundP (State Ark : list Z) : option (list Z) :=
  k ← iden3C; P ← tab_p k !! (length State - 2)%nat;
  state ← add_ark (map exp5 State) Ark;
  mix state P.

Definition PoseidonPartialRound (State : list Z) (Ark : Z) (S : list Z) : option (list Z) :=
  let t := length State in
  match State with
  | [] => None
  | s0 :: rest =>
    let state0 := api_add (exp5 s0) Ark in
    let state := state0 :: rest in
    newState0 ← ofold (fun sum j => sj ← S !! j; x ← state !! j; Some (api_add sum (api_mul sj x))) 0 (seq 0 t);
    others ← mapM (fun k => x ← state !! k; sk ← S !! (t + k - 1)%nat; Some (api_add x (api_mul state0 sk))) (seq 1 (t - 1));
    Some (newState0 :: others)
  end.

Definition PoseidonFinalRound (State : list Z) : option (list Z) :=
  k ← iden3C; M ← tab_m k !! (length State - 2)%nat;
  mix (map exp5 State) M.

(** [None] is a panic. *)
Definition Poseidon_DefineGadget (Inputs : list Z) (InitState : Z) : option Z :=
  let t := S (length Inputs) in
  let h := (nRoundsF / 2)%nat in
  if ((length Inputs =? 0) || (length nRoundsP <? length Inputs))%nat then None else
  k ← iden3C;
  C ← tab_c k !! (t - 2)%nat;
  S ← tab_s k !! (t - 2)%nat;
  rp ← nRoundsP !! (t - 2)%nat;
  state ← add_ark (InitState :: Inputs) C;
  state ← ofold (fun state i => ark ← slice C ((i + 1) * t) ((i + 2) * t); PoseidonFullRound state ark) state (seq 0 (h - 1));
  ark ← slice C (h * t) ((h + 1) * t);
  state ← PoseidonFullRoundP state ark;
  state ← ofold (fun state r =>
    ark ← C !! ((h + 1) * t + r)%nat; row ← slice S ((2 * t - 1) * r) ((2 * t - 1) * (r + 1));
    PoseidonPartialRound state ark row) state (seq 0 rp);
  state ← ofold (fun state i =>
    ark ← slice C ((h + 1) * t + rp + i * t) ((h + 1) * t + rp + (i + 1) * t);
    PoseidonFullRound state ark) state (seq 0 (h - 1));
  state ← PoseidonFinalRound state;
  head state.

Definition PoseidonHashWithState (inputs : list Z) (initState : Z) : option Z := Poseidon_DefineGadget inputs initState.

End gadget.

(** ** The textbook permutation

    Every round adds its constants, raises the whole state (a partial round: its
    first element) to the fifth power, and multiplies by the mixing matrix. *)

(** Equality in the field. *)
Definition congr (a b : Z) : Prop := (bn254_modulus | a - b).

Notation "a ≡ₚ b" := (congr a b) (at level 70).

(** Element [i] of a vector, and entry [j], [i] of a matrix. *)
Notation at_ s i := (nth i s 0).
Notation entry m j i := (nth i (nth j m []) 0).

Definition vsum (t : nat) (f : nat -> Z) : Z := foldl (fun acc j => acc + f j) 0 (seq 0 t).

Definition text_mix (m : list (list Z)) (s : list Z) : list Z :=
  map (fun i => vsum (length s) (fun j => entry m j i * at_ s j) mod bn254_modulus) (seq 0 (length s)).

Definition text_add (s c : list Z) : list Z := zip_with Z.add s c.

Definition text_full (m : list (list Z)) (s c : list Z) : list Z := text_mix m (map (fun x => x ^ 5) (text_add s c)).

Definition text_partial (m : list (list Z)) (s c : list Z) : list Z :=
  text_mix m (match text_add s c with [] => [] | x :: l => x ^ 5 :: l end).

(** Four full rounds, [rp] partial ones and four full ones. *)
Definition text_permutation (m : list (list Z)) (cs : list (list Z)) (rp : nat) (s : list Z) : list Z :=
  foldl (text_full m) (foldl (text_partial m) (foldl (text_full m) s (take 4 cs)) (take rp (drop 4 cs))) (drop (4 + rp) cs).

(** ** Derived tables

    How the optimised tables of width [t] come from the constants [cs] and the
    matrix [m]: the constants of the full rounds are pulled back through the
    matrix, and the matrix is factored, round by round, into a sparse one and a
    block [a_r] that leaves the first element alone and so commutes with a partial
    round; [d_r] is what is left of the constants. *)

(** A block that fixes the first element. *)
Definition inner (t : nat) (a : nat -> nat -> Z) (v : nat -> Z) (i : nat) : Z :=
  match i with O => v O | _ => vsum (t - 1) (fun j => a (S j) i * v (S j)) end.

Definition dense (t : nat) (m : list (list Z)) (v : nat -> Z) (i : nat) : Z := vsum t (fun j => entry m j i * v j).

(** The linear layer of a partial round, from its row of the sparse table. *)
Definition sparse (t : nat) (row : list Z) (v : nat -> Z) (i : nat) : Z :=
  match i with O => vsum t (fun j => at_ row j * v j) | _ => v i + v O * at_ row (t + i - 1) end.

Definition first_only (k : Z) (i : nat) : Z := match i with O => k | _ => 0 end.

Record derived_tables (t rp : nat) (C S : list Z) (m p : list (list Z)) (cs : list (list Z))
    (a : nat -> nat -> nat -> Z) (d : nat -> nat -> Z) : Prop := {
  dt_C : length C = (8 * t + rp)%nat;
  dt_S : length S = ((2 * t - 1) * rp)%nat;
  dt_m : length m = t /\ Forall (fun row => length row = t) m;
  dt_p : length p = t /\ Forall (fun row => length row = t) p;
  dt_cs : length cs = (8 + rp)%nat /\ Forall (fun c => length c = t) cs;
  dt_first : forall i, (i < t)%nat -> at_ C i ≡ₚ entry cs 0 i;
  dt_full : forall k i, (1 <= k < 4)%nat -> (i < t)%nat -> dense t m (fun j => at_ C (k * t + j)) i ≡ₚ entry cs k i;
  dt_enter : forall v i, (i < t)%nat -> dense t m v i ≡ₚ inner t (a 0%nat) (dense t p v) i;
  dt_enter_const : forall i, (i < t)%nat -> entry cs 4 i ≡ₚ dense t m (fun j => at_ C (4 * t + j)) i + d 0%nat i;
  dt_sparse : forall r v i, (r < rp)%nat -> (i < t)%nat ->
    dense t m (inner t (a r) v) i ≡ₚ inner t (a (r + 1)%nat) (sparse t (take (2 * t - 1) (drop ((2 * t - 1) * r) S)) v) i;
  dt_sparse_const : forall r i, (r < rp)%nat -> (i < t)%nat ->
    dense t m (d r) i + entry cs (5 + r) i ≡ₚ
    inner t (a (r + 1)%nat) (sparse t (take (2 * t - 1) (drop ((2 * t - 1) * r) S)) (first_only (at_ C (5 * t + r)))) i +
      d (r + 1)%nat i;
  dt_kept : forall r, (r < rp)%nat -> d r 0%nat ≡ₚ 0;
  dt_leave : forall v i, (i < t)%nat -> inner t (a rp) v i + d rp i ≡ₚ v i;
  dt_last : forall k i, (k < 3)%nat -> (i < t)%nat ->
    dense t m (fun j => at_ C (5 * t + rp + k * t + j)) i ≡ₚ entry cs (5 + rp + k) i;
}.

(** ** Congruence and sums *)

#[global] Instance congr_equiv : Equivalence congr.
Proof.
  unfold congr. split.
  - intros x. rewrite Z.sub_diag. apply Z.divide_0_r.
  - intros x y Hxy. replace (y - x) with (- (x - y)) by lia. by apply Z.divide_opp_r.
  - intros x y z Hxy Hyz. replace (x - z) with ((x - y) + (y - z)) by lia. by apply Z.divide_add_r.
Qed.

#[global] Instance congr_add : Proper (congr ==> congr ==> congr) Z.add.
Proof.
  intros x x' Hx y y' Hy. unfold congr in *. replace (x + y - (x' + y')) with ((x - x') + (y - y')) by lia.
  by apply Z.divide_add_r.
Qed.

#[global] Instance congr_mul : Proper (congr ==> congr ==> congr) Z.mul.
Proof.
  intros x x' Hx y y' Hy. unfold congr in *. replace (x * y - x' * y') with (x * (y - y') + (x - x') * y') by ring.
  apply Z.divide_add_r; [by apply Z.divide_mul_r|by apply Z.divide_mul_l].
Qed.

Lemma congr_mod x : x mod bn254_modulus ≡ₚ x.
Proof.
  exists (- (x / bn254_modulus)). pose proof (Z.div_mod x bn254_modulus ltac:(done)). unfold bn254_modulus in *. lia.
Qed.

Lemma congr_eq x y : fe x -> fe y -> x ≡ₚ y -> x = y.
Proof. intros Hx Hy [k Hk]. unfold fe, bn254_modulus in *. nia. Qed.

Lemma congr_pow5 x y : x ≡ₚ y -> x ^ 5 ≡ₚ y ^ 5.
Proof. intros Hxy. replace (x ^ 5) with (x * x * x * x * x) by ring. rewrite Hxy. replace (y ^ 5) with (y * y * y * y * y) by ring. done. Qed.

Lemma vsum_S t f : vsum (S t) f = vsum t f + f t.
Proof. unfold vsum. rewrite seq_S, foldl_app. done. Qed.

Lemma vsum_congr t f g : (forall j, (j < t)%nat -> f j ≡ₚ g j) -> vsum t f ≡ₚ vsum t g.
Proof.
  induction t as [|t IH]; intros Hfg; [done|]. rewrite !vsum_S, (IH ltac:(intros; apply Hfg; lia)), (Hfg t) by lia. done.
Qed.

Lemma vsum_add t f g : vsum t (fun j => f j + g j) = vsum t f + vsum t g.
Proof. induction t as [|t IH]; [done|]. rewrite !vsum_S, IH. lia. Qed.

Lemma vsum_ext t f g : (forall j, f j = g j) -> vsum t f = vsum t g.
Proof. intros Hfg. induction t as [|t IH]; [done|]. by rewrite !vsum_S, IH, Hfg. Qed.

Lemma dense_congr t m v w i : (forall j, (j < t)%nat -> v j ≡ₚ w j) -> dense t m v i ≡ₚ dense t m w i.
Proof. intros Hvw. apply vsum_congr. intros j Hj. by rewrite (Hvw j Hj). Qed.

Lemma dense_add t m v w i : dense t m (fun j => v j + w j) i = dense t m v i + dense t m w i.
Proof. unfold dense. rewrite <- vsum_add. apply vsum_ext. intros j. ring. Qed.

Lemma inner_congr t a v w i : (i < t)%nat -> (forall j, (j < t)%nat -> v j ≡ₚ w j) -> inner t a v i ≡ₚ inner t a w i.
Proof. intros Hi Hvw. destruct i as [|i]; [by apply Hvw|]. apply vsum_congr. intros j Hj. by rewrite (Hvw (S j)) by lia. Qed.

Lemma inner_add t a v w i : inner t a (fun j => v j + w j) i = inner t a v i + inner t a w i.
Proof. destruct i as [|i]; [done|]. cbn [inner]. rewrite <- vsum_add. apply vsum_ext. intros j. ring. Qed.

Lemma sparse_add t row v w i : sparse t row (fun j => v j + w j) i = sparse t row v i + sparse t row w i.
Proof. destruct i as [|i]; cbn [sparse]; [|ring]. rewrite <- vsum_add. apply vsum_ext. intros j. ring. Qed.

Lemma sparse_congr t row v w i : (i < t)%nat -> (forall j, (j < t)%nat -> v j ≡ₚ w j) -> sparse t row v i ≡ₚ sparse t row w i.
Proof.
  intros Hi Hvw. destruct i as [|i]; cbn [sparse].
  - apply vsum_congr. intros j Hj. by rewrite (Hvw j Hj).
  - by rewrite (Hvw (S i) Hi), (Hvw 0%nat) by lia.
Qed.

(** ** The steps of the gadget *)

Section steps.
Context {G : Gnark} {GL : GnarkLaws G} {I3 : Iden3}.

Lemma api_add_congr x y : api_add x y ≡ₚ x + y.
Proof. rewrite add_law. apply congr_mod. Qed.

Lemma api_mul_congr x y : api_mul x y ≡ₚ x * y.
Proof. rewrite mul_law. apply congr_mod. Qed.

Lemma exp5_congr x : exp5 x ≡ₚ x ^ 5.
Proof. unfold exp5. rewrite !api_mul_congr. replace (x ^ 5) with (x * x * (x * x) * x) by ring. done. Qed.

(** A loop with a total body. *)
Lemma mapM_seq (f : nat -> option Z) (P : nat -> Z -> Prop) a n :
  (forall i, (i < n)%nat -> exists y, f (a + i)%nat = Some y /\ P i y) ->
  exists ys, mapM f (seq a n) = Some ys /\ length ys = n /\ forall i, (i < n)%nat -> P i (at_ ys i).
Proof.
  revert a P. induction n as [|n IH]; intros a P Hf; [by exists []; split_and!; [..|lia]|].
  destruct (Hf 0%nat ltac:(lia)) as (y & Hy & HP). rewrite Nat.add_0_r in Hy.
  destruct (IH (S a) (fun i => P (S i))) as (ys & Hys & Hlen & HPs).
  { intros i Hi. destruct (Hf (S i) ltac:(lia)) as (z & Hz & ?). exists z. by rewrite Nat.add_succ_r in Hz. }
  exists (y :: ys). cbn [seq mapM]. rewrite Hy. cbn. rewrite Hys. split_and!; [done|by rewrite Hlen|].
  intros [|i] Hi; [done|]. apply HPs. lia.
Qed.

Lemma lookup_nth (s : list Z) i : (i < length s)%nat -> s !! i = Some (at_ s i).
Proof. intros Hi. destruct (lookup_lt_is_Some_2 s i Hi) as [x Hx]. rewrite Hx. by rewrite (nth_lookup_Some _ _ _ _ Hx). Qed.

Lemma sum_loop (body : Z -> nat -> option Z) (f : nat -> Z) n :
  (forall sum j, (j < n)%nat -> exists x, body sum j = Some (api_add sum x) /\ x ≡ₚ f j) ->
  exists v, ofold body 0 (seq 0 n) = Some v /\ v ≡ₚ vsum n f /\ fe v.
Proof.
  intros Hbody. assert (forall l acc, fe acc -> (forall j, j ∈ l -> (j < n)%nat) ->
    exists v, ofold body acc l = Some v /\ v ≡ₚ foldl (fun acc j => acc + f j) acc l /\ fe v) as Hgen.
  { induction l as [|j l IH]; intros acc Hacc Hl; [by exists acc|]. cbn [ofold foldl].
    destruct (Hbody acc j) as (x & -> & Hx); [apply Hl, list_elem_of_here|]. cbn.
    destruct (IH (api_add acc x)) as (v & -> & Hv & Hfe); [rewrite add_law; apply fe_mod|intros; by apply Hl, list_elem_of_further|].
    exists v. split; [done|]. split; [|done]. rewrite Hv. clear -Hx GL.
    assert (api_add acc x ≡ₚ acc + f j) as Hstart by by rewrite api_add_congr, Hx.
    revert Hstart. generalize (api_add acc x) (acc + f j). induction l as [|k l IH]; intros a b Hab; [done|].
    cbn [foldl]. apply IH. by rewrite Hab. }
  apply Hgen; [auto with field|]. intros j Hj%elem_of_seq. lia.
Qed.

Definition square (t : nat) (m : list (list Z)) : Prop := length m = t /\ Forall (fun row => length row = t) m.

Lemma lookup_entry t m j i : square t m -> (j < t)%nat -> (i < t)%nat ->
  exists row, m !! j = Some row /\ row !! i = Some (entry m j i).
Proof.
  intros [Hm Hrows] Hj Hi. destruct (lookup_lt_is_Some_2 m j ltac:(lia)) as [row Hrow]. exists row. split; [done|].
  rewrite (nth_lookup_Some _ _ _ _ Hrow). apply lookup_nth. rewrite (Forall_lookup_1 _ _ _ _ Hrows Hrow). lia.
Qed.

Lemma mix_ok t m s : length s = t -> square t m ->
  exists s', mix s m = Some s' /\ length s' = t /\
    forall i, (i < t)%nat -> at_ s' i ≡ₚ dense t m (fun j => at_ s j) i /\ fe (at_ s' i).
Proof.
  intros Hs Hm. unfold mix. rewrite Hs.
  apply (mapM_seq _ (fun i y => y ≡ₚ dense t m (fun j => at_ s j) i /\ fe y)). intros i Hi. rewrite Nat.add_0_l. apply sum_loop. intros sum j Hj.
  destruct (lookup_entry t m j i Hm Hj Hi) as (row & -> & Hji). cbn. rewrite Hji. cbn. rewrite lookup_nth by lia. cbn.
  eexists. split; [done|apply api_mul_congr].
Qed.

Lemma add_ark_ok t s c : length s = t -> (t <= length c)%nat ->
  exists s', add_ark s c = Some s' /\ length s' = t /\ forall i, (i < t)%nat -> at_ s' i ≡ₚ at_ s i + at_ c i.
Proof.
  intros Hs Hc. unfold add_ark. rewrite Hs. apply (mapM_seq _ (fun i y => y ≡ₚ at_ s i + at_ c i)). intros i Hi. rewrite Nat.add_0_l.
  rewrite !lookup_nth by lia. cbn. eexists. split; [done|apply api_add_congr].
Qed.

Lemma nth_exp5 s i : (i < length s)%nat -> at_ (map exp5 s) i ≡ₚ at_ s i ^ 5.
Proof. intros Hi. rewrite (nth_indep _ 0 (exp5 0)) by (by rewrite length_map). rewrite map_nth. apply exp5_congr. Qed.

(** A full round, with either matrix. *)
Lemma full_round_ok t m s c : length s = t -> (t <= length c)%nat -> square t m ->
  exists s', (state ← add_ark (map exp5 s) c; mix state m) = Some s' /\ length s' = t /\
    forall i, (i < t)%nat -> at_ s' i ≡ₚ dense t m (fun j => at_ s j ^ 5 + at_ c j) i.
Proof.
  intros Hs Hc Hm. destruct (add_ark_ok t (map exp5 s) c) as (u & -> & Hu & Hui); [by rewrite length_map|done|]. cbn.
  destruct (mix_ok t m u Hu Hm) as (s' & -> & Hs' & Hi'). exists s'. split_and!; [done..|]. intros i Hi.
  rewrite (proj1 (Hi' i Hi)). apply dense_congr. intros j Hj. by rewrite (Hui j Hj), nth_exp5 by lia.
Qed.

Lemma partial_round_ok t s k row : length s = t -> (0 < t)%nat -> length row = (2 * t - 1)%nat ->
  exists s', PoseidonPartialRound s k row = Some s' /\ length s' = t /\
    forall i, (i < t)%nat -> at_ s' i ≡ₚ sparse t row (fun j => match j with O => at_ s 0 ^ 5 + k | _ => at_ s j end) i.
Proof.
  intros Hs Ht Hrow. destruct s as [|s0 rest]; [simpl in Hs; lia|]. unfold PoseidonPartialRound. rewrite Hs.
  set (u0 := api_add (exp5 s0) k). set (w := fun j => match j with O => at_ (s0 :: rest) 0 ^ 5 + k | _ => at_ (s0 :: rest) j end).
  assert (forall j, at_ (u0 :: rest) j ≡ₚ w j) as Hw.
  { intros [|j]; [|done]. cbn. unfold u0. by rewrite api_add_congr, exp5_congr. }
  assert (length (u0 :: rest) = t) as Hlen by done.
  edestruct (sum_loop (fun sum j => sj ← row !! j; x ← (u0 :: rest) !! j; Some (api_add sum (api_mul sj x)))
    (fun j => at_ row j * w j) t) as (v & -> & Hv & _).
  { intros sum j Hj. rewrite (lookup_nth row j), (lookup_nth (u0 :: rest) j) by lia. cbn. eexists. split; [done|].
    by rewrite api_mul_congr, <- (Hw j). }
  cbn [mbind option_bind].
  destruct (mapM_seq (fun k => x ← (u0 :: rest) !! k; sk ← row !! (t + k - 1)%nat; Some (api_add x (api_mul u0 sk)))
    (fun i y => y ≡ₚ w (S i) + w 0%nat * at_ row (t + S i - 1)) 1 (t - 1)) as (ys & -> & Hys & Hi').
  { intros i Hi. rewrite (lookup_nth (u0 :: rest) (1 + i)) by lia. cbn [mbind option_bind].
    rewrite (lookup_nth row (t + (1 + i) - 1)) by lia. cbn [mbind option_bind]. eexists. split; [done|].
    rewrite api_add_congr, api_mul_congr, (Hw (1 + i)%nat). change u0 with (at_ (u0 :: rest) 0). by rewrite (Hw 0%nat). }
  cbn [mbind option_bind]. exists (v :: ys). split_and!; [done|cbn; lia|]. intros [|i] Hi; [exact Hv|]. apply Hi'. lia.
Qed.

End steps.

(** ** The textbook rounds *)

Lemma text_mix_ok t m s : length s = t -> length (text_mix m s) = t /\
  forall i, (i < t)%nat -> at_ (text_mix m s) i ≡ₚ dense t m (fun j => at_ s j) i /\ fe (at_ (text_mix m s) i).
Proof.
  intros Hs. unfold text_mix. rewrite Hs, length_map, length_seq. split; [done|]. intros i Hi.
  set (g := fun i => vsum t (fun j => entry m j i * at_ s j) mod bn254_modulus).
  rewrite (nth_indep _ 0 (g 0%nat)) by (by rewrite length_map, length_seq). rewrite map_nth, seq_nth by lia.
  split; [apply congr_mod|apply fe_mod].
Qed.

Lemma text_add_ok t s c : length s = t -> length c = t -> length (text_add s c) = t /\
  forall i, (i < t)%nat -> at_ (text_add s c) i = at_ s i + at_ c i.
Proof.
  intros Hs Hc. unfold text_add. rewrite length_zip_with, Hs, Hc, Nat.min_id. split; [done|]. intros i Hi.
  apply nth_lookup_Some. rewrite lookup_zip_with, !lookup_nth by lia. done.
Qed.

Lemma text_full_ok t m s c : length s = t -> length c = t -> length (text_full m s c) = t /\
  forall i, (i < t)%nat -> at_ (text_full m s c) i ≡ₚ dense t m (fun j => (at_ s j + at_ c j) ^ 5) i /\ fe (at_ (text_full m s c) i).
Proof.
  intros Hs Hc. destruct (text_add_ok t s c Hs Hc) as [Hl Hadd]. unfold text_full.
  destruct (text_mix_ok t m (map (fun x => x ^ 5) (text_add s c))) as [Hl' Hmix]; [by rewrite length_map|].
  split; [done|]. intros i Hi. destruct (Hmix i Hi) as [Hc' ?]. split; [|done]. rewrite Hc'. apply dense_congr. intros j Hj.
  rewrite (nth_indep _ 0 (0 ^ 5)) by (rewrite length_map; lia). rewrite (map_nth (fun x => x ^ 5)), Hadd by done. done.
Qed.

Lemma text_partial_ok t m s c : length s = t -> length c = t -> length (text_partial m s c) = t /\
  forall i, (i < t)%nat -> at_ (text_partial m s c) i ≡ₚ
    dense t m (fun j => match j with O => (at_ s 0 + at_ c 0) ^ 5 | _ => at_ s j + at_ c j end) i.
Proof.
  intros Hs Hc. destruct (text_add_ok t s c Hs Hc) as [Hl Hadd]. unfold text_partial. destruct (text_add s c) as [|x l].
  { cbn in *. subst t. split; [by destruct (text_mix_ok 0 m [])|lia]. }
  destruct (text_mix_ok t m (x ^ 5 :: l) Hl) as [Hl' Hmix]. split; [done|]. intros i Hi. rewrite (proj1 (Hmix i Hi)).
  apply dense_congr. intros [|j] Hj; [by rewrite <- Hadd|]. by rewrite <- (Hadd (S j)).
Qed.

(** A loop of the gadget beside a loop of the textbook. *)
Lemma ofold_sim {B} (body : list Z -> nat -> option (list Z)) (f : list Z -> B -> list Z) (R : nat -> list Z -> list Z -> Prop) l v u :
  (forall k c v u, l !! k = Some c -> R k v u -> exists v', body v k = Some v' /\ R (S k) v' (f u c)) ->
  R 0%nat v u -> exists v', ofold body v (seq 0 (length l)) = Some v' /\ R (length l) v' (foldl f u l).
Proof.
  intros Hstep. enough (forall l' a v u, (forall k c, l' !! k = Some c -> l !! (a + k)%nat = Some c) -> R a v u ->
    exists v', ofold body v (seq a (length l')) = Some v' /\ R (a + length l')%nat v' (foldl f u l')) as Hgen.
  { intros HR. by apply (Hgen l 0%nat). }
  induction l' as [|c l' IH]; intros a v' u' Hl HR; cbn [length seq ofold foldl]; [exists v'; by rewrite Nat.add_0_r|].
  destruct (Hstep a c v' u') as (w & -> & HRw); [specialize (Hl 0%nat c eq_refl); by rewrite Nat.add_0_r in Hl|done|]. cbn.
  destruct (IH (S a) w (f u' c)) as (w' & Hw & HRw'); [intros k c' Hk; specialize (Hl (S k) c' Hk); by rewrite Nat.add_succ_r in Hl|done|].
  exists w'. by rewrite Nat.add_succ_r.
Qed.

Lemma slice_ok {A} (l : list A) a b : (a <= b <= length l)%nat -> slice l a b = Some (take (b - a) (drop a l)).
Proof. intros [? ?]. unfold slice. by rewrite !(proj2 (Nat.leb_le _ _)) by done. Qed.

Lemma nth_slice (l : list Z) a n i : (i < n)%nat -> at_ (take n (drop a l)) i = at_ l (a + i).
Proof.
  intros Hi. destruct (decide (a + i < length l)%nat) as [Hl|Hl].
  - apply nth_lookup_Some. rewrite lookup_take_lt, lookup_drop by done. by apply lookup_nth.
  - rewrite !nth_overflow; [done|lia|rewrite length_take, length_drop; lia].
Qed.

(** ** The simulation *)

Section simulation.
Context {G : Gnark} {GL : GnarkLaws G} {I3 : Iden3}.
Context (k : constants) (t rp : nat) (C S : list Z) (m p cs : list (list Z)) (a : nat -> nat -> nat -> Z) (d : nat -> nat -> Z).
Context (Hlink : iden3C = Some k) (Hm : tab_m k !! (t - 2)%nat = Some m) (Hp : tab_p k !! (t - 2)%nat = Some p).
Context (Hder : derived_tables t rp C S m p cs a d) (Ht : (2 <= t)%nat).

(** Between full rounds the gadget has already added the constants [c]. *)
Definition matched (c v u : list Z) : Prop :=
  length v = t /\ length u = t /\ forall i, (i < t)%nat -> at_ v i ≡ₚ at_ u i + at_ c i.

(** Between partial rounds they differ by the block and the remaining constants. *)
Definition factored (r : nat) (v u : list Z) : Prop :=
  length v = t /\ length u = t /\
  forall i, (i < t)%nat -> at_ u i + entry cs (4 + r) i ≡ₚ inner t (a r) (fun j => at_ v j) i + d r i.

Lemma cs_width r c : cs !! r = Some c -> length c = t /\ nth r cs [] = c.
Proof.
  intros Hc. destruct (dt_cs _ _ _ _ _ _ _ _ _ Hder) as [_ Hall]. split; [by apply (Forall_lookup_1 _ _ _ _ Hall Hc)|].
  by apply nth_lookup_Some.
Qed.

Lemma powers_congr c v u m' i : matched c v u ->
  dense t m' (fun j => (at_ u j + at_ c j) ^ 5) i ≡ₚ dense t m' (fun j => at_ v j ^ 5) i.
Proof. intros (_ & _ & Hv). apply dense_congr. intros j Hj. apply congr_pow5. by rewrite (Hv j Hj). Qed.

Lemma full_sim c c' ark v u : matched c v u -> length c = t -> (t <= length ark)%nat ->
  (forall i, (i < t)%nat -> dense t m (fun j => at_ ark j) i ≡ₚ at_ c' i) ->
  exists v', PoseidonFullRound v ark = Some v' /\ matched c' v' (text_full m u c).
Proof.
  intros Hv Hc Hark Hc'. pose proof Hv as (Hlv & Hlu & _). unfold PoseidonFullRound. rewrite Hlink. cbn [mbind option_bind].
  rewrite Hlv, Hm. cbn [mbind option_bind].
  destruct (full_round_ok t m v ark Hlv Hark (dt_m _ _ _ _ _ _ _ _ _ Hder)) as (v' & -> & Hlv' & Hi').
  destruct (text_full_ok t m u c Hlu Hc) as [Hlt Htext]. exists v'. do 3 (split; [done|]). intros i Hi.
  rewrite (Hi' i Hi), (proj1 (Htext i Hi)), dense_add, (Hc' i Hi), (powers_congr c v u) by done. done.
Qed.

Lemma enter_sim c v u : matched c v u -> length c = t ->
  exists v', PoseidonFullRoundP v (take t (drop (4 * t) C)) = Some v' /\ factored 0 v' (text_full m u c).
Proof.
  intros Hv Hc. pose proof Hv as (Hlv & Hlu & _). unfold PoseidonFullRoundP. rewrite Hlink. cbn [mbind option_bind].
  rewrite Hlv, Hp. cbn [mbind option_bind].
  edestruct (full_round_ok t p v (take t (drop (4 * t) C)) Hlv) as (v' & -> & Hlv' & Hi').
  { rewrite length_take, length_drop, (dt_C _ _ _ _ _ _ _ _ _ Hder). lia. }
  { apply (dt_p _ _ _ _ _ _ _ _ _ Hder). }
  destruct (text_full_ok t m u c Hlu Hc) as [Hlt Htext]. exists v'. do 3 (split; [done|]). intros i Hi.
  rewrite (proj1 (Htext i Hi)), (powers_congr c v u) by done. change (4 + 0)%nat with 4%nat.
  rewrite (dt_enter_const _ _ _ _ _ _ _ _ _ Hder i Hi), Z.add_assoc, <- dense_add.
  rewrite (dt_enter _ _ _ _ _ _ _ _ _ Hder _ i Hi). apply congr_add; [|done]. apply inner_congr; [done|]. intros j Hj.
  rewrite (Hi' j Hj). apply dense_congr. intros l Hl. by rewrite nth_slice by done.
Qed.

Lemma partial_sim r c v u : (r < rp)%nat -> cs !! (4 + r)%nat = Some c -> factored r v u ->
  exists v', PoseidonPartialRound v (at_ C (5 * t + r)) (take (2 * t - 1) (drop ((2 * t - 1) * r) S)) = Some v' /\
    factored (r + 1) v' (text_partial m u c).
Proof.
  intros Hr Hc (Hlv & Hlu & Hvu). destruct (cs_width _ _ Hc) as [Hlc Ec]. set (row := take _ _).
  destruct (partial_round_ok t v (at_ C (5 * t + r)) row Hlv ltac:(lia)) as (v' & -> & Hlv' & Hi').
  { unfold row. rewrite length_take, length_drop, (dt_S _ _ _ _ _ _ _ _ _ Hder). nia. }
  destruct (text_partial_ok t m u c Hlu Hlc) as [Hlt Htext]. exists v'. do 3 (split; [done|]). intros i Hi.
  set (w := fun j : nat => match j with O => at_ v 0 ^ 5 | _ => at_ v j end).
  assert (forall j, (j < t)%nat -> match j with O => (at_ u 0 + at_ c 0) ^ 5 | _ => at_ u j + at_ c j end ≡ₚ inner t (a r) w j + d r j) as Hw.
  { intros j Hj. rewrite <- Ec. destruct j as [|j].
    - rewrite (dt_kept _ _ _ _ _ _ _ _ _ Hder r Hr), Z.add_0_r. apply congr_pow5. rewrite (Hvu 0%nat Hj).
      by rewrite (dt_kept _ _ _ _ _ _ _ _ _ Hder r Hr), Z.add_0_r.
    - by rewrite (Hvu (Datatypes.S j) Hj). }
  rewrite (Htext i Hi), (dense_congr t m _ _ i Hw), dense_add, (dt_sparse _ _ _ _ _ _ _ _ _ Hder r w i Hr Hi).
  rewrite <- Z.add_assoc. replace (4 + (r + 1))%nat with (5 + r)%nat by lia.
  rewrite (dt_sparse_const _ _ _ _ _ _ _ _ _ Hder r i Hr Hi), Z.add_assoc, <- inner_add. fold row. apply congr_add; [|done].
  apply inner_congr; [done|]. intros j Hj. rewrite (Hi' j Hj), <- sparse_add. apply sparse_congr; [done|].
  intros [|l] _; unfold w; cbn [first_only]; [done|]. by rewrite Z.add_0_r.
Qed.

Lemma leave_sim v u : factored rp v u -> matched (nth (4 + rp) cs []) v u.
Proof.
  intros (Hlv & Hlu & Hvu). do 2 (split; [done|]). intros i Hi. rewrite (Hvu i Hi). symmetry.
  apply (dt_leave _ _ _ _ _ _ _ _ _ Hder (fun j => at_ v j) i Hi).
Qed.

Lemma final_sim c v u : matched c v u -> length c = t ->
  exists x, (state ← PoseidonFinalRound v; head state) = Some x /\ head (text_full m u c) = Some x.
Proof.
  intros Hv Hc. pose proof Hv as (Hlv & Hlu & _). unfold PoseidonFinalRound. rewrite Hlink. cbn [mbind option_bind].
  rewrite Hlv, Hm. cbn [mbind option_bind].
  destruct (mix_ok t m (map exp5 v)) as (v' & -> & Hlv' & Hi'); [by rewrite length_map|apply (dt_m _ _ _ _ _ _ _ _ _ Hder)|].
  destruct (text_full_ok t m u c Hlu Hc) as [Hlt Htext]. destruct v' as [|x v']; [cbn in Hlv'; lia|].
  destruct (text_full m u c) as [|y u']; [cbn in Hlt; lia|]. exists x. split; [done|]. cbn. f_equal.
  destruct (Hi' 0%nat ltac:(lia)) as [Hx ?], (Htext 0%nat ltac:(lia)) as [Hy ?]. apply congr_eq; [done..|]. cbn [nth] in Hx, Hy.
  rewrite Hy, Hx, (powers_congr c v u) by done. symmetry. apply dense_congr. intros j Hj. apply nth_exp5. lia.
Qed.

Lemma head_sim s : length s = t -> exists v, add_ark s C = Some v /\ matched (nth 0 cs []) v s.
Proof.
  intros Hs. destruct (add_ark_ok t s C Hs) as (v & -> & Hlv & Hv); [rewrite (dt_C _ _ _ _ _ _ _ _ _ Hder); lia|].
  exists v. do 3 (split; [done|]). intros i Hi. by rewrite (Hv i Hi), (dt_first _ _ _ _ _ _ _ _ _ Hder i Hi).
Qed.

(** The three full rounds of either half, from constant [n] of the textbook and offset [o] of the table. *)
Lemma full_rounds_sim n o v u : (n + 4 <= length cs)%nat -> (o + 3 * t <= length C)%nat ->
  (forall j i, (j < 3)%nat -> (i < t)%nat -> dense t m (fun l => at_ C (o + j * t + l)) i ≡ₚ entry cs (n + j + 1) i) ->
  matched (nth n cs []) v u ->
  exists v', ofold (fun state i => ark ← slice C (o + i * t) (o + (i + 1) * t); PoseidonFullRound state ark) v (seq 0 3) = Some v' /\
    matched (nth (n + 3) cs []) v' (foldl (text_full m) u (take 3 (drop n cs))).
Proof.
  intros Hn Ho Hconst Hv. assert (length (take 3 (drop n cs)) = 3%nat) as H3 by (rewrite length_take, length_drop; lia).
  pose proof (ofold_sim (fun state i => ark ← slice C (o + i * t) (o + (i + 1) * t); PoseidonFullRound state ark) (text_full m)
    (fun j v u => matched (nth (n + j) cs []) v u) (take 3 (drop n cs)) v u) as Hsim.
  rewrite H3 in Hsim. apply Hsim; [|by rewrite Nat.add_0_r]. clear Hsim.
  intros j c w x Hc Hw. pose proof (lookup_lt_Some _ _ _ Hc) as Hj. rewrite H3 in Hj.
  rewrite lookup_take_lt, lookup_drop in Hc by done. destruct (cs_width _ _ Hc) as [Hlc Ec]. rewrite Ec in Hw.
  rewrite slice_ok by nia. cbn [mbind option_bind]. replace (o + (j + 1) * t - (o + j * t))%nat with t by nia.
  apply (full_sim c _ _ w x Hw Hlc); [rewrite length_take, length_drop; nia|]. intros i Hi.
  rewrite (dense_congr t m _ (fun l => at_ C (o + j * t + l))); [|intros l Hl; by rewrite nth_slice].
  replace (n + Datatypes.S j)%nat with (n + j + 1)%nat by lia. by apply Hconst.
Qed.

Lemma partial_rounds_sim v u : factored 0 v u ->
  exists v', ofold (fun state r => ark ← C !! (5 * t + r)%nat; row ← slice S ((2 * t - 1) * r) ((2 * t - 1) * (r + 1));
      PoseidonPartialRound state ark row) v (seq 0 rp) = Some v' /\
    factored rp v' (foldl (text_partial m) u (take rp (drop 4 cs))).
Proof.
  intros Hv. destruct (dt_cs _ _ _ _ _ _ _ _ _ Hder) as [Hcs _].
  assert (length (take rp (drop 4 cs)) = rp) as Hl by (rewrite length_take, length_drop; lia).
  pose proof (ofold_sim (fun state r => ark ← C !! (5 * t + r)%nat; row ← slice S ((2 * t - 1) * r) ((2 * t - 1) * (r + 1));
      PoseidonPartialRound state ark row) (text_partial m) factored (take rp (drop 4 cs)) v u) as Hsim.
  rewrite Hl in Hsim. apply Hsim; [|done]. clear Hsim. intros r c w x Hc Hw. pose proof (lookup_lt_Some _ _ _ Hc) as Hr.
  rewrite Hl in Hr. rewrite lookup_take_lt, lookup_drop in Hc by done.
  rewrite lookup_nth by (rewrite (dt_C _ _ _ _ _ _ _ _ _ Hder); lia). cbn [mbind option_bind].
  rewrite slice_ok by (rewrite (dt_S _ _ _ _ _ _ _ _ _ Hder); nia). cbn [mbind option_bind].
  replace ((2 * t - 1) * (r + 1) - (2 * t - 1) * r)%nat with (2 * t - 1)%nat by nia.
  destruct (partial_sim r c w x Hr Hc Hw) as (w' & -> & Hw'). exists w'. by rewrite Nat.add_1_r in Hw'.
Qed.

End simulation.

Lemma ofold_ext {A B} (f g : A -> B -> option A) s l : (forall s x, f s x = g s x) -> ofold f s l = ofold g s l.
Proof. intros Hfg. revert s. induction l as [|x l IH]; intros s; [done|]. cbn. rewrite Hfg. destruct (g s x); [apply IH|done]. Qed.

(** The textbook permutation, with the last full round of either half split off. *)
Lemma text_permutation_split m cs rp s c3 c7 : length cs = (8 + rp)%nat -> cs !! 3%nat = Some c3 -> cs !! (7 + rp)%nat = Some c7 ->
  text_permutation m cs rp s =
  text_full m (foldl (text_full m) (foldl (text_partial m)
    (text_full m (foldl (text_full m) s (take 3 (drop 0 cs))) c3) (take rp (drop 4 cs))) (take 3 (drop (4 + rp) cs))) c7.
Proof.
  intros Hl H3 H7. unfold text_permutation. rewrite (take_S_r cs 3 c3 H3), foldl_app, drop_0. cbn [foldl].
  assert (drop (4 + rp) cs = take 3 (drop (4 + rp) cs) ++ [c7]) as E.
  { rewrite <- (take_S_r (drop (4 + rp) cs) 3 c7); [|rewrite lookup_drop, <- H7; f_equal; lia].
    symmetry. apply take_ge. rewrite length_drop. lia. }
  rewrite E at 1. by rewrite foldl_app.
Qed.

(** C19. The Poseidon gadget, with its sparse partial rounds, computes the textbook
    permutation: on tables derived from the round constants and the mixing matrix,
    for 1 to 16 inputs and any capacity element, it does not panic and returns the
    first element of the permuted state. *)
Theorem gadget_is_textbook_poseidon {G : Gnark} {GL : GnarkLaws G} {I3 : Iden3} (Inputs : list Z) (InitState : Z)
    (k : constants) (rp : nat) (C Sp : list Z) (m p cs : list (list Z)) (a : nat -> nat -> nat -> Z) (d : nat -> nat -> Z) :
  let t := S (length Inputs) in
  (1 <= length Inputs <= 16)%nat ->
  iden3C = Some k -> nRoundsP !! (t - 2)%nat = Some rp ->
  tab_c k !! (t - 2)%nat = Some C -> tab_s k !! (t - 2)%nat = Some Sp ->
  tab_m k !! (t - 2)%nat = Some m -> tab_p k !! (t - 2)%nat = Some p ->
  derived_tables t rp C Sp m p cs a d ->
  exists h, PoseidonHashWithState Inputs InitState = Some h /\ head (text_permutation m cs rp (InitState :: Inputs)) = Some h.
Proof.
  intros t Hin Hk Hrp HC HS Hm Hp Hder. unfold PoseidonHashWithState, Poseidon_DefineGadget.
  rewrite (proj2 (Nat.eqb_neq _ _)), (proj2 (Nat.ltb_ge _ _)) by (change (length nRoundsP) with 16%nat; lia). cbn [orb]. fold t.
  rewrite Hk. cbn [mbind option_bind]. rewrite HC. cbn [mbind option_bind]. rewrite HS. cbn [mbind option_bind]. rewrite Hrp.
  cbn [mbind option_bind]. change (nRoundsF / 2)%nat with 4%nat. change (4 - 1)%nat with 3%nat.
  destruct (dt_cs _ _ _ _ _ _ _ _ _ Hder) as [Hlcs Hall]. pose proof (dt_C _ _ _ _ _ _ _ _ _ Hder) as HlC.
  destruct (lookup_lt_is_Some_2 cs 3 ltac:(lia)) as [c3 H3]. destruct (lookup_lt_is_Some_2 cs (7 + rp) ltac:(lia)) as [c7 H7].
  destruct (cs_width t rp C Sp m p cs a d Hder _ _ H3) as [Hl3 E3], (cs_width t rp C Sp m p cs a d Hder _ _ H7) as [Hl7 E7].
  rewrite (text_permutation_split m cs rp _ c3 c7 Hlcs H3 H7). assert (2 <= t)%nat as Ht by lia.
  destruct (head_sim t rp C Sp m p cs a d Hder Ht (InitState :: Inputs) eq_refl) as (v0 & -> & Hv0). cbn [mbind option_bind].
  rewrite (ofold_ext _ (fun state i => ark ← slice C (t + i * t) (t + (i + 1) * t); PoseidonFullRound state ark)).
  2:{ intros state i. by replace ((i + 1) * t)%nat with (t + i * t)%nat by lia; replace ((i + 2) * t)%nat with (t + (t + i * t))%nat by lia. }
  destruct (full_rounds_sim k t rp C Sp m p cs a d Hk Hm Hder Ht 0 t v0 (InitState :: Inputs)) as (v1 & -> & Hv1); [lia|lia| |done|].
  { intros j i Hj Hi. replace (0 + j + 1)%nat with (j + 1)%nat by lia.
    rewrite <- (dt_full _ _ _ _ _ _ _ _ _ Hder (j + 1) i) by lia. apply dense_congr. intros l _.
    by replace (t + j * t + l)%nat with ((j + 1) * t + l)%nat by lia. }
  cbn [mbind option_bind]. rewrite slice_ok by lia. cbn [mbind option_bind]. replace ((4 + 1) * t - 4 * t)%nat with t by lia.
  cbn [Nat.add] in Hv1. rewrite E3 in Hv1.
  destruct (enter_sim k t rp C Sp m p cs a d Hk Hp Hder Ht c3 v1 _ Hv1 Hl3) as (v2 & -> & Hv2). cbn [mbind option_bind].
  destruct (partial_rounds_sim t rp C Sp m p cs a d Hder Ht v2 _ Hv2) as (v3 & Hloop & Hv3). change (4 + 1)%nat with 5%nat.
  rewrite Hloop. cbn [mbind option_bind]. apply (leave_sim t rp C Sp m p cs a d Hder) in Hv3.
  edestruct (full_rounds_sim k t rp C Sp m p cs a d Hk Hm Hder Ht (4 + rp) (5 * t + rp) v3) as (v4 & -> & Hv4); [lia|lia| |exact Hv3|].
  { intros j i Hj Hi. replace (4 + rp + j + 1)%nat with (5 + rp + j)%nat by lia. by apply (dt_last _ _ _ _ _ _ _ _ _ Hder). }
  cbn [mbind option_bind]. replace (4 + rp + 3)%nat with (7 + rp)%nat in Hv4 by lia. rewrite E7 in Hv4.
  by apply (final_sim k t rp C Sp m p cs a d Hk Hm Hder Ht).
Qed.

(** ** The hash of the circuits *)

Section hash.
Context {G : Gnark} {GL : GnarkLaws G} {I3 : Iden3}.

Definition gadget_hash : CircuitHash := fun xs => default 0 (PoseidonHashWithState xs 0).

Lemma mix_fe s m s' : mix s m = Some s' -> Forall fe s'.
Proof.
  intros Hmix%mapM_Some. apply Forall_forall. intros y [i Hy]%list_elem_of_lookup.
  destruct (Forall2_lookup_r _ _ _ _ _ Hmix Hy) as (j & _ & Hsum). revert Hsum.
  generalize (seq 0 (length s)). assert (fe 0) as H0 by auto with field. revert H0. generalize 0.
  intros acc Hacc l. revert acc Hacc. induction l as [|n l IH]; intros acc Hacc Hsum; [by injection Hsum as <-|].
  cbn [ofold] in Hsum. destruct (m !! n) as [row|]; [|done]. cbn [mbind option_bind] in Hsum. destruct (row !! j) as [x|]; [|done].
  cbn [mbind option_bind] in Hsum. destruct (s !! n) as [z|]; [|done]. apply (IH _ (add_fe _ _) Hsum).
Qed.

Lemma gadget_fe Inputs InitState h : PoseidonHashWithState Inputs InitState = Some h -> fe h.
Proof.
  unfold PoseidonHashWithState, Poseidon_DefineGadget. destruct (_ || _); [done|]. intros Hrun.
  repeat (apply bind_Some in Hrun as (? & ? & Hrun)). destruct x9 as [|y l]; [done|]. injection Hrun as <-.
  match goal with Hf : PoseidonFinalRound _ = Some _ |- _ => unfold PoseidonFinalRound in Hf;
    apply bind_Some in Hf as (? & _ & Hf); apply bind_Some in Hf as (? & _ & Hf); apply mix_fe in Hf; by apply Forall_cons in Hf as [? _] end.
Qed.

#[global] Instance gadget_hash_law : CircuitHashLaw gadget_hash.
Proof.
  intros xs. unfold poseidon, gadget_hash. destruct (PoseidonHashWithState xs 0) as [h|] eqn:Hh; [by eapply gadget_fe|].
  auto with field.
Qed.

(** [PoseidonHash] of the circuits with this hash is the gadget with capacity
    element 0: the same value, and a panic on the same numbers of inputs. *)
Lemma PoseidonHash_gadget xs h : PoseidonHashWithState xs 0 = Some h -> PoseidonHash (H := gadget_hash) xs = Some (h, [xs]).
Proof.
  intros Hh. pose proof Hh as Hlen. unfold PoseidonHashWithState, Poseidon_DefineGadget in Hlen.
  unfold PoseidonHash. change (length nRoundsP) with 16%nat in Hlen. destruct (_ || _); [done|].
  unfold poseidon, gadget_hash. by rewrite Hh.
Qed.

End hash.
