(* ===== verification/SparseTree.v ===== *)
(** * Merkle trees in the circuits

    The reference tree over a leaf function, and what the Merkle root gadgets
    prove of it: a leaf with a path to the root of a known tree is the leaf of
    that tree at the path's index, and the root computed from another leaf over
    the same path is the root of the tree with that one leaf replaced.  Both hold
    as long as the preimages hashed on the way and those of the tree do not
    collide ([ideal]). *)

From S2P Require Import Prelude Hasher Gnark Gadgets GadgetSpecs.

(** The node at height [n] and position [k] of the tree with leaves [f]. *)
Fixpoint node `{CircuitHash} (f : Z -> Z) (n : nat) (k : Z) : Z :=
  match n with
  | O => f k
  | S n' => poseidon [node f n' (2 * k); node f n' (2 * k + 1)]
  end.

(** A set of preimages without a collision and without a preimage of zero, the
    value of an empty leaf. *)
Record ideal `{CircuitHash} (Q : list Z -> Prop) : Prop := {
  ideal_inj : forall x y, Q x -> Q y -> poseidon x = poseidon y -> x = y;
  ideal_nonzero : forall x, Q x -> poseidon x <> 0;
}.

(** The inner nodes of a tree of height [h] are in [Q]. *)
Definition hashed `{CircuitHash} (Q : list Z -> Prop) (f : Z -> Z) (h : nat) : Prop :=
  forall n k, (n < h)%nat -> 0 <= k < 2 ^ Z.of_nat (h - 1 - n) -> Q [node f n (2 * k); node f n (2 * k + 1)].

(** The tree with one leaf replaced. *)
Definition upd (f : Z -> Z) (i v : Z) : Z -> Z := fun j => if j =? i then v else f j.

Lemma upd_same f i v : upd f i v i = v.
Proof. unfold upd. by rewrite Z.eqb_refl. Qed.

Lemma upd_other f i v j : j <> i -> upd f i v j = f j.
Proof. unfold upd. intros Hj. by rewrite (proj2 (Z.eqb_neq _ _) Hj). Qed.

Lemma half_pow i n : i / 2 ^ Z.of_nat (S n) = i / 2 ^ Z.of_nat n / 2.
Proof. rewrite Nat2Z.inj_succ, Z.pow_succ_r, Z.mul_comm, Z.div_div by lia. done. Qed.

(** The ancestors of leaf [i] at heights [S n] and [n]: the bit [n] of [i] says
    which child the path goes through. *)
Lemma ancestor_child i n :
  i / 2 ^ Z.of_nat n = 2 * (i / 2 ^ Z.of_nat (S n)) + Z.b2z (Z.testbit i (Z.of_nat n)).
Proof. rewrite half_pow, Z.testbit_spec' by lia. pose proof (Z.div_mod (i / 2 ^ Z.of_nat n) 2). lia. Qed.

Section trees.
Context {G : Gnark} {GL : GnarkLaws G} {H : CircuitHash} {HL : CircuitHashLaw H}.
Context (Q : list Z -> Prop).

Lemma node_ext f g n k : (forall j, f j = g j) -> node f n k = node g n k.
Proof. intros E. revert k. induction n as [|n IH]; intros k; simpl; [done|]. by rewrite !IH. Qed.

Lemma node_upd_other f i v n k : k <> i / 2 ^ Z.of_nat n -> node (upd f i v) n k = node f n k.
Proof.
  revert k. induction n as [|n IH]; intros k Hk; simpl.
  - rewrite Z.div_1_r in Hk. by apply upd_other.
  - rewrite half_pow in Hk. rewrite !IH; [done|intros E..]; apply Hk; rewrite <- E;
    [apply Z.div_unique with 1|apply Z.div_unique with 0]; lia.
Qed.

Lemma node_path f i n :
  node f (S n) (i / 2 ^ Z.of_nat (S n)) =
  let own := node f n (i / 2 ^ Z.of_nat n) in
  poseidon (if Z.testbit i (Z.of_nat n) then [node f n (2 * (i / 2 ^ Z.of_nat (S n))); own]
            else [own; node f n (2 * (i / 2 ^ Z.of_nat (S n)) + 1)]).
Proof.
  cbn [node]. rewrite (ancestor_child i n). destruct (Z.testbit i (Z.of_nat n)); cbn [Z.b2z]; [done|].
  by rewrite Z.add_0_r.
Qed.

(** One more level of the root gadget. *)
Lemma merkle_root_step leaf h i path n r : (n < h)%nat ->
  runs Q (MerkleRootGadget leaf (bits h i) path (S n)) r ->
  exists t s, runs Q (MerkleRootGadget leaf (bits h i) path n) t /\ path !! n = Some s /\
    let pair := if Z.testbit i (Z.of_nat n) then [s; t] else [t; s] in
    r = poseidon pair /\ Q pair.
Proof.
  intros Hn Hr. unfold MerkleRootGadget in Hr. rewrite seq_S, runs_cfold_snoc in Hr.
  destruct Hr as (t & Ht & Hr). cbn [Nat.add] in Hr. unfold ProveParentHash in Hr. cinv.
  repeat match goal with E : runs Q (clift _) _ |- _ => apply runs_clift in E end.
  rewrite lookup_bits in * by done. simplify_eq. exists t, x0. split; [done|]. split; [done|].
  cspec runs_poseidon by (simpl; lia). rewrite !select_b2z in Hr. by destruct (Z.testbit i (Z.of_nat n)).
Qed.

Lemma half_bound i n h : (S n <= h)%nat -> 0 <= i < 2 ^ Z.of_nat h ->
  0 <= i / 2 ^ Z.of_nat (S n) < 2 ^ Z.of_nat (h - 1 - n).
Proof.
  intros Hn Hi. split; [apply Z.div_pos; lia|]. apply Z.div_lt_upper_bound; [lia|].
  rewrite <- Z.pow_add_r by lia. replace (Z.of_nat (S n) + Z.of_nat (h - 1 - n)) with (Z.of_nat h) by lia. lia.
Qed.

(** The root gadget on a known tree: the leaf is the tree's, every sibling is,
    and another leaf over the same path gives the updated tree. *)
Lemma merkle_path_sound f h i path (HQ : ideal Q) (Hf : hashed Q f h) (Hi : 0 <= i < 2 ^ Z.of_nat h) :
  forall n leaf, (n <= h)%nat ->
  runs Q (MerkleRootGadget leaf (bits h i) path n) (node f n (i / 2 ^ Z.of_nat n)) ->
  leaf = f i /\
  forall leaf' r, runs Q (MerkleRootGadget leaf' (bits h i) path n) r ->
    r = node (upd f i leaf') n (i / 2 ^ Z.of_nat n) /\
    forall m, (m < n)%nat -> let k := i / 2 ^ Z.of_nat (S m) in
      Q [node (upd f i leaf') m (2 * k); node (upd f i leaf') m (2 * k + 1)].
Proof.
  induction n as [|n IH]; intros leaf Hn Hrun.
  - unfold MerkleRootGadget in *. simpl in *. cinv. rewrite Z.div_1_r. split; [done|]. intros leaf' r Hr. cinv.
    split; [by rewrite upd_same|lia].
  - apply merkle_root_step in Hrun as (t & s & Ht & Hs & Hr & HQr); [|lia].
    pose proof (Hf n (i / 2 ^ Z.of_nat (S n)) ltac:(lia) (half_bound i n h Hn Hi)) as HQf.
    rewrite node_path in Hr. cbn zeta in Hr.
    pose proof (ancestor_child i n) as Hanc. pose proof (half_bound i n h Hn Hi) as Hb.
    set (j := i / 2 ^ Z.of_nat (S n)) in *. destruct (Z.testbit i (Z.of_nat n)) eqn:Ebit; cbn [Z.b2z] in Hanc.
    + rewrite Hanc in Hr. apply (ideal_inj Q HQ) in Hr; [|done..]. injection Hr as <- <-.
      rewrite <- Hanc in Ht. destruct (IH leaf ltac:(lia) Ht) as [-> Hupd]. split; [done|].
      intros leaf' r' Hr'. apply merkle_root_step in Hr' as (t' & s' & Ht' & Hs' & -> & HQ'); [|lia].
      rewrite Hs in Hs'. injection Hs' as <-. rewrite Ebit in *. destruct (Hupd leaf' t' Ht') as [-> Hnodes].
      pose proof (node_upd_other f i leaf' n (2 * j) ltac:(lia)) as Eother.
      unfold j. rewrite node_path. fold j. rewrite Ebit, Eother. split; [done|]. intros m Hm. cbn zeta.
      destruct (decide (m = n)) as [->|]; [|apply Hnodes; lia]. fold j. by rewrite Eother, <- Hanc.
    + rewrite Z.add_0_r in Hanc. rewrite Hanc in Hr. apply (ideal_inj Q HQ) in Hr; [|done..]. injection Hr as <- <-.
      rewrite <- Hanc in Ht. destruct (IH leaf ltac:(lia) Ht) as [-> Hupd]. split; [done|].
      intros leaf' r' Hr'. apply merkle_root_step in Hr' as (t' & s' & Ht' & Hs' & -> & HQ'); [|lia].
      rewrite Hs in Hs'. injection Hs' as <-. rewrite Ebit in *. destruct (Hupd leaf' t' Ht') as [-> Hnodes].
      pose proof (node_upd_other f i leaf' n (2 * j + 1) ltac:(lia)) as Eother.
      unfold j. rewrite node_path. fold j. rewrite Ebit, Eother. split; [done|]. intros m Hm. cbn zeta.
      destruct (decide (m = n)) as [->|]; [|apply Hnodes; lia]. fold j. rewrite Eother. by rewrite Hanc in HQ'.
Qed.

Lemma hashed_upd f h i leaf : hashed Q f h -> 0 <= i < 2 ^ Z.of_nat h ->
  (forall m, (m < h)%nat -> let k := i / 2 ^ Z.of_nat (S m) in
     Q [node (upd f i leaf) m (2 * k); node (upd f i leaf) m (2 * k + 1)]) ->
  hashed Q (upd f i leaf) h.
Proof.
  intros Hf Hi Hpath n k Hn Hk. destruct (decide (k = i / 2 ^ Z.of_nat (S n))) as [->|Hne]; [by apply Hpath|].
  pose proof (ancestor_child i n) as Hanc. rewrite !node_upd_other; [by apply Hf|..];
  destruct (Z.testbit i (Z.of_nat n)); cbn [Z.b2z] in Hanc; lia.
Qed.

Lemma index_root i h : 0 <= i < 2 ^ Z.of_nat h -> i / 2 ^ Z.of_nat h = 0.
Proof. apply Z.div_small. Qed.

(** An accepted path to the root of [f] is a path to the leaf of [f]. *)
Lemma merkle_root_sound f h i path leaf :
  ideal Q -> hashed Q f h -> 0 <= i < 2 ^ Z.of_nat h ->
  runs Q (MerkleRootGadget leaf (bits h i) path h) (node f h 0) -> leaf = f i.
Proof.
  intros HQ Hf Hi Hr. eapply (merkle_path_sound f h i path HQ Hf Hi h); [done|]. by rewrite (index_root i h Hi).
Qed.

Lemma merkle_root_fe leaf h i path r : (0 < h)%nat ->
  runs Q (MerkleRootGadget leaf (bits h i) path h) r -> fe r.
Proof.
  intros Hh Hr. destruct h as [|n]; [lia|]. apply merkle_root_step in Hr as (t & s & _ & _ & -> & _); [|lia].
  apply poseidon_fe.
Qed.

Lemma node_fe f h k : (0 < h)%nat -> fe (node f h k).
Proof. destruct h; [lia|]. intros _. apply poseidon_fe. Qed.

(** The update gadget replaces exactly the leaf at its index. *)
Lemma merkle_update_sound f h i path old new r :
  ideal Q -> hashed Q f h -> (0 < h)%nat -> 0 <= i < 2 ^ Z.of_nat h ->
  runs Q (MerkleRootUpdateGadget (node f h 0) old new (bits h i) path h) r ->
  old = f i /\ r = node (upd f i new) h 0 /\ hashed Q (upd f i new) h.
Proof.
  intros HQ Hf Hh Hi Hr. unfold MerkleRootUpdateGadget in Hr. cinv.
  match goal with Hold : runs Q _ ?x, E : runs Q (AssertIsEqual ?x _) _ |- _ =>
    apply runs_equal in E as ->; [|by eapply merkle_root_fe|by apply node_fe];
    rewrite <- (index_root i h Hi) in Hold;
    destruct (merkle_path_sound f h i path HQ Hf Hi h old (le_n h) Hold) as [-> Hupd] end.
  destruct (Hupd new r Hr) as [-> Hnodes]. rewrite (index_root i h Hi). split_and!; [done..|]. by apply hashed_upd.
Qed.

End trees.
