(* ===== verification/ChainSpecs.v ===== *)
(** * The chains of the circuits and of the program

    A public input is one field element: a hash chain over the values the proof is
    about.  The circuits compute it with the gadgets of gadget/hashchain.go, the
    program with the folds of program-libs/hasher.  Here they are shown to be the
    same function of the same values, and the gadgets to be binding: over a set of
    preimages without collisions two lists of one length with the same chain are
    equal. *)

From S2P Require Import Prelude ZeroBytes Hasher HashChain Gnark Gadgets GadgetSpecs SparseTree.

(** A field element as the program passes it. *)
Definition fbytes (x : Z) : bytes := be_bytes 32 x.

(** The hash gadget is the hash of the system call ("matches
    [light_hasher::Poseidon] byte-for-byte"). *)
Class PoseidonAgrees (SP : SolPoseidon) (H : CircuitHash) : Prop :=
  poseidon_agrees : forall xs, (1 <= length xs <= 12)%nat -> Forall fe xs ->
    sol_poseidon (map fbytes xs) = (0, fbytes (poseidon xs)).

(** [m] is satisfied with result [v]. *)
Notation computes m v := (runs (fun _ => True) m v).

Lemma fe_32 x : fe x -> 0 <= x < 256 ^ Z.of_nat 32.
Proof. intros Hx. pose proof (fe_bit254 x Hx). unfold fe in Hx. change (256 ^ Z.of_nat 32) with (2 ^ 256). lia. Qed.

Lemma be_val_fbytes x : fe x -> be_val (fbytes x) = x.
Proof. intros Hx. by apply be_val_be_bytes, fe_32. Qed.

Lemma fbytes_inj x y : fe x -> fe y -> fbytes x = fbytes y -> x = y.
Proof. intros Hx Hy E. apply (f_equal be_val) in E. by rewrite !be_val_fbytes in E. Qed.

Lemma canonical_fe b : canonical b -> fe (be_val b).
Proof. intros [Hl Hc]. apply is_canonical_spec in Hc; [|done]. pose proof (be_val_bound b). unfold fe. lia. Qed.

Lemma fbytes_be_val b : is_bytes 32 b -> fbytes (be_val b) = b.
Proof.
  intros Hb. apply be_val_inj; [by unfold fbytes; rewrite length_be_bytes|]. apply be_val_be_bytes.
  rewrite <- Hb. apply be_val_bound.
Qed.

Lemma fbytes_canonical x : fe x -> canonical (fbytes x).
Proof.
  intros Hx. assert (is_bytes 32 (fbytes x)) as Hl by apply length_be_bytes. split; [done|].
  apply is_canonical_spec; [done|]. rewrite be_val_fbytes by done. by destruct Hx.
Qed.

Lemma fbytes_zero : fbytes 0 = zero32.
Proof. reflexivity. Qed.

Lemma runs_det {A} Q Q' (m : circ A) a b : runs Q m a -> runs Q' m b -> a = b.
Proof. intros (q & -> & _) (q' & E & _). by injection E. Qed.

Lemma runs_computes {A} Q (m : circ A) a : runs Q m a -> computes m a.
Proof. by apply runs_mono. Qed.

Lemma map_fbytes_be_val l : Forall canonical l -> map fbytes (map be_val l) = l.
Proof. induction 1 as [|b l [Hb _] _ IH]; simpl; [done|]. by rewrite fbytes_be_val, IH. Qed.

Lemma be_vals_fe l : Forall canonical l -> Forall fe (map be_val l).
Proof. intros Hl. apply Forall_map. eapply Forall_impl; [done|]. apply canonical_fe. Qed.

(** ** Groups of three *)

Definition slots (g : list Z) : list Z := [default 0 (g !! 0%nat); default 0 (g !! 1%nat); default 0 (g !! 2%nat)].

Lemma chunks_seq {A} n (l : list A) : (0 < n)%nat ->
  chunks n l = map (fun k => take n (drop (n * k) l)) (seq 0 ((length l + n - 1) / n)).
Proof.
  intros Hn. induction l as [|l Hl IH] using (chunk_ind n Hn).
  - cbn [length]. rewrite Nat.div_small by lia. done.
  - rewrite chunks_unfold, IH by done. rewrite length_drop.
    replace ((length l + n - 1) / n)%nat with (S ((length l - n + n - 1) / n)).
    + cbn [seq map]. rewrite Nat.mul_0_r, drop_0. f_equal. rewrite <- seq_shift, map_map. apply map_ext. intros k.
      rewrite drop_drop. do 2 f_equal. lia.
    + destruct (decide (length l <= n)%nat).
      * replace (length l - n)%nat with 0%nat by lia. rewrite Nat.div_small by lia.
        destruct l as [|x l]; [done|]. cbn [length] in *.
        apply (Nat.div_unique _ _ _ (length l)); lia.
      * replace (length l + n - 1)%nat with (length l - n + n - 1 + 1 * n)%nat by lia.
        rewrite Nat.div_add by lia. lia.
Qed.

Lemma rchunks_seq {A} n (l : list A) : (0 < n)%nat ->
  rchunks n l = map (fun k => drop (length l - n * k - n) (take (length l - n * k) l)) (seq 0 ((length l + n - 1) / n)).
Proof.
  intros Hn. induction l as [l Hs|l g Hg IH] using (rchunk_ind n Hn).
  - destruct l as [|x l]; [cbn [length]; by rewrite Nat.div_small by lia|].
    rewrite rchunks_short by (simpl in *; lia). replace ((length (x :: l) + n - 1) / n)%nat with 1%nat.
    + cbn [seq map]. rewrite Nat.mul_0_r, Nat.sub_0_r, firstn_all. replace (length (x :: l) - n)%nat with 0%nat by (simpl in *; lia). done.
    + apply (Nat.div_unique _ _ _ (length l)); simpl in *; lia.
  - rewrite rchunks_app, IH, length_app, Hg by done.
    replace (length l + n + n - 1)%nat with (length l + n - 1 + 1 * n)%nat by lia. rewrite Nat.div_add, Nat.add_1_r by lia.
    cbn [seq map]. rewrite Nat.mul_0_r, Nat.sub_0_r, Nat.add_sub.
    f_equal; [by rewrite firstn_all2, drop_app_length by (rewrite length_app; lia)|].
    rewrite <- seq_shift, map_map. apply map_ext. intros k.
    replace (length l + n - n * S k)%nat with (length l - n * k)%nat by lia. rewrite take_app_le by lia. done.
Qed.

Lemma cfold_map {A B C} (f : A -> B -> circ A) (F : C -> B) s l :
  cfold (fun s k => f s (F k)) s l = cfold f s (map F l).
Proof. revert s. induction l as [|k l IH]; intros s; simpl; [done|]. destruct (f s (F k)) as [[s' q]|]; [|done]. simpl. by rewrite IH. Qed.

Lemma cfold_ext {A B} (f g : A -> B -> circ A) s l : (forall s x, x ∈ l -> f s x = g s x) -> cfold f s l = cfold g s l.
Proof.
  revert s. induction l as [|x l IH]; intros s Hfg; simpl; [done|]. rewrite Hfg by constructor.
  destruct (g s x) as [[s' q]|]; [|done]. simpl. rewrite IH; [done|]. intros. apply Hfg. by constructor.
Qed.

Section chains.
Context {G : Gnark} {H : CircuitHash}.

Lemma slots_take l k : map (fun j => default 0 (l !! (k + j)%nat)) [0; 1; 2]%nat = slots (take 3 (drop k l)).
Proof. unfold slots. cbn [map]. rewrite !lookup_take by lia. by rewrite !lookup_drop. Qed.

Lemma HashChain4_chunks x l :
  HashChain4 (x :: l) = cfold (fun h g => PoseidonHash (h :: slots g)) x (chunks 3 l).
Proof.
  destruct l as [|y l]; [done|]. unfold HashChain4, HashChain4Gadget. cbn [head]. rewrite chunks_seq by lia.
  rewrite <- cfold_map. transitivity (cfold (fun h k => PoseidonHash (h :: slots (take 3 (drop (3 * k) (y :: l)))))
    x (seq 0 ((length (x :: y :: l) + 1) / 3))).
  - rewrite clift_bind. apply cfold_ext. intros h k _. rewrite <- slots_take. done.
  - do 2 f_equal. cbn [length]. f_equal. lia.
Qed.

Lemma slots_window l stop : (stop <= length l)%nat ->
  map (fun j => if (stop - 3 + j <? stop)%nat then default 0 (l !! (stop - 3 + j)%nat) else 0) [0; 1; 2]%nat
  = slots (drop (stop - 3) (take stop l)).
Proof.
  intros Hs. unfold slots. cbn [map]. rewrite !lookup_drop.
  assert (forall i, (if (i <? stop)%nat then default 0 (l !! i) else 0) = default 0 (take stop l !! i)) as E.
  { intros i. destruct (Nat.ltb_spec i stop); [by rewrite lookup_take_lt by lia|].
    by rewrite lookup_take_ge by lia. }
  by rewrite !E.
Qed.

Lemma RightHashChain4_chunks l x :
  RightHashChain4 (l ++ [x]) = cfold (fun h g => PoseidonHash (slots g ++ [h])) x (rchunks 3 l).
Proof.
  destruct l as [|y l]; [done|]. set (k := y :: l) in *.
  assert (RightHashChain4 (k ++ [x]) = RightHashChain4Gadget (k ++ [x])) as -> by (unfold k; simpl; by destruct l).
  unfold RightHashChain4Gadget. rewrite last_snoc, rchunks_seq, clift_bind by lia. rewrite <- cfold_map. rewrite length_app. cbn [length].
  replace (length k + 1 + 1)%nat with (length k + 3 - 1)%nat by lia. apply cfold_ext. intros h i Hi.
  apply elem_of_seq in Hi. replace (length k + 1 - 1 - 3 * i)%nat with (length k - 3 * i)%nat by lia.
  rewrite slots_window by (rewrite length_app; lia). by rewrite take_app_le by lia.
Qed.

End chains.

(** ** Agreement with the program *)

Section agree.
Context {G : Gnark} {GL : GnarkLaws G} {H : CircuitHash} {HL : CircuitHashLaw H} {SP : SolPoseidon} {PA : PoseidonAgrees SP H}.

Lemma hashv_agrees xs : (1 <= length xs <= 12)%nat -> Forall fe xs -> Poseidon.hashv (map fbytes xs) = Ok (fbytes (poseidon xs)).
Proof.
  intros Hl Hf. unfold Poseidon.hashv. rewrite find_none_Forall; [by rewrite (poseidon_agrees xs)|].
  apply Forall_map, Forall_true. intros x. apply negb_false_iff, Nat.eqb_eq, length_be_bytes.
Qed.

(** A fold of [PoseidonHash] and a fold of [hashv] over related groups. *)
Lemma chain_agrees {B C} (mk : Z -> B -> list Z) (mk' : bytes -> C -> list bytes) (R : B -> C -> Prop) x l k :
  (forall h b, 1 <= length (mk h b) <= 12)%nat ->
  (forall h b c, fe h -> R b c -> Forall fe (mk h b) /\ mk' (fbytes h) c = map fbytes (mk h b)) ->
  Forall2 R l k -> fe x ->
  exists v, fe v /\ computes (cfold (fun h g => PoseidonHash (mk h g)) x l) v /\
    rfold (fun h g => Poseidon.hashv (mk' h g)) (fbytes x) k = Ok (fbytes v).
Proof.
  intros Hlen Hmk HR. revert x. induction HR as [|b c l k Hbc HR IH]; intros x Hx; simpl.
  - exists x. split_and!; [done| |done]. by apply runs_ret.
  - destruct (Hmk x b c Hx Hbc) as [Hf E]. rewrite E, hashv_agrees by done. simpl.
    destruct (IH (poseidon (mk x b)) (poseidon_fe _)) as (v & Hv & Hc & Hr). exists v. split_and!; [done| |done].
    apply runs_bind. exists (poseidon (mk x b)). split; [|done]. apply runs_poseidon; [|done].
    specialize (Hlen x b). lia.
Qed.

Lemma slots_fe g : Forall fe g -> Forall fe (slots g).
Proof.
  intros Hg. assert (forall i, fe (default 0 (g !! i))) as Hi; [|by repeat (apply Forall_cons; split)].
  intros i. destruct (g !! i) eqn:E; simpl; [by eapply Forall_lookup_1|auto with field].
Qed.

Lemma slots_fbytes g : map fbytes (slots g) = group_slots (map fbytes g).
Proof.
  unfold slots, group_slots. cbn [map]. change (map fbytes g) with (fbytes <$> g). rewrite !list_lookup_fmap.
  by destruct (g !! 0%nat), (g !! 1%nat), (g !! 2%nat).
Qed.

Definition group_fbytes (g : list Z) (b : list bytes) : Prop := Forall fe g /\ b = map fbytes g.

Lemma chunks_fbytes n l : (0 < n)%nat -> Forall fe l -> Forall2 group_fbytes (chunks n l) (chunks n (map fbytes l)).
Proof.
  intros Hn. induction l as [|l Hl IH] using (chunk_ind n Hn); intros Hf; [constructor|].
  rewrite (chunks_unfold n l), (chunks_unfold n (map fbytes l)) by (done || by destruct l).
  rewrite firstn_map, skipn_map. constructor.
  - split; [by apply Forall_take|done].
  - apply IH. by apply Forall_drop.
Qed.

Lemma rchunks_fbytes n l : (0 < n)%nat -> Forall fe l -> Forall2 group_fbytes (rchunks n l) (rchunks n (map fbytes l)).
Proof.
  intros Hn Hf. rewrite !rchunks_seq by done. rewrite length_map. apply Forall2_fmap, Forall_Forall2_diag.
  apply Forall_true. intros k. rewrite firstn_map, skipn_map. split; [by apply Forall_drop, Forall_take|done].
Qed.

Lemma fbytes_elements l : Forall fe l -> Forall2 (fun x b => fe x /\ b = fbytes x) l (map fbytes l).
Proof. induction 1; constructor; done. Qed.

Lemma split_last_map {A B} (f : A -> B) l : split_last (map f l) = (fun '(x, p) => (f x, map f p)) <$> split_last l.
Proof.
  destruct l as [|x l _] using rev_ind; [done|]. rewrite map_app. simpl. rewrite !split_last_snoc. done.
Qed.

Lemma HashChain4_agrees xs : Forall fe xs ->
  exists v, fe v /\ computes (HashChain4 xs) v /\ create_hash_chain_4 (map fbytes xs) = Ok (fbytes v).
Proof.
  destruct xs as [|x l]; intros Hf.
  - exists 0. split_and!; [auto with field| |done]. by apply runs_ret.
  - apply Forall_cons in Hf as [Hx Hl]. rewrite HashChain4_chunks. cbn [map create_hash_chain_4].
    rewrite hash_chain_4_loop_chunks. apply (chain_agrees (fun h g => h :: slots g) (fun h g => h :: group_slots g) group_fbytes);
    [simpl; lia| |by apply chunks_fbytes; [lia|]|done].
    intros h g b Hh [Hg ->]. split; [constructor; [done|by apply slots_fe]|]. cbn [map]. by rewrite slots_fbytes.
Qed.

Lemma RightHashChain4_agrees xs : Forall fe xs ->
  exists v, fe v /\ computes (RightHashChain4 xs) v /\ create_right_hash_chain_4_from_slice (map fbytes xs) = Ok (fbytes v).
Proof.
  destruct xs as [|x l _] using rev_ind; intros Hf.
  - exists 0. split_and!; [auto with field| |done]. by apply runs_ret.
  - apply Forall_app in Hf as [Hl [Hx _]%Forall_cons]. rewrite RightHashChain4_chunks.
    unfold create_right_hash_chain_4_from_slice. rewrite map_app. cbn [map]. rewrite split_last_snoc.
    unfold create_right_hash_chain_4_from_seed.
    apply (chain_agrees (fun h g => slots g ++ [h]) (fun h g => group_slots g ++ [h]) group_fbytes);
    [simpl; lia| |by apply rchunks_fbytes; [lia|]|done].
    intros h g b Hh [Hg ->]. split; [apply Forall_app; split; [by apply slots_fe|by constructor]|].
    by rewrite map_app, slots_fbytes.
Qed.

Lemma HashChain_agrees xs : Forall fe xs ->
  exists v, fe v /\ computes (HashChain xs) v /\ create_hash_chain_from_slice (map fbytes xs) = Ok (fbytes v).
Proof.
  destruct xs as [|x l]; intros Hf.
  - exists 0. split_and!; [auto with field| |done]. by apply runs_ret.
  - apply Forall_cons in Hf as [Hx Hl]. unfold HashChain, HashChainGadget. cbn [length Nat.eqb head tail].
    rewrite clift_bind. apply (chain_agrees (fun h x => [h; x]) (fun h x => [h; x]) (fun x b => fe x /\ b = fbytes x));
    [simpl; lia| |by apply fbytes_elements|done]. intros h y b Hh [Hy ->]. split; [by repeat (apply Forall_cons; split)|done].
Qed.

Lemma RightHashChain_agrees xs : Forall fe xs ->
  exists v, fe v /\ computes (RightHashChain xs) v /\ create_right_hash_chain_from_slice (map fbytes xs) = Ok (fbytes v).
Proof.
  destruct xs as [|x l _] using rev_ind; intros Hf.
  - exists 0. split_and!; [auto with field| |done]. by apply runs_ret.
  - apply Forall_app in Hf as [Hl [Hx _]%Forall_cons]. unfold RightHashChain, create_right_hash_chain_from_slice.
    destruct (Nat.eqb_spec (length (l ++ [x])) 0) as [E|]; [rewrite length_app in E; simpl in E; lia|].
    rewrite last_snoc, removelast_last, clift_bind, map_app. cbn [map]. rewrite split_last_snoc.
    apply (chain_agrees (fun h x => [x; h]) (fun h x => [x; h]) (fun x b => fe x /\ b = fbytes x));
    [simpl; lia| | |done].
    { intros h y b Hh [Hy ->]. split; [by repeat (apply Forall_cons; split)|done]. }
    rewrite <- !fmap_reverse. apply fbytes_elements, Forall_reverse; done.
Qed.

(** The inputs of the nonzero chain: field elements, those the compiler knows to
    be the constant zero being zero. *)
Definition nonzero_inputs (l : list (Z * bool)) : Prop := Forall (fun '(x, c) => fe x /\ (c = true -> x = 0)) l.

Lemma fbytes_zero_iff x : fe x -> fbytes x = zero32 <-> x = 0.
Proof. intros Hx. split; [|by intros ->]. intros E. apply fbytes_inj; [done|auto with field|by rewrite fbytes_zero]. Qed.

Lemma nonzero_step_agrees l h c : fe h -> (c = true -> h = 0) -> nonzero_inputs l ->
  exists v c', fe v /\
    computes (cfold (fun '(h, h_const) '(input, isConstantZero) =>
      if (isConstantZero : bool) then cret (h, h_const)
      else if (h_const : bool) then cret (input, false)
      else next ← PoseidonHash [h; input];
        cret (api_select (api_is_zero input) h (api_select (api_is_zero h) input next), false)) (h, c) l) (v, c') /\
    rfold (fun h x => if decide (h = zero32) then Ok x else Poseidon.hashv [h; x]) (fbytes h)
      (filter (fun x => x <> zero32) (map fbytes l.*1)) = Ok (fbytes v).
Proof.
  revert h c. induction l as [|[x cx] l IH]; intros h c Hh Hc Hl.
  { exists h, c. split_and!; [done| |done]. by apply runs_ret. }
  apply Forall_cons in Hl as [[Hx Hcx] Hl]. cbn [cfold fmap list_fmap fst map]. rewrite filter_cons.
  setoid_rewrite runs_bind. pose proof (fbytes_zero_iff x Hx). pose proof (fbytes_zero_iff h Hh). destruct cx; [|destruct c].
  - rewrite decide_False by tauto. destruct (IH h c Hh Hc Hl) as (v & c' & Hv & Hr & E). exists v, c'. split_and!; [done| |done].
    eexists. split; [by apply runs_ret|done].
  - destruct (IH x false Hx ltac:(done) Hl) as (v & c' & Hv & Hr & E). exists v, c'. split_and!; [done| |].
    { eexists. split; [by apply runs_ret|done]. }
    rewrite Hc in * by done. destruct (decide (fbytes x <> zero32)) as [Hd|Hd]; [cbn [rfold]; by rewrite decide_True by tauto|].
    assert (x = 0) as -> by (destruct (decide (x = 0)); tauto). done.
  - set (h' := if x =? 0 then h else if h =? 0 then x else poseidon [h; x]).
    assert (fe h') as Hh' by (unfold h'; destruct (x =? 0), (h =? 0); auto with field).
    destruct (IH h' false Hh' ltac:(done) Hl) as (v & c' & Hv & Hr & E). exists v, c'. split_and!; [done| |].
    { exists (h', false). split; [|done]. crun; [by apply runs_poseidon; [simpl; lia|]|].
      rewrite !is_zero_b2z, !select_b2z by done. by apply runs_ret. }
    rewrite <- E. unfold h'. destruct (Z.eqb_spec x 0); [by rewrite decide_False by tauto|].
    rewrite decide_True by tauto. cbn [rfold]. destruct (Z.eqb_spec h 0); [by rewrite decide_True by tauto|].
    rewrite decide_False by tauto. change [fbytes h; fbytes x] with (map fbytes [h; x]). rewrite hashv_agrees; [done|simpl; lia|].
    by repeat (apply Forall_cons; split).
Qed.

Lemma NonZeroHashChain_agrees l : nonzero_inputs l ->
  exists v, fe v /\ computes (NonZeroHashChain l) v /\ create_nonzero_hash_chain_from_slice (map fbytes l.*1) = Ok (fbytes v).
Proof.
  intros Hl. destruct (nonzero_step_agrees l 0 true fe_0 ltac:(done) Hl) as (v & c & Hv & Hr & E). rewrite fbytes_zero in E.
  exists v. split_and!; [done| |done]. unfold NonZeroHashChain. destruct (Nat.eqb_spec (length l) 0) as [El|].
  - destruct l; [|done]. cbn in Hr. apply runs_ret in Hr. injection Hr as <- _. by apply runs_ret.
  - unfold NonZeroHashChainGadget. apply runs_bind. exists (v, c). split; [done|]. by apply runs_ret.
Qed.

(** C18. The chain gadgets of the circuits compute the program's hash chains: on
    inputs that are field elements every gadget has exactly one value, and the
    program's function returns the encoding of that value on the encoded inputs,
    for the empty chain included.  The nonzero chain's gadget is told which inputs
    are the constant zero. *)
Theorem circuit_chains_are_the_programs (xs : list Z) (flagged : list (Z * bool)) :
  Forall fe xs -> nonzero_inputs flagged ->
  (exists v, fe v /\ computes (HashChain xs) v /\ create_hash_chain_from_slice (map fbytes xs) = Ok (fbytes v)) /\
  (exists v, fe v /\ computes (RightHashChain xs) v /\ create_right_hash_chain_from_slice (map fbytes xs) = Ok (fbytes v)) /\
  (exists v, fe v /\ computes (HashChain4 xs) v /\ create_hash_chain_4 (map fbytes xs) = Ok (fbytes v)) /\
  (exists v, fe v /\ computes (RightHashChain4 xs) v /\ create_right_hash_chain_4_from_slice (map fbytes xs) = Ok (fbytes v)) /\
  (exists v, fe v /\ computes (NonZeroHashChain flagged) v /\
    create_nonzero_hash_chain_from_slice (map fbytes flagged.*1) = Ok (fbytes v)).
Proof.
  intros Hx Hf. split_and!;
    eauto using HashChain_agrees, RightHashChain_agrees, HashChain4_agrees, RightHashChain4_agrees, NonZeroHashChain_agrees.
Qed.

End agree.

(** ** The chains are field elements *)

Section fe.
Context {G : Gnark} {GL : GnarkLaws G} {H : CircuitHash} {HL : CircuitHashLaw H} (Q : list Z -> Prop).

Lemma chain_fe {B} (mk : Z -> B -> list Z) x l v : (forall h b, 1 <= length (mk h b) <= 16)%nat -> fe x ->
  runs Q (cfold (fun h g => PoseidonHash (mk h g)) x l) v -> fe v.
Proof.
  intros Hlen Hx Hr. refine (runs_cfold_inv Q _ (fun _ => fe) _ _ _ Hr Hx _). intros i b h h' _ _ Hh'.
  apply runs_poseidon in Hh' as [-> _]; [auto with field|apply Hlen].
Qed.

Lemma hash_chain_4_fe xs v : runs Q (HashChain4 xs) v -> Forall fe xs -> fe v.
Proof.
  destruct xs as [|x l]; [intros Hr _; cbn in Hr; cinv; auto with field|]. rewrite HashChain4_chunks.
  intros Hr [Hx _]%Forall_cons. eapply (chain_fe (fun h g => h :: slots g)); [simpl; lia|done..].
Qed.

Lemma right_hash_chain_4_fe xs v : runs Q (RightHashChain4 xs) v -> Forall fe xs -> fe v.
Proof.
  destruct xs as [|x l _] using rev_ind; [intros Hr _; cbn in Hr; cinv; auto with field|]. rewrite RightHashChain4_chunks.
  intros Hr [_ [Hx _]%Forall_cons]%Forall_app. eapply (chain_fe (fun h g => slots g ++ [h])); [simpl; lia|done..].
Qed.

End fe.

(** ** Binding *)

Section binding.
Context {G : Gnark} {H : CircuitHash} (Q : list Z -> Prop) (HQ : ideal Q).

Lemma chain_binding {B} (mk : Z -> B -> list Z) (R : B -> B -> Prop) x y l k v :
  (forall h b, 1 <= length (mk h b) <= 16)%nat ->
  (forall h b h' b', R b b' -> mk h b = mk h' b' -> h = h' /\ b = b') ->
  Forall2 R l k ->
  runs Q (cfold (fun h g => PoseidonHash (mk h g)) x l) v -> runs Q (cfold (fun h g => PoseidonHash (mk h g)) y k) v ->
  x = y /\ l = k.
Proof.
  intros Hlen Hinj HR. revert k HR v. induction l as [|b l IH] using rev_ind; intros k HR v H1 H2.
  - apply Forall2_nil_inv_l in HR as ->. cbn [cfold] in *. cinv. done.
  - apply Forall2_app_inv_l in HR as (k' & k2 & HR & HR2 & ->).
    apply Forall2_cons_inv_l in HR2 as (b' & k3 & Hbb & Hnil & ->). apply Forall2_nil_inv_l in Hnil as ->.
    apply runs_cfold_snoc in H1 as (h & H1 & Hb), H2 as (h' & H2 & Hb').
    pose proof (Hlen h b). pose proof (Hlen h' b').
    apply runs_poseidon in Hb as [-> HQ1], Hb' as [E HQ2]; [|lia..].
    apply (ideal_inj Q HQ) in E; [|done..]. apply Hinj in E as [<- <-]; [|done].
    destruct (IH k' HR h H1 H2) as [-> ->]. done.
Qed.

Lemma slots_inj g g' : (length g <= 3)%nat -> length g = length g' -> slots g = slots g' -> g = g'.
Proof.
  unfold slots. intros Hl E. destruct g as [|a [|b [|c [|]]]], g' as [|a' [|b' [|c' [|]]]]; simpl in *; try lia; congruence.
Qed.

Lemma HashChain4_binding l k v : length l = length k ->
  runs Q (HashChain4 l) v -> runs Q (HashChain4 k) v -> l = k.
Proof.
  intros Hl H1 H2. destruct l as [|x l], k as [|y k]; try done. rewrite HashChain4_chunks in H1, H2. injection Hl as Hl.
  edestruct (chain_binding (fun h g => h :: slots g)) with (3 := chunks_same_shape 3 l k ltac:(lia) Hl) (4 := H1) (5 := H2)
    as [-> Hc]; [simpl; lia| |].
  - intros h g h' g' [? ?] E. simplify_eq. split; [done|]. apply slots_inj; [done..|]. unfold slots. congruence.
  - f_equal. rewrite <- (concat_chunks 3 l), <- (concat_chunks 3 k) by lia. by rewrite Hc.
Qed.

Lemma RightHashChain4_binding l k v : length l = length k ->
  runs Q (RightHashChain4 l) v -> runs Q (RightHashChain4 k) v -> l = k.
Proof.
  destruct l as [|x l _] using rev_ind; destruct k as [|y k _] using rev_ind; rewrite ?length_app; simpl; intros Hl H1 H2; try lia; [done|].
  rewrite RightHashChain4_chunks in H1, H2. assert (length l = length k) as Hl' by lia.
  edestruct (chain_binding (fun h g => slots g ++ [h])) with (3 := rchunks_same_shape 3 l k ltac:(lia) Hl') (4 := H1) (5 := H2)
    as [-> Hc]; [simpl; lia| |].
  - intros h g h' g' [? ?] E. apply app_inj_tail in E as [? ->]. split; [done|]. by apply slots_inj.
  - f_equal. by apply (rchunks_concat_inj 3); [lia|..].
Qed.

Lemma RightHashChain_snoc l x :
  RightHashChain (l ++ [x]) = cfold (fun h input => PoseidonHash [input; h]) x (reverse l).
Proof.
  unfold RightHashChain. rewrite length_app, Nat.add_1_r. cbn [Nat.eqb]. by rewrite last_snoc, clift_bind, removelast_last.
Qed.

Lemma RightHashChain_binding l k v : length l = length k ->
  runs Q (RightHashChain l) v -> runs Q (RightHashChain k) v -> l = k.
Proof.
  destruct l as [|x l _] using rev_ind; destruct k as [|y k _] using rev_ind; rewrite ?length_app; simpl; intros Hl H1 H2; try lia; [done|].
  rewrite RightHashChain_snoc in H1, H2.
  edestruct (chain_binding (fun h input => [input; h]) (fun _ _ => True) x y (reverse l) (reverse k)) with (4 := H1) (5 := H2) as [-> Hc].
  - simpl. lia.
  - intros h b h' b' _ [= -> ->]. done.
  - apply Forall2_same_length_lookup. split; [rewrite !length_reverse; lia|done].
  - apply (f_equal reverse) in Hc. rewrite !reverse_involutive in Hc. by rewrite Hc.
Qed.

End binding.

(** ** What a successful call says of its inputs *)

(** The system call refuses an input that is not a canonical field element
    ([InputLargerThanModulus]). *)
Class PoseidonChecked (SP : SolPoseidon) : Prop :=
  poseidon_checked : forall vals h, sol_poseidon vals = (0, h) -> Forall canonical vals.

Section checked.
Context {SP : SolPoseidon} {PC : PoseidonChecked SP}.

Lemma hashv_checked vals h : Poseidon.hashv vals = Ok h -> Forall canonical vals.
Proof.
  unfold Poseidon.hashv. destruct (find _ _); [done|]. destruct (sol_poseidon vals) as [[| |] v] eqn:Hs; [|done..].
  intros _. by eapply poseidon_checked.
Qed.

(** Every group of a chain was hashed, and so was its seed if there is a group. *)
Lemma rfold_checked {C} (mk : bytes -> C -> list bytes) x l v :
  rfold (fun h g => Poseidon.hashv (mk h g)) x l = Ok v ->
  Forall (fun g => exists h, Forall canonical (mk h g)) l /\ (forall g l', l = g :: l' -> Forall canonical (mk x g)).
Proof.
  revert x. induction l as [|g l IH]; intros x; cbn [rfold]; [by split|].
  destruct (Poseidon.hashv (mk x g)) as [h|e|] eqn:Hh; [|done..]. cbn [rbind]. intros [Hl _]%IH. apply hashv_checked in Hh.
  split; [constructor; [by exists x|done]|]. by intros ? ? [= -> ->].
Qed.

Lemma group_slots_canonical g : (length g <= 3)%nat -> Forall canonical (group_slots g) -> Forall canonical g.
Proof.
  unfold group_slots. rewrite !Forall_cons. intros Hl (H0 & H1 & H2 & _).
  destruct g as [|a [|b [|c [|d g]]]]; cbn in *; try lia; by repeat (apply Forall_cons; split).
Qed.

Lemma chunks_canonical (gs : list (list bytes)) (mk : bytes -> list bytes -> list bytes) :
  (forall h g, Forall canonical (mk h g) -> Forall canonical (group_slots g)) -> Forall (fun g => (length g <= 3)%nat) gs ->
  Forall (fun g => exists h, Forall canonical (mk h g)) gs -> Forall canonical (concat gs).
Proof.
  intros Hmk Hlen Hgs. apply Forall_concat. rewrite Forall_forall in *. intros g Hg. destruct (Hgs g Hg) as [h Hh].
  apply group_slots_canonical; [by apply Hlen|by eapply Hmk].
Qed.

Lemma chunks_short {A} n (l : list A) : (0 < n)%nat -> Forall (fun g => (length g <= n)%nat) (chunks n l).
Proof. intros Hn. rewrite chunks_seq by done. apply Forall_map, Forall_true. intros k. rewrite length_take. lia. Qed.

Lemma rchunks_short_groups {A} n (l : list A) : (0 < n)%nat -> Forall (fun g => (length g <= n)%nat) (rchunks n l).
Proof. intros Hn. rewrite rchunks_seq by done. apply Forall_map, Forall_true. intros k. rewrite length_drop, length_take. lia. Qed.

Lemma hash_chain_4_checked l v : create_hash_chain_4 l = Ok v -> canonical v -> Forall canonical l.
Proof.
  destruct l as [|x l]; [constructor|]. cbn [create_hash_chain_4]. rewrite hash_chain_4_loop_chunks. intros Hr Hv.
  destruct (rfold_checked (fun h g => h :: group_slots g) _ _ _ Hr) as [Hg Hx].
  assert (Forall canonical l) as Hl.
  { rewrite <- (concat_chunks 3 l) by lia. eapply (chunks_canonical _ (fun h g => h :: group_slots g)); [|by apply chunks_short; lia|done].
    by intros h g [_ ?]%Forall_cons. }
  constructor; [|done]. destruct (chunks 3 l) as [|g gs] eqn:Hc; [by injection Hr as ->|].
  by destruct (proj1 (Forall_cons _ _ _) (Hx g gs eq_refl)).
Qed.

Lemma concat_rchunks_perm {A} n (l : list A) x : (0 < n)%nat -> x ∈ l -> x ∈ concat (rchunks n l).
Proof.
  intros Hn. induction l as [l Hs|l g Hg IH] using (rchunk_ind n Hn); intros Hx.
  - destruct l as [|y l]; [by apply elem_of_nil in Hx|]. rewrite rchunks_short by (simpl in *; lia). cbn. by rewrite app_nil_r.
  - rewrite rchunks_app by done. cbn [concat]. apply elem_of_app in Hx as [Hx|Hx]; apply elem_of_app; [right; by apply IH|by left].
Qed.

Lemma right_hash_chain_4_checked l v : create_right_hash_chain_4_from_slice l = Ok v -> canonical v -> Forall canonical l.
Proof.
  unfold create_right_hash_chain_4_from_slice. destruct l as [|x l _] using rev_ind; [constructor|]. rewrite split_last_snoc.
  unfold create_right_hash_chain_4_from_seed. intros Hr Hv.
  destruct (rfold_checked (fun h g => group_slots g ++ [h]) _ _ _ Hr) as [Hg Hx].
  apply Forall_app. split.
  - assert (Forall canonical (concat (rchunks 3 l))) as Hl.
    { eapply (chunks_canonical _ (fun h g => group_slots g ++ [h])); [|by apply rchunks_short_groups; lia|done]. by intros h g [? _]%Forall_app. }
    rewrite Forall_forall in *. intros y Hy. by apply Hl, (concat_rchunks_perm 3); [lia|].
  - constructor; [|constructor]. destruct (rchunks 3 l) as [|g gs] eqn:Hc; [by injection Hr as ->|].
    pose proof (Hx g gs eq_refl) as Hc2. rewrite Forall_app, Forall_cons in Hc2. tauto.
Qed.

Lemma right_hash_chain_checked l v : create_right_hash_chain_from_slice l = Ok v -> canonical v -> Forall canonical l.
Proof.
  unfold create_right_hash_chain_from_slice. destruct l as [|x l _] using rev_ind; [constructor|]. rewrite split_last_snoc. intros Hr Hv.
  destruct (rfold_checked (fun h input => [input; h]) _ _ _ Hr) as [Hg Hx]. apply Forall_app. split.
  - apply Forall_reverse. eapply Forall_impl; [exact Hg|]. by intros y [h [? _]%Forall_cons].
  - constructor; [|constructor]. destruct (reverse l) as [|g gs] eqn:Hc; [by injection Hr as ->|].
    pose proof (Hx g gs eq_refl) as Hc2. rewrite !Forall_cons in Hc2. tauto.
Qed.

End checked.
