(* ===== verification/AppendCircuit.v ===== *)
(** * The batch append circuit of the nullifier tree

    prover/server/circuits/nullifier_tree.go, with the table of
    prover/server/merkle-tree/zero_bytes.go.  The circuit inserts a batch of values
    into an indexed Merkle tree: for each value it replaces the low leaf and fills
    the next empty one.  An indexed tree is a list of leaves (value, next value);
    [indexed] says that the leaves partition the field into gaps between
    consecutive values.  Soundness: a satisfied circuit whose old root is the root
    of an indexed tree has as new root that of the tree with exactly its values
    inserted, in order, and nothing else changed. *)

From S2P Require Import Prelude ZeroBytes Hasher Gnark Gadgets GadgetSpecs SparseTree ChainSpecs.

(** ** merkle-tree/zero_bytes.go *)

Definition ZERO_BYTES : list bytes := map hash_literal [
  0x0000000000000000000000000000000000000000000000000000000000000000;
  0x2098f5fb9e239eab3ceac3f27b81e481dc3124d55ffed523a839ee8446b64864;
  0x1069673dcdb12263df301a6ff584a7ec261a44cb9dc68df067a4774460b1f1e1;
  0x18f43331537ee2af2e3d758d50f72106467c6eea50371dd528d57eb2b856d238;
  0x07f9d837cb17b0d36320ffe93ba52345f1b728571a568265caac97559dbc952a;
  0x2b94cf5e8746b3f5c9631f4c5df32907a699c58c94b2ad4d7b5cec1639183f55;
  0x2dee93c5a666459646ea7d22cca9e1bcfed71e6951b953611d11dda32ea09d78;
  0x078295e5a22b84e982cf601eb639597b8b0515a88cb5ac7fa8a4aabe3c87349d;
  0x2fa5e5f18f6027a6501bec864564472a616b2e274a41211a444cbe3a99f3cc61;
  0x0e884376d0d8fd21ecb780389e941f66e45e7acce3e228ab3e2156a614fcd747;
  0x1b7201da72494f1e28717ad1a52eb469f95892f957713533de6175e5da190af2;
  0x1f8d8822725e36385200c0b201249819a6e6e1e4650808b5bebc6bface7d7636;
  0x2c5d82f66c914bafb9701589ba8cfcfb6162b0a12acf88a8d0879a0471b5f85a;
  0x14c54148a0940bb820957f5adf3fa1134ef5c4aaa113f4646458f270e0bfbfd0;
  0x190d33b12f986f961e10c0ee44d8b9af11be25588cad89d416118e4bf4ebe80c;
  0x22f98aa9ce704152ac17354914ad73ed1167ae6596af510aa5b3649325e06c92;
  0x2a7c7c9b6ce5880b9f6f228d72bf6a575a526f29c66ecceef8b753d38bba7323;
  0x2e8186e558698ec1c67af9c14d463ffc470043c9c2988b954d75dd643f36b992;
  0x0f57c5571e9a4eab49e2c8cf050dae948aef6ead647392273546249d1c1ff10f;
  0x1830ee67b5fb554ad5f63d4388800e1cfe78e310697d46e43c9ce36134f72cca;
  0x2134e76ac5d21aab186c2be1dd8f84ee880a1e46eaf712f9d371b6df22191f3e;
  0x19df90ec844ebc4ffeebd866f33859b0c051d8c958ee3aa88f8f8df3db91a5b1;
  0x18cca2a66b5c0787981e69aefd84852d74af0e93ef4912b4648c05f722efe52b;
  0x2388909415230d1b4d1304d2d54f473a628338f2efad83fadf05644549d2538d;
  0x27171fb4a97b6cc0e9e8f543b5294de866a2af2c9c8d0b1d96e673e4529ed540;
  0x2ff6650540f629fd5711a0bc74fc0d28dcb230b9392583e5f8d59696dde6ae21;
  0x120c58f143d491e95902f7f5277778a2e0ad5168f6add75669932630ce611518;
  0x1f21feb70d3f21b07bf853d5e5db03071ec495a0a565a21da2d665d279483795;
  0x24be905fa71335e14c638cc0f66a8623a826e768068a9e968bb1a1dde18a72d2;
  0x0f8666b62ed17491c50ceadead57d4cd597ef3821d65c328744c74e553dac26d;
  0x0918d46bf52d98b034413f4a1a1c41594e7a7a3f6ae08cb43d1a2a230e1959ef;
  0x1bbeb01b4c479ecde76917645e404dfa2e26f90d0afc5a65128513ad375c5ff2;
  0x2f68a1c58e257e42a17a6c61dff5551ed560b9922ab119d5ac8e184c9734ead9].

(** The prover's table is the program's. *)
Lemma prover_zero_bytes : ZERO_BYTES = take 33 POSEIDON_ZERO_BYTES.
Proof. vm_compute. reflexivity. Qed.

(** ** nullifier_tree.go *)

Record BatchAddressTreeAppendCircuit : Type := mkAppend {
  PublicInputHash : Z;
  OldRoot : Z;
  NewRoot : Z;
  HashchainHash : Z;
  StartIndex : Z;
  LowElementValues : list Z;
  LowElementNextValues : list Z;
  LowElementIndices : list Z;
  LowElementProofs : list (list Z);
  NewElementValues : list Z;
  NewElementProofs : list (list Z);
  BatchSize : nat;
  TreeHeight : nat;
}.

Definition ValidateLayout (circuit : BatchAddressTreeAppendCircuit) : bool :=
  negb (BatchSize circuit =? 0)%nat &&
  negb (TreeHeight circuit =? 0)%nat &&
  forallb (fun got => got =? BatchSize circuit)%nat
    [length (LowElementValues circuit); length (LowElementNextValues circuit); length (LowElementIndices circuit);
     length (LowElementProofs circuit); length (NewElementValues circuit); length (NewElementProofs circuit)] &&
  forallb (fun proof => length proof =? TreeHeight circuit)%nat (LowElementProofs circuit) &&
  forallb (fun proof => length proof =? TreeHeight circuit)%nat (NewElementProofs circuit).

Definition getZeroValue (level : nat) : Z := be_val (default [] (ZERO_BYTES !! level)).

Section circuit.
Context {G : Gnark} {H : CircuitHash}.

Definition computePublicInputHash (circuit : BatchAddressTreeAppendCircuit) : circ Z :=
  HashChain4 [OldRoot circuit; NewRoot circuit; HashchainHash circuit; StartIndex circuit].

(** The body of the loop, for element [i]. *)
Definition append_element (circuit : BatchAddressTreeAppendCircuit) (currentRoot : Z) (i : nat) : circ Z :=
  low ← clift (LowElementValues circuit !! i);
  new ← clift (NewElementValues circuit !! i);
  next ← clift (LowElementNextValues circuit !! i);
  index ← clift (LowElementIndices circuit !! i);
  lowProof ← clift (LowElementProofs circuit !! i);
  newProof ← clift (NewElementProofs circuit !! i);
  AssertStrictlyOrderedFullField low new next;;
  oldLowLeafHash ← IndexedLeafHash low next;
  lowLeafHash ← PoseidonHash [low; new];
  pathIndexBits ← ToBinary index (TreeHeight circuit);
  currentRoot ← MerkleRootUpdateGadget currentRoot oldLowLeafHash lowLeafHash pathIndexBits lowProof (TreeHeight circuit);
  newLeafHash ← PoseidonHash [new; next];
  indexBits ← ToBinary (api_add (StartIndex circuit) (Z.of_nat i)) (TreeHeight circuit);
  MerkleRootUpdateGadget currentRoot (getZeroValue 0) newLeafHash indexBits newProof (TreeHeight circuit).

Definition Define (circuit : BatchAddressTreeAppendCircuit) : circ unit :=
  if negb (ValidateLayout circuit) then cpanic else
  currentRoot ← cfold (append_element circuit) (OldRoot circuit) (seq 0 (BatchSize circuit));
  AssertIsEqual (NewRoot circuit) currentRoot;;
  leavesHashChain ← HashChain4 (NewElementValues circuit);
  AssertIsEqual (HashchainHash circuit) leavesHashChain;;
  publicInputsHashChain ← computePublicInputHash circuit;
  AssertIsEqual (PublicInputHash circuit) publicInputsHashChain.

End circuit.

(** Every variable holds a field element. *)
Record assigned (c : BatchAddressTreeAppendCircuit) : Prop := {
  fe_public : fe (PublicInputHash c);
  fe_roots : fe (OldRoot c) /\ fe (NewRoot c);
  fe_chain : fe (HashchainHash c);
  fe_start : fe (StartIndex c);
  fe_lows : Forall fe (LowElementValues c);
  fe_nexts : Forall fe (LowElementNextValues c);
  fe_indices : Forall fe (LowElementIndices c);
  fe_news : Forall fe (NewElementValues c);
}.

(** ** Indexed trees *)

Notation values l := (l.*1).

(** The last value of the order, which no nullifier reaches. *)
Definition SENTINEL : Z := bn254_modulus - 1.

Record indexed (l : list (Z * Z)) : Prop := {
  idx_zero : 0 ∈ values l;
  idx_nodup : NoDup (values l);
  idx_gap : forall v n, (v, n) ∈ l -> v < n /\ forall w, w ∈ values l -> ~ v < w < n;
  idx_next : forall v n, (v, n) ∈ l -> n ∈ values l \/ n = SENTINEL;
}.

Definition leaf_of `{CircuitHash} (l : list (Z * Z)) (i : Z) : Z :=
  if i <? 0 then 0 else
  match l !! Z.to_nat i with
  | Some (v, n) => poseidon [v; n]
  | None => 0
  end.

Definition indexed_root `{CircuitHash} (h : nat) (l : list (Z * Z)) : Z := node (leaf_of l) h 0.

(** Inserting [x] at the end, with the leaf at [low] as its predecessor. *)
Definition indexed_insert (l : list (Z * Z)) (low : nat) (v n x : Z) : list (Z * Z) :=
  <[low := (v, x)]> l ++ [(x, n)].

(** An indexed tree of height [h] all of whose preimages are in [Q]. *)
Record known `{CircuitHash} (Q : list Z -> Prop) (h : nat) (l : list (Z * Z)) : Prop := {
  known_indexed : indexed l;
  known_length : Z.of_nat (length l) <= 2 ^ Z.of_nat h;
  known_leaves : forall v n, (v, n) ∈ l -> Q [v; n];
  known_nodes : hashed Q (leaf_of l) h;
}.

Lemma values_insert l low v n x : l !! low = Some (v, n) -> values (indexed_insert l low v n x) = values l ++ [x].
Proof.
  intros Hl. unfold indexed_insert. rewrite fmap_app. f_equal. rewrite list_fmap_insert. apply list_insert_id.
  by rewrite list_lookup_fmap, Hl.
Qed.

Lemma elem_of_insert l low v n x a b : l !! low = Some (v, n) ->
  (a, b) ∈ indexed_insert l low v n x ->
  (a = v /\ b = x) \/ (a = x /\ b = n) \/ exists i, i <> low /\ l !! i = Some (a, b).
Proof.
  intros Hl Hin. unfold indexed_insert in Hin. apply elem_of_app in Hin as [Hin|Hin].
  - apply list_elem_of_lookup in Hin as (i & Hi). destruct (decide (i = low)) as [->|Hne].
    + rewrite list_lookup_insert_eq in Hi by (by eapply lookup_lt_Some). by injection Hi as <- <-; left.
    + rewrite list_lookup_insert_ne in Hi by done. right; right. by exists i.
  - apply list_elem_of_singleton in Hin. injection Hin as -> ->. tauto.
Qed.

(** A value strictly inside a gap is not in the tree, and can be inserted there. *)
Lemma gap_not_in l v n x : indexed l -> (v, n) ∈ l -> v < x < n -> x ∉ values l.
Proof. intros Hl Hin Hx Hv. by apply (proj2 (idx_gap l Hl v n Hin) x). Qed.

(** Conversely every value that is not in the tree has a gap. *)
Lemma gap_exists l x : indexed l -> 0 <= x < SENTINEL -> x ∉ values l -> exists v n, (v, n) ∈ l /\ v < x < n.
Proof.
  intros Hl Hx Hnin.
  assert (forall k : nat, 0 <= x - Z.of_nat k -> x - Z.of_nat k ∈ values l ->
    (forall w, w ∈ values l -> ~ x - Z.of_nat k < w < x) -> exists v n, (v, n) ∈ l /\ v < x < n) as Hstep.
  { intros k Hk Hin Hmax. apply list_elem_of_fmap in Hin as ([v n] & Ev & Hin). simpl in Ev. exists v, n. split; [done|].
    destruct (idx_gap l Hl v n Hin) as [Hvn _]. destruct (decide (v = x)) as [->|].
    - destruct Hnin. by apply list_elem_of_fmap_2 with (f := fst) in Hin.
    - split; [lia|]. destruct (idx_next l Hl v n Hin) as [Hn| ->]; [|lia]. destruct (decide (n = x)) as [->|]; [done|].
      specialize (Hmax n Hn). lia. }
  assert (forall k : nat, (Z.of_nat k <= x) ->
    (exists j, (j <= k)%nat /\ x - Z.of_nat j ∈ values l /\ forall w, w ∈ values l -> ~ x - Z.of_nat j < w < x) \/
    forall w, w ∈ values l -> ~ x - Z.of_nat k <= w < x) as Hscan.
  { induction k as [|k IH]; intros Hk; [right; lia|]. destruct IH as [(j & ? & ?)|Hno]; [lia|left; exists j; auto with lia|].
    destruct (decide (x - Z.of_nat (S k) ∈ values l)) as [Hin|Hout].
    - left. exists (S k). split_and!; [lia|done|]. intros w Hw ?. apply (Hno w Hw). lia.
    - right. intros w Hw ?. destruct (decide (w = x - Z.of_nat (S k))) as [->|]; [done|]. apply (Hno w Hw). lia. }
  destruct (Hscan (Z.to_nat x) ltac:(lia)) as [(j & Hj & Hin & Hmax)|Hno]; [apply (Hstep j); auto with lia|].
  destruct (decide (x = 0)) as [->|]; [destruct Hnin; apply (idx_zero l Hl)|].
  exfalso. apply (Hno 0 (idx_zero l Hl)). lia.
Qed.

Lemma insert_indexed l low v n x : indexed l -> l !! low = Some (v, n) -> v < x < n ->
  indexed (indexed_insert l low v n x).
Proof.
  intros Hl Hlow Hx. pose proof (list_elem_of_lookup_2 _ _ _ Hlow) as Hin. pose proof (gap_not_in l v n x Hl Hin Hx) as Hnin.
  pose proof (idx_gap l Hl v n Hin) as [_ Hgap].
  pose proof (list_elem_of_fmap_2 fst _ _ Hin) as Hv. simpl in Hv.
  split; rewrite ?(values_insert l low v n x Hlow).
  - apply elem_of_app. left. apply (idx_zero l Hl).
  - apply NoDup_app. split_and!; [apply (idx_nodup l Hl)| |apply NoDup_singleton].
    intros w Hw ->%list_elem_of_singleton. done.
  - intros a b Hab. setoid_rewrite elem_of_app. setoid_rewrite list_elem_of_singleton.
    destruct (elem_of_insert l low v n x a b Hlow Hab) as [[-> ->]|[[-> ->]|(i & Hi & Hab')]].
    + split; [lia|]. intros w [Hw| ->] ?; [|lia]. apply (Hgap w Hw). lia.
    + split; [lia|]. intros w [Hw| ->] ?; [|lia]. apply (Hgap w Hw). lia.
    + destruct (idx_gap l Hl a b (list_elem_of_lookup_2 _ _ _ Hab')) as [? Hg]. split; [done|].
      intros w [Hw| ->]; [by apply Hg|]. intros Hb. apply (Hg v Hv). split; [|lia].
      destruct (Z.lt_trichotomy a v) as [?|[->|Hlt]]; [done| |].
      * destruct Hi. eapply (NoDup_lookup _ _ _ _ (idx_nodup l Hl)); rewrite list_lookup_fmap; [by rewrite Hab'|by rewrite Hlow].
      * destruct (Hgap a); [|lia]. by apply (list_elem_of_fmap_2 fst _ (a, b)), list_elem_of_lookup_2 with i.
  - intros a b Hab. rewrite elem_of_app, list_elem_of_singleton.
    destruct (elem_of_insert l low v n x a b Hlow Hab) as [[-> ->]|[[-> ->]|(i & Hi & Hab')]]; [tauto| |];
    [destruct (idx_next l Hl v n Hin)|destruct (idx_next l Hl a b (list_elem_of_lookup_2 _ _ _ Hab'))]; tauto.
Qed.

(** ** Soundness *)

Section sound.
Context {G : Gnark} {GL : GnarkLaws G} {H : CircuitHash} {HL : CircuitHashLaw H}.
Context (Q : list Z -> Prop) (HQ : ideal Q).

Lemma leaf_of_lookup l i v n : l !! i = Some (v, n) -> leaf_of l (Z.of_nat i) = poseidon [v; n].
Proof. intros Hi. unfold leaf_of. destruct (Z.ltb_spec (Z.of_nat i) 0); [lia|]. by rewrite Nat2Z.id, Hi. Qed.

Lemma leaf_of_insert l low v n x j : l !! low = Some (v, n) ->
  leaf_of (indexed_insert l low v n x) j =
  upd (upd (leaf_of l) (Z.of_nat low) (poseidon [v; x])) (Z.of_nat (length l)) (poseidon [x; n]) j.
Proof.
  intros Hlow. pose proof (lookup_lt_Some _ _ _ Hlow). unfold leaf_of, upd, indexed_insert.
  destruct (Z.ltb_spec j 0).
  { destruct (Z.eqb_spec j (Z.of_nat (length l))); [lia|]. destruct (Z.eqb_spec j (Z.of_nat low)); [lia|done]. }
  destruct (Z.eqb_spec j (Z.of_nat (length l))) as [->|].
  { rewrite Nat2Z.id, lookup_app_r by (rewrite length_insert; lia). by rewrite length_insert, Nat.sub_diag. }
  destruct (Z.eqb_spec j (Z.of_nat low)) as [->|].
  { rewrite Nat2Z.id, lookup_app_l by (rewrite length_insert; lia). by rewrite list_lookup_insert_eq. }
  destruct (decide (Z.to_nat j < length l)%nat).
  - rewrite lookup_app_l by (rewrite length_insert; lia). by rewrite list_lookup_insert_ne by lia.
  - rewrite lookup_app_r by (rewrite length_insert; lia). rewrite length_insert, (lookup_ge_None_2 l) by lia.
    by rewrite lookup_ge_None_2 by (simpl; lia).
Qed.

Lemma hashed_ext f g h : (forall j, f j = g j) -> hashed Q f h -> hashed Q g h.
Proof. intros E Hf n k Hn Hk. rewrite <- !(node_ext f g n _ E). by apply Hf. Qed.

Lemma length_insert_leaf l low v n x : length (indexed_insert l low v n x) = S (length l).
Proof. unfold indexed_insert. rewrite length_app, length_insert. simpl. lia. Qed.

(** The leaf a known tree has at an index with a known nonempty preimage. *)
Lemma known_leaf h l i v n : known Q h l -> 0 <= i -> Q [v; n] -> poseidon [v; n] = leaf_of l i ->
  l !! Z.to_nat i = Some (v, n).
Proof.
  intros Hl Hi HQv E. unfold leaf_of in E. destruct (Z.ltb_spec i 0); [lia|].
  destruct (l !! Z.to_nat i) as [[a b]|] eqn:Hlook; [|by apply (ideal_nonzero Q HQ) in E].
  apply (ideal_inj Q HQ) in E; [by injection E as -> ->|done|]. eapply (known_leaves Q h l Hl).
  by eapply list_elem_of_lookup_2.
Qed.

Lemma getZeroValue_0 : getZeroValue 0 = 0.
Proof. vm_compute. reflexivity. Qed.

Lemma strictly_ordered a b c u : fe a -> fe b -> fe c ->
  runs Q (AssertStrictlyOrderedFullField a b c) u -> a < b < c.
Proof.
  intros. unfold AssertStrictlyOrderedFullField in *. cinv.
  repeat cspec AssertIsLessFullField_spec by done. lia.
Qed.

Lemma pow_le_200 h : (h <= 200)%nat -> 2 ^ Z.of_nat h <= 2 ^ 200.
Proof. intros. apply Z.pow_le_mono_r; lia. Qed.

(** One element: the new root is that of the tree with the element inserted. *)
Lemma append_element_sound c h l i root' :
  TreeHeight c = h -> (0 < h <= 200)%nat -> assigned c -> known Q h l ->
  StartIndex c + Z.of_nat i = Z.of_nat (length l) ->
  runs Q (append_element c (indexed_root h l) i) root' ->
  exists x l', NewElementValues c !! i = Some x /\ known Q h l' /\ values l' = values l ++ [x] /\ root' = indexed_root h l'.
Proof.
  intros Hh Hh0 Hc Hl Hstart Hrun. unfold append_element in Hrun. rewrite Hh in Hrun.
  cbind Hrun as low Hlow. cbind Hrun as new Hnew. cbind Hrun as next Hnext. cbind Hrun as index Hindex.
  cbind Hrun as lowProof Hlp. cbind Hrun as newProof Hnp. cbind Hrun as [] Hord. cbind Hrun as h1 Hh1.
  cbind Hrun as h2 Hh2. cbind Hrun as bs Hbs. cbind Hrun as r1 Hr1. cbind Hrun as h3 Hh3. cbind Hrun as bs' Hbs'.
  apply runs_clift in Hlow, Hnew, Hnext, Hindex. destruct Hc.
  pose proof (Forall_lookup_1 _ _ _ _ fe_lows0 Hlow). pose proof (Forall_lookup_1 _ _ _ _ fe_news0 Hnew).
  pose proof (Forall_lookup_1 _ _ _ _ fe_nexts0 Hnext). pose proof (Forall_lookup_1 _ _ _ _ fe_indices0 Hindex) as Hfi.
  apply strictly_ordered in Hord; [|done..]. unfold IndexedLeafHash in Hh1.
  apply runs_poseidon in Hh1 as [-> HQ1], Hh2 as [-> HQ2], Hh3 as [-> HQ3]; [|simpl; lia..].
  apply runs_to_binary in Hbs as [Hib ->]; [|done|lia]. apply runs_to_binary in Hbs' as [Hib' ->]; [|auto with field|lia].
  rewrite add_law, Hstart in *. pose proof (known_length Q h l Hl) as Hlen. pose proof (pow_le_200 h ltac:(lia)).
  rewrite fe_id in * by (apply (fe_small _ 201); lia).
  apply merkle_update_sound in Hr1 as (Eold & -> & Hhash1); [|done|apply Hl|lia|unfold fe in Hfi; lia].
  apply (known_leaf h) in Eold; [|done|unfold fe in Hfi; lia|done].
  apply merkle_update_sound in Hrun as (_ & -> & Hhash2); [|done|done|lia|lia].
  exists new, (indexed_insert l (Z.to_nat index) low next new).
  rewrite (values_insert _ _ _ _ _ Eold). 
  assert (forall j, upd (upd (leaf_of l) index (poseidon [low; new])) (Z.of_nat (length l)) (poseidon [new; next]) j
    = leaf_of (indexed_insert l (Z.to_nat index) low next new) j) as Eleaf.
  { intros j. rewrite (leaf_of_insert _ _ _ _ _ _ Eold). unfold fe in Hfi. by rewrite Z2Nat.id by lia. }
  split_and!; [done| |done|by apply node_ext]. split.
  - apply insert_indexed; [apply Hl|done|lia].
  - rewrite length_insert_leaf. lia.
  - intros a b Hab. destruct (elem_of_insert _ _ _ _ _ a b Eold Hab) as [[-> ->]|[[-> ->]|(k & _ & Hk)]]; [done..|].
    by eapply (known_leaves Q h l Hl), list_elem_of_lookup_2.
  - by eapply hashed_ext.
Qed.

Lemma append_elements_sound c h l root' k :
  TreeHeight c = h -> (0 < h <= 200)%nat -> assigned c -> known Q h l ->
  StartIndex c = Z.of_nat (length l) ->
  runs Q (cfold (append_element c) (indexed_root h l) (seq 0 k)) root' ->
  exists l', known Q h l' /\ values l' = values l ++ take k (NewElementValues c) /\ length l' = (length l + k)%nat /\
    root' = indexed_root h l'.
Proof.
  intros Hh Hh0 Hc Hl Hstart Hrun. rewrite <- (length_seq k 0).
  refine (runs_cfold_inv Q _ (fun k root => exists l', known Q h l' /\ values l' = values l ++ take k (NewElementValues c) /\
    length l' = (length l + k)%nat /\ root = indexed_root h l') _ _ _ Hrun _ _).
  - exists l. rewrite app_nil_r, Nat.add_0_r. done.
  - intros i x r r' Hi (l' & Hl' & Hvals & Hlen & ->) Hr. apply lookup_seq in Hi as [-> Hi].
    destruct (append_element_sound c h l' i r' Hh Hh0 Hc Hl' ltac:(lia) Hr) as (x & l'' & Hx & Hl'' & Hvals' & ->).
    exists l''. split_and!; [done| | |done].
    + rewrite Hvals', Hvals, <- app_assoc. by erewrite take_S_r by done.
    + apply (f_equal length) in Hvals'. rewrite length_app, !length_fmap in Hvals'. simpl in Hvals'. lia.
Qed.

(** What a satisfied circuit says of its public input. *)
Lemma append_public c : assigned c -> runs Q (Define c) tt ->
  let pre := [OldRoot c; NewRoot c; HashchainHash c; StartIndex c] in
  PublicInputHash c = poseidon pre /\ Q pre /\ length (NewElementValues c) = BatchSize c /\
  runs Q (HashChain4 (NewElementValues c)) (HashchainHash c) /\
  exists root, runs Q (cfold (append_element c) (OldRoot c) (seq 0 (BatchSize c))) root /\
    runs Q (AssertIsEqual (NewRoot c) root) tt.
Proof.
  intros Hc Hrun. unfold Define in Hrun. destruct (ValidateLayout c) eqn:Hlayout; [|by apply runs_panic in Hrun].
  cbn [negb] in Hrun. cbind Hrun as root Hroot. cbind Hrun as [] Hnew. cbind Hrun as chain Hchain.
  cbind Hrun as [] Heq. cbind Hrun as pih Hpih.
  apply runs_equal in Heq as <-; [|apply (fe_chain c Hc)|exact (hash_chain_4_fe Q _ _ Hchain (fe_news c Hc))].
  unfold computePublicInputHash in Hpih. rewrite HashChain4_chunks in Hpih. cbn [chunks chunks_fuel length take drop cfold] in Hpih.
  cbind Hpih as h Hh. apply runs_ret in Hpih as <-. apply runs_poseidon in Hh as [-> HQp]; [|simpl; lia].
  apply runs_equal in Hrun; [|apply (fe_public c Hc)|auto with field]. split_and!; [done..| |done|by exists root].
  unfold ValidateLayout in Hlayout. rewrite !andb_true_iff, !forallb_forall in Hlayout.
  destruct Hlayout as [[[_ Hl5] _] _]. apply Nat.eqb_eq, Hl5. simpl. tauto.
Qed.

(** A satisfied circuit whose old root is that of a known indexed tree, and whose
    start index is the tree's size, inserts its values in order. *)
Lemma append_circuit_sound c h l :
  TreeHeight c = h -> (0 < h <= 200)%nat -> assigned c -> known Q h l ->
  StartIndex c = Z.of_nat (length l) -> OldRoot c = indexed_root h l ->
  runs Q (Define c) tt ->
  exists l', known Q h l' /\ values l' = values l ++ NewElementValues c /\ NewRoot c = indexed_root h l'.
Proof.
  intros Hh Hh0 Hc Hl Hstart Hold Hrun.
  destruct (append_public c Hc Hrun) as (_ & _ & Hlen & _ & root & Hroot & Hnew). rewrite Hold in Hroot.
  destruct (append_elements_sound c h l root _ Hh Hh0 Hc Hl Hstart Hroot) as (l' & Hl' & Hvals & _ & ->).
  apply runs_equal in Hnew; [|apply (fe_roots c Hc)|apply node_fe; lia].
  exists l'. rewrite take_ge in Hvals by lia. done.
Qed.

(** C9. A satisfied batch append circuit, of any height up to 200 and any batch
    size, inserts its new values.  The public input commits to the old root, the
    new root, the hash chain of the new values and the start index.  If the old
    root is that of a known indexed tree of as many leaves as the start index, the
    new root is that of an indexed tree with the new values appended in order; they
    are pairwise different and none of them was in the tree. *)
Theorem append_circuit_inserts_batch c h l :
  TreeHeight c = h -> (0 < h <= 200)%nat -> assigned c -> known Q h l ->
  StartIndex c = Z.of_nat (length l) -> OldRoot c = indexed_root h l ->
  runs Q (Define c) tt ->
  PublicInputHash c = poseidon [OldRoot c; NewRoot c; HashchainHash c; StartIndex c] /\
  runs Q (HashChain4 (NewElementValues c)) (HashchainHash c) /\
  NoDup (NewElementValues c) /\
  (forall x, x ∈ NewElementValues c -> x ∉ values l) /\
  exists l', known Q h l' /\ values l' = values l ++ NewElementValues c /\ NewRoot c = indexed_root h l'.
Proof.
  intros Hh Hh0 Hc Hl Hstart Hold Hrun.
  destruct (append_circuit_sound c h l Hh Hh0 Hc Hl Hstart Hold Hrun) as (l' & Hl' & Hvals & Hnew).
  destruct (append_public c Hc Hrun) as (Hpub & _ & _ & Hchain & _).
  pose proof (idx_nodup l' (known_indexed Q h l' Hl')) as Hnd. rewrite Hvals in Hnd.
  apply NoDup_app in Hnd as (_ & Hfresh & Hnd). split_and!; [done..| |by exists l'].
  intros x Hx Hin. by apply (Hfresh x).
Qed.

End sound.
