(* ===== verification/NullifierRoots.v ===== *)
(** * The roots of the nullifier tree

    The program advances the nullifier tree by proofs of the batch append circuit
    and never sees the tree.  Composing what the program checks ([history]) with
    what the circuit proves gives the meaning of the roots it stores: the [j]-th
    root is that of the indexed Merkle tree whose leaves are zero and the first
    [j] ZKP batches of queued nullifiers, in order.

    The verifier is sound for the circuit its key was made from ([AppendKeySound]):
    whoever makes it accept knows an assignment that satisfies the circuit, and
    the preimages it hashes are in [Q], the preimages known to anybody.  Nothing
    is assumed of the hash but that [Q] has no collision. *)

From S2P Require Import Prelude ZeroBytes Hasher HashChain Batch NullifierTree NullifierQueue NullifierSafety Gnark Gadgets GadgetSpecs SparseTree ChainSpecs AppendCircuit.

Class AppendKeySound {G : Gnark} {H : CircuitHash} (V : Groth16) (Q : list Z -> Prop) : Prop :=
  append_key_sound : forall batch_size public_input_hash proof,
    verify_batch_update batch_size public_input_hash proof = Ok tt ->
    exists c, assigned c /\ TreeHeight c = 40%nat /\ Z.of_nat (BatchSize c) = batch_size /\
      PublicInputHash c = be_val public_input_hash /\ runs Q (Define c) tt.

(** The tree of one leaf, zero pointing to the sentinel. *)
Definition initial_leaves : list (Z * Z) := [(0, SENTINEL)].

(** The constant of program-libs/tree is "the root of a height-40 indexed Merkle
    tree holding the single leaf [H(0, p-1)]". *)
Class InitRootLaw (H : CircuitHash) : Prop :=
  init_root_law : NULLIFIER_TREE_INIT_ROOT_40 = fbytes (indexed_root 40 initial_leaves).

(** What the program hashed for the transitions between the roots [rs]. *)
Definition program_hashed {G : Gnark} {H : CircuitHash} (Q : list Z -> Prop) (ZB : nat) (values rs : list bytes) : Prop :=
  forall j old new, rs !! j = Some old -> rs !! S j = Some new ->
  exists chain, runs Q (HashChain4 (map be_val (zkp_slice ZB j values))) chain /\
    Q [be_val old; be_val new; chain; 1 + Z.of_nat (j * ZB)].

Lemma index_field_fbytes n : 0 <= n < 2 ^ 64 -> replicate 24 x00 ++ be_bytes 8 n = fbytes n.
Proof.
  intros Hn. apply be_val_inj; [rewrite length_app, length_replicate; unfold fbytes; by rewrite !length_be_bytes|].
  rewrite be_val_zeros_app. unfold fbytes. change (2 ^ 64) with (256 ^ Z.of_nat 8) in Hn. rewrite !be_val_be_bytes; [done| |done].
  change (256 ^ Z.of_nat 32) with (2 ^ 256). change (256 ^ Z.of_nat 8) with (2 ^ 64) in Hn. lia.
Qed.

Lemma indexed_initial : indexed initial_leaves.
Proof.
  assert (0 < SENTINEL) by (vm_compute; done). split.
  - apply list_elem_of_here.
  - apply NoDup_singleton.
  - intros v n [= -> ->]%list_elem_of_singleton. split; [done|]. intros w ->%list_elem_of_singleton. simpl. lia.
  - intros v n [= -> ->]%list_elem_of_singleton. tauto.
Qed.

Section roots.
Context {G : Gnark} {GL : GnarkLaws G} {H : CircuitHash} {HL : CircuitHashLaw H}.
Context {SP : SolPoseidon} {PA : PoseidonAgrees SP H} {V : Groth16}.
Context (Q : list Z -> Prop) (HQ : ideal Q) {KS : AppendKeySound V Q} {IR : InitRootLaw H}.

(** The tree with the values of the first [n] queue entries. *)
Definition holds_values (l : list (Z * Z)) (queued : list bytes) : Prop :=
  known Q 40 l /\ values l = 0 :: map be_val queued.

Lemma zkp_slice_take ZB j (vs : list bytes) : take ((j + 1) * ZB) vs = take (j * ZB) vs ++ zkp_slice ZB j vs.
Proof. unfold zkp_slice. rewrite take_take_drop. f_equal. lia. Qed.

(** The public input the program computes, as the circuit's hash. *)
Lemma public_input_agrees old new chain start pih :
  is_canonical_bn254_scalar_be old = true -> is_canonical_bn254_scalar_be new = true -> fe chain -> 0 <= start < 2 ^ 64 ->
  Poseidon.hashv [old; new; fbytes chain; replicate 24 x00 ++ be_bytes 8 start] = Ok pih ->
  pih = fbytes (poseidon [be_val old; be_val new; chain; start]) /\ is_bytes 32 new.
Proof.
  intros Ho Hn Hc Hs Hr. rewrite index_field_fbytes in Hr by done.
  assert (is_bytes 32 old /\ is_bytes 32 new) as [Ho32 Hn32].
  { unfold Poseidon.hashv in Hr. cbn [find] in Hr. unfold is_bytes.
    destruct (Nat.eqb_spec (length old) 32); [|done]. destruct (Nat.eqb_spec (length new) 32); [|done]. done. }
  split; [|done]. change [old; new; fbytes chain; fbytes start] with ([old; new] ++ map fbytes [chain; start]) in Hr.
  rewrite <- (fbytes_be_val old), <- (fbytes_be_val new) in Hr by done.
  change ([fbytes (be_val old); fbytes (be_val new)] ++ map fbytes [chain; start])
    with (map fbytes [be_val old; be_val new; chain; start]) in Hr.
  rewrite hashv_agrees in Hr; [by injection Hr as <-|simpl; lia|].
  repeat (apply Forall_cons; split); [by apply canonical_fe..|done| |done]. apply (fe_small _ 64); lia.
Qed.

(** One proved transition. *)
Lemma transition_sound ZB vs j old new l :
  Forall canonical vs -> Z.of_nat (length vs) < 2 ^ 62 ->
  verified_step ZB vs j old new ->
  (exists chain, runs Q (HashChain4 (map be_val (zkp_slice ZB j vs))) chain /\
    Q [be_val old; be_val new; chain; 1 + Z.of_nat (j * ZB)]) ->
  holds_values l (take (j * ZB) vs) -> old = fbytes (indexed_root 40 l) ->
  exists l', holds_values l' (take ((j + 1) * ZB) vs) /\ new = fbytes (indexed_root 40 l').
Proof.
  intros Hvs Hlen (Hj & Hco & Hcn & chain & pih & proof & Hchain & Hpih & Hverify) (ch & Hch & HQp) [Hl Hvals] ->.
  set (slice := zkp_slice ZB j vs) in *. assert (length slice = ZB) as Hslice.
  { unfold slice, zkp_slice. rewrite length_take, length_drop. nia. }
  assert (Forall canonical slice) as Hcs by (by apply Forall_take, Forall_drop).
  destruct (HashChain4_agrees _ (be_vals_fe _ Hcs)) as (c0 & Hc0 & Hrun0 & Hagree).
  rewrite map_fbytes_be_val, Hchain in Hagree by done. injection Hagree as ->.
  pose proof (runs_det _ _ _ _ _ Hch Hrun0) as ->.
  assert (0 <= 1 + Z.of_nat (j * ZB) < 2 ^ 64) as Hstart by nia.
  pose proof (public_input_agrees _ _ _ _ _ Hco Hcn Hc0 Hstart Hpih) as (-> & Hnew32).
  apply append_key_sound in Hverify as (c & Hc & Hh & Hbs & Hpub & Hdef).
  rewrite be_val_fbytes in Hpub by auto with field.
  destruct (append_public Q c Hc Hdef) as (Hpre & HQc & Hnewlen & Hcc & _).
  rewrite Hpub in Hpre. apply (ideal_inj Q HQ) in Hpre; [|done..]. injection Hpre as Eold Enew Echain Estart.
  assert (length l = (1 + j * ZB)%nat) as Hlenl.
  { apply (f_equal length) in Hvals. rewrite length_fmap in Hvals. cbn [length] in Hvals.
    rewrite length_map, length_take in Hvals. lia. }
  destruct (append_circuit_sound Q HQ c 40 l) as (l' & Hl' & Hvals' & Hroot);
    [done|lia|done|done|lia|by rewrite <- Eold, be_val_fbytes by (apply node_fe; lia)|done|].
  assert (NewElementValues c = map be_val slice) as Enews.
  { apply (HashChain4_binding Q HQ) with c0; [rewrite length_map; lia| |done]. by rewrite <- Echain in Hcc. }
  exists l'. split.
  - split; [done|]. rewrite Hvals', Hvals, Enews, zkp_slice_take, map_app. done.
  - rewrite <- Hroot, <- Enew. by rewrite fbytes_be_val.
Qed.

(** Every root of the history is that of the indexed tree of the values queued so far. *)
Lemma history_indexed ZB t vs rs j r :
  known Q 40 initial_leaves -> Forall canonical vs -> Z.of_nat (length vs) < 2 ^ 62 ->
  history ZB t vs rs -> program_hashed Q ZB vs rs -> rs !! j = Some r ->
  exists l, holds_values l (take (j * ZB) vs) /\ r = fbytes (indexed_root 40 l).
Proof.
  intros Hinit Hvs Hlen (_ & _ & _ & H0 & _ & Hsteps) Hhash. revert r. induction j as [|j IH]; intros r Hr.
  - rewrite H0 in Hr. injection Hr as <-. exists initial_leaves. split; [done|apply init_root_law].
  - destruct (rs !! j) as [old|] eqn:Hold; [|apply lookup_ge_None_1 in Hold; apply lookup_lt_Some in Hr; lia].
    destruct (IH old eq_refl) as (l & Hl & E). rewrite <- Nat.add_1_r.
    exact (transition_sound ZB vs j old r l Hvs Hlen (Hsteps j old r Hold Hr) (Hhash j old r Hold Hr) Hl E).
Qed.

End roots.
