(* ===== verification/TxCircuit.v ===== *)
(** * The transaction circuits

    prover/server/circuits/spp_transaction/shared: what every variant of the
    transaction circuit proves.  [Constrain] is the common statement: inputs with
    their owners, nullifiers, inclusion and non-inclusion proofs, outputs,
    balance, the private transaction hash and the public input hash. *)

From S2P Require Import Prelude Hasher Gnark Gadgets.

(** ** Constants of transaction.go, balance.go and derivation.go *)

Definition NPublicSlots : nat := 3.
Definition InputTrees : nat := 5.
Definition TreeIndexBits : nat := 3.
Definition DummyDomain : Z := 1.
Definition AddressDomain : Z := 2.
Definition UtxoDomain : Z := 3.
Definition StateTreeHeight : nat := 32.
Definition NullifierTreeHeight : nat := 40.
Definition MaxTransactionAddresses : nat := 64.
Definition FixedTransactAddresses : nat := 4.
Definition AmountBits : nat := 64.
Definition signedAmountBits : nat := AmountBits + 1.
Definition OutputBlindingSeedDomainV1 : Z := 0x54584f53.
Definition OutputBlindingDomainV1 : Z := 0x54584f42.
Definition PrivateTxBlindingDomainV1 : Z := 0x54585042.

(** ** Data *)

Record UtxoCircuitFields : Type := mkUtxo {
  u_Domain : Z;
  u_Owner : Z;
  u_Asset : Z;
  u_Amount : Z;
  u_Blinding : Z;
  u_DataHash : Z;
  u_RingDataHash : Z;
  u_RingProgramID : Z;
}.

Record TreeSlot : Type := mkTreeSlot {
  slot_ID : Z;
  slot_UtxoRoot : Z;
  slot_NullifierRoot : Z;
}.

Record Input : Type := mkInput {
  in_Utxo : UtxoCircuitFields;
  StatePathElements : list Z;
  StatePathIndex : Z;
  in_TreeSlot : Z;
  NullifierLowValue : Z;
  NullifierNextValue : Z;
  NullifierLowPathElements : list Z;
  NullifierLowPathIndex : Z;
  NullifierSecret : Z;
}.

(** The public values of one input; [SkipInclusion] is nil for circuits that
    always require inclusion in the state tree. *)
Record PublicInputUtxoInputs : Type := mkSignals {
  sig_Nullifier : Z;
  sig_IsCompact : Z;
  sig_SignerPk : Z;
  sig_Tree : TreeSlot;
  sig_SkipInclusion : option Z;
}.

Record CachedInputs : Type := mkCached {
  cache_TreeID : Z;
  ReadHashChain : Z;
  ReadHashes : list Z;
  IsCached : list Z;
  ReadIndex : list Z;
}.

Record Shape : Type := mkShape {
  NInputs : nat;
  NOutputs : nat;
}.

(** The transaction of one variant; [PublicAssets] and [PublicAmounts] are arrays
    of [NPublicSlots]. *)
Record Transaction : Type := mkTransaction {
  tx_Shape : Shape;
  tx_CachedInputs : option CachedInputs;
  Nullifiers : list Z;
  OutputHashes : list Z;
  OutputIsCompact : list Z;
  TreeSlots : list TreeSlot;
  OutputTreeID : Z;
  Inputs : list Input;
  Outputs : list UtxoCircuitFields;
  BlindingSeed : Z;
  PrivateTxHash : Z;
  ExternalDataHash : Z;
  PublicAssets : list Z;
  PublicAmounts : list Z;
  RingProgramID : Z;
  SignerPkHashChain : Z;
  InputFlags : Z;
  PublicInputHash : Z;
  PreimageAfterPrivateTxHash : list Z;
  PreimageTail : list Z;
  skipInclusion : option (list Z);
}.

Definition Validate (s : Shape) : bool := negb (NInputs s <? 1)%nat && negb (NOutputs s <? 1)%nat.

Definition OwnerSignerSlots (nInputs : nat) : nat :=
  nInputs `min` (MaxTransactionAddresses - FixedTransactAddresses - nInputs).

Definition SignerWidth (s : Shape) : nat := OwnerSignerSlots (NInputs s) + 1.

Definition ValidateLength (got want : nat) : bool := (got =? want)%nat.

Definition validateInputs (nInputs : nat) (inputs : list Input) : bool :=
  (length inputs =? nInputs)%nat &&
  forallb (fun input => (length (StatePathElements input) =? StateTreeHeight)%nat &&
                        (length (NullifierLowPathElements input) =? NullifierTreeHeight)%nat) inputs.

Definition lengthChecks (c : CachedInputs) (nInputs : nat) : list (nat * nat) :=
  [(length (ReadHashes c), nInputs); (length (IsCached c), nInputs); (length (ReadIndex c), nInputs)].

Definition ValidateLayout (t : Transaction) (extra : list (nat * nat)) : bool :=
  validateInputs (NInputs (tx_Shape t)) (Inputs t) &&
  forallb (fun '(got, want) => ValidateLength got want)
    ([(length (Nullifiers t), NInputs (tx_Shape t)); (length (OutputHashes t), NOutputs (tx_Shape t));
      (length (OutputIsCompact t), NOutputs (tx_Shape t)); (length (TreeSlots t), InputTrees);
      (length (Outputs t), NOutputs (tx_Shape t))]
     ++ match tx_CachedInputs t with Some c => lengthChecks c (NInputs (tx_Shape t)) | None => [] end
     ++ extra).

Definition inputUtxos (inputs : list Input) : list UtxoCircuitFields := map in_Utxo inputs.

(** The asset and amount slots, interleaved. *)
Definition publicSlots (assets amounts : list Z) : list Z :=
  concat (zip_with (fun asset amount => [asset; amount]) assets amounts).

Section circuit.
Context {G : Gnark} {H : CircuitHash}.

(** ** transaction.go: conditional assertions *)

Definition assertZeroWhen (cond v : Z) : circ unit := AssertZeroWhen cond v.

Definition AssertWhen (cond holds : Z) : circ unit := assertZeroWhen cond (api_sub 1 holds).

Definition CompactSlots (vs : list Z) : list Z := map api_is_zero vs.

(** ** utxo.go *)

Definition isUtxo (u : UtxoCircuitFields) : Z := api_is_zero (api_sub (u_Domain u) UtxoDomain).
Definition isAddress (u : UtxoCircuitFields) : Z := api_is_zero (api_sub (u_Domain u) AddressDomain).
Definition isDummy (u : UtxoCircuitFields) : Z := api_is_zero (api_sub (u_Domain u) DummyDomain).
Definition isUtxoOrAddress (u : UtxoCircuitFields) : Z := api_sub 1 (isDummy u).

Definition assertInDefaultRing (u : UtxoCircuitFields) : circ unit :=
  AssertIsEqual (u_RingProgramID u) 0;;
  AssertIsEqual (u_RingDataHash u) 0.

Definition allZero (vs : list Z) : Z := foldl (fun zero v => api_mul zero (api_is_zero v)) 1 vs.

Definition CheckDummy (u : UtxoCircuitFields) : Z :=
  allZero [u_Owner u; u_Asset u; u_Amount u; u_DataHash u; u_RingDataHash u; u_RingProgramID u].

Definition UtxoHashCircuit (u : UtxoCircuitFields) (treeID : Z) : circ Z :=
  ownerUtxoHash ← PoseidonHash [u_Owner u; u_Blinding u];
  ringHash ← PoseidonHash [u_RingDataHash u; u_RingProgramID u];
  PoseidonHash [u_Domain u; treeID; u_Asset u; u_Amount u; u_DataHash u; ringHash; ownerUtxoHash].

Definition ownerHashGadget (OwnerKeyHash NullifierPk : Z) : circ Z := PoseidonHash [OwnerKeyHash; NullifierPk].

(** ** tree_slot.go *)

Definition Hash (s : TreeSlot) : circ Z := PoseidonHash [slot_ID s; slot_UtxoRoot s; slot_NullifierRoot s].

Definition TreeSlotsHashChain (slots : list TreeSlot) : circ Z :=
  hashes ← mapM Hash slots;
  RightHashChain hashes.

Definition SelectTreeSlot (slot : Z) (slots : list TreeSlot) (requireStateRoot : bool) : circ TreeSlot :=
  let '(hits, selected) := foldl (fun '(hits, selected) '(k, candidate) =>
    let sel := api_is_zero (api_sub slot (Z.of_nat k)) in
    (api_add hits sel,
     mkTreeSlot (api_add (slot_ID selected) (api_mul sel (slot_ID candidate)))
       (api_add (slot_UtxoRoot selected) (api_mul sel (slot_UtxoRoot candidate)))
       (api_add (slot_NullifierRoot selected) (api_mul sel (slot_NullifierRoot candidate)))))
    (0, mkTreeSlot 0 0 0) (imap pair slots) in
  AssertIsEqual hits 1;;
  (if requireStateRoot then AssertIsDifferent (slot_UtxoRoot selected) 0 else cret tt);;
  AssertIsDifferent (slot_NullifierRoot selected) 0;;
  cret selected.

(** ** inputs.go *)

Definition nullifierPkGadget (secret : Z) : circ Z := PoseidonHash [secret].

Definition NullifierGadget (UtxoHash Blinding secret : Z) : circ Z := PoseidonHash [UtxoHash; Blinding; secret].

Definition assertStrictlyOrdered (Lo Mid Hi : Z) : circ unit :=
  loLimbs ← CanonicalLimbs Lo;
  midLimbs ← CanonicalLimbs Mid;
  hiLimbs ← CanonicalLimbs Hi;
  lo_mid ← IsLessLimbs loLimbs midLimbs;
  AssertIsEqual lo_mid 1;;
  mid_hi ← IsLessLimbs midLimbs hiLimbs;
  AssertIsEqual mid_hi 1.

(** Every pair of positions [i < j] of a list. *)
Fixpoint pairs {A} (l : list A) : list (A * A) :=
  match l with
  | [] => []
  | x :: l' => map (pair x) l' ++ pairs l'
  end.

Definition AssertDistinctNullifiers (nullifiers isCompact : list Z) : circ unit :=
  citer (fun '((n1, c1), (n2, c2)) =>
    let bothZero := api_mul c1 c2 in
    AssertIsDifferent (api_add (api_sub n1 n2) bothZero) 0) (pairs (zip nullifiers isCompact)).

Definition checkInclusion (i : Input) (utxoHash utxoTreeRoot : Z) : circ Z :=
  statePathIndices ← ToBinary (StatePathIndex i) StateTreeHeight;
  stateRoot ← MerkleRootGadget utxoHash statePathIndices (StatePathElements i) StateTreeHeight;
  cret (api_is_zero (api_sub stateRoot utxoTreeRoot)).

Definition checkAddress (i : Input) : Z :=
  let u := in_Utxo i in
  allZero [u_Asset u; u_Amount u; u_DataHash u; u_RingDataHash u; u_RingProgramID u; NullifierSecret i].

Definition checkNonInclusion (i : Input) (utxoHash : Z) (signals : PublicInputUtxoInputs) : circ unit :=
  nullifier ← NullifierGadget utxoHash (u_Blinding (in_Utxo i)) (NullifierSecret i);
  AssertEqualWhen (api_sub 1 (sig_IsCompact signals)) nullifier (sig_Nullifier signals);;
  lowLeafHash ← IndexedLeafHash (NullifierLowValue i) (NullifierNextValue i);
  nfPathIndices ← ToBinary (NullifierLowPathIndex i) NullifierTreeHeight;
  nfRoot ← MerkleRootGadget lowLeafHash nfPathIndices (NullifierLowPathElements i) NullifierTreeHeight;
  AssertIsEqual nfRoot (slot_NullifierRoot (sig_Tree signals));;
  assertStrictlyOrdered (NullifierLowValue i) nullifier (NullifierNextValue i).

Definition constrainInput (i : Input) (signals : PublicInputUtxoInputs) : circ (Z * Z) :=
  let u := in_Utxo i in
  let is_utxo := isUtxo u in
  let is_address := isAddress u in
  AssertIsEqual (api_add (api_add is_utxo is_address) (isDummy u)) 1;;
  assertZeroWhen is_utxo (api_is_zero (u_Asset u));;
  let isCompact := sig_IsCompact signals in
  AssertWhen isCompact (isDummy u);;
  utxoHash ← UtxoHashCircuit u (slot_ID (sig_Tree signals));
  checkNonInclusion i utxoHash signals;;
  nullifierPk ← nullifierPkGadget (NullifierSecret i);
  ownerHash ← ownerHashGadget (sig_SignerPk signals) nullifierPk;
  let ownerIsCorrect := api_is_zero (api_sub ownerHash (u_Owner u)) in
  AssertWhen (isUtxoOrAddress u) ownerIsCorrect;;
  requireInclusion ← match sig_SkipInclusion signals with
    | Some skip =>
        let requireInclusion := api_mul is_utxo (api_sub 1 skip) in
        assertZeroWhen requireInclusion (api_is_zero (slot_UtxoRoot (sig_Tree signals)));;
        cret requireInclusion
    | None => cret is_utxo
    end;
  included ← checkInclusion i utxoHash (slot_UtxoRoot (sig_Tree signals));
  AssertWhen requireInclusion included;;
  AssertWhen (isDummy u) (CheckDummy u);;
  assertZeroWhen (isDummy u) (NullifierSecret i);;
  AssertWhen is_address (checkAddress i);;
  cret (api_select is_utxo utxoHash 0, api_select is_address (sig_Nullifier signals) 0).

(** ** outputs.go *)

Definition SignerOwners (inputs : list Input) : list Z :=
  map (fun i => api_mul (isUtxoOrAddress (in_Utxo i)) (u_Owner (in_Utxo i))) inputs.

Definition OutputOwners (outputs : list UtxoCircuitFields) : list Z := map u_Owner outputs.

Definition ConstrainOutput (utxo : UtxoCircuitFields) (hash isCompact ownerSigned treeID : Z) : circ Z :=
  let is_utxo := isUtxo utxo in
  AssertIsEqual (api_add is_utxo (isDummy utxo)) 1;;
  assertZeroWhen is_utxo (api_is_zero (u_Asset utxo));;
  AssertWhen (isDummy utxo) (CheckDummy utxo);;
  let dataIsSet := api_sub 1 (api_is_zero (u_DataHash utxo)) in
  AssertWhen (api_mul is_utxo dataIsSet) ownerSigned;;
  AssertWhen isCompact (isDummy utxo);;
  utxoHash ← UtxoHashCircuit utxo treeID;
  AssertEqualWhen (api_sub 1 isCompact) utxoHash hash;;
  cret (api_select is_utxo utxoHash 0).

(** ** balance.go *)

Definition rangeCheck64 (value : Z) : circ unit := ToBinary value AmountBits;; cret tt.

Definition signedAmountOffset : Z := 2 ^ Z.of_nat AmountBits.

Definition rangeCheckSigned64 (value : Z) : circ unit :=
  let shifted := api_add value signedAmountOffset in
  ToBinary shifted signedAmountBits;;
  AssertIsDifferent shifted 0.

(** The amounts of one asset, summed. *)
Definition sum_matching (asset start : Z) (l : list (Z * Z)) : Z :=
  foldl (fun sum '(a, amount) => api_add sum (api_mul (api_is_zero (api_sub asset a)) amount)) start l.

Definition asset_amounts (utxos : list UtxoCircuitFields) : list (Z * Z) := map (fun u => (u_Asset u, u_Amount u)) utxos.

Definition assertBalanceConservation (inputs outputs : list UtxoCircuitFields) (publicAssets publicAmounts : list Z) : circ unit :=
  if negb (length publicAssets =? length publicAmounts)%nat then cpanic else
  citer (fun '(asset, amount) =>
    rangeCheckSigned64 amount;;
    AssertZeroWhen (api_is_zero amount) asset) (zip publicAssets publicAmounts);;
  citer (fun '((a1, z1), (a2, z2)) =>
    let bothActive := api_mul (api_sub 1 z1) (api_sub 1 z2) in
    let sameAsset := api_is_zero (api_sub a1 a2) in
    AssertIsEqual (api_mul bothActive sameAsset) 0) (pairs (zip publicAssets (map api_is_zero publicAmounts)));;
  citer (fun u => rangeCheck64 (u_Amount u)) inputs;;
  citer (fun u => rangeCheck64 (u_Amount u)) outputs;;
  citer (fun asset =>
    let inSum := sum_matching asset 0 (asset_amounts inputs) in
    let outSum := sum_matching asset 0 (asset_amounts outputs) in
    let adjustedIn := sum_matching asset inSum (zip publicAssets publicAmounts) in
    AssertIsEqual adjustedIn outSum) (map u_Asset inputs ++ map u_Asset outputs ++ publicAssets).

(** ** derivation.go, private_tx_hash.go and slot_order.go *)

Definition DeriveOutputBlindingSeed (firstNullifier blindingSeed : Z) : circ Z :=
  PoseidonHash [OutputBlindingSeedDomainV1; firstNullifier; blindingSeed].

Definition DeriveOutputBlinding (firstNullifier seed : Z) (outputIndex : nat) : circ Z :=
  PoseidonHash [OutputBlindingDomainV1; firstNullifier; seed; Z.of_nat outputIndex].

Definition DerivePrivateTxBlinding (firstNullifier secret : Z) : circ Z :=
  PoseidonHash [PrivateTxBlindingDomainV1; firstNullifier; secret].

(** A list of inputs none of which, or all of which, are compile-time zeros. *)
Definition PrivateTxHashCircuit (inputUtxoHashes outputUtxoHashes addressNullifiers : list (Z * bool)) (blinding : Z) : circ Z :=
  inputChain ← NonZeroHashChain inputUtxoHashes;
  outputChain ← NonZeroHashChain outputUtxoHashes;
  addressChain ← NonZeroHashChain addressNullifiers;
  PoseidonHash [inputChain; outputChain; addressChain; blinding].

(** The values of wires, which the compiler does not know. *)
Definition wires (l : list Z) : list (Z * bool) := map (fun x => (x, false)) l.

Definition AssertDummiesLast (utxos : list UtxoCircuitFields) : circ unit :=
  citer (fun '(u, v) =>
    let previous := u_Domain u in
    let previousIsNotReal := api_mul (api_sub previous AddressDomain) (api_sub previous UtxoDomain) in
    AssertIsEqual (api_mul previousIsNotReal (api_sub (u_Domain v) DummyDomain)) 0) (zip utxos (tail utxos)).

(** ** cache.go *)

(** The assignments [prepare] makes to the transaction: the flags, and two more
    fields of the public input preimage. *)
Definition with_cache (c : CachedInputs) (tx : Transaction) : Transaction :=
  mkTransaction (tx_Shape tx) (tx_CachedInputs tx) (Nullifiers tx) (OutputHashes tx) (OutputIsCompact tx)
    (TreeSlots tx) (OutputTreeID tx) (Inputs tx) (Outputs tx) (BlindingSeed tx) (PrivateTxHash tx) (ExternalDataHash tx)
    (PublicAssets tx) (PublicAmounts tx) (RingProgramID tx) (SignerPkHashChain tx) (InputFlags tx) (PublicInputHash tx)
    (PreimageAfterPrivateTxHash tx) (PreimageTail tx ++ [cache_TreeID c; ReadHashChain c]) (Some (IsCached c)).

Definition prepare (c : CachedInputs) (tx : Transaction) : circ Transaction :=
  citer AssertIsBoolean (IsCached c);;
  ToBinary (cache_TreeID c) 16;;
  cret (with_cache c tx).

Definition selectReadHash (index : Z) (hashes : list Z) : circ Z :=
  let '(hits, selected) := foldl (fun '(hits, selected) '(k, hash) =>
    let hit := api_is_zero (api_sub index (Z.of_nat k)) in
    (api_add hits hit, api_add selected (api_mul hit hash))) (0, 0) (imap pair hashes) in
  AssertIsEqual hits 1;;
  cret selected.

Definition constrainCached (c : CachedInputs) (tx : Transaction) (inputHashes inputTreeIDs : list Z) : circ unit :=
  citer (fun '(i, cached) =>
    input ← clift (Inputs tx !! i);
    treeID ← clift (inputTreeIDs !! i);
    inputHash ← clift (inputHashes !! i);
    readIndex ← clift (ReadIndex c !! i);
    let is_utxo := api_is_zero (api_sub (u_Domain (in_Utxo input)) UtxoDomain) in
    AssertWhen cached is_utxo;;
    AssertWhen cached (api_is_zero (api_sub treeID (cache_TreeID c)));;
    AssertWhen cached (api_sub 1 (api_is_zero inputHash));;
    read ← selectReadHash readIndex (ReadHashes c);
    AssertWhen cached (api_is_zero (api_sub inputHash read))) (imap pair (IsCached c));;
  chain ← RightHashChain4 (ReadHashes c);
  AssertIsEqual chain (ReadHashChain c).

(** ** transaction.go *)

Definition publicInputHash (t : Transaction) : circ Z :=
  nullifierChain ← RightHashChain4 (Nullifiers t);
  outputChain ← RightHashChain4 (OutputHashes t);
  treeChain ← TreeSlotsHashChain (TreeSlots t);
  HashChain4 ([nullifierChain; outputChain; treeChain; OutputTreeID t; PrivateTxHash t]
    ++ PreimageAfterPrivateTxHash t ++ [ExternalDataHash t]
    ++ publicSlots (PublicAssets t) (PublicAmounts t)
    ++ [RingProgramID t; SignerPkHashChain t; InputFlags t] ++ PreimageTail t).

(** The loop body for input [i]: the dummy policy, the published tree index, the
    selected slot and the input itself; the results are the input hash, the
    address nullifier and the id of the slot's tree. *)
Definition constrain_slot (t : Transaction) (signers flagBits inputIsCompact : list Z) (i : nat) (input : Input)
    : circ (Z * Z * Z) :=
  allowDummyInputs ← clift (flagBits !! 0%nat);
  compact ← clift (inputIsCompact !! i);
  nullifier ← clift (Nullifiers t !! i);
  signer ← clift (signers !! i);
  AssertIsEqual (api_mul (api_sub 1 allowDummyInputs) (api_sub (api_sub 1 (isUtxo (in_Utxo input))) compact)) 0;;
  AssertIsEqual (in_TreeSlot input)
    (api_from_binary (take TreeIndexBits (drop (1 + TreeIndexBits * i) flagBits)));;
  tree ← SelectTreeSlot (in_TreeSlot input) (TreeSlots t) (match skipInclusion t with None => true | Some _ => false end);
  skip ← match skipInclusion t with
    | Some l => skip ← clift (l !! i); cret (Some skip)
    | None => cret None
    end;
  '(inputHash, addressNullifier) ← constrainInput input (mkSignals nullifier compact signer tree skip);
  cret (inputHash, addressNullifier, slot_ID tree).

Definition constrain_output (t : Transaction) (outputSigned : list Z) (firstNullifier outputBlindingSeed : Z)
    (i : nat) (utxo : UtxoCircuitFields) : circ Z :=
  hash ← clift (OutputHashes t !! i);
  compact ← clift (OutputIsCompact t !! i);
  signed ← clift (outputSigned !! i);
  blinding ← DeriveOutputBlinding firstNullifier outputBlindingSeed i;
  AssertIsEqual (u_Blinding utxo) blinding;;
  ConstrainOutput utxo hash compact signed (OutputTreeID t).

Definition Constrain (t : Transaction) (signers outputSigned : list Z) : circ unit :=
  if negb (ValidateLength (length signers) (NInputs (tx_Shape t))) then cpanic else
  if negb (ValidateLength (length outputSigned) (NOutputs (tx_Shape t))) then cpanic else
  t ← match tx_CachedInputs t with Some c => prepare c t | None => cret t end;
  flagBits ← ToBinary (InputFlags t) (1 + TreeIndexBits * NInputs (tx_Shape t));
  let inputIsCompact := CompactSlots (Nullifiers t) in
  results ← mapM (fun '(i, input) => constrain_slot t signers flagBits inputIsCompact i input) (imap pair (Inputs t));
  let inputHashes := map (fun '(h, _, _) => h) results in
  let addressNullifiers := map (fun '(_, a, _) => a) results in
  let inputTreeIDs := map (fun '(_, _, id) => id) results in
  match tx_CachedInputs t with Some c => constrainCached c t inputHashes inputTreeIDs | None => cret tt end;;
  AssertDistinctNullifiers (Nullifiers t) inputIsCompact;;
  AssertDummiesLast (inputUtxos (Inputs t));;
  firstNullifier ← clift (head (Nullifiers t));
  AssertIsDifferent firstNullifier 0;;
  outputBlindingSeed ← DeriveOutputBlindingSeed firstNullifier (BlindingSeed t);
  outputHashes ← mapM (fun '(i, utxo) => constrain_output t outputSigned firstNullifier outputBlindingSeed i utxo)
    (imap pair (Outputs t));
  AssertDummiesLast (Outputs t);;
  assertBalanceConservation (inputUtxos (Inputs t)) (Outputs t) (PublicAssets t) (PublicAmounts t);;
  blinding ← DerivePrivateTxBlinding firstNullifier (BlindingSeed t);
  privateTxHash ← PrivateTxHashCircuit (wires inputHashes) (wires outputHashes) (wires addressNullifiers) blinding;
  AssertIsEqual privateTxHash (PrivateTxHash t);;
  pih ← publicInputHash t;
  AssertIsEqual (PublicInputHash t) pih.

(** ** signers.go *)

Definition Contains (s : list Z) (identity : Z) : Z :=
  let prod := foldl (fun prod signer => api_mul prod (api_sub identity signer)) 1 s in
  api_mul (api_is_zero prod) (api_sub 1 (api_is_zero identity)).

Definition ContainsEach (signers identities : list Z) : list Z := map (Contains signers) identities.

Definition ConfidentialEddsaSigners (inputs : list Input) (ownerPkHashes : list Z) : circ (list Z) :=
  mapM (fun '(i, input) =>
    pkHash ← clift (ownerPkHashes !! i);
    let carriesContent := isUtxoOrAddress (in_Utxo input) in
    AssertWhen carriesContent (api_sub 1 (api_is_zero pkHash));;
    cret (api_mul carriesContent pkHash)) (imap pair inputs).

Definition AuthorizedEddsaInputOwners (inputs : list Input) (ownerPkHashes authorized : list Z) : circ (list Z) :=
  owners ← ConfidentialEddsaSigners inputs ownerPkHashes;
  citer (fun '(i, input) =>
    pkHash ← clift (ownerPkHashes !! i);
    let carriesContent := isUtxoOrAddress (in_Utxo input) in
    assertZeroWhen (api_sub 1 carriesContent) pkHash;;
    AssertWhen carriesContent (Contains authorized pkHash)) (imap pair inputs);;
  cret owners.

(** The loop of [HiddenOwnerSigners]: the hidden inputs so far and the signers. *)
Definition HiddenOwnerSigners (inputs : list Input) (ownerPkHashes authorizedEddsa : list Z)
    (hiddenOwnerPkHash hiddenSignatureValid : Z) : circ (list Z) :=
  '(hasHiddenInput, signers) ← cfold (fun '(hasHiddenInput, signers) '(i, input) =>
    owner ← clift (ownerPkHashes !! i);
    let carriesContent := isUtxoOrAddress (in_Utxo input) in
    let isHidden := api_is_zero owner in
    assertZeroWhen (api_sub 1 carriesContent) owner;;
    let pkHash := api_select isHidden hiddenOwnerPkHash owner in
    AssertWhen carriesContent (api_sub 1 (api_is_zero pkHash));;
    AssertWhen (api_mul carriesContent isHidden) hiddenSignatureValid;;
    AssertWhen (api_mul carriesContent (api_sub 1 isHidden)) (Contains authorizedEddsa owner);;
    cret (api_add hasHiddenInput (api_mul carriesContent isHidden), signers ++ [api_mul carriesContent pkHash]))
    (0, []) (imap pair inputs);
  AssertIsDifferent hasHiddenInput 0;;
  cret signers.

Definition AssertDefaultHiddenOwner (inputs : list Input) (ownerPkHashes publishedOutputOwnerPkHashes : list Z)
    (hiddenOwnerPkHash defaultOwnerPkHash : Z) : circ unit :=
  '(hasDefaultHidden, hasRingHidden) ← cfold (fun '(hasDefaultHidden, hasRingHidden) '(i, input) =>
    owner ← clift (ownerPkHashes !! i);
    let isHidden := api_is_zero owner in
    let isDefaultRing := api_is_zero (u_RingProgramID (in_Utxo input)) in
    let realHidden := api_mul (isUtxo (in_Utxo input)) isHidden in
    cret (api_add hasDefaultHidden (api_mul realHidden isDefaultRing),
          api_add hasRingHidden (api_mul realHidden (api_sub 1 isDefaultRing)))) (0, 0) (imap pair inputs);
  let hasDefaultHidden := api_sub 1 (api_is_zero hasDefaultHidden) in
  let hasRingHidden := api_sub 1 (api_is_zero hasRingHidden) in
  AssertIsEqual defaultOwnerPkHash (api_mul hasDefaultHidden hiddenOwnerPkHash);;
  AssertIsEqual (api_mul hasRingHidden hasDefaultHidden) 0;;
  citer (fun published => assertZeroWhen hasRingHidden (api_is_zero (api_sub published hiddenOwnerPkHash)))
    publishedOutputOwnerPkHashes.

(** ** ring.go *)

Definition AssertInDefaultRing (inputs : list Input) (outputs : list UtxoCircuitFields) : circ unit :=
  citer (fun i => assertInDefaultRing (in_Utxo i)) inputs;;
  citer assertInDefaultRing outputs.

Definition checkRingMembership (u : UtxoCircuitFields) (ringProgramID : Z) (allowDefaultRing : bool) : Z :=
  let isMemberOfSigningRing := api_is_zero (api_sub (u_RingProgramID u) ringProgramID) in
  if negb allowDefaultRing then isMemberOfSigningRing else
  let inCustomRing := api_sub 1 (api_is_zero (u_RingProgramID u)) in
  let dataSet := api_sub 1 (api_is_zero (u_RingDataHash u)) in
  let ok := api_select inCustomRing isMemberOfSigningRing 1 in
  api_mul ok (api_select dataSet inCustomRing 1).

Definition assertRingMembership (inputs : list Input) (outputs : list UtxoCircuitFields) (ringProgramID : Z)
    (allowDefaultRing : bool) : circ unit :=
  citer (fun i => AssertWhen (isUtxo (in_Utxo i)) (checkRingMembership (in_Utxo i) ringProgramID allowDefaultRing)) inputs;;
  citer (fun u => AssertWhen (isUtxo u) (checkRingMembership u ringProgramID allowDefaultRing)) outputs.

Definition AssertRingMemberOrFree (inputs : list Input) (outputs : list UtxoCircuitFields) (ringProgramID : Z) : circ unit :=
  assertRingMembership inputs outputs ringProgramID true.

Definition AssertRingMember (inputs : list Input) (outputs : list UtxoCircuitFields) (ringProgramID : Z) : circ unit :=
  assertRingMembership inputs outputs ringProgramID false.

(** ** owner_tags.go *)

Definition AssertOutputOwnerTags (outputs : list UtxoCircuitFields) (ownerPkHashes nullifierPks : list Z) : circ unit :=
  if negb (ValidateLength (length ownerPkHashes) (length outputs)) then cpanic else
  if negb (ValidateLength (length nullifierPks) (length outputs)) then cpanic else
  citer (fun '(i, utxo) =>
    pkHash ← clift (ownerPkHashes !! i);
    nullifierPk ← clift (nullifierPks !! i);
    ownerHash ← PoseidonHash [pkHash; nullifierPk];
    AssertWhen (isUtxo utxo) (api_is_zero (api_sub ownerHash (u_Owner utxo)))) (imap pair outputs).

Definition AssertPublishedOutputOwners (outputs : list UtxoCircuitFields) (ownerPkHashes publishedOwnerPkHashes : list Z) : circ unit :=
  if negb (ValidateLength (length ownerPkHashes) (length outputs)) then cpanic else
  if negb (ValidateLength (length publishedOwnerPkHashes) (length outputs)) then cpanic else
  citer (fun '(i, utxo) =>
    owner ← clift (ownerPkHashes !! i);
    published ← clift (publishedOwnerPkHashes !! i);
    let isReal := isUtxo utxo in
    let isDefaultRing := api_is_zero (u_RingProgramID utxo) in
    let expected := api_mul isDefaultRing owner in
    AssertWhen isReal (api_is_zero (api_sub published expected))) (imap pair outputs).

(** The identities a dummy tag may repeat: the given ones and the published owners
    of the real outputs. *)
Definition output_participants (identities : list Z) (outputs : list UtxoCircuitFields) (tags : list Z) : list Z :=
  identities ++ zip_with (fun utxo tag => api_mul (isUtxo utxo) tag) outputs tags.

Definition AssertMaskedDummyOutputTags (outputs : list UtxoCircuitFields) (outputIsCompact publishedOwnerPkHashes
    publicIdentities : list Z) : circ unit :=
  if negb (ValidateLength (length publishedOwnerPkHashes) (length outputs)) then cpanic else
  if negb (ValidateLength (length outputIsCompact) (length outputs)) then cpanic else
  let participants := output_participants publicIdentities outputs publishedOwnerPkHashes in
  citer (fun '(i, utxo) =>
    compact ← clift (outputIsCompact !! i);
    published ← clift (publishedOwnerPkHashes !! i);
    assertZeroWhen compact published;;
    let isPublished := api_sub 1 (api_is_zero published) in
    AssertWhen (api_mul (isDummy utxo) isPublished) (Contains participants published)) (imap pair outputs).

(** [inputOwnerPkHashes] and [outputOwnerPkHashes] may be nil. *)
Definition AssertDummyTags (inputs : list Input) (outputs : list UtxoCircuitFields) (outputIsCompact : list Z)
    (inputOwnerPkHashes outputOwnerPkHashes : option (list Z)) (signers : list Z) : circ unit :=
  participants ← match outputOwnerPkHashes with
    | Some tags =>
        if negb (ValidateLength (length tags) (length outputs)) then cpanic else
        if negb (ValidateLength (length outputIsCompact) (length outputs)) then cpanic else
        cret (output_participants signers outputs tags)
    | None => cret signers
    end;
  match inputOwnerPkHashes with
  | Some owners =>
      if negb (ValidateLength (length owners) (length inputs)) then cpanic else
      citer (fun '(i, input) =>
        owner ← clift (owners !! i);
        AssertWhen (isDummy (in_Utxo input)) (Contains participants owner)) (imap pair inputs)
  | None => cret tt
  end;;
  match outputOwnerPkHashes with
  | Some tags =>
      citer (fun '(i, utxo) =>
        compact ← clift (outputIsCompact !! i);
        tag ← clift (tags !! i);
        assertZeroWhen compact tag;;
        let isNonCompactDummy := api_mul (isDummy utxo) (api_sub 1 compact) in
        AssertWhen isNonCompactDummy (Contains participants tag)) (imap pair outputs)
  | None => cret tt
  end.

End circuit.
