(* ===== verification/TxSpecs.v ===== *)
(** * What the transaction circuit proves

    The statement behind a satisfied [Constrain], in terms of the values instead
    of the constraints: which slot an input spends from, that its nullifier is
    derived from its commitment and absent from the slot's nullifier tree, that
    its owner signed, that its commitment is in the state tree, and that per asset
    nothing is created or lost. *)

From S2P Require Import Prelude ZeroBytes Hasher PrimeField Gnark Gadgets GadgetSpecs SparseTree ChainSpecs AppendCircuit TxCircuit.

(** ** Values *)

Definition utxo_hash `{CircuitHash} (u : UtxoCircuitFields) (treeID : Z) : Z :=
  poseidon [u_Domain u; treeID; u_Asset u; u_Amount u; u_DataHash u;
            poseidon [u_RingDataHash u; u_RingProgramID u]; poseidon [u_Owner u; u_Blinding u]].

Definition nullifier_of `{CircuitHash} (i : Input) (treeID : Z) : Z :=
  poseidon [utxo_hash (in_Utxo i) treeID; u_Blinding (in_Utxo i); NullifierSecret i].

Definition owner_of `{CircuitHash} (signer secret : Z) : Z := poseidon [signer; poseidon [secret]].

(** Every variable holds a field element. *)
Record utxo_assigned (u : UtxoCircuitFields) : Prop := {
  fe_Domain : fe (u_Domain u);
  fe_Owner : fe (u_Owner u);
  fe_Asset : fe (u_Asset u);
  fe_Amount : fe (u_Amount u);
  fe_DataHash : fe (u_DataHash u);
  fe_RingDataHash : fe (u_RingDataHash u);
  fe_RingProgramID : fe (u_RingProgramID u);
  fe_Blinding : fe (u_Blinding u);
}.

Record input_assigned (i : Input) : Prop := {
  fe_Utxo : utxo_assigned (in_Utxo i);
  fe_StatePathIndex : fe (StatePathIndex i);
  fe_TreeSlot : fe (in_TreeSlot i);
  fe_Low : fe (NullifierLowValue i);
  fe_Next : fe (NullifierNextValue i);
  fe_LowPathIndex : fe (NullifierLowPathIndex i);
  fe_Secret : fe (NullifierSecret i);
}.

Record slot_assigned (s : TreeSlot) : Prop := {
  fe_ID : fe (slot_ID s);
  fe_UtxoRoot : fe (slot_UtxoRoot s);
  fe_NullifierRoot : fe (slot_NullifierRoot s);
}.

Section specs.
Context {G : Gnark} {GL : GnarkLaws G} {H : CircuitHash} {HL : CircuitHashLaw H}.
Context (Q : list Z -> Prop).

(** ** Flags *)

Lemma fe_const k : 0 <= k < 2 ^ 64 -> fe k.
Proof. intros. by apply (fe_small _ 64). Qed.

Lemma isUtxo_flag u : utxo_assigned u -> isUtxo u = Z.b2z (u_Domain u =? UtxoDomain).
Proof. intros []. unfold isUtxo. apply is_zero_sub; [done|]. by apply fe_const. Qed.

Lemma isAddress_flag u : utxo_assigned u -> isAddress u = Z.b2z (u_Domain u =? AddressDomain).
Proof. intros []. unfold isAddress. apply is_zero_sub; [done|]. by apply fe_const. Qed.

Lemma isDummy_flag u : utxo_assigned u -> isDummy u = Z.b2z (u_Domain u =? DummyDomain).
Proof. intros []. unfold isDummy. apply is_zero_sub; [done|]. by apply fe_const. Qed.

Lemma content_flag u : utxo_assigned u -> isUtxoOrAddress u = Z.b2z (negb (u_Domain u =? DummyDomain)).
Proof. intros Hu. unfold isUtxoOrAddress. by rewrite isDummy_flag, not_b2z. Qed.

Lemma zero_when c v u : fe v -> runs Q (assertZeroWhen (Z.b2z c) v) u <-> (c = true -> v = 0).
Proof.
  intros Hv. unfold assertZeroWhen, AssertZeroWhen. rewrite runs_equal, gate_b2z by (auto with field).
  destruct c; naive_solver.
Qed.

Lemma holds_when c h u : runs Q (AssertWhen (Z.b2z c) (Z.b2z h)) u <-> (c = true -> h = true).
Proof. unfold AssertWhen. rewrite not_b2z, zero_when by auto with field. destruct c, h; naive_solver. Qed.

Lemma equal_when c a b u : fe a -> fe b -> runs Q (AssertEqualWhen (Z.b2z c) a b) u <-> (c = true -> a = b).
Proof.
  intros Ha Hb. unfold AssertEqualWhen. rewrite runs_equal, gate_b2z by auto with field.
  pose proof (sub_zero a b Ha Hb) as E. rewrite <- Z.eqb_eq. destruct c; [|naive_solver].
  rewrite E, Z.eqb_eq. naive_solver.
Qed.

Lemma allZero_flag vs : Forall fe vs -> allZero vs = Z.b2z (forallb (fun v => v =? 0) vs).
Proof.
  intros Hvs. unfold allZero. assert (forall b, foldl (fun zero v => api_mul zero (api_is_zero v)) (Z.b2z b) vs
    = Z.b2z (b && forallb (fun v => v =? 0) vs)) as Hgen; [|exact (Hgen true)].
  induction Hvs as [|v vs Hv _ IH]; intros b; cbn [foldl forallb]; [by rewrite andb_true_r|].
  rewrite is_zero_b2z, and_b2z, IH by done. by rewrite andb_assoc.
Qed.

(** ** Tree slots *)

Lemma add_b2z_zero x : fe x -> api_add 0 x = x.
Proof. intros. rewrite add_law, Z.add_0_l. by apply fe_id. Qed.

Lemma add_zero_r x : fe x -> api_add x 0 = x.
Proof. intros. rewrite add_law, Z.add_0_r. by apply fe_id. Qed.

(** The fold of [SelectTreeSlot] from position [k] on: nothing is selected if the
    index was met before, the slot at the index otherwise. *)
Lemma select_fold s slots k hits sel :
  fe s -> Forall slot_assigned slots -> Z.of_nat (k + length slots) < 2 ^ 64 ->
  slot_assigned sel -> fe hits ->
  let r := foldl (fun '(hits, selected) '(k, candidate) =>
    let sel := api_is_zero (api_sub s (Z.of_nat k)) in
    (api_add hits sel,
     mkTreeSlot (api_add (slot_ID selected) (api_mul sel (slot_ID candidate)))
       (api_add (slot_UtxoRoot selected) (api_mul sel (slot_UtxoRoot candidate)))
       (api_add (slot_NullifierRoot selected) (api_mul sel (slot_NullifierRoot candidate)))))
    (hits, sel) (imap (fun i x => ((k + i)%nat, x)) slots) in
  (s < Z.of_nat k -> r = (hits, sel)) /\
  (hits = 0 -> sel = mkTreeSlot 0 0 0 -> Z.of_nat k <= s ->
   r = match slots !! (Z.to_nat s - k)%nat with Some x => (1, x) | None => (0, mkTreeSlot 0 0 0) end).
Proof.
  intros Hs Hslots. revert k hits sel. induction Hslots as [|x slots [Hid Hur Hnr] _ IH]; intros k hits sel Hk Hsel Hhits.
  - cbn [imap foldl lookup list_lookup]. split; [done|]. by intros -> -> _.
  - cbn [imap foldl length] in *. rewrite Nat.add_0_r.
    rewrite is_zero_sub by (done || apply fe_const; lia).
    rewrite !gate_b2z by done.
    rewrite (imap_ext _ (fun i x => ((S k + i)%nat, x))) by (intros; simpl; f_equal; lia).
    destruct (Z.eqb_spec s (Z.of_nat k)) as [->|Hne]; cbn [Z.b2z].
    + split; [lia|]. intros -> -> _. rewrite Nat2Z.id, Nat.sub_diag. cbn [lookup list_lookup slot_ID slot_UtxoRoot slot_NullifierRoot].
      rewrite !add_b2z_zero by auto with field. destruct x as [id ur nr]. cbn [slot_ID slot_UtxoRoot slot_NullifierRoot] in *.
      apply (IH (S k)); [lia|done|auto with field|lia].
    + destruct sel as [id ur nr], Hsel. cbn [slot_ID slot_UtxoRoot slot_NullifierRoot] in *. rewrite !add_zero_r by done.
      destruct (IH (S k) hits (mkTreeSlot id ur nr)) as [IH1 IH2]; [lia|done..|].
      split; [intros; apply IH1; lia|]. intros E1 E2 Hle. rewrite IH2 by (done || lia).
      replace (Z.to_nat s - k)%nat with (S (Z.to_nat s - S k)) by lia. done.
Qed.

Lemma SelectTreeSlot_sound s slots req sel : fe s -> Forall slot_assigned slots -> (length slots <= 64)%nat ->
  runs Q (SelectTreeSlot s slots req) sel ->
  slots !! Z.to_nat s = Some sel /\ slot_NullifierRoot sel <> 0 /\ (req = true -> slot_UtxoRoot sel <> 0).
Proof.
  intros Hs Hslots Hlen Hr. unfold SelectTreeSlot in Hr.
  destruct (select_fold s slots 0 0 (mkTreeSlot 0 0 0)) as [_ Hfold]; [done|done|simpl; lia|split; auto with field|auto with field|].
  specialize (Hfold eq_refl eq_refl). rewrite Nat.sub_0_r in Hfold. cbn [Nat.add] in Hfold.
  change (imap (fun i x => (i, x)) slots) with (imap pair slots) in Hfold. rewrite Hfold in Hr by (destruct Hs; lia).
  destruct (slots !! Z.to_nat s) as [x|] eqn:Hx.
  - pose proof (Forall_lookup_1 _ _ _ _ Hslots Hx) as []. cbind Hr as [] _H. cbind Hr as [] Hreq. cbind Hr as [] Hnr.
    apply runs_ret in Hr as <-. apply runs_different in Hnr; [|auto with field..]. split_and!; [done..|].
    intros ->. apply runs_different in Hreq; auto with field.
  - cbind Hr as [] Hone. apply runs_equal in Hone; [done|auto with field..].
Qed.

(** ** Inputs *)

Lemma ordered_sound a b c u : fe a -> fe b -> fe c -> runs Q (assertStrictlyOrdered a b c) u -> a < b < c.
Proof.
  intros Ha Hb Hc Hr. unfold assertStrictlyOrdered in Hr. cbind Hr as la Hla. cbind Hr as lb Hlb. cbind Hr as lc Hlc.
  cbind Hr as x Hx. cbind Hr as [] H1. cbind Hr as y Hy.
  apply CanonicalLimbs_spec in Hla as ->, Hlb as ->, Hlc as ->; [|done..].
  apply IsLessLimbs_spec in Hx as ->, Hy as ->; [|done..].
  apply runs_equal in H1, Hr; [|auto with field..].
  destruct (Z.ltb_spec a b); [|done]. destruct (Z.ltb_spec b c); [lia|done].
Qed.

Lemma UtxoHashCircuit_runs u treeID h : runs Q (UtxoHashCircuit u treeID) h -> h = utxo_hash u treeID.
Proof.
  intros Hr. unfold UtxoHashCircuit in Hr. cbind Hr as a Ha. cbind Hr as b Hb.
  apply runs_poseidon in Ha as [-> _], Hb as [-> _], Hr as [-> _]; (done || simpl; lia).
Qed.

(** An accepted non-inclusion proof: a leaf of the tree at [root] whose gap
    contains [x]. *)
Definition non_included (root x : Z) : Prop :=
  exists low next index path, 0 <= index < 2 ^ Z.of_nat NullifierTreeHeight /\ low < x < next /\ Q [low; next] /\
    runs Q (MerkleRootGadget (poseidon [low; next]) (bits NullifierTreeHeight index) path NullifierTreeHeight) root.

Lemma checkNonInclusion_sound i utxoHash sg u compact :
  input_assigned i -> slot_assigned (sig_Tree sg) -> fe (sig_Nullifier sg) -> sig_IsCompact sg = Z.b2z compact ->
  runs Q (checkNonInclusion i utxoHash sg) u ->
  let nullifier := poseidon [utxoHash; u_Blinding (in_Utxo i); NullifierSecret i] in
  (compact = false -> sig_Nullifier sg = nullifier) /\ non_included (slot_NullifierRoot (sig_Tree sg)) nullifier.
Proof.
  intros Hi [] Hn Ec Hr nullifier. unfold checkNonInclusion in Hr. cbind Hr as nf Hnf. cbind Hr as [] Heq. cbind Hr as leaf Hleaf.
  cbind Hr as bs Hbs. cbind Hr as root Hroot. cbind Hr as [] Hrt. destruct Hi.
  apply runs_poseidon in Hnf as [-> _]; [|simpl; lia]. fold nullifier in Heq, Hr. unfold IndexedLeafHash in Hleaf.
  apply runs_poseidon in Hleaf as [-> HQl]; [|simpl; lia].
  apply runs_to_binary in Hbs as [Hidx ->]; [|done|unfold NullifierTreeHeight; lia].
  rewrite Ec, not_b2z in Heq. rewrite equal_when in Heq by (done || apply poseidon_fe).
  apply runs_equal in Hrt; [|by eapply merkle_root_fe; [|exact Hroot]; unfold NullifierTreeHeight; lia|done].
  apply ordered_sound in Hr; [|done|apply poseidon_fe|done]. split.
  - intros ->. symmetry. by apply Heq.
  - exists (NullifierLowValue i), (NullifierNextValue i), (NullifierLowPathIndex i), (NullifierLowPathElements i).
    destruct fe_LowPathIndex0. rewrite <- Hrt. done.
Qed.

(** An accepted inclusion proof in the state tree at [root]. *)
Definition included (root leaf : Z) : Prop :=
  exists index path, 0 <= index < 2 ^ Z.of_nat StateTreeHeight /\
    runs Q (MerkleRootGadget leaf (bits StateTreeHeight index) path StateTreeHeight) root.

Definition carries_nothing (u : UtxoCircuitFields) : Prop :=
  u_Asset u = 0 /\ u_Amount u = 0 /\ u_DataHash u = 0 /\ u_RingDataHash u = 0 /\ u_RingProgramID u = 0.

(** What a constrained input is, by its kind. *)
Record input_sound (i : Input) (sg : PublicInputUtxoInputs) (compact skip : bool) : Prop := {
  in_kind : u_Domain (in_Utxo i) = DummyDomain \/ u_Domain (in_Utxo i) = AddressDomain \/ u_Domain (in_Utxo i) = UtxoDomain;
  in_compact : compact = true -> u_Domain (in_Utxo i) = DummyDomain;
  in_nullifier : compact = false -> sig_Nullifier sg = nullifier_of i (slot_ID (sig_Tree sg));
  in_fresh : non_included (slot_NullifierRoot (sig_Tree sg)) (nullifier_of i (slot_ID (sig_Tree sg)));
  in_owner : u_Domain (in_Utxo i) <> DummyDomain ->
    u_Owner (in_Utxo i) = owner_of (sig_SignerPk sg) (NullifierSecret i);
  in_asset : u_Domain (in_Utxo i) = UtxoDomain -> u_Asset (in_Utxo i) <> 0;
  in_included : u_Domain (in_Utxo i) = UtxoDomain -> skip = false ->
    included (slot_UtxoRoot (sig_Tree sg)) (utxo_hash (in_Utxo i) (slot_ID (sig_Tree sg)));
  in_empty : u_Domain (in_Utxo i) <> UtxoDomain -> carries_nothing (in_Utxo i) /\ NullifierSecret i = 0;
  in_dummy : u_Domain (in_Utxo i) = DummyDomain -> u_Owner (in_Utxo i) = 0;
}.

Lemma kind_sum d : api_add (api_add (Z.b2z (d =? UtxoDomain)) (Z.b2z (d =? AddressDomain))) (Z.b2z (d =? DummyDomain)) = 1 ->
  d = DummyDomain \/ d = AddressDomain \/ d = UtxoDomain.
Proof.
  rewrite !add_law. destruct (Z.eqb_spec d UtxoDomain); [tauto|]. destruct (Z.eqb_spec d AddressDomain); [tauto|].
  destruct (Z.eqb_spec d DummyDomain); [tauto|]. done.
Qed.

Lemma CheckDummy_flag u : utxo_assigned u -> CheckDummy u = Z.b2z (forallb (fun v => v =? 0)
  [u_Owner u; u_Asset u; u_Amount u; u_DataHash u; u_RingDataHash u; u_RingProgramID u]).
Proof. intros []. unfold CheckDummy. apply allZero_flag. by repeat (apply Forall_cons; split). Qed.

Lemma checkAddress_flag i : input_assigned i -> checkAddress i = Z.b2z (forallb (fun v => v =? 0)
  [u_Asset (in_Utxo i); u_Amount (in_Utxo i); u_DataHash (in_Utxo i); u_RingDataHash (in_Utxo i);
   u_RingProgramID (in_Utxo i); NullifierSecret i]).
Proof. intros [[]]. unfold checkAddress. apply allZero_flag. by repeat (apply Forall_cons; split). Qed.

Lemma checkInclusion_runs i utxoHash root r : input_assigned i -> fe root ->
  runs Q (checkInclusion i utxoHash root) r -> exists b, r = Z.b2z b /\ (b = true -> included root utxoHash).
Proof.
  intros [] Hroot Hr. unfold checkInclusion in Hr. cbind Hr as bs Hbs. cbind Hr as sr Hsr. apply runs_ret in Hr as <-.
  apply runs_to_binary in Hbs as [Hidx ->]; [|done|unfold StateTreeHeight; lia].
  assert (fe sr) by (eapply merkle_root_fe; [|exact Hsr]; unfold StateTreeHeight; lia).
  exists (sr =? root). split; [by apply is_zero_sub|]. intros ->%Z.eqb_eq.
  exists (StatePathIndex i), (StatePathElements i). by destruct fe_StatePathIndex0.
Qed.

Lemma forallb_zero vs : forallb (fun v => v =? 0) vs = true <-> Forall (fun v => v = 0) vs.
Proof.
  induction vs as [|v vs IH]; cbn [forallb]; [split; [constructor|done]|].
  rewrite andb_true_iff, Forall_cons, Z.eqb_eq, IH. done.
Qed.

Lemma requireInclusion_runs (sk : option Z) skip b (root req : Z) : default 0 sk = Z.b2z skip ->
  runs Q (match sk with
    | Some skip =>
        let requireInclusion := api_mul (Z.b2z b) (api_sub 1 skip) in
        assertZeroWhen requireInclusion (api_is_zero root);;
        cret requireInclusion
    | None => cret (Z.b2z b)
    end) req -> req = Z.b2z (b && negb skip).
Proof.
  intros Es Hr. destruct sk as [s|].
  - assert (s = Z.b2z skip) as -> by exact Es. cbn zeta in Hr. rewrite not_b2z, and_b2z in Hr.
    cbind Hr as [] _H. by apply runs_ret in Hr as <-.
  - apply runs_ret in Hr as <-. destruct skip; [done|]. by rewrite andb_true_r.
Qed.

Lemma constrainInput_sound i sg compact skip h a :
  input_assigned i -> slot_assigned (sig_Tree sg) -> fe (sig_Nullifier sg) ->
  sig_IsCompact sg = Z.b2z compact -> default 0 (sig_SkipInclusion sg) = Z.b2z skip ->
  runs Q (constrainInput i sg) (h, a) ->
  input_sound i sg compact skip /\
  h = (if u_Domain (in_Utxo i) =? UtxoDomain then utxo_hash (in_Utxo i) (slot_ID (sig_Tree sg)) else 0) /\
  a = (if u_Domain (in_Utxo i) =? AddressDomain then sig_Nullifier sg else 0).
Proof.
  intros Hi Hslot Hn Ec Es Hr. pose proof (fe_Utxo i Hi) as Hu. unfold constrainInput in Hr.
  rewrite isUtxo_flag, isAddress_flag, isDummy_flag, content_flag, CheckDummy_flag, checkAddress_flag, Ec in Hr by done.
  set (u := in_Utxo i) in *. set (tree := sig_Tree sg) in *.
  cbind Hr as [] Hkind. cbind Hr as [] Hasset. cbind Hr as [] Hcompact. cbind Hr as uh Huh. cbind Hr as [] Hnon.
  cbind Hr as npk Hnpk. cbind Hr as oh Hoh. cbind Hr as [] Howner. cbind Hr as req Hreq. cbind Hr as inc Hinc.
  cbind Hr as [] Hincl. cbind Hr as [] Hdummy. cbind Hr as [] Hsecret. cbind Hr as [] Haddr.
  apply UtxoHashCircuit_runs in Huh as ->. apply runs_poseidon in Hnpk as [-> _], Hoh as [-> _]; [|simpl; lia..].
  apply runs_equal in Hkind; [|auto with field..]. apply kind_sum in Hkind. destruct Hslot, Hu.
  rewrite is_zero_b2z, zero_when in Hasset by auto with field. rewrite holds_when in Hcompact.
  rewrite is_zero_sub, holds_when in Howner by auto with field. rewrite holds_when in Hdummy, Haddr.
  rewrite zero_when in Hsecret by apply Hi. rewrite !forallb_zero in *.
  apply (requireInclusion_runs _ skip _ _ _ Es) in Hreq as ->.
  apply (checkInclusion_runs i _ _ _ Hi) in Hinc as (b & -> & Hb); [|done]. rewrite holds_when in Hincl.
  destruct (checkNonInclusion_sound i _ sg tt compact Hi ltac:(done) Hn Ec Hnon) as [Hnull Hfresh].
  apply runs_ret in Hr. rewrite !select_b2z in Hr. injection Hr as <- <-. split; [|done].
  rewrite !Z.eqb_eq in *. split; fold u tree.
  - done.
  - done.
  - intros E. by apply Hnull.
  - done.
  - intros Hd. symmetry. apply Howner. apply negb_true_iff. by apply Z.eqb_neq.
  - intros Hd E. specialize (Hasset Hd). rewrite E in Hasset. done.
  - intros Hd ->. apply Hb, Hincl. by rewrite (proj2 (Z.eqb_eq _ _) Hd).
  - intros Hd. destruct Hkind as [Hk|[Hk|Hk]]; [| |done].
    + specialize (Hdummy Hk). specialize (Hsecret Hk). rewrite !Forall_cons in Hdummy. unfold carries_nothing. tauto.
    + specialize (Haddr Hk). rewrite !Forall_cons in Haddr. unfold carries_nothing. tauto.
  - intros Hd. specialize (Hdummy Hd). rewrite !Forall_cons in Hdummy. tauto.
Qed.

End specs.
