(* ===== verification/TxBalance.v ===== *)
(** * Balance

    The balance check of the transaction circuit, over the integers: for every
    asset, what the inputs carry plus the public movement is what the outputs
    carry.  The check is done modulo the scalar field; the range checks bound the
    sums far below it, so nothing wraps. *)

From S2P Require Import Prelude ZeroBytes Hasher Gnark Gadgets GadgetSpecs SparseTree TxCircuit TxSpecs.

(** A field element as a signed amount. *)
Definition signed (x : Z) : Z := if x <? 2 ^ 64 then x else x - bn254_modulus.

(** The total of one asset. *)
Fixpoint total (asset : Z) (l : list (Z * Z)) : Z :=
  match l with
  | [] => 0
  | (a, v) :: l' => (if asset =? a then v else 0) + total asset l'
  end.

Lemma total_bounds asset l lo hi : lo <= 0 -> 0 <= hi -> Forall (fun '(_, v) => lo <= v <= hi) l ->
  lo * Z.of_nat (length l) <= total asset l <= hi * Z.of_nat (length l).
Proof.
  intros Hlo Hhi. induction 1 as [|[a v] l Hv _ IH]; cbn [total length]; [lia|]. destruct (asset =? a); nia.
Qed.

Lemma total_absent asset l : asset ∉ l.*1 -> total asset l = 0.
Proof.
  induction l as [|[a v] l IH]; cbn [total fmap list_fmap fst]; [done|]. intros [Hne Hnin]%not_elem_of_cons.
  rewrite (proj2 (Z.eqb_neq _ _) Hne), IH by done. done.
Qed.

Section balance.
Context {G : Gnark} {GL : GnarkLaws G} {H : CircuitHash} {HL : CircuitHashLaw H}.
Context (Q : list Z -> Prop).

Notation p := bn254_modulus.

Lemma sum_matching_spec asset start l : fe asset -> fe start -> Forall (fun '(a, v) => fe a /\ fe v) l ->
  sum_matching asset start l = (start + total asset l) mod p.
Proof.
  intros Ha Hstart Hl. revert start Hstart. induction Hl as [|[a v] l [Hfa Hfv] _ IH]; intros start Hstart; cbn [sum_matching foldl total].
  - rewrite Z.add_0_r. symmetry. by apply fe_id.
  - unfold sum_matching in IH. rewrite is_zero_sub, gate_b2z, IH by auto with field.
    rewrite add_law, Zplus_mod_idemp_l. f_equal. lia.
Qed.

Lemma signed_range x u : fe x -> runs Q (rangeCheckSigned64 x) u -> - 2 ^ 64 < signed x < 2 ^ 64.
Proof.
  intros Hx Hr. unfold rangeCheckSigned64 in Hr. cbind Hr as bs Hbs.
  apply runs_to_binary in Hbs as [Hlt _]; [|auto with field|unfold signedAmountBits, AmountBits; lia].
  apply runs_different in Hr; [|auto with field..]. rewrite add_law in *. change signedAmountOffset with (2 ^ 64) in *.
  change (2 ^ Z.of_nat signedAmountBits) with (2 ^ 65) in Hlt. unfold signed, fe in *. pose proof bn254_modulus_bounds.
  destruct (Z.ltb_spec x (2 ^ 64)); [lia|]. destruct (Z.lt_ge_cases (x + 2 ^ 64) p) as [Hsmall|Hbig].
  - rewrite Z.mod_small in Hlt by lia. lia.
  - assert ((x + 2 ^ 64) mod p = x + 2 ^ 64 - p) as E.
    { symmetry. apply Z.mod_unique with 1; lia. }
    rewrite E in *. lia.
Qed.

Lemma signed_mod x : signed x mod p = x mod p.
Proof. unfold signed. destruct (x <? 2 ^ 64); [done|]. replace (x - p) with (x + (-1) * p) by lia. apply Z_mod_plus_full. Qed.

Lemma total_signed asset assets amounts :
  total asset (zip assets (map signed amounts)) mod p = total asset (zip assets amounts) mod p.
Proof.
  revert amounts. induction assets as [|a assets IH]; intros [|v amounts]; cbn [zip zip_with map total]; try done.
  change (zip_with pair assets (map signed amounts)) with (zip assets (map signed amounts)).
  rewrite (Zplus_mod (if asset =? a then signed v else 0)), (Zplus_mod (if asset =? a then v else 0)), IH.
  do 2 f_equal. destruct (asset =? a); [apply signed_mod|done].
Qed.

Lemma range64 x u : fe x -> runs Q (rangeCheck64 x) u -> 0 <= x < 2 ^ 64.
Proof.
  intros Hx Hr. unfold rangeCheck64 in Hr. cbind Hr as bs Hbs.
  apply runs_to_binary in Hbs as [Hlt _]; [|done|unfold AmountBits; lia]. destruct Hx. by split.
Qed.

(** Integers of one residue within half the modulus of each other are equal. *)
Lemma mod_close x y : x mod p = y mod p -> - 2 ^ 250 < x - y < 2 ^ 250 -> x = y.
Proof.
  intros E Hb. pose proof bn254_modulus_bounds. pose proof (Z.div_mod x p). pose proof (Z.div_mod y p).
  assert (2 ^ 250 * 8 = 2 ^ 253) by reflexivity. assert (x - y = p * (x / p - y / p)) by lia.
  assert (-1 < x / p - y / p < 1) by nia. nia.
Qed.

Lemma asset_amounts_fe us : Forall utxo_assigned us -> Forall (fun '(a, v) => fe a /\ fe v) (asset_amounts us).
Proof. intros Hus. apply Forall_map. eapply Forall_impl; [exact Hus|]. by intros u []. Qed.

Lemma zip_fe l k : Forall fe l -> Forall fe k -> Forall (fun '(a, v) => fe a /\ fe v) (zip l k).
Proof.
  intros Hl. revert k. induction Hl as [|x l Hx _ IH]; intros [|y k] Hk; cbn [zip zip_with]; try constructor.
  - apply Forall_cons in Hk as [? _]. done.
  - apply Forall_cons in Hk as [_ ?]. by apply IH.
Qed.

Lemma zip_amounts {A} (P : Z -> Prop) (l : list A) k : Forall P k -> Forall (fun '(_, v) => P v) (zip l k).
Proof.
  revert k. induction l as [|x l IH]; intros [|y k] Hk; cbn [zip zip_with]; try constructor;
  apply Forall_cons in Hk as [? ?]; [done|by apply IH].
Qed.

(** ** Conservation *)

Definition utxo_total (asset : Z) (us : list UtxoCircuitFields) : Z := total asset (asset_amounts us).

Lemma amounts_in_range us : Forall utxo_assigned us -> Forall (fun u => runs Q (rangeCheck64 (u_Amount u)) tt) us ->
  Forall (fun u => 0 <= u_Amount u < 2 ^ 64) us.
Proof. intros Hus Hr. induction Hus as [|u us [] _ IH]; [constructor|]. apply Forall_cons in Hr as [? ?]. constructor; [by eapply range64|by apply IH]. Qed.

Lemma assets_of_utxos us : (asset_amounts us).*1 = map u_Asset us.
Proof. unfold asset_amounts. induction us; cbn; congruence. Qed.

Lemma fst_zip_in {A B} (l : list A) (k : list B) x : x ∈ (zip l k).*1 -> x ∈ l.
Proof.
  revert k. induction l as [|y l IH]; intros [|z k]; cbn [zip zip_with fmap list_fmap fst]; try by intros ?%elem_of_nil.
  intros [->|Hx]%elem_of_cons; [apply list_elem_of_here|]. apply list_elem_of_further. by eapply IH.
Qed.

Lemma total_amounts us asset : Forall (fun u => 0 <= u_Amount u < 2 ^ 64) us -> (length us <= 1000)%nat ->
  0 <= utxo_total asset us <= 2 ^ 64 * 1000.
Proof.
  intros Hus Hlen. unfold utxo_total. destruct (total_bounds asset (asset_amounts us) 0 (2 ^ 64)) as [? ?]; [lia|lia| |].
  - apply Forall_map. eapply Forall_impl; [exact Hus|]. simpl. lia.
  - unfold asset_amounts in *. rewrite length_map in *. lia.
Qed.

Lemma total_publics assets amounts asset : Forall (fun v => - 2 ^ 64 < signed v < 2 ^ 64) amounts -> (length amounts <= 1000)%nat ->
  - 2 ^ 64 * 1000 <= total asset (zip assets (map signed amounts)) <= 2 ^ 64 * 1000.
Proof.
  intros Hv Hlen. destruct (total_bounds asset (zip assets (map signed amounts)) (- 2 ^ 64) (2 ^ 64)) as [? ?]; [lia|lia| |].
  - apply (zip_amounts (fun v => - 2 ^ 64 <= v <= 2 ^ 64)). apply Forall_map. eapply Forall_impl; [exact Hv|]. simpl. lia.
  - rewrite length_zip_with, length_map in *. lia.
Qed.

(** The equation of one asset. *)
Lemma asset_balance_iff inputs outputs assets amounts asset :
  Forall utxo_assigned inputs -> Forall utxo_assigned outputs -> Forall fe assets -> Forall fe amounts ->
  Forall (fun u => 0 <= u_Amount u < 2 ^ 64) (inputs ++ outputs) -> Forall (fun v => - 2 ^ 64 < signed v < 2 ^ 64) amounts ->
  (length inputs <= 1000)%nat -> (length outputs <= 1000)%nat -> (length amounts <= 1000)%nat -> fe asset ->
  runs Q (AssertIsEqual (sum_matching asset (sum_matching asset 0 (asset_amounts inputs)) (zip assets amounts))
            (sum_matching asset 0 (asset_amounts outputs))) tt <->
  utxo_total asset inputs + total asset (zip assets (map signed amounts)) = utxo_total asset outputs.
Proof.
  intros Hi Ho Ha Hv [Hi64 Ho64]%Forall_app Hv64 Hli Hlo Hlv Hfe.
  pose proof (asset_amounts_fe _ Hi). pose proof (asset_amounts_fe _ Ho). pose proof (zip_fe _ _ Ha Hv).
  rewrite !(sum_matching_spec asset 0) by auto with field. rewrite sum_matching_spec by auto with field.
  rewrite runs_equal by auto with field. rewrite !Z.add_0_l, Zplus_mod_idemp_l.
  fold (utxo_total asset inputs) (utxo_total asset outputs).
  rewrite (Zplus_mod _ (total _ _)), <- total_signed, <- Zplus_mod. split; [|by intros ->].
  intros E. apply mod_close; [done|]. pose proof (total_amounts _ asset Hi64 Hli). pose proof (total_amounts _ asset Ho64 Hlo).
  pose proof (total_publics assets _ asset Hv64 Hlv). lia.
Qed.

Lemma listed_asset_fe inputs outputs assets asset : Forall utxo_assigned inputs -> Forall utxo_assigned outputs -> Forall fe assets ->
  asset ∈ map u_Asset inputs ++ map u_Asset outputs ++ assets -> fe asset.
Proof.
  intros Hi Ho Ha Hin. rewrite !elem_of_app in Hin. rewrite !Forall_forall in *. destruct Hin as [Hin|[Hin|Hin]]; [| |by apply Ha].
  - apply list_elem_of_fmap in Hin as (x & -> & Hx). apply (Hi x Hx).
  - apply list_elem_of_fmap in Hin as (x & -> & Hx). apply (Ho x Hx).
Qed.

Lemma balance_sound inputs outputs assets amounts u :
  Forall utxo_assigned inputs -> Forall utxo_assigned outputs -> Forall fe assets -> Forall fe amounts ->
  (length inputs <= 1000)%nat -> (length outputs <= 1000)%nat -> (length amounts <= 1000)%nat ->
  runs Q (assertBalanceConservation inputs outputs assets amounts) u ->
  (forall asset, utxo_total asset inputs + total asset (zip assets (map signed amounts)) = utxo_total asset outputs) /\
  Forall (fun u => 0 <= u_Amount u < 2 ^ 64) (inputs ++ outputs) /\
  Forall (fun v => - 2 ^ 64 < signed v < 2 ^ 64) amounts.
Proof.
  intros Hi Ho Ha Hv Hli Hlo Hlv Hr. unfold assertBalanceConservation in Hr.
  destruct (Nat.eqb_spec (length assets) (length amounts)) as [Hlen|]; [|by apply runs_panic in Hr]. cbn [negb] in Hr.
  cbind Hr as [] Hpub. cbind Hr as [] _H. cbind Hr as [] Hin. cbind Hr as [] Hout. rewrite runs_citer in Hpub, Hin, Hout, Hr.
  assert (Forall (fun u => 0 <= u_Amount u < 2 ^ 64) inputs) as Hin64 by by apply amounts_in_range.
  assert (Forall (fun u => 0 <= u_Amount u < 2 ^ 64) outputs) as Hout64 by by apply amounts_in_range.
  assert (Forall (fun v => - 2 ^ 64 < signed v < 2 ^ 64) amounts) as Hpub64.
  { apply Forall_lookup. intros k v Hk. destruct (assets !! k) as [a|] eqn:Ea.
    2:{ apply lookup_ge_None_1 in Ea. apply lookup_lt_Some in Hk. lia. }
    rewrite Forall_lookup in Hpub. specialize (Hpub k (a, v)). rewrite lookup_zip_with, Ea in Hpub. cbn in Hpub. rewrite Hk in Hpub.
    specialize (Hpub eq_refl). cbind Hpub as [] Hsigned. apply (signed_range v tt); [by eapply Forall_lookup_1|done]. }
  split_and!; [|by apply Forall_app|done]. intros asset.
  destruct (decide (asset ∈ map u_Asset inputs ++ map u_Asset outputs ++ assets)) as [Hin'|Hnin].
  - rewrite Forall_forall in Hr. specialize (Hr asset Hin').
    apply asset_balance_iff; try done; [by apply Forall_app|exact (listed_asset_fe _ _ _ _ Hi Ho Ha Hin')].
  - rewrite !not_elem_of_app in Hnin. destruct Hnin as (? & ? & Hnin). unfold utxo_total.
    rewrite !total_absent; [done|..]; first [by rewrite assets_of_utxos|by intros Hz%fst_zip_in].
Qed.

(** ** The gadget is exactly conservation *)

Lemma signed_range_iff x u : fe x -> runs Q (rangeCheckSigned64 x) u <-> - 2 ^ 64 < signed x < 2 ^ 64.
Proof.
  intros Hx. split; [by apply signed_range|]. intros Hs. unfold rangeCheckSigned64. apply runs_bind.
  exists (bits signedAmountBits (api_add x signedAmountOffset)). rewrite runs_to_binary, runs_different; [|auto with field..|unfold signedAmountBits, AmountBits; lia].
  rewrite add_law. change signedAmountOffset with (2 ^ 64). change (2 ^ Z.of_nat signedAmountBits) with (2 ^ 65).
  assert ((x + 2 ^ 64) mod p = signed x + 2 ^ 64) as ->; [|split; [split; [lia|done]|lia]].
  rewrite <- (Zplus_mod_idemp_l x), <- (signed_mod x), Zplus_mod_idemp_l. apply fe_id, (fe_small _ 65); lia.
Qed.

Lemma range64_iff x u : fe x -> runs Q (rangeCheck64 x) u <-> 0 <= x < 2 ^ 64.
Proof.
  intros Hx. split; [by apply range64|]. intros Hr. destruct u. unfold rangeCheck64. apply runs_bind. exists (bits AmountBits x).
  rewrite runs_ret, runs_to_binary; [|done|unfold AmountBits; lia]. change (2 ^ Z.of_nat AmountBits) with (2 ^ 64). naive_solver lia.
Qed.

(** What the gadget is to say of the assets and amounts. *)
Record conserved (inputs outputs : list UtxoCircuitFields) (assets amounts : list Z) : Prop := {
  cv_slots : length assets = length amounts;
  cv_public : Forall (fun '(asset, amount) => - 2 ^ 64 < signed amount < 2 ^ 64 /\ (amount = 0 -> asset = 0)) (zip assets amounts);
  cv_distinct : Forall (fun '((a1, v1), (a2, v2)) => v1 = 0 \/ v2 = 0 \/ a1 <> a2) (pairs (zip assets amounts));
  cv_amounts : Forall (fun u => 0 <= u_Amount u < 2 ^ 64) (inputs ++ outputs);
  cv_balance : forall asset, utxo_total asset inputs + total asset (zip assets (map signed amounts)) = utxo_total asset outputs;
}.

Lemma pairs_map {A B} (f : A -> B) l : pairs (map f l) = map (fun '(x, y) => (f x, f y)) (pairs l).
Proof.
  induction l as [|x l IH]; cbn [map pairs]; [done|]. rewrite IH, map_app, !map_map. done.
Qed.

Lemma zip_map_r {A B C} (f : B -> C) (l : list A) k : zip l (map f k) = map (fun '(a, b) => (a, f b)) (zip l k).
Proof. revert k. induction l as [|a l IH]; intros [|b k]; cbn [map zip zip_with]; [done..|]. f_equal. apply IH. Qed.

Lemma pairs_elem {A} (l : list A) x y : (x, y) ∈ pairs l -> x ∈ l /\ y ∈ l.
Proof.
  induction l as [|z l IH]; cbn [pairs]; [by intros ?%elem_of_nil|]. intros [Hin|Hin]%elem_of_app.
  - apply list_elem_of_fmap in Hin as (w & [= -> ->] & Hw). split; [apply list_elem_of_here|by apply list_elem_of_further].
  - apply IH in Hin as [? ?]. split; by apply list_elem_of_further.
Qed.
Lemma runs_seq {A} (m : circ unit) (k : circ A) a : runs Q (m;; k) a <-> runs Q m tt /\ runs Q k a.
Proof. rewrite runs_bind. split; [intros ([] & ? & ?)|intros [? ?]; exists tt]; done. Qed.

Lemma public_slot_iff asset amount : fe asset -> fe amount ->
  runs Q (rangeCheckSigned64 amount;; AssertZeroWhen (api_is_zero amount) asset) tt <->
  - 2 ^ 64 < signed amount < 2 ^ 64 /\ (amount = 0 -> asset = 0).
Proof.
  intros Ha Hv. rewrite runs_seq, signed_range_iff, is_zero_b2z by done. change AssertZeroWhen with assertZeroWhen.
  by rewrite zero_when, Z.eqb_eq.
Qed.

Lemma distinct_slots_iff a1 v1 a2 v2 : fe a1 -> fe v1 -> fe a2 -> fe v2 ->
  runs Q (AssertIsEqual (api_mul (api_mul (api_sub 1 (api_is_zero v1)) (api_sub 1 (api_is_zero v2))) (api_is_zero (api_sub a1 a2))) 0) tt <->
  v1 = 0 \/ v2 = 0 \/ a1 <> a2.
Proof.
  intros Ha1 Hv1 Ha2 Hv2. rewrite !is_zero_b2z, sub_zero, !not_b2z, !and_b2z, runs_equal by auto with field.
  destruct (Z.eqb_spec v1 0), (Z.eqb_spec v2 0), (Z.eqb_spec a1 a2); cbn; naive_solver.
Qed.

Lemma public_slots_iff assets amounts : Forall fe assets -> Forall fe amounts ->
  Forall (fun x => runs Q ((fun '(asset, amount) => rangeCheckSigned64 amount;; AssertZeroWhen (api_is_zero amount) asset) x) tt)
    (zip assets amounts) <->
  Forall (fun '(asset, amount) => - 2 ^ 64 < signed amount < 2 ^ 64 /\ (amount = 0 -> asset = 0)) (zip assets amounts).
Proof.
  intros Ha Hv. pose proof (zip_fe _ _ Ha Hv) as Hz. rewrite !Forall_forall in *.
  split; intros Hall [a v] Hin; destruct (Hz _ Hin); apply public_slot_iff; try done; exact (Hall (a, v) Hin).
Qed.

Lemma distinct_pairs_iff assets amounts : Forall fe assets -> Forall fe amounts ->
  Forall (fun x => runs Q ((fun '((a1, z1), (a2, z2)) =>
      let bothActive := api_mul (api_sub 1 z1) (api_sub 1 z2) in
      let sameAsset := api_is_zero (api_sub a1 a2) in
      AssertIsEqual (api_mul bothActive sameAsset) 0) x) tt) (pairs (zip assets (map api_is_zero amounts))) <->
  Forall (fun '((a1, v1), (a2, v2)) => v1 = 0 \/ v2 = 0 \/ a1 <> a2) (pairs (zip assets amounts)).
Proof.
  intros Ha Hv. pose proof (zip_fe _ _ Ha Hv) as Hz. rewrite zip_map_r, pairs_map, Forall_map, !Forall_forall in *.
  split; intros Hall [[a1 v1] [a2 v2]] Hin; destruct (pairs_elem _ _ _ Hin) as [H1 H2]; destruct (Hz _ H1), (Hz _ H2);
    apply distinct_slots_iff; try done; exact (Hall ((a1, v1), (a2, v2)) Hin).
Qed.

Lemma amounts_iff us : Forall utxo_assigned us ->
  Forall (fun u => runs Q (rangeCheck64 (u_Amount u)) tt) us <-> Forall (fun u => 0 <= u_Amount u < 2 ^ 64) us.
Proof.
  intros Hus. rewrite !Forall_forall in *. split; intros Hall u Hu.
  - apply (range64_iff _ tt); [apply (Hus u Hu)|by apply Hall].
  - apply range64_iff; [apply (Hus u Hu)|by apply Hall].
Qed.

Lemma public_amounts_range assets amounts : length assets = length amounts ->
  Forall (fun '(asset, amount) => - 2 ^ 64 < signed amount < 2 ^ 64 /\ (amount = 0 -> asset = 0)) (zip assets amounts) ->
  Forall (fun v => - 2 ^ 64 < signed v < 2 ^ 64) amounts.
Proof.
  revert amounts. induction assets as [|a assets IH]; intros [|v amounts] Hl Hz; try done.
  apply Forall_cons in Hz as [[? _] Hz]. constructor; [done|]. apply IH; [by injection Hl|done].
Qed.

(** C10. The balance gadget is satisfied exactly when value is conserved over the
    integers: amounts are u64s, public amounts are signed 65-bit numbers, an empty
    public slot names no asset, active slots name different assets, and for every
    asset the inputs and the public movement sum to the outputs.  The modular sums
    of the gadget cannot wrap. *)
Theorem balance_gadget_is_conservation (inputs outputs : list UtxoCircuitFields) (assets amounts : list Z) :
  Forall utxo_assigned inputs -> Forall utxo_assigned outputs -> Forall fe assets -> Forall fe amounts ->
  (length inputs <= 1000)%nat -> (length outputs <= 1000)%nat -> (length amounts <= 1000)%nat ->
  runs Q (assertBalanceConservation inputs outputs assets amounts) tt <-> conserved inputs outputs assets amounts.
Proof.
  intros Hi Ho Ha Hv Hli Hlo Hlv. unfold assertBalanceConservation.
  destruct (Nat.eqb_spec (length assets) (length amounts)) as [Hlen|Hne]; cbn [negb].
  2:{ rewrite runs_panic. split; [done|]. by intros []. }
  rewrite !runs_seq, !runs_citer, public_slots_iff, distinct_pairs_iff, !amounts_iff by done. split.
  - intros (Hpub & Hdist & Hin & Hout & Hbal).
    assert (Forall (fun v => - 2 ^ 64 < signed v < 2 ^ 64) amounts) as Hv64 by by eapply public_amounts_range.
    assert (Forall (fun u => 0 <= u_Amount u < 2 ^ 64) (inputs ++ outputs)) as H64 by by apply Forall_app.
    split; try done. intros asset.
    destruct (decide (asset ∈ map u_Asset inputs ++ map u_Asset outputs ++ assets)) as [Hin'|Hnin].
    + rewrite Forall_forall in Hbal. apply asset_balance_iff; try done; [exact (listed_asset_fe _ _ _ _ Hi Ho Ha Hin')|by apply Hbal].
    + rewrite !not_elem_of_app in Hnin. destruct Hnin as (? & ? & Hnin). unfold utxo_total.
      rewrite !total_absent; [done|..]; first [by rewrite assets_of_utxos|by intros Hz%fst_zip_in].
  - intros [_ Hpub Hdist H64 Hbal]. pose proof H64 as [Hin Hout]%Forall_app. split_and!; try done.
    assert (Forall (fun v => - 2 ^ 64 < signed v < 2 ^ 64) amounts) as Hv64 by by eapply public_amounts_range.
    apply Forall_forall. intros asset Hin'. apply asset_balance_iff; try done. exact (listed_asset_fe _ _ _ _ Hi Ho Ha Hin').
Qed.

End balance.
