(* ===== verification/TxSound.v ===== *)
(** * Soundness of the transaction circuit

    What a satisfied [Constrain] says of a transaction, in terms of its values:
    what each input spends and each output creates, that no nullifier repeats,
    that every asset is conserved, and which fields the public input commits to. *)

From S2P Require Import Prelude ZeroBytes Hasher PrimeField Gnark Gadgets GadgetSpecs SparseTree ChainSpecs TxCircuit TxSpecs TxBalance.

(** The tree slot the public flags give input [i]. *)
Definition tree_index (flags : Z) (i : nat) : nat :=
  Z.to_nat ((flags / 2 ^ Z.of_nat (1 + TreeIndexBits * i)) mod 2 ^ Z.of_nat TreeIndexBits).

Record cache_assigned (c : CachedInputs) : Prop := {
  ca_treeID : fe (cache_TreeID c);
  ca_chain : fe (ReadHashChain c);
  ca_hashes : Forall fe (ReadHashes c);
  ca_flags : Forall fe (IsCached c);
  ca_index : Forall fe (ReadIndex c);
}.

(** Every variable of a transaction holds a field element. *)
Record tx_assigned (t : Transaction) : Prop := {
  ta_inputs : Forall input_assigned (Inputs t);
  ta_outputs : Forall utxo_assigned (Outputs t);
  ta_slots : Forall slot_assigned (TreeSlots t);
  ta_nullifiers : Forall fe (Nullifiers t);
  ta_hashes : Forall fe (OutputHashes t);
  ta_outputTree : fe (OutputTreeID t);
  ta_assets : Forall fe (PublicAssets t);
  ta_amounts : Forall fe (PublicAmounts t);
  ta_flags : fe (InputFlags t);
  ta_private : fe (PrivateTxHash t);
  ta_external : fe (ExternalDataHash t);
  ta_ring : fe (RingProgramID t);
  ta_signers : fe (SignerPkHashChain t);
  ta_public : fe (PublicInputHash t);
  ta_after : Forall fe (PreimageAfterPrivateTxHash t);
  ta_tail : Forall fe (PreimageTail t);
  ta_cache : forall c, tx_CachedInputs t = Some c -> cache_assigned c;
}.

(** ** Lists *)

Lemma lookup_imap_pair {A} (l : list A) i x : l !! i = Some x -> imap pair l !! i = Some (i, x).
Proof. intros Hi. by rewrite list_lookup_imap, Hi. Qed.

Lemma lookup_pairs {A} (l : list A) i j x y : (i < j)%nat -> l !! i = Some x -> l !! j = Some y -> (x, y) ∈ pairs l.
Proof.
  revert i j. induction l as [|z l IH]; intros i j Hij Hi Hj; [done|]. destruct j as [|j]; [lia|]. cbn [pairs].
  apply elem_of_app. destruct i as [|i].
  - left. injection Hi as ->. apply list_elem_of_fmap. exists y. split; [done|]. by eapply list_elem_of_lookup_2.
  - right. apply (IH i j); [lia|done..].
Qed.

Section sound.
Context {G : Gnark} {GL : GnarkLaws G} {H : CircuitHash} {HL : CircuitHashLaw H}.
Context (Q : list Z -> Prop).

Lemma runs_imapM {A B} (f : nat -> A -> circ B) l k : runs Q (mapM (fun '(i, x) => f i x) (imap pair l)) k ->
  length k = length l /\ forall i x, l !! i = Some x -> exists y, k !! i = Some y /\ runs Q (f i x) y.
Proof.
  rewrite runs_mapM. intros Hk. split; [by rewrite <- (Forall2_length _ _ _ Hk), length_imap|].
  intros i x Hi. apply lookup_imap_pair in Hi. by destruct (Forall2_lookup_l _ _ _ _ _ Hk Hi) as (y & ? & ?); exists y.
Qed.

Lemma runs_iciter {A} (f : nat -> A -> circ unit) l u i x :
  runs Q (citer (fun '(i, x) => f i x) (imap pair l)) u -> l !! i = Some x -> runs Q (f i x) tt.
Proof.
  rewrite runs_citer. intros Hk Hi. apply lookup_imap_pair in Hi. exact (Forall_lookup_1 _ _ _ _ Hk Hi).
Qed.

Lemma compact_flag ns i n : Forall fe ns -> ns !! i = Some n -> CompactSlots ns !! i = Some (Z.b2z (n =? 0)).
Proof.
  intros Hns Hi. unfold CompactSlots. rewrite list_lookup_fmap, Hi. cbn. f_equal. apply is_zero_b2z. by eapply Forall_lookup_1.
Qed.

(** ** Inputs *)

(** Input [i] of a transaction spends what the public values say. *)
Definition spends (t : Transaction) (signers : list Z) (i : nat) (input : Input) : Prop :=
  exists nullifier signer slot skip flag,
    Nullifiers t !! i = Some nullifier /\ signers !! i = Some signer /\
    TreeSlots t !! tree_index (InputFlags t) i = Some slot /\ slot_NullifierRoot slot <> 0 /\
    match skipInclusion t with None => skip = None | Some l => l !! i = Some (Z.b2z flag) /\ skip = Some (Z.b2z flag) end /\
    (skip = None -> flag = false) /\
    input_sound Q input (mkSignals nullifier (Z.b2z (nullifier =? 0)) signer slot skip) (nullifier =? 0) flag.

Lemma tree_index_bits n flags i : 0 <= flags -> (i < n)%nat ->
  Z.to_nat (api_from_binary (take TreeIndexBits (drop (1 + TreeIndexBits * i) (bits (1 + TreeIndexBits * n) flags)))) = tree_index flags i.
Proof.
  intros Hf Hi. unfold TreeIndexBits in *. rewrite drop_bits, take_bits by (done || lia).
  rewrite from_binary_small by (apply bits_are_bits || rewrite length_bits; lia).
  rewrite bits_val_bits by (apply Z.div_pos; lia). done.
Qed.

Lemma constrain_slot_sound t signers n i input h a id :
  tx_assigned t -> (i < n)%nat -> (length (TreeSlots t) <= 64)%nat -> input_assigned input ->
  (forall l, skipInclusion t = Some l -> Forall (fun x => exists b, x = Z.b2z b) l) ->
  runs Q (constrain_slot t signers (bits (1 + TreeIndexBits * n) (InputFlags t)) (CompactSlots (Nullifiers t)) i input) (h, a, id) ->
  spends t signers i input /\
  exists slot, TreeSlots t !! tree_index (InputFlags t) i = Some slot /\ id = slot_ID slot /\
    h = if u_Domain (in_Utxo input) =? UtxoDomain then utxo_hash (in_Utxo input) id else 0.
Proof.
  intros Ht Hi Hslots Hin Hskip Hr. pose proof Ht as []. unfold constrain_slot in Hr.
  cbind Hr as allow _H. cbind Hr as compact Hc. cbind Hr as nullifier Hn. cbind Hr as signer Hs. cbind Hr as [] _H1.
  cbind Hr as [] Htree. cbind Hr as slot Hslot. cbind Hr as skip Hsk. cbind Hr as [h' a'] Hcon. apply runs_ret in Hr.
  injection Hr as -> -> <-. apply runs_clift in Hc, Hn, Hs. pose proof (Forall_lookup_1 _ _ _ _ ta_nullifiers0 Hn) as Hfn.
  rewrite (compact_flag _ _ _ ta_nullifiers0 Hn) in Hc. injection Hc as <-.
  apply SelectTreeSlot_sound in Hslot as (Hslot & Hnr & _); [|apply Hin|done|done].
  apply runs_equal in Htree; [|apply Hin|rewrite from_binary_law by (apply Forall_take, Forall_drop, bits_are_bits); auto with field].
  rewrite Htree, tree_index_bits in Hslot by (apply ta_flags0 || done).
  assert (exists flag, match skipInclusion t with None => skip = None | Some l => l !! i = Some (Z.b2z flag) /\ skip = Some (Z.b2z flag) end /\
    (skip = None -> flag = false) /\ default 0 skip = Z.b2z flag) as (flag & Hflag & Hnone & Hdef).
  { destruct (skipInclusion t) as [l|].
    - cbind Hsk as s Hl. apply runs_clift in Hl. apply runs_ret in Hsk as <-.
      destruct (Forall_lookup_1 _ _ _ _ (Hskip l eq_refl) Hl) as [b ->]. by exists b.
    - apply runs_ret in Hsk as <-. by exists false. }
  apply (constrainInput_sound Q input _ (nullifier =? 0) flag) in Hcon as (Hsound & -> & _);
    [|done|by eapply Forall_lookup_1|done|done|done].
  split; [|by exists slot]. exists nullifier, signer, slot, skip, flag. done.
Qed.

Lemma distinct_sound ns u i j x : Forall fe ns -> runs Q (AssertDistinctNullifiers ns (CompactSlots ns)) u ->
  i <> j -> ns !! i = Some x -> ns !! j = Some x -> x = 0.
Proof.
  intros Hns Hr. unfold AssertDistinctNullifiers in Hr. rewrite runs_citer, Forall_forall in Hr.
  assert (forall i j, (i < j)%nat -> ns !! i = Some x -> ns !! j = Some x -> x = 0) as Hlt.
  { intros i' j' Hij Hi Hj. pose proof (compact_flag _ _ _ Hns Hi) as Ci. pose proof (compact_flag _ _ _ Hns Hj) as Cj.
    specialize (Hr ((x, Z.b2z (x =? 0)), (x, Z.b2z (x =? 0)))). cbn beta iota in Hr.
    rewrite and_b2z, sub_law, Z.sub_diag, Zmod_0_l, add_b2z_zero in Hr by apply b2z_fe.
    rewrite runs_different in Hr by auto with field. destruct (Z.eqb_spec x 0); [done|]. exfalso. apply Hr; [|done].
    apply (lookup_pairs _ i' j'); [done|rewrite lookup_zip_with, Hi; cbn; by rewrite Ci|rewrite lookup_zip_with, Hj; cbn; by rewrite Cj]. }
  intros Hne Hi Hj. destruct (Nat.lt_total i j) as [Hl|[->|Hl]]; [by apply (Hlt i j)|done|by apply (Hlt j i)].
Qed.

(** ** Outputs *)

(** Output [i] of a transaction is what its public hash commits to. *)
Record creates (t : Transaction) (signed : list Z) (i : nat) (u : UtxoCircuitFields) : Prop := {
  out_kind : u_Domain u = DummyDomain \/ u_Domain u = UtxoDomain;
  out_hash : exists hash, OutputHashes t !! i = Some hash /\
    (hash = 0 -> u_Domain u = DummyDomain) /\ (hash <> 0 -> hash = utxo_hash u (OutputTreeID t));
  out_asset : u_Domain u = UtxoDomain -> u_Asset u <> 0;
  out_empty : u_Domain u = DummyDomain -> carries_nothing u /\ u_Owner u = 0;
  out_data : u_Domain u = UtxoDomain -> u_DataHash u <> 0 -> signed !! i <> Some 0;
}.

Lemma utxo_hash_fe u id : fe (utxo_hash u id).
Proof. apply poseidon_fe. Qed.

Lemma signed_when c s u : fe s -> runs Q (AssertWhen (Z.b2z c) s) u -> c = true -> s <> 0.
Proof.
  intros Hs Hr -> ->. unfold AssertWhen in Hr. change 0 with (Z.b2z false) in Hr. rewrite not_b2z in Hr.
  apply zero_when in Hr; [done|auto with field|done].
Qed.

Lemma constrain_output_sound t signed first seed i u h :
  tx_assigned t -> OutputIsCompact t = CompactSlots (OutputHashes t) -> Forall fe signed -> utxo_assigned u ->
  runs Q (constrain_output t signed first seed i u) h -> creates t signed i u.
Proof.
  intros Ht Ecompact Hsigned Hu Hr. pose proof Ht as []. unfold constrain_output in Hr. rewrite Ecompact in Hr.
  cbind Hr as hash Hh. cbind Hr as compact Hc. cbind Hr as sg Hs. cbind Hr as bl _H. cbind Hr as [] _H1.
  apply runs_clift in Hh, Hc, Hs. pose proof (Forall_lookup_1 _ _ _ _ ta_hashes0 Hh) as Hfh.
  pose proof (Forall_lookup_1 _ _ _ _ Hsigned Hs) as Hfs.
  rewrite (compact_flag _ _ _ ta_hashes0 Hh) in Hc. injection Hc as <-.
  unfold ConstrainOutput in Hr. rewrite isUtxo_flag, isDummy_flag, CheckDummy_flag in Hr by done.
  cbind Hr as [] Hkind. cbind Hr as [] Hasset. cbind Hr as [] Hdummy. cbind Hr as [] Hdata. cbind Hr as [] Hcompact.
  cbind Hr as uh Huh. cbind Hr as [] Heq. apply UtxoHashCircuit_runs in Huh as ->. pose proof Hu as [].
  apply runs_equal in Hkind; [|auto with field..].
  assert (u_Domain u = DummyDomain \/ u_Domain u = UtxoDomain) as Hk.
  { rewrite add_law in Hkind. destruct (Z.eqb_spec (u_Domain u) UtxoDomain), (Z.eqb_spec (u_Domain u) DummyDomain); (tauto || done). }
  rewrite is_zero_b2z, zero_when in Hasset by auto with field. rewrite holds_when, forallb_zero in Hdummy.
  rewrite is_zero_b2z, not_b2z, and_b2z in Hdata by done. rewrite holds_when in Hcompact.
  rewrite not_b2z, equal_when in Heq by (done || apply utxo_hash_fe). rewrite !Z.eqb_eq in *. split.
  - done.
  - exists hash. split_and!; [done|done|]. intros Hne. symmetry. apply Heq, negb_true_iff. by apply Z.eqb_neq.
  - intros Hd E. specialize (Hasset Hd). by rewrite E in Hasset.
  - intros Hd. specialize (Hdummy Hd). rewrite !Forall_cons in Hdummy. unfold carries_nothing. tauto.
  - intros Hd Hne. rewrite Hs. intros [= ->]. apply (signed_when _ _ _ Hfs Hdata); [|done].
    apply andb_true_iff. split; [by apply Z.eqb_eq|]. by apply negb_true_iff, Z.eqb_neq.
Qed.

(** ** Cached inputs *)

Lemma selectReadHash_sound s hashes h : fe s -> Forall fe hashes -> (length hashes <= 1000)%nat ->
  runs Q (selectReadHash s hashes) h -> h ∈ hashes.
Proof.
  intros Hs Hh Hlen Hr. unfold selectReadHash in Hr.
  assert (forall k hits sel, Z.of_nat (k + length hashes) < 2 ^ 64 -> fe hits -> fe sel ->
    let r := foldl (fun '(hits, selected) '(k, hash) =>
      let hit := api_is_zero (api_sub s (Z.of_nat k)) in
      (api_add hits hit, api_add selected (api_mul hit hash))) (hits, sel) (imap (fun i x => ((k + i)%nat, x)) hashes) in
    (s < Z.of_nat k -> r = (hits, sel)) /\
    (hits = 0 -> sel = 0 -> Z.of_nat k <= s -> r = (0, 0) \/ (r.1 = 1 /\ r.2 ∈ hashes))) as Hfold.
  { clear Hr Hlen. induction Hh as [|x hashes Hx _ IH]; intros k hits sel Hk Hhits Hsel.
    - cbn. split; [done|]. intros -> -> _. by left.
    - cbn [imap foldl length] in *. rewrite Nat.add_0_r. rewrite is_zero_sub by (done || apply fe_const; lia).
      rewrite gate_b2z by done. rewrite (imap_ext _ (fun i x => ((S k + i)%nat, x))) by (intros; simpl; f_equal; lia).
      destruct (Z.eqb_spec s (Z.of_nat k)) as [->|Hne]; cbn [Z.b2z].
      + split; [lia|]. intros -> -> _. rewrite !add_b2z_zero by auto with field.
        destruct (IH (S k) 1 x) as [IH1 _]; [lia|auto with field|done|]. right. rewrite IH1 by lia. split; [done|apply list_elem_of_here].
      + rewrite !add_zero_r by done. destruct (IH (S k) hits sel) as [IH1 IH2]; [lia|done..|].
        split; [intros; apply IH1; lia|]. intros E1 E2 Hle. destruct (IH2 E1 E2 ltac:(lia)) as [?|[? ?]]; [by left|right].
        split; [done|by apply list_elem_of_further]. }
  destruct (Hfold 0%nat 0 0) as [_ Hf]; [simpl; lia|auto with field..|]. specialize (Hf eq_refl eq_refl (proj1 Hs)).
  cbn [Nat.add] in Hf. change (imap (fun i x => (i, x)) hashes) with (imap pair hashes) in Hf.
  destruct (foldl _ _ _) as [hits sel]. cbind Hr as [] Hhit. apply runs_ret in Hr as <-.
  destruct Hf as [E|[_ ?]]; [|done]. injection E as -> ->. by apply runs_equal in Hhit; [|auto with field..].
Qed.

Lemma constrainCached_sound c t hashes ids u :
  cache_assigned c -> Forall input_assigned (Inputs t) -> Forall fe hashes -> Forall fe ids -> (length (ReadHashes c) <= 1000)%nat ->
  runs Q (constrainCached c t hashes ids) u ->
  runs Q (RightHashChain4 (ReadHashes c)) (ReadHashChain c) /\
  forall i input, IsCached c !! i = Some 1 -> Inputs t !! i = Some input ->
    u_Domain (in_Utxo input) = UtxoDomain /\ ids !! i = Some (cache_TreeID c) /\
    exists h, hashes !! i = Some h /\ h <> 0 /\ h ∈ ReadHashes c.
Proof.
  intros Hc Hin Hhs Hids Hlen Hr. pose proof Hc as []. unfold constrainCached in Hr. cbind Hr as [] Heach. cbind Hr as chain Hchain. split.
  - apply runs_equal in Hr as <-; [done| |done]. by eapply right_hash_chain_4_fe.
  - intros i input Hone Hi. apply (runs_iciter (fun i cached => _)) with (i := i) (x := 1) in Heach; [|done].
    cbind Heach as input' Hi'. cbind Heach as id Hid. cbind Heach as h Hh. cbind Heach as ri Hri.
    cbind Heach as [] Hutxo. cbind Heach as [] Htree. cbind Heach as [] Hnz. cbind Heach as rd Hrd.
    apply runs_clift in Hi', Hid, Hh, Hri. rewrite Hi in Hi'. injection Hi' as <-.
    pose proof (Forall_lookup_1 _ _ _ _ Hin Hi) as [[]]. pose proof (Forall_lookup_1 _ _ _ _ Hids Hid).
    pose proof (Forall_lookup_1 _ _ _ _ Hhs Hh). pose proof (Forall_lookup_1 _ _ _ _ ca_index0 Hri).
    apply selectReadHash_sound in Hrd; [|done..]. assert (fe rd) by (rewrite Forall_forall in ca_hashes0; auto).
    rewrite is_zero_sub in Hutxo, Htree, Heach by (done || by apply fe_const). rewrite is_zero_b2z, not_b2z in Hnz by done.
    change 1 with (Z.b2z true) in Hutxo, Htree, Hnz, Heach. rewrite holds_when in Hutxo, Htree, Hnz, Heach.
    rewrite negb_true_iff, Z.eqb_neq in Hnz. rewrite !Z.eqb_eq in *.
    split_and!; [auto|by rewrite Hid, Htree|]. exists h. split_and!; [done|auto|]. by rewrite Heach.
Qed.

(** What the results of the slots say of each input. *)
Definition slot_results (t : Transaction) (results : list (Z * Z * Z)) : Prop :=
  length results = length (Inputs t) /\
  forall i input, Inputs t !! i = Some input ->
    exists h a slot, results !! i = Some (h, a, slot_ID slot) /\ TreeSlots t !! tree_index (InputFlags t) i = Some slot /\
      h = if u_Domain (in_Utxo input) =? UtxoDomain then utxo_hash (in_Utxo input) (slot_ID slot) else 0.

Lemma slot_results_fe t results : tx_assigned t -> slot_results t results ->
  Forall fe (map (fun '(h, _, _) => h) results) /\ Forall fe (map (fun '(_, _, id) => id) results).
Proof.
  intros [] [Hlen Hslots]. assert (Forall (fun '(h, a, id) => fe h /\ fe id) results) as Hfes.
  { apply Forall_lookup. intros i [[h a] id] Hi. destruct (Inputs t !! i) as [input|] eqn:Hinp.
    2:{ apply lookup_ge_None_1 in Hinp. apply lookup_lt_Some in Hi. lia. }
    destruct (Hslots i input Hinp) as (h' & a' & slot & Hres & Hslot & Eh). rewrite Hi in Hres. injection Hres as -> -> ->.
    pose proof (Forall_lookup_1 _ _ _ _ ta_slots0 Hslot) as []. split; [|done]. rewrite Eh.
    destruct (_ =? _); [apply utxo_hash_fe|auto with field]. }
  split; apply Forall_map; (eapply Forall_impl; [exact Hfes|]); by intros [[]] [].
Qed.

Lemma cached_sound t c results u : tx_assigned t -> slot_results t results -> tx_CachedInputs t = Some c ->
  (length (ReadHashes c) <= 1000)%nat ->
  runs Q (constrainCached c t (map (fun '(h, _, _) => h) results) (map (fun '(_, _, id) => id) results)) u ->
  runs Q (RightHashChain4 (ReadHashes c)) (ReadHashChain c) /\
  forall i input slot, IsCached c !! i = Some 1 -> Inputs t !! i = Some input ->
    TreeSlots t !! tree_index (InputFlags t) i = Some slot ->
    u_Domain (in_Utxo input) = UtxoDomain /\ slot_ID slot = cache_TreeID c /\
    utxo_hash (in_Utxo input) (slot_ID slot) ∈ ReadHashes c.
Proof.
  intros Ht Hres Hc Hlen Hr. pose proof (slot_results_fe t results Ht Hres) as [Hfh Hfi]. pose proof Ht as [].
  apply constrainCached_sound in Hr as [Hchain Hc1]; [|by apply ta_cache0|done..]. split; [done|].
  intros i input slot Hone Hi Hslot. destruct (Hc1 i input Hone Hi) as (Hd & Hid & h & Hh & _ & Hin).
  destruct (proj2 Hres i input Hi) as (h' & a' & slot' & Hri & Hslot' & Eh). rewrite Hslot in Hslot'. injection Hslot' as <-.
  change (map ?f results) with (f <$> results) in Hid, Hh. rewrite list_lookup_fmap, Hri in Hid, Hh.
  injection Hid as Hid. injection Hh as <-. rewrite Hd in Eh. cbn in Eh. rewrite <- Eh. done.
Qed.

(** ** The transaction *)

(** The transaction the loops of [Constrain] see. *)
Definition prepared (t : Transaction) : Transaction :=
  match tx_CachedInputs t with Some c => with_cache c t | None => t end.

Record tx_sound (t : Transaction) (signers signed : list Z) : Prop := {
  ts_inputs : forall i input, Inputs t !! i = Some input -> spends t signers i input;
  ts_distinct : forall i j x, i <> j -> Nullifiers t !! i = Some x -> Nullifiers t !! j = Some x -> x = 0;
  ts_first : exists x, head (Nullifiers t) = Some x /\ x <> 0;
  ts_outputs : forall i u, Outputs t !! i = Some u -> creates t signed i u;
  ts_balance : forall asset, utxo_total asset (inputUtxos (Inputs t)) +
    total asset (zip (PublicAssets t) (map TxBalance.signed (PublicAmounts t))) = utxo_total asset (Outputs t);
  ts_amounts : Forall (fun u => 0 <= u_Amount u < 2 ^ 64) (inputUtxos (Inputs t) ++ Outputs t);
  ts_public_amounts : Forall (fun v => - 2 ^ 64 < TxBalance.signed v < 2 ^ 64) (PublicAmounts t);
  ts_cached : forall c, tx_CachedInputs t = Some c ->
    runs Q (RightHashChain4 (ReadHashes c)) (ReadHashChain c) /\
    forall i input slot, IsCached c !! i = Some 1 -> Inputs t !! i = Some input ->
      TreeSlots t !! tree_index (InputFlags t) i = Some slot ->
      u_Domain (in_Utxo input) = UtxoDomain /\ slot_ID slot = cache_TreeID c /\
      utxo_hash (in_Utxo input) (slot_ID slot) ∈ ReadHashes c;
  ts_public : exists pih, runs Q (publicInputHash t) pih /\ runs Q (AssertIsEqual (PublicInputHash t) pih) tt;
}.

Lemma layout_lengths t extra : ValidateLayout t extra = true ->
  length (Inputs t) = NInputs (tx_Shape t) /\ length (Nullifiers t) = NInputs (tx_Shape t) /\
  length (OutputHashes t) = NOutputs (tx_Shape t) /\ length (TreeSlots t) = InputTrees /\
  length (Outputs t) = NOutputs (tx_Shape t) /\
  (forall c, tx_CachedInputs t = Some c -> length (ReadHashes c) = NInputs (tx_Shape t) /\ length (IsCached c) = NInputs (tx_Shape t)) /\
  Forall (fun '(got, want) => got = want) extra.
Proof.
  unfold ValidateLayout, validateInputs, ValidateLength. rewrite !andb_true_iff, !forallb_app, !andb_true_iff.
  cbn [forallb]. rewrite !andb_true_iff, !Nat.eqb_eq. intros ([Hin _] & (Hn & Ho & _ & Hs & Hout & _) & Hc & He).
  split_and!; [done..| |].
  - intros c Ec. rewrite Ec in Hc. unfold lengthChecks in Hc. cbn [forallb] in Hc. rewrite !andb_true_iff, !Nat.eqb_eq in Hc. tauto.
  - apply Forall_forall. intros [got want] Hg. rewrite forallb_forall in He. apply Nat.eqb_eq, (He (got, want)). by apply list_elem_of_In.
Qed.

Lemma prepared_assigned t : tx_assigned t -> tx_assigned (prepared t).
Proof.
  intros Ht. unfold prepared. destruct (tx_CachedInputs t) as [c|] eqn:Ec; [|done]. pose proof Ht as [].
  destruct (ta_cache0 c Ec). split; try done. apply Forall_app. split; [done|]. by repeat (apply Forall_cons; split).
Qed.

(** What precedes the loops: the transaction is prepared and its flags are bits. *)
Lemma prepare_runs t t' : tx_assigned t -> skipInclusion t = None ->
  runs Q (match tx_CachedInputs t with Some c => prepare c t | None => cret t end) t' ->
  t' = prepared t /\ (forall l, skipInclusion t' = Some l -> Forall (fun x => exists b, x = Z.b2z b) l).
Proof.
  intros Ht Hskip Hr. pose proof Ht as []. unfold prepared. destruct (tx_CachedInputs t) as [c|] eqn:Ec.
  - unfold prepare in Hr. cbind Hr as [] Hb. cbind Hr as bs _H. apply runs_ret in Hr as <-. split; [done|].
    intros l [= <-]. rewrite runs_citer in Hb. destruct (ta_cache0 c eq_refl). 
    induction ca_flags0 as [|x l Hx _ IH]; [constructor|]. apply Forall_cons in Hb as [Hx' Hl]. constructor; [|by apply IH].
    by apply runs_boolean in Hx'.
  - apply runs_ret in Hr as <-. split; [done|]. by rewrite Hskip.
Qed.

Lemma slots_sound t signers n results :
  tx_assigned t -> length (Inputs t) = n -> (length (TreeSlots t) <= 64)%nat ->
  (forall l, skipInclusion t = Some l -> Forall (fun x => exists b, x = Z.b2z b) l) ->
  runs Q (mapM (fun '(i, input) => constrain_slot t signers (bits (1 + TreeIndexBits * n) (InputFlags t)) (CompactSlots (Nullifiers t)) i input)
    (imap pair (Inputs t))) results ->
  slot_results t results /\ forall i input, Inputs t !! i = Some input -> spends t signers i input.
Proof.
  intros Ht Hn Hslots Hskip Hr. apply runs_imapM in Hr as [Hlen Hr]. unfold slot_results.
  enough (forall i input, Inputs t !! i = Some input -> spends t signers i input /\
    exists h a slot, results !! i = Some (h, a, slot_ID slot) /\ TreeSlots t !! tree_index (InputFlags t) i = Some slot /\
      h = if u_Domain (in_Utxo input) =? UtxoDomain then utxo_hash (in_Utxo input) (slot_ID slot) else 0) as Hall.
  { split_and!; [done|..]; intros i input Hi; by apply Hall. }
  intros i input Hi.
  destruct (Hr i input Hi) as ([[h a] id] & Hres & Hrun). pose proof (lookup_lt_Some _ _ _ Hi).
  apply constrain_slot_sound in Hrun as (Hspends & slot & Hslot & -> & ->);
    [|done|lia|done|by eapply Forall_lookup_1; [apply ta_inputs|]|done].
  split; [done|]. by exists (if u_Domain (in_Utxo input) =? UtxoDomain then utxo_hash (in_Utxo input) (slot_ID slot) else 0), a, slot.
Qed.

Lemma Constrain_sound t signers signed extra u :
  tx_assigned t -> skipInclusion t = None -> OutputIsCompact t = CompactSlots (OutputHashes t) -> Forall fe signed ->
  (NInputs (tx_Shape t) <= 80)%nat -> (NOutputs (tx_Shape t) <= 1000)%nat -> (length (PublicAmounts t) <= 1000)%nat ->
  ValidateLayout t extra = true ->
  runs Q (Constrain t signers signed) u -> tx_sound (prepared t) signers signed.
Proof.
  destruct u. intros Ht Hskip Ecompact Hsigned Hni Hno Hnp Hlayout Hr. apply layout_lengths in Hlayout as (Hl1 & Hl2 & Hl3 & Hl4 & Hl5 & Hl6 & _).
  unfold Constrain in Hr. destruct (negb _); [by apply runs_panic in Hr|]. destruct (negb _); [by apply runs_panic in Hr|].
  cbind Hr as t' Hprep. apply prepare_runs in Hprep as [-> Hbits]; [|done..].
  assert (Inputs (prepared t) = Inputs t /\ Outputs (prepared t) = Outputs t /\ TreeSlots (prepared t) = TreeSlots t /\
    tx_Shape (prepared t) = tx_Shape t /\ PublicAmounts (prepared t) = PublicAmounts t /\ tx_CachedInputs (prepared t) = tx_CachedInputs t /\
    OutputIsCompact (prepared t) = CompactSlots (OutputHashes (prepared t))) as (E1 & E2 & E3 & E4 & E5 & E6 & E7).
  { unfold prepared. destruct (tx_CachedInputs t) eqn:Ec; by split_and!. }
  apply prepared_assigned in Ht as Hp. remember (prepared t) as p eqn:Ep. clear Ep.
  rewrite <- E4 in Hni, Hno, Hl1, Hl5, Hl6. rewrite <- E1 in Hl1. rewrite <- E2 in Hl5. rewrite <- E3 in Hl4. rewrite <- E5 in Hnp. rewrite <- E6 in Hl6.
  clear dependent t.
  pose proof Hp as []. cbind Hr as flagBits Hfb.
  apply runs_to_binary in Hfb as [_ ->]; [|done|unfold TreeIndexBits; lia].
  cbind Hr as results Hres. apply slots_sound in Hres as [Hres Hslots]; [|done|done|rewrite Hl4; unfold InputTrees; lia|done].
  cbind Hr as [] Hcached. cbind Hr as [] Hdist. cbind Hr as [] _H1. cbind Hr as first Hfirst. cbind Hr as [] Hnz.
  cbind Hr as seed _H2. cbind Hr as outs Houts. cbind Hr as [] _H3. cbind Hr as [] Hbal. cbind Hr as bl _H4.
  cbind Hr as ptx _H5. cbind Hr as [] _H6. cbind Hr as pih Hpih. apply runs_clift in Hfirst.
  apply balance_sound in Hbal as (Hbal & Hamounts & Hpub);
    [|by apply Forall_map; eapply Forall_impl; [exact ta_inputs0|]; intros x []|done|done|done
     |unfold inputUtxos; rewrite length_map; lia|lia|done].
  apply runs_imapM in Houts as [_ Houts]. split; try done.
  - intros i j x. by eapply distinct_sound.
  - exists first. split; [done|]. apply runs_different in Hnz; [done| |auto with field].
    destruct (Nullifiers p); [done|]. injection Hfirst as ->. by apply Forall_cons in ta_nullifiers0 as [? _].
  - intros i o Ho. destruct (Houts i o Ho) as (h & _ & Hrun). eapply constrain_output_sound; [done|done|done| |done].
    by eapply Forall_lookup_1.
  - intros c Hc. rewrite Hc in Hcached. destruct (Hl6 c Hc) as [Hrl _]. eapply cached_sound; [done..|lia|done].
  - by exists pih.
Qed.

End sound.
