(* ===== verification/TxVariants.v ===== *)
(** * The variants of the transaction circuit

    prover/server/circuits/spp_transaction/default and custom: the five circuits a
    transact can name.  Each owns its witness, asserts its ring rule and its owner
    tags, resolves who signed, and hands the rest to [Constrain].  The signature
    gadget of circuits/crypto/ed25519 is a parameter: no property here depends on what it
    proves. *)

From S2P Require Import Prelude Hasher Gnark Gadgets TxCircuit.

(** The witness fields every variant declares: the [Public] and [Private] structs
    agree on them. *)
Record Witness : Type := mkWitness {
  w_Nullifiers : list Z;
  w_OutputHashes : list Z;
  w_TreeSlots : list TreeSlot;
  w_OutputTreeID : Z;
  w_PrivateTxHash : Z;
  w_ExternalDataHash : Z;
  w_PublicAssets : list Z;
  w_PublicAmounts : list Z;
  w_InputFlags : Z;
  w_SignerPkHashes : list Z;
  w_PublicInputHash : Z;
  w_Inputs : list Input;
  w_InputOwnerPkHashes : list Z;
  w_Outputs : list UtxoCircuitFields;
  w_BlindingSeed : Z;
}.

Record DefaultRingConfidentialEddsaCircuit : Type := mkDefaultEddsa {
  de_Shape : Shape;
  de_CachedInputs : CachedInputs;
  de_Witness : Witness;
  de_OutputOwnerPkHashes : list Z;
  de_OutputNullifierPks : list Z;
}.

Record DefaultRingConfidentialInCircuitEddsaCircuit : Type := mkInCircuitEddsa {
  ic_Shape : Shape;
  ic_CachedInputs : CachedInputs;
  ic_NSigners : nat;
  ic_Witness : Witness;
  ic_MessageHashLow : Z;
  ic_MessageHashHigh : Z;
  ic_OutputOwnerPkHashes : list Z;
  ic_OutputNullifierPks : list Z;
  ic_OwnerPublicKeys : list (list Z);
  ic_OwnerSignatures : list (list Z);
}.

Record CustomRingConfidentialEddsaCircuit : Type := mkCustomEddsa {
  ce_Shape : Shape;
  ce_CachedInputs : CachedInputs;
  ce_Witness : Witness;
  ce_RingProgramID : Z;
  ce_PublishedOutputOwnerPkHashes : list Z;
  ce_OutputOwnerPkHashes : list Z;
  ce_OutputNullifierPks : list Z;
}.

Record CustomRingAnonymousEddsaCircuit : Type := mkAnonymousEddsa {
  an_Shape : Shape;
  an_CachedInputs : CachedInputs;
  an_Witness : Witness;
  an_RingProgramID : Z;
  an_MessageHashLow : Z;
  an_MessageHashHigh : Z;
  an_DefaultOwnerPkHash : Z;
  an_PublishedOutputOwnerPkHashes : list Z;
  an_OutputOwnerPkHashes : list Z;
  an_OutputNullifierPks : list Z;
  an_OwnerPublicKey : list Z;
  an_OwnerSignature : list Z;
}.

Record CustomRingAuthorityCircuit : Type := mkAuthority {
  au_Shape : Shape;
  au_Witness : Witness;
  au_RingProgramID : Z;
}.

Definition messageLimbBits : nat := 128.

(** The signature gadget: key, signature and message bytes to the key it returns. *)
Class Ed25519Gadget : Type := ed25519_Verify : list Z -> list Z -> list Z -> circ (list Z).

Section variants.
Context {G : Gnark} {H : CircuitHash} {E : Ed25519Gadget}.

(** The transaction over a variant's witness. *)
Definition witness_transaction (shape : Shape) (cached : option CachedInputs) (w : Witness) (ringProgramID signerChain : Z)
    (afterPrivateTxHash tail : list Z) : Transaction :=
  mkTransaction shape cached (w_Nullifiers w) (w_OutputHashes w) (CompactSlots (w_OutputHashes w)) (w_TreeSlots w)
    (w_OutputTreeID w) (w_Inputs w) (w_Outputs w) (w_BlindingSeed w) (w_PrivateTxHash w) (w_ExternalDataHash w)
    (w_PublicAssets w) (w_PublicAmounts w) ringProgramID signerChain (w_InputFlags w) (w_PublicInputHash w)
    afterPrivateTxHash tail None.

(** ** default/confidential_eddsa.go *)

Definition default_transaction (c : DefaultRingConfidentialEddsaCircuit) : circ Transaction :=
  signerChain ← RightHashChain (w_SignerPkHashes (de_Witness c));
  ownerChain ← RightHashChain4 (de_OutputOwnerPkHashes c);
  cret (witness_transaction (de_Shape c) (Some (de_CachedInputs c)) (de_Witness c) 0 signerChain [] [ownerChain]).

Definition default_Define (c : DefaultRingConfidentialEddsaCircuit) : circ unit :=
  let w := de_Witness c in
  tx ← default_transaction c;
  if negb (ValidateLayout tx
       [(length (w_SignerPkHashes w), SignerWidth (de_Shape c)); (length (w_InputOwnerPkHashes w), NInputs (de_Shape c));
        (length (de_OutputOwnerPkHashes c), NOutputs (de_Shape c)); (length (de_OutputNullifierPks c), NOutputs (de_Shape c))])
  then cpanic else
  AssertInDefaultRing (Inputs tx) (Outputs tx);;
  let authorized := w_SignerPkHashes w in
  inputOwners ← AuthorizedEddsaInputOwners (Inputs tx) (w_InputOwnerPkHashes w) authorized;
  AssertOutputOwnerTags (Outputs tx) (de_OutputOwnerPkHashes c) (de_OutputNullifierPks c);;
  let outputPubkeyIsSigner := ContainsEach authorized (de_OutputOwnerPkHashes c) in
  AssertDummyTags (Inputs tx) (Outputs tx) (OutputIsCompact tx) None (Some (de_OutputOwnerPkHashes c)) authorized;;
  Constrain tx inputOwners outputPubkeyIsSigner.

(** ** custom/anonymous_eddsa.go: the owner's signature *)

Definition bytes32FromBits (bs : list Z) : list Z :=
  reverse (map (fun i => api_from_binary (take 8 (drop (i * 8) bs))) (seq 0 32)).

Definition OwnerAuthorization (messageHashLow messageHashHigh : Z) (publicKey signature : list Z) : circ (Z * Z) :=
  low ← ToBinary messageHashLow messageLimbBits;
  high ← ToBinary messageHashHigh messageLimbBits;
  let messageBytes := bytes32FromBits (low ++ high) in
  key ← ed25519_Verify publicKey signature messageBytes;
  identity ← SolanaOwnerIdentityBounded key;
  messageHash ← HashBoundedBytes messageBytes;
  cret (identity, messageHash).

(** ** default/confidential_in_circuit_eddsa.go *)

Definition in_circuit_transaction (c : DefaultRingConfidentialInCircuitEddsaCircuit) (owners : list Z) (messageHash : Z) : circ Transaction :=
  signerChain ← RightHashChain (w_SignerPkHashes (ic_Witness c));
  ownersChain ← RightHashChain4 owners;
  ownerChain ← RightHashChain4 (ic_OutputOwnerPkHashes c);
  cret (witness_transaction (ic_Shape c) (Some (ic_CachedInputs c)) (ic_Witness c) 0 signerChain
    [messageHash; ownersChain] [ownerChain]).

Definition in_circuit_Define (c : DefaultRingConfidentialInCircuitEddsaCircuit) : circ unit :=
  let w := ic_Witness c in
  if negb (ValidateLength (length (ic_OwnerPublicKeys c)) (ic_NSigners c)) then cpanic else
  if negb (ValidateLength (length (ic_OwnerSignatures c)) (ic_NSigners c)) then cpanic else
  authorizations ← mapM (fun '(key, signature) =>
    OwnerAuthorization (ic_MessageHashLow c) (ic_MessageHashHigh c) key signature)
    (zip (ic_OwnerPublicKeys c) (ic_OwnerSignatures c));
  let owners := map fst authorizations in
  messageHash ← clift (last (map snd authorizations));
  tx ← in_circuit_transaction c owners messageHash;
  if negb (ValidateLayout tx
       [(length (w_SignerPkHashes w), SignerWidth (ic_Shape c)); (length (w_InputOwnerPkHashes w), NInputs (ic_Shape c));
        (length (ic_OutputOwnerPkHashes c), NOutputs (ic_Shape c)); (length (ic_OutputNullifierPks c), NOutputs (ic_Shape c))])
  then cpanic else
  AssertInDefaultRing (Inputs tx) (Outputs tx);;
  let authorized := w_SignerPkHashes w ++ owners in
  inputOwners ← AuthorizedEddsaInputOwners (Inputs tx) (w_InputOwnerPkHashes w) authorized;
  AssertOutputOwnerTags (Outputs tx) (ic_OutputOwnerPkHashes c) (ic_OutputNullifierPks c);;
  let outputPubkeyIsSigner := ContainsEach authorized (ic_OutputOwnerPkHashes c) in
  AssertDummyTags (Inputs tx) (Outputs tx) (OutputIsCompact tx) None (Some (ic_OutputOwnerPkHashes c)) authorized;;
  Constrain tx inputOwners outputPubkeyIsSigner.

(** ** custom/confidential_eddsa.go *)

Definition custom_transaction (c : CustomRingConfidentialEddsaCircuit) : circ Transaction :=
  signerChain ← RightHashChain (w_SignerPkHashes (ce_Witness c));
  ownerChain ← RightHashChain4 (ce_PublishedOutputOwnerPkHashes c);
  cret (witness_transaction (ce_Shape c) (Some (ce_CachedInputs c)) (ce_Witness c) (ce_RingProgramID c) signerChain [] [ownerChain]).

Definition custom_Define (c : CustomRingConfidentialEddsaCircuit) : circ unit :=
  let w := ce_Witness c in
  tx ← custom_transaction c;
  if negb (ValidateLayout tx
       [(length (w_SignerPkHashes w), SignerWidth (ce_Shape c)); (length (w_InputOwnerPkHashes w), NInputs (ce_Shape c));
        (length (ce_OutputOwnerPkHashes c), NOutputs (ce_Shape c)); (length (ce_OutputNullifierPks c), NOutputs (ce_Shape c));
        (length (ce_PublishedOutputOwnerPkHashes c), NOutputs (ce_Shape c))])
  then cpanic else
  AssertRingMemberOrFree (Inputs tx) (Outputs tx) (ce_RingProgramID c);;
  AssertIsDifferent (ce_RingProgramID c) 0;;
  AssertOutputOwnerTags (Outputs tx) (ce_OutputOwnerPkHashes c) (ce_OutputNullifierPks c);;
  let authorized := w_SignerPkHashes w in
  inputOwners ← AuthorizedEddsaInputOwners (Inputs tx) (w_InputOwnerPkHashes w) authorized;
  let outputPubkeyIsSigner := ContainsEach authorized (ce_OutputOwnerPkHashes c) in
  AssertPublishedOutputOwners (Outputs tx) (ce_OutputOwnerPkHashes c) (ce_PublishedOutputOwnerPkHashes c);;
  AssertMaskedDummyOutputTags (Outputs tx) (OutputIsCompact tx) (ce_PublishedOutputOwnerPkHashes c) authorized;;
  Constrain tx inputOwners outputPubkeyIsSigner.

(** ** custom/anonymous_eddsa.go *)

Definition anonymous_transaction (c : CustomRingAnonymousEddsaCircuit) (messageHash : Z) : circ Transaction :=
  signerChain ← RightHashChain (w_SignerPkHashes (an_Witness c));
  ownerChain ← RightHashChain4 (an_PublishedOutputOwnerPkHashes c);
  cret (witness_transaction (an_Shape c) (Some (an_CachedInputs c)) (an_Witness c) (an_RingProgramID c) signerChain
    [messageHash; an_DefaultOwnerPkHash c] [ownerChain]).

Definition anonymous_Define (c : CustomRingAnonymousEddsaCircuit) : circ unit :=
  let w := an_Witness c in
  '(hiddenOwner, messageHash) ← OwnerAuthorization (an_MessageHashLow c) (an_MessageHashHigh c) (an_OwnerPublicKey c) (an_OwnerSignature c);
  tx ← anonymous_transaction c messageHash;
  if negb (ValidateLayout tx
       [(length (w_SignerPkHashes w), SignerWidth (an_Shape c)); (length (w_InputOwnerPkHashes w), NInputs (an_Shape c));
        (length (an_OutputOwnerPkHashes c), NOutputs (an_Shape c)); (length (an_OutputNullifierPks c), NOutputs (an_Shape c));
        (length (an_PublishedOutputOwnerPkHashes c), NOutputs (an_Shape c))])
  then cpanic else
  AssertRingMemberOrFree (Inputs tx) (Outputs tx) (an_RingProgramID c);;
  AssertIsDifferent (an_RingProgramID c) 0;;
  AssertOutputOwnerTags (Outputs tx) (an_OutputOwnerPkHashes c) (an_OutputNullifierPks c);;
  let authorizedEddsa := w_SignerPkHashes w in
  citer (fun signer => AssertIsDifferent signer hiddenOwner) authorizedEddsa;;
  inputOwners ← HiddenOwnerSigners (Inputs tx) (w_InputOwnerPkHashes w) authorizedEddsa hiddenOwner 1;
  AssertDefaultHiddenOwner (Inputs tx) (w_InputOwnerPkHashes w) (an_PublishedOutputOwnerPkHashes c) hiddenOwner (an_DefaultOwnerPkHash c);;
  let authorized := authorizedEddsa ++ [hiddenOwner] in
  let outputPubkeyIsSigner := ContainsEach authorized (an_OutputOwnerPkHashes c) in
  AssertPublishedOutputOwners (Outputs tx) (an_OutputOwnerPkHashes c) (an_PublishedOutputOwnerPkHashes c);;
  let dummyIdentities := authorizedEddsa ++ [an_DefaultOwnerPkHash c] in
  AssertMaskedDummyOutputTags (Outputs tx) (OutputIsCompact tx) (an_PublishedOutputOwnerPkHashes c) dummyIdentities;;
  Constrain tx inputOwners outputPubkeyIsSigner.

(** ** custom/authority.go *)

Definition authority_transaction (c : CustomRingAuthorityCircuit) : circ Transaction :=
  signerChain ← RightHashChain (w_SignerPkHashes (au_Witness c));
  cret (witness_transaction (au_Shape c) None (au_Witness c) (au_RingProgramID c) signerChain [] []).

Definition authority_Define (c : CustomRingAuthorityCircuit) : circ unit :=
  let w := au_Witness c in
  tx ← authority_transaction c;
  if negb (ValidateLayout tx
       [(length (w_SignerPkHashes w), 1%nat); (length (w_InputOwnerPkHashes w), NInputs (au_Shape c))])
  then cpanic else
  citer (fun input => AssertIsDifferent (u_Domain (in_Utxo input)) AddressDomain) (Inputs tx);;
  AssertRingMember (Inputs tx) (Outputs tx) (au_RingProgramID c);;
  AssertIsDifferent (au_RingProgramID c) 0;;
  signers ← ConfidentialEddsaSigners (Inputs tx) (w_InputOwnerPkHashes w);
  Constrain tx signers (ContainsEach (SignerOwners (Inputs tx)) (OutputOwners (Outputs tx))).

End variants.
