(* ===== verification/MergeCircuit.v ===== *)
(** * The merge circuits

    prover/server/circuits/spp_merge: many inputs of one owner and asset become one
    output.  The shared statement binds the published nullifiers and the output
    hash to the inputs; the default rail also publishes the owner's keys and an
    encryption of the output, the ring rail the ring and its data hash. *)

From S2P Require Import Prelude ZeroBytes Hasher Gnark Gadgets GadgetSpecs SparseTree ChainSpecs TxCircuit TxSpecs TxBalance TxSound.

Module Merging.

(** ** shared/transaction.go and shared/derivation.go *)

Definition SupportedInputCounts : list nat := [8; 24; 52]%nat.

Definition IsSupportedInputCount (n : nat) : bool := existsb (fun supported => (supported =? n)%nat) SupportedInputCounts.

Definition MergeOutputBlindingDomainV1 : Z := 0x544d4f42.
Definition MergeDummyNullifierDomain : Z := 0x544d444e.
Definition MergeOutputKeyDomain : Z := 0x544d4f4b.
Definition MergeOutputCiphertextDomain : Z := 0x544d4f43.

Record Input : Type := mkInput {
  m_Domain : Z;
  m_Amount : Z;
  m_Blinding : Z;
  m_RingDataHash : Z;
  m_StatePathElements : list Z;
  m_StatePathIndex : Z;
  m_TreeSlot : Z;
  m_NullifierLowValue : Z;
  m_NullifierNextValue : Z;
  m_NullifierLowPathElements : list Z;
  m_NullifierLowPathIndex : Z;
}.

(** [Output] has one field, the ring data hash. *)
Record Output : Type := mkOutput { o_RingDataHash : Z }.

Record CommonPublicInputs : Type := mkCommon {
  p_Nullifiers : list Z;
  p_OutputHash : Z;
  p_PrivateTxHash : Z;
  p_ExternalDataHash : Z;
  p_AllowDummyInputs : Z;
  p_TreeSlots : list TreeSlot;
  p_OutputTreeID : Z;
}.

Record Transaction : Type := mkTransaction {
  t_Inputs : list Input;
  t_Output : Output;
  t_MintChunks : Z * Z;
  t_OwnerPkHash : Z;
  t_UserNullifierPk : Z;
  t_UserNullifierSecret : Z;
  t_Public : CommonPublicInputs;
  t_RingProgramID : Z;
}.

Record Derived : Type := mkDerived {
  OutputAmount : Z;
  FirstNullifier : Z;
}.

Record mergeInputContext : Type := mkContext {
  ctx_OwnerHash : Z;
  ctx_NullifierSecret : Z;
  ctx_Asset : Z;
  ctx_RingProgramID : Z;
  ctx_FirstNullifier : Z;
}.

Definition ValidateLayout (t : Transaction) (numInputs : nat) : bool :=
  IsSupportedInputCount numInputs &&
  (length (t_Inputs t) =? numInputs)%nat &&
  forallb (fun '(got, want) => (got =? want)%nat)
    [(length (p_Nullifiers (t_Public t)), numInputs); (length (p_TreeSlots (t_Public t)), InputTrees)] &&
  forallb (fun i => (length (m_StatePathElements i) =? StateTreeHeight)%nat &&
                    (length (m_NullifierLowPathElements i) =? NullifierTreeHeight)%nat) (t_Inputs t).

Section circuit.
Context {G : Gnark} {H : CircuitHash}.

Definition MergeOutputBlinding (nullifierSecret firstNullifier : Z) : circ Z :=
  PoseidonHash [MergeOutputBlindingDomainV1; nullifierSecret; firstNullifier].

Definition MergeOutputKey (nullifierSecret firstNullifier : Z) : circ Z :=
  PoseidonHash [MergeOutputKeyDomain; nullifierSecret; firstNullifier].

Definition MergeOutputCiphertext (nullifierSecret firstNullifier salt amount : Z) (mint : Z * Z) : circ (list Z) :=
  key ← MergeOutputKey nullifierSecret firstNullifier;
  Encrypt MergeOutputCiphertextDomain key salt [amount; mint.1; mint.2].

Definition MergeDummyNullifier (nullifierSecret firstNullifier : Z) (slotIndex : nat) : circ Z :=
  PoseidonHash [MergeDummyNullifierDomain; nullifierSecret; firstNullifier; Z.of_nat slotIndex].

Definition Prefix (p : CommonPublicInputs) : circ (list Z) :=
  nullifierChain ← RightHashChain4 (p_Nullifiers p);
  treeChain ← TreeSlotsHashChain (p_TreeSlots p);
  cret [nullifierChain; p_OutputHash p; treeChain; p_OutputTreeID p; p_PrivateTxHash p; p_ExternalDataHash p;
        p_AllowDummyInputs p].

(** ** shared/inputs.go and shared/outputs.go *)

Definition merge_utxo (i : Input) (ctx : mergeInputContext) (isDummy : Z) : UtxoCircuitFields :=
  mkUtxo (m_Domain i) (api_select isDummy 0 (ctx_OwnerHash ctx)) (api_select isDummy 0 (ctx_Asset ctx)) (m_Amount i)
    (m_Blinding i) 0 (m_RingDataHash i) (api_select isDummy 0 (ctx_RingProgramID ctx)).

Definition constrainInput (i : Input) (ctx : mergeInputContext) (tree : TreeSlot) (slotIndex : nat) (isCompact : Z) : circ (Z * Z) :=
  let isDummy := api_is_zero (api_sub (m_Domain i) DummyDomain) in
  let isUtxo := api_is_zero (api_sub (m_Domain i) UtxoDomain) in
  AssertIsEqual (api_add isUtxo isDummy) 1;;
  AssertWhen isCompact isDummy;;
  rangeCheck64 (m_Amount i);;
  let utxo := merge_utxo i ctx isDummy in
  let nullifierSecret := api_select isDummy 0 (ctx_NullifierSecret ctx) in
  AssertWhen isDummy (CheckDummy utxo);;
  utxoHash ← UtxoHashCircuit utxo (slot_ID tree);
  statePathIndices ← ToBinary (m_StatePathIndex i) StateTreeHeight;
  stateRoot ← MerkleRootGadget utxoHash statePathIndices (m_StatePathElements i) StateTreeHeight;
  AssertEqualWhen isUtxo stateRoot (slot_UtxoRoot tree);;
  nullifier ← NullifierGadget utxoHash (m_Blinding i) nullifierSecret;
  dummyNullifier ← MergeDummyNullifier (ctx_NullifierSecret ctx) (ctx_FirstNullifier ctx) slotIndex;
  let nullifier := api_select isDummy dummyNullifier nullifier in
  lowLeafHash ← IndexedLeafHash (m_NullifierLowValue i) (m_NullifierNextValue i);
  nfPathIndices ← ToBinary (m_NullifierLowPathIndex i) NullifierTreeHeight;
  nfRoot ← MerkleRootGadget lowLeafHash nfPathIndices (m_NullifierLowPathElements i) NullifierTreeHeight;
  AssertIsEqual nfRoot (slot_NullifierRoot tree);;
  assertStrictlyOrdered (m_NullifierLowValue i) nullifier (m_NullifierNextValue i);;
  cret (api_select isDummy 0 utxoHash, api_select isCompact 0 nullifier).

Definition constrainOutput (out : Output) (hash blinding userOwnerHash asset amount ringProgramID treeID : Z) : circ Z :=
  rangeCheck64 amount;;
  ConstrainOutput (mkUtxo UtxoDomain userOwnerHash asset amount blinding 0 (o_RingDataHash out) ringProgramID) hash 0 0 treeID.

(** One input of the loop; [FirstNullifier] is zero for the first one and its
    nullifier afterwards. *)
Definition merge_slot (t : Transaction) (userOwnerHash asset : Z) (isCompact : list Z) (results : list (Z * Z))
    (slot : nat * Input) : circ (list (Z * Z)) :=
  let '(i, input) := slot in
  compact ← clift (isCompact !! i);
  tree ← SelectTreeSlot (m_TreeSlot input) (p_TreeSlots (t_Public t)) false;
  AssertIsDifferent (slot_UtxoRoot tree) 0;;
  let ctx := mkContext userOwnerHash (t_UserNullifierSecret t) asset (t_RingProgramID t)
               (match results with [] => 0 | (_, nullifier) :: _ => nullifier end) in
  result ← constrainInput input ctx tree i compact;
  cret (results ++ [result]).

Definition Constrain (t : Transaction) : circ Derived :=
  let p := t_Public t in
  userOwnerHash ← PoseidonHash [t_OwnerPkHash t; t_UserNullifierPk t];
  asset ← HashChain [(t_MintChunks t).1; (t_MintChunks t).2];
  nullifierPk ← PoseidonHash [t_UserNullifierSecret t];
  AssertIsEqual (t_UserNullifierPk t) nullifierPk;;
  AssertIsBoolean (p_AllowDummyInputs p);;
  let isCompact := CompactSlots (p_Nullifiers p) in
  citer (fun '(i, input) =>
    compact ← clift (isCompact !! i);
    let isDummy := api_is_zero (api_sub (m_Domain input) DummyDomain) in
    AssertIsEqual (api_mul (api_sub 1 (p_AllowDummyInputs p)) (api_sub isDummy compact)) 0) (imap pair (t_Inputs t));;
  first ← clift (head (t_Inputs t));
  AssertIsEqual (m_Domain first) UtxoDomain;;
  results ← cfold (merge_slot t userOwnerHash asset isCompact) [] (imap pair (t_Inputs t));
  let inputHashes := map fst results in
  let nullifiers := map snd results in
  AssertDistinctNullifiers nullifiers isCompact;;
  let sumInputs := foldl (fun sum i => api_add sum (m_Amount i)) 0 (t_Inputs t) in
  firstNullifier ← clift (head nullifiers);
  outputBlinding ← MergeOutputBlinding (t_UserNullifierSecret t) firstNullifier;
  outputHash ← constrainOutput (t_Output t) (p_OutputHash p) outputBlinding userOwnerHash asset sumInputs
    (t_RingProgramID t) (p_OutputTreeID p);
  blinding ← DerivePrivateTxBlinding firstNullifier (t_UserNullifierSecret t);
  privateTxHash ← PrivateTxHashCircuit (wires inputHashes) (wires [outputHash]) (replicate (length inputHashes) (0, true)) blinding;
  AssertIsEqual privateTxHash (p_PrivateTxHash p);;
  citer (fun '(i, nullifier) =>
    published ← clift (p_Nullifiers p !! i);
    AssertIsEqual published nullifier) (imap pair nullifiers);;
  cret (mkDerived sumInputs firstNullifier).

End circuit.

(** ** default.go and ring.go *)

Record Circuit : Type := mkCircuit {
  c_NumInputs : nat;
  c_Inputs : list Input;
  c_Output : Output;
  c_MintChunks : Z * Z;
  c_OwnerPkHash : Z;
  c_UserNullifierPk : Z;
  c_UserNullifierSecret : Z;
  c_Common : CommonPublicInputs;
  UserSigningPkHash : Z;
  OutputCiphertextSalt : Z;
  c_PublicInputHash : Z;
}.

Definition circuit_transaction (c : Circuit) : Transaction :=
  mkTransaction (c_Inputs c) (c_Output c) (c_MintChunks c) (c_OwnerPkHash c) (c_UserNullifierPk c) (c_UserNullifierSecret c)
    (c_Common c) 0.

Record RingCircuit : Type := mkRingCircuit {
  r_NumInputs : nat;
  r_Inputs : list Input;
  r_Output : Output;
  r_MintChunks : Z * Z;
  r_OwnerPkHash : Z;
  r_UserNullifierPk : Z;
  r_UserNullifierSecret : Z;
  r_Common : CommonPublicInputs;
  OutputRingDataHash : Z;
  r_RingProgramID : Z;
  r_PublicInputHash : Z;
}.

Definition ring_transaction (c : RingCircuit) : Transaction :=
  mkTransaction (r_Inputs c) (r_Output c) (r_MintChunks c) (r_OwnerPkHash c) (r_UserNullifierPk c) (r_UserNullifierSecret c)
    (r_Common c) (r_RingProgramID c).

Section rails.
Context {G : Gnark} {H : CircuitHash}.

Definition assertDefaultRing (inputs : list Input) (output : Output) : circ unit :=
  citer (fun input =>
    let isUtxo := api_is_zero (api_sub (m_Domain input) UtxoDomain) in
    AssertZeroWhen isUtxo (m_RingDataHash input)) inputs;;
  AssertIsEqual (o_RingDataHash output) 0.

Definition outputEncryption (c : Circuit) (tx : Transaction) (derived : Derived) : circ (list Z) :=
  ciphertext ← MergeOutputCiphertext (t_UserNullifierSecret tx) (FirstNullifier derived) (OutputCiphertextSalt c)
    (OutputAmount derived) (t_MintChunks tx);
  cret (OutputCiphertextSalt c :: ciphertext).

Definition Define (c : Circuit) : circ unit :=
  let tx := circuit_transaction c in
  if negb (ValidateLayout tx (c_NumInputs c)) then cpanic else
  assertDefaultRing (t_Inputs tx) (t_Output tx);;
  derived ← Constrain tx;
  AssertIsEqual (UserSigningPkHash c) (c_OwnerPkHash c);;
  prefix ← Prefix (c_Common c);
  encryption ← outputEncryption c tx derived;
  pih ← HashChain4 (prefix ++ [UserSigningPkHash c; c_UserNullifierPk c] ++ encryption);
  AssertIsEqual (c_PublicInputHash c) pih.

Definition ring_Define (c : RingCircuit) : circ unit :=
  let tx := ring_transaction c in
  if negb (ValidateLayout tx (r_NumInputs c)) then cpanic else
  AssertIsDifferent (r_RingProgramID c) 0;;
  Constrain tx;;
  AssertIsEqual (OutputRingDataHash c) (o_RingDataHash (r_Output c));;
  prefix ← Prefix (r_Common c);
  pih ← HashChain4 (prefix ++ [OutputRingDataHash c; r_RingProgramID c]);
  AssertIsEqual (r_PublicInputHash c) pih.

End rails.

(** ** What a satisfied merge says *)

Record merge_input_assigned (i : Input) : Prop := {
  fe_m_Domain : fe (m_Domain i);
  fe_m_Amount : fe (m_Amount i);
  fe_m_Blinding : fe (m_Blinding i);
  fe_m_RingDataHash : fe (m_RingDataHash i);
  fe_m_StatePathIndex : fe (m_StatePathIndex i);
  fe_m_TreeSlot : fe (m_TreeSlot i);
  fe_m_Low : fe (m_NullifierLowValue i);
  fe_m_Next : fe (m_NullifierNextValue i);
  fe_m_LowPathIndex : fe (m_NullifierLowPathIndex i);
}.

Record merge_assigned (t : Transaction) : Prop := {
  ma_inputs : Forall merge_input_assigned (t_Inputs t);
  ma_slots : Forall slot_assigned (p_TreeSlots (t_Public t));
  ma_nullifiers : Forall fe (p_Nullifiers (t_Public t));
  ma_mint : fe (t_MintChunks t).1 /\ fe (t_MintChunks t).2;
  ma_keys : fe (t_OwnerPkHash t) /\ fe (t_UserNullifierPk t) /\ fe (t_UserNullifierSecret t);
  ma_ring : fe (t_RingProgramID t) /\ fe (o_RingDataHash (t_Output t));
  ma_public : fe (p_OutputHash (t_Public t)) /\ fe (p_OutputTreeID (t_Public t)) /\ fe (p_PrivateTxHash (t_Public t)) /\
    fe (p_ExternalDataHash (t_Public t)) /\ fe (p_AllowDummyInputs (t_Public t));
}.

Section sound.
Context {G : Gnark} {GL : GnarkLaws G} {H : CircuitHash} {HL : CircuitHashLaw H}.
Context (Q : list Z -> Prop).

(** The leaf a real input opens: the owner's, of the merged asset, without data. *)
Definition merged_utxo (owner asset ring : Z) (i : Input) : UtxoCircuitFields :=
  mkUtxo UtxoDomain owner asset (m_Amount i) (m_Blinding i) 0 (m_RingDataHash i) ring.

(** One constrained input with its published nullifier. *)
Record merge_input_sound (owner asset ring secret : Z) (tree : TreeSlot) (i : Input) (nullifier : Z) : Prop := {
  mi_kind : m_Domain i = DummyDomain \/ m_Domain i = UtxoDomain;
  mi_amount : 0 <= m_Amount i < 2 ^ 64;
  mi_dummy : m_Domain i = DummyDomain -> m_Amount i = 0;
  mi_included : m_Domain i = UtxoDomain -> included Q (slot_UtxoRoot tree) (utxo_hash (merged_utxo owner asset ring i) (slot_ID tree));
  mi_fresh : nullifier <> 0 -> non_included Q (slot_NullifierRoot tree) nullifier;
  mi_nullifier : m_Domain i = UtxoDomain ->
    let preimage := [utxo_hash (merged_utxo owner asset ring i) (slot_ID tree); m_Blinding i; secret] in
    nullifier = poseidon preimage /\ Q preimage;
}.

Lemma two_kinds d : fe d -> api_add (Z.b2z (d =? UtxoDomain)) (Z.b2z (d =? DummyDomain)) = 1 -> d = DummyDomain \/ d = UtxoDomain.
Proof.
  intros Hd. rewrite add_law. destruct (Z.eqb_spec d UtxoDomain), (Z.eqb_spec d DummyDomain); try tauto. done.
Qed.

Lemma select_fe b x y : fe x -> fe y -> fe (api_select (Z.b2z b) x y).
Proof. intros. rewrite select_b2z. by destruct b. Qed.

Lemma merge_non_inclusion_sound low next idx path tree nullifier leaf bs root u :
  fe low -> fe next -> fe idx -> slot_assigned tree -> fe nullifier ->
  runs Q (IndexedLeafHash low next) leaf -> runs Q (ToBinary idx NullifierTreeHeight) bs ->
  runs Q (MerkleRootGadget leaf bs path NullifierTreeHeight) root ->
  runs Q (AssertIsEqual root (slot_NullifierRoot tree)) u -> runs Q (assertStrictlyOrdered low nullifier next) u ->
  non_included Q (slot_NullifierRoot tree) nullifier.
Proof.
  intros Hlow Hnext Hidx [] Hn Hleaf Hbs Hroot Hrt Hord. unfold IndexedLeafHash in Hleaf.
  apply runs_poseidon in Hleaf as [-> HQl]; [|simpl; lia].
  apply runs_to_binary in Hbs as [Hi ->]; [|done|unfold NullifierTreeHeight; lia].
  apply runs_equal in Hrt; [|by eapply merkle_root_fe; [|exact Hroot]; unfold NullifierTreeHeight; lia|done].
  apply ordered_sound in Hord; [|done..]. exists low, next, idx, path. rewrite <- Hrt. destruct Hidx. done.
Qed.

Lemma merge_input_proved i ctx tree k compact h n :
  merge_input_assigned i -> slot_assigned tree -> fe (ctx_OwnerHash ctx) -> fe (ctx_Asset ctx) -> fe (ctx_RingProgramID ctx) ->
  runs Q (constrainInput i ctx tree k (Z.b2z compact)) (h, n) ->
  fe n /\ merge_input_sound (ctx_OwnerHash ctx) (ctx_Asset ctx) (ctx_RingProgramID ctx) (ctx_NullifierSecret ctx) tree i n.
Proof.
  intros Hi Ht Ho Ha Hring Hr. pose proof Hi as []. pose proof Ht as []. unfold constrainInput in Hr.
  rewrite !is_zero_sub in Hr by (done || by apply fe_const).
  cbind Hr as [] Hkind. cbind Hr as [] Hcompact. cbind Hr as [] Hrange. cbind Hr as [] Hdummy. cbind Hr as uh Huh.
  cbind Hr as sbs Hsbs. cbind Hr as sroot Hsroot. cbind Hr as [] Hincl. cbind Hr as nf Hnf. cbind Hr as dn Hdn.
  cbind Hr as leaf Hleaf. cbind Hr as nbs Hnbs. cbind Hr as nroot Hnroot. cbind Hr as [] Heq. cbind Hr as [] Hord.
  apply runs_ret in Hr. rewrite !select_b2z in Hr. injection Hr as _ <-.
  apply runs_equal in Hkind; [|auto with field..]. apply two_kinds in Hkind; [|done]. apply range64 in Hrange; [|done].
  unfold NullifierGadget in Hnf. apply runs_poseidon in Hnf as [-> HQn]; [|simpl; lia].
  unfold MergeDummyNullifier in Hdn. apply runs_poseidon in Hdn as [-> _]; [|simpl; lia].
  apply UtxoHashCircuit_runs in Huh as ->. apply runs_to_binary in Hsbs as [Hsidx ->]; [|done|unfold StateTreeHeight; lia].
  assert (fe sroot) by (eapply merkle_root_fe; [|exact Hsroot]; unfold StateTreeHeight; lia).
  rewrite equal_when, Z.eqb_eq in Hincl by done.
  assert (utxo_assigned (merge_utxo i ctx (Z.b2z (m_Domain i =? DummyDomain)))) as Hu
    by (split; cbn [merge_utxo u_Domain u_Owner u_Asset u_Amount u_DataHash u_RingDataHash u_RingProgramID u_Blinding];
        try apply select_fe; auto with field).
  rewrite CheckDummy_flag, holds_when, forallb_zero, Z.eqb_eq in Hdummy by done.
  rewrite (select_b2z _ (poseidon _)) in Hord. set (nullifier := if m_Domain i =? DummyDomain then _ else _) in *.
  assert (fe nullifier) as Hfn by (unfold nullifier; destruct (_ =? _); apply poseidon_fe).
  pose proof (merge_non_inclusion_sound _ _ _ _ _ _ _ _ _ _ fe_m_Low0 fe_m_Next0 fe_m_LowPathIndex0 Ht Hfn Hleaf Hnbs Hnroot Heq Hord) as Hnon.
  split; [destruct compact; auto with field|]. split.
  - done.
  - done.
  - intros Hd. specialize (Hdummy Hd). rewrite !Forall_cons in Hdummy. tauto.
  - intros Hd. exists (m_StatePathIndex i), (m_StatePathElements i). destruct fe_m_StatePathIndex0. split; [done|].
    rewrite <- (Hincl Hd). unfold merge_utxo in Hsroot. rewrite Hd, !select_b2z in Hsroot. cbn in Hsroot. exact Hsroot.
  - by destruct compact.
  - intros Hd. destruct compact.
    + rewrite holds_when, Z.eqb_eq in Hcompact by auto with field. by rewrite Hcompact in Hd.
    + unfold nullifier, merge_utxo in *. rewrite Hd, !select_b2z in *. done.
Qed.

(** The input at [k] with the nullifier it publishes and the slot it spends from. *)
Definition merges (t : Transaction) (owner asset : Z) (k : nat) (input : Input) (nullifier : Z) : Prop :=
  exists tree, tree ∈ p_TreeSlots (t_Public t) /\ slot_NullifierRoot tree <> 0 /\ slot_UtxoRoot tree <> 0 /\ fe nullifier /\
    merge_input_sound owner asset (t_RingProgramID t) (t_UserNullifierSecret t) tree input nullifier.

Lemma merge_slot_sound t owner asset results k input results' :
  merge_assigned t -> fe owner -> fe asset -> (length (p_TreeSlots (t_Public t)) <= 64)%nat -> merge_input_assigned input ->
  runs Q (merge_slot t owner asset (CompactSlots (p_Nullifiers (t_Public t))) results (k, input)) results' ->
  exists h n, results' = results ++ [(h, n)] /\ merges t owner asset k input n.
Proof.
  intros Ht Ho Ha Hlen Hi Hr. pose proof Ht as []. unfold merge_slot in Hr. cbind Hr as compact Hc. cbind Hr as tree Htree.
  cbind Hr as [] Hur. cbind Hr as [h n] Hin. apply runs_ret in Hr as <-. apply runs_clift in Hc.
  apply SelectTreeSlot_sound in Htree as (Htree & Hnr & _); [|apply Hi|done..].
  pose proof (Forall_lookup_1 _ _ _ _ ma_slots0 Htree) as Hslot. apply runs_different in Hur; [|apply Hslot|auto with field].
  unfold CompactSlots in Hc. change (map ?f ?l) with (f <$> l) in Hc. rewrite list_lookup_fmap in Hc.
  apply fmap_Some in Hc as (x & Hx & ->). rewrite is_zero_b2z in Hin by (by eapply Forall_lookup_1).
  apply merge_input_proved in Hin as [Hfn Hs]; [|done|done|done|done|apply ma_ring0]. exists h, n. split; [done|].
  exists tree. split_and!; [by eapply list_elem_of_lookup_2|done..].
Qed.

Lemma merge_slots_sound t owner asset results :
  merge_assigned t -> fe owner -> fe asset -> (length (p_TreeSlots (t_Public t)) <= 64)%nat ->
  runs Q (cfold (merge_slot t owner asset (CompactSlots (p_Nullifiers (t_Public t)))) [] (imap pair (t_Inputs t))) results ->
  length results = length (t_Inputs t) /\
  forall k input, t_Inputs t !! k = Some input -> exists h n, results !! k = Some (h, n) /\ merges t owner asset k input n.
Proof.
  intros Ht Ho Ha Hlen Hr.
  assert (length results = length (imap pair (t_Inputs t)) /\
    forall k input, (k < length (imap pair (t_Inputs t)))%nat -> t_Inputs t !! k = Some input ->
    exists h n, results !! k = Some (h, n) /\ merges t owner asset k input n) as [Hl Hall].
  { refine (runs_cfold_inv Q _ (fun m rs => length rs = m /\ forall k input, (k < m)%nat -> t_Inputs t !! k = Some input ->
      exists h n, rs !! k = Some (h, n) /\ merges t owner asset k input n) _ _ _ Hr _ _); [split; [done|lia]|].
    intros m x rs rs' Hx [Hrl Hrs] Hstep. rewrite list_lookup_imap in Hx. apply fmap_Some in Hx as (input & Hi & ->).
    apply merge_slot_sound in Hstep as (h & n & -> & Hm); [|done..|by eapply Forall_lookup_1; [apply ma_inputs|]].
    split; [rewrite length_app; simpl; lia|]. intros k input' Hk Hi'. destruct (decide (k = m)) as [->|].
    - rewrite Hi in Hi'. injection Hi' as <-. exists h, n. by rewrite list_lookup_middle.
    - destruct (Hrs k input' ltac:(lia) Hi') as (h' & n' & Hk' & ?). exists h', n'. by rewrite lookup_app_l by lia. }
  rewrite length_imap in *. split; [done|]. intros k input Hk. apply Hall; [by eapply lookup_lt_Some|done].
Qed.

Definition sum_amounts (inputs : list Input) : Z := foldr (fun i sum => m_Amount i + sum) 0 inputs.

Lemma sum_inputs_spec inputs start : fe start -> Forall merge_input_assigned inputs ->
  foldl (fun sum i => api_add sum (m_Amount i)) start inputs = (start + sum_amounts inputs) mod bn254_modulus.
Proof.
  intros Hs Hi. revert start Hs. induction Hi as [|i inputs _ _ IH]; intros start Hs; cbn [foldl sum_amounts foldr].
  - rewrite Z.add_0_r. symmetry. by apply fe_id.
  - rewrite IH by apply add_fe. rewrite add_law, Zplus_mod_idemp_l. f_equal. unfold sum_amounts. lia.
Qed.

Lemma sum_amounts_bound inputs : Forall (fun i => 0 <= m_Amount i < 2 ^ 64) inputs ->
  0 <= sum_amounts inputs <= 2 ^ 64 * Z.of_nat (length inputs).
Proof. induction 1 as [|i inputs Hi _ IH]; cbn [sum_amounts foldr length]; unfold sum_amounts in *; lia. Qed.

(** The merged output: the owner's, of the same asset, holding the sum. *)
Record merge_sound (t : Transaction) (d : Derived) : Prop := {
  ms_inputs : forall k input, t_Inputs t !! k = Some input ->
    exists n, p_Nullifiers (t_Public t) !! k = Some n /\
      merges t (poseidon [t_OwnerPkHash t; t_UserNullifierPk t]) (poseidon [(t_MintChunks t).1; (t_MintChunks t).2]) k input n;
  ms_distinct : forall i j x, i <> j -> p_Nullifiers (t_Public t) !! i = Some x -> p_Nullifiers (t_Public t) !! j = Some x -> x = 0;
  ms_key : t_UserNullifierPk t = poseidon [t_UserNullifierSecret t];
  ms_first : head (p_Nullifiers (t_Public t)) = Some (FirstNullifier d);
  ms_amount : OutputAmount d = sum_amounts (t_Inputs t) /\ 0 <= OutputAmount d < 2 ^ 64;
  ms_output : exists blinding, p_OutputHash (t_Public t) =
    utxo_hash (mkUtxo UtxoDomain (poseidon [t_OwnerPkHash t; t_UserNullifierPk t]) (poseidon [(t_MintChunks t).1; (t_MintChunks t).2])
      (sum_amounts (t_Inputs t)) blinding 0 (o_RingDataHash (t_Output t)) (t_RingProgramID t)) (p_OutputTreeID (t_Public t));
}.

Lemma constrainOutput_sound out hash blinding owner asset amount ring treeID h :
  fe hash -> fe blinding -> fe owner -> fe asset -> fe amount -> fe ring -> fe (o_RingDataHash out) ->
  runs Q (constrainOutput out hash blinding owner asset amount ring treeID) h ->
  0 <= amount < 2 ^ 64 /\ hash = utxo_hash (mkUtxo UtxoDomain owner asset amount blinding 0 (o_RingDataHash out) ring) treeID.
Proof.
  intros Hh Hb Ho Ha Hv Hring Hd Hr. unfold constrainOutput in Hr. cbind Hr as [] Hrange. apply range64 in Hrange; [|done].
  split; [done|]. unfold ConstrainOutput in Hr. cbind Hr as [] H1. cbind Hr as [] H2. cbind Hr as [] H3. cbind Hr as [] H4.
  cbind Hr as [] H5. cbind Hr as uh Huh. cbind Hr as [] Heq. apply UtxoHashCircuit_runs in Huh as ->.
  rewrite (not_b2z false : api_sub 1 0 = Z.b2z true) in Heq. rewrite equal_when in Heq by (done || apply utxo_hash_fe).
  symmetry. by apply Heq.
Qed.

Lemma published_nullifiers ns results u i n : Forall fe ns -> Forall fe results -> length ns = length results ->
  runs Q (citer (fun '(i, nullifier) => published ← clift (ns !! i); AssertIsEqual published nullifier) (imap pair results)) u ->
  results !! i = Some n -> ns !! i = Some n.
Proof.
  intros Hns Hres Hlen Hr Hi. apply (runs_iciter Q (fun i nullifier => published ← clift (ns !! i); AssertIsEqual published nullifier) _ _ _ _ Hr) in Hi as Hn.
  cbind Hn as x Hx. apply runs_clift in Hx. apply runs_equal in Hn as ->; [done|exact (Forall_lookup_1 _ _ _ _ Hns Hx)|exact (Forall_lookup_1 _ _ _ _ Hres Hi)].
Qed.

Lemma merge_proved t n d : merge_assigned t -> ValidateLayout t n = true -> runs Q (Constrain t) d -> merge_sound t d.
Proof.
  intros Ht Hlayout Hr. pose proof Ht as []. unfold ValidateLayout in Hlayout. cbn [forallb] in Hlayout.
  rewrite !andb_true_iff, !Nat.eqb_eq in Hlayout. destruct Hlayout as [[[Hn Hli] (Hln & Hls & _)] _].
  assert (n <= 52)%nat as Hn52.
  { unfold IsSupportedInputCount, SupportedInputCounts in Hn. cbn [existsb] in Hn. rewrite !orb_true_iff, !Nat.eqb_eq in Hn. lia. }
  unfold Constrain in Hr. cbind Hr as owner Howner. cbind Hr as asset Hasset. cbind Hr as npk Hnpk. cbind Hr as [] Hkey.
  cbind Hr as [] _H1. cbind Hr as [] _H2. cbind Hr as first _H3. cbind Hr as [] _H4. cbind Hr as results Hres.
  cbind Hr as [] Hdist. cbind Hr as fn Hfirst. cbind Hr as ob Hob. cbind Hr as oh Hout. cbind Hr as bl _H5.
  cbind Hr as ptx _H6. cbind Hr as [] _H7. cbind Hr as [] Hpub. apply runs_ret in Hr as <-. apply runs_clift in Hfirst.
  apply runs_poseidon in Howner as [-> _], Hnpk as [-> _]; [|simpl; lia..]. unfold MergeOutputBlinding in Hob.
  apply runs_poseidon in Hob as [-> _]; [|simpl; lia].
  apply runs_equal in Hkey; [|apply ma_keys0|auto with field].
  unfold HashChain, HashChainGadget in Hasset. cbn [length Nat.eqb head tail cfold] in Hasset. cbind Hasset as x Hx.
  apply runs_clift in Hx. injection Hx as <-. cbind Hasset as y Hy. apply runs_ret in Hasset as <-.
  apply runs_poseidon in Hy as [-> _]; [|simpl; lia].
  apply merge_slots_sound in Hres as [Hrl Hslots]; [|done|auto with field..|rewrite Hls; unfold InputTrees; lia].
  assert (Forall fe (map snd results)) as Hfr.
  { apply Forall_lookup. intros k x Hx. change (map snd results) with (snd <$> results) in Hx. rewrite list_lookup_fmap in Hx.
    apply fmap_Some in Hx as ([h m] & Hk & ->). destruct (lookup_lt_is_Some_2 (t_Inputs t) k) as [input Hi];
      [apply lookup_lt_Some in Hk; lia|]. destruct (Hslots k input Hi) as (h' & m' & Hk' & tree & _ & _ & _ & Hfe & _).
    rewrite Hk in Hk'. injection Hk' as -> ->. exact Hfe. }
  assert (map snd results = p_Nullifiers (t_Public t)) as Epub.
  { apply list_eq_same_length with (length results); [lia|by rewrite length_map|].
    intros k x y _ Hx Hy. apply (published_nullifiers (p_Nullifiers (t_Public t)) (map snd results) tt) in Hx; [congruence|done..| |done].
    rewrite length_map. lia. }
  rewrite Epub in *. rewrite sum_inputs_spec, Z.add_0_l in * by auto with field.
  assert (0 <= sum_amounts (t_Inputs t) <= 2 ^ 64 * Z.of_nat (length (t_Inputs t))) as Hsum.
  { apply sum_amounts_bound, Forall_lookup. intros k input Hi. destruct (Hslots k input Hi) as (h & m & _ & tree & _ & _ & _ & _ & []). done. }
  rewrite (fe_id (sum_amounts _)) in * by (apply (fe_small _ 100); lia).
  apply constrainOutput_sound in Hout as [Hamount Hhash];
    [|apply ma_public0|auto with field..|apply (fe_small _ 100); lia|apply ma_ring0|apply ma_ring0].
  split; try done.
  - intros k input Hi. destruct (Hslots k input Hi) as (h & m & Hk & Hm). exists m. split; [|done].
    rewrite <- Epub. change (map snd results) with (snd <$> results). by rewrite list_lookup_fmap, Hk.
  - intros i j x. by eapply distinct_sound.
  - by eexists.
Qed.

End sound.

End Merging.
