(* ===== verification/TxOwners.v ===== *)
(** * Who may spend

    The signer vector of the transaction circuits: [Contains] is membership of a
    non-zero identity, because the scalar field has no zero divisors, and every
    variant but the ring authority's requires the owner of each input that
    carries content to be in it. *)

From S2P Require Import Prelude ZeroBytes Hasher PrimeField Gnark Gadgets GadgetSpecs SparseTree ChainSpecs TxCircuit TxSpecs TxBalance TxSound TxVariants.

Section owners.
Context {G : Gnark} {GL : GnarkLaws G} {H : CircuitHash} {HL : CircuitHashLaw H}.
Context (Q : list Z -> Prop).

Lemma product_zero identity signers start : fe identity -> Forall fe signers -> fe start ->
  let prod := foldl (fun prod signer => api_mul prod (api_sub identity signer)) start signers in
  fe prod /\ (prod = 0 <-> start = 0 \/ identity ∈ signers).
Proof.
  intros Hi Hs. revert start. induction Hs as [|s signers Hfs _ IH]; intros start Hstart; cbn [foldl].
  - split; [done|]. split; [by left|]. intros [->|[]%elem_of_nil]. done.
  - destruct (IH (api_mul start (api_sub identity s)) (mul_fe _ _)) as [Hfe Hz]. split; [done|]. rewrite Hz, elem_of_cons.
    assert (api_mul start (api_sub identity s) = 0 <-> start = 0 \/ identity = s) as ->; [|tauto].
    rewrite mul_law. split.
    + intros [E|E]%field_domain; [left; by rewrite fe_id in E|right]. rewrite fe_id in E by apply sub_fe.
      apply Z.eqb_eq in E. rewrite sub_zero in E by done. by apply Z.eqb_eq.
    + intros [->| ->]; [by rewrite Z.mul_0_l|]. rewrite sub_law, Z.sub_diag, Zmod_0_l, Z.mul_0_r. done.
Qed.

(** Membership of a non-zero identity. *)
Lemma Contains_spec signers identity : fe identity -> Forall fe signers ->
  Contains signers identity = Z.b2z (bool_decide (identity <> 0 /\ identity ∈ signers)).
Proof.
  intros Hi Hs. unfold Contains. destruct (product_zero identity signers 1 Hi Hs fe_1) as [Hfe Hz].
  rewrite !is_zero_b2z, not_b2z, and_b2z by done. f_equal. apply eq_iff_eq_true.
  rewrite bool_decide_eq_true, andb_true_iff, negb_true_iff, Z.eqb_eq, Z.eqb_neq, Hz.
  split; [|tauto]. intros [[?|?] ?]; [done|tauto].
Qed.

Lemma ConfidentialEddsaSigners_sound inputs owners signers :
  Forall input_assigned inputs -> Forall fe owners -> runs Q (ConfidentialEddsaSigners inputs owners) signers ->
  forall i input, inputs !! i = Some input -> exists pk, owners !! i = Some pk /\
    (u_Domain (in_Utxo input) <> DummyDomain -> pk <> 0 /\ signers !! i = Some pk).
Proof.
  intros Hin Ho Hr. unfold ConfidentialEddsaSigners in Hr.
  apply (runs_imapM Q (fun i input => _)) in Hr as [_ Hr]. intros i input Hi. destruct (Hr i input Hi) as (s & Hs & Hrun).
  pose proof (Forall_lookup_1 _ _ _ _ Hin Hi) as []. cbind Hrun as pk Hpk. apply runs_clift in Hpk.
  pose proof (Forall_lookup_1 _ _ _ _ Ho Hpk) as Hfpk. rewrite content_flag in Hrun by done.
  rewrite is_zero_b2z, not_b2z in Hrun by done. cbind Hrun as [] Hnz. rewrite gate_b2z in Hrun by done. apply runs_ret in Hrun as <-.
  rewrite holds_when in Hnz. exists pk. split; [done|]. intros Hd. apply Z.eqb_neq in Hd. rewrite Hd in *. cbn [negb] in *.
  specialize (Hnz eq_refl). split; [by apply Z.eqb_neq, negb_true_iff|done].
Qed.

(** Every input that carries content is spent by a member of the signer vector. *)
Lemma AuthorizedEddsaInputOwners_sound inputs owners authorized signers :
  Forall input_assigned inputs -> Forall fe owners -> Forall fe authorized ->
  runs Q (AuthorizedEddsaInputOwners inputs owners authorized) signers ->
  forall i input, inputs !! i = Some input -> u_Domain (in_Utxo input) <> DummyDomain ->
  exists pk, signers !! i = Some pk /\ pk <> 0 /\ pk ∈ authorized.
Proof.
  intros Hin Ho Ha Hr i input Hi Hd. unfold AuthorizedEddsaInputOwners in Hr. cbind Hr as sg Hsg. cbind Hr as [] Hmem.
  apply runs_ret in Hr as <-.
  destruct (ConfidentialEddsaSigners_sound _ _ _ Hin Ho Hsg i input Hi) as (pk & Hpk & Hs). destruct (Hs Hd) as [Hnz Hlook].
  apply (runs_iciter Q (fun i input => _)) with (i := i) (x := input) in Hmem; [|done].
  cbind Hmem as pk' Hpk'. apply runs_clift in Hpk'. rewrite Hpk in Hpk'. injection Hpk' as <-.
  pose proof (Forall_lookup_1 _ _ _ _ Ho Hpk) as Hfpk. pose proof (Forall_lookup_1 _ _ _ _ Hin Hi) as [].
  cbind Hmem as [] _H. rewrite content_flag, Contains_spec, holds_when in Hmem by done.
  exists pk. split_and!; [done..|]. apply Z.eqb_neq in Hd. rewrite Hd in Hmem. specialize (Hmem eq_refl).
  by apply bool_decide_eq_true in Hmem as [_ ?].
Qed.

(** With a hidden owner: a member, or the owner whose signature was verified. *)
Lemma HiddenOwnerSigners_sound inputs owners authorized hidden signers :
  Forall input_assigned inputs -> Forall fe owners -> Forall fe authorized -> fe hidden ->
  runs Q (HiddenOwnerSigners inputs owners authorized hidden 1) signers ->
  length signers = length inputs /\
  forall i input, inputs !! i = Some input -> u_Domain (in_Utxo input) <> DummyDomain ->
  exists pk, signers !! i = Some pk /\ pk <> 0 /\ (pk ∈ authorized \/ pk = hidden).
Proof.
  intros Hin Ho Ha Hh Hr. unfold HiddenOwnerSigners in Hr. cbind Hr as [has sg] Hfold. cbind Hr as [] _H. apply runs_ret in Hr as <-.
  assert (length sg = length (imap pair inputs) /\ forall i input, (i < length (imap pair inputs))%nat -> inputs !! i = Some input ->
    u_Domain (in_Utxo input) <> DummyDomain -> exists pk, sg !! i = Some pk /\ pk <> 0 /\ (pk ∈ authorized \/ pk = hidden)) as [Hl Hall].
  { refine (runs_cfold_inv Q _ (fun m '(_, l) => length l = m /\ forall i input, (i < m)%nat -> inputs !! i = Some input ->
      u_Domain (in_Utxo input) <> DummyDomain -> exists pk, l !! i = Some pk /\ pk <> 0 /\ (pk ∈ authorized \/ pk = hidden)) _ _ _ Hfold _ _);
      [split; [done|lia]|].
    intros m x [has0 l] [has1 l'] Hx [Hlen Hl] Hstep. rewrite list_lookup_imap in Hx. apply fmap_Some in Hx as (input & Hi & ->).
    cbn beta iota in Hstep. cbind Hstep as owner Howner. apply runs_clift in Howner. pose proof (Forall_lookup_1 _ _ _ _ Ho Howner) as Hfo.
    pose proof (Forall_lookup_1 _ _ _ _ Hin Hi) as []. rewrite content_flag, (is_zero_b2z owner), Contains_spec, select_b2z in Hstep by done.
    set (pk := if owner =? 0 then hidden else owner) in *. assert (fe pk) as Hfpk by (unfold pk; by destruct (_ =? _)).
    rewrite is_zero_b2z, !not_b2z, !and_b2z, (gate_b2z _ pk) in Hstep by done.
    cbind Hstep as [] _H1. cbind Hstep as [] Hnz. cbind Hstep as [] _H2. cbind Hstep as [] Hmem. apply runs_ret in Hstep.
    injection Hstep as _ <-. rewrite holds_when in Hnz, Hmem.
    split; [rewrite length_app; simpl; lia|]. intros i input' Hlt Hi' Hd. destruct (decide (i = m)) as [->|].
    - rewrite Hi in Hi'. injection Hi' as <-. apply Z.eqb_neq in Hd. rewrite Hd in *. cbn [negb andb] in *. exists pk.
      rewrite list_lookup_middle by done. split_and!; [done|by apply Z.eqb_neq, negb_true_iff, Hnz|]. unfold pk.
      destruct (owner =? 0); [by right|left]. cbn [negb] in Hmem. by apply bool_decide_eq_true in Hmem as [_ ?].
    - destruct (Hl i input' ltac:(lia) Hi' Hd) as (pk' & ? & ?). exists pk'. by rewrite lookup_app_l by lia. }
  rewrite length_imap in *. split; [done|]. intros i input Hi. apply Hall; [by eapply lookup_lt_Some|done].
Qed.

End owners.
