(* ===== verification/TxProved.v ===== *)
(** * What each transaction circuit proves

    The five variants reduced to one statement: the transaction is sound, the
    signer chain is that of the public signer vector, and the owner of every input
    that carries content is one of the authorised identities. *)

From S2P Require Import Prelude ZeroBytes Hasher PrimeField Gnark Gadgets GadgetSpecs SparseTree ChainSpecs TxCircuit TxSpecs TxBalance TxSound TxVariants TxOwners.

(** Every variable of a witness holds a field element; the public slots are
    arrays. *)
Record witness_assigned (w : Witness) : Prop := {
  wa_nullifiers : Forall fe (w_Nullifiers w);
  wa_hashes : Forall fe (w_OutputHashes w);
  wa_slots : Forall slot_assigned (w_TreeSlots w);
  wa_outputTree : fe (w_OutputTreeID w);
  wa_private : fe (w_PrivateTxHash w);
  wa_external : fe (w_ExternalDataHash w);
  wa_assets : Forall fe (w_PublicAssets w) /\ length (w_PublicAssets w) = NPublicSlots;
  wa_amounts : Forall fe (w_PublicAmounts w) /\ length (w_PublicAmounts w) = NPublicSlots;
  wa_flags : fe (w_InputFlags w);
  wa_signers : Forall fe (w_SignerPkHashes w);
  wa_public : fe (w_PublicInputHash w);
  wa_inputs : Forall input_assigned (w_Inputs w);
  wa_owners : Forall fe (w_InputOwnerPkHashes w);
  wa_outputs : Forall utxo_assigned (w_Outputs w);
}.

Definition default_assigned (c : DefaultRingConfidentialEddsaCircuit) : Prop :=
  witness_assigned (de_Witness c) /\ cache_assigned (de_CachedInputs c) /\ Forall fe (de_OutputOwnerPkHashes c).

Definition in_circuit_assigned (c : DefaultRingConfidentialInCircuitEddsaCircuit) : Prop :=
  witness_assigned (ic_Witness c) /\ cache_assigned (ic_CachedInputs c) /\ Forall fe (ic_OutputOwnerPkHashes c).

Definition custom_assigned (c : CustomRingConfidentialEddsaCircuit) : Prop :=
  witness_assigned (ce_Witness c) /\ cache_assigned (ce_CachedInputs c) /\ fe (ce_RingProgramID c) /\
  Forall fe (ce_PublishedOutputOwnerPkHashes c) /\ Forall fe (ce_OutputOwnerPkHashes c).

Definition anonymous_assigned (c : CustomRingAnonymousEddsaCircuit) : Prop :=
  witness_assigned (an_Witness c) /\ cache_assigned (an_CachedInputs c) /\ fe (an_RingProgramID c) /\ fe (an_DefaultOwnerPkHash c) /\
  Forall fe (an_PublishedOutputOwnerPkHashes c) /\ Forall fe (an_OutputOwnerPkHashes c).

Definition authority_assigned (c : CustomRingAuthorityCircuit) : Prop :=
  witness_assigned (au_Witness c) /\ fe (au_RingProgramID c).

Section proved.
Context {G : Gnark} {GL : GnarkLaws G} {H : CircuitHash} {HL : CircuitHashLaw H} {E : Ed25519Gadget}.
Context (Q : list Z -> Prop).

(** ** Hashes are field elements *)

Lemma hash_chain_fe xs v : Forall fe xs -> runs Q (HashChain xs) v -> fe v.
Proof.
  intros Hx Hr. unfold HashChain, HashChainGadget in Hr. destruct xs as [|x l]; [cbn in Hr; cinv; auto with field|].
  cbn [length Nat.eqb head tail] in Hr. cbind Hr as y Hy. apply runs_clift in Hy. injection Hy as <-. apply Forall_cons in Hx as [? _].
  eapply (chain_fe Q (fun h input => [h; input])); [simpl; lia|done..].
Qed.

Lemma right_hash_chain_fe xs v : Forall fe xs -> runs Q (RightHashChain xs) v -> fe v.
Proof.
  intros Hx Hr. unfold RightHashChain in Hr. destruct xs as [|x l _] using rev_ind; [cbn in Hr; cinv; auto with field|].
  rewrite length_app, Nat.add_1_r in Hr. cbn [Nat.eqb] in Hr. rewrite last_snoc in Hr. cbind Hr as y Hy. apply runs_clift in Hy.
  injection Hy as <-. apply Forall_app in Hx as [_ [? _]%Forall_cons].
  eapply (chain_fe Q (fun h input => [input; h])); [simpl; lia|done..].
Qed.

Lemma bytes_to_field_fe rc bs v : runs Q (BytesToFieldWith rc bs) v -> fe v.
Proof.
  intros Hr. unfold BytesToFieldWith in Hr. destruct (_ <? _)%nat; [by apply runs_panic in Hr|]. cbind Hr as [] _H.
  destruct (_ <=? _)%nat; [by apply runs_panic in Hr|].
  refine (runs_cfold_inv Q _ (fun _ => fe) _ _ _ Hr fe_0 _). intros i b h h' _ _ Hh. cbind Hh as [] _H1.
  apply runs_ret in Hh as <-. apply add_fe.
Qed.

Lemma hash_bytes_fe rc bs v : runs Q (HashBytesWith rc bs) v -> fe v.
Proof.
  intros Hr. unfold HashBytesWith, PackBytesBEWith in Hr. cbind Hr as fields Hf. apply runs_mapM in Hf.
  eapply hash_chain_fe; [|done]. apply Forall_forall. intros x Hx. apply list_elem_of_lookup in Hx as [i Hi].
  destruct (Forall2_lookup_r _ _ _ _ _ Hf Hi) as (bs' & _ & Hrun). by eapply bytes_to_field_fe.
Qed.

Lemma OwnerAuthorization_fe low high key sig owner message :
  runs Q (OwnerAuthorization low high key sig) (owner, message) -> fe owner /\ fe message.
Proof.
  intros Hr. unfold OwnerAuthorization in Hr. cbind Hr as lb _H. cbind Hr as hb _H1. cbind Hr as k _H2.
  cbind Hr as i Hi. cbind Hr as m Hm. apply runs_ret in Hr. injection Hr as <- <-.
  split; [exact (hash_bytes_fe _ _ _ Hi)|exact (hash_bytes_fe _ _ _ Hm)].
Qed.

Lemma ContainsEach_fe signers ids : Forall fe (ContainsEach signers ids).
Proof. apply Forall_map, Forall_true. intros x. unfold Contains. apply mul_fe. Qed.

(** ** The common statement *)

(** [after] and [tail] are how many fields the variant adds to the public input,
    [width] is how many signers it publishes. *)
Record proved (s : Shape) (after tail width : nat) (t : Transaction) (pkHashes : list Z) (authorized : option (list Z)) : Prop := {
  pv_assigned : tx_assigned t;
  pv_nullifiers : length (Nullifiers t) = NInputs s /\ length (Inputs t) = NInputs s;
  pv_outputs : length (OutputHashes t) = NOutputs s;
  pv_created : length (Outputs t) = NOutputs s;
  pv_slots : length (TreeSlots t) = InputTrees;
  pv_publics : length (PublicAssets t) = NPublicSlots /\ length (PublicAmounts t) = NPublicSlots;
  pv_after : length (PreimageAfterPrivateTxHash t) = after;
  pv_tail : length (PreimageTail t) = tail;
  pv_signers : Forall fe pkHashes /\ runs Q (RightHashChain pkHashes) (SignerPkHashChain t);
  pv_width : length pkHashes = width;
  pv_sound : exists signers signed, tx_sound Q t signers signed /\
    forall owners, authorized = Some owners -> forall i input, Inputs t !! i = Some input ->
      u_Domain (in_Utxo input) <> DummyDomain -> exists pk, signers !! i = Some pk /\ pk <> 0 /\ pk ∈ owners;
}.

Lemma witness_tx_assigned shape cached w ring chain after tail :
  witness_assigned w -> (forall c, cached = Some c -> cache_assigned c) -> fe ring -> fe chain -> Forall fe after -> Forall fe tail ->
  tx_assigned (witness_transaction shape cached w ring chain after tail).
Proof. intros [] Hc Hr Hch Ha Ht. split; try done; [apply wa_assets0|apply wa_amounts0]. Qed.

Lemma transaction_proved shape cached w ring chain after tail extra width signers signed authorized u :
  let t := witness_transaction shape cached w ring chain after tail in
  runs Q (Constrain t signers signed) u -> ValidateLayout t extra = true -> (length (w_SignerPkHashes w), width) ∈ extra ->
  runs Q (RightHashChain (w_SignerPkHashes w)) chain ->
  witness_assigned w -> (forall c, cached = Some c -> cache_assigned c) -> fe ring -> Forall fe after -> Forall fe tail ->
  (NInputs shape <= 80)%nat -> (NOutputs shape <= 1000)%nat -> Forall fe signed ->
  (forall owners, authorized = Some owners -> forall i input, Inputs t !! i = Some input ->
     u_Domain (in_Utxo input) <> DummyDomain -> exists pk, signers !! i = Some pk /\ pk <> 0 /\ pk ∈ owners) ->
  proved shape (length after) (length tail + match cached with Some _ => 2 | None => 0 end) width (prepared t) (w_SignerPkHashes w) authorized.
Proof.
  intros t Hr Hlayout Hwidth Hchain Hw Hcache Hring Hafter Htail Hni Hno Hsigned Hauth.
  assert (fe chain) as Hfc by exact (right_hash_chain_fe _ _ (wa_signers w Hw) Hchain).
  assert (tx_assigned t) as Ht by by apply witness_tx_assigned. pose proof Hw as [].
  pose proof (layout_lengths _ _ Hlayout) as (Hl1 & Hl2 & Hl3 & Hl4 & Hl5 & _ & Hextra).
  rewrite Forall_forall in Hextra. specialize (Hextra _ Hwidth). cbn in Hextra.
  assert (length (PublicAmounts t) <= 1000)%nat as Hnp by (cbn; rewrite (proj2 wa_amounts0); unfold NPublicSlots; lia).
  pose proof (Constrain_sound Q t signers signed extra u Ht eq_refl eq_refl Hsigned Hni Hno Hnp Hlayout Hr) as Hsound.
  pose proof (prepared_assigned t Ht) as Hp. unfold prepared in *. destruct cached as [c|]; cbn [t tx_CachedInputs witness_transaction] in *; split;
    cbn [with_cache witness_transaction Nullifiers Inputs OutputHashes Outputs TreeSlots PublicAssets PublicAmounts PreimageAfterPrivateTxHash
      PreimageTail SignerPkHashChain] in *; try done; try tauto; try (by rewrite length_app); try (by rewrite Nat.add_0_r).
  all: exists signers, signed; split; [exact Hsound|exact Hauth].
Qed.

(** ** The variants *)

(** The transaction a variant proves, with the fields it adds, its signer vector
    and who is authorised. *)
Definition proves (s : Shape) (after tail width : nat) (w : Witness) (authorized : option (list Z)) : Prop :=
  exists t, proved s after tail width t (w_SignerPkHashes w) authorized /\ PublicInputHash t = w_PublicInputHash w.

Lemma prepared_public_input t : PublicInputHash (prepared t) = PublicInputHash t.
Proof. unfold prepared. by destruct (tx_CachedInputs t). Qed.

(** Takes the layout check off a variant's [Define]. *)
Ltac layout Hr Hl :=
  match type of Hr with
  | runs _ (if negb ?b then _ else _) _ => destruct b eqn:Hl; cbn [negb] in Hr; [|by apply runs_panic in Hr]
  end.

(** A list of known field elements. *)
Ltac fes := by repeat (apply Forall_cons; split).

Lemma default_proved c : default_assigned c -> (NInputs (de_Shape c) <= 80)%nat -> (NOutputs (de_Shape c) <= 1000)%nat ->
  runs Q (default_Define c) tt ->
  proves (de_Shape c) 0 3 (SignerWidth (de_Shape c)) (de_Witness c) (Some (w_SignerPkHashes (de_Witness c))).
Proof.
  intros (Hw & Hcache & Howners) Hni Hno Hr. unfold default_Define in Hr. cbind Hr as tx Htx. layout Hr Hl.
  unfold default_transaction in Htx. cbind Htx as chain Hchain. cbind Htx as tail Htail. apply runs_ret in Htx as <-.
  apply right_hash_chain_4_fe in Htail; [|done]. cbind Hr as [] _H1. cbind Hr as signers Hsigners. cbind Hr as [] _H2.
  cbind Hr as [] _H3. exists (prepared (witness_transaction (de_Shape c) (Some (de_CachedInputs c)) (de_Witness c) 0 chain [] [tail])).
  split; [|apply prepared_public_input]. eapply (transaction_proved _ (Some (de_CachedInputs c)) _ 0 chain [] [tail]);
    [exact Hr|exact Hl|apply list_elem_of_here|exact Hchain|exact Hw|by intros ? [= <-]|auto with field|fes|fes|done|done|apply ContainsEach_fe|].
  intros owners [= <-]. eapply AuthorizedEddsaInputOwners_sound; [apply Hw|exact (wa_owners _ Hw)|apply Hw|exact Hsigners].
Qed.

Lemma in_circuit_proved c : in_circuit_assigned c -> (NInputs (ic_Shape c) <= 80)%nat -> (NOutputs (ic_Shape c) <= 1000)%nat ->
  runs Q (in_circuit_Define c) tt ->
  exists owners, proves (ic_Shape c) 2 3 (SignerWidth (ic_Shape c)) (ic_Witness c) (Some (w_SignerPkHashes (ic_Witness c) ++ owners)).
Proof.
  intros (Hw & Hcache & Howners) Hni Hno Hr. unfold in_circuit_Define in Hr. layout Hr Hl1. layout Hr Hl2.
  cbind Hr as auths Hauths. cbind Hr as message Hm. cbind Hr as tx Htx. layout Hr Hl. apply runs_mapM in Hauths.
  assert (Forall (fun a => fe a.1 /\ fe a.2) auths) as Hfa.
  { apply Forall_lookup. intros i [o m] Hi. destruct (Forall2_lookup_r _ _ _ _ _ Hauths Hi) as ([key sg] & _ & Hrun).
    by apply OwnerAuthorization_fe in Hrun. }
  assert (Forall fe (map fst auths)) as Hfo by (apply Forall_map; eapply Forall_impl; [exact Hfa|]; by intros ? []).
  assert (fe message) as Hfm.
  { apply runs_clift, last_Some_elem_of in Hm. apply list_elem_of_fmap in Hm as (a & -> & Ha).
    rewrite Forall_forall in Hfa. by apply Hfa. }
  unfold in_circuit_transaction in Htx. cbind Htx as chain Hchain. cbind Htx as oc Hoc. cbind Htx as tail Htail.
  apply runs_ret in Htx as <-. apply right_hash_chain_4_fe in Htail, Hoc; [|done..].
  cbind Hr as [] _H1. cbind Hr as signers Hsigners. cbind Hr as [] _H2. cbind Hr as [] _H3.
  exists (map fst auths). exists (prepared (witness_transaction (ic_Shape c) (Some (ic_CachedInputs c)) (ic_Witness c) 0 chain [message; oc] [tail])).
  split; [|apply prepared_public_input]. eapply (transaction_proved _ (Some (ic_CachedInputs c)) _ 0 chain [message; oc] [tail]);
    [exact Hr|exact Hl|apply list_elem_of_here|exact Hchain|exact Hw|by intros ? [= <-]|auto with field|fes|fes|done|done|apply ContainsEach_fe|].
  intros owners [= <-]. eapply AuthorizedEddsaInputOwners_sound;
    [apply Hw|exact (wa_owners _ Hw)|apply Forall_app; split; [apply Hw|exact Hfo]|exact Hsigners].
Qed.

Lemma custom_proved c : custom_assigned c -> (NInputs (ce_Shape c) <= 80)%nat -> (NOutputs (ce_Shape c) <= 1000)%nat ->
  runs Q (custom_Define c) tt ->
  proves (ce_Shape c) 0 3 (SignerWidth (ce_Shape c)) (ce_Witness c) (Some (w_SignerPkHashes (ce_Witness c))).
Proof.
  intros (Hw & Hcache & Hring & Hpub & Howners) Hni Hno Hr. unfold custom_Define in Hr. cbind Hr as tx Htx. layout Hr Hl.
  unfold custom_transaction in Htx. cbind Htx as chain Hchain. cbind Htx as tail Htail. apply runs_ret in Htx as <-.
  apply right_hash_chain_4_fe in Htail; [|done]. cbind Hr as [] _H1. cbind Hr as [] _H2. cbind Hr as [] _H3.
  cbind Hr as signers Hsigners. cbind Hr as [] _H4. cbind Hr as [] _H5. exists (prepared (witness_transaction (ce_Shape c) (Some (ce_CachedInputs c)) (ce_Witness c) (ce_RingProgramID c) chain [] [tail])).
  split; [|apply prepared_public_input]. eapply (transaction_proved _ (Some (ce_CachedInputs c)) _ (ce_RingProgramID c) chain [] [tail]);
    [exact Hr|exact Hl|apply list_elem_of_here|exact Hchain|exact Hw|by intros ? [= <-]|auto with field|fes|fes|done|done|apply ContainsEach_fe|].
  intros owners [= <-]. eapply AuthorizedEddsaInputOwners_sound; [apply Hw|exact (wa_owners _ Hw)|apply Hw|exact Hsigners].
Qed.

Lemma anonymous_proved c : anonymous_assigned c -> (NInputs (an_Shape c) <= 80)%nat -> (NOutputs (an_Shape c) <= 1000)%nat ->
  runs Q (anonymous_Define c) tt ->
  exists owner, proves (an_Shape c) 2 3 (SignerWidth (an_Shape c)) (an_Witness c) (Some (w_SignerPkHashes (an_Witness c) ++ [owner])).
Proof.
  intros (Hw & Hcache & Hring & Hdef & Hpub & Howners) Hni Hno Hr. unfold anonymous_Define in Hr.
  cbind Hr as [hidden message] Hauth. cbind Hr as tx Htx. layout Hr Hl. apply OwnerAuthorization_fe in Hauth as [Hfh Hfm].
  unfold anonymous_transaction in Htx. cbind Htx as chain Hchain. cbind Htx as tail Htail. apply runs_ret in Htx as <-.
  apply right_hash_chain_4_fe in Htail; [|done]. cbind Hr as [] _H1. cbind Hr as [] _H2. cbind Hr as [] _H3. cbind Hr as [] _H4.
  cbind Hr as signers Hsigners. cbind Hr as [] _H5. cbind Hr as [] _H6. cbind Hr as [] _H7.
  exists hidden. exists (prepared (witness_transaction (an_Shape c) (Some (an_CachedInputs c)) (an_Witness c) (an_RingProgramID c) chain [message; an_DefaultOwnerPkHash c] [tail])).
  split; [|apply prepared_public_input]. eapply (transaction_proved _ (Some (an_CachedInputs c)) _ (an_RingProgramID c) chain [message; an_DefaultOwnerPkHash c] [tail]);
    [exact Hr|exact Hl|apply list_elem_of_here|exact Hchain|exact Hw|by intros ? [= <-]|auto with field|fes|fes|done|done|apply ContainsEach_fe|].
  intros owners [= <-] i input Hi Hd.
    apply HiddenOwnerSigners_sound in Hsigners as [_ Hs]; [|apply Hw|exact (wa_owners _ Hw)|exact (wa_signers _ Hw)|done].
    destruct (Hs i input Hi Hd) as (pk & ? & ? & Hpk). exists pk. rewrite elem_of_app, list_elem_of_singleton. done.
Qed.

Lemma authority_proved c : authority_assigned c -> (NInputs (au_Shape c) <= 80)%nat -> (NOutputs (au_Shape c) <= 1000)%nat ->
  runs Q (authority_Define c) tt -> proves (au_Shape c) 0 0 1 (au_Witness c) None.
Proof.
  intros (Hw & Hring) Hni Hno Hr. unfold authority_Define in Hr. cbind Hr as tx Htx. layout Hr Hl.
  unfold authority_transaction in Htx. cbind Htx as chain Hchain. apply runs_ret in Htx as <-.
  cbind Hr as [] _H1. cbind Hr as [] _H2. cbind Hr as [] _H3. cbind Hr as signers Hsigners.
  exists (prepared (witness_transaction (au_Shape c) None (au_Witness c) (au_RingProgramID c) chain [] [])).
  split; [|apply prepared_public_input]. eapply (transaction_proved _ None _ (au_RingProgramID c) chain [] []);
    [exact Hr|exact Hl|apply list_elem_of_here|exact Hchain|exact Hw|by intros ? [= <-]|auto with field|fes|fes|done|done|apply ContainsEach_fe|done].
Qed.

End proved.
