(* ===== verification/TxBinding.v ===== *)
(** * What an accepted transact commits to

    The program hashes its own view of a transact to the proof's one public input,
    and the circuit hashes its witness.  With a hash without collisions among the
    preimages known to anybody ([ideal Q]) the two views agree: the nullifiers, the
    output hashes, the tree slots, the flags, the public amounts and the signers of
    the circuit are those of the instruction. *)

From S2P Require Import Prelude ZeroBytes Hasher HashChain Codec TreeTypes TreeSlot Errors Ledger State Shared Circuit Settlement Merge TransactProof ProofInputs PrimeField Gnark Gadgets GadgetSpecs SparseTree ChainSpecs TxCircuit TxSpecs TxBalance TxSound TxVariants TxOwners TxProved MergeCircuit.

(** ** The keys *)

(** What a proof under a verifying key attests: a satisfying assignment of the
    circuit the key was made from, all of whose preimages are in [Q]. *)
Definition key_statement {G : Gnark} {H : CircuitHash} {E : Ed25519Gadget} (Q : list Z -> Prop) (key : PoolKey) (x : Z) : Prop :=
  match key with
  | transfer_confidential i o =>
      exists c, de_Shape c = mkShape (Z.to_nat i) (Z.to_nat o) /\ default_assigned c /\
        w_PublicInputHash (de_Witness c) = x /\ runs Q (default_Define c) tt
  | transfer_ring i o =>
      exists c, ce_Shape c = mkShape (Z.to_nat i) (Z.to_nat o) /\ custom_assigned c /\
        w_PublicInputHash (ce_Witness c) = x /\ runs Q (custom_Define c) tt
  | transfer_eddsa_ring i o =>
      exists c, an_Shape c = mkShape (Z.to_nat i) (Z.to_nat o) /\ anonymous_assigned c /\
        w_PublicInputHash (an_Witness c) = x /\ runs Q (anonymous_Define c) tt
  | transfer_ring_authority i o =>
      exists c, au_Shape c = mkShape (Z.to_nat i) (Z.to_nat o) /\ authority_assigned c /\
        w_PublicInputHash (au_Witness c) = x /\ runs Q (authority_Define c) tt
  | transfer_confidential_eddsa i o =>
      exists c, ic_Shape c = mkShape (Z.to_nat i) (Z.to_nat o) /\ in_circuit_assigned c /\
        w_PublicInputHash (ic_Witness c) = x /\ runs Q (in_circuit_Define c) tt
  | merge n =>
      exists c, Merging.c_NumInputs c = Z.to_nat n /\ Merging.merge_assigned (Merging.circuit_transaction c) /\
        fe (Merging.UserSigningPkHash c) /\ fe (Merging.OutputCiphertextSalt c) /\
        Merging.c_PublicInputHash c = x /\ runs Q (Merging.Define c) tt
  | merge_ring n =>
      exists c, Merging.r_NumInputs c = Z.to_nat n /\ Merging.merge_assigned (Merging.ring_transaction c) /\
        fe (Merging.OutputRingDataHash c) /\ Merging.r_PublicInputHash c = x /\ runs Q (Merging.ring_Define c) tt
  end.

(** Knowledge soundness of the pool's keys, for the proofs somebody can produce. *)
Class PoolKeySound {G : Gnark} {H : CircuitHash} {E : Ed25519Gadget} (V : PoolGroth16) (Q : list Z -> Prop) : Prop :=
  pool_key_sound : forall proof public_input_hash key encoding_err verify_err,
    verify_groth16 proof public_input_hash key encoding_err verify_err = Ok tt ->
    key_statement Q key (be_val public_input_hash).

(** The fields a selector adds to the public input. *)
Definition after_fields (c : CircuitId) : nat := if has_message_hash c then 2 else 0.
Definition tail_fields (c : CircuitId) : nat := if is_authority c then 0 else 3.

Section keys.
Context {G : Gnark} {GL : GnarkLaws G} {H : CircuitHash} {HL : CircuitHashLaw H} {E : Ed25519Gadget}.
Context (Q : list Z -> Prop).

Lemma key_in_table table i o s key k : key_in table i o s key = Some k ->
  k = key i o /\ s = CURRENT_PUBLIC_ASSET_SLOTS /\ (i, o) ∈ table.
Proof.
  unfold key_in. destruct (_ && _) eqn:Hk; [|done]. intros [= <-]. apply andb_true_iff in Hk as [Hk ->%Z.eqb_eq].
  apply existsb_exists in Hk as ([ki ko] & Hin & [->%Z.eqb_eq ->%Z.eqb_eq]%andb_true_iff). split_and!; [done..|by apply list_elem_of_In].
Qed.

Lemma tables_bounded i o : (i, o) ∈ transact_keys ++ authority_keys ++ confidential_eddsa_keys -> 1 <= i <= 49 /\ 1 <= o <= 16.
Proof.
  intros Hin. assert (forallb (fun '(i, o) => (1 <=? i) && (i <=? 49) && (1 <=? o) && (o <=? 16))
    (transact_keys ++ authority_keys ++ confidential_eddsa_keys) = true) as Hall by (vm_compute; reflexivity).
  rewrite forallb_forall in Hall. specialize (Hall (i, o) (proj1 (list_elem_of_In _ _) Hin)). rewrite !andb_true_iff in Hall. lia.
Qed.

(** How many signers a selector publishes. *)
Definition signers_published (c : CircuitId) : nat :=
  if is_authority c then 1 else SignerWidth (mkShape (Z.to_nat (num_inputs c)) (Z.to_nat (num_outputs c))).

(** The transaction behind a key's statement. *)
Lemma transact_key_proves c key x : verifying_key c = Some key -> key_statement Q key x ->
  (1 <= num_inputs c <= 49 /\ 1 <= num_outputs c <= 16 /\ num_public_asset_slots c = CURRENT_PUBLIC_ASSET_SLOTS) /\
  exists w extra, w_PublicInputHash w = x /\ (has_message_hash c = false -> extra = []) /\
    proves Q (mkShape (Z.to_nat (num_inputs c)) (Z.to_nat (num_outputs c))) (after_fields c) (tail_fields c) (signers_published c) w
      (if is_authority c then None else Some (w_SignerPkHashes w ++ extra)).
Proof.
  intros Hkey Hst. unfold verifying_key in Hkey.
  assert (forall table key', key_in table (num_inputs c) (num_outputs c) (num_public_asset_slots c) key' = Some key ->
    incl table (transact_keys ++ authority_keys ++ confidential_eddsa_keys) ->
    (1 <= num_inputs c <= 49 /\ 1 <= num_outputs c <= 16 /\ num_public_asset_slots c = CURRENT_PUBLIC_ASSET_SLOTS) /\
    key = key' (num_inputs c) (num_outputs c)) as Htable.
  { intros table key' (-> & Hs & Hin)%key_in_table Hincl. apply list_elem_of_In, Hincl, list_elem_of_In, tables_bounded in Hin. tauto. }
  assert (forall l1 l2 l3 : list (Z * Z), incl l1 (l1 ++ l2 ++ l3) /\ incl l2 (l1 ++ l2 ++ l3) /\ incl l3 (l1 ++ l2 ++ l3)) as Hincl.
  { intros. split_and!; intros y Hy; rewrite !in_app_iff; tauto. }
  specialize (Hincl transact_keys authority_keys confidential_eddsa_keys) as (Hi1 & Hi2 & Hi3).
  unfold signers_published, after_fields, tail_fields.
  destruct c; cbn [uncached circuit_shape num_inputs num_outputs num_public_asset_slots fst snd is_authority has_message_hash] in *;
    (apply Htable in Hkey as [Hb ->]; [|done]); (split; [exact Hb|]); destruct Hst as (cc & Hsh & Ha & Hx & Hrun); 
    first
    [ exists (de_Witness cc), []; rewrite app_nil_r, <- Hsh; split_and!; [done|done|]; apply default_proved; [done|rewrite Hsh; cbn; lia..|done]
    | exists (ce_Witness cc), []; rewrite app_nil_r, <- Hsh; split_and!; [done|done|]; apply custom_proved; [done|rewrite Hsh; cbn; lia..|done]
    | exists (au_Witness cc), []; rewrite <- Hsh; split_and!; [done|done|]; apply authority_proved; [done|rewrite Hsh; cbn; lia..|done]
    | apply in_circuit_proved in Hrun as [owners Hp]; [|done|rewrite Hsh; cbn; lia..]; exists (ic_Witness cc), owners;
      rewrite <- Hsh; by split_and!
    | apply anonymous_proved in Hrun as [owner Hp]; [|done|rewrite Hsh; cbn; lia..]; exists (an_Witness cc), [owner];
      rewrite <- Hsh; by split_and! ].
Qed.

End keys.

(** ** The program's fields *)

Section fields.
Context `{SP : SolPoseidon} `{SH : SolHash} `{F : ArkFr}.

(** The elements of the public input, by what computed them. *)
Record fields_view (ix : TransactIxData) (d : TransactProofInputs) (fields : list bytes) (nc oc sc sg : bytes)
    (mid publics tail : list bytes) : Prop := {
  fv_fields : fields = [nc; oc; sc; output_tree_id d; ti_private_tx_hash ix] ++ mid ++ [external_data_hash d] ++ publics ++
    [ring_program_id d; sg; input_flags d] ++ tail;
  fv_nullifiers : create_padded_right_hash_chain_4 (map nullifier_hash (ti_inputs ix)) (Z.to_nat (num_inputs (ti_circuit ix))) = Ok nc;
  fv_outputs : create_padded_right_hash_chain_4 (map to_utxo_hash (ti_outputs ix)) (Z.to_nat (num_outputs (ti_circuit ix))) = Ok oc;
  fv_slots : populated_tree_slots_hash_chain (tree_slots d) = Ok sc;
  fv_publics : amount_fields (zip (take (Z.to_nat (num_public_asset_slots (ti_circuit ix))) (public_slot_assets d))
    (take (Z.to_nat (num_public_asset_slots (ti_circuit ix))) (public_slot_amounts d))) = Ok publics;
  fv_signers : fixed_signer_hash_chain (take (Z.to_nat (unique_owner_signer_count d)) (signer_pk_hashes d))
    (signers_published (ti_circuit ix)) = Ok sg;
  fv_after : length mid = after_fields (ti_circuit ix);
  fv_tail : length tail = tail_fields (ti_circuit ix);
  fv_lengths : (Z.to_nat (num_public_asset_slots (ti_circuit ix)) <= length (public_slot_assets d))%nat /\
    (Z.to_nat (num_public_asset_slots (ti_circuit ix)) <= length (public_slot_amounts d))%nat;
}.

Lemma owner_slots_agree n : owner_signer_slots n = OwnerSignerSlots n.
Proof.
  unfold owner_signer_slots, OwnerSignerSlots, MAX_TRANSACTION_ADDRESSES, FIXED_TRANSACT_ADDRESSES, MaxTransactionAddresses, FixedTransactAddresses.
  destruct (Nat.ltb_spec n (64 - (4 + n))); lia.
Qed.

Lemma signers_published_agrees c :
  (if requires_input_signatures c then signer_width (TreeSlot.mkShape (Z.to_nat (num_inputs c)) (Z.to_nat (num_outputs c))) else 1%nat)
  = signers_published c.
Proof.
  unfold signers_published, requires_input_signatures, signer_width, SignerWidth. cbn [n_inputs NInputs]. rewrite owner_slots_agree.
  by destruct (is_authority c).
Qed.

Lemma guarded_Some {A} (b : bool) (v y : A) : (if b then Some v else None) = Some y -> b = true /\ v = y.
Proof. destruct b; [by intros [= ->]|done]. Qed.

Lemma public_fields_view ix d fields : public_fields ix d = Ok fields ->
  exists nc oc sc sg mid publics tail, fields_view ix d fields nc oc sc sg mid publics tail.
Proof.
  unfold public_fields, get_prefix, Merge.hashed. rewrite signers_published_agrees. set (c := ti_circuit ix). intros Hr. run_inv.
  repeat match goal with H : (if _ then _ else None) = Some _ |- _ => apply guarded_Some in H as [? <-] end.
  match type of Hr with fits (?l ++ ?m1 ++ ?m2 ++ ?m3 ++ ?r1 ++ ?p ++ ?r2 ++ ?t) = _ => rename m1 into message, m2 into eddsa, m3 into anonymous, p into publics, t into tail end.
  unfold fits in Hr. destruct (_ <=? FIELDS_CAPACITY)%nat; [|done]. injection Hr as <-.
  eexists _, _, _, _, (message ++ eddsa ++ anonymous), publics, tail. split; try eassumption; [by rewrite <- !app_assoc| | |by split; apply Nat.leb_le].
  all: fold c.
  - match goal with H : (if has_message_hash c then _ else _) = Ok message |- _ => rename H into Hm end.
    match goal with H : match eddsa_owner_pk c with _ => _ end = Ok eddsa |- _ => rename H into He end.
    match goal with H : (if is_anonymous c then _ else _) = Ok anonymous |- _ => rename H into Ha end.
    rewrite !length_app. unfold after_fields. clearbody c. destruct c; cbn in Hm, He, Ha |- *; run_inv; try done;
    match goal with H : match ?o with _ => _ end = Ok anonymous |- _ => destruct o; run_inv; done end.
  - match goal with H : match output_owner_mode c with _ => _ end = Ok tail |- _ => rename H into Ht end.
    unfold tail_fields. clearbody c. destruct c; cbn in Ht |- *; run_inv; try done;
    match goal with p : bytes * bytes |- _ => destruct p end; run_inv; done.
Qed.

End fields.

(** ** Values of the program's chains *)

Definition pad (n : nat) (l : list bytes) : list bytes := l ++ replicate (n - length l) zero32.

(** A slot of the program as the circuit's. *)
Definition slot_value (s : TreeSlot.TreeSlot) : TxCircuit.TreeSlot :=
  mkTreeSlot (be_val (slot_id s)) (be_val (utxo_root s)) (be_val (nullifier_root s)).

Definition padded_slots (slots : list TreeSlot.TreeSlot) : list TreeSlot.TreeSlot :=
  slots ++ replicate (INPUT_TREES - length slots) slot_ZERO.

Section values.
Context {G : Gnark} {GL : GnarkLaws G} {H : CircuitHash} {HL : CircuitHashLaw H}.
Context {SP : SolPoseidon} {PA : PoseidonAgrees SP H} {PC : PoseidonChecked SP}.
Context (Q : list Z -> Prop).

Lemma hash_chain_4_value l v w : create_hash_chain_4 l = Ok v -> canonical v ->
  runs Q (HashChain4 (map be_val l)) w -> w = be_val v.
Proof.
  intros Hc Hv Hr. pose proof (hash_chain_4_checked l v Hc Hv) as Hl.
  destruct (HashChain4_agrees _ (be_vals_fe _ Hl)) as (w0 & Hw0 & Hrun & Hp). rewrite map_fbytes_be_val, Hc in Hp by done.
  injection Hp as ->. rewrite be_val_fbytes by done. by eapply runs_det.
Qed.

Lemma right_hash_chain_4_value l v w : create_right_hash_chain_4_from_slice l = Ok v -> canonical v ->
  runs Q (RightHashChain4 (map be_val l)) w -> w = be_val v.
Proof.
  intros Hc Hv Hr. pose proof (right_hash_chain_4_checked l v Hc Hv) as Hl.
  destruct (RightHashChain4_agrees _ (be_vals_fe _ Hl)) as (w0 & Hw0 & Hrun & Hp). rewrite map_fbytes_be_val, Hc in Hp by done.
  injection Hp as ->. rewrite be_val_fbytes by done. by eapply runs_det.
Qed.

Lemma right_hash_chain_value l v w : create_right_hash_chain_from_slice l = Ok v -> canonical v ->
  runs Q (RightHashChain (map be_val l)) w -> w = be_val v.
Proof.
  intros Hc Hv Hr. pose proof (right_hash_chain_checked l v Hc Hv) as Hl.
  destruct (RightHashChain_agrees _ (be_vals_fe _ Hl)) as (w0 & Hw0 & Hrun & Hp). rewrite map_fbytes_be_val, Hc in Hp by done.
  injection Hp as ->. rewrite be_val_fbytes by done. by eapply runs_det.
Qed.

Lemma padded_chain_value l n v w : zero_suffix_law -> create_padded_right_hash_chain_4 l n = Ok v -> canonical v ->
  runs Q (RightHashChain4 (map be_val (pad n l))) w -> w = be_val v /\ (length l <= n)%nat.
Proof.
  intros Hlaw Hc Hv Hr. rewrite padded_right_chain_spec in Hc by done. destruct (decide _); [done|]. destruct (decide _) as [|Hle]; [done|].
  split; [by eapply right_hash_chain_4_value|lia].
Qed.

Lemma slots_chain_fe slots v : runs Q (TreeSlotsHashChain slots) v -> fe v.
Proof.
  unfold TreeSlotsHashChain. intros Hs. cbind Hs as hs Hhs. apply right_hash_chain_fe in Hs; [done|].
  apply runs_mapM in Hhs. clear -Hhs HL. induction Hhs as [|s h ss hs Hs Hss IH]; constructor; [|done].
  unfold Hash in Hs. apply runs_poseidon in Hs as [-> _]; [apply poseidon_fe|simpl; lia].
Qed.

(** The slots of a hashed chain are canonical, and hash to the circuit's. *)
Lemma slot_hashes_value slots hs ws : slot_hashes slots = Ok hs -> runs Q (mapM Hash (map slot_value slots)) ws ->
  ws = map be_val hs /\ Forall canonical_slot slots.
Proof.
  revert hs ws. induction slots as [|s slots IH]; intros hs ws Hh Hr; cbn [slot_hashes map mapM] in *.
  - injection Hh as <-. apply runs_ret in Hr as <-. done.
  - run_inv. cbind Hr as w Hw. cbind Hr as ws' Hws. apply runs_ret in Hr as <-. destruct (IH _ _ ltac:(done) Hws) as [-> Hs].
    match goal with H : slot_hash s = Ok _ |- _ => rename H into Hslot end. unfold slot_hash in Hslot.
    pose proof (hashv_checked _ _ Hslot) as Hc. rewrite !Forall_cons in Hc. destruct Hc as (Hid & Hu & Hn & _).
    unfold Hash in Hw. apply runs_poseidon in Hw as [-> _]; [|simpl; lia]. cbn [slot_value slot_ID slot_UtxoRoot slot_NullifierRoot].
    split; [|by constructor]. cbn [map]. f_equal.
    assert (Forall fe [be_val (slot_id s); be_val (utxo_root s); be_val (nullifier_root s)]) as Hfe
      by (repeat (apply Forall_cons; split); try done; by apply canonical_fe).
    pose proof (hashv_agrees [_; _; _] ltac:(simpl; lia) Hfe) as Hp. cbn [map] in Hp. rewrite !fbytes_be_val in Hp by (by destruct Hid, Hu, Hn).
    rewrite Hslot in Hp. injection Hp as ->. by rewrite be_val_fbytes by apply poseidon_fe.
Qed.

Lemma slots_chain_value slots v w : tree_slots_hash_chain slots = Ok v -> canonical v ->
  runs Q (TreeSlotsHashChain (map slot_value slots)) w -> w = be_val v /\ Forall canonical_slot slots.
Proof.
  intros Hc Hv Hr. unfold tree_slots_hash_chain in Hc. run_inv. unfold TreeSlotsHashChain in Hr. cbind Hr as ws Hws.
  destruct (slot_hashes_value _ _ _ ltac:(done) Hws) as [-> Hs]. split; [|done]. by eapply right_hash_chain_value.
Qed.

Lemma populated_chain_value slots v w : slot_suffix_law -> populated_tree_slots_hash_chain slots = Ok v -> canonical v ->
  runs Q (TreeSlotsHashChain (map slot_value (padded_slots slots))) w ->
  w = be_val v /\ Forall canonical_slot slots /\ (1 <= length slots <= INPUT_TREES)%nat.
Proof.
  intros Hlaw Hc Hv Hr. assert (1 <= length slots <= INPUT_TREES)%nat as Hlen.
  { unfold populated_tree_slots_hash_chain in Hc. run_inv. destruct (Nat.eqb_spec (length slots) 0), (Nat.ltb_spec INPUT_TREES (length slots)); cbn in Hc; (done || lia). }
  rewrite populated_unfold in Hc by done. destruct (slots_chain_value _ _ _ Hc Hv Hr) as [-> Hs]. split_and!; [done| |lia..].
  by apply Forall_app in Hs as [? _].
Qed.

Lemma TreeSlotsHashChain_binding l k v : ideal Q -> length l = length k ->
  runs Q (TreeSlotsHashChain l) v -> runs Q (TreeSlotsHashChain k) v -> l = k.
Proof.
  intros HQ Hlen H1 H2. unfold TreeSlotsHashChain in *. cbind H1 as hl Hl. cbind H2 as hk Hk. apply runs_mapM in Hl, Hk.
  assert (hl = hk) as ->.
  { eapply (RightHashChain_binding Q HQ); [|done..]. by rewrite <- (Forall2_length _ _ _ Hl), <- (Forall2_length _ _ _ Hk). }
  clear H1 H2. revert k hk Hlen Hl Hk. induction l as [|s l IH]; intros [|s' k] hk Hlen Hl Hk; try done.
  apply Forall2_cons_inv_l in Hl as (h & hs & Hs & Hl & ->). apply Forall2_cons in Hk as [Hs' Hk]. unfold Hash in Hs, Hs'.
  apply runs_poseidon in Hs as [-> HQ1], Hs' as [E HQ2]; [|simpl; lia..]. apply (ideal_inj Q HQ) in E; [|done..].
  f_equal; [destruct s, s'; cbn in E; congruence|]. by eapply IH; [injection Hlen|..].
Qed.

End values.

(** ** The instruction and the assignment *)

(** The pairs of a public slot. *)
Lemma publicSlots_inj assets amounts assets' amounts' :
  length assets = length amounts -> length assets' = length amounts' ->
  publicSlots assets amounts = publicSlots assets' amounts' -> assets = assets' /\ amounts = amounts'.
Proof.
  revert amounts assets' amounts'. induction assets as [|x assets IH]; intros [|a amounts] [|x' assets'] [|a' amounts'] H1 H2 Heq; try done.
  cbn in Heq. injection Heq as -> -> Heq. by edestruct (IH amounts assets' amounts') as [-> ->]; [injection H1|injection H2|..].
Qed.

Lemma length_publicSlots assets amounts : length assets = length amounts -> length (publicSlots assets amounts) = (2 * length assets)%nat.
Proof.
  revert amounts. induction assets as [|x assets IH]; intros [|a amounts] Hl; try done. cbn [publicSlots zip_with concat app length].
  fold (publicSlots assets amounts). rewrite IH by (by injection Hl). lia.
Qed.

Lemma amount_fields_value `{F : ArkFr} {FL : ArkFrLaws F} assets amounts fields : length assets = length amounts ->
  amount_fields (zip assets amounts) = Ok fields ->
  map be_val fields = publicSlots (map be_val assets) (map (fun a => a mod bn254_modulus) amounts) /\
  Forall (fun a => Z.abs a < 2 ^ 64) amounts.
Proof.
  revert amounts fields. induction assets as [|x assets IH]; intros [|a amounts] fields Hl Hf; try done; cbn [zip zip_with amount_fields map] in *.
  - by injection Hf as <-.
  - rewrite amount_field_value in Hf. destruct (Z.ltb_spec (Z.abs a) (2 ^ 64)) as [Ha|]; [|done]. cbn [rbind] in Hf. run_inv.
    destruct (IH amounts x0 ltac:(by injection Hl) ltac:(done)) as [Hx Hr]. split; [|by constructor]. cbn [map publicSlots zip_with concat app].
    fold (publicSlots (map be_val assets) (map (fun a => a mod bn254_modulus) amounts)). rewrite be_val_be_bytes, Hx; [done|].
    pose proof (Z.mod_pos_bound a bn254_modulus ltac:(by vm_compute)). assert (bn254_modulus < 2 ^ (8 * 32)) by (by vm_compute). lia.
Qed.

(** What the assignment is, in terms of the instruction and its proof inputs. *)
Record commits (ix : TransactIxData) (d : TransactProofInputs) (t : Transaction) (pkHashes : list Z) : Prop := {
  cm_nullifiers : Nullifiers t = map be_val (pad (Z.to_nat (num_inputs (ti_circuit ix))) (map nullifier_hash (ti_inputs ix)));
  cm_outputs : OutputHashes t = map be_val (pad (Z.to_nat (num_outputs (ti_circuit ix))) (map to_utxo_hash (ti_outputs ix)));
  cm_slots : TreeSlots t = map slot_value (padded_slots (tree_slots d));
  cm_output_tree : OutputTreeID t = be_val (output_tree_id d);
  cm_private_tx : PrivateTxHash t = be_val (ti_private_tx_hash ix);
  cm_external : ExternalDataHash t = be_val (external_data_hash d);
  cm_assets : PublicAssets t = map be_val (take NPublicSlots (public_slot_assets d));
  cm_amounts : PublicAmounts t = map (fun a => a mod bn254_modulus) (take NPublicSlots (public_slot_amounts d));
  cm_ring : RingProgramID t = be_val (ring_program_id d);
  cm_signers : pkHashes = map be_val (pad (signers_published (ti_circuit ix)) (take (Z.to_nat (unique_owner_signer_count d)) (signer_pk_hashes d)));
  cm_flags : InputFlags t = be_val (input_flags d);
}.

(** The program's own hashing, when nobody else did it, adds the preimages of
    these chains to [Q]. *)
Record transact_hashed {G : Gnark} {H : CircuitHash} {SP : SolPoseidon} {SH : SolHash} {F : ArkFr} (Q : list Z -> Prop)
    (ix : TransactIxData) (d : TransactProofInputs) : Prop := {
  th_fields : forall fields, public_fields ix d = Ok fields -> exists v, runs Q (HashChain4 (map be_val fields)) v;
  th_nullifiers : exists v, runs Q (RightHashChain4 (map be_val (pad (Z.to_nat (num_inputs (ti_circuit ix))) (map nullifier_hash (ti_inputs ix))))) v;
  th_outputs : exists v, runs Q (RightHashChain4 (map be_val (pad (Z.to_nat (num_outputs (ti_circuit ix))) (map to_utxo_hash (ti_outputs ix))))) v;
  th_slots : exists v, runs Q (TreeSlotsHashChain (map slot_value (padded_slots (tree_slots d)))) v;
  th_signers : exists v, runs Q (RightHashChain (map be_val
    (pad (signers_published (ti_circuit ix)) (take (Z.to_nat (unique_owner_signer_count d)) (signer_pk_hashes d))))) v;
}.

Section accepted.
Context {G : Gnark} {GL : GnarkLaws G} {H : CircuitHash} {HL : CircuitHashLaw H} {E : Ed25519Gadget}.
Context {SP : SolPoseidon} {PA : PoseidonAgrees SP H} {PC : PoseidonChecked SP} {PF : PoseidonField SP}.
Context {SH : SolHash} {V : PoolGroth16} {F : ArkFr} {FL : ArkFrLaws F}.
Context (Q : list Z -> Prop) (HQ : ideal Q) {KS : PoolKeySound V Q}.
Context (Hzero : zero_suffix_law) (Hslot : slot_suffix_law) (Hsigner : signer_suffix_law).

Lemma rfold_canonical {C} (mk : bytes -> C -> list bytes) x l v :
  rfold (fun h g => Poseidon.hashv (mk h g)) x l = Ok v -> l <> [] -> canonical v.
Proof.
  revert x. induction l as [|g l IH]; intros x; cbn [rfold]; [done|].
  destruct (Poseidon.hashv (mk x g)) as [h|e|] eqn:Hh; [|done..]. cbn [rbind]. intros Hr _. apply hashv_canonical in Hh.
  destruct l; [by injection Hr as <-|by apply (IH h Hr)].
Qed.

Lemma hash_chain_4_canonical x y l v : create_hash_chain_4 (x :: y :: l) = Ok v -> canonical v.
Proof.
  cbn [create_hash_chain_4]. rewrite hash_chain_4_loop_chunks. intros Hr. apply (rfold_canonical (fun h g => h :: group_slots g) _ _ _ Hr).
  intros Hn. pose proof (concat_chunks 3 (y :: l) ltac:(lia)) as Hc. by rewrite Hn in Hc.
Qed.

Lemma signer_chain_value hashes width v w : fixed_signer_hash_chain hashes width = Ok v -> canonical v ->
  runs Q (RightHashChain (map be_val (pad width hashes))) w -> w = be_val v /\ (length hashes <= width)%nat.
Proof.
  intros Hc Hv Hr. rewrite signer_chain_padded in Hc by done. destruct (_ && _) eqn:Hb; [|done]. rewrite !andb_true_iff, !Nat.leb_le in Hb.
  run_inv. split; [by eapply right_hash_chain_value|tauto].
Qed.

Lemma length_pad n l : (length l <= n)%nat -> length (pad n l) = n.
Proof. intros Hl. unfold pad. rewrite length_app, length_replicate. lia. Qed.

Lemma length_padded_slots slots : (length slots <= INPUT_TREES)%nat -> length (padded_slots slots) = INPUT_TREES.
Proof. intros Hl. unfold padded_slots. rewrite length_app, length_replicate. lia. Qed.

(** The chains of the two sides bind their elements. *)
Lemma view_commits ix d t s width pk authorized fields nc oc sc sg mid publics tail after pih :
  fields_view ix d fields nc oc sc sg mid publics tail -> transact_hashed Q ix d -> Forall canonical fields ->
  num_public_asset_slots (ti_circuit ix) = CURRENT_PUBLIC_ASSET_SLOTS ->
  s = mkShape (Z.to_nat (num_inputs (ti_circuit ix))) (Z.to_nat (num_outputs (ti_circuit ix))) ->
  width = signers_published (ti_circuit ix) ->
  proved Q s after (length tail) width t pk authorized -> after = length mid ->
  runs Q (HashChain4 (map be_val fields)) pih -> runs Q (publicInputHash t) pih ->
  commits ix d t pk.
Proof.
  intros [-> Hnc Hoc Hsc Hpub Hsg Hafter Htail [La Lm]] [_ [nv Hnv] [ov Hov] [sv Hsv] [gv Hgv]] Hcan Hslots -> -> Hp -> Hf Hr.
  rewrite !Forall_app, !Forall_cons in Hcan. destruct Hcan as ((Cn & Co & Cs & _) & _ & _ & _ & (_ & Cg & _) & _).
  destruct (padded_chain_value Q _ _ _ _ Hzero Hnc Cn Hnv) as [-> Ln]. destruct (padded_chain_value Q _ _ _ _ Hzero Hoc Co Hov) as [-> Lo].
  destruct (populated_chain_value Q _ _ _ Hslot Hsc Cs Hsv) as (-> & _ & Ls). destruct (signer_chain_value _ _ _ _ Hsg Cg Hgv) as [-> Lg].
  assert (Z.to_nat (num_public_asset_slots (ti_circuit ix)) = NPublicSlots) as Hslots' by (by rewrite Hslots). clear Hslots.
  rewrite Hslots' in Hpub, La, Lm. clear Hslots'.
  assert (length (take NPublicSlots (public_slot_assets d)) = NPublicSlots /\ length (take NPublicSlots (public_slot_amounts d)) = NPublicSlots)
    as [Ta Tm] by (rewrite !length_take; lia).
  destruct (amount_fields_value _ _ _ (eq_trans Ta (eq_sym Tm)) Hpub) as [Hpub' _].
  unfold publicInputHash in Hr. cbind Hr as nv Hn. cbind Hr as ov Ho. cbind Hr as sv Hs.
  destruct Hp as [_ [Pn _] Po _ Ps [Pa Pm] Paf Pt [_ Hg] Pw _]. cbn [NInputs NOutputs] in *.
  rewrite !map_app, Hpub' in Hf. 
  assert (length (publicSlots (PublicAssets t) (PublicAmounts t)) =
    length (publicSlots (map be_val (take NPublicSlots (public_slot_assets d))) (map (fun a => a mod bn254_modulus) (take NPublicSlots (public_slot_amounts d))))) as Lp.
  { rewrite !length_publicSlots by (rewrite ?length_map; congruence). rewrite length_map. congruence. }
  eapply (HashChain4_binding Q HQ) in Hf; [|clear Hf|exact Hr]; [|rewrite !length_app, !length_map; cbn [length]; lia].
  cbn [map app] in Hf. injection Hf as -> -> -> Htree Hprivate Hf. apply app_inj_1 in Hf as [_ Hf]; [|by rewrite length_map].
  injection Hf as Hext Hf. apply app_inj_1 in Hf as [Hp Hf]; [|done]. injection Hf as Hring Hsig Hflags _. rewrite Hsig in Hg.
  apply publicSlots_inj in Hp as [Hassets Hamounts]; [|rewrite ?length_map; congruence..].
  split; try done.
  - apply (RightHashChain4_binding Q HQ _ _ (be_val nc)); [|done..]. rewrite length_map, length_pad; [done|lia].
  - apply (RightHashChain4_binding Q HQ _ _ (be_val oc)); [|done..]. rewrite length_map, length_pad; [done|lia].
  - apply (TreeSlotsHashChain_binding Q _ _ (be_val sc)); [done| |done..]. rewrite length_map, length_padded_slots; [done|lia].
  - apply (RightHashChain_binding Q HQ _ _ (be_val sg)); [|done..]. rewrite length_map, length_pad; [done|lia].
Qed.

Lemma publicSlots_fe assets amounts : Forall fe assets -> Forall fe amounts -> Forall fe (publicSlots assets amounts).
Proof.
  intros Ha. revert amounts. induction Ha as [|x assets Hx Ha IH]; intros [|a amounts] Hm; try constructor; [done|].
  apply Forall_cons in Hm as [Hm1 Hm]. constructor; [done|]. by apply IH.
Qed.

Lemma publicInputHash_fe t v : tx_assigned t -> runs Q (publicInputHash t) v -> fe v.
Proof.
  intros Ht Hr. pose proof Ht as []. unfold publicInputHash in Hr. cbind Hr as nv Hn. cbind Hr as ov Ho. cbind Hr as sv Hs.
  apply right_hash_chain_4_fe in Hn, Ho; [|done..]. apply slots_chain_fe in Hs.
  eapply hash_chain_4_fe; [exact Hr|]. rewrite !Forall_app, !Forall_cons, !Forall_nil. split_and!; try done. by apply publicSlots_fe.
Qed.

(** The owners whose signature a selector's proof stands for, beside those of
    the instruction. *)
Definition authorized_owners (c : CircuitId) (pkHashes extra : list Z) : option (list Z) :=
  if is_authority c then None else Some (pkHashes ++ extra).

(** An accepted proof is of a transaction with the instruction's values. *)
Lemma transact_commits ix d : transact_verify ix d = Ok tt -> transact_hashed Q ix d ->
  exists t pk extra, commits ix d t pk /\ (has_message_hash (ti_circuit ix) = false -> extra = []) /\
    (1 <= num_inputs (ti_circuit ix) <= 49 /\ 1 <= num_outputs (ti_circuit ix) <= 16) /\
    proved Q (mkShape (Z.to_nat (num_inputs (ti_circuit ix))) (Z.to_nat (num_outputs (ti_circuit ix))))
      (after_fields (ti_circuit ix)) (tail_fields (ti_circuit ix)) (signers_published (ti_circuit ix)) t pk
      (authorized_owners (ti_circuit ix) pk extra).
Proof.
  intros Hv Hh. unfold transact_verify, public_input_hash, Merge.hashed, create_hash_chain_4_from_slice in Hv. run_inv.
  match goal with H : public_fields ix d = Ok ?f |- _ => rename H into Hfields, f into fields end.
  match goal with H : create_hash_chain_4 fields = Ok ?f |- _ => rename H into Hpih, f into pih end.
  match goal with H : verifying_key _ = Some ?f |- _ => rename H into Hkey, f into key end.
  apply pool_key_sound in Hv. destruct (transact_key_proves Q _ _ _ Hkey Hv) as ((Hi & Ho & Hs) & w & extra & Hx & He & t & Hp & Hpt).
  exists t, (w_SignerPkHashes w), extra. destruct (public_fields_view _ _ _ Hfields) as (nc & oc & sc & sg & mid & publics & tail & Hview).
  split; [|exact (conj He (conj (conj Hi Ho) Hp))]. assert (canonical pih) as Hc.
  { rewrite (fv_fields _ _ _ _ _ _ _ _ _ _ Hview) in Hpih. by apply hash_chain_4_canonical in Hpih. }
  destruct (th_fields Q ix d Hh _ Hfields) as [v Hrun]. rewrite (hash_chain_4_value Q _ _ _ Hpih Hc Hrun) in Hrun.
  destruct (pv_sound _ _ _ _ _ _ _ _ Hp) as (signers & signed & Hsound & _). destruct (ts_public _ _ _ _ Hsound) as (v' & Hrun' & Heq).
  assert (v' = be_val pih) as ->.
  { rewrite <- Hx, <- Hpt. symmetry. revert Heq. apply runs_equal; [exact (ta_public _ (pv_assigned _ _ _ _ _ _ _ _ Hp))|].
    exact (publicInputHash_fe _ _ (pv_assigned _ _ _ _ _ _ _ _ Hp) Hrun'). }
  eapply view_commits; try done; [exact (hash_chain_4_checked _ _ Hpih Hc)|].
  rewrite (fv_after _ _ _ _ _ _ _ _ _ _ Hview), (fv_tail _ _ _ _ _ _ _ _ _ _ Hview). exact Hp.
Qed.

End accepted.
