(* ===== verification/MergeBinding.v ===== *)
(** * What an accepted merge commits to

    As [TxBinding] for the two merge instructions: the program hashes seven common
    fields and continues the chain with the rail's own, which is one chain over
    all of them, and the circuit's chain is over the same number of fields. *)

From S2P Require Import Prelude ZeroBytes Hasher HashChain Codec TreeTypes TreeSlot Errors Ledger State Shared Circuit Settlement Merge TransactProof ProofInputs PrimeField Gnark Gadgets GadgetSpecs SparseTree ChainSpecs TxCircuit TxSpecs TxBalance TxSound TxVariants TxOwners TxProved MergeCircuit TxBinding.

(** The fields after the common ones. *)
Definition merge_tail (b : MergeOwnerBinding) : list bytes :=
  match b with
  | BindDefault signing_pk_field nullifier_pk (PoseidonCtrV1 salt ciphertext) =>
      [signing_pk_field; nullifier_pk; right_align salt] ++ ciphertext
  | BindRing ring_program_id output_ring_data_hash => [output_ring_data_hash; ring_program_id]
  end.

Definition merge_fields (ix : MergeTransactIxData) (d : MergeProofInputs) (nullifier_chain slot_chain : bytes) : list bytes :=
  [nullifier_chain; mt_output_utxo_hash ix; slot_chain; mi_output_tree_id d; mt_private_tx_hash ix; mi_external_data_hash d;
   mi_allow_dummy_inputs d] ++ merge_tail (mi_owner_binding d).

(** How many fields the rail's circuit adds. *)
Definition tail_length (b : MergeOwnerBinding) : nat := match b with BindDefault _ _ _ => 6 | BindRing _ _ => 2 end.

Section fields.
Context `{SP : SolPoseidon}.

Record merge_view (ix : MergeTransactIxData) (d : MergeProofInputs) (pih : bytes) (width : nat) (nc sc : bytes) : Prop := {
  mv_width : merge_circuit_width (length (mt_nullifiers ix)) = Some width;
  mv_nullifiers : create_padded_right_hash_chain_4 (mt_nullifiers ix) width = Ok nc;
  mv_slots : populated_tree_slots_hash_chain [mi_tree_slot d] = Ok sc;
  mv_hash : create_hash_chain_4 (merge_fields ix d nc sc) = Ok pih;
}.

(** Hashing the common fields first is the same chain. *)
Lemma chain_continues x0 x1 x2 x3 x4 x5 x6 h tail v : create_hash_chain_4 [x0; x1; x2; x3; x4; x5; x6] = Ok h ->
  create_hash_chain_4 (h :: tail) = Ok v -> create_hash_chain_4 ([x0; x1; x2; x3; x4; x5; x6] ++ tail) = Ok v.
Proof.
  intros H1 H2. cbn [create_hash_chain_4 app] in *. cbn [hash_chain_4_loop] in H1 |- *. run_inv.
  repeat match goal with H : Poseidon.hashv _ = Ok _ |- _ => rewrite H; cbn [rbind]; clear H end. done.
Qed.

Lemma merge_fields_view ix d pih : merge_public_input_hash ix d = Ok pih -> exists width nc sc, merge_view ix d pih width nc sc.
Proof.
  unfold merge_public_input_hash, circuit_width, Merge.hashed, create_hash_chain_4_from_slice. intros Hr. run_inv.
  eexists _, _, _. split; try eassumption. unfold merge_fields.
  destruct (mi_owner_binding d) as [s n [salt ct]|r o]; run_inv.
  - unfold append_public_inputs, try_push, try_extend in *. cbn [length Nat.ltb Nat.leb mbind option_bind] in *.
    match goal with H : mbind _ _ = Some _ |- _ => cbn in H end.
    match goal with H : (if ?b then Some _ else None) = Some _ |- _ => destruct b; [injection H as <-|done] end.
    by eapply chain_continues.
  - by eapply chain_continues.
Qed.

End fields.

(** ** The circuits *)

Section circuits.
Context {G : Gnark} {GL : GnarkLaws G} {H : CircuitHash} {HL : CircuitHashLaw H} {E : Ed25519Gadget}.
Context (Q : list Z -> Prop).

(** The common fields of the public input, in the circuit. *)
Definition common_fields (p : Merging.CommonPublicInputs) (nc sc : Z) : list Z :=
  [nc; Merging.p_OutputHash p; sc; Merging.p_OutputTreeID p; Merging.p_PrivateTxHash p; Merging.p_ExternalDataHash p;
   Merging.p_AllowDummyInputs p].

(** What a key of [n] inputs whose rail adds [k] fields attests for [x]. *)
Definition rail_proved (n k : nat) (x : Z) (t : Merging.Transaction) (tail : list Z) : Prop :=
  (exists d, Merging.merge_sound Q t d) /\ length (Merging.p_Nullifiers (Merging.t_Public t)) = n /\
  length (Merging.t_Inputs t) = n /\ length (Merging.p_TreeSlots (Merging.t_Public t)) = InputTrees /\ length tail = k /\
  exists nc sc, runs Q (RightHashChain4 (Merging.p_Nullifiers (Merging.t_Public t))) nc /\
    runs Q (TreeSlotsHashChain (Merging.p_TreeSlots (Merging.t_Public t))) sc /\
    runs Q (HashChain4 (common_fields (Merging.t_Public t) nc sc ++ tail)) x.

Lemma merge_layout t n : Merging.ValidateLayout t n = true ->
  length (Merging.p_Nullifiers (Merging.t_Public t)) = n /\ length (Merging.t_Inputs t) = n /\
  length (Merging.p_TreeSlots (Merging.t_Public t)) = InputTrees.
Proof.
  unfold Merging.ValidateLayout. cbn [forallb]. rewrite !andb_true_iff, !Nat.eqb_eq. tauto.
Qed.

Lemma rail_of t n k tail d pre x pih :
  Merging.merge_assigned t -> Merging.ValidateLayout t n = true -> runs Q (Merging.Constrain t) d ->
  runs Q (Merging.Prefix (Merging.t_Public t)) pre -> Forall fe tail -> length tail = k -> fe x ->
  runs Q (HashChain4 (pre ++ tail)) pih -> runs Q (AssertIsEqual x pih) tt -> rail_proved n k x t tail.
Proof.
  intros Ht Hl Hc Hpre Htail Hk Hx Hp Heq. destruct (merge_layout _ _ Hl) as (Hn & Hi & Hs).
  split_and!; [eexists; by eapply Merging.merge_proved|done..|]. pose proof Ht as [].
  unfold Merging.Prefix in Hpre. cbind Hpre as nc Hnc. cbind Hpre as sc Hsc. apply runs_ret in Hpre as <-. exists nc, sc. split_and!; [done..|].
  assert (fe nc) as Hfn by by eapply right_hash_chain_4_fe. pose proof (slots_chain_fe Q _ _ Hsc) as Hfs.
  destruct ma_public as (? & ? & ? & ? & ?).
  apply runs_equal in Heq as ->; [exact Hp|exact Hx|]. eapply hash_chain_4_fe; [exact Hp|].
  rewrite Forall_app, !Forall_cons, Forall_nil. by split_and!.
Qed.

(** The ciphertext has one element per plaintext. *)
Lemma encryption_shape c tx d e : runs Q (Merging.outputEncryption c tx d) e -> fe (Merging.OutputCiphertextSalt c) ->
  length e = 4%nat /\ Forall fe e.
Proof.
  unfold Merging.outputEncryption, Merging.MergeOutputCiphertext, Encrypt, PoseidonCtrGadget. intros Hr Hs.
  cbind Hr as ct Hct. apply runs_ret in Hr as <-. cbind Hct as key _Hk. cbn [length Nat.eqb] in Hct. apply runs_mapM in Hct as Hm.
  split; [cbn [length]; by rewrite <- (Forall2_length _ _ _ Hm)|]. constructor; [done|].
  clear -Hm GL. induction Hm as [|[i x] y l k Hy _ IH]; constructor; [|done]. cbind Hy as p Hp. apply runs_ret in Hy as <-. apply add_fe.
Qed.

Lemma merge_key_proves n x : key_statement Q (merge n) x -> fe x -> exists t tail, rail_proved (Z.to_nat n) 6 x t tail.
Proof.
  intros (c & Hn & Ha & Hs & Hsalt & <- & Hr) Hx. unfold Merging.Define in Hr.
  destruct (Merging.ValidateLayout _ _) eqn:Hl; cbn [negb] in Hr; [|by apply runs_panic in Hr].
  cbind Hr as [] _H. cbind Hr as d Hd. cbind Hr as [] _H'. cbind Hr as pre Hpre. cbind Hr as e He. cbind Hr as pih Hp.
  destruct (encryption_shape _ _ _ _ He Hsalt) as [Hle Hfe]. rewrite Hn in Hl.
  exists (Merging.circuit_transaction c), ([Merging.UserSigningPkHash c; Merging.c_UserNullifierPk c] ++ e).
  eapply rail_of; try done.
  - rewrite Forall_app, !Forall_cons, Forall_nil. pose proof (Merging.ma_keys _ Ha) as (_ & ? & _). by split_and!.
  - rewrite length_app, Hle. done.
Qed.

Lemma merge_ring_key_proves n x : key_statement Q (merge_ring n) x -> fe x -> exists t tail, rail_proved (Z.to_nat n) 2 x t tail.
Proof.
  intros (c & Hn & Ha & Ho & <- & Hr) Hx. unfold Merging.ring_Define in Hr.
  destruct (Merging.ValidateLayout _ _) eqn:Hl; cbn [negb] in Hr; [|by apply runs_panic in Hr].
  cbind Hr as [] _H. cbind Hr as d Hd. cbind Hr as [] _H'. cbind Hr as pre Hpre. cbind Hr as pih Hp. rewrite Hn in Hl.
  exists (Merging.ring_transaction c), [Merging.OutputRingDataHash c; Merging.r_RingProgramID c].
  eapply rail_of; try done. pose proof (Merging.ma_ring _ Ha) as [? _]. by repeat (apply Forall_cons; split).
Qed.

End circuits.

(** ** The instruction and the assignment *)

Record merge_commits (ix : MergeTransactIxData) (d : MergeProofInputs) (width : nat) (t : Merging.Transaction) : Prop := {
  mc_nullifiers : Merging.p_Nullifiers (Merging.t_Public t) = map be_val (pad width (mt_nullifiers ix));
  mc_slots : Merging.p_TreeSlots (Merging.t_Public t) = map slot_value (padded_slots [mi_tree_slot d]);
  mc_output : Merging.p_OutputHash (Merging.t_Public t) = be_val (mt_output_utxo_hash ix);
  mc_output_tree : Merging.p_OutputTreeID (Merging.t_Public t) = be_val (mi_output_tree_id d);
  mc_private_tx : Merging.p_PrivateTxHash (Merging.t_Public t) = be_val (mt_private_tx_hash ix);
  mc_external : Merging.p_ExternalDataHash (Merging.t_Public t) = be_val (mi_external_data_hash d);
  mc_dummies : Merging.p_AllowDummyInputs (Merging.t_Public t) = be_val (mi_allow_dummy_inputs d);
}.

Record merge_hashed {G : Gnark} {H : CircuitHash} {SP : SolPoseidon} (Q : list Z -> Prop) (ix : MergeTransactIxData)
    (d : MergeProofInputs) : Prop := {
  mh_fields : forall pih width nc sc, merge_view ix d pih width nc sc -> exists v, runs Q (HashChain4 (map be_val (merge_fields ix d nc sc))) v;
  mh_nullifiers : forall width, merge_circuit_width (length (mt_nullifiers ix)) = Some width ->
    exists v, runs Q (RightHashChain4 (map be_val (pad width (mt_nullifiers ix)))) v;
  mh_slots : exists v, runs Q (TreeSlotsHashChain (map slot_value (padded_slots [mi_tree_slot d]))) v;
}.

Section accepted.
Context {G : Gnark} {GL : GnarkLaws G} {H : CircuitHash} {HL : CircuitHashLaw H} {E : Ed25519Gadget}.
Context {SP : SolPoseidon} {PA : PoseidonAgrees SP H} {PC : PoseidonChecked SP} {PF : PoseidonField SP}.
Context {V : PoolGroth16}.
Context (Q : list Z -> Prop) (HQ : ideal Q) {KS : PoolKeySound V Q}.
Context (Hzero : zero_suffix_law) (Hslot : slot_suffix_law).

(** The key is that of the width and the rail. *)
Lemma merge_key_rail ix b key x width : merge_verifying_key ix b = Ok key -> merge_circuit_width (length (mt_nullifiers ix)) = Some width ->
  key_statement Q key x -> fe x -> exists t tail, rail_proved Q width (tail_length b) x t tail.
Proof.
  intros Hkey Hw Hst Hx. unfold merge_verifying_key, circuit_width in Hkey. rewrite Hw in Hkey. cbn [ok_or rbind] in Hkey.
  assert (width ∈ MERGE_SUPPORTED_INPUT_COUNTS) as Hin.
  { unfold merge_circuit_width in Hw. destruct (_ =? _)%nat; [done|]. by apply find_some in Hw as [Hw%list_elem_of_In _]. }
  unfold MERGE_SUPPORTED_INPUT_COUNTS, MERGE_DEFAULT_INPUT_COUNT, MAX_MERGE_INPUTS in Hin.
  rewrite !elem_of_cons in Hin. destruct Hin as [->|[->|[->|[]%elem_of_nil]]]; destruct b as [s n [salt ct]|r o]; injection Hkey as <-;
    (apply (merge_key_proves Q) in Hst || apply (merge_ring_key_proves Q) in Hst); done.
Qed.

Lemma merge_verify_commits ix d : length (merge_tail (mi_owner_binding d)) = tail_length (mi_owner_binding d) ->
  merge_verify ix d = Ok tt -> merge_hashed Q ix d ->
  exists width t, merge_circuit_width (length (mt_nullifiers ix)) = Some width /\ (length (mt_nullifiers ix) <= width)%nat /\
    merge_commits ix d width t /\ (exists der, Merging.merge_sound Q t der) /\ length (Merging.t_Inputs t) = width.
Proof.
  intros Htail Hv [Hf Hn [sv Hsv]]. unfold merge_verify in Hv. run_inv.
  match goal with H : merge_public_input_hash _ _ = Ok ?p |- _ => rename H into Hpih, p into pih end.
  match goal with H : merge_verifying_key _ _ = Ok ?k |- _ => rename H into Hkey, k into key end.
  destruct (merge_fields_view _ _ _ Hpih) as (width & nc & sc & Hview). pose proof Hview as [Hw Hnc Hsc Hhash].
  assert (canonical pih) as Hc by (unfold merge_fields in Hhash; by apply hash_chain_4_canonical in Hhash).
  pose proof (hash_chain_4_checked _ _ Hhash Hc) as Hcan. unfold merge_fields in Hcan. rewrite Forall_app, !Forall_cons in Hcan.
  destruct Hcan as ((Cn & _ & Cs & _) & _).
  apply pool_key_sound in Hv. destruct (merge_key_rail _ _ _ _ _ Hkey Hw Hv (canonical_fe _ Hc)) as (t & tail & Hs & Ln & Li & Ls & Lt & nv & sv' & Hrn & Hrs & Hrp).
  destruct (Hf _ _ _ _ Hview) as [v Hrun]. rewrite (hash_chain_4_value Q _ _ _ Hhash Hc Hrun) in Hrun.
  destruct (Hn _ Hw) as [nv' Hnv]. destruct (padded_chain_value Q _ _ _ _ Hzero Hnc Cn Hnv) as [-> Hle].
  destruct (populated_chain_value Q _ _ _ Hslot Hsc Cs Hsv) as (-> & _ & _).
  exists width, t. split_and!; [done|done| |done|done].
  unfold merge_fields in Hrun. rewrite map_app in Hrun.
  eapply (HashChain4_binding Q HQ) in Hrun; [|clear Hrun|exact Hrp]; [|rewrite !length_app, !length_map; cbn [common_fields length]; lia].
  cbn [common_fields map app] in Hrun. injection Hrun as -> Eo -> Et Ep Ee Ea _. split; try done.
  - apply (RightHashChain4_binding Q HQ _ _ (be_val nc)); [|done..]. rewrite length_map, length_pad; [done|lia].
  - apply (TreeSlotsHashChain_binding Q _ _ (be_val sc)); [done| |done..]. rewrite length_map, length_padded_slots; [done|unfold INPUT_TREES; cbn; lia].
Qed.

End accepted.
