(* ===== verification/PoolProofs.v ===== *)
(** * What the accepted proofs mean for the ledger

    The composition of the program with its circuits.  The roots a tree account
    serves are those of indexed Merkle trees of what was spent on it
    ([NullifierRoots]); the proof of an accepted transact or merge shows that its
    nullifiers are not in the tree of such a root ([TxBinding]); the program's
    queue and PDAs cover what the root does not.  Together: on a run whose
    proofs are sound and whose hash inputs do not collide, no nullifier is ever
    spent twice. *)

From S2P Require Import Prelude ZeroBytes Hasher HashChain Codec Smt Batch NullifierTree NullifierQueue NullifierSafety TreeAccount TreeTypes TreeSafety Errors TreeSlot Ledger AccountChecks State Event Shared NullifierPdas Forester CreateTree Circuit UserRegistry Cache Configs Settlement Merge TransactProof ProofInputs Transact Deposit Program TreeTrace PoolMachine PoolSteps PoolHandlers PoolCreate PoolSpend PoolTransact PoolSafety.
From S2P Require Import Gnark Gadgets PrimeField GadgetSpecs SparseTree ChainSpecs AppendCircuit NullifierRoots TxCircuit TxSpecs TxBalance TxSound TxVariants TxOwners TxProved MergeCircuit TxBinding MergeBinding.

Local Notation K := NULLIFIER_TREE_ZKP_BATCHES.

(** The log of the preimages in [Q]. *)
Definition log_in (Q : list Z -> Prop) : HashLog := fun vals => Q (map be_val vals).

(** ** The roots of an account *)

Section served.
Context {G : Gnark} {GL : GnarkLaws G} {H : CircuitHash} {HL : CircuitHashLaw H}.
Context {SP : SolPoseidon} {PA : PoseidonAgrees SP H} {V : Groth16}.
Context (Q : list Z -> Prop) (HQ : ideal Q) {KS : AppendKeySound V Q} {IR : InitRootLaw H}.
Context (Hinit : known Q 40 initial_leaves).

(** The chains of the queued ZKP batches were hashed when they were queued. *)
Definition queue_hashed (vs : list bytes) (t : NullifierTreeLayout) : Prop :=
  let ZB := Z.to_nat (tree_zkp_batch_size t) in
  forall j, ((j + 1) * ZB <= length vs)%nat -> exists v, runs Q (HashChain4 (map be_val (zkp_slice ZB j vs))) v.

Lemma index_field_val n : 0 <= n < 2 ^ 64 -> be_val (index_field n) = n.
Proof.
  intros Hn. unfold index_field. rewrite index_field_fbytes, be_val_fbytes; [done| |done]. apply (fe_small _ 64); lia.
Qed.

Lemma logged_program_hashed ZB vs rs t : Forall canonical vs -> Z.of_nat (length vs) < 2 ^ 62 ->
  tree_zkp_batch_size t = Z.of_nat ZB -> queue_hashed vs t ->
  @roots_logged SP (log_in Q) ZB vs rs -> program_hashed Q ZB vs rs.
Proof.
  intros Hvs Hlen Hsize Hqueue Hlog j old new Hold Hnew. destruct (Hlog j old new Hold Hnew) as (Hj & chain & Hchain & Hl).
  unfold queue_hashed in Hqueue. rewrite Hsize, Nat2Z.id in Hqueue. destruct (Hqueue j Hj) as [v Hv]. exists v. split; [done|].
  unfold hash_logged, log_in in Hl. cbn [map] in Hl. rewrite index_field_val in Hl by nia.
  assert (Forall canonical (zkp_slice ZB j vs)) as Hcs by (by apply Forall_take, Forall_drop).
  destruct (HashChain4_agrees _ (be_vals_fe _ Hcs)) as (c0 & Hc0 & Hrun0 & Hagree).
  rewrite map_fbytes_be_val, Hchain in Hagree by done. injection Hagree as ->. rewrite be_val_fbytes in Hl by done.
  by rewrite (runs_det _ _ _ _ _ Hv Hrun0).
Qed.

Lemma root_gap h t low next i path x : (0 < h)%nat -> known Q h t -> 0 <= i < 2 ^ Z.of_nat h -> low < x < next -> Q [low; next] ->
  runs Q (MerkleRootGadget (poseidon [low; next]) (bits h i) path h) (be_val (fbytes (indexed_root h t))) -> x ∉ values t.
Proof.
  intros Hh Ht Hi Hx HQl Hpath. rewrite be_val_fbytes in Hpath by (by apply node_fe).
  apply (merkle_root_sound Q (leaf_of t)) in Hpath as Hleaf; [|done|apply Ht|done].
  apply (known_leaf Q HQ h t) in Hleaf as Hin; [|done|lia|done].
  apply (gap_not_in t low next x); [apply Ht|by eapply list_elem_of_lookup_2|done].
Qed.

(** A root that an account serves is that of the indexed tree of the values below
    some index that no open PDA precedes. *)
Lemma served_root_indexed vs l index r : @tree_holds SP V (log_in Q) vs l -> queue_hashed vs (nullifier l) ->
  root_by_index (nullifier l) index = Some r ->
  exists n t, close_before_index (nullifier l) <= 1 + Z.of_nat n /\ holds_values Q t (take n vs) /\
    r = fbytes (indexed_root 40 t).
Proof.
  intros (_ & ZB & q & [Hz _ Hq <- [Hlog _]]) Hqueue Hr.
  pose proof (zkp_batches_bounds ZB Hz) as (HK & HZ' & HB & HK32).
  destruct (accepted_root K ZB HK HZ' HB HK32 _ _ index r Hq Hr) as (j & Hj & _ & _ & _ & Hclose).
  pose proof (inv_values _ _ _ _ _ Hq) as Hvs. pose proof (inv_fits _ _ _ _ _ Hq) as Hfits.
  destruct (history_indexed Q HQ ZB (nullifier l) (q_values q) (q_roots q) j r) as (t & Ht & ->); try done; [lia| | |].
  { by apply (inv_history K ZB (2 ^ 40)). }
  { eapply logged_program_hashed; try done; [lia|]. exact (inv_zkp_batch_size _ _ _ _ _ Hq). }
  by exists (j * ZB)%nat, t.
Qed.

(** A value outside the tree of a root that an account serves was not spent, if
    the root covers it. *)
Lemma served_root_fresh vs l index r x : @tree_holds SP V (log_in Q) vs l -> queue_hashed vs (nullifier l) ->
  root_by_index (nullifier l) index = Some r -> non_included Q (be_val r) x ->
  exists n, close_before_index (nullifier l) <= 1 + Z.of_nat n /\ forall k v, vs !! k = Some v -> (k < n)%nat -> be_val v <> x.
Proof.
  intros Hl Hqueue Hr (low & next & i & path & Hi & Hgap & HQl & Hpath).
  destruct (served_root_indexed vs l index r Hl Hqueue Hr) as (n & t & Hclose & [Ht Hvals] & ->).
  exists n. split; [done|]. intros k v Hk Hlt <-. apply (root_gap NullifierTreeHeight t low next i path (be_val v));
    [unfold NullifierTreeHeight; lia|exact Ht|exact Hi|exact Hgap|exact HQl|exact Hpath|].
  rewrite Hvals. apply elem_of_cons. right. apply list_elem_of_fmap. exists v. split; [done|].
  apply (list_elem_of_lookup_2 _ k). by rewrite lookup_take_lt.
Qed.

End served.

(** ** The flags *)

Lemma packed_split index l i t : Forall (fun t => 0 <= t < 8) l -> l !! i = Some t ->
  exists low q, packed_indexes index l =
      low + t * 2 ^ input_flags_tree_index_shift (index + i) + q * 2 ^ input_flags_tree_index_shift (S (index + i)) /\
    0 <= low /\ low + 2 ^ input_flags_tree_index_shift index <= 2 ^ input_flags_tree_index_shift (index + i).
Proof.
  intros Hl. revert index i. induction Hl as [|x l Hx Hl IH]; intros index [|i] Hi; try done; cbn [packed_indexes].
  - injection Hi as ->. destruct (packed_indexes_div (S index) l) as [q ->]. exists 0, q. rewrite Nat.add_0_r. split_and!; lia.
  - destruct (IH (S index) i Hi) as (low & q & -> & Hlow & Hle). rewrite <- Nat.add_succ_comm.
    exists (x * 2 ^ input_flags_tree_index_shift index + low), q. rewrite shift_S in Hle. pose proof (shift_pos index). split_and!; nia.
Qed.

(** The index the circuit reads is the one that was packed. *)
Lemma packed_tree_index (allow : bool) l i t : Forall (fun t => 0 <= t < 8) l -> l !! i = Some t ->
  TxSound.tree_index ((if allow then 1 else 0) + packed_indexes 0 l) i = Z.to_nat t.
Proof.
  intros Hl Hi. destruct (packed_split 0 l i t Hl Hi) as (low & q & -> & Hlow & Hle).
  pose proof (Forall_lookup_1 _ _ _ _ Hl Hi) as Ht. cbn beta in Ht. unfold TxSound.tree_index. f_equal. rewrite Nat.add_0_l in *.
  replace (Z.of_nat (1 + TreeIndexBits * i)) with (input_flags_tree_index_shift i)
    by (unfold input_flags_tree_index_shift, INPUT_FLAGS_TREE_INDEX_BITS, TreeIndexBits; lia).
  rewrite shift_S. change (2 ^ Z.of_nat TreeIndexBits) with 8. change (2 ^ input_flags_tree_index_shift 0) with 2 in Hle.
  pose proof (shift_pos i). set (m := 2 ^ input_flags_tree_index_shift i) in *.
  replace ((if allow then 1 else 0) + (low + t * m + q * (8 * m))) with ((if allow then 1 else 0) + low + (t + q * 8) * m) by lia.
  rewrite Z.div_add, (Z.div_small _ m) by (destruct allow; lia). rewrite Z.add_0_l, Z.mod_add, Z.mod_small; lia.
Qed.

(** ** The slots *)

Section slots.
Context `{SP : SolPoseidon} `{SH : SolHash} `{G : Groth16} `{PG : PoolGroth16} `{W : Wincode} `{R : Runtime}
  {LG : HashLog} `{TP : TokenProgram} `{F : ArkFr} `{KM : KeyMetadata} `{A : ArrayMapLib}.
Context {HT : PoseidonTotal SP} {HS : PoseidonSized SP} {HF : PoseidonField SP} {HZ : ZeroBytesLaw Poseidon.Poseidon}
  {HW : WincodeLaw W} {RL : RuntimeLaws R} {TL : TokenLaws TP}.

(** A slot with the roots a tree of the ledger serves. *)
Definition slot_of (L : Ledger) (T : bytes) (slot : TreeSlot.TreeSlot) : Prop :=
  exists l index, tree_at L T l /\ root_by_index (nullifier l) index = Some (nullifier_root slot).

Lemma resolve_slot_root l context slot : resolve_input_tree_slot l context = Ok slot ->
  exists index, root_by_index (nullifier l) index = Some (nullifier_root slot).
Proof.
  unfold resolve_input_tree_slot, resolve_tree_slot, get_nullifier_tree_root. intros Hr.
  destruct (negb _); ix_inv; by eexists.
Qed.

Lemma apply_trees_slots payer pdas inputs trees : Forall (fun x => is_bytes 32 (nullifier_hash x)) inputs ->
  length pdas = length inputs -> Forall (fun t => (t.2 <= 49)%nat) trees -> NoDup (map (fun t => vaddr t.1.1) trees) ->
  forall i sequences slots allow h L sequences' slots' allow' L', good h L ->
  apply_trees payer pdas inputs i trees sequences slots allow L = (Ok (sequences', slots', allow'), L') ->
  exists new, slots' = slots ++ new /\ Forall2 (fun t slot => slot_of L (vaddr t.1.1) slot) trees new.
Proof.
  intros Hb Hl. induction 1 as [|[[tree context] count] trees Hc _ IH];
    intros Hnd i sequences slots allow h L sequences' slots' allow' L' Hg Hr; cbn [apply_trees] in Hr.
  { ix_inv. exists []. rewrite app_nil_r. by split. }
  parse_inv. cbn [map fst snd] in *. apply NoDup_cons in Hnd as [Hnew Hnd].
  match goal with H : try_push _ slots _ = Some _ |- _ => unfold try_push in H; case_match; simplify_eq end.
  match goal with H : with_tree _ _ _ _ = _ |- _ => rename H into Htree end.
  match goal with H : create_nullifier_pdas _ _ _ _ _ = (_, ?M) |- _ => rename H into Hpdas, M into L1 end.
  assert (spend L (vaddr tree) (map nullifier_hash (filter (fun x => TransactProof.tree_index x = i) inputs)) L1) as Hs.
  { eapply (with_tree_spend _ _ _ _ snd); [done| |by apply tree_inputs_nullifiers|done|done].
    intros l1 l2. apply spend_tree_run; [by apply tree_nullifiers_bytes|]. unfold in_width. lia. }
  destruct (IH Hnd _ _ _ _ _ _ _ _ _ _ (good_spend _ _ _ _ _ Hg Hs) Hr) as (new & -> & Hslots).
  exists (t :: new). split; [by rewrite <- app_assoc|]. constructor.
  - destruct (with_tree_run _ _ _ _ _ _ _ Hg Htree) as (l & l' & Hat & Hrun & _). unfold spend_tree in Hrun. ix_inv.
    match goal with H : resolve_input_tree_slot _ _ = Ok _ |- _ => apply resolve_slot_root in H as [index Hi] end. by exists l, index.
  - apply Forall2_same_length_lookup in Hslots as [Hlen Hslots]. apply Forall2_same_length_lookup_2; [done|].
    intros k t' slot Hk Hk'. destruct (Hslots k t' slot Hk Hk') as (l & index & Hl' & Hi). exists l, index. split; [|done].
    eapply spend_other; [exact Hs| |exact Hl']. intros E. apply Hnew. rewrite <- E. apply list_elem_of_fmap. exists t'. split; [done|]. by eapply list_elem_of_lookup_2.
Qed.

(** The inputs of the proof that a transact verifies. *)
Definition transact_inputs (accounts : list View) (ix : TransactIxData) (external_data_prefix : bytes)
    (tag : InstructionTag) : Ix TransactProofInputs :=
  exec! mlift (validate_circuit_type ix tag);
  do! tree_input_counts <- mlift (map_err pool (validate_input_tree_contexts (ti_inputs ix) (ti_tree_contexts ix)));
  do! clock <- get_clock;
  exec! mlift (check_not_expired (ti_expiry_unix_ts ix) clock);
  do! resolved_outputs <- mlift (resolve_outputs accounts (ti_outputs ix) []);
  do! '(_, _, _, _, p) <- prepare_transact accounts ix external_data_prefix tag clock tree_input_counts resolved_outputs;
  mret p.

(** What the program checked of them. *)
Record inputs_checked (L : Ledger) (accounts : list View) (ix : TransactIxData) (p : TransactProofInputs) : Prop := {
  ic_slots : Forall2 (slot_of L) (map vaddr (input_tree_accounts accounts ix)) (tree_slots p);
  ic_indexes : Forall (fun t => 0 <= t < 8) (map TransactProof.tree_index (ti_inputs ix));
  ic_flags : exists allow : bool, be_val (input_flags p) =
    (if allow then 1 else 0) + packed_indexes 0 (map TransactProof.tree_index (ti_inputs ix));
  ic_nonzero : Forall (fun i => nullifier_hash i <> zero32) (ti_inputs ix);
  ic_verified : transact_verify ix p = Ok tt;
}.

Definition same_trees (p p' : TransactProofInputs) : Prop := tree_slots p' = tree_slots p /\ input_flags p' = input_flags p.

Lemma bind_cached_inputs_trees cache ix p L p' L' : bind_cached_inputs cache ix p L = (Ok p', L') -> same_trees p p'.
Proof.
  unfold bind_cached_inputs, assign_cached_inputs. intros Hr. ix_inv.
  match type of Hr with match ?o with _ => _ end _ = _ => destruct o end; ix_inv; [|done]. by destruct p.
Qed.

Lemma apply_input_trees_checked a ix counts p h L sq p' L' :
  transact_data_typed ix -> (length (ti_inputs ix) <= 49)%nat -> NoDup (map vaddr (ta_input_trees a)) ->
  validate_input_tree_contexts (ti_inputs ix) (ti_tree_contexts ix) = Ok counts -> good h L ->
  apply_input_trees a ix counts p L = (Ok (sq, p'), L') ->
  Forall2 (slot_of L) (map vaddr (ta_input_trees a)) (tree_slots p') /\
  Forall (fun t => 0 <= t < 8) (map TransactProof.tree_index (ti_inputs ix)) /\
  exists allow : bool, be_val (input_flags p') = (if allow then 1 else 0) + packed_indexes 0 (map TransactProof.tree_index (ti_inputs ix)).
Proof.
  intros (Hin & _ & _) Hn Hnd [Hl Hf]%validate_contexts_facts Hg Hr. unfold apply_input_trees in Hr. parse_inv.
  match goal with H : apply_trees _ _ _ _ _ _ _ _ _ = _ |- _ => rename H into Ht end.
  match goal with H : pack_input_flags _ _ = Ok _ |- _ => rename H into Hp end.
  assert (Forall (fun t => 0 <= t < 2 ^ 8) (map TransactProof.tree_index (ti_inputs ix))) as H8.
  { apply Forall_map. eapply Forall_impl; [exact Hin|]. by intros ? [_ ?]. }
  apply pack_input_flags_ok in Hp as [H5 Hp]; [|done].
  assert (Forall (fun x => is_bytes 32 (nullifier_hash x)) (ti_inputs ix)) as Hb.
  { refine (Forall_impl _ _ _ Hin _). by intros ? [? _]. }
  assert (tree_slots (assign_input_trees l0 x p) = l0 /\ input_flags (assign_input_trees l0 x p) = x) as [-> ->] by by destruct p.
  split_and!; [|by apply indexes_below_8|by exists b].
  set (trees := zip (zip (ta_input_trees a) (ti_tree_contexts ix)) counts) in *.
  assert (map (fun t => vaddr t.1.1) trees = map vaddr (ta_input_trees a)) as Hm by by apply zip_trees.
  apply apply_trees_slots with (h := h) in Ht as (new & -> & Hslots); [|done..| | |done].
  - rewrite <- Hm. by apply Forall2_fmap_l.
  - apply Forall_forall. intros [t c] Hi%list_elem_of_In%in_combine_r%list_elem_of_In. cbn.
    rewrite Forall_forall in Hf. specialize (Hf c Hi). lia.
  - by rewrite Hm.
Qed.

Lemma prepare_transact_checked accounts ix prefix tag counts resolved h L a cache w sq p L1 :
  transact_data_typed ix -> validate_input_tree_contexts (ti_inputs ix) (ti_tree_contexts ix) = Ok counts -> good h L ->
  prepare_transact accounts ix prefix tag (clock L) counts resolved L = (Ok (a, cache, w, sq, p), L1) ->
  Forall2 (slot_of L) (map vaddr (input_tree_accounts accounts ix)) (tree_slots p) /\
  Forall (fun t => 0 <= t < 8) (map TransactProof.tree_index (ti_inputs ix)) /\
  exists allow : bool, be_val (input_flags p) = (if allow then 1 else 0) + packed_indexes 0 (map TransactProof.tree_index (ti_inputs ix)).
Proof.
  intros Hty Hcounts Hg Hr. unfold prepare_transact in Hr. parse_inv.
  match goal with H : (if is_ring _ then _ else _) L = (Ok (?a, _), ?L0) |- _ =>
    assert (trees_parsed accounts ix a /\ same_core L L0) as [(Htrees & Hnd & Hn & Hset) Hs0] end.
  { destruct (is_ring (ti_circuit ix)) eqn:Hc; parse_inv.
    - split; [by eapply ring_parse_facts|]. by eapply inert_ring_parse.
    - split; [by eapply transact_parse_facts|]. by eapply inert_transact_parse. }
  match goal with H : transact_cache_load _ _ _ = _ |- _ => pose proof (inert_transact_cache_load _ _ _ _ _ H) as Hs1 end.
  match goal with H : bind_cached_inputs _ _ _ _ = _ |- _ => apply bind_cached_inputs_trees in H as [E1 E2] end.
  match goal with |- Forall2 _ _ (tree_slots (assign_external_data_hash ?hash (assign_output_tree_id ?id ?q))) /\ _ =>
    assert (same_trees q (assign_external_data_hash hash (assign_output_tree_id id q))) as [-> ->] by by destruct q end.
  rewrite E1, E2, <- Htrees. pose proof (same_core_trans _ _ _ Hs0 Hs1) as Hs.
  match goal with H : apply_input_trees _ _ _ _ _ = _ |- _ =>
    destruct (apply_input_trees_checked _ _ _ _ _ _ _ _ _ Hty Hn Hnd Hcounts (same_core_good _ _ _ Hs Hg) H) as (Hsl & Hidx & Hfl) end.
  split_and!; [|done..]. eapply Forall2_impl; [exact Hsl|]. intros T slot (l' & index & Hl & Hi). exists l', index. split; [|done].
  unfold tree_at in *. by rewrite <- (proj1 Hs).
Qed.

Lemma nonzero_elements {X} (f : X -> bytes) vs e u : check_nonzero_field_elements (map f vs) e = Ok u -> Forall (fun x => f x <> zero32) vs.
Proof.
  unfold check_nonzero_field_elements. intros Hr. ix_inv.
  match goal with H : negb _ = true |- _ => apply negb_true_iff in H as Hn end. apply Forall_forall. intros x Hx E.
  assert (existsb (fun value => bool_decide (value = zero32)) (map f vs) = true); [|congruence]. apply existsb_exists. exists (f x).
  split; [by apply in_map, list_elem_of_In|by apply bool_decide_eq_true_2].
Qed.

Lemma transact_accepted accounts ix prefix tag h L u L' : transact_data_typed ix -> good h L ->
  process_transact_ix accounts ix prefix tag L = (Ok u, L') ->
  exists p L1, transact_inputs accounts ix prefix tag L = (Ok p, L1) /\ inputs_checked L accounts ix p.
Proof.
  intros Hty Hg Hr. unfold process_transact_ix, process_resolved_transact in Hr. parse_inv.
  match goal with H : prepare_transact _ _ _ _ _ _ _ _ = (Ok (_, _, _, _, ?p), ?M) |- _ => rename H into Hprep, p into q, M into L1 end.
  match goal with H : validate_circuit_type _ _ = Ok ?x |- _ => rename H into Htype; destruct x end.
  match goal with H : transact_verify _ _ = Ok ?x |- _ => rename H into Hverify; destruct x end.
  match goal with H : validate_input_tree_contexts _ _ = Ok _ |- _ => rename H into Hcounts end.
  exists q, L1. destruct (prepare_transact_checked _ _ _ _ _ _ _ _ _ _ _ _ _ _ Hty Hcounts Hg Hprep) as (Hslots & Hidx & Hflags).
  split.
  - unfold transact_inputs, mbindM, mlift. rewrite Htype, Hcounts. cbn [map_err get_clock mget].
    repeat match goal with H : _ = Ok _ |- _ => rewrite H end. by rewrite Hprep.
  - split; try done. unfold validate_circuit_type in Htype. ix_inv. by eapply nonzero_elements.
Qed.

(** ** The inputs of a merge's proof *)

Definition merge_inputs (setup : Ix MergeSetup) (ix : MergeTransactIxData) : Ix MergeProofInputs :=
  do! s <- setup;
  do! '(_, d) <- prepare_merge (ms_accounts s) ix (ms_binding s) (ms_cache s) (ms_slot s);
  mret d.

Record merge_checked (L : Ledger) (accounts : list View) (ix : MergeTransactIxData) (d : MergeProofInputs) : Prop := {
  mk_slot : exists tree rest, accounts = tree :: rest /\ slot_of L (vaddr tree) (mi_tree_slot d);
  mk_tail : length (merge_tail (mi_owner_binding d)) = tail_length (mi_owner_binding d);
  mk_nonzero : Forall (fun v => v <> zero32) (mt_nullifiers ix);
  mk_verified : merge_verify ix d = Ok tt;
}.

Lemma prepare_merge_checked accounts ix binding cache slot h L w d L' : good h L ->
  prepare_merge accounts ix binding cache slot L = (Ok (w, d), L') ->
  slot_of L (vaddr (mca_input_tree accounts)) (mi_tree_slot d) /\ mi_owner_binding d = binding.
Proof.
  intros Hg Hr. unfold prepare_merge in Hr. parse_inv.
  match goal with H : with_tree _ _ (spend_input_tree _ _ _ _) _ = _ |- _ =>
    destruct (with_tree_run _ _ _ _ _ _ _ Hg H) as (t & t' & Ht & Hrun & _) end.
  unfold spend_input_tree, apply_input_tree, get_nullifier_tree_root in Hrun. parse_inv. split; [|done]. by eexists t, _.
Qed.

Lemma slot_of_same_core L L' T slot : same_core L L' -> slot_of L' T slot -> slot_of L T slot.
Proof. intros [Hc _] (l & index & Hl & Hi). exists l, index. split; [|done]. unfold tree_at in *. by rewrite <- Hc. Qed.

(** The core's part, from what the setup checked. *)
Lemma merge_core_checked setup accounts ix s h L L1 u L' tree rest :
  good h L -> same_core L L1 -> setup L = (Ok s, L1) -> accounts = tree :: rest -> mca_input_tree (ms_accounts s) = tree ->
  length (merge_tail (ms_binding s)) = tail_length (ms_binding s) -> Forall (fun v => v <> zero32) (mt_nullifiers ix) ->
  process_merge_core (ms_accounts s) ix (ms_binding s) (ms_cache s) (ms_view_tag s) (ms_slot s) L1 = (Ok u, L') ->
  exists d L2, merge_inputs setup ix L = (Ok d, L2) /\ merge_checked L accounts ix d.
Proof.
  intros Hg Hs Hsetup -> <- Htail Hnz Hr. unfold process_merge_core in Hr. apply mbindM_ok in Hr as ([w d] & L2 & Hprep & Hr). ix_inv.
  match goal with H : merge_verify _ _ = Ok ?x |- _ => rename H into Hv; destruct x end.
  exists d, L2. split; [unfold merge_inputs, mbindM; by rewrite Hsetup, Hprep|].
  destruct (prepare_merge_checked _ _ _ _ _ _ _ _ _ _ (same_core_good _ _ _ Hs Hg) Hprep) as [Hslot Hb].
  split; [|by rewrite Hb|done|done]. eexists _, _. split; [done|]. by eapply slot_of_same_core.
Qed.

Lemma validate_nonzero ix u : validate_field_elements ix = Ok u -> Forall (fun v => v <> zero32) (mt_nullifiers ix).
Proof.
  unfold validate_field_elements. intros Hr. ix_inv. apply (nonzero_elements (fun v => v) _ ZeroInputNullifier tt). rewrite map_id.
  by match goal with H : check_nonzero_field_elements _ _ = Ok ?x |- _ => destruct x end.
Qed.

Lemma merge_transact_accepted accounts ix h L u L' : merge_data_typed ix -> good h L ->
  process_merge_transact_ix accounts ix L = (Ok u, L') ->
  exists d L1, merge_inputs (setup_merge_transact accounts ix) ix L = (Ok d, L1) /\ merge_checked L accounts ix d.
Proof.
  intros (_ & _ & Hct) Hg Hr. unfold process_merge_transact_ix in Hr. apply mbindM_ok in Hr as (s & L1 & Hs & Hr).
  assert (same_core L L1 /\ (exists rest, accounts = mca_input_tree (ms_accounts s) :: rest) /\
    length (merge_tail (ms_binding s)) = tail_length (ms_binding s) /\ Forall (fun v => v <> zero32) (mt_nullifiers ix))
    as (Hsame & [rest Hacc] & Htail & Hnz).
  { clear Hr. unfold setup_merge_transact in Hs. parse_inv. cbn [ms_accounts ms_binding mca_input_tree].
    match goal with H : merge_validate_and_parse _ _ _ _ = _ |- _ =>
      destruct (merge_parse_facts _ _ _ _ _ _ H) as ([rest ->] & _); apply inert_merge_parse in H as Hs1 end.
    match goal with H : load_user_record _ _ = _ |- _ => apply inert_load_user_record in H as Hs2 end.
    match goal with H : load_merge_cache _ _ _ = _ |- _ => apply inert_load_merge_cache in H as Hs3 end.
    split_and!; [do 2 (eapply same_core_trans; [done|]); done|by eexists| |by eapply validate_nonzero].
    destruct (mt_output_encryption ix). cbn. by rewrite Hct. }
  by eapply merge_core_checked.
Qed.

Lemma merge_ring_accepted accounts ix h L u L' : good h L -> process_merge_ring_ix accounts ix L = (Ok u, L') ->
  exists d L1, merge_inputs (setup_merge_ring accounts ix) (mr_merge ix) L = (Ok d, L1) /\ merge_checked L accounts (mr_merge ix) d.
Proof.
  intros Hg Hr. unfold process_merge_ring_ix in Hr. apply mbindM_ok in Hr as (s & L1 & Hs & Hr).
  assert (same_core L L1 /\ (exists rest, accounts = mca_input_tree (ms_accounts s) :: rest) /\
    length (merge_tail (ms_binding s)) = tail_length (ms_binding s) /\ Forall (fun v => v <> zero32) (mt_nullifiers (mr_merge ix)))
    as (Hsame & [rest Hacc] & Htail & Hnz).
  { clear Hr. unfold setup_merge_ring in Hs. parse_inv. cbn [ms_accounts ms_binding mca_input_tree].
    match goal with H : merge_ring_validate_and_parse _ _ _ _ = _ |- _ =>
      destruct (merge_ring_parse_facts _ _ _ _ _ _ H) as ([rest ->] & _); apply inert_merge_ring_parse in H as Hs1 end.
    match goal with H : load_merge_cache _ _ _ = _ |- _ => apply inert_load_merge_cache in H as Hs3 end.
    split_and!; [by eapply same_core_trans|by eexists|done|by eapply validate_nonzero]. }
  by eapply merge_core_checked.
Qed.

End slots.

(** ** A transact spends nothing twice *)

Section transact.
Context {C : Gnark} {GL : GnarkLaws C} {H : CircuitHash} {HL : CircuitHashLaw H} {E : Ed25519Gadget}.
Context {SP : SolPoseidon} {PA : PoseidonAgrees SP H} {PC : PoseidonChecked SP} {PF : PoseidonField SP}.
Context `{SH : SolHash} {G : Groth16} {PG : PoolGroth16} {F : ArkFr} {FL : ArkFrLaws F} `{W : Wincode} `{R : Runtime} `{TP : TokenProgram} `{KM : KeyMetadata}.
Context (Q : list Z -> Prop) (HQ : ideal Q) {KS : AppendKeySound G Q} {PS : PoolKeySound PG Q} {IR : InitRootLaw H}.
Context (Hinit : known Q 40 initial_leaves).
Context (Hzero : zero_suffix_law) (Hslot : slot_suffix_law) (Hsigner : signer_suffix_law).

Lemma lookup_map_Some {X Y} (f : X -> Y) l i x : l !! i = Some x -> map f l !! i = Some (f x).
Proof. intros Hi. change (map f l) with (f <$> l). by rewrite list_lookup_fmap, Hi. Qed.

Lemma tree_spends_lookup inputs i trees T vs : (T, vs) ∈ tree_spends inputs i trees ->
  exists k, trees !! k = Some T /\
    vs = map nullifier_hash (filter (fun x => TransactProof.tree_index x = i + Z.of_nat k) inputs).
Proof.
  revert i. induction trees as [|T' trees IH]; intros i Hin; cbn [tree_spends] in Hin; [by apply elem_of_nil in Hin|].
  apply elem_of_cons in Hin as [[= -> ->]|Hin].
  - exists 0%nat. by rewrite Z.add_0_r.
  - destruct (IH (i + 1) Hin) as (k & Hk & ->). exists (S k). split; [done|]. by replace (i + 1 + Z.of_nat k) with (i + Z.of_nat (S k)) by lia.
Qed.

(** The nullifier of an input of an accepted transact is not in the tree of the
    root its slot names. *)
Lemma transact_input_fresh L accounts ix p i input slot :
  inputs_checked L accounts ix p -> transact_hashed Q ix p -> ti_inputs ix !! i = Some input -> is_bytes 32 (nullifier_hash input) ->
  tree_slots p !! Z.to_nat (TransactProof.tree_index input) = Some slot ->
  non_included Q (be_val (nullifier_root slot)) (be_val (nullifier_hash input)).
Proof.
  intros [Hslots Hidx [allow Hflags] Hnz Hv] Hh Hi Hb Hs.
  destruct (transact_commits Q HQ Hzero Hslot Hsigner ix p Hv Hh) as (t & pk & extra & Hc & _ & (Hin & _) & Hp).
  destruct (pv_sound _ _ _ _ _ _ _ _ Hp) as (signers & signed & Hsound & _).
  destruct (pv_nullifiers _ _ _ _ _ _ _ _ Hp) as [Hln Hli].
  assert (Nullifiers t !! i = Some (be_val (nullifier_hash input))) as Hn.
  { rewrite (cm_nullifiers _ _ _ _ Hc). apply (lookup_map_Some be_val). apply lookup_app_l_Some. by apply lookup_map_Some. }
  destruct (lookup_lt_is_Some_2 (Inputs t) i) as [inp Hinp]; [rewrite Hli, <- Hln; by eapply lookup_lt_Some|].
  destruct (ts_inputs _ _ _ _ Hsound i inp Hinp) as (n & signer & slot' & skip & flag & Hn' & _ & Hslot' & _ & _ & _ & Hins).
  rewrite Hn in Hn'. injection Hn' as <-. rewrite (cm_flags _ _ _ _ Hc), Hflags in Hslot'.
  rewrite (packed_tree_index allow _ i (TransactProof.tree_index input)) in Hslot' by (done || by apply lookup_map_Some).
  rewrite (cm_slots _ _ _ _ Hc) in Hslot'.
  rewrite (lookup_map_Some slot_value _ _ slot) in Hslot' by (by apply lookup_app_l_Some). injection Hslot' as <-.
  assert ((be_val (nullifier_hash input) =? 0) = false) as Hz.
  { apply Z.eqb_neq. intros Hz. apply (Forall_lookup_1 _ _ _ _ Hnz Hi), be_val_inj; [done|]. rewrite Hz. by vm_compute. }
  pose proof (in_fresh _ _ _ _ _ Hins) as Hfresh. rewrite <- (in_nullifier _ _ _ _ _ Hins Hz) in Hfresh. exact Hfresh.
Qed.

(** Every nullifier a transact spends on a tree is outside the tree of a root that
    the account serves. *)
Definition outside (L : Ledger) (T v : bytes) : Prop :=
  exists l index r, tree_at L T l /\ root_by_index (nullifier l) index = Some r /\ non_included Q (be_val r) (be_val v).

Lemma transact_outside L accounts ix p T vs v : transact_data_typed ix ->
  inputs_checked L accounts ix p -> transact_hashed Q ix p -> (T, vs) ∈ transact_spends accounts ix -> v ∈ vs -> outside L T v.
Proof.
  intros (Hty & _ & _) Hp Hh (k & Hk & ->)%tree_spends_lookup (input & -> & [Hidx Hin]%list_elem_of_filter)%list_elem_of_fmap.
  rewrite Z.add_0_l in Hidx. apply list_elem_of_lookup in Hin as [i Hi]. destruct (Forall_lookup_1 _ _ _ _ Hty Hi) as [Hb _].
  pose proof (ic_slots _ _ _ _ Hp) as Hslots. destruct (Forall2_lookup_l _ _ _ _ _ Hslots Hk) as (slot & Hs & l & index & Hl & Hr).
  exists l, index, (nullifier_root slot). split_and!; [done..|]. eapply transact_input_fresh; try done. by rewrite Hidx, Nat2Z.id.
Qed.

Lemma merge_outside L accounts ix d T vs v : merge_data_typed ix -> merge_checked L accounts ix d -> merge_hashed Q ix d ->
  (T, vs) ∈ merge_spends accounts ix -> v ∈ vs -> outside L T v.
Proof.
  intros (Hb & _ & _) [(tree & rest & -> & l & index & Hl & Hr) Htail Hnz Hv] Hh Hin Hvs. cbn [merge_spends] in Hin.
  apply list_elem_of_singleton in Hin as [= -> ->]. exists l, index, (nullifier_root (mi_tree_slot d)). split_and!; [done..|].
  destruct (merge_verify_commits Q HQ Hzero Hslot ix d Htail Hv Hh) as (width & t & _ & Hle & Hc & [der Hs] & Hli).
  apply list_elem_of_lookup in Hvs as [i Hi].
  assert (Merging.p_Nullifiers (Merging.t_Public t) !! i = Some (be_val v)) as Hn.
  { rewrite (mc_nullifiers _ _ _ _ Hc). apply lookup_map_Some. by apply lookup_app_l_Some. }
  destruct (lookup_lt_is_Some_2 (Merging.t_Inputs t) i) as [input Hinput]; [apply lookup_lt_Some in Hi; lia|].
  destruct (Merging.ms_inputs _ _ _ Hs i input Hinput) as (n & Hn' & slot & Hslot' & Hnr & _ & _ & Hsound).
  rewrite Hn in Hn'. injection Hn' as <-. rewrite (mc_slots _ _ _ _ Hc) in Hslot'.
  apply list_elem_of_fmap in Hslot' as (s & -> & [->%list_elem_of_singleton|Hz]%elem_of_app).
  - apply (Merging.mi_fresh _ _ _ _ _ _ _ _ Hsound). intros Hz. apply (Forall_lookup_1 _ _ _ _ Hnz Hi), be_val_inj.
    + exact (Forall_lookup_1 _ _ _ _ Hb Hi).
    + rewrite Hz. by vm_compute.
  - exfalso. apply Hnr. apply elem_of_replicate in Hz as [-> _]. by vm_compute.
Qed.

(** Such a nullifier was not spent before, if the account's watermark covers what
    has no PDA. *)
Lemma outside_unspent h L T v l : @good SP G R (log_in Q) h L -> tree_at L T l -> queue_hashed Q (h T) (nullifier l) ->
  (forall k, h T !! k = Some v -> 1 + Z.of_nat k < close_before_index (nullifier l)) -> outside L T v -> v ∉ h T.
Proof.
  intros Hg Hl Hq Hcov (l' & index & r & Hl' & Hr & Hn) [k Hk]%list_elem_of_lookup. rewrite (tree_at_unique _ _ _ _ Hl' Hl) in Hr.
  destruct (good_tree _ _ T l Hg Hl) as [Hh _].
  destruct (served_root_fresh Q HQ Hinit _ _ _ _ _ Hh Hq Hr Hn) as (n & Hclose & Hfresh).
  apply (Hfresh k v Hk); [|done]. specialize (Hcov k Hk). lia.
Qed.

End transact.

(** ** Runs *)

Section runs.
Context {C : Gnark} {H : CircuitHash} {E : Ed25519Gadget}.
Context `{SP : SolPoseidon} `{SH : SolHash} `{G : Groth16} `{PG : PoolGroth16} `{W : Wincode} `{R : Runtime}
  `{TP : TokenProgram} `{F : ArkFr} `{KM : KeyMetadata} `{LS : LoaderState} `{A : ArrayMapLib} `{D : WincodeFormats}.
Context (Q : list Z -> Prop).

(** The preimages the program hashes for the proof of a spending instruction are
    in [Q]. *)
Definition spend_hashed (L : Ledger) (accounts : list View) (instruction_data : bytes) : Prop :=
  match instruction_data with
  | [] => True
  | ix_tag :: payload =>
      match tag_try_from (byte_val ix_tag) with
      | Some ((Event.Transact | RingTransact | RingAuthorityTransact) as tag) =>
          forall ix prefix p L1, decode_transact payload = Some (ix, prefix) ->
          transact_inputs accounts ix prefix tag L = (Ok p, L1) -> transact_hashed Q ix p
      | Some MergeTransact =>
          forall ix d L1, decode_merge payload = Some ix ->
          merge_inputs (setup_merge_transact accounts ix) ix L = (Ok d, L1) -> merge_hashed Q ix d
      | Some RingMergeTransact =>
          forall ix d L1, decode_merge_ring payload = Some ix ->
          merge_inputs (setup_merge_ring accounts ix) (mr_merge ix) L = (Ok d, L1) -> merge_hashed Q (mr_merge ix) d
      | _ => True
      end
  end.

(** A run of the program, interleaved with what others do, all of whose hash
    inputs are in [Q]: those of the update proofs, of the spending proofs and of
    the queues' chains. *)
Inductive known_run : list (bytes * list bytes) -> Ledger -> Prop :=
| known_genesis L : genesis L -> known_run [] L
| known_others tr L L' : known_run tr L -> frame [] L L' -> known_run tr L'
| known_instruction tr L program_id accounts data L' :
    known_run tr L -> views_ok accounts ->
    @instruction_logged (log_in Q) L accounts data -> spend_hashed L accounts data ->
    (forall T l, tree_at L T l -> queue_hashed Q (spent_on T tr) (nullifier l)) ->
    process_instruction program_id accounts data L = (Ok tt, L') ->
    known_run (tr ++ PoolSafety.spends accounts data) L'.

Lemma known_reachable tr L : known_run tr L ->
  @reachable SP SH G PG W R (log_in Q) TP F KM LS A D tr L.
Proof.
  induction 1 as [L Hg|tr L L' _ IH Hf|tr L id accounts data L' _ IH Hv Hlog _ _ Hr].
  - by apply reach_genesis.
  - by eapply reach_others.
  - by eapply reach_instruction.
Qed.

End runs.

Section once.
Context {C : Gnark} {GL : GnarkLaws C} {H : CircuitHash} {HL : CircuitHashLaw H} {E : Ed25519Gadget}.
Context `{SP : SolPoseidon} `{SH : SolHash} `{G : Groth16} `{PG : PoolGroth16} `{W : Wincode} `{R : Runtime}
  `{TP : TokenProgram} `{F : ArkFr} `{KM : KeyMetadata} `{LS : LoaderState} `{A : ArrayMapLib} `{D : WincodeFormats}.
Context {HT : PoseidonTotal SP} {HS : PoseidonSized SP} {HF : PoseidonField SP} {HZ : ZeroBytesLaw Poseidon.Poseidon}
  {PA : PoseidonAgrees SP H} {PC : PoseidonChecked SP} {FL : ArkFrLaws F}
  {HW : WincodeLaw W} {RL : RuntimeLaws R} {TL : TokenLaws TP} {PD : PdaDisjoint R} {DT : WincodeTyped D}.
Context (Q : list Z -> Prop) (HQ : ideal Q) {KS : AppendKeySound G Q} {PS : PoolKeySound PG Q} {IR : InitRootLaw H}.
Context (Hinit : known Q 40 initial_leaves).
Context (Hzero : zero_suffix_law) (Hslot : slot_suffix_law) (Hsigner : signer_suffix_law).

Lemma transact_spends_outside tag accounts payload e h L u L' T vs v : @good SP G R (log_in Q) h L ->
  (forall ix prefix p L1, decode_transact payload = Some (ix, prefix) ->
     transact_inputs accounts ix prefix tag L = (Ok p, L1) -> transact_hashed Q ix p) ->
  decoded (decode_transact payload) e (fun '(ix, prefix) => process_transact_ix accounts ix prefix tag) L = (Ok u, L') ->
  (T, vs) ∈ match decode_transact payload with Some (ix, _) => transact_spends accounts ix | None => [] end ->
  v ∈ vs -> outside Q L T v.
Proof.
  intros Hg Hh Hr Hin Hv. unfold decoded in Hr. apply mbindM_ok in Hr as ([ix prefix] & L1 & [Hd%ok_or_ok ->]%mlift_ok & Hr).
  rewrite Hd in Hin. pose proof (decode_transact_typed _ _ _ Hd) as Hty.
  destruct (transact_accepted _ _ _ _ _ _ _ _ Hty Hg Hr) as (p & L2 & Hp & Hc).
  eapply transact_outside; try done. by eapply Hh.
Qed.

Lemma spends_outside program_id accounts data h L u L' T vs v : @good SP G R (log_in Q) h L -> spend_hashed Q L accounts data ->
  process_instruction program_id accounts data L = (Ok u, L') -> (T, vs) ∈ PoolSafety.spends accounts data -> v ∈ vs -> outside Q L T v.
Proof.
  intros Hg Hh Hr Hin Hv. unfold process_instruction in Hr. apply require_ok in Hr as [_ Hr].
  destruct data as [|b payload]; [done|]. apply mbindM_ok in Hr as (tag & L1 & [Htag%ok_or_ok ->]%mlift_ok & Hr).
  unfold PoolSafety.spends, spend_hashed in *. rewrite Htag in *. destruct tag; cbn [dispatch] in Hr; try by apply elem_of_nil in Hin.
  all: try by eapply transact_spends_outside.
  all: unfold decoded in Hr; apply mbindM_ok in Hr as (ix & L1 & [Hd%ok_or_ok ->]%mlift_ok & Hr); rewrite Hd in Hin.
  - pose proof (decode_merge_typed _ _ Hd) as Hty. destruct (merge_transact_accepted _ _ _ _ _ _ Hty Hg Hr) as (d & L2 & Hp & Hc).
    eapply merge_outside; try done. by eapply Hh.
  - pose proof (decode_merge_ring_typed _ _ Hd) as Hty. destruct (merge_ring_accepted _ _ _ _ _ _ Hg Hr) as (d & L2 & Hp & Hc).
    eapply merge_outside; try done. by eapply Hh.
Qed.

Lemma spent_on_distinct T sps : NoDup (map fst sps) -> spent_on T sps = [] \/ (T, spent_on T sps) ∈ sps.
Proof.
  induction sps as [|[T' vs] sps IH]; cbn [map fst]; intros Hnd; [by left|]. apply NoDup_cons in Hnd as [Hnew Hnd].
  change ((T', vs) :: sps) with ([(T', vs)] ++ sps). rewrite spent_on_app, spent_on_one. destruct (decide (T' = T)) as [->|Hne].
  - right. assert (spent_on T sps = []) as ->; [|rewrite app_nil_r; apply list_elem_of_here].
    destruct (IH Hnd) as [|Hin]; [done|]. exfalso. apply Hnew, list_elem_of_fmap. by exists (T, spent_on T sps).
  - cbn [app]. destruct (IH Hnd) as [|Hin]; [by left|]. right. by apply list_elem_of_further.
Qed.

(** C5. Every nullifier root a tree of a reachable ledger serves to proofs is the root of
    an indexed Merkle tree of height 40 that holds zero and exactly the first
    nullifiers spent on the tree, in order of their spending, up to some point at
    or after the close watermark; and that tree is linked correctly.  The account
    itself stores neither leaves nor links. *)
Theorem served_roots_index_spent_prefixes (tr : list (bytes * list bytes)) (L : Ledger) (T : bytes) (l : TreeAccountLayout)
    (index : Z) (r : bytes) :
  known_run Q tr L -> tree_at L T l -> queue_hashed Q (spent_on T tr) (nullifier l) -> root_by_index (nullifier l) index = Some r ->
  exists n t, close_before_index (nullifier l) <= 1 + Z.of_nat n /\ indexed t /\
    values t = 0 :: map be_val (take n (spent_on T tr)) /\ r = fbytes (indexed_root 40 t).
Proof.
  intros Hrun Hl Hq Hr. destruct (good_tree _ _ _ _ (reachable_good _ _ (known_reachable Q _ _ Hrun)) Hl) as [Hholds _].
  destruct (served_root_indexed Q HQ Hinit _ l index r Hholds Hq Hr) as (n & t & Hc & [Hk Hv] & ->).
  exists n, t. split_and!; try done. apply Hk.
Qed.

(** C1. No nullifier is ever spent twice.  On every run of the program whose proofs
    are sound for their circuits and whose hash inputs do not collide, the
    nullifiers spent on a tree, by any transact or merge and in any interleaving
    with tree updates, cleanups and what others do, are pairwise distinct. *)
Theorem nullifiers_spent_once (tr : list (bytes * list bytes)) (L : Ledger) (T : bytes) :
  known_run Q tr L -> NoDup (spent_on T tr).
Proof.
  induction 1 as [L Hg|tr L L' _ IH Hf|tr L id accounts data L' Hrun IH Hv Hlog Hh Hq Hr]; [constructor|done|].
  pose proof (reachable_good _ _ (known_reachable Q _ _ Hrun)) as Hg.
  destruct (process_instruction_spending id accounts data _ L tt L' Hv Hlog Hg Hr) as (Hnd & L0 & L1 & Hs & Hseq & _).
  rewrite spent_on_app. destruct (spent_on_distinct T _ Hnd) as [->|Hin]; [by rewrite app_nil_r|].
  destruct (seq_safe _ _ _ _ T _ (same_core_good _ _ _ Hs Hg) Hseq Hnd Hin) as (l & Hl & Hvs & Hcov).
  unfold tree_at in Hl. rewrite (proj1 Hs) in Hl. apply NoDup_app. split_and!; [done| |done]. intros v Hold Hnew.
  refine (outside_unspent Q HQ Hinit _ L T v l Hg Hl (Hq T l Hl) _ _ Hold).
  - intros k Hk. by apply (Hcov v k).
  - by eapply spends_outside.
Qed.

End once.
