(* ===== verification/ModelHash.v ===== *)
(** * A model of the parameters of the circuits

    Concrete instances for the witnesses: the field arithmetic of the builder, and
    a hash that is cheap to evaluate, agrees with the constants of the repository
    (the zero subtrees, the suffixes of the padded chains, the initial nullifier
    root) and is the same function for the system call and for the gadget. *)

From S2P Require Import Prelude ZeroBytes Hasher HashChain NullifierTree TreeTypes TreeSlot TransactProof ProofInputs Gnark Gadgets GadgetSpecs SparseTree ChainSpecs AppendCircuit NullifierRoots.

(** ** The builder *)

(** Reduction, immediate for a reduced number. *)
Definition reduced (z : Z) : Z := if (0 <=? z) && (z <? bn254_modulus) then z else z mod bn254_modulus.

Lemma reduced_mod z : reduced z = z mod bn254_modulus.
Proof.
  unfold reduced. destruct (_ && _) eqn:Hz; [|done]. apply andb_true_iff in Hz as [?%Z.leb_le ?%Z.ltb_lt].
  symmetry. by apply Z.mod_small.
Qed.

Definition field_gnark : Gnark := {|
  api_add x y := reduced (x + y);
  api_sub x y := reduced (x - y);
  api_mul x y := reduced (x * y);
  api_is_zero x := if x =? 0 then 1 else 0;
  api_select b x y := if b =? 1 then x else y;
  api_to_binary x n := if x <? 2 ^ Z.of_nat n then Some (bits n x) else None;
  api_from_binary bs := reduced (bits_val bs);
  api_assert_is_equal := Z.eqb;
  api_assert_is_different x y := negb (x =? y);
  api_assert_is_boolean x := (x =? 0) || (x =? 1);
  api_range_check x n := x <? 2 ^ Z.of_nat n;
  field_bit_len := 254;
|}.

Lemma field_gnark_laws : GnarkLaws field_gnark.
Proof. split; cbn; intros; by rewrite ?reduced_mod. Qed.

(** ** The hash *)

Fixpoint same (xs ys : list Z) : bool :=
  match xs, ys with
  | [], [] => true
  | x :: xs, y :: ys => (x =? y) && same xs ys
  | _, _ => false
  end.

Lemma same_spec xs ys : same xs ys = true <-> xs = ys.
Proof.
  revert ys. induction xs as [|x xs IH]; intros [|y ys]; cbn [same]; try done.
  rewrite andb_true_iff, Z.eqb_eq, IH. split; [by intros [-> ->]|]. by intros [= -> ->].
Qed.

(** The inputs that do not have a fixed image are mixed into 61 bits. *)
Definition sponge (xs : list Z) : Z :=
  1 + foldl (fun acc x => Z.land (acc * 1000003 + x + 1) (2 ^ 61 - 1)) (Z.of_nat (length xs)) xs.

(** Consecutive entries of a table, the second the image of a preimage with the first. *)
Definition images (key : Z -> list Z) (table : list Z) : list (list Z * Z) :=
  zip_with (fun z z' => (key z, z')) table (tail table).

(** The left spine of the initial nullifier tree. *)
Definition spine (n : nat) : Z :=
  foldl (fun node z => sponge [node; z]) (sponge [0; SENTINEL]) (take n (map be_val POSEIDON_ZERO_BYTES)).

Definition fixed_images : list (list Z * Z) := Eval vm_compute in
  images (fun z => [z; z]) (map be_val POSEIDON_ZERO_BYTES) ++
  images (fun z => [0; 0; 0; z]) (map be_val ZERO_SUFFIX_CHAINS) ++
  images (fun z => [0; z]) (map be_val SIGNER_ZERO_SUFFIX_CHAINS) ++
  (let slots := map be_val ZERO_TREE_SLOT_SUFFIX_CHAINS in
   let empty := default 0 (head slots) in
   ([0; 0; 0], empty) :: images (fun c => [empty; c]) slots) ++
  [([spine 39; default 0 (map be_val POSEIDON_ZERO_BYTES !! 39%nat)], be_val NULLIFIER_TREE_INIT_ROOT_40)].

Definition model_hash : CircuitHash := fun xs =>
  match find (fun row => same row.1 xs) fixed_images with
  | Some row => row.2
  | None => sponge xs
  end.

Lemma sponge_range xs : 1 <= sponge xs < 2 ^ 62.
Proof.
  unfold sponge. destruct xs as [|x xs _] using rev_ind; [cbn; lia|]. rewrite foldl_snoc.
  set (a := _ * 1000003 + x + 1). change (2 ^ 61 - 1) with (Z.ones 61). rewrite Z.land_ones by lia.
  pose proof (Z.mod_pos_bound a (2 ^ 61) ltac:(lia)). lia.
Qed.

Lemma fixed_images_range : Forall (fun row => 0 < row.2 < bn254_modulus) fixed_images.
Proof. apply (bool_decide_eq_true_1 _). vm_compute. reflexivity. Qed.

Lemma model_hash_range xs : 0 < model_hash xs < bn254_modulus.
Proof.
  unfold model_hash. destruct (find _ _) as [row|] eqn:Hf.
  - apply find_some in Hf as [Hin _]. pose proof fixed_images_range as Hr. rewrite List.Forall_forall in Hr. by apply Hr.
  - pose proof (sponge_range xs). assert (2 ^ 62 < bn254_modulus) by done. lia.
Qed.

Lemma model_hash_law : CircuitHashLaw model_hash.
Proof. intros xs. pose proof (model_hash_range xs). unfold fe, poseidon. lia. Qed.

(** ** The system call *)

Definition syscall_poseidon : SolPoseidon := fun vals =>
  if ((1 <=? length vals)%nat && (length vals <=? 12)%nat) && forallb (fun v => (length v =? 32)%nat && is_canonical_bn254_scalar_be v) vals
  then (0, fbytes (model_hash (map be_val vals))) else (1, zero32).

Lemma forallb_canonical vals :
  forallb (fun v => (length v =? 32)%nat && is_canonical_bn254_scalar_be v) vals = true <-> Forall canonical vals.
Proof.
  rewrite forallb_forall, List.Forall_forall. unfold canonical, is_bytes.
  split; intros Hv v Hin; specialize (Hv v Hin); rewrite andb_true_iff, Nat.eqb_eq in *; done.
Qed.

Lemma syscall_ok vals h : sol_poseidon (SolPoseidon := syscall_poseidon) vals = (0, h) ->
  Forall canonical vals /\ h = fbytes (model_hash (map be_val vals)).
Proof.
  unfold sol_poseidon, syscall_poseidon. destruct (_ && _) eqn:Hb; [|done]. intros [= <-].
  apply andb_true_iff in Hb as [_ Hv]. by rewrite <- forallb_canonical.
Qed.

Lemma syscall_runs vals : (1 <= length vals <= 12)%nat -> Forall canonical vals ->
  sol_poseidon (SolPoseidon := syscall_poseidon) vals = (0, fbytes (model_hash (map be_val vals))).
Proof.
  intros Hl Hv. unfold sol_poseidon, syscall_poseidon. rewrite (proj2 (forallb_canonical vals)) by done.
  rewrite (proj2 (Nat.leb_le _ _)), (proj2 (Nat.leb_le _ _)) by lia. done.
Qed.

Lemma model_hash_canonical xs : canonical (fbytes (model_hash xs)).
Proof. apply fbytes_canonical. apply model_hash_law. Qed.

Lemma syscall_total : PoseidonTotal syscall_poseidon.
Proof. intros vals Hl Hv. eexists. split; [by apply syscall_runs|apply model_hash_canonical]. Qed.

Lemma syscall_sized : PoseidonSized syscall_poseidon.
Proof.
  intros vals code h. unfold sol_poseidon, syscall_poseidon. destruct (_ && _); intros [= _ <-]; [apply length_be_bytes|done].
Qed.

Lemma syscall_field : PoseidonField syscall_poseidon.
Proof. intros vals h [_ ->]%syscall_ok. apply model_hash_canonical. Qed.

Lemma syscall_checked : PoseidonChecked syscall_poseidon.
Proof. by intros vals h [Hv _]%syscall_ok. Qed.

Lemma syscall_agrees : PoseidonAgrees syscall_poseidon model_hash.
Proof.
  intros xs Hl Hx. assert (map be_val (map fbytes xs) = xs) as Hxs.
  { rewrite map_map. rewrite <- (map_id xs) at 2. apply map_ext_in. intros x Hin%list_elem_of_In.
    apply be_val_fbytes. by eapply Forall_forall in Hx. }
  rewrite syscall_runs, Hxs; [done|by rewrite length_map|]. apply Forall_map. eapply Forall_impl; [exact Hx|].
  intros x. apply fbytes_canonical.
Qed.

(** The program's hash on the entries of a table. *)
Definition hashes_to (vals : list bytes) (z : bytes) : bool :=
  ((1 <=? length vals)%nat && (length vals <=? 12)%nat) &&
  forallb (fun v => (length v =? 32)%nat && is_canonical_bn254_scalar_be v) vals &&
  (length z =? 32)%nat && (model_hash (map be_val vals) =? be_val z).

Lemma hashes_to_spec vals z : hashes_to vals z = true -> @Poseidon.hashv syscall_poseidon vals = Ok z.
Proof.
  unfold hashes_to. rewrite !andb_true_iff, !Nat.leb_le, forallb_canonical, Nat.eqb_eq, Z.eqb_eq.
  intros (((Hl & Hv) & Hz) & Hh). rewrite <- (map_fbytes_be_val vals Hv).
  pose proof (@hashv_agrees model_hash syscall_poseidon syscall_agrees) as Hagree.
  rewrite Hagree; [|by rewrite length_map|by apply be_vals_fe]. unfold poseidon. by rewrite Hh, fbytes_be_val.
Qed.

Definition table_hashes (key : bytes -> list bytes) (table : list bytes) : bool :=
  forallb (fun '(z, z') => hashes_to (key z) z') (zip table (tail table)).

Lemma table_hashes_spec key table k z z' : table_hashes key table = true -> table !! k = Some z -> table !! S k = Some z' ->
  @Poseidon.hashv syscall_poseidon (key z) = Ok z'.
Proof.
  intros Hall Hz Hz'. unfold table_hashes in Hall. rewrite forallb_forall in Hall.
  apply hashes_to_spec, (Hall (z, z')), list_elem_of_In, (list_elem_of_lookup_2 _ k).
  apply lookup_zip_Some. split; [done|]. by rewrite lookup_tail.
Qed.

Lemma syscall_zero_bytes : ZeroBytesLaw (@Poseidon.Poseidon syscall_poseidon).
Proof.
  split; [reflexivity|]. intros i z Hz Hi. change (POSEIDON_ZERO_BYTES !! i = Some z) in Hz.
  change (exists z', POSEIDON_ZERO_BYTES !! S i = Some z' /\ @Poseidon.hashv syscall_poseidon [z; z] = Ok z').
  destruct (lookup_lt_is_Some_2 POSEIDON_ZERO_BYTES (S i)) as [z' Hz']; [change (length POSEIDON_ZERO_BYTES) with (S MAX_HEIGHT); lia|].
  exists z'. split; [done|]. by apply (table_hashes_spec (fun z => [z; z]) POSEIDON_ZERO_BYTES i); [vm_compute; reflexivity|..].
Qed.

Lemma syscall_zero_suffix : @zero_suffix_law syscall_poseidon.
Proof.
  intros k z Hz Hk. destruct (lookup_lt_is_Some_2 ZERO_SUFFIX_CHAINS (S k)) as [z' Hz'].
  { change (length ZERO_SUFFIX_CHAINS) with (S ZERO_SUFFIX_GROUPS). lia. }
  exists z'. split; [done|]. by apply (table_hashes_spec (fun z => [zero32; zero32; zero32; z]) ZERO_SUFFIX_CHAINS k); [vm_compute; reflexivity|..].
Qed.

Lemma syscall_signer_suffix : @signer_suffix_law syscall_poseidon.
Proof.
  intros k z z'. apply (table_hashes_spec (fun z => [zero32; z]) SIGNER_ZERO_SUFFIX_CHAINS k). vm_compute. reflexivity.
Qed.

Lemma syscall_slot_suffix : @slot_suffix_law syscall_poseidon.
Proof.
  exists (default zero32 (head ZERO_TREE_SLOT_SUFFIX_CHAINS)). split; [apply hashes_to_spec; vm_compute; reflexivity|].
  split; [reflexivity|]. intros m c c'. apply (table_hashes_spec (fun c => [default zero32 (head ZERO_TREE_SLOT_SUFFIX_CHAINS); c])
    ZERO_TREE_SLOT_SUFFIX_CHAINS m). vm_compute. reflexivity.
Qed.

(** ** The initial nullifier tree *)

Definition zeros : list Z := Eval vm_compute in map be_val POSEIDON_ZERO_BYTES.

Definition spines : list Z := Eval vm_compute in map spine (seq 0 40).

Lemma zeros_hash n z z' : zeros !! n = Some z -> zeros !! S n = Some z' -> model_hash [z; z] = z'.
Proof.
  assert (forallb (fun '(z, z') => model_hash [z; z] =? z') (zip zeros (tail zeros)) = true) as Hall by (vm_compute; reflexivity).
  rewrite forallb_forall in Hall. intros Hz Hz'. apply Z.eqb_eq, (Hall (z, z')), list_elem_of_In, (list_elem_of_lookup_2 _ n).
  apply lookup_zip_Some. split; [done|]. by rewrite lookup_tail.
Qed.

Lemma spines_hash n z s s' : zeros !! n = Some z -> spines !! n = Some s -> spines !! S n = Some s' -> model_hash [s; z] = s'.
Proof.
  assert (forallb (fun '((s, z), s') => model_hash [s; z] =? s') (zip (zip spines zeros) (tail spines)) = true) as Hall
    by (vm_compute; reflexivity).
  rewrite forallb_forall in Hall. intros Hz Hs Hs'. apply Z.eqb_eq, (Hall ((s, z), s')), list_elem_of_In, (list_elem_of_lookup_2 _ n).
  apply lookup_zip_Some. split; [by apply lookup_zip_Some|]. by rewrite lookup_tail.
Qed.

Notation initial_node := (@node model_hash (@leaf_of model_hash initial_leaves)).

Lemma zero_nodes n k z : zeros !! n = Some z -> 1 <= k -> initial_node n k = z.
Proof.
  revert k z. induction n as [|n IH]; intros k z Hz Hk.
  - injection Hz as <-. cbn [node]. unfold leaf_of. rewrite (proj2 (Z.ltb_ge k 0)) by lia. destruct (initial_leaves !! Z.to_nat k) as [[v x]|] eqn:Hl; [|done].
    apply lookup_lt_Some in Hl. cbn in Hl. lia.
  - destruct (lookup_lt_is_Some_2 zeros n) as [y Hy]; [apply lookup_lt_Some in Hz; lia|].
    cbn [node]. rewrite !(IH _ y) by (done || lia). by apply (zeros_hash n).
Qed.

Lemma spine_nodes n s : spines !! n = Some s -> initial_node n 0 = s.
Proof.
  revert s. induction n as [|n IH]; intros s Hs; [by injection Hs as <-|].
  assert (S n < 40)%nat as Hn by (by apply lookup_lt_Some in Hs).
  destruct (lookup_lt_is_Some_2 spines n) as [y Hy]; [change (length spines) with 40%nat; lia|].
  destruct (lookup_lt_is_Some_2 zeros n) as [z Hz]; [change (length zeros) with 41%nat; lia|].
  cbn [node]. change (2 * 0) with 0. rewrite (IH y Hy), (zero_nodes n _ z) by (done || lia). by apply (spines_hash n z y).
Qed.

Lemma spine_step n y z : zeros !! n = Some z -> spines !! n = Some y -> initial_node (S n) 0 = model_hash [y; z].
Proof.
  intros Hz Hy. cbn [node]. change (2 * 0) with 0. by rewrite (spine_nodes n y Hy), (zero_nodes n _ z) by (done || lia).
Qed.

Lemma initial_root : @indexed_root model_hash 40 initial_leaves = be_val NULLIFIER_TREE_INIT_ROOT_40.
Proof.
  destruct (zeros !! 39%nat) as [z|] eqn:Hz; [|vm_compute in Hz; discriminate].
  destruct (spines !! 39%nat) as [y|] eqn:Hy; [|vm_compute in Hy; discriminate].
  unfold indexed_root. rewrite (spine_step 39 y z Hz Hy). vm_compute in Hz, Hy. injection Hy as <-. injection Hz as <-.
  vm_compute. reflexivity.
Qed.

Lemma model_init_root : InitRootLaw model_hash.
Proof.
  unfold InitRootLaw. rewrite initial_root. symmetry. apply be_val_inj; [by vm_compute|].
  apply be_val_fbytes. apply (bool_decide_eq_true_1 _). vm_compute. reflexivity.
Qed.

(** The preimages of the initial tree. *)
Definition initial_queries : list (list Z) :=
  [0; SENTINEL] :: zip_with (fun z s => [s; z]) zeros spines ++ map (fun z => [z; z]) (take 40 zeros).

Lemma initial_known (Q : list Z -> Prop) h : (h <= 40)%nat -> Forall Q initial_queries -> @known model_hash Q h initial_leaves.
Proof.
  intros Hh HQ. rewrite Forall_forall in HQ. split.
  - apply indexed_initial.
  - change (1 <= 2 ^ Z.of_nat h). pose proof (Z.pow_pos_nonneg 2 (Z.of_nat h)). lia.
  - intros v n [= -> ->]%list_elem_of_singleton. apply HQ, list_elem_of_here.
  - intros n k Hn Hk. destruct (lookup_lt_is_Some_2 spines n) as [y Hy]; [change (length spines) with 40%nat; lia|].
    destruct (lookup_lt_is_Some_2 zeros n) as [z Hz]; [change (length zeros) with 41%nat; lia|].
    rewrite (zero_nodes n (2 * k + 1) z) by (done || lia). apply HQ, list_elem_of_further, elem_of_app.
    destruct (decide (k = 0)) as [->|Hk0].
    + left. change (2 * 0) with 0. rewrite (spine_nodes n y Hy). apply (list_elem_of_lookup_2 _ n).
      rewrite lookup_zip_with, Hz. cbn. by rewrite Hy.
    + right. rewrite (zero_nodes n (2 * k) z) by (done || lia). apply (list_elem_of_fmap_2 (fun z => [z; z])).
      apply (list_elem_of_lookup_2 _ n). by rewrite lookup_take_lt by lia.
Qed.

(** ** Sets of preimages without a collision *)

Fixpoint distinct_values (l : list Z) : bool :=
  match l with
  | [] => true
  | x :: l' => forallb (fun y => negb (x =? y)) l' && distinct_values l'
  end.

Lemma distinct_values_NoDup l : distinct_values l = true -> NoDup l.
Proof.
  induction l as [|x l IH]; cbn [distinct_values]; [constructor|]. intros [Hx Hl]%andb_true_iff. constructor; [|by apply IH].
  intros Hin%list_elem_of_In. rewrite forallb_forall in Hx. specialize (Hx x Hin). by rewrite Z.eqb_refl in Hx.
Qed.

Lemma listed_ideal qs : distinct_values (map model_hash qs) = true -> @ideal model_hash (fun q => q ∈ qs).
Proof.
  intros Hnd%distinct_values_NoDup. split.
  - intros x y [i Hx]%list_elem_of_lookup [j Hy]%list_elem_of_lookup Heq.
    assert (i = j) as ->; [|congruence]. eapply NoDup_lookup; [exact Hnd|..]; rewrite list_lookup_fmap.
    + by rewrite Hx.
    + rewrite Hy. cbn. by f_equal.
  - intros x _. pose proof (model_hash_range x). unfold poseidon. lia.
Qed.

Definition preimages {A} (m : circ A) : list (list Z) := match m with Some (_, q) => q | None => [] end.

Fixpoint distinct (qs : list (list Z)) : list (list Z) :=
  match qs with
  | [] => []
  | q :: qs' => if existsb (same q) qs' then distinct qs' else q :: distinct qs'
  end.

Definition listed_in (qs : list (list Z)) (q : list Z) : bool := existsb (same q) qs.

Lemma listed_in_all qs l : forallb (listed_in qs) l = true -> Forall (fun q => q ∈ qs) l.
Proof.
  rewrite forallb_forall, List.Forall_forall. intros Hl q Hq. specialize (Hl q Hq).
  apply existsb_exists in Hl as (x & Hx%list_elem_of_In & ->%same_spec). exact Hx.
Qed.

(** The circuit is satisfied and its preimages are listed. *)
Definition satisfied_in (qs : list (list Z)) {A} (m : circ A) : bool :=
  match m with Some (_, q) => forallb (listed_in qs) q | None => false end.

Lemma satisfied_in_runs qs {A} (m : circ A) : satisfied_in qs m = true -> exists a, runs (fun q => q ∈ qs) m a.
Proof. destruct m as [[a q]|]; [|done]. intros Hq. exists a, q. split; [done|]. by apply listed_in_all. Qed.

(** Closed facts about field elements. *)
Ltac field_values := repeat constructor; try (apply (bool_decide_eq_true_1 _); vm_compute; reflexivity).
