(* ===== verification/CircuitRun.v ===== *)
(** * Small runs of the circuits

    Assignments on which the theorems of the gadgets and of the append circuit are
    applied: a batch of two values inserted into the initial tree of height two, a
    spend of one note with a change output and a public withdrawal, hash chains,
    and the Poseidon gadget on small tables. *)

From S2P Require Import Prelude Hasher HashChain Gnark Gadgets PrimeField GadgetSpecs PoseidonGadget SparseTree ChainSpecs AppendCircuit NullifierRoots TxCircuit TxSpecs TxBalance ModelHash.

#[local] Existing Instances field_gnark model_hash.

(** ** A batch of two *)

Definition batch_values : list Z := [5; 9].

(** The leaves between and after the two insertions. *)
Definition low_leaf : Z := Eval vm_compute in model_hash [0; 5].
Definition batch_leaves : list (Z * Z) := [(0, 5); (5, 9); (9, SENTINEL)].
Definition empty_node : Z := Eval vm_compute in model_hash [0; 0].

Definition batch_old_root : Z := Eval vm_compute in indexed_root 2 initial_leaves.
Definition batch_new_root : Z := Eval vm_compute in indexed_root 2 batch_leaves.
Definition batch_chain : Z := Eval vm_compute in match HashChain4 batch_values with Some (v, _) => v | None => 0 end.

Definition batch : BatchAddressTreeAppendCircuit := Eval vm_compute in
  mkAppend (model_hash [batch_old_root; batch_new_root; batch_chain; 1]) batch_old_root batch_new_root batch_chain 1
    [0; 5] [SENTINEL; SENTINEL] [0; 1] [[0; empty_node]; [low_leaf; empty_node]] batch_values
    [[low_leaf; empty_node]; [0; model_hash [low_leaf; model_hash [5; 9]]]] 2 2.

Definition batch_queries : list (list Z) := Eval vm_compute in distinct (initial_queries ++ preimages (Define batch)).

Lemma batch_ideal : ideal (fun q => q ∈ batch_queries).
Proof. apply listed_ideal. vm_compute. reflexivity. Qed.

Lemma batch_runs : runs (fun q => q ∈ batch_queries) (Define batch) tt.
Proof. destruct (satisfied_in_runs batch_queries (Define batch)) as [[] Hr]; [vm_compute; reflexivity|exact Hr]. Qed.

Lemma batch_tree_known : known (fun q => q ∈ batch_queries) 2 initial_leaves.
Proof. apply initial_known; [lia|]. apply listed_in_all. vm_compute. reflexivity. Qed.

Lemma batch_assigned : AppendCircuit.assigned batch.
Proof. split; field_values. Qed.

Lemma append_circuit_inserts_batch_witness :
  exists l', known (fun q => q ∈ batch_queries) 2 l' /\ l'.*1 = [0; 5; 9] /\ NewRoot batch = indexed_root 2 l'.
Proof.
  destruct (@append_circuit_inserts_batch field_gnark field_gnark_laws model_hash model_hash_law _ batch_ideal
    batch 2 initial_leaves eq_refl ltac:(lia) batch_assigned batch_tree_known eq_refl ltac:(vm_compute; reflexivity) batch_runs)
    as (_ & _ & _ & _ & Hl).
  exact Hl.
Defined.

(** ** Conservation of value *)

(** A note of 100 lamports, 70 of which stay in a note and 30 of which leave. *)
Definition spent_note : UtxoCircuitFields := mkUtxo UtxoDomain 7 1 100 3 0 0 0.
Definition change_note : UtxoCircuitFields := mkUtxo UtxoDomain 7 1 70 4 0 0 0.
Definition withdrawn : list Z := [bn254_modulus - 30; 0; 0].

Lemma notes_assigned : Forall utxo_assigned [spent_note] /\ Forall utxo_assigned [change_note].
Proof. split; (apply Forall_cons; split; [field_values|constructor]). Qed.

Lemma balance_gadget_is_conservation_witness :
  conserved [spent_note] [change_note] [1; 0; 0] withdrawn /\ ~ conserved [spent_note] [change_note] [1; 0; 0] [0; 0; 0].
Proof.
  destruct notes_assigned as [Hin Hout].
  pose proof (fun amounts Hf Hl => @balance_gadget_is_conservation field_gnark field_gnark_laws (fun _ => True)
    [spent_note] [change_note] [1; 0; 0] amounts Hin Hout ltac:(field_values) Hf ltac:(cbn; lia) ltac:(cbn; lia) Hl) as Hiff.
  split.
  - apply Hiff; [field_values|cbn; lia|]. exists []. split; [vm_compute; reflexivity|constructor].
  - rewrite <- Hiff; [|field_values|cbn; lia]. intros (q & Hq & _). vm_compute in Hq. discriminate.
Defined.

(** ** Chains *)

Lemma circuit_chains_are_the_programs_witness :
  exists v, fe v /\ computes (HashChain4 [1; 2; 3; 4; 5; 6]) v /\
    @create_hash_chain_4 syscall_poseidon (map fbytes [1; 2; 3; 4; 5; 6]) = Ok (fbytes v).
Proof.
  pose proof (@circuit_chains_are_the_programs field_gnark field_gnark_laws model_hash model_hash_law syscall_poseidon syscall_agrees
    [1; 2; 3; 4; 5; 6] [(3, false); (0, true)] ltac:(field_values) ltac:(by repeat constructor)) as (_ & _ & Hv & _).
  exact Hv.
Defined.

(** ** Poseidon tables of width two

    The mixing matrix is sparse itself, so the blocks are the identity. *)

Definition toy_matrix : list (list Z) := [[2; 1]; [1; 1]].
Definition toy_C : list Z := map Z.of_nat (seq 1 72).
Definition toy_S : list Z := concat (replicate 56 [2; 1; 1]).

(** The textbook constants of a pair of the table. *)
Definition toy_mixed (o : nat) : list Z :=
  let x := nth o toy_C 0 in let y := nth (o + 1)%nat toy_C 0 in [2 * x + y; x + y].

Definition toy_cs : list (list Z) :=
  [[1; 2]] ++ map (fun k => toy_mixed (2 * k)) (seq 1 4) ++
  map (fun r => let k := nth (10 + r)%nat toy_C 0 in [2 * k; k]) (seq 0 56) ++
  map (fun k => toy_mixed (66 + 2 * k)) (seq 0 3).

Definition toy_constants : constants := mkConstants [toy_C] [toy_S] [toy_matrix] [toy_matrix].

Definition toy_block (_ j i : nat) : Z := if (j =? i)%nat then 1 else 0.

(** Closed facts about all small numbers. *)
Lemma below_spec (P : nat -> Prop) `{!forall n, Decision (P n)} n : forallb (fun k => bool_decide (P k)) (seq 0 n) = true ->
  forall k, (k < n)%nat -> P k.
Proof.
  rewrite forallb_forall. intros Hall k Hk. apply (bool_decide_eq_true_1 _), Hall, in_seq. lia.
Qed.

Lemma toy_rows r : (r < 56)%nat -> take 3 (drop (3 * r) toy_S) = [2; 1; 1].
Proof. revert r. apply (below_spec _). vm_compute. reflexivity. Qed.

Lemma toy_partial_constants r : (r < 56)%nat -> nth (5 + r)%nat toy_cs [] = [2 * nth (10 + r)%nat toy_C 0; nth (10 + r)%nat toy_C 0].
Proof. revert r. apply (below_spec _). vm_compute. reflexivity. Qed.

Lemma congr_refl_eq x y : x = y -> x ≡ₚ y.
Proof. by intros ->. Qed.

Ltac coordinates := intros; apply congr_refl_eq;
  match goal with Hi : (?i < 2)%nat |- _ => destruct i as [|[|?]]; [..|exfalso; lia] end.

Ltac linear := unfold dense, inner, sparse, vsum, toy_block; cbn; ring.

Lemma toy_derived : derived_tables 2 56 toy_C toy_S toy_matrix toy_matrix toy_cs toy_block (fun _ _ => 0).
Proof.
  split; try (intros; reflexivity).
  - split; [reflexivity|by repeat constructor].
  - split; [reflexivity|by repeat constructor].
  - split; [reflexivity|apply (bool_decide_eq_true_1 _); vm_compute; reflexivity].
  - coordinates; reflexivity.
  - intros k i Hk. destruct k as [|[|[|[|]]]]; try (exfalso; lia); coordinates; reflexivity.
  - coordinates; linear.
  - coordinates; reflexivity.
  - intros r v i Hr. change (2 * 2 - 1)%nat with 3%nat. rewrite toy_rows by done. coordinates; linear.
  - intros r i Hr. change (2 * 2 - 1)%nat with 3%nat. rewrite toy_rows, toy_partial_constants by done. change (5 * 2)%nat with 10%nat.
    generalize (nth (10 + r)%nat toy_C 0). intros x. coordinates; linear.
  - coordinates; linear.
  - intros k i Hk. destruct k as [|[|[|]]]; try (exfalso; lia); coordinates; reflexivity.
Qed.

Lemma gadget_is_textbook_poseidon_witness :
  exists h, @PoseidonHashWithState field_gnark (Some toy_constants) [5] 0 = Some h /\
    head (text_permutation toy_matrix toy_cs 56 [0; 5]) = Some h.
Proof.
  apply (@gadget_is_textbook_poseidon field_gnark field_gnark_laws (Some toy_constants) [5] 0 toy_constants 56 toy_C toy_S
    toy_matrix toy_matrix toy_cs toy_block (fun _ _ => 0)); [cbn; lia|reflexivity..|exact toy_derived].
Defined.
