(* ===== verification/PoolValue.v ===== *)
(** * What an accepted transact does to value and who authorised it

    The statement of the proof a transact verifies, in the program's terms: the
    notes it consumes and creates balance with the transfers it settles, asset by
    asset and over the integers, and every note it consumes belongs to a key that
    signed. *)

From S2P Require Import Prelude ZeroBytes Hasher HashChain Codec Smt Batch NullifierTree NullifierQueue NullifierSafety TreeAccount TreeTypes TreeSafety Errors TreeSlot Ledger AccountChecks State Event Shared NullifierPdas Forester CreateTree Circuit UserRegistry Cache Configs Settlement Merge TransactProof ProofInputs Transact Deposit Program TreeTrace PoolMachine PoolSteps PoolHandlers PoolCreate PoolSpend PoolTransact PoolSafety.
From S2P Require Import Gnark Gadgets PrimeField GadgetSpecs SparseTree ChainSpecs AppendCircuit NullifierRoots TxCircuit TxSpecs TxBalance TxSound TxVariants TxOwners TxProved MergeCircuit TxBinding MergeBinding PoolProofs.

(** ** Public amounts over the integers *)

Lemma signed_small a : Z.abs a < 2 ^ 64 -> signed (a mod bn254_modulus) = a.
Proof.
  intros Ha. pose proof bn254_modulus_bounds. unfold signed. destruct (Z.lt_ge_cases a 0).
  - assert (a mod bn254_modulus = a + bn254_modulus) as -> by (symmetry; apply Z.mod_unique with (-1); lia).
    rewrite (proj2 (Z.ltb_ge _ _)) by lia. lia.
  - rewrite Z.mod_small by lia. rewrite (proj2 (Z.ltb_lt _ _)) by lia. done.
Qed.

(** Legs by the value of their asset field. *)
Definition leg_values (entries : list (bytes * Z)) : list (Z * Z) := map (fun '(asset, amount) => (be_val asset, amount)) entries.

Lemma total_app asset l k : total asset (l ++ k) = total asset l + total asset k.
Proof. induction l as [|[a v] l IH]; cbn [app total]; lia. Qed.

Lemma total_zeros asset l : total asset (map (fun a : Z => (a, 0)) l) = 0.
Proof. induction l as [|a l IH]; cbn [map total]; [done|]. rewrite IH. by destruct (asset =? a). Qed.

Lemma total_one asset used (e : bytes * Z) : NoDup used -> e.1 ∈ used ->
  total asset (map (fun a => (be_val a, if bool_decide (e.1 = a) then e.2 else 0)) used) = if asset =? be_val e.1 then e.2 else 0.
Proof.
  induction 1 as [|a used Hna Hnd IH]; [by intros ?%elem_of_nil|]. intros Hin. cbn [map total]. case_bool_decide as Ha.
  - subst a. rewrite (map_ext_in _ (fun a => (be_val a, 0))).
    + rewrite <- (map_map be_val (fun a => (a, 0))), total_zeros. lia.
    + intros a Hina%list_elem_of_In. rewrite bool_decide_false; [done|]. intros Ea. apply Hna. by rewrite Ea.
  - apply elem_of_cons in Hin as [?|Hin]; [done|]. rewrite IH by done. by destruct (asset =? be_val a).
Qed.

Lemma total_plus asset used (f g : bytes -> Z) :
  total asset (map (fun a => (be_val a, f a + g a)) used) =
  total asset (map (fun a => (be_val a, f a)) used) + total asset (map (fun a => (be_val a, g a)) used).
Proof. induction used as [|a used IH]; cbn [map total]; [done|]. rewrite IH. destruct (asset =? be_val a); lia. Qed.

(** Each asset once with its net amount totals like the legs. *)
Lemma total_net asset entries used : NoDup used -> (forall a, a ∈ map fst entries -> a ∈ used) ->
  total asset (map (fun a => (be_val a, net entries a)) used) = total asset (leg_values entries).
Proof.
  intros Hnd. induction entries as [|e entries IH]; intros Hin.
  - cbn [leg_values map total]. rewrite <- (map_map be_val (fun a => (a, 0))). apply total_zeros.
  - etransitivity; [exact (total_plus asset used (fun a => if bool_decide (e.1 = a) then e.2 else 0) (net entries))|].
    cbv beta. rewrite (total_one asset used e), IH; [by destruct e|intros a Ha; apply Hin; by apply list_elem_of_further|done|apply Hin, list_elem_of_here].
Qed.

Lemma zip_maps {X Y W} (f : X -> Y) (g : X -> W) l : zip (map f l) (map g l) = map (fun x => (f x, g x)) l.
Proof. induction l as [|x l IH]; cbn [map zip zip_with]; [done|]. by f_equal. Qed.

(** The public slots of a transact, as the circuit reads them. *)
Lemma total_public_slots asset entries used : NoDup used -> (length used <= NPublicSlots)%nat ->
  (forall a, a ∈ used <-> a ∈ map fst entries) -> Forall (fun a => Z.abs (net entries a) < 2 ^ 64) used ->
  total asset (zip (map be_val (take NPublicSlots (used ++ replicate (N_PUBLIC - length used) zero32)))
    (map signed (map (fun a => a mod bn254_modulus) (take NPublicSlots (map (net entries) used ++ replicate (N_PUBLIC - length used) 0)))))
  = total asset (leg_values entries).
Proof.
  intros Hnd Hl Hin Hr. change N_PUBLIC with NPublicSlots. rewrite !take_ge by (rewrite length_app, ?length_map, length_replicate; lia).
  set (k := (NPublicSlots - length used)%nat). rewrite !map_app, map_map, map_map.
  assert (forall x, map signed (map (fun a => a mod bn254_modulus) (replicate x 0)) = replicate x 0) as ->
    by (intros x; induction x as [|x IHx]; cbn [replicate map]; [done|by rewrite IHx]).
  assert (map be_val (replicate k zero32) = replicate k 0) as -> by (induction k as [|x IHx]; cbn [replicate map]; [done|by rewrite IHx]).
  rewrite zip_with_app by by rewrite !length_map. rewrite total_app, <- (total_net asset entries used) by (done || by intros a ?; apply Hin).
  rewrite (map_ext_in (fun x => signed _) (net entries)).
  - rewrite zip_maps. enough (total asset (zip (replicate k 0) (replicate k 0)) = 0) as -> by lia.
    rewrite zip_with_replicate. induction k as [|x IHx]; cbn [replicate total]; [done|]. rewrite IHx. by destruct (asset =? 0).
  - intros a Ha%list_elem_of_In. rewrite Forall_forall in Hr. by apply signed_small, Hr.
Qed.

(** ** The public inputs a transact assigns *)

Definition same_publics (p p' : TransactProofInputs) : Prop :=
  public_slot_assets p' = public_slot_assets p /\ public_slot_amounts p' = public_slot_amounts p /\
  signer_pk_hashes p' = signer_pk_hashes p /\ unique_owner_signer_count p' = unique_owner_signer_count p.

Section signers.
Context `{SP : SolPoseidon}.

Lemma new_signer_identity s st h st' : new_signer_hash s st = (Ok (Some h), st') -> Merge.hashed (solana_owner_identity s) = Ok h.
Proof.
  unfold new_signer_hash, cache_insert. intros Hr. apply mbindM_ok in Hr as (entries & st1 & [-> ->]%mget_ok & Hr).
  destruct (cache_entry st s) as [x|]; [by apply mret_ok in Hr as [? _]|].
  apply mbindM_ok in Hr as (y & st2 & Hr & [[= ->] _]%mret_ok). parse_inv. done.
Qed.

(** The hashes written by the signer loop are identities of signers. *)
Lemma signer_loop_identities signers hashes count st hashes' count' st' : (count <= length hashes)%nat ->
  signer_loop signers hashes count st = (Ok (hashes', count'), st') ->
  (count <= count' <= length hashes')%nat /\ take count hashes' = take count hashes /\
  forall i h, (count <= i < count')%nat -> hashes' !! i = Some h ->
    exists s, s ∈ signers /\ Merge.hashed (solana_owner_identity s) = Ok h.
Proof.
  revert hashes count st. induction signers as [|s signers IH]; intros hashes count st Hc; cbn [signer_loop]; intros Hr.
  - apply mret_ok in Hr as [[= -> ->] ->]. split_and!; [lia..|done|]. intros. lia.
  - apply mbindM_ok in Hr as ([h|] & st1 & Hnew & Hr).
    + apply mbindM_ok in Hr as (old & st2 & [Hold%ok_or_ok ->]%mlift_ok & Hr). apply new_signer_identity in Hnew.
      pose proof (lookup_lt_Some _ _ _ Hold) as Hlt.
      apply IH in Hr; [|rewrite length_insert; lia]. destruct Hr as (Hb & Ht & Hall). split; [lia|]. split.
      * apply (f_equal (take count)) in Ht. rewrite !take_take, !Nat.min_l in Ht by lia. by rewrite Ht, take_insert_ge by lia.
      * intros i x Hi Hx. destruct (decide (i = count)) as [->|Hne].
        -- exists s. split; [apply list_elem_of_here|]. rewrite Hnew. f_equal.
           assert (take (S count) hashes' !! count = Some x) as Hx' by (by rewrite lookup_take_lt by lia).
           rewrite Ht, lookup_take_lt, list_lookup_insert_eq in Hx' by lia. by injection Hx'.
        -- destruct (Hall i x ltac:(lia) Hx) as (s' & ? & ?). exists s'. split; [by apply list_elem_of_further|done].
    + apply IH in Hr as (Hb & Ht & Hall); [|done]. split; [lia|]. split; [done|]. intros i x Hi Hx.
      destruct (Hall i x Hi Hx) as (s' & ? & ?). exists s'. split; [by apply list_elem_of_further|done].
Qed.

(** The identities a transact publishes as signers are those of accounts that signed. *)
Definition signed_by (addresses : list bytes) (p : TransactProofInputs) : Prop :=
  forall h, h ∈ take (Z.to_nat (unique_owner_signer_count p)) (signer_pk_hashes p) ->
  exists s, s ∈ addresses /\ Merge.hashed (solana_owner_identity s) = Ok h.

Lemma fill_signers_identities b payer owners p st p' st' :
  fill_owner_signer_hashes b payer owners p st = (Ok p', st') ->
  public_slot_assets p' = public_slot_assets p /\ public_slot_amounts p' = public_slot_amounts p /\
  signed_by (if b then owners else [payer]) p'.
Proof.
  unfold fill_owner_signer_hashes. intros Hr. apply mbindM_ok in Hr as (entries & st1 & _ & [_ Hr]%require_ok).
  apply mbindM_ok in Hr as ([hs n] & st2 & (Hb & _ & Hall)%signer_loop_identities & [_ [-> _]%mret_ok]%require_ok); [|lia].
  assert (signer_pk_hashes (TransactProof.assigned ASSIGNED_OWNER_SIGNERS (with_signers hs (Z.of_nat n) p)) = hs /\
          unique_owner_signer_count (TransactProof.assigned ASSIGNED_OWNER_SIGNERS (with_signers hs (Z.of_nat n) p)) = Z.of_nat n) as [E1 E2]
    by by destruct p.
  split; [by destruct p|]. split; [by destruct p|]. unfold signed_by. rewrite E1, E2, Nat2Z.id.
  intros h [i Hi]%list_elem_of_lookup. pose proof (lookup_lt_Some _ _ _ Hi) as Hlt. rewrite length_take in Hlt.
  rewrite lookup_take_lt in Hi by lia. apply (Hall i h); [lia|done].
Qed.

Lemma fill_outputs_publics mode resolved p st p' st' :
  fill_output_owner_pk_hashes mode resolved p st = (Ok p', st') -> same_publics p p'.
Proof.
  unfold fill_output_owner_pk_hashes. intros [_ Hr]%require_ok. apply mbindM_ok in Hr as (hashes & st1 & _ & [-> _]%mret_ok). by destruct p.
Qed.

Lemma assign_public_signers transfers settlements n p p' : assign_public_amounts_and_assets transfers settlements n p = Ok p' ->
  signer_pk_hashes p' = signer_pk_hashes p /\ unique_owner_signer_count p' = unique_owner_signer_count p.
Proof.
  unfold assign_public_amounts_and_assets. intros Hr. destruct (negb (_ || _)); [|done]. destruct (rfold _ _ _) as [[[assets amounts] k]|e|]; [|done..].
  cbn [rbind] in Hr. destruct (negb _); [|done]. injection Hr as <-. by destruct p.
Qed.

Lemma assign_owners_facts a ix resolved p p1 : assign_owners_and_amounts a ix resolved p = Ok p1 ->
  signed_by (if requires_input_signatures (ti_circuit ix) then map vaddr (ta_owner_signers a) else [vaddr (ta_payer a)]) p1 /\
  exists p', public_slot_assets p' = public_slot_assets p /\ public_slot_amounts p' = public_slot_amounts p /\
    assign_public_amounts_and_assets (ti_interface_transfers ix) (ta_settlements a) (Z.to_nat (num_public_asset_slots (ti_circuit ix))) p' = Ok p1.
Proof.
  unfold assign_owners_and_amounts. intros Hr. destruct (fst _) as [p'|e|] eqn:Hf; [|done..]. cbn [rbind] in Hr.
  destruct (mbindM _ _ _) as [r st] eqn:Hm in Hf. cbn [fst] in Hf. subst r.
  apply mbindM_ok in Hm as (p2 & st2 & (E1 & E2 & Hs)%fill_signers_identities & (E3 & E4 & E5 & E6)%fill_outputs_publics).
  pose proof (assign_public_signers _ _ _ _ _ Hr) as [E7 E8]. split.
  - unfold signed_by in *. by rewrite E7, E8, E5, E6.
  - exists p'. split_and!; [by rewrite E3|by rewrite E4|done].
Qed.

End signers.

(** ** The accounts that sign *)

Lemma next_muts_within n e cap pushed it l it' L L' : next_muts n e cap pushed it L = (Ok (l, it'), L') ->
  iter_accounts it' ⊆ iter_accounts it.
Proof.
  revert pushed it L. induction n as [|n IH]; intros pushed it L Hr; cbn [next_muts] in Hr; parse_inv; [done|].
  apply IH in Hr. iter_facts. match goal with H : iter_accounts it = _ |- _ => rewrite H end. set_solver.
Qed.

Lemma parse_input_trees_within n trees it trees' it' L L' : parse_input_trees n trees it L = (Ok (trees', it'), L') ->
  iter_accounts it' ⊆ iter_accounts it.
Proof.
  revert trees it L. induction n as [|n IH]; intros trees it L Hr; cbn [parse_input_trees] in Hr; parse_inv; [done|].
  apply IH in Hr. iter_facts. match goal with H : iter_accounts it = _ |- _ => rewrite H end. set_solver.
Qed.

Lemma leading_signers_sign l : Forall (fun v => vsigner v = true) (take (leading_signers l) l).
Proof.
  unfold leading_signers. induction l as [|v l IH]; cbn [HashChain.take_while]; [constructor|].
  destruct (vsigner v) eqn:Hv; cbn [length take]; by constructor.
Qed.

(** The addresses of the accounts that signed an instruction. *)
Definition signers_of (accounts : list View) : list bytes := map vaddr (filter (fun v => vsigner v = true) accounts).

Lemma signers_of_elem v accounts : vsigner v = true -> v ∈ accounts -> vaddr v ∈ signers_of accounts.
Proof. intros Hs Hv. apply list_elem_of_fmap_2, list_elem_of_filter. done. Qed.

Section prepared.
Context `{SP : SolPoseidon} `{SH : SolHash} `{PG : PoolGroth16} `{W : Wincode} `{R : Runtime}
  `{TP : TokenProgram} `{F : ArkFr} `{KM : KeyMetadata}.

Lemma from_iter_signers it ix payer trees output allow a L L' : from_iter it ix payer trees output allow L = (Ok a, L') ->
  ta_payer a = payer /\ Forall (fun v => vsigner v = true /\ v ∈ iter_accounts it) (ta_owner_signers a).
Proof.
  unfold from_iter. intros Hr. parse_inv. cbn [ta_payer ta_owner_signers]. split; [done|].
  match goal with H : next_muts _ _ _ _ _ _ = (Ok (_, ?it'), _) |- _ => apply next_muts_within in H as Hw; rename it' into it1 end.
  unfold remaining_unchecked in *. simplify_eq. pose proof (leading_signers_sign (iter_accounts it1)) as Hs.
  apply Forall_forall. intros v Hv. rewrite Forall_forall in Hs. split; [by apply Hs|]. apply Hw.
  rewrite <- (take_drop (leading_signers (iter_accounts it1)) (iter_accounts it1)), elem_of_app. by left.
Qed.

Lemma parse_signers accounts ix p a q L L1 :
  (if is_ring (ti_circuit ix) then
     do! '(a, ring_program_id) <- ring_validate_and_parse accounts ix (is_authority (ti_circuit ix));
     do! field <- mlift (Merge.hashed (hash_bytes ring_program_id));
     mret (a, assign_ring_program_id field p)
   else do! a <- transact_validate_and_parse accounts ix; mret (a, p)) L = (Ok (a, q), L1) ->
  same_publics p q /\ vaddr (ta_payer a) ∈ signers_of accounts /\
  forall s, s ∈ map vaddr (ta_owner_signers a) -> s ∈ signers_of accounts.
Proof.
  destruct (is_ring (ti_circuit ix)); intros Hr; parse_inv;
    [match goal with H : ring_validate_and_parse _ _ _ _ = _ |- _ => unfold ring_validate_and_parse, validate_program_prefix in H end
    |match goal with H : transact_validate_and_parse _ _ _ = _ |- _ => unfold transact_validate_and_parse, validate_program_prefix in H end];
    (split; [by destruct p|]); parse_inv.
  all: match goal with H : parse_input_trees _ _ _ _ = _ |- _ => apply parse_input_trees_within in H as Hw end.
  all: match goal with H : from_iter _ _ _ _ _ _ _ = _ |- _ => apply from_iter_signers in H as [Hpayer Hall] end.
  all: match goal with H : _ = Ok (_, _), E : ta_payer _ = ?v |- _ => match type of H with _ = Ok (v, _) => pose proof (next_signer_ok _ _ _ H) as (_ & _ & Hsig) end end.
  all: iter_facts; subst.
  all: repeat match goal with H : _ = _ :: _ |- _ => rewrite H in *; clear H end.
  all: split; [apply signers_of_elem; [done|set_solver]|].
  all: intros s (v' & -> & Hin)%list_elem_of_fmap; rewrite Forall_forall in Hall; destruct (Hall v' Hin) as [Hv Hin'].
  all: apply signers_of_elem; [done|set_solver].
Qed.

Lemma same_publics_trans p q r : same_publics p q -> same_publics q r -> same_publics p r.
Proof. intros (? & ? & ? & ?) (? & ? & ? & ?). unfold same_publics. split_and!; congruence. Qed.

Lemma bind_cached_inputs_publics cache ix p L p' L' : bind_cached_inputs cache ix p L = (Ok p', L') -> same_publics p p'.
Proof.
  unfold bind_cached_inputs, assign_cached_inputs. intros Hr. ix_inv.
  match type of Hr with match ?o with _ => _ end _ = _ => destruct o end; ix_inv; [|done]. by destruct p.
Qed.

Lemma apply_input_trees_publics a ix counts p L sq p' L' : apply_input_trees a ix counts p L = (Ok (sq, p'), L') -> same_publics p p'.
Proof. unfold apply_input_trees. intros Hr. parse_inv. by destruct p. Qed.

Lemma assign_outputs_publics id hash p : same_publics p (assign_external_data_hash hash (assign_output_tree_id id p)).
Proof. by destruct p. Qed.

(** The public inputs after preparation: the signers are accounts that signed, and
    the slots net the transfers that are settled. *)
Lemma prepare_transact_publics accounts ix prefix tag clk counts resolved L a cache w sq p L1 :
  prepare_transact accounts ix prefix tag clk counts resolved L = (Ok (a, cache, w, sq, p), L1) ->
  signed_by (signers_of accounts) p /\
  exists p0 p1, public_slot_assets p0 = replicate N_PUBLIC zero32 /\ public_slot_amounts p0 = replicate N_PUBLIC 0 /\
    assign_public_amounts_and_assets (ti_interface_transfers ix) (ta_settlements a) (Z.to_nat (num_public_asset_slots (ti_circuit ix))) p0 = Ok p1 /\
    same_publics p1 p.
Proof.
  unfold prepare_transact. intros Hr.
  apply mbindM_ok in Hr as ([a' q] & L2 & (Hq & Hpayer & Howners)%parse_signers & Hr). parse_inv.
  match goal with H : assign_owners_and_amounts _ _ _ _ = Ok _ |- _ => apply assign_owners_facts in H as (Hs & p0 & E1 & E2 & Hassign) end.
  match goal with H : apply_input_trees _ _ _ _ _ = _ |- _ => apply apply_input_trees_publics in H as Hp1 end.
  match goal with H : bind_cached_inputs _ _ _ _ = _ |- _ => apply bind_cached_inputs_publics in H as Hp2 end.
  match goal with |- context [assign_external_data_hash ?hash (assign_output_tree_id ?id ?q)] =>
    pose proof (same_publics_trans _ _ _ (same_publics_trans _ _ _ Hp1 Hp2) (assign_outputs_publics id hash q)) as (F1 & F2 & F3 & F4);
    set (final := assign_external_data_hash hash (assign_output_tree_id id q)) in * end.
  split.
  - unfold signed_by. rewrite F3, F4. intros h Hin. destruct (Hs h Hin) as (s & Hsin & Hid). exists s. split; [|done].
    destruct (requires_input_signatures _); [by apply Howners|]. by apply list_elem_of_singleton in Hsin as ->.
  - eexists p0, _. destruct Hq as (G1 & G2 & _). split; [by rewrite E1, G1|]. split; [by rewrite E2, G2|].
    split; [exact Hassign|]. by split_and!.
Qed.
(** An accepted transact: the inputs of its proof, the proof, and the settlement. *)
Lemma transact_verified accounts ix prefix tag L u L' : process_transact_ix accounts ix prefix tag L = (Ok u, L') ->
  exists a p L1 L2 L3, transact_inputs accounts ix prefix tag L = (Ok p, L1) /\ validate_circuit_type ix tag = Ok tt /\
    transact_verify ix p = Ok tt /\
    settle_interface_transfers (zip (ti_interface_transfers ix) (ta_settlements a)) L2 = (Ok tt, L3) /\
    signed_by (signers_of accounts) p /\
    exists p0 p1, public_slot_assets p0 = replicate N_PUBLIC zero32 /\ public_slot_amounts p0 = replicate N_PUBLIC 0 /\
      assign_public_amounts_and_assets (ti_interface_transfers ix) (ta_settlements a) (Z.to_nat (num_public_asset_slots (ti_circuit ix))) p0 = Ok p1 /\
      same_publics p1 p.
Proof.
  intros Hr. unfold process_transact_ix, process_resolved_transact in Hr. parse_inv.
  match goal with H : prepare_transact _ _ _ _ _ _ _ _ = (Ok (?a, _, _, _, ?p), ?M) |- _ => rename H into Hprep, p into q, M into L1; exists a, q, L1 end.
  match goal with H : validate_circuit_type _ _ = Ok ?x |- _ => rename H into Htype; destruct x end.
  match goal with H : transact_verify _ _ = Ok ?x |- _ => rename H into Hverify; destruct x end.
  match goal with H : settle_interface_transfers _ ?A = (Ok ?x, ?B) |- _ => exists A, B; rename H into Hsettle; destruct x end.
  pose proof (prepare_transact_publics _ _ _ _ _ _ _ _ _ _ _ _ _ _ Hprep) as [Hsigned Hpub].
  split; [|done]. unfold transact_inputs, mbindM, mlift. rewrite Htype. cbn [map_err get_clock mget].
  repeat match goal with H : _ = Ok _ |- _ => rewrite H; cbn [map_err get_clock mget] end. by rewrite Hprep.
Qed.

End prepared.

(** ** The notes behind an instruction *)

(** The circuit's inputs and outputs against the instruction: the published
    nullifiers and hashes are theirs, and a slot that publishes nothing carries
    nothing. *)
Record notes_of {H : CircuitHash} (ix : TransactIxData) (ins : list Input) (outs : list UtxoCircuitFields) (output_tree : Z) : Prop := {
  no_spent : (length (ti_inputs ix) <= length ins)%nat;
  no_inputs : forall i input, ins !! i = Some input ->
    match ti_inputs ix !! i with
    | Some x => exists tree, be_val (nullifier_hash x) = nullifier_of input tree
    | None => carries_nothing (in_Utxo input)
    end;
  no_created : (length (ti_outputs ix) <= length outs)%nat;
  no_outputs : forall i u, outs !! i = Some u ->
    match ti_outputs ix !! i with
    | Some o => be_val (to_utxo_hash o) = utxo_hash u output_tree
    | None => carries_nothing u
    end;
  no_amounts : Forall (fun u => 0 <= u_Amount u < 2 ^ 64) (inputUtxos ins ++ outs);
}.

Lemma pad_lookup {X} (f : X -> bytes) n (l : list X) i v : map be_val (pad n (map f l)) !! i = Some v ->
  match l !! i with Some x => v = be_val (f x) | None => v = 0 end.
Proof.
  rewrite list_lookup_fmap. unfold pad. destruct (l !! i) as [x|] eqn:Hi.
  - rewrite lookup_app_l by (rewrite length_map; by eapply lookup_lt_Some). rewrite list_lookup_fmap, Hi. by intros [= <-].
  - rewrite lookup_app_r by (rewrite length_map; by apply lookup_ge_None). destruct (replicate _ _ !! _) as [z|] eqn:Hz; [|done].
    apply lookup_replicate in Hz as [-> _]. by intros [= <-].
Qed.

Lemma be_val_nonzero b : is_bytes 32 b -> b <> zero32 -> be_val b <> 0.
Proof. intros Hb Hne Hz. apply Hne, be_val_inj; [by rewrite Hb|]. by rewrite Hz. Qed.

Section accepted.
Context {C : Gnark} {GL : GnarkLaws C} {H : CircuitHash} {HL : CircuitHashLaw H} {E : Ed25519Gadget}.
Context `{SP : SolPoseidon} `{SH : SolHash} `{PG : PoolGroth16} `{W : Wincode} `{R : Runtime}
  `{TP : TokenProgram} `{F : ArkFr} `{KM : KeyMetadata}.
Context {HF : PoseidonField SP} {PA : PoseidonAgrees SP H} {PC : PoseidonChecked SP} {FL : ArkFrLaws F}.
Context (Q : list Z -> Prop) (HQ : ideal Q) {PS : PoolKeySound PG Q}.
Context (Hzero : zero_suffix_law) (Hslot : slot_suffix_law) (Hsigner : signer_suffix_law).

Lemma sound_notes ix tag p t pk signers sg : transact_data_typed ix -> validate_circuit_type ix tag = Ok tt ->
  commits ix p t pk -> length (Outputs t) = length (OutputHashes t) -> length (Inputs t) = length (Nullifiers t) ->
  tx_sound Q t signers sg -> notes_of ix (Inputs t) (Outputs t) (OutputTreeID t).
Proof.
  intros (Hin & Hout & _) Htype Hcm Hlo Hli Hs.
  assert (Forall (fun x => nullifier_hash x <> zero32) (ti_inputs ix) /\ Forall (fun o => to_utxo_hash o <> zero32) (ti_outputs ix))
    as [Hnz Hoz] by (unfold validate_circuit_type in Htype; ix_inv; split; by eapply nonzero_elements).
  rewrite Forall_forall in Hin, Hnz. rewrite Forall_forall in Hout, Hoz. split.
  - rewrite Hli, (cm_nullifiers _ _ _ _ Hcm). unfold pad. rewrite length_map, length_app, length_map. lia.
  - intros i input Hi. destruct (ts_inputs _ _ _ _ Hs i input Hi) as (nf & signer & slot & skip & flag & Hnf & _ & _ & _ & _ & _ & Hsound).
    rewrite (cm_nullifiers _ _ _ _ Hcm) in Hnf. apply pad_lookup in Hnf. destruct (ti_inputs ix !! i) as [x|] eqn:Hx.
    + apply list_elem_of_lookup_2 in Hx. subst nf. exists (slot_ID slot). apply (in_nullifier _ _ _ _ _ Hsound).
      apply Z.eqb_neq, be_val_nonzero; [by apply Hin|by apply Hnz].
    + subst nf. apply (in_empty _ _ _ _ _ Hsound). rewrite (in_compact _ _ _ _ _ Hsound eq_refl). done.
  - rewrite Hlo, (cm_outputs _ _ _ _ Hcm). unfold pad. rewrite length_map, length_app, length_map. lia.
  - intros i u Hu. destruct (out_hash _ _ _ _ (ts_outputs _ _ _ _ Hs i u Hu)) as (hash & Hhash & Hdummy & Hreal).
    rewrite (cm_outputs _ _ _ _ Hcm) in Hhash. apply pad_lookup in Hhash. destruct (ti_outputs ix !! i) as [o|] eqn:Ho.
    + apply list_elem_of_lookup_2 in Ho. subst hash. apply Hreal, be_val_nonzero; [by apply Hout|by apply Hoz].
    + apply (out_empty _ _ _ _ (ts_outputs _ _ _ _ Hs i u Hu)). by apply Hdummy.
  - apply (ts_amounts _ _ _ _ Hs).
Qed.
(** The proof of an accepted transact, with its notes. *)
Lemma accepted_notes accounts ix prefix tag L u L' : transact_data_typed ix -> process_transact_ix accounts ix prefix tag L = (Ok u, L') ->
  (forall p L1, transact_inputs accounts ix prefix tag L = (Ok p, L1) -> transact_hashed Q ix p) ->
  exists settlements p legs t pk extra signers sg L2 L3,
    settle_interface_transfers (zip (ti_interface_transfers ix) settlements) L2 = (Ok tt, L3) /\
    Forall2 leg_of (zip (ti_interface_transfers ix) settlements) legs /\ length legs = length (ti_interface_transfers ix) /\
    signed_by (signers_of accounts) p /\ commits ix p t pk /\ (has_message_hash (ti_circuit ix) = false -> extra = []) /\
    tx_sound Q t signers sg /\ notes_of ix (Inputs t) (Outputs t) (OutputTreeID t) /\
    (forall asset, total asset (zip (PublicAssets t) (map signed (PublicAmounts t))) = total asset (leg_values legs)) /\
    forall owners, authorized_owners (ti_circuit ix) pk extra = Some owners -> forall i input, Inputs t !! i = Some input ->
      u_Domain (in_Utxo input) <> DummyDomain -> exists x, signers !! i = Some x /\ x <> 0 /\ x ∈ owners.
Proof.
  intros Hty Hr Hhashed.
  destruct (transact_verified _ _ _ _ _ _ _ Hr) as (a & p & L1 & L2 & L3 & Hp & Htype & Hv & Hsettle & Hsigned & p0 & p1 & E1 & E2 & Hassign & F1 & F2 & _).
  destruct (transact_commits Q HQ Hzero Hslot Hsigner ix p Hv (Hhashed p L1 Hp)) as (t & pk & extra & Hcm & Hextra & _ & Hproved).
  destruct (pv_sound _ _ _ _ _ _ _ _ Hproved) as (signers & sg & Hsound & Hauth).
  destruct (public_slots_net_transfers _ _ _ _ _ E1 E2 Hassign) as (legs & used & Hlegs & Hll & Hnd & Hb & Hused & G1 & G2 & Hnet).
  exists (ta_settlements a), p, legs, t, pk, extra, signers, sg, L2, L3.
  destruct (pv_nullifiers _ _ _ _ _ _ _ _ Hproved) as [Hn Hi]. pose proof (pv_outputs _ _ _ _ _ _ _ _ Hproved) as Ho.
  pose proof (pv_created _ _ _ _ _ _ _ _ Hproved) as Hc.
  split_and!; try done.
  - eapply sound_notes; try done; congruence.
  - intros asset. rewrite (cm_assets _ _ _ _ Hcm), (cm_amounts _ _ _ _ Hcm), F1, F2, G1, G2.
    apply total_public_slots; [done|change NPublicSlots with N_PUBLIC; lia|done|]. eapply Forall_impl; [exact Hnet|]. by intros ? [_ ?].
Qed.

(** C2. Value is conserved.  The notes an accepted transact consumes, plus what its
    interface transfers move in and minus what they move out, are the notes it
    creates: for every asset and over the integers.  The consumed notes are those
    of the published nullifiers and the created ones those of the published
    hashes, slots that publish nothing carry nothing, every amount is a u64, and
    the transfers are the ones the instruction settles. *)
Theorem transact_conserves_value (accounts : list View) (ix : TransactIxData) (prefix : bytes) (tag : InstructionTag)
    (L L' : Ledger) (u : unit) :
  transact_data_typed ix -> process_transact_ix accounts ix prefix tag L = (Ok u, L') ->
  (forall p L1, transact_inputs accounts ix prefix tag L = (Ok p, L1) -> transact_hashed Q ix p) ->
  exists settlements legs ins outs output_tree L2 L3,
    settle_interface_transfers (zip (ti_interface_transfers ix) settlements) L2 = (Ok tt, L3) /\
    Forall2 leg_of (zip (ti_interface_transfers ix) settlements) legs /\ length legs = length (ti_interface_transfers ix) /\
    notes_of ix ins outs output_tree /\
    forall asset, utxo_total asset (inputUtxos ins) + total asset (leg_values legs) = utxo_total asset outs.
Proof.
  intros Hty Hr Hh.
  destruct (accepted_notes _ _ _ _ _ _ _ Hty Hr Hh) as (st & p & legs & t & pk & extra & sn & sg & L2 & L3 & Hsettle & Hlegs & Hll & _ & _ & _ & Hs & Hn & Ht & _).
  exists st, legs, (Inputs t), (Outputs t), (OutputTreeID t), L2, L3. split_and!; try done.
  intros asset. rewrite <- Ht. apply (ts_balance _ _ _ _ Hs).
Qed.

(** C4. Every consumed note is signed for.  When an accepted transact carries neither an
    in-circuit signature nor a ring authority's approval, each note (and each
    address) it consumes is owned by the identity of an account that signed the
    instruction. *)
Theorem consumed_notes_are_signed_for (accounts : list View) (ix : TransactIxData) (prefix : bytes) (tag : InstructionTag)
    (L L' : Ledger) (u : unit) :
  transact_data_typed ix -> process_transact_ix accounts ix prefix tag L = (Ok u, L') ->
  (forall p L1, transact_inputs accounts ix prefix tag L = (Ok p, L1) -> transact_hashed Q ix p) ->
  is_authority (ti_circuit ix) = false -> has_message_hash (ti_circuit ix) = false ->
  exists ins outs output_tree, notes_of ix ins outs output_tree /\
    forall i input, ins !! i = Some input -> u_Domain (in_Utxo input) <> DummyDomain ->
    exists s h, s ∈ signers_of accounts /\ Merge.hashed (solana_owner_identity s) = Ok h /\
      u_Owner (in_Utxo input) = owner_of (be_val h) (NullifierSecret input).
Proof.
  intros Hty Hr Hh Hauth Hmsg.
  destruct (accepted_notes _ _ _ _ _ _ _ Hty Hr Hh) as (st & p & legs & t & pk & extra & sn & sg & L2 & L3 & _ & _ & _ & Hsigned & Hcm & Hx & Hs & Hn & _ & Howners).
  rewrite Hx in Howners by done. unfold authorized_owners in Howners. rewrite Hauth, app_nil_r in Howners.
  exists (Inputs t), (Outputs t), (OutputTreeID t). split; [done|]. intros i input Hi Hd.
  destruct (Howners _ eq_refl i input Hi Hd) as (x & Hsig & Hnz & Hin). rewrite (cm_signers _ _ _ _ Hcm) in Hin.
  apply list_elem_of_fmap in Hin as (h & -> & [Hin|Hin]%elem_of_app); [|by apply elem_of_replicate in Hin as [-> _]].
  destruct (Hsigned h Hin) as (s & Hs1 & Hid). exists s, h. split_and!; [done..|].
  destruct (ts_inputs _ _ _ _ Hs i input Hi) as (nf & signer & slot & skip & flag & _ & Hsig' & _ & _ & _ & _ & Hsound).
  rewrite Hsig in Hsig'. injection Hsig' as <-. by apply (in_owner _ _ _ _ _ Hsound).
Qed.

(** ** Merges *)

(** The inputs of a merge against its instruction: each real one is a note of one
    owner and asset whose nullifier is published, the others hold nothing, and the
    output is a note of that owner and asset holding their sum. *)
Record merged_notes (ix : MergeTransactIxData) (ins : list Merging.Input) (owner asset ring secret : Z) : Prop := {
  mn_spent : (length (mt_nullifiers ix) <= length ins)%nat;
  mn_inputs : forall i input, ins !! i = Some input ->
    (Merging.m_Domain input = DummyDomain /\ Merging.m_Amount input = 0) \/
    exists v tree, mt_nullifiers ix !! i = Some v /\
      be_val v = poseidon [utxo_hash (Merging.merged_utxo owner asset ring input) tree; Merging.m_Blinding input; secret];
  mn_amounts : Forall (fun i => 0 <= Merging.m_Amount i < 2 ^ 64) ins;
  mn_total : 0 <= Merging.sum_amounts ins < 2 ^ 64;
  mn_output : exists blinding ring_data output_tree, be_val (mt_output_utxo_hash ix) =
    utxo_hash (mkUtxo UtxoDomain owner asset (Merging.sum_amounts ins) blinding 0 ring_data ring) output_tree;
}.

Lemma checked_merge_notes L accounts ix d : merge_checked L accounts ix d -> merge_hashed Q ix d ->
  exists ins owner asset ring secret, merged_notes ix ins owner asset ring secret.
Proof.
  intros [_ Htail _ Hv] Hh. destruct (merge_verify_commits Q HQ Hzero Hslot ix d Htail Hv Hh) as (width & t & _ & Hle & Hc & [der Hs] & Hli).
  eexists (Merging.t_Inputs t), _, _, (Merging.t_RingProgramID t), (Merging.t_UserNullifierSecret t).
  destruct (Merging.ms_amount _ _ _ Hs) as [Hsum Htotal]. destruct (Merging.ms_output _ _ _ Hs) as [blinding Hout].
  split; [lia| | |by rewrite <- Hsum|].
  - intros i input Hi. destruct (Merging.ms_inputs _ _ _ Hs i input Hi) as (n & Hn & tree & _ & _ & _ & _ & Hsound).
    destruct (Merging.mi_kind _ _ _ _ _ _ _ _ Hsound) as [Hd|Hd]; [left; split; [done|by apply (Merging.mi_dummy _ _ _ _ _ _ _ _ Hsound)]|right].
    destruct (Merging.mi_nullifier _ _ _ _ _ _ _ _ Hsound Hd) as [Hnull HQn]. rewrite (mc_nullifiers _ _ _ _ Hc) in Hn.
    rewrite <- (map_id (mt_nullifiers ix)) in Hn. apply pad_lookup in Hn. destruct (mt_nullifiers ix !! i) as [v|] eqn:Hiv.
    + exists v, (slot_ID tree). split; [done|]. cbn beta in Hn. rewrite <- Hn. exact Hnull.
    + exfalso. apply (ideal_nonzero _ HQ _ HQn). by rewrite <- Hnull.
  - apply Forall_lookup. intros i input Hi. destruct (Merging.ms_inputs _ _ _ Hs i input Hi) as (n & _ & tree & _ & _ & _ & _ & Hsound).
    apply (Merging.mi_amount _ _ _ _ _ _ _ _ Hsound).
  - eexists blinding, _, _. rewrite <- (mc_output _ _ _ _ Hc). exact Hout.
Qed.

End accepted.

(** The merge an instruction carries. *)
Definition merge_of {D : WincodeFormats} (data : bytes) : option MergeTransactIxData :=
  match data with
  | [] => None
  | ix_tag :: payload =>
      match tag_try_from (byte_val ix_tag) with
      | Some MergeTransact => decode_merge payload
      | Some RingMergeTransact => mr_merge <$> decode_merge_ring payload
      | _ => None
      end
  end.

Section merges.
Context {C : Gnark} {GL : GnarkLaws C} {H : CircuitHash} {HL : CircuitHashLaw H} {E : Ed25519Gadget}.
Context `{SP : SolPoseidon} `{SH : SolHash} `{G : Groth16} `{PG : PoolGroth16} `{W : Wincode} `{R : Runtime}
  `{TP : TokenProgram} `{F : ArkFr} `{KM : KeyMetadata} `{LS : LoaderState} `{A : ArrayMapLib} `{D : WincodeFormats}.
Context {HT : PoseidonTotal SP} {HS : PoseidonSized SP} {HF : PoseidonField SP} {HZ : ZeroBytesLaw Poseidon.Poseidon}
  {PA : PoseidonAgrees SP H} {PC : PoseidonChecked SP}
  {HW : WincodeLaw W} {RL : RuntimeLaws R} {TL : TokenLaws TP} {PD : PdaDisjoint R} {DT : WincodeTyped D}.
Context (Q : list Z -> Prop) (HQ : ideal Q) {PS : PoolKeySound PG Q}.
Context (Hzero : zero_suffix_law) (Hslot : slot_suffix_law).

(** C3. A merge conserves value.  On a run whose hash inputs do not collide, an accepted
    merge of either rail consumes notes of one owner and one asset, publishes the
    nullifier of each, and creates one note of the same owner and asset that holds
    their sum; the sum is a u64, so nothing is lost to overflow. *)
Theorem merge_conserves_value (tr : list (bytes * list bytes)) (L L' : Ledger) (program_id : bytes) (accounts : list View)
    (data : bytes) (ix : MergeTransactIxData) (u : unit) :
  known_run Q tr L -> process_instruction program_id accounts data L = (Ok u, L') -> spend_hashed Q L accounts data ->
  merge_of data = Some ix ->
  exists ins owner asset ring secret, merged_notes ix ins owner asset ring secret.
Proof.
  intros Hrun Hr Hh Hix. pose proof (reachable_good _ _ (known_reachable Q _ _ Hrun)) as Hg.
  unfold process_instruction in Hr. apply require_ok in Hr as [_ Hr].
  destruct data as [|b payload]; [done|]. apply mbindM_ok in Hr as (tag & L1 & [Htag%ok_or_ok ->]%mlift_ok & Hr).
  unfold merge_of, spend_hashed in *. rewrite Htag in *. destruct tag; try done; cbn [dispatch] in Hr.
  all: unfold decoded in Hr; apply mbindM_ok in Hr as (ix' & L2 & [Hd%ok_or_ok ->]%mlift_ok & Hr); rewrite Hd in Hix; injection Hix as <-.
  - destruct (merge_transact_accepted _ _ _ _ _ _ (decode_merge_typed _ _ Hd) Hg Hr) as (d & L3 & Hp & Hc).
    eapply (checked_merge_notes Q HQ Hzero Hslot); [exact Hc|by eapply Hh].
  - destruct (merge_ring_accepted _ _ _ _ _ _ Hg Hr) as (d & L3 & Hp & Hc).
    eapply (checked_merge_notes Q HQ Hzero Hslot); [exact Hc|by eapply Hh].
Qed.

End merges.
