(* ===== verification/PoolRun.v ===== *)
(** * A run of the program

    Concrete instances of the parameters and a run of [process_instruction] from a
    genesis ledger: the protocol config is created, a tree is created in its four
    steps, a transact deposits lamports into a note and spends the nullifier of a
    dummy input, and a second transact spends the note and withdraws them; in
    place of the withdrawal, a merge turns the note into another one.  The
    verifier accepts the public inputs of these three proofs and no other.  The
    witnesses of the safety theorems evaluate the run. *)

From S2P Require Import Gnark Gadgets SparseTree TxCircuit MergeCircuit ChainSpecs.
From S2P Require Import Prelude ZeroBytes Hasher HashChain Codec Smt Batch NullifierTree NullifierQueue NullifierSafety TreeAccount TreeTypes TreeSafety Errors TreeSlot Ledger AccountChecks State Event Shared NullifierPdas Forester CreateTree Circuit UserRegistry Cache Configs Settlement Merge TransactProof ProofInputs Transact Deposit Program EventIndex TreeTrace PoolMachine PoolSteps PoolHandlers PoolCreate PoolSpend PoolTransact PoolSafety CreateSteps PoolEvents PoolProofs ModelHash.

(** ** Instances *)

Definition model_sol_hash : SolHash :=
  {| sol_sha256 vals := fbytes (sponge (map be_val vals)); sol_keccak256 vals := fbytes (sponge (map be_val vals)) |}.

(** No update proof verifies. *)
Definition no_updates : Groth16 := {|
  decompress_g1 _ := None;
  groth16_new _ _ _ _ _ := false;
  groth16_verify _ _ _ _ _ := false;
|}.

#[local] Instance pool_key_eq_dec : EqDecision PoolKey.
Proof. solve_decision. Defined.

(** The verifier of proofs without a commitment that accepts the listed statements. *)
Definition accepts (statements : list (PoolKey * bytes)) : PoolGroth16 := {|
  pool_decompress_g1 := Some;
  pool_new _ _ _ _ _ := true;
  pool_verify _ _ _ inputs key := existsb (fun '(k, hash) => bool_decide (k = key /\ [hash] = inputs)) statements;
  pool_new_with_commitment _ _ _ _ _ _ _ := false;
  pool_verify_with_commitment _ _ _ _ _ _ _ := false;
|}.

(** A token program that refuses every call. *)
Definition no_tokens : TokenProgram := {|
  unpack_account _ := None;
  unpack_mint _ := None;
  token_account_len _ := None;
  token_invoke _ _ _ _ := mthrow (RuntimeError 0);
|}.

Lemma no_tokens_laws : TokenLaws no_tokens.
Proof. by split. Qed.

Definition model_keys : KeyMetadata := {| proving_key_sha256 _ := zero32; confidential_eddsa_feature := true |}.

(** bincode: a [u32] variant index, then the fields. *)
Definition model_loader : LoaderState := fun d =>
  match d with
  | x02 :: x00 :: x00 :: x00 :: address => Some (LoaderProgram address)
  | x03 :: x00 :: x00 :: x00 :: rest =>
      Some (LoaderProgramData (le_val (take 8 rest))
        (match drop 8 rest with x01 :: authority => Some (take 32 authority) | _ => None end))
  | _ => None
  end.

Definition model_array_map : ArrayMapLib := {|
  amap := list (Z * Z);
  am_new := [];
  am_get k m := snd <$> find (fun e => e.1 =? k) m;
  am_update k v m := map (fun e => if e.1 =? k then (e.1, v) else e) m;
  am_insert k v m := if (length m <? 16)%nat then Some (m ++ [(k, v)]) else None;
  am_entries m := m;
|}.

(** ** Addresses *)

Definition authority : bytes := replicate 32 x01.
Definition owner_key : bytes := replicate 32 x02.
Definition program_data_key : bytes := replicate 32 x03.
Definition config_key : bytes := model_address [SPP_PROTOCOL_CONFIG_PDA_SEED] 255 ID.
Definition tree_key : bytes := model_address (tree_seeds 0) 255 ID.
Definition record_key : bytes := model_address (record_seeds owner_key) 255 USER_REGISTRY_PROGRAM_ID.
Definition pda_key (nullifier : bytes) : bytes := model_address (nullifier_seeds tree_key nullifier) 255 ID.

Definition signer (a : bytes) : View := mkView a true true false.
Definition writer (a : bytes) : View := mkView a false true false.
Definition reader (a : bytes) : View := mkView a false false false.

(** ** Notes

    The deposit has a dummy input and the note as its output; the withdrawal and
    the merge have the note as their input. *)

#[local] Existing Instances field_gnark model_hash.

(** The result of a circuit. *)
Definition value (m : circ Z) : Z := match m with Some (v, _) => v | None => 0 end.

Definition dummy_utxo (blinding : Z) : UtxoCircuitFields := mkUtxo DummyDomain 0 0 0 blinding 0 0 0.

Definition nullifier_of (u : UtxoCircuitFields) (secret : Z) : Z :=
  value (hash ← UtxoHashCircuit u 0; NullifierGadget hash (u_Blinding u) secret).

Definition output_blinding (firstNullifier seed : Z) (index : nat) : Z :=
  value (s ← DeriveOutputBlindingSeed firstNullifier seed; DeriveOutputBlinding firstNullifier s index).

Definition private_tx_hash (inputs outputs : list Z) (firstNullifier seed : Z) : Z :=
  value (blinding ← DerivePrivateTxBlinding firstNullifier seed;
         PrivateTxHashCircuit (wires inputs) (wires outputs) (wires (map (fun _ => 0) inputs)) blinding).

Definition owner_pk : Z := Eval vm_compute in
  match @solana_owner_identity syscall_poseidon owner_key with Ok h => be_val h | _ => 0 end.

Definition deposit_blinding : Z := 11.
Definition deposit_seed : Z := 21.
Definition withdrawal_seed : Z := 22.
Definition note_secret : Z := 31.

Definition deposit_nullifier : Z := Eval vm_compute in nullifier_of (dummy_utxo deposit_blinding) 0.

Definition note : UtxoCircuitFields := Eval vm_compute in
  mkUtxo UtxoDomain (value (pk ← nullifierPkGadget note_secret; ownerHashGadget owner_pk pk)) (be_val SOL_ASSET_FIELD) 100
    (output_blinding deposit_nullifier deposit_seed 0) 0 0 0.

Definition note_hash : Z := Eval vm_compute in value (UtxoHashCircuit note 0).
Definition note_nullifier : Z := Eval vm_compute in nullifier_of note note_secret.

(** ** Instructions *)

Definition example_proof : MergeProofData := mkMergeProof zero32 (replicate 128 x00) zero32.

Definition deposit : TransactIxData := Eval vm_compute in
  mkTransactIx 2000 (replicate 33 x00) (replicate 16 x00) [TransferSolDeposit 100] None None
    [mkTransactOutput (fbytes note_hash) (Inline owner_key) None] []
    (fbytes (private_tx_hash [0] [note_hash; 0] deposit_nullifier deposit_seed))
    (ConfidentialSigner 1 2 3) example_proof [mkInputUtxo (fbytes deposit_nullifier) 0] [mkTreeContext NO_UTXO_ROOT 0].

Definition withdrawal : TransactIxData := Eval vm_compute in
  mkTransactIx 2000 (replicate 33 x00) (replicate 16 x00) [TransferSolWithdrawal 100] None None [] []
    (fbytes (private_tx_hash [note_hash] [0; 0] note_nullifier withdrawal_seed))
    (ConfidentialSigner 1 2 3) example_proof [mkInputUtxo (fbytes note_nullifier) 0] [mkTreeContext 1 0].

(** The merge of the note alone: the note it creates, its encryption and the hash of
    the merge. *)
Definition merged_note : UtxoCircuitFields := Eval vm_compute in
  mkUtxo UtxoDomain (u_Owner note) (u_Asset note) (u_Amount note)
    (value (Merging.MergeOutputBlinding note_secret note_nullifier)) 0 0 0.

Definition note_nullifier_pk : Z := Eval vm_compute in value (nullifierPkGadget note_secret).

Definition merge_salt : bytes := replicate 16 x05.

Definition merge_ciphertext : list Z := Eval vm_compute in
  match Merging.MergeOutputCiphertext note_secret note_nullifier (be_val merge_salt) (u_Amount note) (0, 0) with
  | Some (c, _) => c
  | None => []
  end.

Definition merge_private_tx_hash : Z := Eval vm_compute in
  value (blinding ← DerivePrivateTxBlinding note_nullifier note_secret;
         output ← UtxoHashCircuit merged_note 0;
         PrivateTxHashCircuit (wires (note_hash :: replicate 7 0)) (wires [output]) (replicate 8 (0, true)) blinding).

Definition note_merge : MergeTransactIxData := Eval vm_compute in
  mkMergeIx 2000 example_proof (fbytes (value (UtxoHashCircuit merged_note 0)))
    (Merge.PoseidonCtrV1 merge_salt (map fbytes merge_ciphertext)) (fbytes merge_private_tx_hash)
    [fbytes note_nullifier] 1 0 None.

(** Formats that know the three transactions. *)
Definition model_formats : WincodeFormats := {|
  decode_transact d := match d with [x01] => Some (deposit, [x01]) | [x02] => Some (withdrawal, [x02]) | _ => None end;
  decode_merge d := match d with [x03] => Some note_merge | _ => None end;
  decode_merge_ring _ := None;
  decode_deposit _ := None;
  decode_ring_deposit _ := None;
  decode_create_cache _ := None;
|}.

Lemma model_formats_typed : WincodeTyped model_formats.
Proof.
  split; [| |done..].
  - intros d ix p H. cbn in H. repeat case_match; try done; injection H as <- <-.
    all: unfold transact_data_typed, is_bytes; split_and!; repeat constructor; by vm_compute.
  - intros d ix H. cbn in H. repeat case_match; try done. injection H as <-.
    unfold merge_data_typed, is_bytes. split_and!; [repeat constructor|..]; by vm_compute.
Qed.

Definition config_data : bytes :=
  byte_of (tag_byte CreateProtocolConfig) ::
  enc create_protocol_config_codec (mkCreateProtocolConfig authority authority 0 authority authority 0 0 authority).

Definition config_views : list View :=
  [signer authority; signer authority; writer config_key; reader SYSTEM_PROGRAM; reader ID; reader program_data_key].

Definition tree_data : bytes :=
  byte_of (tag_byte CreateTree) :: enc create_tree_codec (mkCreateTreeData 0 default_init_params example_fees).

Definition tree_views : list View :=
  [signer authority; signer authority; writer config_key; writer tree_key; reader SYSTEM_PROGRAM].

Definition transact_data (payload : byte) : bytes := [byte_of (tag_byte Event.Transact); payload].

Definition deposit_views : list View :=
  [signer authority; writer tree_key; reader ID; reader SYSTEM_PROGRAM; writer tree_key; writer (pda_key (fbytes deposit_nullifier));
   writer SOL_INTERFACE; signer authority].

Definition withdrawal_views : list View :=
  [signer authority; writer tree_key; reader ID; reader SYSTEM_PROGRAM; writer tree_key; writer (pda_key (fbytes note_nullifier));
   signer owner_key; writer SOL_INTERFACE; writer authority].

Definition merge_data : bytes := [byte_of (tag_byte MergeTransact); x03].

Definition merge_views : list View :=
  [writer tree_key; writer tree_key; signer authority; reader record_key; reader SYSTEM_PROGRAM; reader ID;
   writer (pda_key (fbytes note_nullifier))].

(** ** The run *)

Definition absent : Account := mkAccount 0 SYSTEM_PROGRAM [].

Definition genesis_ledger : Ledger := {|
  accounts a :=
    if decide (a = authority) then mkAccount (10 ^ 13) SYSTEM_PROGRAM []
    else if decide (a = ID) then mkAccount 1 BPF_LOADER_UPGRADEABLE_ID ([x02; x00; x00; x00] ++ program_data_key)
    else if decide (a = program_data_key) then
      mkAccount 1 BPF_LOADER_UPGRADEABLE_ID ([x03; x00; x00; x00] ++ replicate 8 x00 ++ x01 :: authority)
    else if decide (a = record_key) then
      mkAccount 1 USER_REGISTRY_PROGRAM_ID
        (record_data (mkUserRecord owner_key 255 (fbytes note_nullifier_pk) (replicate 33 x00) UserRegistry.PoseidonCtrV1))
    else absent;
  log := [];
  minimum_balance n := Ok ((n + 128) * 6960);
  clock := mkClock 5 1000;
|}.

Notation run_with verifier views data := (@process_instruction syscall_poseidon model_sol_hash no_updates verifier cast_exact
  model_runtime no_tokens model_fr model_keys model_loader model_array_map model_formats ID views data).

(** The ledger when the tree has been created. *)
Definition with_tree_created (verifier : PoolGroth16) : Ledger :=
  Nat.iter 4 (fun L => (run_with verifier tree_views tree_data L).2) (run_with verifier config_views config_data genesis_ledger).2.

Definition inputs_of (ix : TransactIxData) (prefix : bytes) (views : list View) (L : Ledger) : res ProgramError TransactProofInputs :=
  (@transact_inputs syscall_poseidon model_sol_hash cast_exact model_runtime no_tokens model_keys views ix prefix Event.Transact L).1.

Definition statement_of (ix : TransactIxData) (inputs : res ProgramError TransactProofInputs) : bytes :=
  match (let? p := inputs in @public_input_hash syscall_poseidon model_sol_hash model_fr ix p) with Ok h => h | _ => [] end.

Definition deposit_statement : bytes := Eval vm_compute in
  statement_of deposit (inputs_of deposit [x01] deposit_views (with_tree_created (accepts []))).

Definition withdrawal_statement : bytes := Eval vm_compute in
  let verifier := accepts [(transfer_confidential 1 2, deposit_statement)] in
  let L := (run_with verifier deposit_views (transact_data x01) (with_tree_created verifier)).2 in
  statement_of withdrawal (inputs_of withdrawal [x02] withdrawal_views L).

Definition merge_inputs_of (ix : MergeTransactIxData) (views : list View) (L : Ledger) : res ProgramError MergeProofInputs :=
  (@merge_inputs syscall_poseidon model_sol_hash cast_exact model_runtime (@setup_merge_transact syscall_poseidon model_runtime views ix) ix L).1.

Definition merge_statement_of (ix : MergeTransactIxData) (inputs : res ProgramError MergeProofInputs) : bytes :=
  match (let? d := inputs in @merge_public_input_hash syscall_poseidon ix d) with Ok h => h | _ => [] end.

Definition merge_statement : bytes := Eval vm_compute in
  let verifier := accepts [(transfer_confidential 1 2, deposit_statement)] in
  let L := (run_with verifier deposit_views (transact_data x01) (with_tree_created verifier)).2 in
  merge_statement_of note_merge (merge_inputs_of note_merge merge_views L).

Definition model_pool : PoolGroth16 :=
  accepts [(transfer_confidential 1 2, deposit_statement); (transfer_confidential 1 2, withdrawal_statement);
           (merge 8, merge_statement)].

Notation run views data := (run_with model_pool views data).

Definition ledger1 : Ledger := (run config_views config_data genesis_ledger).2.
Definition ledger2 : Ledger := (run tree_views tree_data ledger1).2.
Definition ledger3 : Ledger := (run tree_views tree_data ledger2).2.
Definition ledger4 : Ledger := (run tree_views tree_data ledger3).2.
Definition ledger5 : Ledger := (run tree_views tree_data ledger4).2.
Definition ledger6 : Ledger := (run deposit_views (transact_data x01) ledger5).2.
Definition ledger7 : Ledger := (run withdrawal_views (transact_data x02) ledger6).2.

Definition accepted (r : res ProgramError unit * Ledger) : bool := match r.1 with Ok _ => true | _ => false end.

Lemma accepted_run r : accepted r = true -> r = (Ok tt, r.2).
Proof. destruct r as [[[]|e|] L]; done. Qed.

Lemma run1 : accepted (run config_views config_data genesis_ledger) = true.
Proof. vm_compute. reflexivity. Qed.

Lemma run2 : accepted (run tree_views tree_data ledger1) = true.
Proof. vm_compute. reflexivity. Qed.

Lemma run3 : accepted (run tree_views tree_data ledger2) = true.
Proof. vm_compute. reflexivity. Qed.

Lemma run4 : accepted (run tree_views tree_data ledger3) = true.
Proof. vm_compute. reflexivity. Qed.

Lemma run5 : accepted (run tree_views tree_data ledger4) = true.
Proof. vm_compute. reflexivity. Qed.

Lemma run6 : accepted (run deposit_views (transact_data x01) ledger5) = true.
Proof. vm_compute. reflexivity. Qed.

Lemma run7 : accepted (run withdrawal_views (transact_data x02) ledger6) = true.
Proof. vm_compute. reflexivity. Qed.

Lemma run_merge : accepted (run merge_views merge_data ledger6) = true.
Proof. vm_compute. reflexivity. Qed.

(** Spending the same nullifier again finds its PDA in use. *)
Example replay_is_rejected :
  (run deposit_views (transact_data x01) ledger6).1 = Err (pool NullifierAlreadyQueued).
Proof. vm_compute. reflexivity. Qed.

Lemma model_pda_disjoint : PdaDisjoint model_runtime.
Proof.
  split; intros *; cbn [derive_program_address model_runtime]; unfold model_address, cache_seeds; cbn [concat app head];
    intros [= <- _] [= E _]; apply (f_equal head) in E; vm_compute in E; done.
Qed.

Lemma owners_not_pool : SYSTEM_PROGRAM <> ID /\ BPF_LOADER_UPGRADEABLE_ID <> ID /\ USER_REGISTRY_PROGRAM_ID <> ID.
Proof.
  split_and!; apply (proj1 (bool_decide_eq_false _)); vm_compute; reflexivity.
Qed.

(** The genesis ledger has no account of the program. *)
Lemma genesis_ledger_ok : genesis genesis_ledger.
Proof.
  destruct owners_not_pool as (Hs & Hb & Hr). split; [|done]. intros a d Hc. apply (f_equal fst) in Hc.
  unfold core, genesis_ledger in Hc. cbn [accounts fst] in Hc.
  repeat case_decide; cbn [acct_owner absent] in Hc; contradiction.
Qed.

Lemma views_ok_dec views : forallb (fun v => (length (vaddr v) =? 32)%nat) views && (length views <=? 256)%nat = true ->
  views_ok views.
Proof.
  intros [Hf Hl]%andb_true_iff. split; [|by apply Nat.leb_le]. apply Forall_forall. intros v Hv%list_elem_of_In.
  rewrite forallb_forall in Hf. by apply Nat.eqb_eq, Hf.
Qed.

(** ** Witnesses *)

Notation reached := (@reachable syscall_poseidon model_sol_hash no_updates model_pool cast_exact
  model_runtime log_all no_tokens model_fr model_keys model_loader model_array_map model_formats).
Notation spends_of := (@spends model_formats).

Lemma reached_step tr L views data : reached tr L ->
  forallb (fun v => (length (vaddr v) =? 32)%nat) views && (length views <=? 256)%nat = true ->
  accepted (run views data L) = true -> reached (tr ++ spends_of views data) (run views data L).2.
Proof.
  intros Hr Hv Hrun. eapply reach_instruction; [done|by apply views_ok_dec|apply all_logged|by apply accepted_run].
Qed.

Lemma reached1 : reached [] ledger1.
Proof.
  apply (reached_step [] genesis_ledger config_views config_data), run1; [|vm_compute; reflexivity].
  apply reach_genesis, genesis_ledger_ok.
Qed.

Lemma reached5 : reached [] ledger5.
Proof.
  apply (reached_step [] ledger4 tree_views tree_data), run5; [|vm_compute; reflexivity].
  apply (reached_step [] ledger3 tree_views tree_data), run4; [|vm_compute; reflexivity].
  apply (reached_step [] ledger2 tree_views tree_data), run3; [|vm_compute; reflexivity].
  apply (reached_step [] ledger1 tree_views tree_data), run2; [apply reached1|vm_compute; reflexivity].
Qed.

Lemma deposit_spends : spends_of deposit_views (transact_data x01) = [(tree_key, [(fbytes deposit_nullifier)])].
Proof. vm_compute. reflexivity. Qed.

Lemma reached6 : reached [(tree_key, [(fbytes deposit_nullifier)])] ledger6.
Proof.
  rewrite <- deposit_spends. apply (reached_step [] ledger5 deposit_views (transact_data x01)), run6; [apply reached5|].
  vm_compute. reflexivity.
Qed.

Lemma withdrawal_views_ok : views_ok withdrawal_views.
Proof. apply views_ok_dec. vm_compute. reflexivity. Qed.

Lemma no_double_spend_witness :
  NoDup (map fst (spends_of withdrawal_views (transact_data x02))) /\ NoDup [(fbytes note_nullifier)] /\
  exists ZB l rs, tree_at ledger6 tree_key l /\
    @history syscall_poseidon no_updates ZB (nullifier l) (spent_on tree_key [(tree_key, [(fbytes deposit_nullifier)])]) rs /\
    forall index r, root_by_index (nullifier l) index = Some r ->
    exists j, rs !! j = Some r /\
      forall k v, v ∈ [(fbytes note_nullifier)] -> spent_on tree_key [(tree_key, [(fbytes deposit_nullifier)])] !! k = Some v -> (k < j * ZB)%nat.
Proof.
  apply (@no_double_spend syscall_poseidon model_sol_hash no_updates model_pool cast_exact model_runtime log_all no_tokens model_fr
    model_keys model_loader model_array_map model_formats syscall_total syscall_sized syscall_field
    syscall_zero_bytes cast_exact_law model_runtime_laws no_tokens_laws model_pda_disjoint model_formats_typed
    [(tree_key, [(fbytes deposit_nullifier)])] ledger6 ID withdrawal_views (transact_data x02)
    (run withdrawal_views (transact_data x02) ledger6).2 tree_key [(fbytes note_nullifier)]).
  - exact reached6.
  - exact withdrawal_views_ok.
  - exact (accepted_run _ run7).
  - apply list_elem_of_singleton. vm_compute. reflexivity.
Defined.

Lemma reachable_accounts_typed_witness :
  (forall a d, core ledger6 a = (ID, d) ->
    @kind syscall_poseidon no_updates model_runtime log_all (spent_on a [(tree_key, [(fbytes deposit_nullifier)])]) a d) /\
  (forall T, spent_on T [(tree_key, [(fbytes deposit_nullifier)])] <> [] ->
    exists l, tree_at ledger6 T l /\ @tree_holds syscall_poseidon no_updates log_all (spent_on T [(tree_key, [(fbytes deposit_nullifier)])]) l) /\
  (forall a b l l', tree_at ledger6 a l -> tree_at ledger6 b l' -> tree_id l = tree_id l' -> a = b).
Proof.
  apply (@reachable_accounts_typed syscall_poseidon model_sol_hash no_updates model_pool cast_exact model_runtime log_all no_tokens
    model_fr model_keys model_loader model_array_map model_formats syscall_total syscall_sized
    syscall_field syscall_zero_bytes cast_exact_law model_runtime_laws no_tokens_laws model_pda_disjoint
    model_formats_typed [(tree_key, [(fbytes deposit_nullifier)])] ledger6).
  exact reached6.
Defined.

Lemma spent_nullifiers_stay_protected_witness :
  exists l, tree_at ledger6 tree_key l /\ @spent model_runtime ledger6 tree_key l 0 (fbytes deposit_nullifier).
Proof.
  apply (@spent_nullifiers_stay_protected syscall_poseidon model_sol_hash no_updates model_pool cast_exact model_runtime log_all
    no_tokens model_fr model_keys model_loader model_array_map model_formats syscall_total syscall_sized
    syscall_field syscall_zero_bytes cast_exact_law model_runtime_laws no_tokens_laws model_pda_disjoint
    model_formats_typed [(tree_key, [(fbytes deposit_nullifier)])] ledger6 tree_key 0 (fbytes deposit_nullifier)).
  - exact reached6.
  - vm_compute. reflexivity.
Defined.

Lemma logged_event_tells_spends_witness :
  exists ev e, log (run withdrawal_views (transact_data x02) ledger6).2 = log ledger6 ++ [ev] /\
    @reconstruct_general_event model_formats (mkParsed ID (map vaddr withdrawal_views) (transact_data x02) 1) ev = Ok e /\
    @event_tells syscall_poseidon (fun T => spent_on T [(tree_key, [(fbytes deposit_nullifier)])])
      (spends_of withdrawal_views (transact_data x02)) ledger6
      (run withdrawal_views (transact_data x02) ledger6).2 e.
Proof.
  apply (@logged_event_tells_spends syscall_poseidon model_sol_hash no_updates model_pool cast_exact model_runtime log_all no_tokens
    model_fr model_keys model_array_map syscall_total syscall_sized syscall_field
    syscall_zero_bytes cast_exact_law model_runtime_laws no_tokens_laws model_formats model_loader model_pda_disjoint
    model_formats_typed [(tree_key, [(fbytes deposit_nullifier)])] ledger6 ID withdrawal_views Event.Transact [x02] 1
    (run withdrawal_views (transact_data x02) ledger6).2).
  - exact reached6.
  - exact withdrawal_views_ok.
  - set_solver.
  - exact (accepted_run _ run7).
Defined.

Notation repeatedly := (@repeated syscall_poseidon model_sol_hash no_updates model_pool cast_exact
  model_runtime no_tokens model_fr model_keys model_loader model_array_map model_formats ID).

Lemma four_steps : repeatedly tree_views tree_data 4 ledger1 ledger5.
Proof.
  eapply repeated_more; [|exact (accepted_run _ run5)]. eapply repeated_more; [|exact (accepted_run _ run4)].
  eapply repeated_more; [|exact (accepted_run _ run3)]. eapply repeated_more; [|exact (accepted_run _ run2)]. apply repeated_none.
Qed.

Lemma tree_creation_ends_witness :
  Z.of_nat 4 <= tree_creation_step_count /\
  @created_after syscall_poseidon no_updates log_all 4 tree_key 0 ledger5 /\
  (Z.of_nat 4 = tree_creation_step_count -> forall L2, run tree_views tree_data ledger5 <> (Ok tt, L2)).
Proof.
  apply (@tree_creation_ends syscall_poseidon model_sol_hash no_updates model_pool cast_exact model_runtime log_all no_tokens model_fr
    model_keys model_loader model_array_map model_formats syscall_total syscall_sized syscall_field
    syscall_zero_bytes cast_exact_law model_runtime_laws no_tokens_laws model_pda_disjoint model_formats_typed
    [] ledger1 ID tree_views (enc create_tree_codec (mkCreateTreeData 0 default_init_params example_fees)) (writer tree_key)
    (mkCreateTreeData 0 default_init_params example_fees) 4 ledger5).
  - exact reached1.
  - apply views_ok_dec. vm_compute. reflexivity.
  - reflexivity.
  - vm_compute. reflexivity.
  - vm_compute. reflexivity.
  - exact four_steps.
Defined.
