(* ===== verification/SpendRun.v ===== *)
(** * The proofs behind the run

    The statements the verifier of [PoolRun] accepts are those of three assignments,
    given here: the dummy input with its non-inclusion path in the initial
    nullifier tree, the note with its path in the state tree, and the note merged
    alone.  The hash inputs of the run are listed and do not collide, so the run is
    a [known_run] and the end-to-end theorems apply to it. *)

From S2P Require Import Prelude ZeroBytes Hasher HashChain Codec Smt Batch NullifierTree NullifierQueue NullifierSafety TreeAccount TreeTypes TreeSafety Errors TreeSlot Ledger AccountChecks State Event Shared NullifierPdas Forester CreateTree Circuit UserRegistry Cache Configs Settlement Merge TransactProof ProofInputs Transact Deposit Program TreeTrace PoolMachine PoolSteps PoolHandlers PoolCreate PoolSpend PoolTransact PoolSafety.
From S2P Require Import Gnark Gadgets PrimeField GadgetSpecs SparseTree ChainSpecs AppendCircuit NullifierRoots TxCircuit TxSpecs TxBalance TxSound TxVariants TxOwners TxProved MergeCircuit TxBinding MergeBinding PoolProofs PoolValue ModelHash PoolRun.

#[local] Existing Instances field_gnark model_hash.

(** ** The assignments *)

Definition inputs_or {X} (default : X) (inputs : res ProgramError X) : X := match inputs with Ok p => p | _ => default end.

Definition deposit_inputs : TransactProofInputs := Eval vm_compute in
  inputs_or (proof_inputs_new (ti_circuit deposit)) (inputs_of deposit [x01] deposit_views (with_tree_created (accepts []))).

Definition withdrawal_inputs : TransactProofInputs := Eval vm_compute in
  inputs_or (proof_inputs_new (ti_circuit withdrawal)) (inputs_of withdrawal [x02] withdrawal_views
    (run_with model_pool deposit_views (transact_data x01) (with_tree_created model_pool)).2).

(** No cached inputs. *)
Definition no_cache : CachedInputs := mkCached 0 0 [0] [0] [0].

(** The assignment of the 1-in 2-out circuit for an instruction and its public inputs. *)
Definition assignment (ix : TransactIxData) (p : TransactProofInputs) (statement : bytes) (input : Input) (owner : Z)
    (outputs : list UtxoCircuitFields) (seed : Z) (nullifierPks : list Z) : DefaultRingConfidentialEddsaCircuit :=
  mkDefaultEddsa (mkShape 1 2) no_cache
    (mkWitness (map be_val (pad 1 (map nullifier_hash (ti_inputs ix)))) (map be_val (pad 2 (map to_utxo_hash (ti_outputs ix))))
      (map slot_value (padded_slots (tree_slots p))) (be_val (output_tree_id p)) (be_val (ti_private_tx_hash ix))
      (be_val (external_data_hash p)) (map be_val (public_slot_assets p))
      (map (fun amount => amount mod bn254_modulus) (public_slot_amounts p)) (be_val (input_flags p))
      (map be_val (pad 2 (take (Z.to_nat (unique_owner_signer_count p)) (signer_pk_hashes p)))) (be_val statement)
      [input] [owner] outputs seed)
    (map be_val (take 2 (output_owner_pk_hashes p))) nullifierPks.

(** An input at the first leaf of both trees. *)
Definition first_input (u : UtxoCircuitFields) (secret : Z) : Input :=
  mkInput u (take 32 zeros) 0 0 0 SENTINEL (take 40 zeros) 0 secret.

Definition dummy_output (firstNullifier seed : Z) (index : nat) : UtxoCircuitFields :=
  dummy_utxo (output_blinding firstNullifier seed index).

Definition deposit_assignment : DefaultRingConfidentialEddsaCircuit := Eval vm_compute in
  assignment deposit deposit_inputs deposit_statement (first_input (dummy_utxo deposit_blinding) 0) 0
    [note; dummy_output deposit_nullifier deposit_seed 1] deposit_seed [value (nullifierPkGadget note_secret); 0].

Definition withdrawal_assignment : DefaultRingConfidentialEddsaCircuit := Eval vm_compute in
  assignment withdrawal withdrawal_inputs withdrawal_statement (first_input note note_secret) owner_pk
    (map (dummy_output note_nullifier withdrawal_seed) [0; 1]%nat) withdrawal_seed [0; 0].

Definition merge_proof_inputs : MergeProofInputs := Eval vm_compute in
  inputs_or (mkMergeInputs slot_ZERO zero32 zero32 zero32 (BindRing zero32 zero32)) (merge_inputs_of note_merge merge_views
    (run_with model_pool deposit_views (transact_data x01) (with_tree_created model_pool)).2).

Definition merge_input (domain amount blinding : Z) : Merging.Input :=
  Merging.mkInput domain amount blinding 0 (take 32 zeros) 0 0 0 SENTINEL (take 40 zeros) 0.

(** The note, and seven slots that publish nothing. *)
Definition merge_assignment : Merging.Circuit := Eval vm_compute in
  Merging.mkCircuit 8 (merge_input UtxoDomain (u_Amount note) (u_Blinding note) :: replicate 7 (merge_input DummyDomain 0 0))
    (Merging.mkOutput 0) (0, 0) owner_pk note_nullifier_pk note_secret
    (Merging.mkCommon (map be_val (pad 8 (mt_nullifiers note_merge))) (be_val (mt_output_utxo_hash note_merge))
      (be_val (mt_private_tx_hash note_merge)) (be_val (mi_external_data_hash merge_proof_inputs))
      (be_val (mi_allow_dummy_inputs merge_proof_inputs)) (map slot_value (padded_slots [mi_tree_slot merge_proof_inputs]))
      (be_val (mi_output_tree_id merge_proof_inputs)))
    owner_pk (be_val merge_salt) (be_val merge_statement).

(** ** The hash inputs *)

Definition run_queries : list (list Z) := Eval vm_compute in
  distinct (initial_queries ++ preimages (default_Define deposit_assignment) ++ preimages (default_Define withdrawal_assignment) ++
    preimages (Merging.Define merge_assignment)).

Definition known_queries (q : list Z) : Prop := q ∈ run_queries.

Notation satisfied := (satisfied_in run_queries).

Lemma satisfied_runs {A} (m : circ A) : satisfied m = true -> exists a, runs known_queries m a.
Proof. apply satisfied_in_runs. Qed.

Lemma run_queries_ideal : ideal known_queries.
Proof. apply listed_ideal. vm_compute. reflexivity. Qed.

Lemma initial_tree_known : known known_queries 40 initial_leaves.
Proof. apply initial_known; [lia|]. apply listed_in_all. vm_compute. reflexivity. Qed.

Lemma deposit_satisfied : satisfied (default_Define deposit_assignment) = true.
Proof. vm_compute. reflexivity. Qed.

Lemma withdrawal_satisfied : satisfied (default_Define withdrawal_assignment) = true.
Proof. vm_compute. reflexivity. Qed.

Lemma merge_satisfied : satisfied (Merging.Define merge_assignment) = true.
Proof. vm_compute. reflexivity. Qed.

(** ** The verifiers are sound for these inputs *)

#[local] Instance no_ed25519 : Ed25519Gadget := fun _ _ _ => cpanic.

Lemma no_updates_sound : AppendKeySound no_updates known_queries.
Proof.
  intros batch_size hash proof Hv. exfalso. unfold verify_batch_update in Hv.
  repeat (case_match; try done); unfold verify in *; by cbn in *.
Qed.

Lemma deposit_assigned : default_assigned deposit_assignment.
Proof. field_values. Qed.

Lemma withdrawal_assigned : default_assigned withdrawal_assignment.
Proof. field_values. Qed.

Lemma merge_transaction_assigned : Merging.merge_assigned (Merging.circuit_transaction merge_assignment).
Proof. field_values. Qed.

(** What an accepted proof without a commitment shows of the verifier. *)
Lemma accepts_verified statements proof hash key e1 e2 :
  @verify_groth16 (accepts statements) proof hash key e1 e2 = Ok tt -> (key, hash) ∈ statements.
Proof.
  unfold verify_groth16. cbn. destruct (g_commitment proof) as [[c1 c2]|], (has_commitment key); cbn; try done.
  destruct (existsb _ _) eqn:Hex; [|done]. intros _. apply existsb_exists in Hex as ([k h] & Hin%list_elem_of_In & Hk).
  apply bool_decide_eq_true_1 in Hk as [<- [= <-]]. exact Hin.
Qed.

Lemma model_pool_sound : PoolKeySound model_pool known_queries.
Proof.
  intros proof hash key e1 e2 Hv%accepts_verified.
  apply elem_of_cons in Hv as [[= -> ->]|Hv]; [|apply elem_of_cons in Hv as [[= -> ->]|[= -> ->]%list_elem_of_singleton]];
    cbn [key_statement].
  - exists deposit_assignment. destruct (satisfied_runs _ deposit_satisfied) as [[] Hr].
    split; [reflexivity|]. split; [apply deposit_assigned|]. split; [vm_compute; reflexivity|exact Hr].
  - exists withdrawal_assignment. destruct (satisfied_runs _ withdrawal_satisfied) as [[] Hr].
    split; [reflexivity|]. split; [apply withdrawal_assigned|]. split; [vm_compute; reflexivity|exact Hr].
  - exists merge_assignment. destruct (satisfied_runs _ merge_satisfied) as [[] Hr].
    split; [reflexivity|]. split; [apply merge_transaction_assigned|]. split; [field_values|]. split; [field_values|].
    split; [vm_compute; reflexivity|exact Hr].
Qed.

(** ** The run is a known one *)

Notation known_to := (@known_run field_gnark model_hash syscall_poseidon model_sol_hash no_updates model_pool cast_exact
  model_runtime no_tokens model_fr model_keys model_loader model_array_map model_formats known_queries).

(** The chain of a batch of at most one value is that value. *)
Lemma short_queue_hashed vs t : (length vs <= 1)%nat -> queue_hashed known_queries vs t.
Proof.
  intros Hvs j Hj. assert (length (zkp_slice (Z.to_nat (tree_zkp_batch_size t)) j vs) <= 1)%nat as Hl.
  { unfold zkp_slice. rewrite length_take, length_drop. lia. }
  destruct (zkp_slice _ j vs) as [|x [|y l]]; [exists 0; by apply runs_ret|exists (be_val x); by apply runs_ret|cbn in Hl; lia].
Qed.

(** The chains the program hashes for a proof's public inputs. *)
Definition hashes_listed (ix : TransactIxData) (p : TransactProofInputs) : bool :=
  match @public_fields syscall_poseidon model_sol_hash model_fr ix p with
  | Ok fields => satisfied (HashChain4 (map be_val fields))
  | _ => true
  end &&
  satisfied (RightHashChain4 (map be_val (pad (Z.to_nat (num_inputs (ti_circuit ix))) (map nullifier_hash (ti_inputs ix))))) &&
  satisfied (RightHashChain4 (map be_val (pad (Z.to_nat (num_outputs (ti_circuit ix))) (map to_utxo_hash (ti_outputs ix))))) &&
  satisfied (TreeSlotsHashChain (map slot_value (padded_slots (tree_slots p)))) &&
  satisfied (RightHashChain (map be_val
    (pad (signers_published (ti_circuit ix)) (take (Z.to_nat (unique_owner_signer_count p)) (signer_pk_hashes p))))).

Lemma hashes_listed_spec ix p : hashes_listed ix p = true ->
  @transact_hashed field_gnark model_hash syscall_poseidon model_sol_hash model_fr known_queries ix p.
Proof.
  unfold hashes_listed. rewrite !andb_true_iff. intros ((((Hf & Hn) & Ho) & Hs) & Hk).
  split; [|by apply satisfied_runs..]. intros fields Hfields. rewrite Hfields in Hf. by apply satisfied_runs.
Qed.

Notation inputs_run views ix prefix := (@transact_inputs syscall_poseidon model_sol_hash cast_exact model_runtime no_tokens model_keys views ix
  prefix Event.Transact).

Lemma deposit_inputs_eq : (inputs_run deposit_views deposit [x01] ledger5).1 = Ok deposit_inputs.
Proof. vm_compute. reflexivity. Qed.

Lemma withdrawal_inputs_eq : (inputs_run withdrawal_views withdrawal [x02] ledger6).1 = Ok withdrawal_inputs.
Proof. vm_compute. reflexivity. Qed.

Lemma deposit_hashed p L1 : inputs_run deposit_views deposit [x01] ledger5 = (Ok p, L1) ->
  @transact_hashed field_gnark model_hash syscall_poseidon model_sol_hash model_fr known_queries deposit p.
Proof.
  intros Hp. pose proof deposit_inputs_eq as Heq. rewrite Hp in Heq. injection Heq as ->.
  apply hashes_listed_spec. vm_compute. reflexivity.
Qed.

Lemma withdrawal_hashed p L1 : inputs_run withdrawal_views withdrawal [x02] ledger6 = (Ok p, L1) ->
  @transact_hashed field_gnark model_hash syscall_poseidon model_sol_hash model_fr known_queries withdrawal p.
Proof.
  intros Hp. pose proof withdrawal_inputs_eq as Heq. rewrite Hp in Heq. injection Heq as ->.
  apply hashes_listed_spec. vm_compute. reflexivity.
Qed.

(** The same for the merge. *)
Notation merge_run := (@merge_inputs syscall_poseidon model_sol_hash cast_exact model_runtime
  (@setup_merge_transact syscall_poseidon model_runtime merge_views note_merge) note_merge).

Lemma merge_inputs_eq : (merge_run ledger6).1 = Ok merge_proof_inputs.
Proof. vm_compute. reflexivity. Qed.

Definition merge_hashes_listed : bool :=
  match @create_padded_right_hash_chain_4 syscall_poseidon (mt_nullifiers note_merge) 8,
        @populated_tree_slots_hash_chain syscall_poseidon [mi_tree_slot merge_proof_inputs] with
  | Ok nc, Ok sc => satisfied (HashChain4 (map be_val (merge_fields note_merge merge_proof_inputs nc sc)))
  | _, _ => true
  end &&
  satisfied (RightHashChain4 (map be_val (pad 8 (mt_nullifiers note_merge)))) &&
  satisfied (TreeSlotsHashChain (map slot_value (padded_slots [mi_tree_slot merge_proof_inputs]))).

Lemma merge_hashes_ok : merge_hashes_listed = true.
Proof. vm_compute. reflexivity. Qed.

Lemma note_merge_width : merge_circuit_width (length (mt_nullifiers note_merge)) = Some 8%nat.
Proof. reflexivity. Qed.

Lemma merge_hashed_run d L1 : merge_run ledger6 = (Ok d, L1) ->
  @merge_hashed field_gnark model_hash syscall_poseidon known_queries note_merge d.
Proof.
  intros Hp. pose proof merge_inputs_eq as Heq. rewrite Hp in Heq. injection Heq as ->.
  pose proof merge_hashes_ok as Hall. unfold merge_hashes_listed in Hall. rewrite !andb_true_iff in Hall. destruct Hall as [[Hf Hn] Hs].
  split; [|intros width; rewrite note_merge_width; intros [= <-]; by apply satisfied_runs|by apply satisfied_runs].
  intros pih width nc sc [Hw Hnc Hsc _]. rewrite note_merge_width in Hw. injection Hw as <-. rewrite Hnc, Hsc in Hf.
  by apply satisfied_runs.
Qed.

Notation hashed_spend := (@spend_hashed field_gnark model_hash syscall_poseidon model_sol_hash cast_exact model_runtime no_tokens
  model_fr model_keys model_formats known_queries).

(** One instruction that is not an update, while at most one nullifier is queued. *)
Lemma known_step tr L views data : known_to tr L ->
  forallb (fun v => (length (vaddr v) =? 32)%nat) views && (length views <=? 256)%nat = true ->
  @instruction_logged (log_in known_queries) L views data -> hashed_spend L views data ->
  (forall T, length (spent_on T tr) <= 1)%nat -> accepted (run views data L) = true ->
  known_to (tr ++ spends_of views data) (run views data L).2.
Proof.
  intros Hk Hv Hlog Hspend Htr Hrun. eapply known_instruction; [exact Hk|by apply views_ok_dec|exact Hlog|exact Hspend| |by apply accepted_run].
  intros T l _. by apply short_queue_hashed.
Qed.

Lemma known1 : known_to [] ledger1.
Proof.
  apply (known_step [] genesis_ledger config_views config_data), run1; [| |exact I|exact I|intros T; apply Nat.le_0_l].
  - apply known_genesis, genesis_ledger_ok.
  - vm_compute. reflexivity.
Qed.

Lemma known_tree L : known_to [] L -> accepted (run tree_views tree_data L) = true -> known_to [] (run tree_views tree_data L).2.
Proof.
  intros Hk. apply (known_step [] L tree_views tree_data); [exact Hk| |exact I|exact I|intros T; apply Nat.le_0_l].
  vm_compute. reflexivity.
Qed.

Lemma known5 : known_to [] ledger5.
Proof.
  apply (known_tree ledger4), run5. apply (known_tree ledger3), run4. apply (known_tree ledger2), run3.
  apply (known_tree ledger1), run2. apply known1.
Qed.

Lemma deposit_spend : hashed_spend ledger5 deposit_views (transact_data x01).
Proof. intros ix prefix p L1 [= <- <-]. exact (deposit_hashed p L1). Qed.

Lemma withdrawal_spend : hashed_spend ledger6 withdrawal_views (transact_data x02).
Proof. intros ix prefix p L1 [= <- <-]. exact (withdrawal_hashed p L1). Qed.

Lemma merge_spend : hashed_spend ledger6 merge_views merge_data.
Proof. intros ix d L1 [= <-]. exact (merge_hashed_run d L1). Qed.

Definition first_spends : list (bytes * list bytes) := [(tree_key, [fbytes deposit_nullifier])].
Definition all_spends : list (bytes * list bytes) := first_spends ++ [(tree_key, [fbytes note_nullifier])].

Lemma known6 : known_to first_spends ledger6.
Proof.
  unfold first_spends. rewrite <- deposit_spends.
  apply (known_step [] ledger5 deposit_views (transact_data x01)), run6; [exact known5| |exact I|exact deposit_spend|intros T; apply Nat.le_0_l].
  vm_compute. reflexivity.
Qed.

Lemma withdrawal_spends : spends_of withdrawal_views (transact_data x02) = [(tree_key, [fbytes note_nullifier])].
Proof. vm_compute. reflexivity. Qed.

Lemma known7 : known_to all_spends ledger7.
Proof.
  unfold all_spends. rewrite <- withdrawal_spends.
  apply (known_step first_spends ledger6 withdrawal_views (transact_data x02)), run7; [exact known6| |exact I|exact withdrawal_spend|].
  - vm_compute. reflexivity.
  - intros T. unfold first_spends. rewrite spent_on_one. destruct (decide _); cbn; lia.
Qed.

(** ** Witnesses *)

(** The handler behind a transact instruction. *)
Lemma transact_handler views payload ix prefix L L' : @decode_transact model_formats [payload] = Some (ix, prefix) ->
  run views (transact_data payload) L = (Ok tt, L') ->
  @process_transact_ix syscall_poseidon model_sol_hash model_pool cast_exact model_runtime no_tokens model_fr model_keys views ix prefix
    Event.Transact L = (Ok tt, L').
Proof.
  intros Hd Hr. unfold process_instruction, transact_data in Hr. apply require_ok in Hr as [_ Hr].
  apply mbindM_ok in Hr as (tag & L1 & [Htag%ok_or_ok ->]%mlift_ok & Hr). vm_compute in Htag. injection Htag as <-.
  cbn [dispatch] in Hr. unfold decoded in Hr. rewrite Hd in Hr. exact Hr.
Qed.

Lemma withdrawal_runs :
  @process_transact_ix syscall_poseidon model_sol_hash model_pool cast_exact model_runtime no_tokens model_fr model_keys withdrawal_views
    withdrawal [x02] Event.Transact ledger6 = (Ok tt, ledger7).
Proof. exact (transact_handler withdrawal_views x02 withdrawal [x02] ledger6 ledger7 eq_refl (accepted_run _ run7)). Qed.

Lemma nullifiers_spent_once_witness : NoDup (spent_on tree_key all_spends).
Proof.
  apply (@nullifiers_spent_once field_gnark field_gnark_laws model_hash model_hash_law no_ed25519 syscall_poseidon model_sol_hash
    no_updates model_pool cast_exact model_runtime no_tokens model_fr model_keys model_loader model_array_map model_formats
    syscall_total syscall_sized syscall_field syscall_zero_bytes syscall_agrees syscall_checked model_fr_laws cast_exact_law
    model_runtime_laws no_tokens_laws model_pda_disjoint model_formats_typed known_queries run_queries_ideal no_updates_sound
    model_pool_sound model_init_root initial_tree_known syscall_zero_suffix syscall_slot_suffix syscall_signer_suffix
    all_spends ledger7 tree_key).
  exact known7.
Defined.

Lemma transact_conserves_value_witness :
  exists settlements legs ins outs output_tree L2 L3,
    @settle_interface_transfers model_runtime no_tokens (zip (ti_interface_transfers withdrawal) settlements) L2 = (Ok tt, L3) /\
    Forall2 (@leg_of syscall_poseidon) (zip (ti_interface_transfers withdrawal) settlements) legs /\
    length legs = length (ti_interface_transfers withdrawal) /\
    notes_of withdrawal ins outs output_tree /\
    forall asset, utxo_total asset (inputUtxos ins) + total asset (leg_values legs) = utxo_total asset outs.
Proof.
  apply (@transact_conserves_value field_gnark field_gnark_laws model_hash model_hash_law no_ed25519 syscall_poseidon model_sol_hash
    model_pool cast_exact model_runtime no_tokens model_fr model_keys syscall_field syscall_agrees syscall_checked model_fr_laws
    known_queries run_queries_ideal model_pool_sound syscall_zero_suffix syscall_slot_suffix syscall_signer_suffix
    withdrawal_views withdrawal [x02] Event.Transact ledger6 ledger7 tt).
  - exact (@decode_transact_typed _ model_formats_typed [x02] withdrawal [x02] eq_refl).
  - exact withdrawal_runs.
  - exact withdrawal_hashed.
Defined.

Lemma consumed_notes_are_signed_for_witness :
  exists ins outs output_tree, notes_of withdrawal ins outs output_tree /\
    forall i input, ins !! i = Some input -> u_Domain (in_Utxo input) <> DummyDomain ->
    exists s h, s ∈ signers_of withdrawal_views /\ Merge.hashed (@solana_owner_identity syscall_poseidon s) = Ok h /\
      u_Owner (in_Utxo input) = owner_of (be_val h) (NullifierSecret input).
Proof.
  apply (@consumed_notes_are_signed_for field_gnark field_gnark_laws model_hash model_hash_law no_ed25519 syscall_poseidon model_sol_hash
    model_pool cast_exact model_runtime no_tokens model_fr model_keys syscall_field syscall_agrees syscall_checked model_fr_laws
    known_queries run_queries_ideal model_pool_sound syscall_zero_suffix syscall_slot_suffix syscall_signer_suffix
    withdrawal_views withdrawal [x02] Event.Transact ledger6 ledger7 tt).
  - exact (@decode_transact_typed _ model_formats_typed [x02] withdrawal [x02] eq_refl).
  - exact withdrawal_runs.
  - exact withdrawal_hashed.
  - reflexivity.
  - reflexivity.
Defined.

Lemma merge_conserves_value_witness : exists ins owner asset ring secret, merged_notes note_merge ins owner asset ring secret.
Proof.
  apply (@merge_conserves_value field_gnark field_gnark_laws model_hash model_hash_law no_ed25519 syscall_poseidon model_sol_hash
    no_updates model_pool cast_exact model_runtime no_tokens model_fr model_keys model_loader model_array_map model_formats
    syscall_total syscall_sized syscall_field syscall_zero_bytes syscall_agrees syscall_checked cast_exact_law
    model_runtime_laws no_tokens_laws model_pda_disjoint model_formats_typed known_queries run_queries_ideal
    model_pool_sound syscall_zero_suffix syscall_slot_suffix first_spends ledger6 (run merge_views merge_data ledger6).2 ID
    merge_views merge_data note_merge tt).
  - exact known6.
  - exact (accepted_run _ run_merge).
  - exact merge_spend.
  - reflexivity.
Defined.

(** The tree of the run, read back from its account. *)
Lemma run_tree l : tree_at ledger6 tree_key l -> root_by_index (nullifier l) 0 = Some NULLIFIER_TREE_INIT_ROOT_40.
Proof.
  intros (Hcore & Hv & _). apply (f_equal snd) in Hcore. cbn [snd] in Hcore. rewrite <- (dec_enc l Hv), <- Hcore. vm_compute. reflexivity.
Qed.

Lemma served_roots_index_spent_prefixes_witness :
  exists l, tree_at ledger6 tree_key l /\ exists n t, close_before_index (nullifier l) <= 1 + Z.of_nat n /\ indexed t /\
    values t = 0 :: map be_val (take n (spent_on tree_key first_spends)) /\ NULLIFIER_TREE_INIT_ROOT_40 = fbytes (indexed_root 40 t).
Proof.
  pose proof (@reachable_good _ _ _ _ _ _ _ _ _ _ _ _ _ syscall_total syscall_sized syscall_field syscall_zero_bytes cast_exact_law
    model_runtime_laws no_tokens_laws model_pda_disjoint model_formats_typed _ _ (known_reachable known_queries _ _ known6)) as Hg.
  destruct (good_history_tree _ _ tree_key Hg) as [l Hl]; [unfold first_spends; by rewrite spent_on_one, decide_True|].
  exists l. split; [exact Hl|].
  apply (@served_roots_index_spent_prefixes field_gnark field_gnark_laws model_hash model_hash_law syscall_poseidon model_sol_hash
    no_updates model_pool cast_exact model_runtime no_tokens model_fr model_keys model_loader model_array_map model_formats
    syscall_total syscall_sized syscall_field syscall_zero_bytes syscall_agrees cast_exact_law
    model_runtime_laws no_tokens_laws model_pda_disjoint model_formats_typed known_queries run_queries_ideal no_updates_sound
    model_init_root initial_tree_known first_spends ledger6 tree_key l 0 NULLIFIER_TREE_INIT_ROOT_40).
  - exact known6.
  - exact Hl.
  - apply short_queue_hashed. unfold first_spends. rewrite spent_on_one, decide_True; [cbn; lia|done].
  - exact (run_tree l Hl).
Defined.
